(* ===== verification/_CoqProject ===== *)
-Q . S2P
Prelude.v
Bytes.v
Rlp.v
RlpStream.v
RlpTypes.v
GoHeap.v
Prque.v
KadId.v
KadTable.v
Names.v
Pit.v
Signal.v
KadPeer.v
KadPing.v
KadLookup.v
KadNode.v
Cacher.v
Fetching.v
KadCrypto.v
KadRpc.v
Dh.v
WorkerPool.v
EthPush.v
EthTypes.v
EthPeer.v
EthHandler.v
EthHandshake.v
EthAdmission.v
EthWire.v
EthData.v
EthTxFetch.v
EthSync.v
EthBlockFetch.v
EthDownload.v
EthSyncer.v
Trie.v
TrieKeys.v
TrieMap.v
TrieRefine.v
TrieStore.v
TrieHash.v
TrieRoot.v
TrieProof.v
TrieDb.v
TrieFlush.v
TrieCommit.v
TrieDisk.v
TrieDurable.v
SecureTrie.v
