(* ===== verification/Prelude.v ===== *)
(** * A verification library for ndn-geth

    ndn-geth is a Go Ethereum client whose peer-to-peer layer runs over Named
    Data Networking (NDN).  Nodes find each other with a Kademlia overlay
    ([src/ndn/kad]), whose queries are remote calls carried by NDN packets and
    cut into segments ([src/ndn/kad/rpc], [src/ndn/ndnsuit], [src/ndn/utils]).
    On discovered nodes the Ethereum protocol ([src/ndn/eth]) does a handshake
    with a Diffie-Hellman exchange ([src/dhkx]), announces blocks and
    transactions, fetches what others announce and synchronises the chain with
    the best peer.  Everything on the wire is RLP ([src/rlp]); blocks and
    transactions ([src/core/types]) and the Merkle Patricia trie ([src/trie])
    come from the Ethereum base.

    ** Files

    - [Prelude], [Bytes]: machine integers as [Z] with [wrap], results of
      fallible calls, tactics, hint databases, big-endian numbers.
    - [Rlp]: [rlp/encode.go], [rlp/raw.go].  The encoding buffer with its
      deferred list headers computes the recursive format; raw splitting.
    - [RlpStream], [RlpTypes]: [rlp/decode.go].  The stream as a state monad;
      a class [RlpType] with the law that decoding inverts encoding and
      accepts nothing else, and its instances.
    - [GoHeap], [Prque]: [container/heap] of the Go library; the stack of
      blocks and the priority queue of [common/prque].
    - [KadId], [KadTable]: [kad/common.go], [kad/routingtable.go].
    - [Names], [Signal]: [ndnsuit/utils.go]; the one-slot wakeup channel of
      the loops.
    - [KadPeer], [KadPing], [KadLookup], [KadNode]: [kad/peer.go],
      [ndnpeer.go], [ping.go], [peersort.go], [algo.go], [node.go].
    - [Pit]: [ndnsuit/pit.go], [itimer.go], [face.go]; pending Interests.
    - [Cacher], [Fetching]: [utils/cacher.go], [eth/objcache.go],
      [ndnsuit/fetching.go].
    - [KadCrypto], [KadRpc]: [kad/crypto.go], [kad/rpc].
    - [Dh]: [dhkx].
    - [WorkerPool]: [utils/workerpool.go], the goroutines and their channels.
    - [EthTypes]: [core/types/block.go], [transaction.go],
      [transaction_signing.go].
    - [EthPush], [EthPeer]: [eth/push.go], [peerannounce.go], [peer.go],
      [peerlist.go].
    - [EthHandler], [EthHandshake], [EthAdmission]: [eth/handler.go] and the
      messages of [ethmsg.go]; what the handler achieves; the controller as a
      transition system.
    - [EthWire], [EthData]: the packets of [eth/ethmsg.go] and [push.go], the
      dispatch of [ndnsuit/producer.go]; [eth/datafetch.go], objects asked by
      query and served from the chain.
    - [EthTxFetch], [EthBlockFetch]: [eth/txfetcher.go], [blockfetcher.go].
    - [EthSync], [EthDownload], [EthSyncer]: [eth/downloader.go],
      [dworker.go], [syncer.go]; the common ancestor, the goroutines of a
      download, a whole synchronisation and the loop that starts it.
    - [Trie], [TrieKeys], [TrieMap], [TrieRefine]: [trie/encoding.go],
      [node.go], [trie.go].
    - [TrieStore], [TrieHash], [TrieRoot], [TrieProof]: the encoding and
      decoding of nodes, [trie/hasher.go], [proof.go]; what the root hash and
      the proofs commit to.
    - [TrieDb], [TrieFlush], [TrieCommit], [TrieDisk], [TrieDurable]:
      [trie/database.go], [committer.go]; the flush list, commits into the
      database, flushes to a disk that may fail, and many tries over one
      database.
    - [SecureTrie]: [trie/secure_trie.go].

    ** How the code is modelled

    A struct is a record and a method a function on it.  Objects shared by
    pointer (Kademlia peers, Ethereum peers) live in a store, a pointer is an
    address.  [None] is a panic of the Go runtime, or an operation that
    blocks for ever; an error is a value of [res].  Random draws, the
    iteration order of Go maps, the clock and the answers of the network are
    arguments, so a theorem holds for all of them.  Loops and concurrent
    handlers are step relations with their reachable states; a handler is one
    step, except where it waits for the network.

    Code outside the repository enters as type classes with laws that state
    its documentation: [NdnLib] (NDN names, hash functions), [CryptoLib] and
    [SecpLib] (signatures, AES), [SetLib] (sets with an arbitrary [Pop]).
    Each has a concrete instance for the witnesses.  The Keccak hash is a
    function into 32 bytes that is not assumed to be injective: theorems that
    rely on it conclude, or a collision is known.

    ** What the theorems show

    - Routing table and node: the invariants hold in every reachable state
      and nothing panics; [closest] is the [k] nearest by XOR distance; no
      wakeup of a loop is lost; what a lookup returns is sound.
    - RLP: the buffer implements the format, the decoder accepts exactly the
      canonical encodings, both are inverse for every message type.
    - Pending Interests: each gets at most one outcome, of its name, in time.
    - Remote calls: a Findnode query through marshalling, server, cache,
      segments and client returns the peers the server knows; the fetchers
      assemble the object whatever the order of the answers.
    - Protocol: the handshake ends with both nodes connected under one secret;
      the counters of the peer set are exact and the number of incoming peers
      is bounded; announcements fit a packet and nothing is lost; a mined
      block reaches every peer; the sender of a signed transaction is
      recovered.
    - Data and jobs: the wire forms round-trip; a batch of headers through
      packets, producer, cache and segments is what the chain of the node holds;
      a running pool executes what it accepts; the stack of the priority queue
      is a list.
    - Fetchers: whatever the outcomes, the transaction and the block fetcher
      settle in a bounded number of steps; the insertion loop ends with only
      future blocks left.
    - Synchronisation: the search for the ancestor is exact; a download ends,
      inserts in order, and is complete when it reports no error, although any
      request, job or insertion may fail and the peer may leave; at most one
      synchronisation is under way and stopping cannot deadlock.
    - Trie: it refines a finite map, stays a compressed radix tree, and its
      shape depends only on its content.  The root hash, with whatever hashes
      cached, is a function of the map and determines it; proofs are sound and
      complete.  Tries over one database refine maps through updates, hashes,
      commits, capping and flushes with failing writes; a root that was
      flushed can be opened from the disk alone.  A secure trie refines a map
      with arbitrary keys and knows its keys.
    - Negative results, each about the code as it is: panics on remote input
      (zero [k], empty signature, Diffie-Hellman value out of range), relayed
      blocks sent to nobody, an announcement that blocks all later ones, the
      limit on outgoing peers, a fetch that does not end, a stop that
      deadlocks, results a lookup loses, a value of a branch that is replaced
      by its hash on disk, header batches past the end of a chain or over more
      than 16 bits, jobs a stopped pool drops, a race of the timer of Interests, a block assembled by an
      announcement that nobody inserts.

    ** Bounds and fuel

    Recursion that is not structural takes fuel, and the theorems show that
    the fuel the definitions pass is enough: the depth of the decoder is
    bounded by the length of its input; a trie operation needs two steps per
    nibble ([fuel_for]), since a resolved node is never a hash node; a flush
    goes no deeper than there are dirty nodes; a lookup and a segment loop are
    bounded by their counters.  Where a loop of the code has no bound the
    theorem says so.  The search for the ancestor needs at most one round per
    block, a block job two tries, the removal of downloaded blocks one round per
    block; the concurrent parts have step relations with a measure instead of
    fuel.  Segment numbers and positions in a batch are kept at 16 bits, block
    numbers, priorities and positions of the decoder at 64.

    ** Not modelled

    The packet mixer and the connection of a face, which only move packets of
    the go-ndn library; starting and stopping of the fetchers;
    trie iterators, range proofs and the synchronisation of tries; the
    state transition, consensus and chain of the Ethereum base, whose answers
    (known blocks, verified headers, outcomes of an insertion) are arguments;
    accounts, consoles, commands and the remote interfaces, which are input
    and output. *)

From stdpp Require Export base tactics list gmap sorting strings.
From Stdlib Require Export ZArith Lia.

(** ** Scope and notation

    Machine integers of Go are elements of [Z] together with an explicit
    reduction: [wrap w z] is the value stored in a [w]-bit unsigned variable
    that is assigned [z]. *)

Declare Scope go_scope.
Delimit Scope go_scope with go.

Definition wrap (w : Z) (z : Z) : Z := (z mod 2 ^ w)%Z.

Abbreviation u8 z := (wrap 8 z).
Abbreviation u16 z := (wrap 16 z).
Abbreviation u32 z := (wrap 32 z).
Abbreviation u64 z := (wrap 64 z).

(** The value stored in an [int64]. *)
Definition s64 (z : Z) : Z := (wrap 64 (z + 2 ^ 63) - 2 ^ 63)%Z.

(** A value that already fits in [w] bits. *)
Definition fits (w : Z) (z : Z) : Prop := (0 <= z < 2 ^ w)%Z.

(** The built-in [copy]-free minimum used all over the code base. *)
Notation "x `minZ` y" := (Z.min x y) (at level 40) : go_scope.

(** Results of fallible operations: Go's [(value, error)] pair with the
    convention that the value is meaningful only when the error is nil. *)
Inductive res (E A : Type) : Type :=
| Ok (a : A)
| Err (e : E).
Arguments Ok {E A} a.
Arguments Err {E A} e.

Definition res_bind {E A B : Type} (r : res E A) (f : A -> res E B) : res E B :=
  match r with
  | Ok a => f a
  | Err e => Err e
  end.

Notation "x <-! m ;; k" := (res_bind m (fun x => k))
  (at level 100, m at next level, right associativity) : go_scope.

(** Comparisons are case-split, never computed by [simpl]. *)
#[global] Arguments Nat.leb : simpl never.
#[global] Arguments Nat.ltb : simpl never.
#[global] Arguments Z.leb : simpl never.
#[global] Arguments Z.ltb : simpl never.
#[global] Arguments Z.eqb : simpl never.
#[global] Arguments Z.pow : simpl never.

(** ** Tactics *)

Create HintDb ndn.
Create Rewrite HintDb ndn.

(** Case analysis on the scrutinee of the first [match] or [if] of the goal,
    remembering the equation. *)
Ltac case_go :=
  match goal with
  | |- context [if ?b then _ else _] => destruct b eqn:?
  | |- context [match ?x with _ => _ end] => destruct x eqn:?
  end.

(** Turn boolean comparisons of the hypotheses into propositions. *)
Ltac bool_go :=
  repeat match goal with
  | H : (_ && _) = true |- _ => apply andb_true_iff in H; destruct H
  | H : (_ || _) = false |- _ => apply orb_false_iff in H; destruct H
  | H : negb _ = true |- _ => apply negb_true_iff in H
  | H : negb _ = false |- _ => apply negb_false_iff in H
  | H : (_ <? _)%Z = true |- _ => apply Z.ltb_lt in H
  | H : (_ <? _)%Z = false |- _ => apply Z.ltb_ge in H
  | H : (_ <=? _)%Z = true |- _ => apply Z.leb_le in H
  | H : (_ <=? _)%Z = false |- _ => apply Z.leb_gt in H
  | H : (_ =? _)%Z = true |- _ => apply Z.eqb_eq in H
  | H : (_ =? _)%Z = false |- _ => apply Z.eqb_neq in H
  | H : (_ <? _)%nat = true |- _ => apply Nat.ltb_lt in H
  | H : (_ <? _)%nat = false |- _ => apply Nat.ltb_ge in H
  | H : (_ <=? _)%nat = true |- _ => apply Nat.leb_le in H
  | H : (_ <=? _)%nat = false |- _ => apply Nat.leb_gt in H
  | H : (_ =? _)%nat = true |- _ => apply Nat.eqb_eq in H
  | H : (_ =? _)%nat = false |- _ => apply Nat.eqb_neq in H
  | H : bool_decide _ = true |- _ => apply bool_decide_eq_true in H
  | H : bool_decide _ = false |- _ => apply bool_decide_eq_false in H
  end.

(** ** Machine integers *)

Lemma wrap_fits w z : (0 <= w)%Z -> fits w (wrap w z).
Proof. intros Hw. apply Z.mod_pos_bound. lia. Qed.

Lemma wrap_id w z : fits w z -> wrap w z = z.
Proof. apply Z.mod_small. Qed.

Lemma wrap_wrap w z : (0 <= w)%Z -> wrap w (wrap w z) = wrap w z.
Proof. intros Hw. by apply wrap_id, wrap_fits. Qed.

Lemma s64_id z : (- 2 ^ 63 <= z < 2 ^ 63)%Z -> s64 z = z.
Proof. intros H. unfold s64. rewrite wrap_id; [lia|]. unfold fits. lia. Qed.

#[export] Hint Resolve wrap_fits : ndn.
#[export] Hint Rewrite wrap_wrap using lia : ndn.

(** ** Lists *)

Section lists.
  Context {A : Type}.
  Implicit Types l : list A.

(** Deleting a cell of a slice keeps every projection duplicate free. *)
Lemma NoDup_fmap_delete {B} (f : A -> B) l i :
  NoDup (f <$> l) -> NoDup (f <$> delete i l).
Proof.
  intros Hnd. destruct (l !! i) as [x|] eqn:Hi.
  - apply delete_Permutation in Hi. rewrite Hi in Hnd.
    simpl in Hnd. by apply NoDup_cons in Hnd as [_ ?].
  - apply lookup_ge_None in Hi.
    by rewrite delete_take_drop, take_ge, drop_ge, app_nil_r by lia.
Qed.
End lists.

Lemma sum_list_with_perm {A} (g : A -> nat) (l l' : list A) : l ≡ₚ l' -> sum_list_with g l = sum_list_with g l'.
Proof. induction 1; cbn; lia. Qed.
