(* ===== verification/Bytes.v ===== *)
(** * Bytes and byte strings

    Bytes are integers below 256; Go strings and byte slices are sequences of
    bytes.  The file relates a byte string to the integer it denotes in
    big-endian order. *)

From S2P Require Import Prelude.
Local Open Scope Z_scope.

Abbreviation byte := Z (only parsing).
Abbreviation gostring := (list Z) (only parsing).

Definition byte_ok (b : Z) : Prop := 0 <= b < 256.

Fixpoint be_value (l : list Z) : Z :=
  match l with
  | [] => 0
  | b :: l => b * 256 ^ Z.of_nat (length l) + be_value l
  end.

Lemma be_value_bound l : Forall byte_ok l -> 0 <= be_value l < 256 ^ Z.of_nat (length l).
Proof.
  induction 1 as [|b l Hb Hl IH]; [done|]. cbn [be_value length].
  rewrite Nat2Z.inj_succ, Z.pow_succ_r by lia. unfold byte_ok in Hb. nia.
Qed.

Lemma be_value_inj l1 l2 :
  Forall byte_ok l1 -> Forall byte_ok l2 -> length l1 = length l2 ->
  be_value l1 = be_value l2 -> l1 = l2.
Proof.
  intros H1. revert l2. induction H1 as [|b l Hb Hl IH]; intros [|c l2] H2 Hlen;
    try done; simpl in Hlen; simplify_eq.
  apply Forall_cons in H2 as [Hc H2]. cbn [be_value].
  pose proof (be_value_bound _ Hl). pose proof (be_value_bound _ H2).
  rewrite Hlen in *. intros E.
  assert (b = c) as -> by nia. f_equal. apply IH; [done..|lia].
Qed.

Lemma be_value_app a b : be_value (a ++ b) = be_value a * 256 ^ Z.of_nat (length b) + be_value b.
Proof.
  induction a as [|x a IH]; [done|]. cbn [app be_value]. rewrite IH, length_app, Nat2Z.inj_add, Z.pow_add_r by lia.
  ring.
Qed.

Lemma u8_ok z : byte_ok (u8 z).
Proof. unfold byte_ok. apply (wrap_fits 8). lia. Qed.

Lemma u8_id z : byte_ok z -> u8 z = z.
Proof. intros Hz. apply wrap_id. exact Hz. Qed.

#[export] Hint Resolve u8_ok : ndn.

(** ** Big-endian representations *)

(** The last [n] bytes of [i]. *)
Fixpoint be_bytes (n : nat) (i : Z) : list Z :=
  match n with
  | O => []
  | S n => u8 (i / 256 ^ Z.of_nat n) :: be_bytes n i
  end.

Lemma length_be_bytes n i : length (be_bytes n i) = n.
Proof. induction n; simpl; auto. Qed.

Lemma be_bytes_ok n i : Forall byte_ok (be_bytes n i).
Proof. induction n; simpl; constructor; auto with ndn. Qed.

Lemma be_value_be_bytes n i : be_value (be_bytes n i) = i mod 256 ^ Z.of_nat n.
Proof.
  induction n as [|n IH]; [by rewrite Z.mod_1_r|]. cbn [be_bytes be_value].
  rewrite length_be_bytes, IH, Nat2Z.inj_succ, Z.pow_succ_r, (Z.mul_comm 256) by lia.
  rewrite Z.rem_mul_r by lia. unfold wrap. change (2 ^ 8) with 256. lia.
Qed.

(** No leading zero byte. *)
Definition canonical (l : list Z) : Prop := match l with x :: _ => x <> 0 | [] => True end.

Lemma canonical_lower x l :
  Forall byte_ok (x :: l) -> x <> 0 -> 256 ^ Z.of_nat (length l) <= be_value (x :: l).
Proof.
  intros [Hx Hl]%Forall_cons Hne. cbn [be_value]. pose proof (be_value_bound _ Hl).
  unfold byte_ok in Hx. nia.
Qed.

(** A canonical representation is determined by its value. *)
Lemma canonical_inj l1 l2 :
  Forall byte_ok l1 -> Forall byte_ok l2 -> canonical l1 -> canonical l2 ->
  be_value l1 = be_value l2 -> l1 = l2.
Proof.
  intros H1 H2 C1 C2 E.
  assert (forall a b, Forall byte_ok a -> Forall byte_ok b -> canonical b -> be_value a = be_value b ->
    (length b <= length a)%nat) as Hle.
  { intros a [|y b] Ha Hb Cb E'; [simpl; lia|].
    pose proof (canonical_lower y b Hb Cb). pose proof (be_value_bound _ Ha).
    assert (256 ^ Z.of_nat (length b) < 256 ^ Z.of_nat (length a)) as Hp by lia.
    apply Z.pow_lt_mono_r_iff in Hp; [simpl; lia|lia|lia]. }
  apply be_value_inj; [done..| |done].
  apply Nat.le_antisymm; by eapply Hle.
Qed.

(** ** Bits *)

Lemma byte_testbit b i : byte_ok b -> 8 <= i -> Z.testbit b i = false.
Proof.
  intros [H0 H1] Hi. destruct (decide (b = 0)) as [->|]; [apply Z.testbit_0_l|].
  apply Z.bits_above_log2; [done|].
  apply Z.log2_lt_pow2; [lia|]. apply Z.lt_le_trans with (2 ^ 8); [done|].
  apply Z.pow_le_mono_r; lia.
Qed.

Lemma byte_of_bits b : 0 <= b -> (forall i, 8 <= i -> Z.testbit b i = false) -> byte_ok b.
Proof.
  intros H0 Hb. split; [done|].
  destruct (decide (b = 0)) as [->|]; [lia|].
  apply (Z.log2_lt_pow2 b 8); [lia|].
  destruct (decide (Z.log2 b < 8)); [done|].
  exfalso. assert (Z.testbit b (Z.log2 b) = true) as E by (apply Z.bit_log2; lia).
  rewrite Hb in E by lia. done.
Qed.

Lemma lor_shift_byte acc b : byte_ok b -> Z.lor (Z.shiftl acc 8) b = acc * 256 + b.
Proof.
  intros Hb. assert (Z.land (Z.shiftl acc 8) b = 0) as Hl.
  { apply Z.bits_inj'. intros n Hn. rewrite Z.land_spec, Z.bits_0.
    destruct (decide (n < 8)).
    - rewrite Z.shiftl_spec_low by lia. done.
    - rewrite (byte_testbit b n) by (done || lia). apply andb_false_r. }
  rewrite <- Z.lxor_lor, <- Z.add_nocarry_lxor by done. by rewrite Z.shiftl_mul_pow2 by lia.
Qed.
