(* ===== verification/Rlp.v ===== *)
(** * RLP encoding ([src/rlp/encode.go], [src/rlp/raw.go])

    [encbuf] collects the string data and the list headers of an encoding
    separately and splices the headers in at the end; [encode_item] is the
    recursive definition of the format.  The raw functions split an encoded
    value without building it.  A typed Go value is a [value], the tree that
    the writers selected by reflection walk through. *)

From S2P Require Import Prelude Bytes.
Local Open Scope Z_scope.

(** ** Integers *)

(** [putint]: the bytes it writes; their number is the result. *)
Definition putint (i : Z) : list Z :=
  if i <? 2 ^ 8 then [u8 i]
  else if i <? 2 ^ 16 then [u8 (Z.shiftr i 8); u8 i]
  else if i <? 2 ^ 24 then [u8 (Z.shiftr i 16); u8 (Z.shiftr i 8); u8 i]
  else if i <? 2 ^ 32 then [u8 (Z.shiftr i 24); u8 (Z.shiftr i 16); u8 (Z.shiftr i 8); u8 i]
  else if i <? 2 ^ 40 then
    [u8 (Z.shiftr i 32); u8 (Z.shiftr i 24); u8 (Z.shiftr i 16); u8 (Z.shiftr i 8); u8 i]
  else if i <? 2 ^ 48 then
    [u8 (Z.shiftr i 40); u8 (Z.shiftr i 32); u8 (Z.shiftr i 24); u8 (Z.shiftr i 16); u8 (Z.shiftr i 8); u8 i]
  else if i <? 2 ^ 56 then
    [u8 (Z.shiftr i 48); u8 (Z.shiftr i 40); u8 (Z.shiftr i 32); u8 (Z.shiftr i 24); u8 (Z.shiftr i 16);
     u8 (Z.shiftr i 8); u8 i]
  else
    [u8 (Z.shiftr i 56); u8 (Z.shiftr i 48); u8 (Z.shiftr i 40); u8 (Z.shiftr i 32); u8 (Z.shiftr i 24);
     u8 (Z.shiftr i 16); u8 (Z.shiftr i 8); u8 i].

(** [intsize]: eight rounds are enough for a [uint64]. *)
Fixpoint intsize_loop (fuel : nat) (i : Z) (size : nat) : nat :=
  match fuel with
  | O => size
  | S fuel =>
    let i := Z.shiftr i 8 in
    if i =? 0 then size else intsize_loop fuel i (S size)
  end.

Definition intsize (i : Z) : nat := intsize_loop 8 i 1.

Definition headsize (size : Z) : nat := if size <? 56 then 1%nat else (1 + intsize size)%nat.

(** [puthead]: the bytes it writes. *)
Definition puthead (smalltag largetag size : Z) : list Z :=
  if size <? 56 then [u8 (smalltag + u8 size)]
  else
    let s := putint size in
    u8 (largetag + u8 (Z.of_nat (length s))) :: s.

Definition ListSize (contentSize : Z) : Z := u64 (Z.of_nat (headsize contentSize) + contentSize).

(** ** The encoding buffer *)

Record listhead := MkHead { offset : nat; hsize : nat }.

Record encbuf := MkEnc { str : list Z; lheads : list listhead; lhsize : nat }.

Definition enc_reset : encbuf := MkEnc [] [] 0.

Definition enc_write (w : encbuf) (b : list Z) : encbuf := MkEnc (str w ++ b) (lheads w) (lhsize w).

Definition encodeStringHeader (w : encbuf) (size : nat) : encbuf :=
  if Z.of_nat size <? 56 then enc_write w [u8 (0x80 + u8 (Z.of_nat size))]
  else
    let s := putint (Z.of_nat size) in
    enc_write w (u8 (0xB7 + u8 (Z.of_nat (length s))) :: s).

Definition encodeString (w : encbuf) (b : list Z) : encbuf :=
  match b with
  | [x] => if x <=? 0x7F then enc_write w [x] else enc_write (encodeStringHeader w 1) b
  | _ => enc_write (encodeStringHeader w (length b)) b
  end.

Definition enc_size (w : encbuf) : nat := length (str w) + lhsize w.

(** [list]: the new header is known by its index. *)
Definition enc_list (w : encbuf) : encbuf * nat :=
  (MkEnc (str w) (lheads w ++ [MkHead (length (str w)) (lhsize w)]) (lhsize w), length (lheads w)).

Definition listEnd (w : encbuf) (lh : nat) : encbuf :=
  match lheads w !! lh with
  | Some h =>
    let size := (enc_size w - offset h - hsize h)%nat in
    let heads := <[lh := MkHead (offset h) size]> (lheads w) in
    MkEnc (str w) heads
      (if Z.of_nat size <? 56 then (lhsize w + 1)%nat else (lhsize w + (1 + intsize (Z.of_nat size)))%nat)
  | None => w
  end.

(** [head.encode]. *)
Definition head_encode (h : listhead) : list Z := puthead 0xC0 0xF7 (Z.of_nat (hsize h)).

(** [toBytes]: the bytes that it copies into [out], in order. *)
Fixpoint toBytes_loop (s : list Z) (strpos : nat) (heads : list listhead) : list Z :=
  match heads with
  | [] => drop strpos s
  | h :: heads =>
    let part := take (offset h - strpos) (drop strpos s) in
    part ++ head_encode h ++ toBytes_loop s (strpos + length part) heads
  end.

Definition toBytes (w : encbuf) : list Z := toBytes_loop (str w) 0 (lheads w).

(** [toWriter]: the sequence of writes, when no write fails. *)
Fixpoint toWriter_loop (s : list Z) (strpos : nat) (heads : list listhead) : list (list Z) :=
  match heads with
  | [] => if (strpos <? length s)%nat then [drop strpos s] else []
  | h :: heads =>
    if (0 <? offset h - strpos)%nat then
      let part := take (offset h - strpos) (drop strpos s) in
      part :: head_encode h :: toWriter_loop s (strpos + length part) heads
    else head_encode h :: toWriter_loop s strpos heads
  end.

Definition toWriter (w : encbuf) : list (list Z) := toWriter_loop (str w) 0 (lheads w).

(** ** Writers *)

Inductive value :=
| VBytes (b : list Z)          (* byte slice, byte array, string *)
| VUint (i : Z)
| VBool (b : bool)
| VBigInt (i : Z)
| VNilBig                      (* nil [*big.Int] *)
| VList (l : list value).      (* slice, array, struct *)

(** [big.Int.Bytes]: the minimal big-endian bytes of a non-negative integer. *)
Fixpoint big_bytes_loop (fuel : nat) (i : Z) (acc : list Z) : list Z :=
  match fuel with
  | O => acc
  | S fuel => if i =? 0 then acc else big_bytes_loop fuel (i / 256) (i mod 256 :: acc)
  end.

Definition big_bytes (i : Z) : list Z := big_bytes_loop (Z.to_nat (Z.log2 i + 1)) i [].

Definition writeUint (w : encbuf) (i : Z) : encbuf :=
  if i =? 0 then enc_write w [0x80]
  else if i <? 128 then enc_write w [u8 i]
  else
    let s := putint i in
    enc_write w (u8 (0x80 + u8 (Z.of_nat (length s))) :: s).

Definition writeBool (w : encbuf) (b : bool) : encbuf :=
  if b then enc_write w [0x01] else enc_write w [0x80].

Definition writeBigInt (w : encbuf) (i : Z) : option encbuf :=
  if i <? 0 then None
  else if i =? 0 then Some (enc_write w [0x80])
  else Some (encodeString w (big_bytes i)).

(** The writers of slices and structs: [list], the elements, [listEnd]. *)
Fixpoint write_value (v : value) (w : encbuf) : option encbuf :=
  match v with
  | VBytes b => Some (encodeString w b)
  | VUint i => Some (writeUint w i)
  | VBool b => Some (writeBool w b)
  | VBigInt i => writeBigInt w i
  | VNilBig => Some (enc_write w [0x80])
  | VList l =>
    let '(w, lh) := enc_list w in
    w ← (fix write_list (l : list value) (w : encbuf) : option encbuf :=
           match l with
           | [] => Some w
           | v :: l => w ← write_value v w; write_list l w
           end) l w;
    Some (listEnd w lh)
  end.

Definition EncodeToBytes (v : value) : option (list Z) :=
  w ← write_value v enc_reset; Some (toBytes w).

(** ** The format *)

Inductive item := IStr (b : list Z) | IList (l : list item).

Definition encode_string (b : list Z) : list Z :=
  match b with
  | [x] => if x <=? 0x7F then [x] else puthead 0x80 0xB7 1 ++ b
  | _ => puthead 0x80 0xB7 (Z.of_nat (length b)) ++ b
  end.

Definition encode_list (content : list Z) : list Z :=
  puthead 0xC0 0xF7 (Z.of_nat (length content)) ++ content.

Fixpoint encode_item (it : item) : list Z :=
  match it with
  | IStr b => encode_string b
  | IList l => encode_list (l ≫= encode_item)
  end.

(** What a value denotes. *)
Fixpoint item_of (v : value) : item :=
  match v with
  | VBytes b => IStr b
  | VUint i => IStr (big_bytes i)
  | VBool b => IStr (if b then [1] else [])
  | VBigInt i => IStr (big_bytes i)
  | VNilBig => IStr []
  | VList l => IList (item_of <$> l)
  end.

(** ** Splitting ([raw.go]) *)

Inductive rerr :=
| UnexpectedEOF | EOF | EOL | ErrCanonSize | ErrCanonInt | ErrExpectedString | ErrExpectedList
| ErrElemTooLarge | ErrValueTooLarge | ErrMoreThanOneValue | errNotInList | errNotAtEOL
| errUintOverflow | errBool | errTooFew | errLength | errEmptyKind
| errForeign (* an error that a DecodeRLP method returns of its own *)
| DecodeError (e : rerr)
| OutOfFuel.

Inductive Kind := KByte | KString | KList.
#[export] Instance Kind_eq_dec : EqDecision Kind.
Proof. solve_decision. Defined.

(** The alternatives of [readSize] all compute the big-endian value; [slen]
    is between 1 and 8. *)
Fixpoint be_join (acc : Z) (l : list Z) : Z :=
  match l with
  | [] => acc
  | b :: l => be_join (Z.lor (Z.shiftl acc 8) b) l
  end.

Definition readSize (b : list Z) (slen : Z) : res rerr Z :=
  if Z.of_nat (length b) <? slen then Err UnexpectedEOF
  else
    let s := be_join 0 (take (Z.to_nat slen) b) in
    if (s <? 56) || (match b with x :: _ => x =? 0 | [] => false end) then Err ErrCanonSize
    else Ok s.

Definition readKind (buf : list Z) : res rerr (Kind * Z * Z) :=
  match buf with
  | [] => Err UnexpectedEOF
  | b :: rest =>
    let r :=
      if b <? 0x80 then Ok (KByte, 0, 1)
      else if b <? 0xB8 then
        let contentsize := b - 0x80 in
        if (contentsize =? 1) && (match rest with x :: _ => x <? 128 | [] => false end)
        then Err ErrCanonSize else Ok (KString, 1, contentsize)
      else if b <? 0xC0 then
        match readSize rest (b - 0xB7) with
        | Ok s => Ok (KString, b - 0xB7 + 1, s)
        | Err e => Err e
        end
      else if b <? 0xF8 then Ok (KList, 1, b - 0xC0)
      else
        match readSize rest (b - 0xF7) with
        | Ok s => Ok (KList, b - 0xF7 + 1, s)
        | Err e => Err e
        end in
    match r with
    | Err e => Err e
    | Ok (k, tagsize, contentsize) =>
      if u64 (Z.of_nat (length buf) - tagsize) <? contentsize then Err ErrValueTooLarge
      else Ok (k, tagsize, contentsize)
    end
  end.

Definition Split (b : list Z) : res rerr (Kind * list Z * list Z) :=
  match readKind b with
  | Err e => Err e
  | Ok (k, ts, cs) =>
    Ok (k, take (Z.to_nat cs) (drop (Z.to_nat ts) b), drop (Z.to_nat (ts + cs)) b)
  end.

Definition SplitString (b : list Z) : res rerr (list Z * list Z) :=
  match Split b with
  | Err e => Err e
  | Ok (KList, _, _) => Err ErrExpectedString
  | Ok (_, content, rest) => Ok (content, rest)
  end.

Definition SplitList (b : list Z) : res rerr (list Z * list Z) :=
  match Split b with
  | Err e => Err e
  | Ok (KList, content, rest) => Ok (content, rest)
  | Ok (_, _, _) => Err ErrExpectedList
  end.

Fixpoint CountValues_loop (fuel : nat) (b : list Z) (i : nat) : res rerr nat :=
  match fuel with
  | O => Err OutOfFuel
  | S fuel =>
    match b with
    | [] => Ok i
    | _ =>
      match readKind b with
      | Err e => Err e
      | Ok (_, tagsize, size) => CountValues_loop fuel (drop (Z.to_nat (tagsize + size)) b) (S i)
      end
    end
  end.

Definition CountValues (b : list Z) : res rerr nat := CountValues_loop (S (length b)) b 0.

#[global] Arguments puthead : simpl never.
#[global] Arguments putint : simpl never.
#[global] Arguments intsize : simpl never.
#[global] Arguments big_bytes : simpl never.

(** ** Integers *)

Lemma shiftr_zero i k : 0 <= i -> 0 <= k -> (Z.shiftr i k =? 0) = (i <? 2 ^ k).
Proof.
  intros Hi Hk. apply eq_true_iff_eq. rewrite Z.eqb_eq, Z.ltb_lt, Z.shiftr_div_pow2 by done.
  split; intros H; [apply Z.div_small_iff in H; lia|apply Z.div_small; lia].
Qed.

Ltac byte_sums :=
  change (8 + 8) with 16; change (16 + 8) with 24; change (24 + 8) with 32; change (32 + 8) with 40;
  change (40 + 8) with 48; change (48 + 8) with 56; change (56 + 8) with 64.

Lemma putint_cases i : 0 <= i < 2 ^ 64 -> putint i = be_bytes (intsize i) i.
Proof.
  intros Hi. assert (forall k, 0 <= k -> Z.shiftr i k = i / 2 ^ k) as Hs
    by (intros; by rewrite Z.shiftr_div_pow2).
  unfold putint, intsize. cbn [intsize_loop]. rewrite !Z.shiftr_shiftr by lia. byte_sums.
  rewrite !shiftr_zero by lia. rewrite !Hs by lia.
  repeat (case_go; [cbn [be_bytes Z.of_nat]; rewrite ?Z.pow_0_r, ?Z.div_1_r; done|]).
  destruct (i <? 2 ^ 64) eqn:E; bool_go; [|lia].
  cbn [be_bytes Z.of_nat]. rewrite ?Z.pow_0_r, ?Z.div_1_r. done.
Qed.

Lemma intsize_bounds i :
  0 <= i < 2 ^ 64 -> (1 <= intsize i <= 8)%nat /\ i < 256 ^ Z.of_nat (intsize i) /\
  (0 < i -> 256 ^ (Z.of_nat (intsize i) - 1) <= i).
Proof.
  intros Hi. unfold intsize. cbn [intsize_loop]. rewrite !Z.shiftr_shiftr by lia. byte_sums.
  rewrite !shiftr_zero by lia.
  repeat (case_go; bool_go; [cbn; lia|]). lia.
Qed.

Lemma putint_length i : 0 <= i < 2 ^ 64 -> length (putint i) = intsize i.
Proof. intros Hi. by rewrite putint_cases, length_be_bytes. Qed.

Lemma putint_ok i : 0 <= i < 2 ^ 64 -> Forall byte_ok (putint i).
Proof. intros Hi. rewrite putint_cases by done. apply be_bytes_ok. Qed.

Lemma putint_value i : 0 <= i < 2 ^ 64 -> be_value (putint i) = i.
Proof.
  intros Hi. rewrite putint_cases, be_value_be_bytes by done.
  apply Z.mod_small. destruct (intsize_bounds i Hi) as (_ & ? & _). lia.
Qed.

Lemma putint_canonical i : 0 < i < 2 ^ 64 -> exists x l, putint i = x :: l /\ x <> 0.
Proof.
  intros Hi. pose proof (putint_length i ltac:(lia)) as Hl. pose proof (putint_ok i ltac:(lia)) as Hok.
  pose proof (putint_value i ltac:(lia)) as Hv. destruct (intsize_bounds i ltac:(lia)) as (Hb & _ & Hlow).
  destruct (putint i) as [|x l]; [simpl in Hl; lia|]. exists x, l. split; [done|]. intros ->.
  apply Forall_cons in Hok as [_ Hok]. cbn [be_value] in Hv. pose proof (be_value_bound _ Hok).
  rewrite <- Hl in Hlow. simpl length in Hlow. rewrite Nat2Z.inj_succ in Hlow.
  replace (Z.succ (Z.of_nat (length l)) - 1) with (Z.of_nat (length l)) in Hlow by lia. lia.
Qed.

Lemma big_bytes_loop_spec fuel i acc :
  0 <= i -> i < 2 ^ Z.of_nat fuel ->
  exists l, big_bytes_loop fuel i acc = l ++ acc /\ Forall byte_ok l /\ canonical l /\ be_value l = i.
Proof.
  revert i acc. induction fuel as [|fuel IH]; intros i acc H0 Hi; simpl.
  { exists []. split_and!; try done. simpl. change (2 ^ Z.of_nat 0) with 1 in Hi. lia. }
  destruct (i =? 0) eqn:E; bool_go; [exists []; by split_and!|].
  rewrite Nat2Z.inj_succ, Z.pow_succ_r in Hi by lia.
  pose proof (Z.div_mod i 256 ltac:(lia)) as Hdm. pose proof (Z.mod_pos_bound i 256 ltac:(lia)) as Hm.
  destruct (IH (i / 256) (i mod 256 :: acc)) as (l & -> & Hok & Hc & Hv); [lia|lia|].
  exists (l ++ [i mod 256]). rewrite <- app_assoc. split_and!; try done.
  - apply Forall_app. split; [done|]. constructor; [done|constructor].
  - destruct l as [|x l]; [|done]. cbn [app canonical]. simpl in Hv. lia.
  - rewrite be_value_app. simpl length. change (256 ^ Z.of_nat 1) with 256. cbn [be_value].
    simpl length. rewrite Z.pow_0_r. lia.
Qed.

Lemma big_bytes_spec i :
  0 <= i -> Forall byte_ok (big_bytes i) /\ canonical (big_bytes i) /\ be_value (big_bytes i) = i.
Proof.
  intros Hi. unfold big_bytes. destruct (big_bytes_loop_spec (Z.to_nat (Z.log2 i + 1)) i []) as (l & -> & ?).
  - done.
  - pose proof (Z.log2_nonneg i). rewrite Z2Nat.id by lia.
    destruct (decide (i = 0)) as [->|]; [done|]. apply Z.log2_lt_pow2; lia.
  - by rewrite app_nil_r.
Qed.

Lemma big_bytes_putint i : 0 < i < 2 ^ 64 -> big_bytes i = putint i.
Proof.
  intros Hi. destruct (big_bytes_spec i) as (? & ? & ?); [lia|].
  apply canonical_inj; [done|apply putint_ok; lia|done| |rewrite putint_value; lia].
  destruct (putint_canonical i Hi) as (x & l & -> & ?). done.
Qed.

(** ** The buffer computes the format *)

Lemma length_puthead a b n :
  0 <= n < 2 ^ 64 -> length (puthead a b n) = if n <? 56 then 1%nat else (1 + intsize n)%nat.
Proof.
  intros Hn. unfold puthead. destruct (n <? 56); [done|]. simpl. by rewrite putint_length.
Qed.

(** Headers with offsets relative to the data of one value. *)
Definition shift_head (n : nat) (h : listhead) : listhead := MkHead (n + offset h) (hsize h).

Definition heads_len (hs : list listhead) : nat := sum_list (length ∘ head_encode <$> hs).

Lemma heads_len_cons h hs : heads_len (h :: hs) = (length (head_encode h) + heads_len hs)%nat.
Proof. done. Qed.

Lemma heads_len_app hs1 hs2 : heads_len (hs1 ++ hs2) = (heads_len hs1 + heads_len hs2)%nat.
Proof.
  induction hs1 as [|h hs1 IH]; [done|]. cbn [app]. rewrite !heads_len_cons, IH. lia.
Qed.

Lemma heads_len_shift n hs : heads_len (shift_head n <$> hs) = heads_len hs.
Proof. unfold heads_len. by rewrite <- list_fmap_compose. Qed.

Fixpoint heads_in (p n : nat) (hs : list listhead) : Prop :=
  match hs with
  | [] => (p <= n)%nat
  | h :: hs => (p <= offset h <= n)%nat /\ heads_in (offset h) n hs
  end.

Lemma heads_in_le p n hs : heads_in p n hs -> (p <= n)%nat.
Proof. destruct hs; simpl; [done|lia]. Qed.

Lemma heads_in_app p n m hs1 hs2 :
  heads_in p n hs1 -> heads_in 0 m hs2 -> heads_in p (n + m) (hs1 ++ (shift_head n <$> hs2)).
Proof.
  revert p. induction hs1 as [|h hs1 IH]; intros p H1 H2; simpl in *.
  - assert (forall q, heads_in q m hs2 -> heads_in (n + q) (n + m) (shift_head n <$> hs2)) as Hs.
    { clear. induction hs2 as [|h hs2 IH]; simpl; intros q H; [lia|]. destruct H as [? H]. split; [lia|]. by apply (IH (offset h)). }
    specialize (Hs 0%nat H2). destruct hs2 as [|h hs2]; simpl in *; [lia|]. split; [lia|apply Hs].
  - destruct H1. split; [lia|]. by apply IH.
Qed.

Lemma toBytes_shift s1 s2 q hs :
  toBytes_loop (s1 ++ s2) (length s1 + q) (shift_head (length s1) <$> hs) = toBytes_loop s2 q hs.
Proof.
  revert q. induction hs as [|h hs IH]; intros q; simpl.
  - by rewrite drop_app_add.
  - rewrite drop_app_add. replace (length s1 + offset h - (length s1 + q))%nat with (offset h - q)%nat by lia.
    do 2 f_equal. by rewrite <- Nat.add_assoc, IH.
Qed.

Lemma toBytes_app s1 s2 p hs1 hs2 :
  heads_in p (length s1) hs1 ->
  toBytes_loop (s1 ++ s2) p (hs1 ++ (shift_head (length s1) <$> hs2)) =
  toBytes_loop s1 p hs1 ++ toBytes_loop s2 0 hs2.
Proof.
  revert p. induction hs1 as [|h hs1 IH]; intros p Hin.
  - simpl in Hin. cbn [app toBytes_loop]. destruct hs2 as [|h hs2]; simpl.
    + by rewrite drop_app_le.
    + rewrite drop_app_le by done. rewrite drop_0, Nat.sub_0_r.
      assert (take (length s1 + offset h - p) (drop p s1 ++ s2) = drop p s1 ++ take (offset h) s2) as ->.
      { rewrite take_app_ge by (rewrite length_drop; lia). do 2 f_equal. rewrite length_drop. lia. }
      rewrite <- app_assoc. do 3 f_equal.
      replace (p + _)%nat with (length s1 + length (take (offset h) s2))%nat
        by (rewrite length_app, length_drop; lia).
      apply toBytes_shift.
  - destruct Hin as [Hp Hin]. cbn [app toBytes_loop].
    rewrite drop_app_le, take_app_le by (rewrite ?length_drop; lia).
    rewrite <- !app_assoc. do 2 f_equal. apply IH.
    replace (p + _)%nat with (offset h) by (rewrite length_take, length_drop; lia). done.
Qed.

Lemma length_toBytes s p hs :
  heads_in p (length s) hs -> length (toBytes_loop s p hs) = (length s - p + heads_len hs)%nat.
Proof.
  revert p. induction hs as [|h hs IH]; intros p Hin; simpl.
  - rewrite length_drop. unfold heads_len. simpl. lia.
  - destruct Hin as [Hp Hin].
    assert (length (take (offset h - p) (drop p s)) = (offset h - p)%nat) as Hlen
      by (rewrite length_take, length_drop; lia).
    rewrite !length_app, Hlen. replace (p + (offset h - p))%nat with (offset h) by lia.
    rewrite IH by done. rewrite heads_len_cons. lia.
Qed.

(** [w'] is [w] after writing the bytes [out]. *)
Definition wrote (w w' : encbuf) (out : list Z) : Prop :=
  exists s hs, str w' = str w ++ s /\ lheads w' = lheads w ++ (shift_head (length (str w)) <$> hs) /\
    lhsize w' = (lhsize w + heads_len hs)%nat /\ heads_in 0 (length s) hs /\ toBytes_loop s 0 hs = out.

Lemma wrote_nil w : wrote w w [].
Proof. exists [], []. rewrite !app_nil_r. unfold heads_len. simpl. split_and!; try done; lia. Qed.

Lemma wrote_str w b : wrote w (enc_write w b) b.
Proof.
  exists b, []. unfold heads_len. simpl. rewrite app_nil_r, drop_0. split_and!; try done; lia.
Qed.

Lemma wrote_app w1 w2 w3 a b : wrote w1 w2 a -> wrote w2 w3 b -> wrote w1 w3 (a ++ b).
Proof.
  intros (s1 & hs1 & E1 & E2 & E3 & H1 & <-) (s2 & hs2 & F1 & F2 & F3 & H2 & <-).
  exists (s1 ++ s2), (hs1 ++ (shift_head (length s1) <$> hs2)). split_and!.
  - by rewrite F1, E1, app_assoc.
  - rewrite F2, E2, E1, fmap_app, <- app_assoc, <- list_fmap_compose. do 2 f_equal.
    rewrite length_app. apply list_fmap_ext. intros _ h _. unfold shift_head. simpl. f_equal. lia.
  - rewrite F3, E3, heads_len_app, heads_len_shift. lia.
  - rewrite length_app. by apply heads_in_app.
  - by apply toBytes_app.
Qed.

Lemma encodeStringHeader_eq w n :
  encodeStringHeader w n = enc_write w (puthead 0x80 0xB7 (Z.of_nat n)).
Proof. unfold encodeStringHeader, puthead. by case_go. Qed.

Lemma wrote_string w b : wrote w (encodeString w b) (encode_string b).
Proof.
  assert (forall n, wrote w (enc_write (encodeStringHeader w n) b) (puthead 0x80 0xB7 (Z.of_nat n) ++ b)) as Hs.
  { intros n. rewrite encodeStringHeader_eq. eapply wrote_app; apply wrote_str. }
  destruct b as [|x [|y b]]; [apply (Hs 0%nat)| |apply Hs].
  simpl. destruct (x <=? 0x7F); [apply wrote_str|apply (Hs 1%nat)].
Qed.

Lemma uint_string i : 128 <= i < 2 ^ 64 ->
  encode_string (putint i) = u8 (0x80 + u8 (Z.of_nat (length (putint i)))) :: putint i.
Proof.
  intros Hi. destruct (intsize_bounds i) as (Hb & _ & _); [lia|]. rewrite <- putint_length in Hb by lia.
  unfold encode_string. destruct (putint i) as [|x [|y l]] eqn:E; [simpl in Hb; lia| |].
  - pose proof (putint_value i ltac:(lia)) as Hv. rewrite E in Hv. cbn [be_value length] in Hv.
    rewrite Z.pow_0_r in Hv. destruct (x <=? 127) eqn:Ex; bool_go; [lia|]. done.
  - unfold puthead. rewrite (proj2 (Z.ltb_lt _ _)) by lia. done.
Qed.

Lemma wrote_uint w i : fits 64 i -> wrote w (writeUint w i) (encode_string (big_bytes i)).
Proof.
  intros [H0 Hi]. unfold writeUint. destruct (i =? 0) eqn:E; bool_go.
  { subst. apply (wrote_str w [0x80]). }
  rewrite big_bytes_putint by lia. destruct (i <? 128) eqn:E2; bool_go.
  - assert (putint i = [u8 i]) as -> by (unfold putint; by rewrite (proj2 (Z.ltb_lt _ _)) by lia).
    rewrite (u8_id i) by (unfold byte_ok; lia). unfold encode_string.
    rewrite (proj2 (Z.leb_le _ _)) by lia. apply wrote_str.
  - rewrite uint_string by lia. apply wrote_str.
Qed.

Lemma wrote_bool w b : wrote w (writeBool w b) (encode_string (if b then [1] else [])).
Proof. destruct b; apply wrote_str. Qed.

Lemma wrote_list w w1 lh w2 content :
  enc_list w = (w1, lh) -> wrote w1 w2 content -> Z.of_nat (length content) < 2 ^ 64 ->
  wrote w (listEnd w2 lh) (encode_list content).
Proof.
  intros [= <- <-] (s & hs & E1 & E2 & E3 & Hin & Hout) Hlen. simpl in *.
  pose proof (length_toBytes _ _ _ Hin) as Hl. rewrite Hout, Nat.sub_0_r in Hl.
  assert (lheads w2 !! length (lheads w) = Some (MkHead (length (str w)) (lhsize w))) as Hlook.
  { rewrite E2, <- app_assoc. cbn [app]. by rewrite list_lookup_middle. }
  unfold listEnd. rewrite Hlook. simpl.
  assert ((enc_size w2 - length (str w) - lhsize w)%nat = length content) as ->.
  { unfold enc_size. rewrite E1, E3, length_app, Hl. lia. }
  exists s, (MkHead 0 (length content) :: hs). split_and!; simpl.
  - done.
  - rewrite E2, <- app_assoc. rewrite insert_app_r_alt by lia. rewrite Nat.sub_diag. simpl.
    do 2 f_equal. unfold shift_head. simpl. f_equal. lia.
  - rewrite E3, heads_len_cons. unfold head_encode. simpl. rewrite length_puthead by lia.
    case_go; lia.
  - split; [lia|done].
  - by rewrite Hout.
Qed.

(** Induction on trees with a hypothesis for every element of a list. *)
Lemma value_tree_ind (P : value -> Prop) :
  (forall b, P (VBytes b)) -> (forall i, P (VUint i)) -> (forall b, P (VBool b)) ->
  (forall i, P (VBigInt i)) -> P VNilBig -> (forall l, Forall P l -> P (VList l)) -> forall v, P v.
Proof.
  intros H1 H2 H3 H4 H5 H6. fix IH 1. intros [b|i|b|i| |l]; [apply H1|apply H2|apply H3|apply H4|apply H5|].
  apply H6. induction l as [|v l IHl]; constructor; [apply IH|apply IHl].
Qed.

Lemma item_tree_ind (P : item -> Prop) :
  (forall b, P (IStr b)) -> (forall l, Forall P l -> P (IList l)) -> forall it, P it.
Proof.
  intros H1 H2. fix IH 1. intros [b|l]; [apply H1|]. apply H2.
  induction l as [|it l IHl]; constructor; [apply IH|apply IHl].
Qed.

(** The machine values: unsigned integers of 64 bits, no negative big integer. *)
Fixpoint value_ok (v : value) : Prop :=
  match v with
  | VUint i => fits 64 i
  | VBigInt i => 0 <= i
  | VList l => fold_right (fun v P => value_ok v /\ P) True l
  | _ => True
  end.

Lemma value_ok_list l : value_ok (VList l) <-> Forall value_ok l.
Proof.
  simpl. induction l as [|v l IH]; simpl; [split; auto|]. rewrite Forall_cons, <- IH. done.
Qed.

Lemma encode_item_list l : encode_item (IList l) = encode_list (l ≫= encode_item).
Proof. done. Qed.

Lemma length_encode_list c : (length c <= length (encode_list c))%nat.
Proof. unfold encode_list. rewrite length_app. lia. Qed.

(** Strings of bytes are encoded as bytes. *)
Fixpoint item_ok (it : item) : Prop :=
  match it with
  | IStr b => Forall byte_ok b
  | IList l => fold_right (fun it P => item_ok it /\ P) True l
  end.

Lemma puthead_ok a b n : 0 <= n < 2 ^ 64 -> Forall byte_ok (puthead a b n).
Proof.
  intros Hn. unfold puthead. destruct (n <? 56); constructor; try apply u8_ok; [constructor|by apply putint_ok].
Qed.

Lemma encode_item_ok it :
  item_ok it -> Z.of_nat (length (encode_item it)) < 2 ^ 64 -> Forall byte_ok (encode_item it).
Proof.
  induction it as [b|l IH] using item_tree_ind; intros Hok Hlen.
  - simpl in *. assert (Z.of_nat (length b) < 2 ^ 64) as Hb.
    { revert Hlen. unfold encode_string. destruct b as [|x [|y b]]; [simpl; lia| |rewrite length_app; lia].
      simpl. lia. }
    assert (Forall byte_ok (puthead 0x80 0xB7 (Z.of_nat (length b)) ++ b)) as Hp.
    { apply Forall_app. split; [apply puthead_ok; lia|done]. }
    unfold encode_string. destruct b as [|x [|y b]]; try exact Hp. destruct (_ <=? _); [done|exact Hp].
  - rewrite encode_item_list in *. pose proof (length_encode_list (l ≫= encode_item)).
    unfold encode_list. apply Forall_app. split; [apply puthead_ok; lia|].
    assert (Z.of_nat (length (l ≫= encode_item)) < 2 ^ 64) as Hl by lia. clear Hlen H.
    induction l as [|it l IHl]; [constructor|]. rewrite bind_cons, length_app in *.
    apply Forall_cons in IH as [IH1 IH2]. simpl in Hok. destruct Hok as [Ho1 Ho2].
    apply Forall_app. split; [apply IH1; [done|lia]|apply IHl; [done|done|lia]].
Qed.

Lemma wrote_value v w :
  value_ok v -> Z.of_nat (length (encode_item (item_of v))) < 2 ^ 64 ->
  exists w', write_value v w = Some w' /\ wrote w w' (encode_item (item_of v)).
Proof.
  revert w. induction v as [b|i|b|i| |l IH] using value_tree_ind; intros w Hok Hlen.
  - eexists. split; [done|]. apply wrote_string.
  - eexists. split; [done|]. by apply wrote_uint.
  - eexists. split; [done|]. apply wrote_bool.
  - simpl in *. unfold writeBigInt. rewrite (proj2 (Z.ltb_ge _ _)) by done.
    destruct (i =? 0) eqn:E; bool_go; (eexists; split; [done|]); [subst; apply (wrote_str w [0x80])|].
    apply wrote_string.
  - eexists. split; [done|]. apply (wrote_str w [0x80]).
  - apply value_ok_list in Hok. cbn [item_of] in *. rewrite encode_item_list in *.
    pose proof (length_encode_list ((item_of <$> l) ≫= encode_item)) as Hc.
    cbn [write_value]. destruct (enc_list w) as [w1 lh] eqn:El.
    set (content := (item_of <$> l) ≫= encode_item) in *.
    match goal with |- context [?f l w1] => set (wl := f) end.
    assert (exists w2, wl l w1 = Some w2 /\ wrote w1 w2 content) as (w2 & -> & Hw).
    { assert (Z.of_nat (length content) < 2 ^ 64) as Hlc by lia. clear El Hlen Hc. subst content. revert w1.
      induction l as [|v l IHl]; intros w1; simpl; [eexists; split; [done|apply wrote_nil]|].
      apply Forall_cons in IH as [IHv IH]. apply Forall_cons in Hok as [Hv Hok].
      rewrite fmap_cons, bind_cons, length_app in Hlc.
      destruct (IHv w1 Hv) as (w2 & -> & Hw2); [lia|]. simpl.
      destruct (IHl IH Hok ltac:(lia) w2) as (w3 & -> & Hw3). eexists. split; [done|].
      by eapply wrote_app. }
    simpl. eexists. split; [done|]. eapply wrote_list; [done..|lia].
Qed.

Lemma toWriter_toBytes w : mjoin (toWriter w) = toBytes w.
Proof.
  unfold toWriter, toBytes. generalize 0%nat as p. induction (lheads w) as [|h hs IH]; intros p; simpl.
  - destruct (_ <? _)%nat eqn:E; bool_go; simpl; [by rewrite app_nil_r|]. by rewrite drop_ge.
  - destruct (0 <? _)%nat eqn:E; bool_go; simpl; rewrite IH; [done|].
    replace (offset h - p)%nat with 0%nat by lia. by rewrite take_0, Nat.add_0_r.
Qed.

Lemma EncodeToBytes_ok v :
  value_ok v -> Z.of_nat (length (encode_item (item_of v))) < 2 ^ 64 ->
  EncodeToBytes v = Some (encode_item (item_of v)) /\
  forall w, write_value v enc_reset = Some w ->
    length (toBytes w) = enc_size w /\ mjoin (toWriter w) = encode_item (item_of v).
Proof.
  intros Hok Hlen. destruct (wrote_value v enc_reset Hok Hlen) as (w & E & s & hs & E1 & E2 & E3 & Hin & Hout).
  unfold EncodeToBytes. rewrite E. simpl in *.
  assert (shift_head 0 <$> hs = hs) as Hs
    by (rewrite <- (list_fmap_id hs) at 2; apply list_fmap_ext; by intros _ [] _).
  assert (toBytes w = encode_item (item_of v)) as Hb.
  { unfold toBytes. by rewrite E1, E2, Hs. }
  split; [by rewrite Hb|]. intros w' [= <-]. split; [|by rewrite toWriter_toBytes].
  unfold toBytes, enc_size. rewrite E1, E2, Hs, E3. rewrite length_toBytes by done. lia.
Qed.

(** C23. The encoder, which keeps list headers apart and splices them in at
    the end, computes the recursive RLP format; its output has exactly the
    size that it allocates, and writing it in pieces gives the same bytes. *)
Theorem EncodeToBytes_format v :
  value_ok v -> Z.of_nat (length (encode_item (item_of v))) < 2 ^ 64 ->
  EncodeToBytes v = Some (encode_item (item_of v)) /\
  forall w, write_value v enc_reset = Some w ->
    length (toBytes w) = enc_size w /\ mjoin (toWriter w) = encode_item (item_of v).
Proof. apply EncodeToBytes_ok. Qed.

(** ** Splitting *)

Lemma be_join_value acc l :
  Forall byte_ok l -> be_join acc l = acc * 256 ^ Z.of_nat (length l) + be_value l.
Proof.
  intros Hl. revert acc. induction Hl as [|b l Hb Hl IH]; intros acc; [simpl; rewrite Z.pow_0_r; lia|].
  cbn [be_join be_value]. rewrite IH, lor_shift_byte by done. simpl length.
  rewrite Nat2Z.inj_succ, Z.pow_succ_r by lia. ring.
Qed.

Lemma readSize_putint n rest :
  56 <= n < 2 ^ 64 -> readSize (putint n ++ rest) (Z.of_nat (intsize n)) = Ok n.
Proof.
  intros Hn. destruct (putint_canonical n ltac:(lia)) as (x & l & E & Hx).
  pose proof (putint_length n ltac:(lia)) as Hl. unfold readSize.
  rewrite (proj2 (Z.ltb_ge _ _)) by (rewrite length_app; lia).
  rewrite Nat2Z.id, <- Hl, take_app_length, be_join_value by (apply putint_ok; lia).
  rewrite Z.mul_0_l, Z.add_0_l, putint_value by lia. rewrite (proj2 (Z.ltb_ge _ _)) by lia.
  rewrite E. cbn [app orb]. by rewrite (proj2 (Z.eqb_neq _ _)).
Qed.

Lemma readSize_sound b slen n :
  Forall byte_ok b -> 1 <= slen <= 8 -> readSize b slen = Ok n ->
  56 <= n < 2 ^ 64 /\ slen = Z.of_nat (intsize n) /\ exists rest, b = putint n ++ rest.
Proof.
  intros Hb Hs. unfold readSize. destruct (_ <? slen) eqn:E; bool_go; [done|].
  set (l := take (Z.to_nat slen) b). assert (Forall byte_ok l) as Hl by (by apply Forall_take).
  assert (length l = Z.to_nat slen) as Hlen by (unfold l; rewrite length_take; lia).
  rewrite be_join_value by done. rewrite Z.mul_0_l, Z.add_0_l.
  destruct (_ || _) eqn:E2; [done|]. intros [= <-]. bool_go.
  pose proof (be_value_bound l Hl) as Hv. rewrite Hlen in Hv.
  assert (256 ^ Z.of_nat (Z.to_nat slen) <= 2 ^ 64).
  { change (2 ^ 64) with (256 ^ 8). apply Z.pow_le_mono_r; lia. }
  assert (56 <= be_value l < 2 ^ 64) as Hr by lia.
  assert (l = putint (be_value l)) as El.
  { apply canonical_inj; [done|apply putint_ok; lia| | |rewrite putint_value; lia].
    - destruct b as [|x b]; [simpl in *; lia|]. unfold l.
      destruct (Z.to_nat slen) eqn:En; [lia|]. simpl. bool_go. done.
    - destruct (putint_canonical (be_value l)) as (y & ly & -> & ?); [lia|done]. }
  split; [done|]. split.
  - rewrite <- putint_length, <- El by lia. lia.
  - exists (drop (Z.to_nat slen) b). rewrite <- El. unfold l. by rewrite take_drop.
Qed.

(** The contents that a kind can have, and the bytes of such a value. *)
Definition frame_ok (k : Kind) (content : list Z) : Prop :=
  match k with
  | KByte => exists x, content = [x] /\ x < 128
  | KString => forall x, content = [x] -> 128 <= x
  | KList => True
  end.

Definition frame (k : Kind) (content : list Z) : list Z :=
  match k with KList => encode_list content | _ => encode_string content end.

Lemma frame_byte x : x < 128 -> frame KByte [x] = [x].
Proof. intros Hx. simpl. by rewrite (proj2 (Z.leb_le _ _)) by lia. Qed.

Lemma frame_string content :
  frame_ok KString content -> frame KString content = puthead 0x80 0xB7 (Z.of_nat (length content)) ++ content.
Proof.
  intros Hc. destruct content as [|x [|y l]]; try done. simpl. specialize (Hc x eq_refl).
  by rewrite (proj2 (Z.leb_gt _ _)) by lia.
Qed.

(** The tag byte and the size bytes of a header. *)
Lemma puthead_small a b n : 0 <= n < 56 -> 0 <= a <= 200 -> puthead a b n = [a + n].
Proof.
  intros Hn Ha. unfold puthead. rewrite (proj2 (Z.ltb_lt _ _)) by lia.
  rewrite (u8_id n), u8_id by (unfold byte_ok; lia). done.
Qed.

Lemma puthead_large a b n :
  56 <= n < 2 ^ 64 -> 0 <= b <= 247 -> puthead a b n = b + Z.of_nat (intsize n) :: putint n.
Proof.
  intros Hn Hb. destruct (intsize_bounds n) as (Hi & _ & _); [lia|]. unfold puthead.
  rewrite (proj2 (Z.ltb_ge _ _)) by lia. rewrite putint_length by lia.
  rewrite (u8_id (Z.of_nat _)), u8_id by (unfold byte_ok; lia). done.
Qed.

Lemma readKind_sized (buf : list Z) ts cs :
  0 <= ts <= Z.of_nat (length buf) -> Z.of_nat (length buf) < 2 ^ 64 ->
  (u64 (Z.of_nat (length buf) - ts) <? cs) = (Z.of_nat (length buf) <? ts + cs).
Proof.
  intros Hts Hl. rewrite wrap_id by (unfold fits; lia). apply eq_true_iff_eq. rewrite !Z.ltb_lt. lia.
Qed.

(** What [readKind] accepts, before the comparison with the input length. *)
Definition header_of (k : Kind) (ts cs : Z) (buf : list Z) : Prop :=
  match k with
  | KByte => ts = 0 /\ cs = 1 /\ exists x rest, buf = x :: rest /\ x < 128
  | KString => 0 <= cs < 2 ^ 64 /\ exists rest, buf = puthead 0x80 0xB7 cs ++ rest /\
      ts = Z.of_nat (length (puthead 0x80 0xB7 cs)) /\
      (cs = 1 -> match rest with x :: _ => 128 <= x | [] => True end)
  | KList => 0 <= cs < 2 ^ 64 /\ exists rest, buf = puthead 0xC0 0xF7 cs ++ rest /\
      ts = Z.of_nat (length (puthead 0xC0 0xF7 cs))
  end.

Lemma readKind_sound k ts cs buf :
  Forall byte_ok buf -> Z.of_nat (length buf) < 2 ^ 64 -> readKind buf = Ok (k, ts, cs) ->
  header_of k ts cs buf /\ ts + cs <= Z.of_nat (length buf).
Proof.
  intros Hok Hl. destruct buf as [|b rest]; [done|]. unfold readKind.
  apply Forall_cons in Hok as [Hb Hrest]. unfold byte_ok in Hb.
  match goal with |- match ?r with _ => _ end = _ -> _ => destruct r as [[[k' ts'] cs']|e] eqn:Er; [|done] end.
  assert (header_of k' ts' cs' (b :: rest) /\ 0 <= ts' <= Z.of_nat (length (b :: rest))) as [Hh Hts].
  { destruct (b <? 128) eqn:E1; bool_go; [simplify_eq; split; [|simpl; lia]; split_and!; eauto|].
    destruct (b <? 184) eqn:E2; bool_go.
    { destruct (_ && _) eqn:E3; [done|]. simplify_eq. split; [|simpl; lia]. split; [lia|].
      exists rest. rewrite puthead_small by lia. split; [simpl; f_equal; lia|]. split; [done|].
      intros Hcs. rewrite Hcs in E3. cbn [Z.eqb andb] in E3. destruct rest; [done|]. by apply Z.ltb_ge. }
    destruct (b <? 192) eqn:E3; bool_go.
    { destruct (readSize rest (b - 183)) as [s|] eqn:Es; [|done]. simplify_eq.
      destruct (readSize_sound rest (b - 183) cs' Hrest ltac:(lia) Es) as (Hs & Hi & r & ->).
      pose proof (putint_length cs' ltac:(lia)). split; [|simpl; rewrite length_app; lia].
      split; [lia|]. exists r. rewrite puthead_large by lia. simpl length.
      split; [simpl; f_equal; lia|]. split; [lia|lia]. }
    destruct (b <? 248) eqn:E4; bool_go.
    { simplify_eq. split; [|simpl; lia]. split; [lia|]. exists rest. rewrite puthead_small by lia.
      split; [simpl; f_equal; lia|done]. }
    destruct (readSize rest (b - 247)) as [s|] eqn:Es; [|done]. simplify_eq.
    destruct (readSize_sound rest (b - 247) cs' Hrest ltac:(lia) Es) as (Hs & Hi & r & ->).
    pose proof (putint_length cs' ltac:(lia)). split; [|simpl; rewrite length_app; lia].
    split; [lia|]. exists r. rewrite puthead_large by lia. simpl length.
    split; [simpl; f_equal; lia|lia]. }
  rewrite readKind_sized by done. destruct (Z.of_nat (length (b :: rest)) <? ts' + cs') eqn:E; bool_go; [done|]. intros Heq. simplify_eq. split; [exact Hh|lia].
Qed.

Lemma readKind_complete k ts cs buf :
  Z.of_nat (length buf) < 2 ^ 64 -> header_of k ts cs buf -> ts + cs <= Z.of_nat (length buf) ->
  readKind buf = Ok (k, ts, cs).
Proof.
  intros Hl Hh Hle.
  assert (exists b rest, buf = b :: rest) as (b & rest & Eb).
  { destruct buf; [|eauto]. exfalso. destruct k; simpl in Hh.
    - by destruct Hh as (_ & _ & ? & ? & ? & _).
    - destruct Hh as [_ (r & E & _)]. unfold puthead in E. by destruct (cs <? 56).
    - destruct Hh as [_ (r & E & _)]. unfold puthead in E. by destruct (cs <? 56). }
  assert (0 <= ts <= Z.of_nat (length buf)) as Hts.
  { destruct k; simpl in Hh; [lia| |]; destruct Hh as [? (r & -> & -> & _)] || destruct Hh as [? (r & -> & ->)];
      rewrite length_app; lia. }
  pose proof (readKind_sized buf ts cs Hts Hl) as Hsz. rewrite (proj2 (Z.ltb_ge (Z.of_nat (length buf)) (ts + cs)) Hle) in Hsz.
  unfold readKind. rewrite Eb in *.
  match goal with |- match ?r with _ => _ end = _ => assert (r = Ok (k, ts, cs)) as -> end;
    [|by rewrite Hsz].
  destruct k; simpl in Hh.
  - destruct Hh as (-> & -> & x & r & [= -> ->] & Hx). by rewrite (proj2 (Z.ltb_lt _ _)) by lia.
  - destruct Hh as [Hcs (r & E & Ets & H1)]. destruct (decide (cs < 56)) as [Hsm|Hbig].
    + rewrite puthead_small in E, Ets by lia. simpl in E, Ets. injection E as -> ->.
      rewrite (proj2 (Z.ltb_ge _ _)), (proj2 (Z.ltb_lt _ _)) by lia.
      replace (128 + cs - 128) with cs by lia. destruct (cs =? 1) eqn:E1; bool_go; [|by subst].
      subst. specialize (H1 eq_refl). destruct r as [|x r]; [done|]. simpl. by rewrite (proj2 (Z.ltb_ge _ _)).
    + rewrite puthead_large in E, Ets by lia. simpl in E, Ets. injection E as -> ->.
      destruct (intsize_bounds cs) as (Hi & _ & _); [lia|]. rewrite putint_length in Ets by lia.
      rewrite (proj2 (Z.ltb_ge _ _)), (proj2 (Z.ltb_ge _ _)), (proj2 (Z.ltb_lt _ _)) by lia.
      replace (183 + Z.of_nat (intsize cs) - 183) with (Z.of_nat (intsize cs)) by lia.
      rewrite readSize_putint by lia. do 3 f_equal. lia.
  - destruct Hh as [Hcs (r & E & Ets)]. destruct (decide (cs < 56)) as [Hsm|Hbig].
    + rewrite puthead_small in E, Ets by lia. simpl in E, Ets. injection E as -> ->.
      rewrite (proj2 (Z.ltb_ge _ _)), (proj2 (Z.ltb_ge _ _)), (proj2 (Z.ltb_ge _ _)),
        (proj2 (Z.ltb_lt _ _)) by lia. subst. do 3 f_equal. lia.
    + rewrite puthead_large in E, Ets by lia. simpl in E, Ets. injection E as -> ->.
      destruct (intsize_bounds cs) as (Hi & _ & _); [lia|]. rewrite putint_length in Ets by lia.
      rewrite !(proj2 (Z.ltb_ge _ _)) by lia.
      replace (247 + Z.of_nat (intsize cs) - 247) with (Z.of_nat (intsize cs)) by lia.
      rewrite readSize_putint by lia. do 3 f_equal. lia.
Qed.

Lemma header_frame k ts cs buf :
  header_of k ts cs buf -> ts + cs <= Z.of_nat (length buf) ->
  let content := take (Z.to_nat cs) (drop (Z.to_nat ts) buf) in
  frame_ok k content /\ buf = frame k content ++ drop (Z.to_nat (ts + cs)) buf.
Proof.
  intros Hh Hle. destruct k; simpl in Hh.
  - destruct Hh as (-> & -> & x & rest & -> & Hx). simpl. split; [eauto|].
    by rewrite (proj2 (Z.leb_le _ _)) by lia.
  - destruct Hh as [Hcs (rest & -> & -> & H1)]. rewrite Z2Nat.inj_add, !Nat2Z.id, drop_app_length by lia.
    rewrite length_app in Hle. rewrite drop_app_add.
    assert (Z.of_nat (length (take (Z.to_nat cs) rest)) = cs) as Hlen by (rewrite length_take; lia).
    assert (frame_ok KString (take (Z.to_nat cs) rest)) as Hok.
    { intros x Hx. rewrite Hx in Hlen. simpl in Hlen. rewrite <- Hlen in Hx. destruct rest as [|y rest]; [done|].
      simpl in Hx. simplify_eq. apply H1. lia. }
    split; [done|]. rewrite frame_string, Hlen, <- app_assoc by done. by rewrite take_drop.
  - destruct Hh as [Hcs (rest & -> & ->)]. rewrite Z2Nat.inj_add, !Nat2Z.id, drop_app_length by lia.
    rewrite length_app in Hle. rewrite drop_app_add.
    assert (Z.of_nat (length (take (Z.to_nat cs) rest)) = cs) as Hlen by (rewrite length_take; lia).
    split; [done|]. simpl. unfold encode_list. rewrite Hlen, <- app_assoc. by rewrite take_drop.
Qed.

Lemma frame_header k content rest :
  frame_ok k content -> Z.of_nat (length (frame k content ++ rest)) < 2 ^ 64 ->
  exists ts, header_of k ts (Z.of_nat (length content)) (frame k content ++ rest) /\
    ts + Z.of_nat (length content) <= Z.of_nat (length (frame k content ++ rest)) /\
    drop (Z.to_nat ts) (frame k content ++ rest) = content ++ rest /\ 0 <= ts.
Proof.
  intros Hok Hl. destruct k.
  - destruct Hok as (x & -> & Hx). exists 0. rewrite frame_byte in * by done. simpl. split_and!; try lia; eauto.
  - rewrite frame_string in * by done. exists (Z.of_nat (length (puthead 0x80 0xB7 (Z.of_nat (length content))))).
    rewrite !length_app in *. split_and!; try lia; [|by rewrite Nat2Z.id, <- app_assoc, drop_app_length].
    split; [lia|]. exists (content ++ rest). rewrite <- app_assoc. split_and!; try done.
    intros H1. destruct content as [|x [|y l]]; simpl in H1; try lia. simpl. by apply (Hok x).
  - cbn [frame] in *. unfold encode_list in *. exists (Z.of_nat (length (puthead 0xC0 0xF7 (Z.of_nat (length content))))).
    rewrite !length_app in *. split_and!; try lia; [|by rewrite Nat2Z.id, <- app_assoc, drop_app_length].
    split; [lia|]. exists (content ++ rest). by rewrite <- app_assoc.
Qed.

(** [Split] inverts the format exactly: on a byte string it returns a
    kind, a content and a rest if and only if the string is the canonical
    encoding of a value of that kind and content followed by the rest. *)
Theorem Split_iff b k content rest :
  Forall byte_ok b -> Z.of_nat (length b) < 2 ^ 64 ->
  Split b = Ok (k, content, rest) <-> frame_ok k content /\ b = frame k content ++ rest.
Proof.
  intros Hb Hl. unfold Split. split.
  - destruct (readKind b) as [[[k' ts] cs]|e] eqn:E; [|done]. intros [= <- <- <-].
    destruct (readKind_sound k' ts cs b Hb Hl E) as [Hh Hle]. by apply header_frame.
  - intros [Hok ->]. destruct (frame_header k content rest Hok Hl) as (ts & Hh & Hle & Hd & H0).
    rewrite (readKind_complete k ts _ _ Hl Hh Hle). rewrite Hd, Nat2Z.id, take_app_length.
    do 2 f_equal. rewrite Z2Nat.inj_add, Nat2Z.id, <- drop_drop, Hd by lia. by rewrite drop_app_length.
Qed.

Lemma Split_iff_witness :
  Split [0x83; 1; 2; 3; 9] = Ok (KString, [1; 2; 3], [9]) <->
  frame_ok KString [1; 2; 3] /\ [0x83; 1; 2; 3; 9] = frame KString [1; 2; 3] ++ [9].
Proof.
  apply (Split_iff [0x83; 1; 2; 3; 9] KString [1; 2; 3] [9]); [|done].
  repeat constructor; done.
Defined.

Lemma EncodeToBytes_format_witness :
  EncodeToBytes (VList [VUint 300; VBytes [7]; VList []]) = Some [0xC5; 0x82; 1; 44; 7; 0xC0] /\
  forall w, write_value (VList [VUint 300; VBytes [7]; VList []]) enc_reset = Some w ->
    length (toBytes w) = enc_size w /\ mjoin (toWriter w) = [0xC5; 0x82; 1; 44; 7; 0xC0].
Proof. apply (EncodeToBytes_format (VList [VUint 300; VBytes [7]; VList []])); [|done]. by repeat split. Defined.

(** ** Counting *)

Definition item_kind (it : item) : Kind :=
  match it with
  | IList _ => KList
  | IStr [x] => if x <? 128 then KByte else KString
  | IStr _ => KString
  end.

Definition item_content (it : item) : list Z :=
  match it with IStr b => b | IList l => l ≫= encode_item end.

Lemma item_frame it : encode_item it = frame (item_kind it) (item_content it) /\
  frame_ok (item_kind it) (item_content it).
Proof.
  destruct it as [[|x [|y l]]|l]; try done. simpl. destruct (x <? 128) eqn:E; bool_go; (split; [done|]).
  - by exists x.
  - by intros y [= <-].
Qed.

Lemma encode_item_pos it : (0 < length (encode_item it))%nat.
Proof.
  assert (forall a b n, (0 < length (puthead a b n))%nat) as Hp
    by (intros; unfold puthead; case_go; simpl; lia).
  destruct it as [[|x [|y l]]|l].
  - vm_compute. lia.
  - cbn [encode_item encode_string]. destruct (x <=? 127); [simpl; lia|]. rewrite length_app. cbn [length]. lia.
  - cbn [encode_item encode_string]. rewrite length_app. cbn [length]. lia.
  - rewrite encode_item_list. unfold encode_list. rewrite length_app.
    specialize (Hp 192 247 (Z.of_nat (length (l ≫= encode_item)))). lia.
Qed.

Lemma readKind_item it rest :
  Z.of_nat (length (encode_item it ++ rest)) < 2 ^ 64 ->
  exists k ts cs, readKind (encode_item it ++ rest) = Ok (k, ts, cs) /\
    drop (Z.to_nat (ts + cs)) (encode_item it ++ rest) = rest.
Proof.
  destruct (item_frame it) as [-> Hok]. intros Hl.
  destruct (frame_header _ _ rest Hok Hl) as (ts & Hh & Hle & Hd & H0).
  eexists _, _, _. split; [by apply readKind_complete|].
  rewrite Z2Nat.inj_add, Nat2Z.id, <- drop_drop, Hd by lia. by rewrite drop_app_length.
Qed.

(** [CountValues] counts the items of a concatenation of encodings. *)
Theorem CountValues_items items :
  Z.of_nat (length (items ≫= encode_item)) < 2 ^ 64 ->
  CountValues (items ≫= encode_item) = Ok (length items).
Proof.
  unfold CountValues. intros Hl.
  assert (forall fuel i, (length (items ≫= encode_item) < fuel)%nat ->
    CountValues_loop fuel (items ≫= encode_item) i = Ok (i + length items)%nat) as H;
    [|by rewrite H by lia].
  induction items as [|it items IH]; intros [|fuel] i Hf; try lia;
    cbn [CountValues_loop]; [by rewrite Nat.add_0_r|].
  rewrite bind_cons in Hl, Hf |- *. pose proof (encode_item_pos it) as Hpos.
  destruct (readKind_item it (items ≫= encode_item) Hl) as (k & ts & cs & Hrk & Hd).
  rewrite length_app in Hl, Hf.
  destruct (encode_item it ++ (items ≫= encode_item)) as [|b l] eqn:E.
  { apply (f_equal length) in E. rewrite length_app in E. simpl in E. lia. }
  rewrite Hrk, Hd. rewrite IH by lia. f_equal. simpl. lia.
Qed.

Lemma CountValues_items_witness :
  CountValues ([IStr [1]; IList [IStr []]; IStr [200]] ≫= encode_item) = Ok 3%nat.
Proof. apply (CountValues_items [IStr [1]; IList [IStr []]; IStr [200]]). done. Defined.

Lemma CountValues_len items n :
  length items = n -> Z.of_nat (length (items ≫= encode_item)) < 2 ^ 64 -> CountValues (items ≫= encode_item) = Ok n.
Proof. intros <-. apply CountValues_items. Qed.

(** An encoded item is split off whatever follows it. *)
Lemma Split_item it rest :
  Z.of_nat (length (encode_item it ++ rest)) < 2 ^ 64 ->
  Split (encode_item it ++ rest) = Ok (item_kind it, item_content it, rest).
Proof.
  destruct (item_frame it) as [-> Hok]. intros Hl.
  destruct (frame_header _ _ rest Hok Hl) as (ts & Hh & Hle & Hd & H0). unfold Split.
  rewrite (readKind_complete _ _ _ _ Hl Hh Hle). rewrite Hd, Nat2Z.id, take_app_length.
  by rewrite Z2Nat.inj_add, Nat2Z.id, <- drop_drop, Hd, drop_app_length by lia.
Qed.

Lemma SplitString_item b rest :
  Z.of_nat (length (encode_item (IStr b) ++ rest)) < 2 ^ 64 -> SplitString (encode_item (IStr b) ++ rest) = Ok (b, rest).
Proof.
  intros Hl. unfold SplitString. rewrite Split_item by done. cbn [item_content].
  destruct b as [|x [|y b]]; cbn [item_kind]; try done. by destruct (x <? 128).
Qed.

Lemma SplitList_item l rest :
  Z.of_nat (length (encode_item (IList l) ++ rest)) < 2 ^ 64 ->
  SplitList (encode_item (IList l) ++ rest) = Ok (l ≫= encode_item, rest).
Proof. intros Hl. unfold SplitList. by rewrite Split_item. Qed.

(** The format is unambiguous, also as a prefix. *)
Lemma encode_item_inj it1 : forall it2 r1 r2,
  Z.of_nat (length (encode_item it1 ++ r1)) < 2 ^ 64 ->
  encode_item it1 ++ r1 = encode_item it2 ++ r2 -> it1 = it2 /\ r1 = r2.
Proof.
  induction it1 as [b|l IH] using item_tree_ind; intros it2 r1 r2 Hl E; pose proof (Split_item _ _ Hl) as S1; rewrite E in S1, Hl;
    rewrite (Split_item _ _ Hl) in S1; injection S1 as Ek Ec Er.
  - destruct it2 as [b2|l2]; [cbn in Ec; by subst|]. destruct b as [|x [|y b]]; cbn in Ek; try done. by destruct (x <? 128).
  - destruct it2 as [[|x [|y b2]]|l2]; cbn in Ek; try done; [by destruct (x <? 128)|]. split; [|done]. f_equal. cbn [item_content] in Ec.
    rewrite <- E in Hl. clear E Ek. assert (Z.of_nat (length (l ≫= encode_item)) < 2 ^ 64) as Hc.
    { pose proof (length_encode_list (l ≫= encode_item)). rewrite length_app, encode_item_list in Hl. lia. }
    clear Hl Er. revert l2 Ec Hc. induction IH as [|it l H1 H2 IHl]; intros [|it2 l2] Ec Hc; try done.
    + rewrite bind_cons in Ec. pose proof (encode_item_pos it2) as Hp. destruct (encode_item it2); [cbn in Hp; lia|done].
    + rewrite bind_cons in Ec. pose proof (encode_item_pos it) as Hp. destruct (encode_item it); [cbn in Hp; lia|done].
    + rewrite !bind_cons in *. destruct (H1 it2 _ _ Hc (eq_sym Ec)) as [<- E2]. f_equal. apply IHl; [done|].
      rewrite length_app in Hc. lia.
Qed.

Lemma encode_item_inj' it1 it2 :
  Z.of_nat (length (encode_item it1)) < 2 ^ 64 -> encode_item it1 = encode_item it2 -> it1 = it2.
Proof.
  intros Hl E. apply (encode_item_inj it1 it2 [] []); by rewrite !app_nil_r.
Qed.
