(* ===== verification/RlpStream.v ===== *)
(** * RLP decoding ([src/rlp/decode.go])

    [Stream] is the state of the decoder over a byte reader.  Operations are
    functions from a stream to a result and the next stream; the stream is
    kept when an operation fails, as the pointer receiver keeps it.  The
    decoders that reflection selects for a type are combinators here. *)

From S2P Require Import Prelude Bytes Rlp.
Local Open Scope Z_scope.

Record Stream := MkStream {
  sr : list Z;                 (* the reader: bytes not read yet *)
  sremaining : Z;
  slimited : bool;
  skind : option Kind;         (* [None] is the value -1 *)
  ssize : Z;
  sbyteval : Z;
  skinderr : option rerr;
  sstack : list (Z * Z);       (* positions and sizes of the open lists, innermost first *)
}.

Definition set_reader s r := MkStream r (sremaining s) (slimited s) (skind s) (ssize s) (sbyteval s) (skinderr s) (sstack s).
Definition set_remaining s n := MkStream (sr s) n (slimited s) (skind s) (ssize s) (sbyteval s) (skinderr s) (sstack s).
Definition set_kind s k := MkStream (sr s) (sremaining s) (slimited s) k (ssize s) (sbyteval s) (skinderr s) (sstack s).
Definition set_size s n := MkStream (sr s) (sremaining s) (slimited s) (skind s) n (sbyteval s) (skinderr s) (sstack s).
Definition set_byteval s b := MkStream (sr s) (sremaining s) (slimited s) (skind s) (ssize s) b (skinderr s) (sstack s).
Definition set_kinderr s e := MkStream (sr s) (sremaining s) (slimited s) (skind s) (ssize s) (sbyteval s) e (sstack s).
Definition set_stack s st := MkStream (sr s) (sremaining s) (slimited s) (skind s) (ssize s) (sbyteval s) (skinderr s) st.

(** ** The monad of the decoder *)

Definition M (A : Type) : Type := Stream -> res rerr A * Stream.

Definition mret {A} (a : A) : M A := fun s => (Ok a, s).
Definition throw {A} (e : rerr) : M A := fun s => (Err e, s).
Definition bind {A B} (m : M A) (f : A -> M B) : M B :=
  fun s => match m s with
           | (Ok a, s) => f a s
           | (Err e, s) => (Err e, s)
           end.
Definition modify (f : Stream -> Stream) : M unit := fun s => (Ok tt, f s).
(** Replace the error of a failed operation. *)
Definition on_err {A} (f : rerr -> rerr) (m : M A) : M A :=
  fun s => match m s with
           | (Err e, s) => (Err (f e), s)
           | r => r
           end.

Notation "'let!' x ':=' m 'in' k" := (bind m (fun x => k))
  (at level 10, x pattern, m at level 100, k at level 200) : go_scope.
Local Open Scope go_scope.

(** ** Reading *)

Definition willRead (n : Z) : M unit := fun s =>
  let s := set_kind s None in
  let check_limit s :=
    if slimited s then
      if sremaining s <? n then (Err ErrValueTooLarge, s)
      else (Ok tt, set_remaining s (u64 (sremaining s - n)))
    else (Ok tt, s) in
  match sstack s with
  | (pos, size) :: st =>
    if u64 (size - pos) <? n then (Err ErrElemTooLarge, s)
    else check_limit (set_stack s ((u64 (pos + n), size) :: st))
  | [] => check_limit s
  end.

Definition readByte : M Z :=
  let! _ := willRead 1 in
  fun s => match sr s with
           | [] => (Err UnexpectedEOF, s)
           | b :: r => (Ok b, set_reader s r)
           end.

Definition readFull (n : Z) : M (list Z) :=
  let! _ := willRead n in
  fun s => if Z.of_nat (length (sr s)) <? n then (Err UnexpectedEOF, set_reader s [])
           else (Ok (take (Z.to_nat n) (sr s)), set_reader s (drop (Z.to_nat n) (sr s))).

Definition readUint (size : Z) : M Z :=
  if size =? 0 then let! _ := modify (fun s => set_kind s None) in mret 0
  else if size =? 1 then readByte
  else
    let! b := readFull size in
    match b with
    | 0 :: _ => throw ErrCanonSize
    | _ => mret (be_join 0 b)
    end.

(** [readKind] returns a kind and a size together with its error. *)
Definition stream_readKind (s : Stream) : Kind * Z * option rerr * Stream :=
  match readByte s with
  | (Err e, s) =>
    let e := match sstack s with
             | [] => match e with UnexpectedEOF | ErrValueTooLarge => EOF | _ => e end
             | _ => e
             end in
    (KByte, 0, Some e, s)
  | (Ok b, s) =>
    let s := set_byteval s 0 in
    let sized k tag :=
      match readUint (b - tag) s with
      | (Ok size, s) => (k, size, if size <? 56 then Some ErrCanonSize else None, s)
      | (Err e, s) => (k, 0, Some e, s)
      end in
    if b <? 0x80 then (KByte, 0, None, set_byteval s b)
    else if b <? 0xB8 then (KString, b - 0x80, None, s)
    else if b <? 0xC0 then sized KString 0xB7
    else if b <? 0xF8 then (KList, b - 0xC0, None, s)
    else sized KList 0xF7
  end.

Definition at_eol (s : Stream) : bool :=
  match sstack s with (pos, size) :: _ => pos =? size | [] => false end.

(** The checks of [Kind] against the enclosing list or the input limit. *)
Definition kind_check (s : Stream) (size : Z) : option rerr :=
  match sstack s with
  | [] => if slimited s && (sremaining s <? size) then Some ErrValueTooLarge else None
  | (pos, lsize) :: _ => if u64 (lsize - pos) <? size then Some ErrElemTooLarge else None
  end.

Definition kind_result (s : Stream) : res rerr (Kind * Z) * Stream :=
  match skinderr s with
  | Some e => (Err e, s)
  | None => (Ok (match skind s with Some k => k | None => KByte end, ssize s), s)
  end.

Definition StreamKind : M (Kind * Z) := fun s =>
  match skind s with
  | Some _ => kind_result s
  | None =>
    let s := set_kinderr s None in
    if at_eol s then (Err EOL, s)
    else
      let '(k, size, err, s) := stream_readKind s in
      let err := match err with Some e => Some e | None => kind_check s size end in
      kind_result (set_kinderr (set_size (set_kind s (Some k)) size) err)
  end.

(** ** Values *)

Definition Bytes : M (list Z) :=
  let! (kind, size) := StreamKind in
  match kind with
  | KByte => fun s => (Ok [sbyteval s], set_kind s None)
  | KString =>
    let! b := readFull size in
    if (size =? 1) && (match b with x :: _ => x <? 128 | [] => false end) then throw ErrCanonSize
    else mret b
  | KList => throw ErrExpectedString
  end.

Definition stream_uint (maxbits : Z) : M Z :=
  let! (kind, size) := StreamKind in
  match kind with
  | KByte => fun s => if sbyteval s =? 0 then (Err ErrCanonInt, s) else (Ok (sbyteval s), set_kind s None)
  | KString =>
    if maxbits / 8 <? size then throw errUintOverflow
    else
      let! v := on_err (fun e => match e with ErrCanonSize => ErrCanonInt | _ => e end) (readUint size) in
      if (0 <? size) && (v <? 128) then throw ErrCanonSize else mret v
  | KList => throw ErrExpectedString
  end.

Definition stream_Bool : M bool :=
  let! num := stream_uint 8 in
  if num =? 0 then mret false else if num =? 1 then mret true else throw errBool.

Definition List : M Z :=
  let! (kind, size) := StreamKind in
  match kind with
  | KList => fun s => (Ok size, set_size (set_kind (set_stack s ((0, size) :: sstack s)) None) 0)
  | _ => throw ErrExpectedList
  end.

Definition ListEnd : M unit := fun s =>
  match sstack s with
  | [] => (Err errNotInList, s)
  | (pos, size) :: st =>
    if negb (pos =? size) then (Err errNotAtEOL, s)
    else
      let st := match st with
                | (p, z) :: st => (u64 (p + size), z) :: st
                | [] => []
                end in
      (Ok tt, set_size (set_kind (set_stack s st) None) 0)
  end.

Definition Raw : M (list Z) :=
  let! (kind, size) := StreamKind in
  match kind with
  | KByte => fun s => (Ok [sbyteval s], set_kind s None)
  | KString => let! b := readFull size in mret (puthead 0x80 0xB7 size ++ b)
  | KList => let! b := readFull size in mret (puthead 0xC0 0xF7 size ++ b)
  end.

(** ** Decoders of types *)

Definition wrapStreamError (e : rerr) : rerr :=
  match e with
  | ErrCanonInt | ErrCanonSize | ErrExpectedList | ErrExpectedString | errUintOverflow | errNotAtEOL =>
    DecodeError e
  | _ => e
  end.

Definition decodeByteSlice : M (list Z) := on_err wrapStreamError Bytes.
Definition decodeString : M (list Z) := on_err wrapStreamError Bytes.
Definition decodeUint (bits : Z) : M Z := on_err wrapStreamError (stream_uint bits).
Definition decodeBool : M bool := on_err wrapStreamError stream_Bool.

Definition decodeBigInt : M Z :=
  let! b := on_err wrapStreamError Bytes in
  match b with
  | 0 :: _ => throw (DecodeError ErrCanonInt)
  | _ => mret (be_value b)
  end.

Definition decodeByteArray (vlen : Z) : M (list Z) :=
  let! (kind, size) := StreamKind in
  match kind with
  | KByte =>
    if negb (vlen =? 1) then throw errLength
    else fun s => match stream_uint 64 s with (Ok v, s) => (Ok [v], s) | (Err _, s) => (Ok [0], s) end
  | KString =>
    if negb (vlen =? size) then throw errLength
    else
      let! b := readFull vlen in
      if (size =? 1) && (match b with x :: _ => x <? 128 | [] => false end)
      then throw (DecodeError ErrCanonSize) else mret b
  | KList => throw (DecodeError ErrExpectedString)
  end.

(** A pointer with the tag [nil] to a type that is encoded as a string: an
    empty string is the nil pointer. *)
Definition decodeNilPtr {A} (elem : M A) : M (option A) :=
  let! (kind, size) := on_err wrapStreamError StreamKind in
  if (bool_decide (kind <> KByte)) && (size =? 0) then
    if bool_decide (kind = KString) then let! _ := modify (fun s => set_kind s None) in mret None
    else throw errEmptyKind
  else let! a := elem in mret (Some a).

Fixpoint decodeSliceElems {A} (fuel : nat) (elemdec : M A) : M (list A) :=
  match fuel with
  | O => throw OutOfFuel
  | S fuel => fun s =>
    match elemdec s with
    | (Err EOL, s) => (Ok [], s)
    | (Err e, s) => (Err e, s)
    | (Ok a, s) =>
      match decodeSliceElems fuel elemdec s with
      | (Ok l, s) => (Ok (a :: l), s)
      | (Err e, s) => (Err e, s)
      end
    end
  end.

(** The loop runs at most once per byte of input and once more for the end. *)
Definition decodeListSlice {A} (elemdec : M A) : M (list A) :=
  let! size := on_err wrapStreamError List in
  if size =? 0 then let! _ := ListEnd in mret []
  else
    let! l := fun s => decodeSliceElems (S (length (sr s))) elemdec s in
    let! _ := ListEnd in
    mret l.

(** [makeStructDecoder]: [fields] decodes the fields in order. *)
Definition decodeField {A} (dec : M A) : M A :=
  on_err (fun e => match e with EOL => errTooFew | _ => e end) dec.

Definition decodeStruct {A} (fields : M A) : M A :=
  let! _ := on_err wrapStreamError List in
  let! a := fields in
  let! _ := on_err wrapStreamError ListEnd in
  mret a.

(** [decodeInterface]: the dynamic type of the result is a tree. *)
Fixpoint decodeInterface_rec (fuel : nat) : M item :=
  match fuel with
  | O => throw OutOfFuel
  | S fuel =>
    let! (kind, _) := StreamKind in
    match kind with
    | KList => let! l := decodeListSlice (decodeInterface_rec fuel) in mret (IList l)
    | _ => let! b := Bytes in mret (IStr b)
    end
  end.

(** Values are nested at most as deep as the input is long. *)
Definition decodeInterface : M item := fun s => decodeInterface_rec (S (length (sr s))) s.

Definition NewStream (b : list Z) : Stream :=
  MkStream b (Z.of_nat (length b)) true None 0 0 None [].

Definition DecodeBytes {A} (b : list Z) (dec : M A) : res rerr A :=
  match dec (NewStream b) with
  | (Err e, _) => Err e
  | (Ok a, s) => if (0 <? length (sr s))%nat then Err ErrMoreThanOneValue else Ok a
  end.

(** ** States of the stream *)

(** Before a value, with [r] left to read. *)
Record ready (s : Stream) (r : list Z) (st : list (Z * Z)) : Prop := MkReady {
  rd_r : sr s = r;
  rd_remaining : sremaining s = Z.of_nat (length r);
  rd_limited : slimited s = true;
  rd_kind : skind s = None;
  rd_stack : sstack s = st;
}.

(** After [Kind] has read the header of a value. *)
Record peeked (s : Stream) (k : Kind) (size byteval : Z) (r : list Z) (st : list (Z * Z)) : Prop := MkPeeked {
  pk_r : sr s = r;
  pk_remaining : sremaining s = Z.of_nat (length r);
  pk_limited : slimited s = true;
  pk_kind : skind s = Some k;
  pk_size : ssize s = size;
  pk_byteval : sbyteval s = byteval;
  pk_err : skinderr s = None;
  pk_stack : sstack s = st;
}.

(** The innermost list has room for [n] more bytes. *)
Definition room (n : nat) (st : list (Z * Z)) : Prop :=
  match st with (p, z) :: _ => p + Z.of_nat n <= z | [] => True end.

Definition advance (n : nat) (st : list (Z * Z)) : list (Z * Z) :=
  match st with (p, z) :: st => (p + Z.of_nat n, z) :: st | [] => [] end.

Definition stack_ok (st : list (Z * Z)) : Prop := Forall (fun e => 0 <= e.1 <= e.2 /\ e.2 < 2 ^ 64) st.

Lemma advance_ok n st : stack_ok st -> room n st -> stack_ok (advance n st).
Proof.
  intros Hst Hr. destruct st as [|[p z] st]; [done|]. apply Forall_cons in Hst as [? Hst]. simpl in *.
  constructor; [simpl; lia|done].
Qed.

Lemma advance_add n m st : advance n (advance m st) = advance (m + n) st.
Proof. destruct st as [|[p z] st]; [done|]. simpl. do 2 f_equal. lia. Qed.

Lemma advance_0 st : advance 0 st = st.
Proof. destruct st as [|[p z] st]; [done|]. simpl. do 2 f_equal. lia. Qed.

Lemma room_add n m st : stack_ok st -> room (n + m) st <-> room n st /\ room m (advance n st).
Proof. intros Hst. destruct st as [|[p z] st]; simpl; [tauto|]. lia. Qed.

(** ** Reading *)

Lemma willRead_ok s n r st :
  ready s r st -> stack_ok st -> Z.of_nat (length r) < 2 ^ 64 ->
  match willRead (Z.of_nat n) s with
  | (Ok _, s') => room n st /\ (n <= length r)%nat /\ sbyteval s' = sbyteval s /\
      sr s' = r /\ sremaining s' = Z.of_nat (length r - n) /\ slimited s' = true /\
      skind s' = None /\ sstack s' = advance n st
  | (Err e, s') => ~ (room n st /\ (n <= length r)%nat) /\ e <> EOL /\ e <> OutOfFuel
  end.
Proof.
  intros [Hr Hm Hlim Hk Hs] Hst Hl. unfold willRead. cbn [set_kind sstack]. rewrite Hs.
  destruct st as [|[p z] st]; simpl.
  - rewrite Hlim, Hm. destruct (_ <? _) eqn:E; bool_go; [split; [lia|done]|]. split; [done|]. split; [lia|].
    simpl. rewrite wrap_id by (unfold fits; lia). split_and!; try done. lia.
  - apply Forall_cons in Hst as [[Hp Hz] _]. simpl in Hp, Hz.
    rewrite wrap_id by (unfold fits; lia). destruct (z - p <? _) eqn:E; bool_go; [split; [lia|done]|].
    cbn [set_stack slimited sremaining]. rewrite Hlim, Hm.
    destruct (_ <? _) eqn:E2; bool_go; [split; [lia|done]|]. split; [lia|]. split; [lia|].
    simpl. rewrite !wrap_id by (unfold fits; lia). split_and!; try done. lia.
Qed.

Lemma readByte_ok s b r st :
  ready s (b :: r) st -> stack_ok st -> Z.of_nat (length (b :: r)) < 2 ^ 64 -> room 1 st ->
  exists s', readByte s = (Ok b, s') /\ ready s' r (advance 1 st) /\ sbyteval s' = sbyteval s.
Proof.
  intros Hs Hst Hl Hr. pose proof (willRead_ok s 1 _ _ Hs Hst Hl) as H. unfold readByte, bind.
  change (Z.of_nat 1) with 1 in H. destruct (willRead 1 s) as [[[]|e] s1].
  - destruct H as (_ & _ & ? & E & Hm & Hlim & Hk & Hst'). rewrite E. eexists. split; [done|].
    split; [|done]. split; simpl; try done. simpl in Hm. lia.
  - destruct H as [H _]. exfalso. apply H. simpl. split; [done|lia].
Qed.

Lemma readByte_sound s r st x s' :
  ready s r st -> stack_ok st -> Z.of_nat (length r) < 2 ^ 64 -> readByte s = (Ok x, s') ->
  exists r', r = x :: r' /\ room 1 st /\ ready s' r' (advance 1 st) /\ sbyteval s' = sbyteval s.
Proof.
  intros Hs Hst Hl. pose proof (willRead_ok s 1 _ _ Hs Hst Hl) as H. unfold readByte, bind.
  change (Z.of_nat 1) with 1 in H. destruct (willRead 1 s) as [[[]|e] s1]; [|done].
  destruct H as (Hr & _ & ? & E & Hm & Hlim & Hk & Hst'). rewrite E.
  destruct r as [|b r]; [done|]. intros [= <- <-]. exists r. split_and!; try done.
  split; simpl; try done. simpl in Hm. lia.
Qed.

Lemma readByte_err s r st e s' :
  ready s r st -> stack_ok st -> Z.of_nat (length r) < 2 ^ 64 -> readByte s = (Err e, s') ->
  e <> EOL /\ e <> OutOfFuel.
Proof.
  intros Hs Hst Hl. pose proof (willRead_ok s 1 _ _ Hs Hst Hl) as H. unfold readByte, bind.
  change (Z.of_nat 1) with 1 in H. destruct (willRead 1 s) as [[[]|e1] s1].
  - destruct H as (_ & _ & ? & E & _). rewrite E. destruct r; [by intros [= <- <-]|done].
  - intros [= <- <-]. by destruct H.
Qed.

Lemma readFull_ok s b r st :
  ready s (b ++ r) st -> stack_ok st -> Z.of_nat (length (b ++ r)) < 2 ^ 64 -> room (length b) st ->
  exists s', readFull (Z.of_nat (length b)) s = (Ok b, s') /\ ready s' r (advance (length b) st) /\
    sbyteval s' = sbyteval s.
Proof.
  intros Hs Hst Hl Hr. pose proof (willRead_ok s (length b) _ _ Hs Hst Hl) as H. unfold readFull, bind.
  destruct (willRead _ s) as [[[]|e] s1].
  - destruct H as (_ & _ & ? & E & Hm & Hlim & Hk & Hst'). rewrite E.
    rewrite (proj2 (Z.ltb_ge _ _)) by (rewrite length_app; lia).
    rewrite Nat2Z.id, take_app_length, drop_app_length. eexists. split; [done|]. split; [|done].
    split; simpl; try done. rewrite Hm, length_app. lia.
  - destruct H as [H _]. exfalso. apply H. rewrite length_app. split; [done|lia].
Qed.

Lemma readFull_sound s n r st b s' :
  ready s r st -> stack_ok st -> Z.of_nat (length r) < 2 ^ 64 -> 0 <= n -> readFull n s = (Ok b, s') ->
  exists r', r = b ++ r' /\ n = Z.of_nat (length b) /\ room (length b) st /\
    ready s' r' (advance (length b) st) /\ sbyteval s' = sbyteval s.
Proof.
  intros Hs Hst Hl Hn. pose proof (willRead_ok s (Z.to_nat n) _ _ Hs Hst Hl) as H. unfold readFull, bind.
  rewrite Z2Nat.id in H by done. destruct (willRead n s) as [[[]|e] s1]; [|done].
  destruct H as (Hr & Hle & ? & E & Hm & Hlim & Hk & Hst'). rewrite E.
  destruct (_ <? _) eqn:E2; bool_go; [done|]. intros [= <- <-].
  assert (length (take (Z.to_nat n) r) = Z.to_nat n) as Hlen by (rewrite length_take; lia).
  exists (drop (Z.to_nat n) r). rewrite Hlen. split_and!; try done; [by rewrite take_drop|lia|].
  split; simpl; try done. by rewrite Hm, length_drop.
Qed.

Lemma readFull_err s n r st e s' :
  ready s r st -> stack_ok st -> Z.of_nat (length r) < 2 ^ 64 -> 0 <= n -> readFull n s = (Err e, s') ->
  e <> EOL /\ e <> OutOfFuel.
Proof.
  intros Hs Hst Hl Hn. pose proof (willRead_ok s (Z.to_nat n) _ _ Hs Hst Hl) as H. unfold readFull, bind.
  rewrite Z2Nat.id in H by done. destruct (willRead n s) as [[[]|e1] s1].
  - case_go; [by intros [= <- <-]|done].
  - intros [= <- <-]. by destruct H.
Qed.

Lemma readUint_ok s n r st :
  ready s (putint n ++ r) st -> stack_ok st -> Z.of_nat (length (putint n ++ r)) < 2 ^ 64 ->
  0 < n < 2 ^ 64 -> room (intsize n) st ->
  exists s', readUint (Z.of_nat (intsize n)) s = (Ok n, s') /\ ready s' r (advance (intsize n) st) /\
    sbyteval s' = sbyteval s.
Proof.
  intros Hs Hst Hl Hn Hr. destruct (intsize_bounds n) as (Hi & _ & _); [lia|].
  pose proof (putint_length n ltac:(lia)) as Hlen. pose proof (putint_value n ltac:(lia)) as Hv.
  pose proof (putint_ok n ltac:(lia)) as Hok. destruct (putint_canonical n Hn) as (x & l & E & Hx).
  unfold readUint. rewrite (proj2 (Z.eqb_neq _ 0)) by lia. destruct (Z.of_nat (intsize n) =? 1) eqn:E1; bool_go.
  - assert (intsize n = 1%nat) as Hi1 by lia. rewrite E, Hi1 in *. destruct l; [|done].
    cbn [be_value length] in Hv. rewrite Z.pow_0_r in Hv. replace n with x by lia. by apply readByte_ok.
  - rewrite <- Hlen in Hr |- *. unfold bind. destruct (readFull_ok s (putint n) r st Hs Hst Hl Hr) as (s' & -> & H1 & H2).
    exists s'. split; [|done]. rewrite be_join_value, Hv by done. rewrite E. destruct x; done.
Qed.

Lemma readUint_sound s size r st n s' :
  ready s r st -> stack_ok st -> Z.of_nat (length r) < 2 ^ 64 -> Forall byte_ok r -> 1 <= size <= 8 ->
  readUint size s = (Ok n, s') -> n <> 0 ->
  exists r', r = putint n ++ r' /\ size = Z.of_nat (intsize n) /\ 0 < n < 2 ^ 64 /\
    room (intsize n) st /\ ready s' r' (advance (intsize n) st) /\ sbyteval s' = sbyteval s.
Proof.
  intros Hs Hst Hl Hb Hsz. unfold readUint. rewrite (proj2 (Z.eqb_neq _ 0)) by lia.
  assert (forall b, Forall byte_ok b -> canonical b -> Z.of_nat (length b) = size -> be_value b = n -> n <> 0 ->
    b = putint n /\ size = Z.of_nat (intsize n) /\ 0 < n < 2 ^ 64) as Hcan.
  { intros b Hok Hc Hlen Hv H0. pose proof (be_value_bound b Hok) as Hbd. rewrite Hlen, Hv in Hbd.
    assert (256 ^ size <= 2 ^ 64) by (change (2 ^ 64) with (256 ^ 8); apply Z.pow_le_mono_r; lia).
    assert (b = putint n) as ->.
    { apply canonical_inj; [done|apply putint_ok; lia|done| |rewrite putint_value; lia].
      destruct (putint_canonical n) as (y & ly & -> & ?); [lia|done]. }
    rewrite putint_length in Hlen by lia. split_and!; lia || done. }
  destruct (size =? 1) eqn:E1; bool_go.
  - intros Hread Hn0. destruct (readByte_sound s r st n s' Hs Hst Hl Hread) as (r' & -> & Hr & Hrd & He).
    apply Forall_cons in Hb as [Hb _]. unfold byte_ok in Hb.
    destruct (Hcan [n]) as (Ep & Esz & Hn); [constructor; [done|constructor]|done|simpl; lia|cbn; lia|done|].
    exists r'. rewrite <- Ep. assert (intsize n = 1%nat) as -> by lia. split_and!; done || lia.
  - unfold bind. destruct (readFull size s) as [[b|e] s1] eqn:Ef; [|done].
    destruct (readFull_sound s size r st b s1 Hs Hst Hl ltac:(lia) Ef) as (r' & -> & Hlen & Hr & Hrd & He).
    apply Forall_app in Hb as [Hb _]. destruct b as [|x b]; [simpl in Hlen; lia|]. intros Hret Hn0.
    assert (x <> 0 /\ n = be_value (x :: b) /\ s' = s1) as (Hx & -> & ->).
    { unfold throw, mret in Hret. assert (x <> 0) as Hx by (by intros ->).
      assert ((@Ok rerr _ (be_join 0 (x :: b)), s1) = (Ok n, s')) as Heq by (by destruct x).
      assert (n = be_join 0 (x :: b)) as -> by congruence.
      rewrite be_join_value by done. split_and!; [done|lia|congruence]. }
    destruct (Hcan (x :: b)) as (Ep & Esz & Hn); try done.
    exists r'. rewrite <- Ep. assert (length (x :: b) = intsize (be_value (x :: b))) as El by lia.
    rewrite El in Hr, Hrd. split_and!; done || lia.
Qed.

Lemma readUint_err s size r st e s' :
  ready s r st -> stack_ok st -> Z.of_nat (length r) < 2 ^ 64 -> 0 <= size ->
  readUint size s = (Err e, s') -> e <> EOL /\ e <> OutOfFuel.
Proof.
  intros Hs Hst Hl Hsz. unfold readUint. destruct (size =? 0) eqn:E0; [done|].
  destruct (size =? 1); [by eapply readByte_err|]. unfold bind.
  destruct (readFull size s) as [[b|e1] s1] eqn:Ef.
  - destruct b as [|[] b]; [done| |done|done]. by intros [= <- <-].
  - intros [= <- <-]. by eapply readFull_err.
Qed.

(** ** Headers *)

Definition head_of (k : Kind) (size byteval : Z) : list Z :=
  match k with
  | KByte => [byteval]
  | KString => puthead 0x80 0xB7 size
  | KList => puthead 0xC0 0xF7 size
  end.

(** Sizes and byte values that a header can carry. *)
Definition header_ok (k : Kind) (size byteval : Z) : Prop :=
  match k with
  | KByte => size = 0 /\ 0 <= byteval < 128
  | _ => 0 <= size < 2 ^ 64 /\ byteval = 0
  end.

(** A value of [size] bytes fits into the list or the input. *)
Definition fits_in (size : Z) (r : list Z) (st : list (Z * Z)) : Prop :=
  match st with [] => size <= Z.of_nat (length r) | (p, z) :: _ => p + size <= z end.

Lemma head_of_pos k size bv : (0 < length (head_of k size bv))%nat.
Proof. destruct k; simpl; unfold puthead; repeat case_go; simpl; lia. Qed.


(** A long header: the tag byte and the size behind it. *)
Lemma long_header_ok s tag size r st :
  0 <= tag -> 56 <= size < 2 ^ 64 ->
  ready s ((tag + Z.of_nat (intsize size) :: putint size) ++ r) st -> stack_ok st ->
  Z.of_nat (length ((tag + Z.of_nat (intsize size) :: putint size) ++ r)) < 2 ^ 64 ->
  room (S (intsize size)) st ->
  exists s1 s2, readByte s = (Ok (tag + Z.of_nat (intsize size)), s1) /\
    readUint (tag + Z.of_nat (intsize size) - tag) (set_byteval s1 0) = (Ok size, s2) /\
    ready s2 r (advance (S (intsize size)) st) /\ sbyteval s2 = 0.
Proof.
  intros Htag Hsz Hs Hst Hl Hr. apply (room_add 1) in Hr as [Hr1 Hr2]; [|done].
  destruct (readByte_ok s _ (putint size ++ r) st Hs Hst Hl Hr1) as (s1 & E1 & H1 & _).
  assert (ready (set_byteval s1 0) (putint size ++ r) (advance 1 st)) as H1'
    by (destruct H1; split; done).
  replace (tag + Z.of_nat (intsize size) - tag) with (Z.of_nat (intsize size)) by lia.
  assert (Z.of_nat (length (putint size ++ r)) < 2 ^ 64) as Hl' by (cbn [app length] in Hl; lia).
  destruct (readUint_ok _ size r _ H1' (advance_ok 1 st Hst Hr1) Hl' ltac:(lia) Hr2) as (s2 & E2 & H2 & Hb).
  exists s1, s2. rewrite advance_add in H2. by split_and!.
Qed.

Lemma stream_readKind_ok s k size bv r st :
  ready s (head_of k size bv ++ r) st -> stack_ok st ->
  Z.of_nat (length (head_of k size bv ++ r)) < 2 ^ 64 -> header_ok k size bv ->
  room (length (head_of k size bv)) st ->
  exists s', stream_readKind s = (k, size, None, s') /\
    ready s' r (advance (length (head_of k size bv)) st) /\ sbyteval s' = bv.
Proof.
  intros Hs Hst Hl Hh Hr. unfold stream_readKind.
  assert (forall x, head_of k size bv = [x] -> exists s1, readByte s = (Ok x, s1) /\
    forall b, ready (set_byteval s1 b) r (advance 1 st)) as Hshort.
  { intros x E. rewrite E in *. destruct (readByte_ok s x r st Hs Hst Hl Hr) as (s1 & E1 & H1 & _).
    exists s1. split; [done|]. intros b. destruct H1; by split. }
  destruct k; cbn [head_of header_ok] in *.
  - destruct Hh as [-> Hb]. destruct (Hshort bv eq_refl) as (s1 & -> & H1).
    rewrite (proj2 (Z.ltb_lt _ _)) by lia. eexists. split; [done|]. split; [|done]. simpl.
    destruct (H1 bv); by split.
  - destruct Hh as [Hsz ->]. destruct (decide (size < 56)).
    + rewrite puthead_small in * by lia. destruct (Hshort _ eq_refl) as (s1 & -> & H1).
      rewrite (proj2 (Z.ltb_ge _ _)), (proj2 (Z.ltb_lt _ _)) by lia.
      replace (128 + size - 128) with size by lia. eexists. by split; [done|].
    + rewrite puthead_large in * by lia. cbn [length] in *. rewrite putint_length in * by lia.
      destruct (long_header_ok s 183 size r st) as (s1 & s2 & -> & E2 & H2 & Hb); try done; try lia.
      destruct (intsize_bounds size) as (Hi & _ & _); [lia|].
      rewrite (proj2 (Z.ltb_ge _ _)), (proj2 (Z.ltb_ge _ _)), (proj2 (Z.ltb_lt _ _)) by lia.
      rewrite E2, (proj2 (Z.ltb_ge _ _)) by lia. eexists. by split; [done|].
  - destruct Hh as [Hsz ->]. destruct (decide (size < 56)).
    + rewrite puthead_small in * by lia. destruct (Hshort _ eq_refl) as (s1 & -> & H1).
      rewrite !(proj2 (Z.ltb_ge (192 + size) _)), (proj2 (Z.ltb_lt _ _)) by lia.
      replace (192 + size - 192) with size by lia. eexists. by split; [done|].
    + rewrite puthead_large in * by lia. cbn [length] in *. rewrite putint_length in * by lia.
      destruct (long_header_ok s 247 size r st) as (s1 & s2 & -> & E2 & H2 & Hb); try done; try lia.
      destruct (intsize_bounds size) as (Hi & _ & _); [lia|].
      rewrite !(proj2 (Z.ltb_ge (247 + _) _)) by lia.
      rewrite E2, (proj2 (Z.ltb_ge _ _)) by lia. eexists. by split; [done|].
Qed.

Lemma StreamKind_peek s k size bv r st :
  peeked s k size bv r st -> StreamKind s = (Ok (k, size), s).
Proof. intros []. unfold StreamKind, kind_result. by simplify_option_eq. Qed.

Lemma at_eol_room s st n : sstack s = st -> (0 < n)%nat -> room n st -> at_eol s = false.
Proof.
  intros E Hn Hr. unfold at_eol. rewrite E. destruct st as [|[p z] st]; [done|]. simpl in Hr.
  apply Z.eqb_neq. lia.
Qed.

Lemma kind_check_ok s r st size :
  ready s r st -> stack_ok st -> 0 <= size ->
  (kind_check s size = None /\ fits_in size r st) \/
  (~ fits_in size r st /\ exists e, kind_check s size = Some e /\ e <> EOL /\ e <> OutOfFuel).
Proof.
  intros [Hr Hm Hlim Hk Hs] Hst Hsz. unfold kind_check, fits_in. rewrite Hs, Hlim, Hm.
  destruct st as [|[p z] st]; simpl.
  - destruct (_ <? size) eqn:E; bool_go; [right|by left]. split; [lia|]. by eexists.
  - apply Forall_cons in Hst as [[Hp Hz] _]. simpl in Hp, Hz. rewrite wrap_id by (unfold fits; lia).
    destruct (_ <? size) eqn:E; bool_go; [right|left; split; [done|lia]]. split; [lia|]. by eexists.
Qed.

Lemma StreamKind_ok s k size bv r st :
  ready s (head_of k size bv ++ r) st -> stack_ok st ->
  Z.of_nat (length (head_of k size bv ++ r)) < 2 ^ 64 -> header_ok k size bv ->
  room (length (head_of k size bv)) st -> fits_in size r (advance (length (head_of k size bv)) st) ->
  exists s', StreamKind s = (Ok (k, size), s') /\
    peeked s' k size bv r (advance (length (head_of k size bv)) st).
Proof.
  intros Hs Hst Hl Hh Hr Hf. unfold StreamKind. rewrite (rd_kind _ _ _ Hs).
  assert (ready (set_kinderr s None) (head_of k size bv ++ r) st) as Hs' by (destruct Hs; by split).
  rewrite (at_eol_room _ st _ (rd_stack _ _ _ Hs') (head_of_pos k size bv) Hr).
  destruct (stream_readKind_ok _ k size bv r st Hs' Hst Hl Hh Hr) as (s1 & -> & H1 & Hb).
  assert (0 <= size) as Hsz by (destruct k; simpl in Hh; lia).
  destruct (kind_check_ok s1 r _ size H1 (advance_ok _ _ Hst Hr) Hsz) as [[-> _]|[Hno _]]; [|done].
  eexists. split; [done|]. destruct H1. by split.
Qed.

Lemma long_header_sound s1 tag b r st (k : Kind) size e s2 :
  ready s1 r (advance 1 st) -> stack_ok (advance 1 st) -> Z.of_nat (length (b :: r)) < 2 ^ 64 ->
  Forall byte_ok (b :: r) -> tag < b <= tag + 8 -> stack_ok st -> room 1 st ->
  match readUint (b - tag) s1 with
  | (Ok size, s) => (k, size, if size <? 56 then Some ErrCanonSize else None, s)
  | (Err e, s) => (k, 0, Some e, s)
  end = (k, size, e, s2) ->
  match e with
  | None => 56 <= size < 2 ^ 64 /\ exists r', b :: r = (tag + Z.of_nat (intsize size) :: putint size) ++ r' /\
      room (S (intsize size)) st /\ ready s2 r' (advance (S (intsize size)) st) /\ sbyteval s2 = sbyteval s1
  | Some e => e <> EOL /\ e <> OutOfFuel
  end.
Proof.
  intros Hs Hst1 Hl Hb Htag Hst Hr. apply Forall_cons in Hb as [_ Hb].
  assert (Z.of_nat (length r) < 2 ^ 64) as Hl' by (simpl in Hl; lia).
  destruct (readUint (b - tag) s1) as [[n|e1] s3] eqn:E; intros [= <- <- <-].
  - destruct (n <? 56) eqn:E2; bool_go; [done|].
    destruct (readUint_sound s1 (b - tag) r _ n s3 Hs Hst1 Hl' Hb ltac:(lia) E ltac:(lia))
      as (r' & -> & Hsz & Hn & Hr2 & Hs3 & Hbv).
    split; [lia|]. exists r'. rewrite advance_add in Hs3. split_and!; try done.
    + cbn [app]. f_equal. lia.
    + by apply (room_add 1).
  - apply (readUint_err s1 (b - tag) r _ _ _ Hs Hst1 Hl' ltac:(lia) E).
Qed.

Lemma stream_readKind_sound s r st k size e s' :
  ready s r st -> stack_ok st -> Z.of_nat (length r) < 2 ^ 64 -> Forall byte_ok r ->
  stream_readKind s = (k, size, e, s') ->
  match e with
  | None => exists bv r', r = head_of k size bv ++ r' /\ header_ok k size bv /\
      room (length (head_of k size bv)) st /\
      ready s' r' (advance (length (head_of k size bv)) st) /\ sbyteval s' = bv
  | Some e => e <> EOL /\ e <> OutOfFuel
  end.
Proof.
  intros Hs Hst Hl Hb. unfold stream_readKind. destruct (readByte s) as [[b|e1] s1] eqn:Er.
  2:{ destruct (readByte_err s r st e1 s1 Hs Hst Hl Er). intros [= <- <- <- <-].
      destruct (sstack s1); [|done]. by destruct e1. }
  destruct (readByte_sound s r st b s1 Hs Hst Hl Er) as (r1 & -> & Hr1 & H1 & _).
  pose proof Hb as [Hbb _]%Forall_cons. unfold byte_ok in Hbb.
  assert (forall x, ready (set_byteval s1 x) r1 (advance 1 st)) as H1' by (intros; destruct H1; by split).
  pose proof (advance_ok 1 st Hst Hr1) as Hst1.
  destruct (b <? 128) eqn:E1; bool_go.
  { intros [= <- <- <- <-]. exists b, r1. split_and!; [done|split; [done|lia]|done|apply H1'|done]. }
  destruct (b <? 184) eqn:E2; bool_go.
  { intros [= <- <- <- <-]. exists 0, r1. cbn [head_of]. rewrite puthead_small by lia.
    split_and!; try done; [cbn [app]; f_equal; lia|split; [lia|done]]. }
  destruct (b <? 192) eqn:E3; bool_go.
  { intros H. pose proof H as Hk. assert (k = KString) as ->
      by (destruct (readUint _ _) as [[]]; by simplify_eq).
    apply (long_header_sound (set_byteval s1 0) 183 b r1 st KString size e s' (H1' 0) Hst1 Hl Hb ltac:(lia) Hst Hr1) in H.
    destruct e as [e|]; [done|]. destruct H as (Hsz & r' & -> & Hr & Hrd & Hbv).
    exists 0, r'. cbn [head_of]. rewrite puthead_large by lia. cbn [length].
    rewrite putint_length by lia. split_and!; try done. split; [lia|done]. }
  destruct (b <? 248) eqn:E4; bool_go.
  { intros [= <- <- <- <-]. exists 0, r1. cbn [head_of]. rewrite puthead_small by lia.
    split_and!; try done; [cbn [app]; f_equal; lia|split; [lia|done]]. }
  intros H. assert (k = KList) as -> by (destruct (readUint _ _) as [[]]; by simplify_eq).
  apply (long_header_sound (set_byteval s1 0) 247 b r1 st KList size e s' (H1' 0) Hst1 Hl Hb ltac:(lia) Hst Hr1) in H.
  destruct e as [e|]; [done|]. destruct H as (Hsz & r' & -> & Hr & Hrd & Hbv).
  exists 0, r'. cbn [head_of]. rewrite puthead_large by lia. cbn [length].
  rewrite putint_length by lia. split_and!; try done. split; [lia|done].
Qed.

Lemma StreamKind_sound s r st :
  ready s r st -> stack_ok st -> Z.of_nat (length r) < 2 ^ 64 -> Forall byte_ok r ->
  match StreamKind s with
  | (Ok (k, size), s') => exists bv r', r = head_of k size bv ++ r' /\ header_ok k size bv /\
      room (length (head_of k size bv)) st /\ fits_in size r' (advance (length (head_of k size bv)) st) /\
      peeked s' k size bv r' (advance (length (head_of k size bv)) st)
  | (Err e, s') => e <> OutOfFuel /\ (e = EOL -> ready s' r st /\ exists p st', st = (p, p) :: st')
  end.
Proof.
  intros Hs Hst Hl Hb. unfold StreamKind. rewrite (rd_kind _ _ _ Hs).
  assert (ready (set_kinderr s None) r st) as Hs' by (destruct Hs; by split).
  destruct (at_eol _) eqn:Ee.
  { split; [done|]. intros _. split; [done|]. unfold at_eol in Ee. rewrite (rd_stack _ _ _ Hs') in Ee.
    destruct st as [|[p z] st]; [done|]. bool_go. subst. eauto. }
  destruct (stream_readKind (set_kinderr s None)) as [[[k size] e] s1] eqn:Ek.
  pose proof (stream_readKind_sound _ r st k size e s1 Hs' Hst Hl Hb Ek) as H.
  destruct e as [e|].
  { unfold kind_result. simpl. by destruct H. }
  destruct H as (bv & r' & -> & Hh & Hr & H1 & Hbv).
  assert (0 <= size) as Hsz by (destruct k; simpl in Hh; lia).
  destruct (kind_check_ok s1 r' _ size H1 (advance_ok _ _ Hst Hr) Hsz) as [[-> Hf]|(_ & e & -> & ? & ?)].
  - unfold kind_result. simpl. exists bv, r'. split_and!; try done. destruct H1; by split.
  - unfold kind_result. simpl. done.
Qed.

(** ** Laws of decoders *)

(** The context of an operation: a stream before a value with enough room. *)
Definition input_ok (r : list Z) (st : list (Z * Z)) : Prop :=
  stack_ok st /\ Z.of_nat (length r) < 2 ^ 64.

(** Decoding the encoding of [a] gives [a] and consumes exactly that. *)
Definition completes {A} (d : M A) (enc : A -> list Z) (ok : A -> Prop) : Prop :=
  forall a s r st, ok a -> ready s (enc a ++ r) st -> input_ok (enc a ++ r) st -> room (length (enc a)) st ->
  exists s', d s = (Ok a, s') /\ ready s' r (advance (length (enc a)) st).

(** At the end of a list an element decoder reports [EOL]. *)
Definition reports_eol {A} (d : M A) : Prop :=
  forall s r p st, ready s r ((p, p) :: st) ->
  exists s', d s = (Err EOL, s') /\ ready s' r ((p, p) :: st).

(** What is decoded was encoded canonically, and [EOL] means the end of a list. *)
Definition sounds {A} (d : M A) (enc : A -> list Z) (ok : A -> Prop) : Prop :=
  forall s r st, ready s r st -> input_ok r st -> Forall byte_ok r ->
  match d s with
  | (Ok a, s') => ok a /\ exists r', r = enc a ++ r' /\ room (length (enc a)) st /\
      ready s' r' (advance (length (enc a)) st)
  | (Err e, s') => e = EOL -> ready s' r st /\ exists p st', st = (p, p) :: st'
  end.

Definition enough_fuel {A} (d : M A) (n : nat) : Prop :=
  forall s r st, ready s r st -> input_ok r st -> Forall byte_ok r -> (length r < n)%nat ->
  forall s', d s <> (Err OutOfFuel, s').

Record lawful {A} (d : M A) (enc : A -> list Z) (ok : A -> Prop) : Prop := MkLawful {
  lw_complete : completes d enc ok;
  lw_sound : sounds d enc ok;
  lw_eol : reports_eol d;
  lw_pos : forall a, (0 < length (enc a))%nat;
}.

Lemma StreamKind_eol s r p st :
  ready s r ((p, p) :: st) -> exists s', StreamKind s = (Err EOL, s') /\ ready s' r ((p, p) :: st).
Proof.
  intros Hs. unfold StreamKind. rewrite (rd_kind _ _ _ Hs).
  assert (at_eol (set_kinderr s None) = true) as ->.
  { unfold at_eol. simpl. rewrite (rd_stack _ _ _ Hs). by apply Z.eqb_refl. }
  eexists. split; [done|]. destruct Hs; by split.
Qed.

Lemma bind_eol {A B} (m : M A) (f : A -> M B) : reports_eol m -> reports_eol (bind m f).
Proof. intros Hm s r p st Hs. destruct (Hm s r p st Hs) as (s' & E & ?). exists s'. unfold bind. by rewrite E. Qed.

Lemma on_err_eol {A} f (m : M A) : f EOL = EOL -> reports_eol m -> reports_eol (on_err f m).
Proof.
  intros Hf Hm s r p st Hs. destruct (Hm s r p st Hs) as (s' & E & ?). exists s'. unfold on_err.
  by rewrite E, Hf.
Qed.

Lemma on_err_completes {A} f (d : M A) enc ok : completes d enc ok -> completes (on_err f d) enc ok.
Proof.
  intros Hd a s r st Ha Hs Hi Hr. destruct (Hd a s r st Ha Hs Hi Hr) as (s' & E & ?). exists s'.
  unfold on_err. by rewrite E.
Qed.

Lemma on_err_sounds {A} f (d : M A) enc ok :
  (forall e, f e = EOL -> e = EOL) -> sounds d enc ok -> sounds (on_err f d) enc ok.
Proof.
  intros Hf Hd s r st Hs Hi Hb. specialize (Hd s r st Hs Hi Hb). unfold on_err.
  destruct (d s) as [[a|e] s']; [done|]. intros E%Hf. by apply Hd.
Qed.

Lemma wrap_eol e : wrapStreamError e = EOL -> e = EOL.
Proof. by destruct e. Qed.

Lemma wrap_lawful {A} (d : M A) enc ok : lawful d enc ok -> lawful (on_err wrapStreamError d) enc ok.
Proof.
  intros [H1 H2 H3 H4]. split; [by apply on_err_completes|apply on_err_sounds, H2; apply wrap_eol| |done].
  by apply on_err_eol.
Qed.

#[global] Arguments StreamKind : simpl never.
#[global] Arguments readFull : simpl never.

(** ** Strings *)

(** A byte string as a header and a body. *)
Lemma string_parts b :
  Forall byte_ok b -> Z.of_nat (length b) < 2 ^ 64 ->
  exists k size bv body, encode_string b = head_of k size bv ++ body /\ header_ok k size bv /\
    Z.of_nat (length body) = size /\ k <> KList /\
    (k = KByte -> b = [bv]) /\ (k = KString -> body = b /\ frame_ok KString b).
Proof.
  intros Hb Hl. destruct b as [|x [|y b]].
  - exists KString, 0, 0, []. split_and!; [done|done|done|done|done|]. intros _. split; [done|]. by intros x.
  - apply Forall_cons in Hb as [Hx _]. unfold byte_ok in Hx. simpl. destruct (x <=? 127) eqn:E; bool_go.
    + exists KByte, 0, x, []. split_and!; [done|split; [done|lia]|done..].
    + exists KString, 1, 0, [x]. split_and!; [done..|]. intros _. split; [done|]. intros y [= <-]. lia.
  - exists KString, (Z.of_nat (length (x :: y :: b))), 0, (x :: y :: b). split_and!; [done|split; [lia|done]|done..].
Qed.

Lemma peeked_ready s k size bv r st : peeked s k size bv r st -> ready (set_kind s None) r st.
Proof. intros []. by split. Qed.

(** [readFull] and the other reads rearm the kind first. *)
Lemma readFull_rearm s n : readFull n s = readFull n (set_kind s None).
Proof. done. Qed.

Lemma fits_room n r st : fits_in (Z.of_nat n) (r : list Z) st -> room n st.
Proof. destruct st as [|[p z] st]; done. Qed.

Lemma Bytes_completes : completes Bytes encode_string (Forall byte_ok).
Proof.
  intros b s r st Hb Hs [Hst Hl] Hr.
  assert (Z.of_nat (length b) < 2 ^ 64) as Hlb.
  { rewrite length_app in Hl. assert (length b <= length (encode_string b))%nat; [|lia].
    destruct b as [|x [|y b]]; [simpl; lia| |]; simpl; [case_go; simpl; lia|]. rewrite length_app. simpl. lia. }
  destruct (string_parts b Hb Hlb) as (k & size & bv & body & E & Hh & Hsz & Hk & HB & HS).
  rewrite E in *. rewrite <- app_assoc in Hs, Hl. rewrite length_app in Hr. apply room_add in Hr as [Hr1 Hr2]; [|done].
  assert (fits_in size (body ++ r) (advance (length (head_of k size bv)) st)) as Hf.
  { subst size. destruct st as [|[p z] st]; simpl in *; [rewrite length_app; lia|lia]. }
  destruct (StreamKind_ok s k size bv (body ++ r) st Hs Hst Hl Hh Hr1 Hf) as (s1 & E1 & H1).
  unfold Bytes, bind. rewrite E1. rewrite length_app, <- advance_add.
  destruct k; [| |done].
  - destruct Hh as [-> _]. assert (body = []) as -> by (apply nil_length_inv; lia).
    rewrite (HB eq_refl), (pk_byteval _ _ _ _ _ _ H1), advance_0. eexists. split; [done|].
    by eapply peeked_ready.
  - destruct (HS eq_refl) as [-> Hfo]. subst size.
    assert (Z.of_nat (length (b ++ r)) < 2 ^ 64) as Hl2 by (rewrite length_app in Hl |- *; rewrite length_app in Hl; lia).
    rewrite readFull_rearm.
    destruct (readFull_ok _ b r _ (peeked_ready _ _ _ _ _ _ H1) (advance_ok _ _ Hst Hr1) Hl2 Hr2)
      as (s2 & -> & H2 & _). exists s2. split; [|done].
    destruct (_ && _) eqn:E3; [|done]. exfalso. apply andb_true_iff in E3 as [E3 E4].
    apply Z.eqb_eq in E3. destruct b as [|x [|y b]]; simpl in E3; try lia. bool_go.
    specialize (Hfo x eq_refl). lia.
Qed.

Lemma input_ok_app b r st : input_ok (b ++ r) st -> room (length b) st -> input_ok r (advance (length b) st).
Proof. intros [H1 H2] Hr. split; [by apply advance_ok|]. rewrite length_app in H2. lia. Qed.

Lemma encode_string_frame b : frame_ok KString b ->
  encode_string b = head_of KString (Z.of_nat (length b)) 0 ++ b.
Proof. apply frame_string. Qed.

Lemma Bytes_sounds : sounds Bytes encode_string (Forall byte_ok).
Proof.
  intros s r st Hs [Hst Hl] Hb. pose proof (StreamKind_sound s r st Hs Hst Hl Hb) as H. unfold Bytes, bind.
  destruct (StreamKind s) as [[[k size]|e] s1]; [|by destruct H].
  destruct H as (bv & r' & -> & Hh & Hr & Hf & H1). apply Forall_app in Hb as [Hb Hb'].
  destruct k; [| |done].
  - simpl in Hh, Hb. rewrite (pk_byteval _ _ _ _ _ _ H1).
    assert (encode_string [bv] = [bv]) as Ebv by (simpl; by rewrite (proj2 (Z.leb_le _ _)) by lia).
    split; [done|]. exists r'. rewrite Ebv. split_and!; try done. by eapply peeked_ready.
  - destruct Hh as [Hsz ->]. rewrite readFull_rearm.
    rewrite length_app in Hl. assert (Z.of_nat (length r') < 2 ^ 64) as Hl' by lia.
    destruct (readFull size (set_kind s1 None)) as [[b|e] s2] eqn:Er.
    + destruct (readFull_sound _ size r' _ b s2 (peeked_ready _ _ _ _ _ _ H1) (advance_ok _ _ Hst Hr) Hl' ltac:(lia) Er)
        as (r2 & -> & -> & Hr2 & H2 & _). apply Forall_app in Hb' as [Hbb _].
      destruct (_ && _) eqn:E3; [done|]. split; [done|]. exists r2.
      assert (frame_ok KString b) as Hfo.
      { intros x ->. simpl in E3. bool_go. done. }
      rewrite (encode_string_frame b Hfo). rewrite <- app_assoc, length_app.
      split; [done|]. rewrite room_add, <- advance_add by done. done.
    + intros ->. by eapply readFull_err in Er as [? _]; [..|by eapply peeked_ready|by apply advance_ok|done|lia].
Qed.

Lemma Bytes_lawful : lawful Bytes encode_string (Forall byte_ok).
Proof.
  split; [apply Bytes_completes|apply Bytes_sounds|apply bind_eol; intros ????; apply StreamKind_eol|].
  intros b. apply (encode_item_pos (IStr b)).
Qed.

(** ** Arrays of bytes

    For arrays of more than one byte. *)

Lemma frame_long b : (2 <= length b)%nat -> frame_ok KString b.
Proof. intros Hl x ->. simpl in Hl. lia. Qed.

Definition array_ok (n : Z) (b : list Z) : Prop := Forall byte_ok b /\ Z.of_nat (length b) = n.

Lemma decodeByteArray_completes n : 2 <= n -> completes (decodeByteArray n) encode_string (array_ok n).
Proof.
  intros Hn b s r st [Hb Hlen] Hs [Hst Hl] Hr.
  assert (frame_ok KString b) as Hfo by (apply frame_long; lia).
  pose proof (encode_string_frame b Hfo) as E. rewrite E in *.
  rewrite <- app_assoc in Hs, Hl. rewrite !length_app in Hl. rewrite length_app in Hr.
  apply room_add in Hr as [Hr1 Hr2]; [|done].
  assert (fits_in (Z.of_nat (length b)) (b ++ r) (advance (length (head_of KString (Z.of_nat (length b)) 0)) st)) as Hf.
  { destruct st as [|[p z] st]; simpl in *; [rewrite length_app; lia|lia]. }
  destruct (StreamKind_ok s KString (Z.of_nat (length b)) 0 (b ++ r) st Hs Hst) as (s1 & E1 & H1);
    [rewrite !length_app; lia|split; [lia|done]|done|done|].
  unfold decodeByteArray, bind. rewrite E1, Hlen, Z.eqb_refl. cbn [negb].
  rewrite length_app, <- advance_add, readFull_rearm, <- Hlen.
  destruct (readFull_ok _ b r _ (peeked_ready _ _ _ _ _ _ H1) (advance_ok _ _ Hst Hr1) ltac:(rewrite length_app; lia) Hr2)
    as (s2 & -> & H2 & _). exists s2. split; [|done].
  by rewrite (proj2 (Z.eqb_neq (Z.of_nat (length b)) 1)) by lia.
Qed.

Lemma decodeByteArray_sounds n : 2 <= n -> sounds (decodeByteArray n) encode_string (array_ok n).
Proof.
  intros Hn s r st Hs [Hst Hl] Hb. pose proof (StreamKind_sound s r st Hs Hst Hl Hb) as H.
  unfold decodeByteArray, bind. destruct (StreamKind s) as [[[k size]|e] s1]; [|by destruct H].
  destruct H as (bv & r' & -> & Hh & Hr & Hf & H1). apply Forall_app in Hb as [Hb Hb'].
  destruct k; [by rewrite (proj2 (Z.eqb_neq n 1)) by lia| |done].
  destruct (n =? size) eqn:En; bool_go; [|done]. subst size. cbn [negb].
  destruct Hh as [Hsz ->]. rewrite readFull_rearm.
  rewrite length_app in Hl. assert (Z.of_nat (length r') < 2 ^ 64) as Hl' by lia.
  destruct (readFull n (set_kind s1 None)) as [[b|e] s2] eqn:Er.
  - destruct (readFull_sound _ n r' _ b s2 (peeked_ready _ _ _ _ _ _ H1) (advance_ok _ _ Hst Hr) Hl' ltac:(lia) Er)
      as (r2 & -> & Hlen & Hr2 & H2 & _). apply Forall_app in Hb' as [Hbb _]. subst n.
    rewrite (proj2 (Z.eqb_neq _ 1)) by lia. cbn [andb]. split; [by split|]. exists r2.
    rewrite (encode_string_frame b (frame_long b ltac:(lia))). rewrite <- app_assoc, length_app.
    split; [done|]. rewrite room_add, <- advance_add by done. done.
  - intros ->. by eapply readFull_err in Er as [? _]; [..|by eapply peeked_ready|by apply advance_ok|done|lia].
Qed.

Lemma decodeByteArray_lawful n : 2 <= n -> lawful (decodeByteArray n) encode_string (array_ok n).
Proof.
  intros Hn. split; [by apply decodeByteArray_completes|by apply decodeByteArray_sounds| |].
  - apply bind_eol. intros ????. apply StreamKind_eol.
  - intros b. apply (encode_item_pos (IStr b)).
Qed.

(** ** Lists *)

Lemma pushed_ready s size bv r st :
  peeked s KList size bv r st ->
  ready (set_size (set_kind (set_stack s ((0, size) :: sstack s)) None) 0) r ((0, size) :: st).
Proof. intros H. destruct H as [????????]. split; simpl; try done. by f_equal. Qed.

Lemma List_ok s n r st :
  let size := Z.of_nat n in
  ready s (head_of KList size 0 ++ r) st -> input_ok (head_of KList size 0 ++ r) st -> (n <= length r)%nat ->
  room (length (head_of KList size 0) + n) st ->
  exists s', List s = (Ok size, s') /\ ready s' r ((0, size) :: advance (length (head_of KList size 0)) st).
Proof.
  intros size Hs [Hst Hl] Hn Hr. apply room_add in Hr as [Hr1 Hr2]; [|done].
  assert (fits_in size r (advance (length (head_of KList size 0)) st)) as Hf.
  { destruct st as [|[p z] st]; simpl in *; unfold size in *; lia. }
  assert (header_ok KList size 0) as Hh.
  { split; [|done]. rewrite length_app in Hl. unfold size in *. lia. }
  destruct (StreamKind_ok s KList size 0 r st Hs Hst Hl Hh Hr1 Hf) as (s1 & E & H1).
  unfold List, bind. rewrite E. eexists. split; [done|]. by eapply pushed_ready.
Qed.

Lemma ListEnd_ok s z r st :
  ready s r ((z, z) :: st) -> stack_ok ((z, z) :: st) -> room (Z.to_nat z) st ->
  exists s', ListEnd s = (Ok tt, s') /\ ready s' r (advance (Z.to_nat z) st).
Proof.
  intros [] [Hz Hst]%Forall_cons Hr. simpl in Hz. unfold ListEnd. rewrite rd_stack0, Z.eqb_refl. simpl.
  eexists. split; [done|]. split; simpl; try done. destruct st as [|[p y] st]; [done|].
  apply Forall_cons in Hst as [Hp _]. simpl in *. rewrite wrap_id by (unfold fits; lia). do 2 f_equal. lia.
Qed.

Lemma List_sound s r st :
  ready s r st -> input_ok r st -> Forall byte_ok r ->
  match List s with
  | (Ok size, s') => exists r', r = head_of KList size 0 ++ r' /\ 0 <= size < 2 ^ 64 /\
      room (length (head_of KList size 0)) st /\ fits_in size r' (advance (length (head_of KList size 0)) st) /\
      ready s' r' ((0, size) :: advance (length (head_of KList size 0)) st)
  | (Err e, s') => e <> OutOfFuel /\ (e = EOL -> ready s' r st /\ exists p st', st = (p, p) :: st')
  end.
Proof.
  intros Hs [Hst Hl] Hb. pose proof (StreamKind_sound s r st Hs Hst Hl Hb) as H. unfold List, bind.
  destruct (StreamKind s) as [[[k size]|e] s1]; [|done].
  destruct H as (bv & r' & -> & Hh & Hr & Hf & H1). destruct k; [done|done|].
  destruct Hh as [Hsz ->]. exists r'. split_and!; try done; try lia. by eapply pushed_ready.
Qed.

Lemma ListEnd_sound s r z p st u s' :
  ready s r ((p, z) :: st) -> stack_ok st -> 0 <= z -> room (Z.to_nat z) st ->
  ListEnd s = (Ok u, s') -> p = z /\ ready s' r (advance (Z.to_nat z) st).
Proof.
  intros [] Hst Hz Hr. unfold ListEnd. rewrite rd_stack0. destruct (p =? z) eqn:E; bool_go; [|done]. simpl.
  intros [= <- <-]. split; [done|]. split; simpl; try done. destruct st as [|[q y] st]; [done|].
  apply Forall_cons in Hst as [Hq _]. simpl in *. rewrite wrap_id by (unfold fits; lia). do 2 f_equal. lia.
Qed.

Lemma ListEnd_err s e s' : ListEnd s = (Err e, s') -> e <> EOL /\ e <> OutOfFuel.
Proof.
  unfold ListEnd. destruct (sstack s) as [|[p z] st]; [by intros [= <- <-]|]. case_go; [by intros [= <- <-]|done].
Qed.

(** ** Slices *)

Section slice.
  Context {A : Type} (d : M A) (enc : A -> list Z) (ok : A -> Prop).

Lemma decodeSliceElems_completes fuel l s r p st :
  completes d enc ok -> reports_eol d ->
  Forall ok l -> (length l < fuel)%nat ->
  let z := p + Z.of_nat (length (l ≫= enc)) in
  ready s ((l ≫= enc) ++ r) ((p, z) :: st) -> input_ok ((l ≫= enc) ++ r) ((p, z) :: st) ->
  exists s', decodeSliceElems fuel d s = (Ok l, s') /\ ready s' r ((z, z) :: st).
Proof.
  intros Hc He Hl. revert fuel s p. induction Hl as [|a l Ha Hl IH]; intros [|fuel] s p Hf z Hs Hi;
    try (simpl in Hf; lia).
  - simpl in Hs. assert (z = p) as Hz by (unfold z; simpl; lia). rewrite Hz in *.
    destruct (He s r p st Hs) as (s' & E & H1). exists s'. cbn [decodeSliceElems]. by rewrite E.
  - cbn [decodeSliceElems]. unfold z in *. clear z. rewrite bind_cons in *. rewrite <- app_assoc in Hs, Hi.
    rewrite length_app in *. 
    assert (room (length (enc a)) ((p, p + Z.of_nat (length (enc a) + length (l ≫= enc))) :: st)) as Hr
      by (simpl; lia).
    destruct (Hc a s _ _ Ha Hs Hi Hr) as (s1 & -> & H1).
    destruct (IH fuel s1 (p + Z.of_nat (length (enc a)))) as (s2 & -> & H2).
    + simpl in Hf. lia.
    + simpl in H1. rewrite Nat2Z.inj_add, Z.add_assoc in H1. done.
    + pose proof (input_ok_app _ _ _ Hi Hr) as Hi2. simpl in Hi2.
      rewrite Nat2Z.inj_add, Z.add_assoc in Hi2. done.
    + exists s2. split; [done|]. by rewrite Nat2Z.inj_add, Z.add_assoc.
Qed.

Lemma decodeSliceElems_sounds fuel s r p z st :
  sounds d enc ok -> ready s r ((p, z) :: st) -> input_ok r ((p, z) :: st) -> Forall byte_ok r ->
  match decodeSliceElems fuel d s with
  | (Ok l, s') => Forall ok l /\ exists r', r = (l ≫= enc) ++ r' /\
      p + Z.of_nat (length (l ≫= enc)) = z /\ ready s' r' ((z, z) :: st)
  | (Err e, _) => e <> EOL
  end.
Proof.
  intros Hd. revert s r p. induction fuel as [|fuel IH]; intros s r p Hs Hi Hb; cbn [decodeSliceElems]; [done|].
  pose proof (Hd s r _ Hs Hi Hb) as H. destruct (d s) as [[a|e] s1].
  - destruct H as (Ha & r1 & -> & Hr & H1). pose proof (input_ok_app _ _ _ Hi Hr) as Hi1.
    apply Forall_app in Hb as [_ Hb]. simpl in H1, Hi1.
    specialize (IH s1 r1 _ H1 Hi1 Hb). destruct (decodeSliceElems fuel d s1) as [[l|e] s2]; [|done].
    destruct IH as (Hl & r2 & -> & Hz & H2). split; [by constructor|]. exists r2.
    rewrite bind_cons, length_app, app_assoc. split_and!; try done. lia.
  - destruct e; try done. destruct (H eq_refl) as (H1 & q & st' & [= -> -> ->]).
    split; [constructor|]. exists r. split_and!; [done|simpl; lia|done].
Qed.

Lemma bind_length l : (forall a, (0 < length (enc a))%nat) -> (length l <= length (l ≫= enc))%nat.
Proof.
  intros Hp. induction l as [|a l IH]; [done|]. rewrite bind_cons, length_app. specialize (Hp a). simpl. lia.
Qed.

Lemma encode_list_head c : encode_list c = head_of KList (Z.of_nat (length c)) 0 ++ c.
Proof. done. Qed.

Lemma decodeListSlice_completes :
  completes d enc ok -> reports_eol d -> (forall a, (0 < length (enc a))%nat) ->
  completes (decodeListSlice d) (fun l => encode_list (l ≫= enc)) (Forall ok).
Proof.
  intros Hc He Hpos l s r st Hl Hs Hi Hr. rewrite encode_list_head in *. set (c := l ≫= enc) in *.
  rewrite <- app_assoc in Hs, Hi. rewrite length_app in Hr |- *.
  destruct (List_ok s (length c) (c ++ r) st Hs Hi ltac:(rewrite length_app; lia) Hr) as (s1 & E1 & H1).
  apply room_add in Hr as [Hr1 Hr2]; [|apply Hi].
  pose proof (input_ok_app _ _ _ Hi Hr1) as [Hst1 Hl1].
  assert (stack_ok ((0, Z.of_nat (length c)) :: advance (length (head_of KList (Z.of_nat (length c)) 0)) st)) as Hst2.
  { constructor; [|done]. rewrite length_app in Hl1. simpl. lia. }
  unfold decodeListSlice, bind, on_err. rewrite E1.
  assert (exists s2, ready s2 r ((Z.of_nat (length c), Z.of_nat (length c)) ::
              advance (length (head_of KList (Z.of_nat (length c)) 0)) st) /\
    (if Z.of_nat (length c) =? 0 then (Ok [], s1)
     else decodeSliceElems (S (length (sr s1))) d s1) = (Ok l, s2)) as (s2 & H2 & E2).
  { destruct (_ =? 0) eqn:E0; bool_go.
    - assert (c = []) as Ec by (apply nil_length_inv; lia). pose proof (bind_length l Hpos) as Hb.
      fold c in Hb. assert (l = []) as -> by (apply nil_length_inv; lia).
      exists s1. split; [|done]. by rewrite Ec in *.
    - pose proof (decodeSliceElems_completes (S (length (sr s1))) l s1 r 0
        (advance (length (head_of KList (Z.of_nat (length c)) 0)) st) Hc He Hl) as Hel.
      cbn zeta in Hel. fold c in Hel. rewrite Z.add_0_l in Hel.
      destruct Hel as (s2 & E2 & H2); [|done|by split|by exists s2].
      rewrite (rd_r _ _ _ H1), length_app. pose proof (bind_length l Hpos) as Hb. fold c in Hb. lia. }
  destruct (ListEnd_ok s2 (Z.of_nat (length c)) r _ H2) as (s3 & E3 & H3).
  { apply Forall_cons in Hst2 as [Hz Hst2]. constructor; [simpl in *; lia|done]. }
  { by rewrite Nat2Z.id. }
  rewrite Nat2Z.id, advance_add in H3. exists s3. split; [|done].
  destruct (_ =? 0); [injection E2 as -> ->; by rewrite E3|]. by rewrite E2, E3.
Qed.

Lemma fits_room_z z r st : 0 <= z -> fits_in z (r : list Z) st -> room (Z.to_nat z) st.
Proof. intros Hz Hf. destruct st as [|[p y] st]; [done|]. simpl in *. lia. Qed.

Lemma decodeListSlice_sounds :
  sounds d enc ok -> sounds (decodeListSlice d) (fun l => encode_list (l ≫= enc)) (Forall ok).
Proof.
  intros Hd s r st Hs Hi Hb. pose proof (List_sound s r st Hs Hi Hb) as H.
  unfold decodeListSlice, bind, on_err. destruct (List s) as [[size|e] s1].
  2:{ intros He%wrap_eol. by apply H. }
  destruct H as (r1 & -> & Hsz & Hr & Hf & H1). pose proof (input_ok_app _ _ _ Hi Hr) as [Hst1 Hl1].
  apply Forall_app in Hb as [_ Hb]. pose proof (fits_room_z size _ _ ltac:(lia) Hf) as Hr2.
  assert (stack_ok ((0, size) :: advance (length (head_of KList size 0)) st)) as Hst2
    by (constructor; [simpl; lia|done]).
  assert (forall l s2 r2, Forall ok l -> r1 = (l ≫= enc) ++ r2 -> Z.of_nat (length (l ≫= enc)) = size ->
    forall p, ready s2 r2 ((p, size) :: advance (length (head_of KList size 0)) st) ->
    match ListEnd s2 with
    | (Ok _, s') => Forall ok l /\ exists r', head_of KList size 0 ++ r1 = encode_list (l ≫= enc) ++ r' /\
        room (length (encode_list (l ≫= enc))) st /\ ready s' r' (advance (length (encode_list (l ≫= enc))) st)
    | (Err e, s') => e = EOL -> ready s' (head_of KList size 0 ++ r1) st /\ exists p st', st = (p, p) :: st'
    end) as Hend.
  { intros l s2 r2 Hl -> Hlen p H2. destruct (ListEnd s2) as [[u|e] s3] eqn:E3.
    - destruct (ListEnd_sound s2 r2 size p _ u s3 H2 Hst1 ltac:(lia) Hr2 E3) as [-> H3].
      split; [done|]. exists r2. rewrite encode_list_head, Hlen, <- app_assoc, length_app, <- advance_add.
      rewrite room_add by apply Hi. rewrite <- Hlen, Nat2Z.id in Hr2, H3. rewrite Hlen in Hr2, H3. done.
    - destruct (ListEnd_err _ _ _ E3). done. }
  destruct (size =? 0) eqn:E0; bool_go.
  - subst size. specialize (Hend [] s1 r1 ltac:(constructor) eq_refl eq_refl 0 H1).
    destruct (ListEnd s1) as [[u|e] s3]; done.
  - pose proof (decodeSliceElems_sounds (S (length (sr s1))) s1 r1 0 size _ Hd H1) as Hel.
    assert (input_ok r1 ((0, size) :: advance (length (head_of KList size 0)) st)) as Hi2 by (by split).
    specialize (Hel Hi2 Hb). destruct (decodeSliceElems _ d s1) as [[l|e] s2]; [|done].
    destruct Hel as (Hl & r2 & -> & Hz & H2). specialize (Hend l s2 r2 Hl eq_refl ltac:(lia) size H2).
    destruct (ListEnd s2) as [[u|e] s3]; done.
Qed.
End slice.

Lemma decodeListSlice_lawful {A} (d : M A) enc ok :
  lawful d enc ok -> lawful (decodeListSlice d) (fun l => encode_list (l ≫= enc)) (Forall ok).
Proof.
  intros [H1 H2 H3 H4]. split.
  - by apply decodeListSlice_completes.
  - by apply decodeListSlice_sounds.
  - apply bind_eol, on_err_eol; [done|]. apply bind_eol. intros ????. apply StreamKind_eol.
  - intros l. pose proof (head_of_pos KList (Z.of_nat (length (l ≫= enc))) 0). rewrite encode_list_head, length_app. lia.
Qed.

(** ** Trees *)

Fixpoint depth (it : item) : nat :=
  match it with
  | IStr _ => 0
  | IList l => S (fold_right (fun it n => Nat.max (depth it) n) 0%nat l)
  end.

Lemma item_ok_list l : item_ok (IList l) <-> Forall item_ok l.
Proof. simpl. induction l as [|it l IH]; simpl; [split; auto|]. by rewrite Forall_cons, <- IH. Qed.


Lemma depth_list l n : (depth (IList l) < S (S n))%nat <-> Forall (fun it => depth it < S n)%nat l.
Proof.
  simpl. induction l as [|it l IH]; simpl; [split; [constructor|lia]|]. rewrite Forall_cons, <- IH. lia.
Qed.

Lemma depth_bound it : (depth it <= length (encode_item it))%nat.
Proof.
  induction it as [b|l IH] using item_tree_ind; [simpl; lia|].
  rewrite encode_item_list, encode_list_head, length_app.
  pose proof (head_of_pos KList (Z.of_nat (length (l ≫= encode_item))) 0) as Hp.
  assert (fold_right (fun it n => Nat.max (depth it) n) 0 l <= length (l ≫= encode_item))%nat as Hd.
  { clear Hp. induction IH as [|it l Hit _ IHl]; [done|]. rewrite bind_cons, length_app. simpl in *. lia. }
  change (depth (IList l)) with (S (fold_right (fun it n => Nat.max (depth it) n) 0%nat l)). lia.
Qed.

Lemma StreamKind_idem s x s1 : StreamKind s = (Ok x, s1) -> StreamKind s1 = (Ok x, s1).
Proof.
  assert (forall t y t1, kind_result t = (Ok y, t1) -> t1 = t) as Hkr.
  { intros t y t1. unfold kind_result. destruct (skinderr t); [done|]. by intros [= _ <-]. }
  unfold StreamKind at 1. destruct (skind s) as [k|] eqn:Ek.
  - intros E. pose proof (Hkr _ _ _ E) as ->. unfold StreamKind. rewrite Ek. exact E.
  - destruct (at_eol _); [done|]. destruct (stream_readKind _) as [[[k size] e] s2].
    intros E. pose proof (Hkr _ _ _ E) as ->. unfold StreamKind. simpl. exact E.
Qed.

(** Looking at the kind first does not change what follows. *)
Lemma peek_first {B} (f : Kind * Z -> M B) s x s1 :
  StreamKind s = (Ok x, s1) -> bind StreamKind f s1 = bind StreamKind f s.
Proof. intros E. unfold bind. by rewrite E, (StreamKind_idem _ _ _ E). Qed.

Lemma Bytes_peek s x s1 : StreamKind s = (Ok x, s1) -> Bytes s1 = Bytes s.
Proof. apply peek_first. Qed.

Lemma List_peek s x s1 : StreamKind s = (Ok x, s1) -> List s1 = List s.
Proof. apply peek_first. Qed.

Lemma decodeListSlice_peek {A} (d : M A) s x s1 :
  StreamKind s = (Ok x, s1) -> decodeListSlice d s1 = decodeListSlice d s.
Proof. intros E. unfold decodeListSlice, bind, on_err. by rewrite (List_peek s x s1 E). Qed.

(** ** Pointers to arrays *)

Definition encode_opt (o : option (list Z)) : list Z := match o with Some b => encode_string b | None => encode_string [] end.
Definition opt_ok (n : Z) (o : option (list Z)) : Prop := match o with Some b => array_ok n b | None => True end.

Lemma array_kind n b s r st :
  2 <= n -> array_ok n b -> ready s (encode_string b ++ r) st -> input_ok (encode_string b ++ r) st ->
  room (length (encode_string b)) st -> exists s1, StreamKind s = (Ok (KString, n), s1).
Proof.
  intros Hn [Hb Hlen] Hs [Hst Hl] Hr. pose proof (encode_string_frame b (frame_long b ltac:(lia))) as E. rewrite E in *.
  rewrite <- app_assoc in Hs, Hl. rewrite !length_app in Hl. rewrite length_app in Hr.
  apply room_add in Hr as [Hr1 Hr2]; [|done]. subst n.
  destruct (StreamKind_ok s KString (Z.of_nat (length b)) 0 (b ++ r) st Hs Hst) as (s1 & E1 & H1);
    [rewrite !length_app; lia|split; [lia|done]|done| |eauto].
  destruct st as [|[p z] st]; simpl in *; [rewrite length_app; lia|lia].
Qed.

Lemma decodeByteArray_peek n s x s1 : StreamKind s = (Ok x, s1) -> decodeByteArray n s1 = decodeByteArray n s.
Proof. apply peek_first. Qed.

Lemma decodeNilPtr_lawful n : 2 <= n -> lawful (decodeNilPtr (decodeByteArray n)) encode_opt (opt_ok n).
Proof.
  intros Hn. destruct (decodeByteArray_lawful n Hn) as [Hc Hsd _ Hpos]. split.
  - intros [b|] s r st Ho Hs Hi Hr; cbn [encode_opt opt_ok] in *; unfold decodeNilPtr, bind, on_err.
    + destruct (array_kind n b s r st Hn Ho Hs Hi Hr) as (s1 & E1). rewrite E1.
      rewrite (proj2 (Z.eqb_neq n 0)), andb_false_r by lia. rewrite (decodeByteArray_peek n s _ s1 E1).
      destruct (Hc b s r st Ho Hs Hi Hr) as (s2 & -> & H2). by exists s2.
    + destruct Hi as [Hst Hl]. change (encode_string []) with (head_of KString 0 0) in *.
      destruct (StreamKind_ok s KString 0 0 r st Hs Hst Hl) as (s1 & -> & H1); [done|done| |].
      { destruct st as [|[p z] st]; simpl in *; lia. }
      simpl. eexists. split; [done|]. by eapply peeked_ready.
  - intros s r st Hs Hi Hb. unfold decodeNilPtr, bind, on_err. specialize (Hsd s r st Hs Hi Hb).
    pose proof (StreamKind_sound s r st Hs (proj1 Hi) (proj2 Hi) Hb) as H.
    destruct (StreamKind s) as [[[k size]|e] s1] eqn:E1; [|intros E%wrap_eol; by apply H].
    destruct (_ && _) eqn:E2; [bool_go|].
    + subst size. destruct (bool_decide (k = KString)) eqn:E3; bool_go; [|done]. subst k.
      destruct H as (bv & r' & -> & Hh & Hr & Hf & H1). destruct Hh as [_ ->]. simpl. split; [done|].
      exists r'. split_and!; [done|done|]. by eapply peeked_ready.
    + rewrite (decodeByteArray_peek n s _ s1 E1). by destruct (decodeByteArray n s) as [[b|e] s2].
  - intros s r p st Hs. destruct (StreamKind_eol s r p st Hs) as (s' & E & ?). exists s'.
    unfold decodeNilPtr, bind, on_err. by rewrite E.
  - intros [b|]; cbn [encode_opt]; [apply (encode_item_pos (IStr b))|simpl; lia].
Qed.

(** One step of the decoder of trees. *)
Lemma decodeInterface_step fuel s :
  decodeInterface_rec (S fuel) s =
  match StreamKind s with
  | (Ok (KList, _), _) => bind (decodeListSlice (decodeInterface_rec fuel)) (fun l => mret (IList l)) s
  | _ => bind Bytes (fun b => mret (IStr b)) s
  end.
Proof.
  cbn [decodeInterface_rec]. unfold bind at 1. destruct (StreamKind s) as [[[k size]|e] s1] eqn:E.
  - destruct k; unfold bind; rewrite ?(Bytes_peek _ _ _ E), ?(decodeListSlice_peek _ _ _ _ E); done.
  - unfold Bytes, bind. by rewrite E.
Qed.

Lemma Bytes_kind s b s' : Bytes s = (Ok b, s') -> exists k size s1, StreamKind s = (Ok (k, size), s1) /\ k <> KList.
Proof.
  unfold Bytes, bind. destruct (StreamKind s) as [[[k size]|e] s1]; [|done]. intros H.
  exists k, size, s1. split; [done|]. by intros ->.
Qed.

Lemma decodeListSlice_kind {A} (d : M A) s l s' :
  decodeListSlice d s = (Ok l, s') -> exists size s1, StreamKind s = (Ok (KList, size), s1).
Proof.
  unfold decodeListSlice, bind, on_err, List, bind.
  destruct (StreamKind s) as [[[k size]|e] s1]; [|done]. destruct k; try done. eauto.
Qed.

Lemma decodeInterface_completes fuel :
  completes (decodeInterface_rec fuel) encode_item (fun it => item_ok it /\ depth it < fuel)%nat /\
  sounds (decodeInterface_rec fuel) encode_item item_ok /\
  (0 < fuel -> reports_eol (decodeInterface_rec fuel))%nat.
Proof.
  induction fuel as [|fuel (IHc & IHs & IHe)].
  { split_and!; [intros it s r st [_ Hd]; lia|by intros s r st _ _ _|lia]. }
  split_and!.
  - intros it s r st [Hok Hd] Hs Hi Hr. destruct it as [b|l].
    + destruct (Bytes_completes b s r st Hok Hs Hi Hr) as (s' & E & H). exists s'. split; [|done].
      rewrite decodeInterface_step. destruct (Bytes_kind _ _ _ E) as (k & size & s1 & -> & Hk).
      unfold bind. rewrite E. by destruct k.
    + destruct fuel as [|fuel]; [simpl in Hd; lia|]. apply item_ok_list in Hok. apply depth_list in Hd.
      pose proof (decodeListSlice_completes _ _ _ IHc (IHe ltac:(lia)) encode_item_pos) as Hc.
      destruct (Hc l s r st) as (s' & E & H); [by apply Forall_and|done..|].
      exists s'. split; [|done]. rewrite decodeInterface_step.
      destruct (decodeListSlice_kind _ _ _ _ E) as (size & s1 & ->). unfold bind. by rewrite E.
  - intros s r st Hs Hi Hb. rewrite decodeInterface_step.
    pose proof (Bytes_sounds s r st Hs Hi Hb) as HB.
    pose proof (decodeListSlice_sounds _ _ _ IHs s r st Hs Hi Hb) as HL.
    destruct (StreamKind s) as [[[[] size]|e] s1]; unfold bind; try (by destruct (Bytes s) as [[]]).
    destruct (decodeListSlice _ s) as [[l|e] s2]; [|done].
    destruct HL as (Hl & HL). split; [by apply item_ok_list|done].
  - intros _ s r p st Hs. rewrite decodeInterface_step.
    destruct (StreamKind_eol s r p st Hs) as (s' & E & H). rewrite E. exists s'.
    unfold Bytes, bind. by rewrite E.
Qed.

(** The loops end before their fuel does. *)
Lemma decodeSliceElems_fuel {A} (d : M A) enc ok n fuel s r st :
  sounds d enc ok -> enough_fuel d n -> (forall a, (0 < length (enc a))%nat) ->
  ready s r st -> input_ok r st -> Forall byte_ok r -> (length r < n)%nat -> (length r < fuel)%nat ->
  forall s', decodeSliceElems fuel d s <> (Err OutOfFuel, s').
Proof.
  intros Hd Hn Hpos. revert s r st. induction fuel as [|fuel IH]; intros s r st Hs Hi Hb Hln Hlf s'; [lia|].
  cbn [decodeSliceElems]. pose proof (Hd s r st Hs Hi Hb) as H. pose proof (Hn s r st Hs Hi Hb Hln) as Hf.
  destruct (d s) as [[a|e] s1].
  - destruct H as (_ & r1 & -> & Hr & H1). pose proof (input_ok_app _ _ _ Hi Hr) as Hi1.
    apply Forall_app in Hb as [_ Hb]. rewrite length_app in Hln, Hlf. specialize (Hpos a).
    pose proof (IH s1 r1 _ H1 Hi1 Hb ltac:(lia) ltac:(lia)) as IH'.
    destruct (decodeSliceElems fuel d s1) as [[l|e] s2]; [done|]. intros [= -> ->]. by eapply IH'.
  - destruct e; try done. by destruct (Hf s1).
Qed.

Lemma decodeListSlice_fuel {A} (d : M A) enc ok n :
  sounds d enc ok -> enough_fuel d n -> (forall a, (0 < length (enc a))%nat) ->
  enough_fuel (decodeListSlice d) (S n).
Proof.
  intros Hd Hn Hpos s r st Hs Hi Hb Hlen s'. pose proof (List_sound s r st Hs Hi Hb) as H.
  unfold decodeListSlice, bind, on_err. destruct (List s) as [[size|e] s1].
  2:{ destruct H as [He _]. intros [= E _]. by destruct e. }
  destruct H as (r1 & -> & Hsz & Hr & Hf & H1). pose proof (input_ok_app _ _ _ Hi Hr) as [Hst1 Hl1].
  apply Forall_app in Hb as [_ Hb]. rewrite length_app in Hlen.
  pose proof (head_of_pos KList size 0) as Hp.
  assert (forall t, match ListEnd t with (Ok _, s) => (Ok (@nil A), s) | (Err e, s) => (Err e, s) end <> (Err OutOfFuel, s')) as He.
  { intros t. destruct (ListEnd t) as [[]] eqn:E; [done|]. apply ListEnd_err in E as [_ E]. by intros [= -> _]. }
  destruct (size =? 0); [apply He|].
  assert (input_ok r1 ((0, size) :: advance (length (head_of KList size 0)) st)) as Hi2.
  { split; [|done]. constructor; [simpl; lia|done]. }
  pose proof (decodeSliceElems_fuel d enc ok n (S (length (sr s1))) s1 r1 _ Hd Hn Hpos H1 Hi2 Hb ltac:(lia)
    ltac:(rewrite (rd_r _ _ _ H1); lia)) as Hel.
  destruct (decodeSliceElems _ d s1) as [[l|e] s2]; [|intros [= -> ->]; by eapply Hel].
  destruct (ListEnd s2) as [[]] eqn:E; [done|]. apply ListEnd_err in E as [_ E]. by intros [= -> _].
Qed.

Lemma Bytes_fuel n : enough_fuel Bytes n.
Proof.
  intros s r st Hs [Hst Hl] Hb _ s'. pose proof (StreamKind_sound s r st Hs Hst Hl Hb) as H. unfold Bytes, bind.
  destruct (StreamKind s) as [[[k size]|e] s1]; [|destruct H as [H _]; by intros [= -> _]].
  destruct H as (bv & r' & -> & Hh & Hr & Hf & H1). destruct k; [done| |done]. rewrite readFull_rearm.
  rewrite length_app in Hl. destruct (readFull size _) as [[b|e] s2] eqn:E; [by case_go|].
  eapply readFull_err in E as [_ E]; [by intros [= -> _]|by eapply peeked_ready|by apply advance_ok|lia|].
  destruct Hh. lia.
Qed.

Lemma decodeInterface_fuel fuel : enough_fuel (decodeInterface_rec fuel) fuel.
Proof.
  induction fuel as [|fuel IH]; intros s r st Hs Hi Hb Hlen s'; [lia|]. rewrite decodeInterface_step.
  pose proof (Bytes_fuel (S (length r)) s r st Hs Hi Hb ltac:(lia)) as HB.
  pose proof (decodeListSlice_fuel _ _ _ fuel (proj1 (proj2 (decodeInterface_completes fuel))) IH encode_item_pos
    s r st Hs Hi Hb Hlen) as HL.
  destruct (StreamKind s) as [[[[] size]|e] s1]; unfold bind;
    try (destruct (Bytes s) as [[]]; [done|]; intros [= -> ->]; by eapply HB).
  destruct (decodeListSlice _ s) as [[]]; [done|]. intros [= -> ->]. by eapply HL.
Qed.

Lemma NewStream_ready b : ready (NewStream b) b [].
Proof. by split. Qed.

(** Decoding a whole byte string with a lawful decoder. *)
Lemma DecodeBytes_complete {A} (d : M A) enc ok a :
  completes d enc ok -> ok a -> Z.of_nat (length (enc a)) < 2 ^ 64 -> DecodeBytes (enc a) d = Ok a.
Proof.
  intros Hd Ha Hl. unfold DecodeBytes. pose proof (NewStream_ready (enc a)) as Hs.
  destruct (Hd a (NewStream (enc a)) [] []) as (s' & -> & []); try done.
  - by rewrite app_nil_r.
  - split; [constructor|]. by rewrite app_nil_r.
  - by rewrite rd_r0.
Qed.

Lemma DecodeBytes_sound {A} (d : M A) enc ok b a :
  sounds d enc ok -> Forall byte_ok b -> Z.of_nat (length b) < 2 ^ 64 -> DecodeBytes b d = Ok a ->
  ok a /\ b = enc a.
Proof.
  intros Hd Hb Hl. unfold DecodeBytes. pose proof (Hd _ _ _ (NewStream_ready b)) as H.
  assert (input_ok b []) as Hi by (split; [constructor|done]). specialize (H Hi Hb).
  destruct (d _) as [[x|e] s']; [|done]. destruct H as (Ha & r' & E & _ & []).
  rewrite rd_r0. destruct r'; [|done]. intros [= <-]. split; [done|]. by rewrite app_nil_r in E.
Qed.

(** C21. Decoding accepts exactly the canonical encodings: a byte string
    decodes to a tree if and only if it is the encoding of that tree, and the
    decoder always terminates. *)
Theorem DecodeBytes_canonical b it :
  Forall byte_ok b -> Z.of_nat (length b) < 2 ^ 64 ->
  (DecodeBytes b decodeInterface = Ok it <-> item_ok it /\ b = encode_item it) /\
  DecodeBytes b decodeInterface <> Err OutOfFuel.
Proof.
  intros Hb Hl. split; [split|].
  - apply (DecodeBytes_sound (decodeInterface_rec (S (length b))) encode_item item_ok); try done.
    apply decodeInterface_completes.
  - intros [Hok ->]. apply (DecodeBytes_complete (decodeInterface_rec (S (length (encode_item it)))) encode_item
      (fun i => item_ok i /\ depth i < S (length (encode_item it)))%nat); [apply decodeInterface_completes| |done].
    split; [done|]. pose proof (depth_bound it). lia.
  - unfold DecodeBytes, decodeInterface. simpl sr.
    pose proof (decodeInterface_fuel (S (length b)) (NewStream b) b [] (NewStream_ready b)
      ltac:(split; [constructor|done]) Hb ltac:(lia)) as Hf.
    destruct (decodeInterface_rec _ _) as [[x|e] s]; [by case_go|]. intros [= ->]. by eapply Hf.
Qed.

Lemma DecodeBytes_canonical_witness :
  (DecodeBytes [0xC3; 1; 0xC1; 0x80] decodeInterface = Ok (IList [IStr [1]; IList [IStr []]]) <->
   item_ok (IList [IStr [1]; IList [IStr []]]) /\ [0xC3; 1; 0xC1; 0x80] = encode_item (IList [IStr [1]; IList [IStr []]])) /\
  DecodeBytes [0xC3; 1; 0xC1; 0x80] decodeInterface <> Err OutOfFuel.
Proof. apply (DecodeBytes_canonical [0xC3; 1; 0xC1; 0x80]); [by repeat constructor|done]. Defined.

(** ** Integers *)

Definition encode_uint (n : Z) : list Z := encode_string (big_bytes n).

Lemma encode_uint_cases n :
  0 <= n < 2 ^ 64 ->
  encode_uint n =
    if n =? 0 then head_of KString 0 0
    else if n <? 128 then head_of KByte 0 n
    else head_of KString (Z.of_nat (intsize n)) 0 ++ putint n.
Proof.
  intros Hn. unfold encode_uint. destruct (n =? 0) eqn:E0; bool_go; [by subst|].
  rewrite big_bytes_putint by lia. destruct (n <? 128) eqn:E1; bool_go.
  - unfold putint. rewrite (proj2 (Z.ltb_lt _ _)) by lia. rewrite u8_id by (unfold byte_ok; lia).
    simpl. by rewrite (proj2 (Z.leb_le _ _)) by lia.
  - rewrite uint_string by lia. destruct (intsize_bounds n) as (Hi & _ & _); [lia|].
    rewrite putint_length by lia. simpl. rewrite puthead_small by lia.
    rewrite (u8_id (Z.of_nat _)), u8_id by (unfold byte_ok; lia). done.
Qed.

Section uint.
  Context (k : Z).
  Hypothesis Hk : 1 <= k <= 8.

Lemma bits_bound n : 0 <= n < 2 ^ (8 * k) -> 0 <= n < 2 ^ 64.
Proof. intros Hn. assert (2 ^ (8 * k) <= 2 ^ 64) by (apply Z.pow_le_mono_r; lia). lia. Qed.

Lemma intsize_bits n : 0 <= n < 2 ^ 64 -> n < 2 ^ (8 * k) -> Z.of_nat (intsize n) <= k.
Proof.
  intros Hn Hb. destruct (intsize_bounds n Hn) as (Hi & _ & Hlow). destruct (decide (n = 0)) as [->|].
  - change (intsize 0) with 1%nat. lia.
  - specialize (Hlow ltac:(lia)). rewrite Z.pow_mul_r in Hb by lia. change (2 ^ 8) with 256 in Hb.
    assert (256 ^ (Z.of_nat (intsize n) - 1) < 256 ^ k) as Hlt by lia. apply Z.pow_lt_mono_r_iff in Hlt; lia.
Qed.

Lemma bits_intsize n : 0 <= n < 2 ^ 64 -> Z.of_nat (intsize n) <= k -> n < 2 ^ (8 * k).
Proof.
  intros Hn Hb. destruct (intsize_bounds n Hn) as (_ & Hup & _). rewrite Z.pow_mul_r by lia.
  change (2 ^ 8) with 256. assert (256 ^ Z.of_nat (intsize n) <= 256 ^ k) by (apply Z.pow_le_mono_r; lia). lia.
Qed.

Lemma stream_uint_completes :
  completes (stream_uint (8 * k)) encode_uint (fun n => 0 <= n < 2 ^ (8 * k)).
Proof.
  intros n s r st Hn Hs [Hst Hl] Hr. pose proof (bits_bound n Hn) as Hn64.
  rewrite (encode_uint_cases n Hn64) in *.
  assert (8 * k / 8 = k) as Hdiv by (rewrite Z.mul_comm; by apply Z.div_mul).
  assert (forall kd size bv body, head_of kd size bv ++ body ++ r = (if n =? 0 then head_of KString 0 0
      else if n <? 128 then head_of KByte 0 n else head_of KString (Z.of_nat (intsize n)) 0 ++ putint n) ++ r ->
    header_ok kd size bv -> Z.of_nat (length body) = size ->
    room (length (head_of kd size bv ++ body)) st -> exists s1, StreamKind s = (Ok (kd, size), s1) /\
      peeked s1 kd size bv (body ++ r) (advance (length (head_of kd size bv)) st) /\
      room (length (head_of kd size bv)) st /\ room (length body) (advance (length (head_of kd size bv)) st)) as Hpk.
  { intros kd size bv body E Hh Hsz Hr'. rewrite <- E in Hs, Hl. rewrite length_app in Hr'.
    apply room_add in Hr' as [Hr1 Hr2]; [|done].
    destruct (StreamKind_ok s kd size bv (body ++ r) st Hs Hst Hl Hh Hr1) as (s1 & E1 & H1); [|eauto].
    subst size. destruct st as [|[p z] st]; simpl in *; [rewrite length_app; lia|lia]. }
  unfold stream_uint, bind. destruct (n =? 0) eqn:E0; bool_go; [|destruct (n <? 128) eqn:E1; bool_go].
  - subst n. destruct (Hpk KString 0 0 []) as (s1 & -> & H1 & _); [done|done|done|by rewrite app_nil_r|].
    rewrite Hdiv, (proj2 (Z.ltb_ge _ _)) by lia. eexists. split; [done|]. by eapply peeked_ready.
  - destruct (Hpk KByte 0 n []) as (s1 & -> & H1 & _); [done|split; [done|lia]|done|by rewrite app_nil_r|].
    rewrite (pk_byteval _ _ _ _ _ _ H1), (proj2 (Z.eqb_neq _ _)) by lia. eexists. split; [done|].
    by eapply peeked_ready.
  - destruct (intsize_bounds n Hn64) as (Hi & _ & _). pose proof (putint_length n Hn64) as Hpl.
    destruct (Hpk KString (Z.of_nat (intsize n)) 0 (putint n)) as (s1 & -> & H1 & Hr1 & Hr2);
      [by rewrite <- app_assoc|split; [lia|done]|lia|done|].
    rewrite Hdiv, (proj2 (Z.ltb_ge _ _)) by (apply intsize_bits; lia). rewrite Hpl in Hr2.
    assert (Z.of_nat (length (putint n ++ r)) < 2 ^ 64) as Hl2
      by (rewrite <- app_assoc, length_app in Hl; lia).
    destruct (readUint_ok (set_kind s1 None) n r _ (peeked_ready _ _ _ _ _ _ H1) (advance_ok _ _ Hst Hr1) Hl2
      ltac:(lia) Hr2) as (s2 & E2 & H2 & _).
    assert (readUint (Z.of_nat (intsize n)) s1 = (Ok n, s2)) as E3.
    { rewrite <- E2. unfold readUint. rewrite (proj2 (Z.eqb_neq _ 0)) by lia. by destruct (_ =? 1). }
    unfold on_err. rewrite E3, (proj2 (Z.ltb_ge n _)), andb_false_r by lia. exists s2. split; [done|].
    rewrite length_app, Hpl, <- advance_add. done.
Qed.

Lemma readUint_rearm s size : 1 <= size -> readUint size s = readUint size (set_kind s None).
Proof. intros Hs. unfold readUint. rewrite (proj2 (Z.eqb_neq _ 0)) by lia. by destruct (_ =? 1). Qed.

Lemma stream_uint_sounds :
  sounds (stream_uint (8 * k)) encode_uint (fun n => 0 <= n < 2 ^ (8 * k)).
Proof.
  intros s r st Hs [Hst Hl] Hb. pose proof (StreamKind_sound s r st Hs Hst Hl Hb) as H.
  assert (8 * k / 8 = k) as Hdiv by (rewrite Z.mul_comm; by apply Z.div_mul).
  assert (256 <= 2 ^ (8 * k)) as H256 by (change 256 with (2 ^ 8); apply Z.pow_le_mono_r; lia).
  unfold stream_uint, bind. destruct (StreamKind s) as [[[kd size]|e] s1]; [|by destruct H].
  destruct H as (bv & r' & -> & Hh & Hr & Hf & H1). apply Forall_app in Hb as [_ Hb].
  destruct kd; [| |done].
  - destruct Hh as [-> Hbv]. rewrite (pk_byteval _ _ _ _ _ _ H1). destruct (bv =? 0) eqn:E0; bool_go; [done|].
    split; [lia|]. exists r'. rewrite encode_uint_cases by lia.
    rewrite (proj2 (Z.eqb_neq _ _)), (proj2 (Z.ltb_lt _ _)) by lia. split_and!; try done. by eapply peeked_ready.
  - destruct Hh as [Hsz ->]. rewrite Hdiv. destruct (k <? size) eqn:Ek; bool_go; [done|].
    destruct (decide (size = 0)) as [->|Hs0].
    { assert (readUint 0 s1 = (Ok 0, set_kind s1 None)) as E by done.
      unfold on_err. rewrite E, Z.ltb_irrefl. cbn [andb]. split; [lia|]. exists r'.
      rewrite encode_uint_cases by lia. split_and!; try done. by eapply peeked_ready. }
    rewrite length_app in Hl. assert (Z.of_nat (length r') < 2 ^ 64) as Hl' by lia.
    unfold on_err. rewrite readUint_rearm by lia.
    destruct (readUint size (set_kind s1 None)) as [[n|e] s2] eqn:Er.
    + rewrite (proj2 (Z.ltb_lt 0 _)) by lia. destruct (n <? 128) eqn:En; bool_go; [done|]. simpl.
      destruct (readUint_sound _ size r' _ n s2 (peeked_ready _ _ _ _ _ _ H1) (advance_ok _ _ Hst Hr) Hl' Hb
        ltac:(lia) Er ltac:(lia)) as (r2 & -> & -> & Hn & Hr2 & H2 & _).
      split; [split; [lia|apply bits_intsize; lia]|]. exists r2. rewrite encode_uint_cases by lia.
      rewrite (proj2 (Z.eqb_neq _ _)), (proj2 (Z.ltb_ge _ _)) by lia.
      rewrite <- app_assoc, length_app, putint_length, <- advance_add, room_add by (done || lia). done.
    + eapply readUint_err in Er as [He _]; [|by eapply peeked_ready|by apply advance_ok|done|lia].
      by destruct e.
Qed.

Lemma stream_uint_lawful : lawful (stream_uint (8 * k)) encode_uint (fun n => 0 <= n < 2 ^ (8 * k)).
Proof.
  split; [apply stream_uint_completes|apply stream_uint_sounds|apply bind_eol; intros ????; apply StreamKind_eol|].
  intros n. apply (encode_item_pos (IStr (big_bytes n))).
Qed.
End uint.

Lemma decodeUint_lawful k :
  1 <= k <= 8 -> lawful (decodeUint (8 * k)) encode_uint (fun n => 0 <= n < 2 ^ (8 * k)).
Proof. intros Hk. by apply wrap_lawful, stream_uint_lawful. Qed.

Lemma decodeByteSlice_lawful : lawful decodeByteSlice encode_string (Forall byte_ok).
Proof. apply wrap_lawful, Bytes_lawful. Qed.

Lemma big_bytes_value b : Forall byte_ok b -> canonical b -> big_bytes (be_value b) = b.
Proof.
  intros Hb Hc. pose proof (be_value_bound b Hb). destruct (big_bytes_spec (be_value b)) as (? & ? & ?); [lia|].
  by apply canonical_inj.
Qed.

Lemma decodeBigInt_lawful : lawful decodeBigInt encode_uint (fun n => 0 <= n).
Proof.
  destruct (wrap_lawful _ _ _ Bytes_lawful) as [Hc Hs He Hp]. split.
  - intros n s r st Hn Hrd Hi Hr. destruct (big_bytes_spec n Hn) as (Hok & Hcan & Hv).
    destruct (Hc (big_bytes n) s r st Hok Hrd Hi Hr) as (s' & E & H). exists s'. split; [|done].
    unfold decodeBigInt, bind. rewrite E. destruct (big_bytes n) as [|[] l] eqn:En; try done; simpl in *; by subst n.
  - intros s r st Hrd Hi Hb. specialize (Hs s r st Hrd Hi Hb). unfold decodeBigInt, bind.
    destruct (on_err wrapStreamError Bytes s) as [[b|e] s']; [|done]. destruct Hs as [Hok Hs].
    assert (forall x, canonical b -> x = be_value b -> 0 <= x /\ exists r', r = encode_uint x ++ r' /\
      room (length (encode_uint x)) st /\ ready s' r' (advance (length (encode_uint x)) st)) as Hgood.
    { intros x Hcan ->. pose proof (be_value_bound b Hok). split; [lia|]. unfold encode_uint.
      by rewrite big_bytes_value. }
    destruct b as [|[] b]; try done; by apply Hgood.
  - apply bind_eol, He.
  - intros n. apply Hp.
Qed.

(** ** Structs *)

(** Decoders of a sequence of fields: they never report [EOL]. *)
Record fields_lawful {A} (d : M A) (enc : A -> list Z) (ok : A -> Prop) : Prop := MkFields {
  fl_complete : completes d enc ok;
  fl_sound : forall s r st, ready s r st -> input_ok r st -> Forall byte_ok r ->
    match d s with
    | (Ok a, s') => ok a /\ exists r', r = enc a ++ r' /\ room (length (enc a)) st /\
        ready s' r' (advance (length (enc a)) st)
    | (Err e, _) => e <> EOL
    end;
}.

Definition field_nil : M unit := mret tt.
Definition field_cons {A B} (d : M A) (fs : M B) : M (A * B) :=
  let! a := decodeField d in
  let! b := fs in
  mret (a, b).

Lemma room_0 st : stack_ok st -> room 0 st.
Proof. intros Hst. destruct st as [|[p z] st]; [done|]. apply Forall_cons in Hst as [? _]. simpl in *. lia. Qed.

Lemma field_nil_lawful : fields_lawful field_nil (fun _ => []) (fun _ => True).
Proof.
  split.
  - intros [] s r st _ Hs _ _. exists s. split; [done|]. simpl. by rewrite advance_0.
  - intros s r st Hs [Hst _] _. split; [done|]. exists r. simpl. rewrite advance_0. split_and!; try done.
    by apply room_0.
Qed.

Lemma field_cons_lawful {A B} (d : M A) encA okA (fs : M B) encB okB :
  lawful d encA okA -> fields_lawful fs encB okB ->
  fields_lawful (field_cons d fs) (fun x => encA x.1 ++ encB x.2) (fun x => okA x.1 /\ okB x.2).
Proof.
  intros [Hc Hs He Hp] [Fc Fs]. split.
  - intros [a b] s r st [Ha Hb] Hrd Hi Hr. simpl in *. rewrite <- app_assoc in Hrd, Hi.
    rewrite length_app in Hr. apply room_add in Hr as [Hr1 Hr2]; [|apply Hi].
    destruct (Hc a s (encB b ++ r) st Ha Hrd Hi Hr1) as (s1 & E1 & H1).
    destruct (Fc b s1 r _ Hb H1 (input_ok_app _ _ _ Hi Hr1) Hr2) as (s2 & E2 & H2).
    exists s2. unfold field_cons, bind, decodeField, on_err. rewrite E1, E2. split; [done|].
    by rewrite length_app, <- advance_add.
  - intros s r st Hrd Hi Hb. specialize (Hs s r st Hrd Hi Hb). unfold field_cons, bind, decodeField, on_err.
    destruct (d s) as [[a|e] s1]; [|by destruct e].
    destruct Hs as (Ha & r1 & -> & Hr1 & H1). apply Forall_app in Hb as [_ Hb].
    specialize (Fs s1 r1 _ H1 (input_ok_app _ _ _ Hi Hr1) Hb).
    destruct (fs s1) as [[b|e] s2]; [|done]. destruct Fs as (Hb' & r2 & -> & Hr2 & H2).
    split; [done|]. exists r2. simpl. rewrite app_assoc, length_app, <- advance_add, room_add by apply Hi. done.
Qed.

(** A change of representation of the decoded value. *)
Definition dmap {A B} (f : A -> B) (d : M A) : M B := let! a := d in mret (f a).

Lemma dmap_lawful {A B} (f : A -> B) (g : B -> A) (d : M A) enc ok :
  (forall b, f (g b) = b) -> (forall a, g (f a) = a) ->
  fields_lawful d enc ok -> fields_lawful (dmap f d) (fun b => enc (g b)) (fun b => ok (g b)).
Proof.
  intros Hfg Hgf [Hc Hs]. split.
  - intros b s r st Hb Hrd Hi Hr. destruct (Hc (g b) s r st Hb Hrd Hi Hr) as (s' & E & H). exists s'.
    unfold dmap, bind. by rewrite E, Hfg.
  - intros s r st Hrd Hi Hb. specialize (Hs s r st Hrd Hi Hb). unfold dmap, bind.
    destruct (d s) as [[a|e] s']; [|done]. unfold mret. by rewrite !Hgf.
Qed.

Lemma decodeStruct_lawful {A} (fs : M A) enc ok :
  fields_lawful fs enc ok -> lawful (decodeStruct fs) (fun a => encode_list (enc a)) ok.
Proof.
  intros [Hc Hs]. split.
  - intros a s r st Ha Hrd Hi Hr. rewrite encode_list_head in *. rewrite <- app_assoc in Hrd, Hi.
    rewrite length_app in Hr |- *.
    destruct (List_ok s (length (enc a)) (enc a ++ r) st Hrd Hi ltac:(rewrite length_app; lia) Hr) as (s1 & E1 & H1).
    apply room_add in Hr as [Hr1 Hr2]; [|apply Hi]. pose proof (input_ok_app _ _ _ Hi Hr1) as [Hst1 Hl1].
    assert (input_ok (enc a ++ r) ((0, Z.of_nat (length (enc a))) ::
      advance (length (head_of KList (Z.of_nat (length (enc a))) 0)) st)) as Hi2.
    { split; [|done]. constructor; [|done]. rewrite length_app in Hl1. simpl. lia. }
    destruct (Hc a s1 r _ Ha H1 Hi2) as (s2 & E2 & H2); [simpl; lia|]. cbn [advance] in H2. rewrite Z.add_0_l in H2.
    destruct (ListEnd_ok s2 (Z.of_nat (length (enc a))) r _ H2) as (s3 & E3 & H3).
    { constructor; [|done]. rewrite length_app in Hl1. simpl. lia. }
    { by rewrite Nat2Z.id. }
    exists s3. unfold decodeStruct, bind, on_err. rewrite E1, E2, E3. split; [done|].
    by rewrite Nat2Z.id, advance_add in H3.
  - intros s r st Hrd Hi Hb. pose proof (List_sound s r st Hrd Hi Hb) as H.
    unfold decodeStruct, bind, on_err. destruct (List s) as [[size|e] s1].
    2:{ intros He%wrap_eol. by apply H. }
    destruct H as (r1 & -> & Hsz & Hr & Hf & H1). pose proof (input_ok_app _ _ _ Hi Hr) as [Hst1 Hl1].
    apply Forall_app in Hb as [_ Hb]. pose proof (fits_room_z size _ _ ltac:(lia) Hf) as Hr2.
    assert (input_ok r1 ((0, size) :: advance (length (head_of KList size 0)) st)) as Hi2
      by (split; [constructor; [simpl; lia|done]|done]).
    specialize (Hs s1 r1 _ H1 Hi2 Hb). destruct (fs s1) as [[a|e] s2]; [|done].
    destruct Hs as (Ha & r2 & -> & _ & H2). cbn [advance] in H2. rewrite Z.add_0_l in H2.
    destruct (ListEnd s2) as [[u|e] s3] eqn:E3.
    + destruct (ListEnd_sound s2 r2 size _ _ u s3 H2 Hst1 ltac:(lia) Hr2 E3) as [<- H3].
      split; [done|]. exists r2. rewrite encode_list_head, <- app_assoc, length_app, <- advance_add.
      rewrite room_add by apply Hi. rewrite Nat2Z.id in Hr2, H3. done.
    + destruct (ListEnd_err _ _ _ E3). intros He%wrap_eol. done.
  - apply bind_eol, on_err_eol; [done|]. apply bind_eol. intros ????. apply StreamKind_eol.
  - intros a. pose proof (head_of_pos KList (Z.of_nat (length (enc a))) 0). rewrite encode_list_head, length_app. lia.
Qed.

(** ** Types with an RLP representation *)

Definition rlp_bytes (v : value) : list Z := encode_item (item_of v).

(** What the encoder and the decoder of a type promise to their users. *)
Class RlpType (A : Type) := {
  rlp_value : A -> value;
  rlp_dec : M A;
  rlp_ok : A -> Prop;
  rlp_value_ok : forall a, rlp_ok a -> value_ok (rlp_value a);
  rlp_lawful : lawful rlp_dec (fun a => rlp_bytes (rlp_value a)) rlp_ok;
}.

Lemma lawful_ext {A} (d : M A) enc enc' ok :
  (forall a, enc a = enc' a) -> lawful d enc ok -> lawful d enc' ok.
Proof.
  intros E [Hc Hs He Hp]. split.
  - intros a s r st. rewrite <- E. apply Hc.
  - intros s r st H1 H2 H3. specialize (Hs s r st H1 H2 H3). destruct (d s) as [[a|e] s']; [|done].
    by rewrite <- E.
  - done.
  - intros a. by rewrite <- E.
Qed.

(** A slice of a type. *)
Definition slice_value {A} `{RlpType A} (l : list A) : value := VList (rlp_value <$> l).

Lemma slice_lawful {A} `{RlpType A} :
  lawful (decodeListSlice rlp_dec) (fun l => rlp_bytes (slice_value l)) (Forall rlp_ok).
Proof.
  eapply lawful_ext; [|apply decodeListSlice_lawful, rlp_lawful]. intros l. simpl.
  unfold rlp_bytes, slice_value. cbn [item_of]. rewrite encode_item_list. f_equal.
  rewrite <- list_fmap_compose. induction l as [|a l IH]; [done|]. by rewrite fmap_cons, !bind_cons, IH.
Qed.


(** ** Basic instances *)

Definition uint_value (n : Z) : value := VUint n.

#[export] Instance rlp_byteslice : RlpType (list Z).
Proof.
  refine {| rlp_value := VBytes; rlp_dec := decodeByteSlice; rlp_ok := Forall byte_ok |}; [done|].
  apply decodeByteSlice_lawful.
Defined.

(** An example of a struct: an unsigned integer and a byte slice. *)
#[local] Instance demo_struct : RlpType (Z * (list Z * unit)).
Proof.
  refine {| rlp_value := fun x => VList [VUint x.1; VBytes x.2.1];
            rlp_dec := decodeStruct (field_cons (decodeUint 64) (field_cons decodeByteSlice field_nil));
            rlp_ok := fun x => 0 <= x.1 < 2 ^ 64 /\ Forall byte_ok x.2.1 /\ True |}.
  - intros [n [l []]] [Hn _]. split; [exact Hn|by split].
  - eapply lawful_ext; [|exact (decodeStruct_lawful _ _ _ (field_cons_lawful _ _ _ _ _ _
      (decodeUint_lawful 8 ltac:(lia))
      (field_cons_lawful _ _ _ _ _ _ decodeByteSlice_lawful field_nil_lawful)))].
    by intros [n [l []]].
Defined.


(** Decoding a one-byte array that holds zero does not advance the
    stream: a struct with such a field is encoded but its encoding is refused
    by its own decoder. *)
Theorem byte_array_roundtrip_fails :
  exists b, EncodeToBytes (VList [VBytes [0]; VUint 5]) = Some b /\
    DecodeBytes b (decodeStruct (field_cons (decodeByteArray 1) (field_cons (decodeUint 8) field_nil))) =
      Err (DecodeError ErrCanonInt).
Proof. exists [0xC2; 0; 5]. split; vm_compute; reflexivity. Qed.
