(* ===== verification/RlpTypes.v ===== *)
(** * RLP encodings of records ([src/rlp] as the message types use it)

    Decoders of fixed width integers, the encoding and decoding of a type with
    an [RlpType] instance, bounds on the length of encodings, and the tactics
    that build an instance for a struct from those of its fields. *)

From S2P Require Import Prelude Bytes Rlp RlpStream.
Local Open Scope Z_scope.

(** ** Fields *)

Definition u8_dec := decodeUint 8.
Definition u16_dec := decodeUint 16.
Definition u64_dec := decodeUint 64.

Lemma u8_lawful : lawful u8_dec encode_uint (fun n => 0 <= n < 2 ^ 8).
Proof. apply (decodeUint_lawful 1). lia. Qed.
Lemma u16_lawful : lawful u16_dec encode_uint (fun n => 0 <= n < 2 ^ 16).
Proof. apply (decodeUint_lawful 2). lia. Qed.
Lemma u64_lawful : lawful u64_dec encode_uint (fun n => 0 <= n < 2 ^ 64).
Proof. apply (decodeUint_lawful 8). lia. Qed.

Lemma uint_value_ok k n : 0 <= k <= 64 -> 0 <= n < 2 ^ k -> value_ok (VUint n).
Proof. intros Hk Hn. simpl. unfold fits. assert (2 ^ k <= 2 ^ 64) by (apply Z.pow_le_mono_r; lia). lia. Qed.

Lemma slice_value_ok {A} `{RlpType A} (l : list A) : Forall rlp_ok l -> value_ok (slice_value l).
Proof. intros Hl. apply value_ok_list, Forall_fmap. eapply Forall_impl; [exact Hl|]. apply rlp_value_ok. Qed.

Ltac rlp_value_okt :=
  repeat match goal with H : _ /\ _ |- _ => destruct H end;
  repeat (apply Forall_cons; split); try (apply Forall_nil);
  first [exact I | by apply rlp_value_ok | by apply slice_value_ok
        | eapply (uint_value_ok 8); [lia|lia] | eapply (uint_value_ok 16); [lia|lia]
        | eapply (uint_value_ok 64); [lia|lia] | by constructor | done].


(** The encoding of a struct is the one of its fields. *)
Ltac rlp_bytes_eq :=
  intros i; unfold rlp_bytes, slice_value, encode_opt, encode_uint; simpl;
  rewrite ?app_nil_r; repeat case_match; done.

Definition rlp_encode {A} `{RlpType A} (a : A) : option (list Z) := EncodeToBytes (rlp_value a).
Definition rlp_decode {A} `{RlpType A} (b : list Z) : res rerr A := DecodeBytes b rlp_dec.

(** ** Lengths *)

(** Far below the limits of the encoder. *)
Definition small (v : value) : Prop := Z.of_nat (length (rlp_bytes v)) < 2 ^ 32.

Lemma rlp_encode_ok {A} `{RlpType A} (a : A) :
  rlp_ok a -> small (rlp_value a) -> rlp_encode a = Some (rlp_bytes (rlp_value a)).
Proof.
  intros Ha Hs. unfold rlp_encode. apply EncodeToBytes_ok; [by apply rlp_value_ok|].
  unfold small, rlp_bytes in Hs. lia.
Qed.

Lemma rlp_decode_ok {A} `{RlpType A} (a : A) :
  rlp_ok a -> small (rlp_value a) -> rlp_decode (rlp_bytes (rlp_value a)) = Ok a.
Proof.
  intros Ha Hs. apply (DecodeBytes_complete rlp_dec (fun a => rlp_bytes (rlp_value a)) rlp_ok a); [|done|].
  - apply rlp_lawful.
  - unfold small in Hs. lia.
Qed.

Lemma rlp_bytes_nonempty v : rlp_bytes v <> [].
Proof. intros E. pose proof (encode_item_pos (item_of v)) as H. unfold rlp_bytes in E. rewrite E in H. simpl in H. lia. Qed.

Lemma length_encode_list_le c : Z.of_nat (length c) < 2 ^ 64 -> (length (encode_list c) <= 9 + length c)%nat.
Proof.
  intros Hc. unfold encode_list. rewrite length_app, length_puthead by lia.
  case_go; [lia|]. destruct (intsize_bounds (Z.of_nat (length c))); lia.
Qed.

Lemma rlp_bytes_list l : rlp_bytes (VList l) = encode_list ((item_of <$> l) ≫= encode_item).
Proof. done. Qed.

(** The content of a list with a prefix of its elements. *)
Lemma small_prefix l1 l2 :
  small (VList (l1 ++ l2)) ->
  Z.of_nat (length (rlp_bytes (VList l1))) < 2 ^ 64 /\ Forall small l1.
Proof.
  unfold small at 1. rewrite !rlp_bytes_list, fmap_app, bind_app. intros Hs.
  pose proof (length_encode_list (((item_of <$> l1) ≫= encode_item) ++ ((item_of <$> l2) ≫= encode_item))) as Hl.
  rewrite length_app in Hl.
  assert (Z.of_nat (length ((item_of <$> l1) ≫= encode_item)) < 2 ^ 64) as Hb by lia.
  pose proof (length_encode_list_le _ Hb) as Hle. split; [lia|].
  assert (Z.of_nat (length ((item_of <$> l1) ≫= encode_item)) < 2 ^ 32) as H1 by lia. clear -H1.
  induction l1 as [|v l IH]; constructor; rewrite fmap_cons, bind_cons, length_app in H1;
    [unfold small, rlp_bytes; lia|]. apply IH. lia.
Qed.

Lemma length_encode_string_le b : Z.of_nat (length b) < 2 ^ 64 -> (length (encode_string b) <= 9 + length b)%nat.
Proof.
  intros Hb. destruct (intsize_bounds (Z.of_nat (length b))) as (Hi & _ & _); [lia|].
  assert (length (puthead 0x80 0xB7 (Z.of_nat (length b)) ++ b) <= 9 + length b)%nat as Hp.
  { rewrite length_app, length_puthead by lia. destruct (_ <? 56); lia. }
  unfold encode_string. destruct b as [|x [|y b]]; try exact Hp. destruct (x <=? 127); [simpl; lia|exact Hp].
Qed.

Lemma length_uint_le n : 0 <= n < 2 ^ 64 -> (length (encode_string (big_bytes n)) <= 17)%nat.
Proof.
  intros Hn. destruct (decide (n = 0)) as [->|]; [vm_compute; lia|].
  rewrite big_bytes_putint by lia. pose proof (putint_length n Hn) as Hl.
  destruct (intsize_bounds n Hn) as (Hi & _ & _).
  pose proof (length_encode_string_le (putint n)) as H. lia.
Qed.

Lemma list_size l : (Z.of_nat (sum_list_with (fun v => length (rlp_bytes v)) l) < 2 ^ 40) ->
  (length (rlp_bytes (VList l)) <= 9 + sum_list_with (fun v => length (rlp_bytes v)) l)%nat.
Proof.
  intros Hs. rewrite rlp_bytes_list.
  assert (length ((item_of <$> l) ≫= encode_item) = sum_list_with (fun v => length (rlp_bytes v)) l) as E.
  { clear Hs. induction l as [|v l IH]; [done|]. rewrite fmap_cons, bind_cons, length_app, IH. done. }
  rewrite <- E in *. apply length_encode_list_le. lia.
Qed.

Lemma bytes_size b : Z.of_nat (length b) < 2 ^ 40 -> (length (rlp_bytes (VBytes b)) <= 9 + length b)%nat.
Proof. intros Hb. apply length_encode_string_le. lia. Qed.

Lemma uint_size n : 0 <= n < 2 ^ 64 -> (length (rlp_bytes (VUint n)) <= 17)%nat.
Proof. apply length_uint_le. Qed.

(** Byte strings and machine integers are encoded as bytes. *)
Lemma item_ok_uint n : 0 <= n -> item_ok (item_of (VUint n)).
Proof. intros Hn. by apply big_bytes_spec. Qed.

Lemma rlp_bytes_ok v : item_ok (item_of v) -> small v -> Forall byte_ok (rlp_bytes v).
Proof. intros Hv Hs. apply encode_item_ok; [done|]. unfold small, rlp_bytes in Hs. lia. Qed.


Definition bool_bytes (b : bool) : list Z := encode_string (if b then [1] else []).

Lemma decodeBool_lawful : lawful decodeBool bool_bytes (fun _ => True).
Proof.
  apply wrap_lawful. destruct (stream_uint_lawful 1 ltac:(lia)) as [Hc Hs He Hp].
  assert (forall b, bool_bytes b = encode_uint (if b then 1 else 0)) as E by (by intros []). split.
  - intros b s r st _. rewrite E. intros H1 H2 H3.
    destruct (Hc (if b then 1 else 0) s r st) as (s' & E' & H'); [by destruct b|done..|].
    exists s'. split; [|done]. unfold stream_Bool, bind. change (8 * 1) with 8 in E'. rewrite E'. by destruct b.
  - intros s r st H1 H2 H3. specialize (Hs s r st H1 H2 H3). unfold stream_Bool, bind. change (8 * 1) with 8 in Hs.
    destruct (stream_uint 8 s) as [[n|e] s']; [|done]. destruct Hs as [Hn Hs].
    destruct (n =? 0) eqn:E0; bool_go; [|destruct (n =? 1) eqn:E1; bool_go; [|done]]; subst; unfold mret; by rewrite E.
  - by apply bind_eol.
  - intros b. rewrite E. apply Hp.
Qed.
