(* ===== verification/GoHeap.v ===== *)
(** * The binary heap of Go's [container/heap]

    The priority queues of the program ([kad/peersort.go], [ndnsuit/itimer.go])
    are slices handed to the standard library's [heap.Init], [heap.Push] and
    [heap.Pop].  This file defines those algorithms on lists, generically in
    the [Less] method of the slice, and proves them correct for every [Less]
    that is compatible with a total preorder.  Strict ([<], the timer queue)
    and non-strict ([<=], the peer queue) versions of [Less] are both
    instances of the class [HeapOrder]. *)

From S2P Require Import Prelude.

(** ** The algorithms *)

Section heap.
  Context {A : Type} `{Inhabited A} (less : A -> A -> bool).

  (** [h.Swap(i, j)]: exchange two cells of the slice. *)
Definition swap (l : list A) (i j : nat) : list A :=
    <[j := l !!! i]> (<[i := l !!! j]> l).

  (** Index of the parent, [(j - 1) / 2]; Go's truncating division sends the
      root to itself. *)
Definition parent (j : nat) : nat := (j - 1) / 2.

  (** [up]: the fuel [S j] is never exhausted because the index strictly
      decreases. *)
Fixpoint up_loop (fuel : nat) (l : list A) (j : nat) : list A :=
    match fuel with
    | 0 => l
    | S fuel =>
      let i := parent j in
      if (i =? j) || negb (less (l !!! j) (l !!! i)) then l
      else up_loop fuel (swap l i j) i
    end.

Definition up (l : list A) (j : nat) : list A := up_loop (S j) l j.

  (** [down]: sift the element of index [i] inside the first [n] cells. *)
Fixpoint down_loop (fuel : nat) (l : list A) (i n : nat) : list A :=
    match fuel with
    | 0 => l
    | S fuel =>
      let j1 := 2 * i + 1 in
      if n <=? j1 then l
      else
        let j2 := j1 + 1 in
        let j := if (j2 <? n) && less (l !!! j2) (l !!! j1) then j2 else j1 in
        if negb (less (l !!! j) (l !!! i)) then l
        else down_loop fuel (swap l i j) j n
    end.

Definition down (l : list A) (i n : nat) : list A := down_loop n l i n.

  (** [heap.Init]: [for i := n/2 - 1; i >= 0; i--]. *)
Fixpoint init_loop (k : nat) (l : list A) : list A :=
    match k with
    | 0 => l
    | S i => init_loop i (down l i (length l))
    end.

Definition heap_init (l : list A) : list A := init_loop (length l / 2) l.

Definition heap_push (l : list A) (x : A) : list A :=
    up (l ++ [x]) (length l).

  (** [heap.Pop] on a non-empty slice; [None] stands for the index panic on
      an empty one. *)
Definition heap_pop (l : list A) : option (A * list A) :=
    match l with
    | [] => None
    | _ =>
      let n := length l - 1 in
      let l' := down (swap l 0 n) 0 n in
      Some (l' !!! n, take n l')
    end.
  (** The loop shared by the two [closest] functions: pop until the queue is
      empty or [k] elements were stored in a slice of length [k].  [None] is
      the out-of-range panic of the store, which happens when [k = 0] and the
      queue is not empty.  The fuel is the length of the queue. *)
Fixpoint pop_loop (fuel k : nat) (q out : list A) : option (list A * list A) :=
    match fuel with
    | 0 => Some (out, q)
    | S fuel =>
      match heap_pop q with
      | None => Some (out, q)
      | Some (x, q') =>
        if length out <? k then
          let out' := out ++ [x] in
          if k <=? length out' then Some (out', q')
          else pop_loop fuel k q' out'
        else None
      end
    end.

Definition pop_upto (k : nat) (q : list A) : option (list A * list A) :=
    pop_loop (length q) k q [].
End heap.

(** ** Correctness *)

(** [Less] agrees with the preorder [le] on the elements that satisfy [P]. *)
Class HeapOrder {A : Type} (P : A -> Prop) (less : A -> A -> bool) (le : relation A) : Prop := {
  heap_order_pre : PreOrder le;
  heap_less_true x y : P x -> P y -> less x y = true -> le x y;
  heap_less_false x y : P x -> P y -> less x y = false -> le y x;
}.

Section heap_props.
  Context {A : Type} `{Inhabited A}.
  Context {P : A -> Prop} {less : A -> A -> bool} {le : relation A}.
  Context `{!HeapOrder P less le}.
  Implicit Types l : list A.

  #[local] Existing Instance heap_order_pre.

  (** Parents not above index [lo] are below their children, in the first
      [n] cells. *)
Definition heap_from (lo n : nat) (l : list A) : Prop :=
    forall j, 0 < j < n -> lo <= parent j -> le (l !!! parent j) (l !!! j).

Definition is_heap (l : list A) : Prop := heap_from 0 (length l) l.

Lemma parent_lt j : 0 < j -> parent j < j.
  Proof. intros ?. unfold parent. apply Nat.Div0.div_lt_upper_bound; lia. Qed.

Lemma parent_children j i : 0 < j -> parent j = i <-> j = 2 * i + 1 \/ j = 2 * i + 2.
  Proof.
    intros ?. unfold parent.
    pose proof (Nat.div_mod_eq (j - 1) 2). pose proof (Nat.mod_upper_bound (j - 1) 2).
    lia.
  Qed.

Lemma Forall_at l i : Forall P l -> i < length l -> P (l !!! i).
  Proof.
    intros Hl Hi. apply (Forall_lookup_1 P l i); [done|].
    by apply list_lookup_lookup_total_lt.
  Qed.

Lemma length_swap l i j : length (swap l i j) = length l.
  Proof. unfold swap. by rewrite !length_insert. Qed.

Lemma swap_l l i j : i < length l -> j < length l -> swap l i j !!! i = l !!! j.
  Proof.
    intros ??. unfold swap. rewrite list_lookup_total_insert, length_insert.
    case_decide as Hd; [by destruct Hd as [-> _]|].
    by rewrite list_lookup_total_insert_eq.
  Qed.

Lemma swap_r l i j : i < length l -> j < length l -> swap l i j !!! j = l !!! i.
  Proof.
    intros ??. unfold swap. rewrite list_lookup_total_insert_eq; [done|].
    by rewrite length_insert.
  Qed.

Lemma swap_ne l i j k : k <> i -> k <> j -> swap l i j !!! k = l !!! k.
  Proof. intros ??. unfold swap. by rewrite !list_lookup_total_insert_ne by done. Qed.

Lemma swap_perm l i j : i < length l -> j < length l -> swap l i j ≡ₚ l.
  Proof.
    intros ??. unfold swap. apply Permutation_insert_swap;
      by apply list_lookup_lookup_total_lt.
  Qed.

Lemma down_loop_perm fuel l i n :
    i < length l -> n <= length l -> down_loop less fuel l i n ≡ₚ l.
  Proof.
    revert l i. induction fuel as [|fuel IH]; intros l i Hi Hn; simpl; [done|].
    destruct (n <=? _) eqn:?; [done|]; bool_go.
    case_match eqn:Hl; [done|]. bool_go.
    set (j := if _ && _ then _ else _) in *.
    assert (j < n) by (subst j; case_match; bool_go; lia).
    rewrite IH; [apply swap_perm; lia|rewrite length_swap; lia..].
  Qed.

Lemma length_down_loop fuel l i n :
    length (down_loop less fuel l i n) = length l.
  Proof.
    revert l i. induction fuel as [|fuel IH]; intros l i; simpl; [done|].
    repeat case_match; rewrite ?IH, ?length_swap; done.
  Qed.

  (** Cells at or after [n] are not touched. *)
Lemma down_loop_ge fuel l i n k :
    i < n -> n <= k -> down_loop less fuel l i n !!! k = l !!! k.
  Proof.
    revert l i. induction fuel as [|fuel IH]; intros l i Hi Hk; simpl; [done|].
    destruct (n <=? _) eqn:?; [done|]; bool_go.
    case_match eqn:Hl; [done|].
    set (j := if _ && _ then _ else _) in *.
    assert (j < n) by (subst j; case_match; bool_go; lia).
    rewrite IH by lia. apply swap_ne; lia.
  Qed.

  (** The invariant of the loop of [down]: the order can only fail between
      [i] and its children, and the children of [i] are not smaller than the
      parent of [i]. *)
Definition down_inv (lo i n : nat) (l : list A) : Prop :=
    (forall j, 0 < j < n -> lo <= parent j -> parent j <> i ->
       le (l !!! parent j) (l !!! j)) /\
    (forall j, 0 < i -> lo <= parent i -> 0 < j < n -> parent j = i ->
       le (l !!! parent i) (l !!! j)).

  (** One exchange with the smaller child moves the exception down. *)
Lemma down_inv_swap lo i j n l :
    down_inv lo i n l -> n <= length l -> lo <= i -> 0 < j < n -> parent j = i ->
    le (l !!! j) (l !!! i) ->
    (forall k, 0 < k < n -> parent k = i -> le (l !!! j) (l !!! k)) ->
    down_inv lo j n (swap l i j).
  Proof.
    intros [H1 H2] Hn Hlo Hj Hp Hji Hmin.
    pose proof (parent_lt j) as Hpj.
    assert (i < j) as Hij by lia.
    split.
    - intros k Hk Hlok Hne.
      destruct (decide (parent k = i)) as [He|Hpk].
      + rewrite He, swap_l by lia.
        destruct (decide (k = j)) as [->|Hkj]; [by rewrite swap_r by lia|].
        assert (k <> i) by (pose proof (parent_lt k); lia).
        rewrite swap_ne by done. by apply Hmin.
      + rewrite (swap_ne l i j (parent k)) by done.
        destruct (decide (k = i)) as [->|Hki].
        * rewrite swap_l by lia. apply H2; lia.
        * destruct (decide (k = j)) as [->|Hkj]; [done|].
          rewrite swap_ne by done. by apply H1.
    - intros k _ _ Hk Hpk. rewrite Hp, swap_l by lia.
      pose proof (parent_lt k).
      rewrite swap_ne by lia. rewrite <- Hpk. apply H1; lia.
  Qed.

Lemma down_inv_done lo i n l :
    down_inv lo i n l ->
    (forall k, 0 < k < n -> parent k = i -> le (l !!! i) (l !!! k)) ->
    heap_from lo n l.
  Proof.
    intros [H1 _] Hc j Hj Hlo. destruct (decide (parent j = i)) as [He|].
    - rewrite He. by apply Hc.
    - by apply H1.
  Qed.

Lemma down_loop_heap fuel lo l i n :
    Forall P l -> down_inv lo i n l -> n <= length l -> lo <= i -> n - i <= fuel ->
    heap_from lo n (down_loop less fuel l i n).
  Proof.
    revert l i. induction fuel as [|fuel IH]; intros l i HP Hinv Hn Hlo Hf; simpl.
    { apply (down_inv_done _ i); [done|]. intros k Hk Hp.
      pose proof (parent_lt k). lia. }
    destruct (n <=? _) eqn:?; bool_go.
    { apply (down_inv_done _ i); [done|]. intros k Hk Hp.
      apply parent_children in Hp; lia. }
    set (j := if _ && _ then _ else _).
    assert (0 < j < n /\ parent j = i /\
            forall k, 0 < k < n -> parent k = i -> le (l !!! j) (l !!! k))
      as (Hj & Hp & Hmin).
    { subst j. destruct ((_ <? n) && _) eqn:Hb.
      - bool_go. split; [lia|]. split; [apply parent_children; lia|].
        intros k Hk Hpk. apply parent_children in Hpk; [|lia]. destruct Hpk as [->| ->].
        + apply heap_less_true; [apply Forall_at; [done|lia]..|done].
        + replace (2 * i + 2) with (i + (i + 0) + 1 + 1) by lia. reflexivity.
      - split; [lia|]. split; [apply parent_children; lia|].
        intros k Hk Hpk. apply parent_children in Hpk; [|lia]. destruct Hpk as [->| ->]; [reflexivity|].
        apply andb_false_iff in Hb as [Hb|Hb]; bool_go; [lia|].
        replace (2 * i + 2) with (i + (i + 0) + 1 + 1) by lia.
        apply heap_less_false; [apply Forall_at; [done|lia]..|done]. }
    destruct (negb _) eqn:Hless; bool_go.
    - apply (down_inv_done _ i); [done|]. intros k Hk Hpk.
      transitivity (l !!! j); [|by apply Hmin]. pose proof (parent_lt j).
      apply heap_less_false; [apply Forall_at; [done|lia]..|done].
    - pose proof (parent_lt j).
      apply IH; rewrite ?length_swap; [| |lia..].
      + by rewrite swap_perm by lia.
      + apply down_inv_swap; auto.
        apply heap_less_true; [apply Forall_at; [done|lia]..|done].
  Qed.

Lemma down_perm l i n : i < length l -> n <= length l -> down less l i n ≡ₚ l.
  Proof. apply down_loop_perm. Qed.

Lemma init_loop_spec k l :
    Forall P l -> k <= length l -> heap_from k (length l) l ->
    init_loop less k l ≡ₚ l /\ is_heap (init_loop less k l).
  Proof.
    revert l. induction k as [|k IH]; intros l HP Hk Hh; simpl; [done|].
    assert (length (down less l k (length l)) = length l) as Hlen
      by apply length_down_loop.
    destruct (IH (down less l k (length l))) as [Hp Hheap]; rewrite ?Hlen; [|lia| |].
    - by rewrite down_perm by lia.
    - apply down_loop_heap; [done| |lia..].
      split; [|intros j ??; pose proof (parent_lt k); lia].
      intros j Hj Hlo Hne. apply Hh; lia.
    - split; [|done]. rewrite Hp. apply down_perm; lia.
  Qed.

Lemma heap_init_spec l :
    Forall P l -> heap_init less l ≡ₚ l /\ is_heap (heap_init less l).
  Proof.
    intros HP. apply init_loop_spec; [done|..].
    - apply Nat.Div0.div_le_upper_bound. lia.
    - intros j Hj Hlo. exfalso. unfold parent in Hlo.
      pose proof (Nat.div_mod_eq (j - 1) 2). pose proof (Nat.mod_upper_bound (j - 1) 2).
      pose proof (Nat.div_mod_eq (length l) 2).
      pose proof (Nat.mod_upper_bound (length l) 2). lia.
  Qed.

  (** *** [up] *)

Definition up_inv (j n : nat) (l : list A) : Prop :=
    (forall k, 0 < k < n -> k <> j -> le (l !!! parent k) (l !!! k)) /\
    (forall k, 0 < j -> 0 < k < n -> parent k = j -> le (l !!! parent j) (l !!! k)).

Lemma up_loop_spec fuel l j :
    Forall P l -> j < length l -> j < fuel -> up_inv j (length l) l ->
    up_loop less fuel l j ≡ₚ l /\ is_heap (up_loop less fuel l j).
  Proof.
    revert l j. induction fuel as [|fuel IH]; intros l j HP Hj Hf [H1 H2]; simpl; [lia|].
    destruct (_ || _) eqn:Hb.
    - split; [done|]. intros k Hk _. destruct (decide (k = j)) as [->|]; [|by apply H1].
      apply orb_true_iff in Hb as [Hb|Hb]; bool_go; [pose proof (parent_lt j); lia|].
      pose proof (parent_lt j).
      apply heap_less_false; [apply Forall_at; [done|lia]..|done].
    - bool_go. pose proof (parent_lt j) as Hpj.
      assert (0 < j) by (destruct (decide (j = 0)) as [->|]; [done|lia]).
      assert (le (l !!! j) (l !!! parent j)) as Hle.
      { apply heap_less_true; [apply Forall_at; [done|lia]..|done]. }
      destruct (IH (swap l (parent j) j) (parent j)) as [Hp Hh];
        rewrite ?length_swap; [by rewrite swap_perm by lia|lia..| |].
      + split.
        * intros k Hk Hne. pose proof (parent_lt k).
          destruct (decide (k = j)) as [->|Hkj].
          { rewrite swap_l, swap_r by lia. done. }
          rewrite (swap_ne l _ j k) by done.
          destruct (decide (parent k = j)) as [He|Hpk].
          { rewrite He, swap_r by lia. apply H2; lia. }
          destruct (decide (parent k = parent j)) as [He|Hpk'].
          { rewrite He, swap_l by lia. transitivity (l !!! parent j); [done|].
            rewrite <- He. apply H1; lia. }
          rewrite swap_ne by done. apply H1; lia.
        * intros k Hpos Hk Hpk. pose proof (parent_lt (parent j)).
          rewrite (swap_ne l _ j (parent (parent j))) by lia.
          assert (le (l !!! parent (parent j)) (l !!! parent j)) by (apply H1; lia).
          destruct (decide (k = j)) as [->|Hkj]; [by rewrite swap_r by lia|].
          pose proof (parent_lt k).
          rewrite swap_ne by lia. transitivity (l !!! parent j); [done|].
          rewrite <- Hpk. apply H1; lia.
      + split; [|done]. rewrite Hp. apply swap_perm; lia.
  Qed.

Lemma heap_push_spec l x :
    Forall P l -> P x -> is_heap l -> heap_push less l x ≡ₚ x :: l /\ is_heap (heap_push less l x).
  Proof.
    intros HP Hx Hh. unfold heap_push, up.
    destruct (up_loop_spec (S (length l)) (l ++ [x]) (length l)) as [Hp Hh'].
    - apply Forall_app. auto.
    - rewrite length_app. simpl. lia.
    - lia.
    - rewrite length_app. simpl. split.
      + intros k Hk Hne. pose proof (parent_lt k).
        rewrite !lookup_total_app_l by lia. apply Hh; lia.
      + intros k Hpos Hk Hpk. pose proof (parent_lt k). lia.
    - split; [|done]. rewrite Hp. by rewrite Permutation_app_comm.
  Qed.

Lemma heap_root_min l y : is_heap l -> y ∈ l -> le (l !!! 0) y.
  Proof.
    intros Hh [i Hi]%list_elem_of_lookup.
    pose proof (lookup_lt_Some _ _ _ Hi) as Hlt.
    rewrite <- (list_lookup_total_correct _ _ _ Hi). clear y Hi.
    induction i as [i IH] using lt_wf_ind.
    destruct (decide (i = 0)) as [->|]; [reflexivity|].
    pose proof (parent_lt i).
    transitivity (l !!! parent i); [apply IH; lia|apply Hh; lia].
  Qed.

  (** [heap.Pop] returns a least element and leaves a heap of the others. *)
Lemma heap_pop_spec l :
    Forall P l -> is_heap l -> l <> [] ->
    exists x l', heap_pop less l = Some (x, l') /\ l ≡ₚ x :: l' /\ is_heap l' /\
      Forall (le x) l'.
  Proof.
    intros HP Hh Hne. destruct l as [|a l]; [done|]. set (ls := a :: l) in *.
    assert (0 < length ls) as Hpos by (simpl; lia).
    set (n := length ls - 1). set (l' := down less (swap ls 0 n) 0 n).
    assert (length l' = length ls) as Hlen.
    { unfold l', down. by rewrite length_down_loop, length_swap. }
    assert (l' ≡ₚ ls) as Hperm.
    { unfold l'. rewrite down_perm by (rewrite length_swap; lia). apply swap_perm; lia. }
    assert (l' !!! n = ls !!! 0) as Hx.
    { unfold l', down. destruct (decide (0 < n)).
      - rewrite down_loop_ge by lia. apply swap_r; lia.
      - by replace n with 0 by lia. }
    assert (take n l' ++ [l' !!! n] = l') as Hsplit.
    { rewrite <- take_S_r by (apply list_lookup_lookup_total_lt; lia).
      apply take_ge. lia. }
    exists (ls !!! 0), (take n l').
    assert (ls ≡ₚ ls !!! 0 :: take n l') as Hp'.
    { rewrite <- Hx. rewrite <- Hperm at 1. rewrite <- Hsplit at 1.
      by rewrite Permutation_app_comm. }
    change (heap_pop less ls) with (Some (l' !!! n, take n l')). rewrite Hx.
    split_and!; [done|done| |].
    - assert (heap_from 0 n l') as Hf.
      { apply down_loop_heap; [by rewrite swap_perm by lia| |rewrite length_swap; lia|lia..].
        split; [|lia]. intros j Hj _ Hp0. pose proof (parent_lt j).
        rewrite !swap_ne by lia. apply Hh; lia. }
      unfold is_heap. rewrite length_take, Hlen. replace (n `min` length ls) with n by lia.
      intros j Hj Hl. pose proof (parent_lt j).
      rewrite !lookup_total_take_lt by lia. by apply Hf.
    - apply Forall_forall. intros y Hy. apply heap_root_min; [done|].
      rewrite Hp'. set_solver.
  Qed.
  (** The element that is popped is the one at the root. *)
Lemma heap_pop_head a l x l' : heap_pop less (a :: l) = Some (x, l') -> x = a.
  Proof.
    unfold heap_pop. set (ls := a :: l). set (n := length ls - 1). intros [= <- _].
    unfold down. destruct (decide (0 < n)).
    - rewrite down_loop_ge by (rewrite ?length_swap; lia). rewrite swap_r by (unfold n, ls in *; cbn in *; lia). done.
    - replace n with 0 by lia. cbn. done.
  Qed.

Lemma heap_pop_nil l : heap_pop less l = None -> l = [].
  Proof. by destruct l. Qed.

Lemma pop_loop_spec fuel k q out :
    Forall P q -> is_heap q -> length q <= fuel -> length out < k ->
    StronglySorted le out -> (forall x y, x ∈ out -> y ∈ q -> le x y) ->
    exists out' q', pop_loop less fuel k q out = Some (out', q') /\
      out' ++ q' ≡ₚ out ++ q /\ is_heap q' /\
      length out' = k `min` (length out + length q) /\
      StronglySorted le out' /\ (forall x y, x ∈ out' -> y ∈ q' -> le x y).
  Proof.
    revert q out. induction fuel as [|fuel IH]; intros q out HP Hq Hf Hk Hs Hle; simpl.
    { destruct q; [|simpl in Hf; lia]. exists out, [].
      split_and!; auto. simpl. lia. }
    destruct (heap_pop less q) as [[x q']|] eqn:Hpop; last first.
    { apply heap_pop_nil in Hpop as ->. exists out, [].
      split_and!; auto. simpl. lia. }
    destruct (heap_pop_spec q HP Hq) as (x0 & q0 & Hpop' & Hp & Hq' & Hmin).
    { by intros ->. }
    rewrite Hpop in Hpop'. injection Hpop' as <- <-.
    apply Permutation_length in Hp as Hlen. simpl in Hlen.
    assert (Forall P q') as HP' by (rewrite Hp in HP; by inversion HP).
    rewrite (proj2 (Nat.ltb_lt _ _) Hk).
    assert (StronglySorted le (out ++ [x])) as Hs'.
    { apply StronglySorted_app. split_and!; [|done|repeat constructor].
      intros a b Ha ->%list_elem_of_singleton. apply Hle; [done|].
      rewrite Hp. set_solver. }
    assert (forall a b, a ∈ out ++ [x] -> b ∈ q' -> le a b) as Hle'.
    { intros a b [Ha| ->%list_elem_of_singleton]%elem_of_app Hb.
      - apply Hle; [done|]. rewrite Hp. set_solver.
      - rewrite Forall_forall in Hmin. by apply Hmin. }
    assert (length (out ++ [x]) = S (length out)) as Hlo
      by (rewrite length_app; simpl; lia).
    assert ((out ++ [x]) ++ q' ≡ₚ out ++ q) as Hpp
      by (rewrite <- app_assoc; simpl; by rewrite Hp).
    destruct (k <=? _) eqn:Hb; bool_go.
    - exists (out ++ [x]), q'. split_and!; auto. lia.
    - destruct (IH q' (out ++ [x])) as (out' & q'' & E & Pm & Hh & L & S1 & S2); auto; [lia|].
      exists out', q''. split_and!; auto.
      + by rewrite Pm.
      + rewrite L, Hlo. lia.
  Qed.

  (** The loop returns the [k] least elements in ascending order. *)
Lemma pop_upto_spec k q :
    Forall P q -> is_heap q -> 0 < k ->
    exists out rest, pop_upto less k q = Some (out, rest) /\ out ++ rest ≡ₚ q /\
      is_heap rest /\ length out = k `min` length q /\ StronglySorted le out /\
      (forall x y, x ∈ out -> y ∈ rest -> le x y).
  Proof.
    intros HP Hq Hk. unfold pop_upto.
    destruct (pop_loop_spec (length q) k q []) as (o & r & ?); auto.
    - constructor.
    - set_solver.
    - exists o, r. done.
  Qed.

Lemma pop_upto_zero q : q <> [] -> pop_upto less 0 q = None.
  Proof.
    unfold pop_upto. destruct q as [|a q]; [done|]. intros _.
    cbn [length pop_loop]. by destruct (heap_pop less (a :: q)) as [[??]|] eqn:E.
  Qed.
End heap_props.

Arguments is_heap {A _} le l.
