(* ===== verification/Prque.v ===== *)
(** * The priority queue ([src/common/prque])

    A heap of [container/heap] over a stack that is stored in blocks of a fixed
    size.  The stack refines a list; over lists the heap is that of [GoHeap]. *)

From S2P Require Import Prelude GoHeap.
Local Open Scope Z_scope.

Definition blockSize : Z := 4096.

Record prq_item (V : Type) := MkPrq { prq_value : V; prq_priority : Z }.
Arguments MkPrq {V} _ _.
Arguments prq_value {V} _.
Arguments prq_priority {V} _.

#[export] Instance prq_inhabited {V} `{Inhabited V} : Inhabited (prq_item V) := populate (MkPrq inhabitant 0).

Section prque.
  Context {V : Type}.

(** ** The stack *)

(** [ss_active] is the block that the slice [active] shares. *)
Record sstack := MkStack {
  ss_size : Z;
  ss_capacity : Z;
  ss_offset : Z;
  ss_blocks : list (list (option (prq_item V)));
  ss_active : Z;
}.

(** Indexing of slices; [None] is a panic. *)
Definition go_index {A} (l : list A) (i : Z) : option A := if i <? 0 then None else l !! Z.to_nat i.
Definition go_store {A} (l : list A) (i : Z) (x : A) : option (list A) :=
  if (0 <=? i) && (i <? Z.of_nat (length l)) then Some (<[Z.to_nat i := x]> l) else None.

Definition newSstack : sstack := MkStack 0 blockSize 0 [replicate (Z.to_nat blockSize) None] 0.

Definition ss_Push (s : sstack) (x : prq_item V) : option sstack :=
  let s :=
    if ss_size s =? ss_capacity s then
      MkStack (ss_size s) (ss_capacity s + blockSize) 0 (ss_blocks s ++ [replicate (Z.to_nat blockSize) None])
        (Z.of_nat (length (ss_blocks s)))
    else if ss_offset s =? blockSize then
      MkStack (ss_size s) (ss_capacity s) 0 (ss_blocks s) (Z.quot (ss_size s) blockSize)
    else s in
  blk ← go_index (ss_blocks s) (ss_active s);
  blk ← go_store blk (ss_offset s) (Some x);
  blocks ← go_store (ss_blocks s) (ss_active s) blk;
  Some (MkStack (ss_size s + 1) (ss_capacity s) (ss_offset s + 1) blocks (ss_active s)).

Definition ss_Pop (s : sstack) : option (option (prq_item V) * sstack) :=
  let size := ss_size s - 1 in
  let '(offset, active) :=
    if ss_offset s - 1 <? 0 then (blockSize - 1, Z.quot size blockSize) else (ss_offset s - 1, ss_active s) in
  blk ← go_index (ss_blocks s) active;
  res ← go_index blk offset;
  blk ← go_store blk offset None;
  blocks ← go_store (ss_blocks s) active blk;
  Some (res, MkStack size (ss_capacity s) offset blocks active).

Definition ss_Len (s : sstack) : Z := ss_size s.

Definition ss_get (s : sstack) (i : Z) : option (option (prq_item V)) :=
  blk ← go_index (ss_blocks s) (Z.quot i blockSize); go_index blk (Z.rem i blockSize).
Definition ss_set (s : sstack) (i : Z) (x : option (prq_item V)) : option sstack :=
  blk ← go_index (ss_blocks s) (Z.quot i blockSize);
  blk ← go_store blk (Z.rem i blockSize) x;
  blocks ← go_store (ss_blocks s) (Z.quot i blockSize) blk;
  Some (MkStack (ss_size s) (ss_capacity s) (ss_offset s) blocks (ss_active s)).

(** A nil item is dereferenced; the difference is an [int64]. *)
Definition prq_less (x y : prq_item V) : bool := 0 <? s64 (prq_priority x - prq_priority y).

Definition ss_Less (s : sstack) (i j : Z) : option bool :=
  ox ← ss_get s i; x ← ox; oy ← ss_get s j; y ← oy; Some (prq_less x y).

Definition ss_Swap (s : sstack) (i j : Z) : option sstack :=
  a ← ss_get s j; b ← ss_get s i;
  s ← ss_set s i a; ss_set s j b.

(** ** The queue *)

Definition prq_Push `{Inhabited V} (q : list (prq_item V)) (v : V) (priority : Z) : list (prq_item V) :=
  heap_push prq_less q (MkPrq v priority).
Definition prq_PopItem `{Inhabited V} (q : list (prq_item V)) : option (V * list (prq_item V)) :=
  '(x, q) ← heap_pop prq_less q; Some (prq_value x, q).

(** ** The stack is a list *)

Definition cell (s : sstack) (i : nat) : option (option (prq_item V)) :=
  blk ← ss_blocks s !! (i / Z.to_nat blockSize)%nat; blk !! (i mod Z.to_nat blockSize)%nat.

Record stack_rep (s : sstack) (l : list (prq_item V)) : Prop := MkRep {
  sr_blocks : Forall (fun blk => length blk = Z.to_nat blockSize) (ss_blocks s);
  sr_capacity : ss_capacity s = blockSize * Z.of_nat (length (ss_blocks s));
  sr_size : ss_size s = Z.of_nat (length l);
  sr_bound : ss_size s <= ss_capacity s;
  sr_cells : forall i x, l !! i = Some x -> cell s i = Some (Some x);
  sr_active : 0 <= ss_active s < Z.of_nat (length (ss_blocks s));
  sr_offset : 0 <= ss_offset s <= blockSize;
  sr_position : blockSize * ss_active s + ss_offset s = ss_size s;
}.

Lemma go_index_nat {A} (l : list A) (i : Z) : 0 <= i -> go_index l i = l !! Z.to_nat i.
Proof. intros H. unfold go_index. by rewrite (proj2 (Z.ltb_ge _ _)). Qed.
Lemma go_store_nat {A} (l : list A) (i : Z) x : 0 <= i < Z.of_nat (length l) -> go_store l i x = Some (<[Z.to_nat i := x]> l).
Proof. intros H. unfold go_store. rewrite (proj2 (Z.leb_le _ _)), (proj2 (Z.ltb_lt _ _)) by lia. done. Qed.

Lemma index_split (i : Z) :
  0 <= i -> Z.to_nat (Z.quot i blockSize) = (Z.to_nat i / Z.to_nat blockSize)%nat /\
  Z.to_nat (Z.rem i blockSize) = (Z.to_nat i mod Z.to_nat blockSize)%nat /\ 0 <= Z.quot i blockSize /\ 0 <= Z.rem i blockSize < blockSize.
Proof.
  intros H. rewrite Z.quot_div_nonneg, Z.rem_mod_nonneg by (unfold blockSize; lia).
  rewrite Z2Nat.inj_div, Z2Nat.inj_mod by (unfold blockSize; lia). unfold blockSize.
  pose proof (Z.mod_pos_bound i 4096 ltac:(lia)). pose proof (Z.div_pos i 4096 ltac:(lia) ltac:(lia)). done.
Qed.

(** Writing cell [n] of a stack. *)
Lemma store_cell (s : sstack) (n : nat) (x : option (prq_item V)) :
  Forall (fun blk => length blk = Z.to_nat blockSize) (ss_blocks s) -> Z.of_nat n < blockSize * Z.of_nat (length (ss_blocks s)) ->
  exists blk blocks,
    ss_blocks s !! (n / Z.to_nat blockSize)%nat = Some blk /\ length blk = Z.to_nat blockSize /\
    blocks = <[(n / Z.to_nat blockSize)%nat := <[(n mod Z.to_nat blockSize)%nat := x]> blk]> (ss_blocks s) /\
    Forall (fun blk => length blk = Z.to_nat blockSize) blocks /\
    forall size cap off act i, cell (MkStack size cap off blocks act) i = if decide (i = n) then Some x else cell s i.
Proof.
  intros Hb Hn. assert (Z.to_nat blockSize <> 0)%nat as Hbs by (unfold blockSize; lia).
  assert (n / Z.to_nat blockSize < length (ss_blocks s))%nat as Hk.
  { apply Nat.Div0.div_lt_upper_bound. unfold blockSize in *. lia. }
  destruct (lookup_lt_is_Some_2 _ _ Hk) as [blk Hblk]. pose proof (Forall_lookup_1 _ _ _ _ Hb Hblk) as Hlen. cbn in Hlen.
  pose proof (Nat.mod_upper_bound n _ Hbs) as Hm. exists blk. eexists. split_and!; [done|done|done| |].
  - apply Forall_insert; [done|]. by rewrite length_insert.
  - intros size cap off act i. unfold cell. cbn. destruct (decide (i = n)) as [->|Hne].
    + rewrite list_lookup_insert_eq by done. cbn. by rewrite list_lookup_insert_eq by lia.
    + destruct (decide (i / Z.to_nat blockSize = n / Z.to_nat blockSize)%nat) as [E|E].
      * rewrite E, list_lookup_insert_eq, Hblk by done. cbn. rewrite list_lookup_insert_ne; [done|]. intros E'. apply Hne.
        rewrite (Nat.div_mod_eq i (Z.to_nat blockSize)), (Nat.div_mod_eq n (Z.to_nat blockSize)). congruence.
      * by rewrite list_lookup_insert_ne by done.
Qed.

Lemma active_index (a o : Z) :
  0 <= a -> 0 <= o < blockSize ->
  Z.to_nat a = (Z.to_nat (blockSize * a + o) / Z.to_nat blockSize)%nat /\ Z.to_nat o = (Z.to_nat (blockSize * a + o) mod Z.to_nat blockSize)%nat.
Proof.
  intros Ha Ho. destruct (index_split (blockSize * a + o)) as (<- & <- & _); [unfold blockSize in *; lia|].
  unfold blockSize in *. rewrite Z.quot_div_nonneg, Z.rem_mod_nonneg by lia.
  rewrite <- (Z.div_unique _ _ a o), <- (Z.mod_unique _ _ a o) by lia. done.
Qed.

Lemma newSstack_rep : stack_rep newSstack [].
Proof. split; cbn; try (unfold blockSize; lia); try done. repeat constructor. Qed.

(** Each operation of the interface of the heap does to the stack what it does
    to the list. *)
Lemma ss_Push_rep s l x : stack_rep s l -> exists s', ss_Push s x = Some s' /\ stack_rep s' (l ++ [x]).
Proof.
  intros Hr. unfold ss_Push.
  set (s1 := if ss_size s =? ss_capacity s then _ else _).
  assert (stack_rep s1 l /\ ss_offset s1 < blockSize) as [[H1 H2 H3 H4 H5 H6 H7 H8] Ho].
  { destruct Hr as [H1 H2 H3 H4 H5 H6 H7 H8]. unfold s1. destruct (Z.eqb_spec (ss_size s) (ss_capacity s)) as [E|E].
    - split; [|cbn; unfold blockSize; lia]. split; cbn; try (rewrite ?length_app; cbn; unfold blockSize in *; lia); try done.
      + apply Forall_app. split; [done|]. repeat constructor.
      + intros i y Hy. specialize (H5 i y Hy). unfold cell in *. cbn. destruct (ss_blocks s !! _) eqn:Eb; [|done].
        by rewrite (lookup_app_l_Some _ _ _ _ Eb).
    - destruct (Z.eqb_spec (ss_offset s) blockSize) as [E'|E']; [|split; [done|lia]].
      assert (Z.quot (ss_size s) blockSize = ss_active s + 1) as Eq.
      { rewrite Z.quot_div_nonneg by (unfold blockSize; lia). symmetry. apply (Z.div_unique _ _ _ 0); unfold blockSize in *; lia. }
      rewrite Eq. split; [|cbn; unfold blockSize; lia]. split; cbn; try (unfold blockSize in *; lia); done. }
  clearbody s1. clear s Hr. rename s1 into s.
  destruct (active_index (ss_active s) (ss_offset s)) as [Ea Eo]; [lia|lia|]. rewrite H8 in Ea, Eo.
  destruct (store_cell s (Z.to_nat (ss_size s)) (Some x)) as (blk & blocks & Hb & Hl & Hbl & Hf & Hc); [done|unfold blockSize in *; lia|].
  rewrite <- Ea, <- Eo in *. rewrite go_index_nat, Hb by lia. cbn. rewrite go_store_nat by (rewrite Hl; unfold blockSize in *; lia). cbn.
  rewrite go_store_nat by lia. cbn. rewrite <- Hbl. eexists. split; [done|].
  assert (length blocks = length (ss_blocks s)) as Hlb by (by rewrite Hbl, length_insert).
  split; cbn; rewrite ?Hlb, ?length_app; cbn; try (unfold blockSize in *; lia); try done.
  intros i y Hy. rewrite Hc. rewrite H3, Nat2Z.id. destruct (decide (i = length l)) as [->|Hne].
  - rewrite lookup_app_r, Nat.sub_diag in Hy by lia. by injection Hy as ->.
  - apply H5. apply lookup_app_Some in Hy as [?|[? Hy]]; [done|]. apply list_lookup_singleton_Some in Hy as [? _]. lia.
Qed.

Lemma ss_Pop_rep s l x : stack_rep s (l ++ [x]) -> exists s', ss_Pop s = Some (Some x, s') /\ stack_rep s' l.
Proof.
  intros [H1 H2 H3 H4 H5 H6 H7 H8]. unfold ss_Pop. rewrite length_app in H3. cbn in H3.
  set (oa := if ss_offset s - 1 <? 0 then _ else _).
  assert (0 <= oa.1 < blockSize /\ 0 <= oa.2 < Z.of_nat (length (ss_blocks s)) /\ blockSize * oa.2 + oa.1 = ss_size s - 1) as (Ho & Ha & Hp).
  { unfold oa. destruct (Z.ltb_spec (ss_offset s - 1) 0) as [E|E]; cbn; [|unfold blockSize in *; lia].
    assert (Z.quot (ss_size s - 1) blockSize = ss_active s - 1) as ->; [|unfold blockSize in *; lia].
    rewrite Z.quot_div_nonneg by (unfold blockSize; lia). symmetry. apply (Z.div_unique _ _ _ (blockSize - 1)); unfold blockSize in *; lia. }
  clearbody oa. destruct oa as [o a]. cbn in Ho, Ha, Hp.
  destruct (active_index a o) as [Ea Eo]; [lia|lia|]. rewrite Hp in Ea, Eo.
  destruct (store_cell s (Z.to_nat (ss_size s - 1)) None) as (blk & blocks & Hb & Hl & Hbl & Hf & Hc); [done|unfold blockSize in *; lia|].
  assert (cell s (length l) = Some (Some x)) as Hx by (apply H5; by rewrite lookup_app_r, Nat.sub_diag by lia).
  unfold cell in Hx. replace (length l) with (Z.to_nat (ss_size s - 1)) in Hx by lia.
  rewrite <- Ea, <- Eo in *. rewrite Hb in Hx. cbn in Hx.
  rewrite go_index_nat, Hb by lia. cbn. rewrite go_index_nat, Hx by lia. cbn.
  rewrite go_store_nat by (rewrite Hl; unfold blockSize in *; lia). cbn. rewrite go_store_nat by lia. cbn. rewrite <- Hbl. eexists. split; [done|].
  assert (length blocks = length (ss_blocks s)) as Hlb by (by rewrite Hbl, length_insert).
  split; cbn; rewrite ?Hlb; try (unfold blockSize in *; lia); try done.
  intros i y Hy. rewrite Hc. pose proof (lookup_lt_Some _ _ _ Hy). rewrite decide_False by lia. apply H5. by apply lookup_app_l_Some.
Qed.

Lemma ss_get_rep s l i x : stack_rep s l -> l !! i = Some x -> ss_get s (Z.of_nat i) = Some (Some x).
Proof.
  intros Hr Hi. pose proof (sr_cells _ _ Hr i x Hi) as Hc. unfold ss_get. destruct (index_split (Z.of_nat i)) as (E1 & E2 & H1 & H2); [lia|].
  rewrite go_index_nat by done. rewrite E1, Nat2Z.id. unfold cell in Hc. destruct (ss_blocks s !! _); [|done]. cbn in *.
  rewrite go_index_nat by lia. by rewrite E2, Nat2Z.id.
Qed.

Lemma ss_set_rep s l i x : stack_rep s l -> (i < length l)%nat -> exists s', ss_set s (Z.of_nat i) (Some x) = Some s' /\ stack_rep s' (<[i := x]> l).
Proof.
  intros [H1 H2 H3 H4 H5 H6 H7 H8] Hi. unfold ss_set. destruct (index_split (Z.of_nat i)) as (E1 & E2 & P1 & P2); [lia|].
  destruct (store_cell s i (Some x)) as (blk & blocks & Hb & Hl & Hbl & Hf & Hc); [done|lia|].
  rewrite Nat2Z.id in E1, E2. rewrite <- E1, <- E2 in *. pose proof (lookup_lt_Some _ _ _ Hb).
  rewrite go_index_nat, Hb by lia. cbn. rewrite go_store_nat by (rewrite Hl; unfold blockSize in *; lia). cbn.
  rewrite go_store_nat by lia. cbn. rewrite <- Hbl. eexists. split; [done|].
  assert (length blocks = length (ss_blocks s)) as Hlb by (by rewrite Hbl, length_insert).
  split; cbn; rewrite ?Hlb, ?length_insert; try done. intros j y Hy. rewrite Hc. case_decide as E.
  - subst j. rewrite list_lookup_insert_eq in Hy by done. congruence.
  - rewrite list_lookup_insert_ne in Hy by done. by apply H5.
Qed.

Lemma ss_Swap_rep s l i j x y :
  stack_rep s l -> l !! i = Some x -> l !! j = Some y ->
  exists s', ss_Swap s (Z.of_nat i) (Z.of_nat j) = Some s' /\ stack_rep s' (<[j := x]> (<[i := y]> l)).
Proof.
  intros Hr Hi Hj. unfold ss_Swap. rewrite (ss_get_rep s l j y), (ss_get_rep s l i x) by done. cbn.
  destruct (ss_set_rep s l i y Hr (lookup_lt_Some _ _ _ Hi)) as (s1 & -> & Hr1). cbn. apply ss_set_rep; [done|].
  rewrite length_insert. by eapply lookup_lt_Some.
Qed.

(** The calls of a heap on its container, and their results on the list. *)
Inductive stack_op := SPush (x : prq_item V) | SPop | SSwap (i j : nat) | SLess (i j : nat) | SLen.
Inductive stack_out := ONone | OItem (x : option (prq_item V)) | OBool (b : bool) | OInt (n : Z).

Definition list_call (l : list (prq_item V)) (o : stack_op) : option (stack_out * list (prq_item V)) :=
  match o with
  | SPush x => Some (ONone, l ++ [x])
  | SPop => x ← last l; Some (OItem (Some x), take (length l - 1) l)
  | SSwap i j => x ← l !! i; y ← l !! j; Some (ONone, <[j := x]> (<[i := y]> l))
  | SLess i j => x ← l !! i; y ← l !! j; Some (OBool (prq_less x y), l)
  | SLen => Some (OInt (Z.of_nat (length l)), l)
  end.

Definition stack_call (s : sstack) (o : stack_op) : option (stack_out * sstack) :=
  match o with
  | SPush x => s ← ss_Push s x; Some (ONone, s)
  | SPop => '(x, s) ← ss_Pop s; Some (OItem x, s)
  | SSwap i j => s ← ss_Swap s (Z.of_nat i) (Z.of_nat j); Some (ONone, s)
  | SLess i j => b ← ss_Less s (Z.of_nat i) (Z.of_nat j); Some (OBool b, s)
  | SLen => Some (OInt (ss_Len s), s)
  end.

Fixpoint calls {S} (call : S -> stack_op -> option (stack_out * S)) (s : S) (ops : list stack_op) : option (list stack_out * S) :=
  match ops with
  | [] => Some ([], s)
  | o :: ops => '(r, s) ← call s o; '(rs, s) ← calls call s ops; Some (r :: rs, s)
  end.

Lemma stack_call_rep s l o r l' :
  stack_rep s l -> list_call l o = Some (r, l') -> exists s', stack_call s o = Some (r, s') /\ stack_rep s' l'.
Proof.
  intros Hr. destruct o as [x| |i j|i j|]; cbn.
  - intros [= <- <-]. destruct (ss_Push_rep s l x Hr) as (s' & -> & Hs). by exists s'.
  - destruct (last l) as [x|] eqn:El; [|done]. intros [= <- <-]. apply last_Some in El as [l0 ->].
    destruct (ss_Pop_rep s l0 x Hr) as (s' & -> & Hs). exists s'. split; [done|].
    rewrite length_app, Nat.add_sub. by rewrite take_app_length.
  - destruct (l !! i) as [x|] eqn:Ei; [|done]. destruct (l !! j) as [y|] eqn:Ej; [|done]. intros [= <- <-].
    destruct (ss_Swap_rep s l i j x y Hr Ei Ej) as (s' & -> & Hs). by exists s'.
  - destruct (l !! i) as [x|] eqn:Ei; [|done]. destruct (l !! j) as [y|] eqn:Ej; [|done]. intros [= <- <-].
    exists s. unfold ss_Less. by rewrite (ss_get_rep s l i x), (ss_get_rep s l j y).
  - intros [= <- <-]. exists s. split; [|done]. unfold ss_Len. by rewrite (sr_size _ _ Hr).
Qed.

(** C39. The stack in blocks behaves as a list: for every sequence of calls that a
    heap can make on its container, no index is out of range, no nil item is
    read, and all results are those of the list, across the boundaries of
    the blocks in both directions. *)
Theorem sstack_refines ops outs l :
  calls list_call [] ops = Some (outs, l) -> exists s, calls stack_call newSstack ops = Some (outs, s) /\ stack_rep s l.
Proof.
  generalize newSstack_rep. generalize newSstack. generalize (@nil (prq_item V)). revert outs l.
  induction ops as [|o ops IH]; intros outs l' l s Hr; cbn.
  - intros [= <- <-]. by exists s.
  - destruct (list_call l o) as [[r l1]|] eqn:E; [|done]. cbn. destruct (calls list_call l1 ops) as [[rs l2]|] eqn:Es; [|done].
    intros [= <- <-]. destruct (stack_call_rep s l o r l1 Hr E) as (s1 & -> & Hr1). cbn.
    destruct (IH rs l2 l1 s1 Hr1 Es) as (s2 & -> & Hr2). by exists s2.
Qed.

(** ** The queue pops the highest priority *)

Definition prq_ok (x : prq_item V) : Prop := - 2 ^ 62 < prq_priority x < 2 ^ 62.
Definition prq_le (x y : prq_item V) : Prop := prq_priority y <= prq_priority x.

#[export] Instance prq_order : HeapOrder prq_ok prq_less prq_le.
Proof.
  split.
  - split; [intros x; unfold prq_le; lia|intros x y z; unfold prq_le; lia].
  - unfold prq_ok, prq_less, prq_le. intros x y Hx Hy. rewrite s64_id by lia. intros ?%Z.ltb_lt. lia.
  - unfold prq_ok, prq_less, prq_le. intros x y Hx Hy. rewrite s64_id by lia. intros ?%Z.ltb_ge. lia.
Qed.

Lemma prq_Push_spec `{Inhabited V} q v p :
  Forall prq_ok q -> is_heap prq_le q -> prq_ok (MkPrq v p) ->
  prq_Push q v p ≡ₚ MkPrq v p :: q /\ is_heap prq_le (prq_Push q v p).
Proof. intros H1 H2 H3. by apply (heap_push_spec (P := prq_ok)). Qed.

Lemma prq_PopItem_spec `{Inhabited V} q :
  Forall prq_ok q -> is_heap prq_le q -> q <> [] ->
  exists x q', prq_PopItem q = Some (prq_value x, q') /\ q ≡ₚ x :: q' /\ is_heap prq_le q' /\ Forall (prq_le x) q'.
Proof.
  intros H1 H2 H3. destruct (heap_pop_spec (P := prq_ok) (less := prq_less) (le := prq_le) q H1 H2 H3) as (x & q' & E & Hp & Hh & Hl).
  exists x, q'. unfold prq_PopItem. rewrite E. done.
Qed.
End prque.

Definition demo_ops : list (stack_op (V := nat)) :=
  [SPush (MkPrq 7%nat 1); SPush (MkPrq 8%nat 5); SLess 1 0; SSwap 0 1; SPop; SLen].

Lemma sstack_refines_witness :
  exists s, calls stack_call newSstack demo_ops
    = Some ([ONone; ONone; OBool true; ONone; OItem (Some (MkPrq 7%nat 1)); OInt 1], s) /\ stack_rep s [MkPrq 8%nat 5].
Proof. apply sstack_refines. reflexivity. Defined.
