(* ===== verification/KadId.v ===== *)
(** * Kademlia identities ([src/ndn/kad/common.go])

    Identities are arrays of [ADDRBYTES] bytes; the overlay orders peers by
    the exclusive-or metric.  The file defines the comparison [DistCmp] and the
    logarithmic distance [LogDist] as the byte loops of the source and relates
    them to the distance as one big-endian integer. *)

From S2P Require Import Prelude Bytes.
Local Open Scope Z_scope.

Definition KADEMLIA_ALPHA : nat := 3.
Definition ADDRBYTES : nat := 20.
Definition ADDRBITS : Z := Z.of_nat ADDRBYTES * 8.
Definition BUCKETSIZE : nat := 10.
Definition REPSIZE : nat := 5.
Definition NUMBUCKETS : Z := ADDRBITS / 15.
Definition BUCKETMINDISTANCE : Z := ADDRBITS - NUMBUCKETS.

Abbreviation ID := (list Z) (only parsing).

Definition id_ok (id : list Z) : Prop := length id = ADDRBYTES /\ Forall byte_ok id.

(** Executable form of [id_ok]. *)
Definition id_okb (id : list Z) : bool :=
  (length id =? ADDRBYTES)%nat && forallb (fun b => (0 <=? b) && (b <? 256)) id.

Lemma id_okb_ok id : id_okb id = true -> id_ok id.
Proof.
  intros H. apply andb_true_iff in H as [H1 H2]. apply Nat.eqb_eq in H1.
  split; [done|]. rewrite forallb_forall in H2. apply Forall_forall.
  intros b Hb%list_elem_of_In%H2. bool_go. unfold byte_ok. lia.
Qed.

(** ** Hexadecimal names of identities *)

Definition hextable (d : Z) : Z := if d <? 10 then 48 + d else 87 + d.

Definition fromHexChar (c : Z) : option Z :=
  if (48 <=? c) && (c <=? 57) then Some (c - 48)
  else if (97 <=? c) && (c <=? 102) then Some (c - 97 + 10)
  else if (65 <=? c) && (c <=? 70) then Some (c - 65 + 10)
  else None.

(** [hex.EncodeToString]. *)
Fixpoint hex_encode (b : list Z) : list Z :=
  match b with
  | [] => []
  | v :: b => hextable (Z.shiftr v 4) :: hextable (Z.land v 15) :: hex_encode b
  end.

(** [hex.DecodeString]: an error on a bad character or an odd length. *)
Fixpoint hex_decode (s : list Z) : option (list Z) :=
  match s with
  | [] => Some []
  | [_] => None
  | a :: b :: s =>
    match fromHexChar a, fromHexChar b, hex_decode s with
    | Some x, Some y, Some r => Some (Z.lor (Z.shiftl x 4) y :: r)
    | _, _, _ => None
    end
  end.

(** [copy(dst[:], src)] into a fresh array of [n] zero bytes. *)
Definition copy_array (n : nat) (src : list Z) : list Z :=
  take n src ++ replicate (n - length src) 0.

Definition ID_String (id : list Z) : list Z := hex_encode id.

Definition IdFromHexString (s : list Z) : option (list Z) :=
  match hex_decode s with
  | Some b => Some (copy_array ADDRBYTES b)
  | None => None
  end.

(** Hash functions come from outside the repository. *)
Section hashing.
  Context (keccak256 sha256 : list Z -> list Z).

Definition MakeID (pub prefix : list Z) : list Z :=
  copy_array ADDRBYTES (keccak256 (pub ++ prefix)).

(** [RandomId]: [lottery] is [rand.Intn(100)] and [digits] the decimal text of
    [rand.Uint64()]. *)
Definition RandomId (lottery : Z) (digits : list Z) (seed : list Z) : list Z :=
  if lottery <? 75 then seed
  else copy_array ADDRBYTES (take ADDRBYTES (sha256 (digits ++ seed))).
End hashing.

(** ** The metric *)

Fixpoint DistCmp (target a b : list Z) : Z :=
  match target, a, b with
  | t :: target, x :: a, y :: b =>
    let da := Z.lxor x t in
    let db := Z.lxor y t in
    if db <? da then 1 else if da <? db then -1 else DistCmp target a b
  | _, _, _ => 0
  end.

(** [bits.LeadingZeros8]. *)
Definition bitlen (x : Z) : Z := if x =? 0 then 0 else Z.log2 x + 1.
Definition LeadingZeros8 (x : Z) : Z := 8 - bitlen x.

Fixpoint lz_loop (a b : list Z) : Z :=
  match a, b with
  | x :: a, y :: b =>
    let d := Z.lxor x y in
    if d =? 0 then 8 + lz_loop a b else LeadingZeros8 d
  | _, _ => 0
  end.

Definition LogDist (a b : list Z) : Z := Z.of_nat (length a) * 8 - lz_loop a b.

Definition min_int (x y : Z) : Z := if x <? y then x else y.

(** The distance as one number. *)
Definition xor_bytes (a b : list Z) : list Z := zip_with Z.lxor a b.
Definition distance (a b : list Z) : Z := be_value (xor_bytes a b).

(** ** Lemmas *)

Lemma lxor_byte x y : byte_ok x -> byte_ok y -> byte_ok (Z.lxor x y).
Proof.
  intros Hx Hy. apply byte_of_bits.
  - apply Z.lxor_nonneg. unfold byte_ok in *. lia.
  - intros i Hi. by rewrite Z.lxor_spec, !byte_testbit.
Qed.

Lemma xor_bytes_ok a b : Forall byte_ok a -> Forall byte_ok b -> Forall byte_ok (xor_bytes a b).
Proof.
  intros Ha. revert b. induction Ha as [|x a Hx Ha IH]; intros b Hb; [constructor|].
  destruct Hb as [|y b Hy Hb]; [constructor|].
  constructor; [by apply lxor_byte|by apply IH].
Qed.

Lemma length_xor_bytes a b : length a = length b -> length (xor_bytes a b) = length a.
Proof. intros. unfold xor_bytes. rewrite length_zip_with. lia. Qed.

Lemma lxor_cancel x y t : Z.lxor x t = Z.lxor y t -> x = y.
Proof.
  intros E. apply (f_equal (fun z => Z.lxor z t)) in E.
  by rewrite !Z.lxor_assoc, Z.lxor_nilpotent, !Z.lxor_0_r in E.
Qed.

Lemma xor_bytes_inj a b t :
  length a = length t -> length b = length t -> xor_bytes a t = xor_bytes b t -> a = b.
Proof.
  revert b t. induction a as [|x a IH]; intros [|y b] [|z t] Ha Hb; try done.
  simpl. intros [= E1 E2]. f_equal; [by eapply lxor_cancel|].
  eapply IH; [..|exact E2]; simpl in *; lia.
Qed.

Lemma distance_inj t a b :
  id_ok t -> id_ok a -> id_ok b -> distance a t = distance b t -> a = b.
Proof.
  intros [Lt Ot] [La Oa] [Lb Ob] E. apply (xor_bytes_inj a b t); [lia..|].
  apply be_value_inj; [by apply xor_bytes_ok..| |done].
  rewrite !length_xor_bytes by lia. lia.
Qed.

(** [DistCmp] compares the distances to the target. *)
Lemma DistCmp_spec target a b :
  Forall byte_ok target -> Forall byte_ok a -> Forall byte_ok b ->
  length a = length target -> length b = length target ->
  DistCmp target a b =
    match distance a target ?= distance b target with Lt => -1 | Eq => 0 | Gt => 1 end.
Proof.
  intros Ht. revert a b. induction Ht as [|t target Ht Hts IH];
    intros [|x a] [|y b] Ha Hb La Lb; try done.
  apply Forall_cons in Ha as [Hx Ha], Hb as [Hy Hb]. simpl in La, Lb.
  cbn [DistCmp]. unfold distance, xor_bytes in *. cbn [zip_with be_value].
  pose proof (be_value_bound _ (xor_bytes_ok _ _ Ha Hts)) as Ba.
  pose proof (be_value_bound _ (xor_bytes_ok _ _ Hb Hts)) as Bb.
  unfold xor_bytes in *. rewrite !length_zip_with in *.
  replace (length a `min` length target)%nat with (length target) in * by lia.
  replace (length b `min` length target)%nat with (length target) in * by lia.
  set (P := 256 ^ Z.of_nat (length target)) in *.
  set (va := be_value (zip_with Z.lxor a target)) in *.
  set (vb := be_value (zip_with Z.lxor b target)) in *.
  destruct (Z.lxor y t <? Z.lxor x t) eqn:E1; bool_go.
  { rewrite (proj2 (Z.compare_gt_iff _ _)); [done|]. nia. }
  destruct (Z.lxor x t <? Z.lxor y t) eqn:E2; bool_go.
  { rewrite (proj2 (Z.compare_lt_iff _ _)); [done|]. nia. }
  replace (Z.lxor y t) with (Z.lxor x t) by lia.
  rewrite IH by (auto; lia). fold va vb.
  destruct (Z.compare_spec va vb) as [E|E|E].
  - by rewrite E, Z.compare_refl.
  - by rewrite (proj2 (Z.compare_lt_iff _ _)) by lia.
  - by rewrite (proj2 (Z.compare_gt_iff _ _)) by lia.
Qed.

Lemma DistCmp_le target a b :
  id_ok target -> id_ok a -> id_ok b ->
  (DistCmp target a b <=? 0) = (distance a target <=? distance b target).
Proof.
  intros [Lt Ot] [La Oa] [Lb Ob].
  rewrite DistCmp_spec by (auto; lia).
  destruct (Z.compare_spec (distance a target) (distance b target)); symmetry.
  - apply Z.leb_le. lia.
  - apply Z.leb_le. lia.
  - apply Z.leb_gt. lia.
Qed.

Lemma bitlen_range x : 0 <= x < 256 -> 0 <= bitlen x <= 8.
Proof.
  intros Hx. unfold bitlen. destruct (x =? 0) eqn:E; bool_go; [lia|].
  pose proof (Z.log2_nonneg x).
  assert (Z.log2 x < 8) by (apply (Z.log2_lt_pow2 x 8); lia). lia.
Qed.

(** Multiplying by a power of 256 and adding a smaller number. *)
Lemma log2_shift_add d v n :
  0 < d -> 0 <= v < 256 ^ n -> 0 <= n ->
  Z.log2 (d * 256 ^ n + v) = Z.log2 d + 8 * n.
Proof.
  intros Hd Hv Hn.
  assert (256 ^ n = 2 ^ (8 * n)) as Ep by (by rewrite Z.pow_mul_r by lia).
  rewrite Ep in *.
  pose proof (Z.log2_spec d Hd) as [L1 L2].
  pose proof (Z.log2_nonneg d).
  apply Z.log2_unique; [lia|].
  rewrite <- Z.add_succ_l, !Z.pow_add_r by lia. nia.
Qed.

(** [LogDist] is the bit length of the distance. *)
Lemma LogDist_spec a b :
  Forall byte_ok a -> Forall byte_ok b -> length a = length b ->
  LogDist a b = bitlen (distance a b).
Proof.
  intros Ha. revert b. unfold LogDist, distance, xor_bytes.
  induction Ha as [|x a Hx Ha IH]; intros [|y b] Hb Hl; try done.
  apply Forall_cons in Hb as [Hy Hb]. simpl in Hl.
  cbn [lz_loop zip_with be_value]. rewrite length_zip_with, Nat.min_l by lia.
  pose proof (be_value_bound _ (xor_bytes_ok _ _ Ha Hb)) as Bv.
  unfold xor_bytes in Bv. rewrite length_zip_with, Nat.min_l in Bv by lia.
  pose proof (lxor_byte _ _ Hx Hy) as Hd. unfold byte_ok in Hd.
  destruct (Z.lxor x y =? 0) eqn:E; bool_go.
  - rewrite E, Z.mul_0_l, Z.add_0_l. rewrite <- IH by (auto; lia).
    cbn [length]. lia.
  - unfold LeadingZeros8, bitlen.
    rewrite (proj2 (Z.eqb_neq _ _) E), (proj2 (Z.eqb_neq _ 0)) by nia.
    rewrite log2_shift_add by lia. cbn [length]. lia.
Qed.

Lemma xor_bytes_comm a b : xor_bytes a b = xor_bytes b a.
Proof.
  unfold xor_bytes. revert b. induction a as [|x a IH]; intros [|y b]; try done.
  simpl. by rewrite Z.lxor_comm, IH.
Qed.

Lemma LogDist_range a b : id_ok a -> id_ok b -> 0 <= LogDist a b <= ADDRBITS.
Proof.
  intros [La Oa] [Lb Ob]. unfold LogDist, ADDRBITS. rewrite La.
  assert (forall a b, Forall byte_ok a -> Forall byte_ok b -> length a = length b ->
            0 <= lz_loop a b <= Z.of_nat (length a) * 8) as Hlz.
  { clear. intros a b Ha. revert b. induction Ha as [|x a Hx Ha IH];
      intros [|y b] Hb Hl; try done.
    apply Forall_cons in Hb as [Hy Hb]. simpl in Hl. cbn [lz_loop length].
    destruct (_ =? 0) eqn:E; bool_go.
    - specialize (IH b Hb ltac:(lia)). lia.
    - pose proof (bitlen_range _ (lxor_byte _ _ Hx Hy)). unfold LeadingZeros8. lia. }
  specialize (Hlz a b Oa Ob ltac:(lia)). rewrite La in Hlz. lia.
Qed.

(** *** Hexadecimal *)

Lemma hextable_fromHexChar d : 0 <= d < 16 -> fromHexChar (hextable d) = Some d.
Proof.
  intros Hd. unfold hextable, fromHexChar.
  destruct (d <? 10) eqn:E; bool_go.
  - rewrite (proj2 (andb_true_iff _ _)); [f_equal; lia|split; apply Z.leb_le; lia].
  - rewrite (proj2 (andb_false_iff _ _)) by (right; apply Z.leb_gt; lia).
    rewrite (proj2 (andb_true_iff _ _)); [f_equal; lia|split; apply Z.leb_le; lia].
Qed.

Lemma nibbles_join v : 0 <= v < 256 -> Z.lor (Z.shiftl (Z.shiftr v 4) 4) (Z.land v 15) = v.
Proof.
  intros Hv. change 15 with (Z.ones 4). apply Z.bits_inj'. intros n Hn.
  rewrite Z.lor_spec, Z.land_spec.
  destruct (decide (n < 4)).
  - rewrite Z.shiftl_spec_low, Z.ones_spec_low by lia. simpl. by rewrite andb_true_r.
  - rewrite Z.shiftl_spec_high, Z.shiftr_spec, Z.ones_spec_high, andb_false_r, orb_false_r by lia.
    f_equal. lia.
Qed.

Lemma hex_roundtrip b : Forall byte_ok b -> hex_decode (hex_encode b) = Some b.
Proof.
  induction 1 as [|v b Hv Hb IH]; [done|]. cbn [hex_encode hex_decode].
  unfold byte_ok in Hv.
  rewrite !hextable_fromHexChar, IH.
  - by rewrite nibbles_join.
  - change 15 with (Z.ones 4). rewrite Z.land_ones by lia. apply Z.mod_pos_bound. lia.
  - rewrite Z.shiftr_div_pow2 by lia. change (2 ^ 4) with 16. split.
    + apply Z.div_pos; lia.
    + apply Z.div_lt_upper_bound; lia.
Qed.

Lemma copy_array_id n l : length l = n -> copy_array n l = l.
Proof.
  intros <-. unfold copy_array. rewrite take_ge, Nat.sub_diag by lia. apply app_nil_r.
Qed.

Lemma length_copy_array n l : length (copy_array n l) = n.
Proof. unfold copy_array. rewrite length_app, length_take, length_replicate. lia. Qed.

Lemma copy_array_ok n l : Forall byte_ok l -> Forall byte_ok (copy_array n l).
Proof.
  intros H. apply Forall_app. split; [by apply Forall_take|].
  apply Forall_replicate. unfold byte_ok. lia.
Qed.
