(* ===== verification/KadTable.v ===== *)
(** * The Kademlia routing table ([src/ndn/kad/routingtable.go])

    A table has [NUMBUCKETS] buckets; a bucket keeps at most [BUCKETSIZE] peers
    and a replacement list of at most [REPSIZE] peers.  A [*kadpeer] is
    modelled by its address together with its identity, which is set once by
    [PeerFromRecord]; the fields that change later ([record], [seen]) live in
    a store of their own (file KadPing).  Slice indexing that would panic
    returns [None]. *)

From S2P Require Import Prelude Bytes GoHeap KadId.

Record kadpeer := Kadpeer { paddr : nat; pid : list Z }.

#[export] Instance kadpeer_eq_dec : EqDecision kadpeer.
Proof. solve_decision. Defined.
#[export] Instance kadpeer_inhabited : Inhabited kadpeer := populate (Kadpeer 0 []).

Record bucket := Bucket { peers : list kadpeer; replacements : list kadpeer }.

Definition empty_bucket : bucket := Bucket [] [].

(** ** Slice operations of the bucket *)

(** First index and element with the given identity. *)
Definition find_id (l : list kadpeer) (id : list Z) : option (nat * kadpeer) :=
  list_find (fun p => pid p = id) l.

(** [for i := i; i < i+n; i++ { l[i] = l[i+1] }]. *)
Fixpoint shift_loop (n i : nat) (l : list kadpeer) : list kadpeer :=
  match n with
  | 0 => l
  | S n => shift_loop n (S i) (<[i := l !!! S i]> l)
  end.

(** Shift the cells after [from] to the left and store [x] in the last cell. *)
Definition shift_store (from : nat) (l : list kadpeer) (x : kadpeer) : list kadpeer :=
  let n := length l in
  <[n - 1 := x]> (shift_loop (n - 1 - from) from l).

(** ** Bucket operations *)

Definition bucket_size (b : bucket) : nat := length (peers b).

Definition bucket_get (b : bucket) (id : list Z) (onlybucket : bool) : option kadpeer :=
  match find_id (peers b) id with
  | Some (_, p) => Some p
  | None =>
    if onlybucket then None
    else snd <$> find_id (replacements b) id
  end.

(** [bucket.add]: the new bucket, the peer to be pinged, and whether the peer
    went into the bucket proper. *)
Definition bucket_add (b : bucket) (peer : kadpeer) : bucket * option kadpeer * bool :=
  match find_id (peers b) (pid peer) with
  | Some _ => (b, None, false)
  | None =>
    if BUCKETSIZE <=? length (peers b) then
      match find_id (replacements b) (pid peer) with
      | Some _ => (b, Some (peers b !!! 0), false)
      | None =>
        let l1 := length (replacements b) in
        let reps :=
          if REPSIZE <=? l1 then shift_store 0 (replacements b) peer
          else replacements b ++ [peer] in
        (Bucket (peers b) reps, Some (peers b !!! 0), false)
      end
    else (Bucket (peers b ++ [peer]) (replacements b), None, true)
  end.

(** [bucket.remove]: the removed peer and whether it was in the bucket proper. *)
Definition bucket_remove (b : bucket) (id : list Z) : bucket * option kadpeer * bool :=
  match find_id (peers b) id with
  | Some (found, p) =>
    match replacements b with
    | r :: rs => (Bucket (shift_store found (peers b) r) rs, Some p, true)
    | [] => (Bucket (delete found (peers b)) [], Some p, true)
    end
  | None =>
    match find_id (replacements b) id with
    | Some (found, p) =>
      (Bucket (peers b) (delete found (replacements b)), Some p, false)
    | None => (b, None, false)
    end
  end.

(** ** The table *)

Record rtable := Rtable { self : kadpeer; buckets : list bucket }.

(** [rtable.bucket]: the index of the bucket of an identity. *)
Definition bucket_index (selfid id : list Z) : Z :=
  let kid := LogDist id selfid in
  (if kid <=? BUCKETMINDISTANCE then 0 else kid - BUCKETMINDISTANCE - 1)%Z.

Definition bucket_no (r : rtable) (id : list Z) : nat :=
  Z.to_nat (bucket_index (pid (self r)) id).

(** [rtable.seen]: the table, the ping ordered, and the boolean result. *)
Definition rtable_seen (r : rtable) (p : kadpeer) : option (rtable * option kadpeer * bool) :=
  let i := bucket_no r (pid p) in
  match buckets r !! i with
  | None => None
  | Some b =>
    let '(b', first, added) := bucket_add b p in
    Some (Rtable (self r) (<[i := b']> (buckets r)), first, added)
  end.

Definition rtable_remove (r : rtable) (id : list Z) : option (rtable * option kadpeer * bool) :=
  let i := bucket_no r id in
  match buckets r !! i with
  | None => None
  | Some b =>
    let '(b', removed, inbucket) := bucket_remove b id in
    Some (Rtable (self r) (<[i := b']> (buckets r)), removed, inbucket)
  end.

Definition rtable_get (r : rtable) (id : list Z) (onlybucket : bool) : option (option kadpeer) :=
  (fun b => bucket_get b id onlybucket) <$> buckets r !! bucket_no r id.

Definition newrtable (me : kadpeer) : option (rtable * option kadpeer * bool) :=
  rtable_seen (Rtable me (replicate (Z.to_nat NUMBUCKETS) empty_bucket)) me.

Definition rtable_size (r : rtable) : nat := sum_list_with bucket_size (buckets r).

Definition rtable_isempty (r : rtable) : bool :=
  forallb (fun b => negb (0 <? bucket_size b)) (buckets r).

(** All the peers of the table, bucket by bucket. *)
Definition table_peers (r : rtable) : list kadpeer := buckets r ≫= peers.

(** ** The priority queue entries ([src/ndn/kad/peersort.go])

    The field [index] of the source is written by the heap and never read; it
    is left out.  The field [queried] is mutated through shared pointers and
    lives in a store keyed by [qaddr] (file KadLookup). *)

Record PqPeer := MkPqPeer { qaddr : nat; qpeer : kadpeer; qtarget : list Z }.

#[export] Instance PqPeer_eq_dec : EqDecision PqPeer.
Proof. solve_decision. Defined.
#[export] Instance PqPeer_inhabited : Inhabited PqPeer := populate (MkPqPeer 0 inhabitant []).

Definition Pq_Less (x y : PqPeer) : bool :=
  (DistCmp (qtarget x) (pid (qpeer x)) (pid (qpeer y)) <=? 0)%Z.

(** [rtable.closest]: [None] is the out-of-range panic of [peers[l] = p.p]. *)
Definition rtable_closest (r : rtable) (target : list Z) (k : nat) : option (list kadpeer) :=
  let queue := (fun p => MkPqPeer 0 p target) <$> table_peers r in
  match pop_upto Pq_Less k (heap_init Pq_Less queue) with
  | Some (out, _) => Some (qpeer <$> out)
  | None => None
  end.

(** ** Invariants *)

Definition bucket_inv (b : bucket) : Prop :=
  length (peers b) <= BUCKETSIZE /\ length (replacements b) <= REPSIZE /\
  NoDup (pid <$> peers b ++ replacements b) /\
  (replacements b <> [] -> length (peers b) = BUCKETSIZE).

Definition bucket_at (selfid : list Z) (i : nat) (b : bucket) : Prop :=
  bucket_inv b /\
  Forall (fun p => id_ok (pid p) /\ Z.to_nat (bucket_index selfid (pid p)) = i)
    (peers b ++ replacements b).

Definition table_inv (r : rtable) : Prop :=
  id_ok (pid (self r)) /\ length (buckets r) = Z.to_nat NUMBUCKETS /\
  forall i b, buckets r !! i = Some b -> bucket_at (pid (self r)) i b.

(** ** Slice lemmas *)

Lemma shift_loop_spec n i l :
  i + n < length l ->
  shift_loop n i l = take i l ++ take n (drop (S i) l) ++ drop (i + n) l.
Proof.
  revert i l. induction n as [|n IH]; intros i l Hn; simpl.
  { rewrite Nat.add_0_r. by rewrite take_drop. }
  assert (i < length l) by lia.
  rewrite IH by (rewrite length_insert; lia).
  destruct (lookup_lt_is_Some_2 l (S i)) as [x Hx]; [lia|].
  rewrite (list_lookup_total_correct _ _ _ Hx).
  rewrite !drop_insert_lt by lia.
  rewrite (drop_S l x (S i)) by done. cbn [take].
  rewrite (take_S_r _ i x) by (by apply list_lookup_insert_eq).
  rewrite take_insert_ge by lia.
  rewrite <- app_assoc. simpl. by replace (i + S n) with (S (i + n)) by lia.
Qed.

Lemma shift_store_spec from l x :
  from < length l -> shift_store from l x = take from l ++ drop (S from) l ++ [x].
Proof.
  intros Hf. unfold shift_store.
  destruct (lookup_lt_is_Some_2 l (length l - 1)) as [y Hy]; [lia|].
  rewrite shift_loop_spec by lia.
  replace (from + (length l - 1 - from)) with (length l - 1) by lia.
  rewrite (drop_S l y (length l - 1)) by done. rewrite (drop_ge l (S (length l - 1))) by lia.
  rewrite (take_ge (drop (S from) l)) by (rewrite length_drop; lia).
  rewrite app_assoc, insert_app_r_alt, app_assoc;
    rewrite length_app, length_take, length_drop.
  - replace (_ - _) with 0 by lia. done.
  - lia.
Qed.

Lemma shift_store_perm from l x y :
  l !! from = Some y -> y :: shift_store from l x ≡ₚ x :: l.
Proof.
  intros Hy. apply lookup_lt_Some in Hy as Hlt. rewrite shift_store_spec by done.
  rewrite <- (take_drop_middle l from y Hy) at 3.
  solve_Permutation.
Qed.

Lemma length_shift_store from l x :
  from < length l -> length (shift_store from l x) = length l.
Proof.
  intros ?. rewrite shift_store_spec by done.
  rewrite !length_app, length_take, length_drop. simpl. lia.
Qed.

Lemma find_id_Some l id i p :
  find_id l id = Some (i, p) -> l !! i = Some p /\ pid p = id.
Proof. intros (?&?&_)%list_find_Some. done. Qed.

Lemma find_id_None l id : find_id l id = None -> id ∉ pid <$> l.
Proof.
  intros H%list_find_None (p & -> & Hp)%list_elem_of_fmap.
  rewrite Forall_forall in H. by apply (H p).
Qed.

Lemma find_id_elem l id : id ∈ pid <$> l -> exists i p, find_id l id = Some (i, p).
Proof.
  intros (p & -> & Hp)%list_elem_of_fmap.
  destruct (find_id l (pid p)) as [[i q]|] eqn:E; [eauto|].
  apply find_id_None in E. destruct E. by apply list_elem_of_fmap_2.
Qed.

(** ** Bucket operations keep the invariant *)

Definition bucket_ids (b : bucket) : list (list Z) := pid <$> peers b ++ replacements b.

Lemma bucket_ids_app b : bucket_ids b = (pid <$> peers b) ++ (pid <$> replacements b).
Proof. apply fmap_app. Qed.

Lemma bucket_ids_notin b id :
  find_id (peers b) id = None -> find_id (replacements b) id = None -> id ∉ bucket_ids b.
Proof.
  intros H1%find_id_None H2%find_id_None. rewrite bucket_ids_app. set_solver.
Qed.

Lemma bucket_not_full_no_reps b :
  bucket_inv b -> length (peers b) < BUCKETSIZE -> replacements b = [].
Proof.
  intros (_ & _ & _ & Hfull) Hlt. destruct (replacements b); [done|].
  rewrite Hfull in Hlt by done. lia.
Qed.

Lemma bucket_add_inv b p : bucket_inv b -> bucket_inv (bucket_add b p).1.1.
Proof.
  intros Hinv. pose proof Hinv as (Hp & Hr & Hnd & Hfull). unfold bucket_add.
  destruct (find_id (peers b) _) as [|] eqn:Ep; [done|].
  destruct (BUCKETSIZE <=? _) eqn:Efull; bool_go.
  - destruct (find_id (replacements b) _) eqn:Er; [done|]. simpl.
    pose proof (bucket_ids_notin _ _ Ep Er) as Hnew.
    unfold bucket_ids in Hnew.
    destruct (REPSIZE <=? _) eqn:Erep; bool_go.
    + assert (0 < length (replacements b)) as Hpos by (unfold REPSIZE in *; lia).
      destruct (lookup_lt_is_Some_2 _ _ Hpos) as [r0 Hr0].
      pose proof (shift_store_perm _ _ p _ Hr0) as Hperm.
      split_and!; [done| |simpl|simpl; intros _; lia].
      { simpl. by rewrite length_shift_store. }
      assert (NoDup (pid <$> peers b ++ r0 :: shift_store 0 (replacements b) p)) as Hnd'.
      { rewrite Hperm. rewrite <- Permutation_middle. by constructor. }
      rewrite <- Permutation_middle in Hnd'. by apply NoDup_cons in Hnd' as [_ ?].
    + split_and!; simpl; [done|rewrite length_app; simpl; lia| |intros _; lia].
      rewrite app_assoc, Permutation_app_comm. simpl. by constructor.
  - pose proof (bucket_not_full_no_reps _ Hinv Efull) as Hnil.
    simpl. rewrite Hnil in *. split_and!; simpl; [rewrite length_app; simpl; lia|lia| |done].
    rewrite app_nil_r in *. rewrite Permutation_app_comm. constructor; [|done].
    by apply find_id_None.
Qed.

Lemma bucket_remove_inv b id : bucket_inv b -> bucket_inv (bucket_remove b id).1.1.
Proof.
  intros (Hp & Hr & Hnd & Hfull). unfold bucket_remove.
  destruct (find_id (peers b) id) as [[found p]|] eqn:Ep.
  - apply find_id_Some in Ep as [Hf Hid]. apply lookup_lt_Some in Hf as Hlt.
    destruct (replacements b) as [|r rs] eqn:Er; simpl.
    + rewrite app_nil_r in Hnd. split_and!; simpl; [|lia| |done].
      * apply delete_Permutation, Permutation_length in Hf. simpl in Hf. lia.
      * rewrite app_nil_r. by apply NoDup_fmap_delete.
    + pose proof (shift_store_perm _ _ r _ Hf) as Hperm.
      split_and!; simpl.
      * by rewrite length_shift_store.
      * simpl in Hr. lia.
      * assert (NoDup (pid <$> (p :: shift_store found (peers b) r) ++ rs)) as Hnd'.
        { rewrite Hperm. simpl. by rewrite <- Permutation_middle in Hnd. }
        by apply NoDup_cons in Hnd' as [_ ?].
      * intros _. rewrite length_shift_store by done. by apply Hfull.
  - destruct (find_id (replacements b) id) as [[found p]|] eqn:Er; [|done].
    apply find_id_Some in Er as [Hf Hid]. apply delete_Permutation in Hf as Hperm.
    simpl. split_and!; simpl; [done| | |].
    + apply Permutation_length in Hperm. simpl in Hperm. lia.
    + rewrite Hperm, <- Permutation_middle in Hnd. simpl in Hnd.
      by apply NoDup_cons in Hnd as [_ ?].
    + intros _. apply Hfull. intros E. rewrite E in Hf. done.
Qed.

(** Every peer after an insertion was there before or is the inserted one. *)
Lemma bucket_add_elem b p q :
  q ∈ peers (bucket_add b p).1.1 ++ replacements (bucket_add b p).1.1 ->
  q = p \/ q ∈ peers b ++ replacements b.
Proof.
  unfold bucket_add. destruct (find_id (peers b) _); [by right|].
  destruct (BUCKETSIZE <=? _); [|set_solver].
  destruct (find_id (replacements b) _); [by right|].
  destruct (REPSIZE <=? _) eqn:E; bool_go; simpl; [|set_solver].
  destruct (lookup_lt_is_Some_2 (replacements b) 0) as [r0 Hr0];
    [unfold REPSIZE in *; lia|].
  pose proof (shift_store_perm _ _ p _ Hr0) as Hperm.
  intros [?|Hq]%elem_of_app; [set_solver|].
  assert (q ∈ r0 :: shift_store 0 (replacements b) p) as Hq' by set_solver.
  rewrite Hperm in Hq'. set_solver.
Qed.

Lemma bucket_remove_perm b id :
  bucket_inv b ->
  match bucket_remove b id with
  | (b', Some p, _) => pid p = id /\ peers b ++ replacements b ≡ₚ p :: peers b' ++ replacements b'
  | (b', None, _) => b' = b /\ id ∉ bucket_ids b
  end.
Proof.
  intros Hinv. unfold bucket_remove.
  destruct (find_id (peers b) id) as [[found p]|] eqn:Ep.
  - apply find_id_Some in Ep as [Hf Hid].
    destruct (replacements b) as [|r rs] eqn:Er; simpl; (split; [done|]).
    + rewrite !app_nil_r. by apply delete_Permutation.
    + pose proof (shift_store_perm _ _ r _ Hf) as Hperm.
      rewrite <- Permutation_middle.
      transitivity ((p :: shift_store found (peers b) r) ++ rs); [|done].
      by rewrite Hperm.
  - destruct (find_id (replacements b) id) as [[found p]|] eqn:Er; simpl.
    + apply find_id_Some in Er as [Hf Hid]. split; [done|].
      apply delete_Permutation in Hf. rewrite Permutation_middle. by rewrite <- Hf.
    + split; [done|]. by apply bucket_ids_notin.
Qed.

Lemma bucket_remove_elem b id q :
  bucket_inv b ->
  q ∈ peers (bucket_remove b id).1.1 ++ replacements (bucket_remove b id).1.1 ->
  q ∈ peers b ++ replacements b.
Proof.
  intros Hinv Hq. pose proof (bucket_remove_perm b id Hinv) as Hp.
  destruct (bucket_remove b id) as [[b' [p|]] inb]; simpl in *.
  - destruct Hp as [_ ->]. by constructor.
  - by destruct Hp as [-> _].
Qed.

(** ** Table operations *)

Lemma bucket_index_range selfid id :
  id_ok selfid -> id_ok id ->
  (0 <= bucket_index selfid id < NUMBUCKETS)%Z.
Proof.
  intros Hs Hi. pose proof (LogDist_range id selfid Hi Hs) as Hr.
  unfold bucket_index. case_match eqn:E; bool_go.
  - by vm_compute.
  - unfold BUCKETMINDISTANCE in *. lia.
Qed.

Lemma table_bucket r id :
  table_inv r -> id_ok id -> exists b, buckets r !! bucket_no r id = Some b.
Proof.
  intros (Hs & Hl & _) Hid. apply lookup_lt_is_Some_2. rewrite Hl.
  pose proof (bucket_index_range _ _ Hs Hid). unfold bucket_no. lia.
Qed.

Lemma table_inv_insert r i b b' :
  table_inv r -> buckets r !! i = Some b -> bucket_at (pid (self r)) i b' ->
  table_inv (Rtable (self r) (<[i := b']> (buckets r))).
Proof.
  intros (Hs & Hl & Hb) Hi Hb'. split_and!; simpl; [done|by rewrite length_insert|].
  intros j c [(-> & -> & _)|(Hne & Hc)]%list_lookup_insert_Some; [done|]. by apply Hb.
Qed.

Lemma rtable_seen_ok r p :
  table_inv r -> id_ok (pid p) ->
  exists r' first added, rtable_seen r p = Some (r', first, added) /\
    table_inv r' /\ self r' = self r.
Proof.
  intros Hinv Hid. destruct (table_bucket r (pid p) Hinv Hid) as [b Hb].
  unfold rtable_seen. rewrite Hb.
  pose proof Hinv as (_ & _ & Hbs). destruct (Hbs _ _ Hb) as [Hbi Hall].
  pose proof (bucket_add_inv b p Hbi) as Hbi'.
  pose proof (bucket_add_elem b p) as Hel.
  destruct (bucket_add b p) as [[b' first] added] eqn:E. simpl in *.
  eexists _, _, _. split_and!; [done| |done].
  eapply table_inv_insert; [done..|]. split; [done|].
  rewrite Forall_forall in Hall |- *. intros q Hq.
  destruct (Hel q Hq) as [->|Hq']; [|by apply Hall]. done.
Qed.

Lemma rtable_remove_ok r id :
  table_inv r -> id_ok id ->
  exists r' removed inb, rtable_remove r id = Some (r', removed, inb) /\
    table_inv r' /\ self r' = self r.
Proof.
  intros Hinv Hid. destruct (table_bucket r id Hinv Hid) as [b Hb].
  unfold rtable_remove. rewrite Hb.
  pose proof Hinv as (_ & _ & Hbs). destruct (Hbs _ _ Hb) as [Hbi Hall].
  pose proof (bucket_remove_inv b id Hbi) as Hbi'.
  pose proof (fun q => bucket_remove_elem b id q Hbi) as Hel.
  destruct (bucket_remove b id) as [[b' rem] inb] eqn:E. simpl in *.
  eexists _, _, _. split_and!; [done| |done].
  eapply table_inv_insert; [done..|]. split; [done|].
  rewrite Forall_forall in Hall |- *. intros q Hq. by apply Hall, Hel.
Qed.

Lemma empty_table_inv me :
  id_ok (pid me) -> table_inv (Rtable me (replicate (Z.to_nat NUMBUCKETS) empty_bucket)).
Proof.
  intros Hid. split_and!; [done|done|]. cbn [buckets self].
  intros i b [-> Hi]%lookup_replicate_1. split; [|constructor].
  split_and!; simpl; [lia|lia|constructor|done].
Qed.

(** ** The queue order *)

Definition Pq_in (target : list Z) (x : PqPeer) : Prop :=
  qtarget x = target /\ id_ok (pid (qpeer x)).

Definition Pq_le (target : list Z) (x y : PqPeer) : Prop :=
  (distance (pid (qpeer x)) target <= distance (pid (qpeer y)) target)%Z.

Lemma Pq_order target : id_ok target -> HeapOrder (Pq_in target) Pq_Less (Pq_le target).
Proof.
  intros Ht. unfold Pq_Less, Pq_le. split.
  - split; [intros x; lia|intros x y z; lia].
  - intros x y [-> Hx] [_ Hy]. rewrite DistCmp_le by done. intros. bool_go. lia.
  - intros x y [-> Hx] [_ Hy]. rewrite DistCmp_le by done. intros. bool_go. lia.
Qed.

Lemma buckets_NoDup selfid bs off :
  (forall i b, bs !! i = Some b -> bucket_at selfid (off + i) b) ->
  NoDup (pid <$> (bs ≫= peers)) /\
  Forall (fun p => id_ok (pid p) /\ off <= Z.to_nat (bucket_index selfid (pid p)))
    (bs ≫= peers).
Proof.
  revert off. induction bs as [|b bs IH]; intros off Hbs; simpl.
  { split; constructor. }
  destruct (Hbs 0 b eq_refl) as [(_ & _ & Hnd & _) Hall].
  destruct (IH (S off)) as [IHnd IHall].
  { intros i c Hc. replace (S off + i) with (off + S i) by lia. by apply Hbs. }
  rewrite fmap_app in Hnd. apply NoDup_app in Hnd as (Hnd & _ & _).
  apply Forall_app in Hall as [Hall _].
  split.
  - rewrite fmap_app. apply NoDup_app. split_and!; [done| |done].
    intros id (p & -> & Hp)%list_elem_of_fmap (q & Hpq & Hq)%list_elem_of_fmap.
    rewrite Forall_forall in Hall, IHall.
    destruct (Hall p Hp) as [_ Ep], (IHall q Hq) as [_ Eq].
    rewrite Hpq in Ep. lia.
  - apply Forall_app. split.
    + eapply Forall_impl; [exact Hall|]. intros p [? ?]; split; [done|lia].
    + eapply Forall_impl; [exact IHall|]. intros p [? ?]; split; [done|lia].
Qed.

Lemma table_peers_ok r :
  table_inv r ->
  NoDup (pid <$> table_peers r) /\ Forall (fun p => id_ok (pid p)) (table_peers r).
Proof.
  intros (_ & _ & Hb). destruct (buckets_NoDup _ (buckets r) 0 Hb) as [H1 H2].
  split; [done|]. eapply Forall_impl; [exact H2|]. by intros p [? _].
Qed.

Lemma rtable_size_peers r : rtable_size r = length (table_peers r).
Proof.
  unfold rtable_size, table_peers. induction (buckets r) as [|b bs IH]; [done|].
  rewrite bind_cons, length_app, <- IH. done.
Qed.

(** What [closest] is meant to return: the [k] peers of the table nearest to
    the target, nearest first. *)
Definition nearest (target : list Z) (k : nat) (all out : list kadpeer) : Prop :=
  length out = k `min` length all /\ NoDup (pid <$> out) /\
  StronglySorted (fun p q => (distance (pid p) target <= distance (pid q) target)%Z) out /\
  (forall p, p ∈ out -> p ∈ all) /\
  (forall p q, p ∈ out -> q ∈ all -> q ∉ out ->
     (distance (pid p) target <= distance (pid q) target)%Z).

Lemma StronglySorted_fmap_qpeer target l :
  StronglySorted (Pq_le target) l ->
  StronglySorted (fun p q => (distance (pid p) target <= distance (pid q) target)%Z) (qpeer <$> l).
Proof.
  induction 1 as [|x l Hs IH Hf]; simpl; constructor; [done|].
  rewrite Forall_fmap. exact Hf.
Qed.

Lemma rtable_closest_spec r target k :
  table_inv r -> id_ok target -> 0 < k ->
  exists out, rtable_closest r target k = Some out /\ nearest target k (table_peers r) out.
Proof.
  intros Hinv Ht Hk. destruct (table_peers_ok r Hinv) as [Hnd Hok].
  unfold rtable_closest. set (f := fun p => MkPqPeer 0 p target).
  pose proof (Pq_order target Ht) as Hord.
  assert (Forall (Pq_in target) (f <$> table_peers r)) as HP.
  { apply Forall_fmap. eapply Forall_impl; [exact Hok|]. by intros p ?. }
  destruct (heap_init_spec (less := Pq_Less) _ HP) as [Hperm Hheap].
  destruct (pop_upto_spec (less := Pq_Less) k (heap_init Pq_Less (f <$> table_peers r)))
    as (out & rest & -> & Hp & _ & Hlen & Hsort & Hle); [by rewrite Hperm|done|done|].
  rewrite Hperm in Hp.
  assert ((qpeer <$> out) ++ (qpeer <$> rest) ≡ₚ table_peers r) as Hq.
  { rewrite <- fmap_app, Hp, <- list_fmap_compose. by rewrite list_fmap_id. }
  exists (qpeer <$> out). split; [done|]. split_and!.
  - rewrite length_fmap, Hlen, Hperm, length_fmap. done.
  - rewrite <- Hq, fmap_app in Hnd. by apply NoDup_app in Hnd as (? & _ & _).
  - by apply StronglySorted_fmap_qpeer.
  - intros p Hpin. rewrite <- Hq. set_solver.
  - intros p q (x & -> & Hx)%list_elem_of_fmap Hq1 Hq2.
    rewrite <- Hq in Hq1. apply elem_of_app in Hq1 as [?|(y & -> & Hy)%list_elem_of_fmap]; [done|].
    by apply (Hle x y).
Qed.

(** ** Lookups after insertions and removals *)

Lemma bucket_get_None b id : bucket_get b id false = None <-> id ∉ bucket_ids b.
Proof.
  unfold bucket_get. rewrite bucket_ids_app, not_elem_of_app. split.
  - destruct (find_id (peers b) id) as [[]|] eqn:E1; [done|].
    destruct (find_id (replacements b) id) as [[]|] eqn:E2; [done|].
    intros _. split; by apply find_id_None.
  - intros [H1 H2].
    destruct (find_id (peers b) id) as [[i p]|] eqn:E1.
    { apply find_id_Some in E1 as [Hi <-]. destruct H1.
      apply list_elem_of_fmap_2. by eapply list_elem_of_lookup_2. }
    destruct (find_id (replacements b) id) as [[i p]|] eqn:E2; [|done].
    apply find_id_Some in E2 as [Hi <-]. destruct H2.
    apply list_elem_of_fmap_2. by eapply list_elem_of_lookup_2.
Qed.

Lemma bucket_get_Some b id q :
  bucket_get b id false = Some q -> pid q = id /\ q ∈ peers b ++ replacements b.
Proof.
  unfold bucket_get. destruct (find_id (peers b) id) as [[i p]|] eqn:E1.
  { intros [= ->]. apply find_id_Some in E1 as [Hi <-]. split; [done|].
    apply elem_of_app. left. by eapply list_elem_of_lookup_2. }
  destruct (find_id (replacements b) id) as [[i p]|] eqn:E2; [|done].
  intros [= ->]. apply find_id_Some in E2 as [Hi <-]. split; [done|].
  apply elem_of_app. right. by eapply list_elem_of_lookup_2.
Qed.

Lemma bucket_add_known b p : pid p ∈ bucket_ids (bucket_add b p).1.1.
Proof.
  unfold bucket_add, bucket_ids.
  destruct (find_id (peers b) _) as [[i q]|] eqn:E1; simpl.
  { apply find_id_Some in E1 as [Hi <-]. apply list_elem_of_fmap_2, elem_of_app.
    left. by eapply list_elem_of_lookup_2. }
  destruct (BUCKETSIZE <=? _); simpl; [|apply list_elem_of_fmap_2; set_solver].
  destruct (find_id (replacements b) _) as [[i q]|] eqn:E2; simpl.
  { apply find_id_Some in E2 as [Hi <-]. apply list_elem_of_fmap_2, elem_of_app.
    right. by eapply list_elem_of_lookup_2. }
  apply list_elem_of_fmap_2. destruct (REPSIZE <=? _) eqn:E; bool_go; [|set_solver].
  rewrite shift_store_spec by (unfold REPSIZE in *; lia). set_solver.
Qed.

Lemma bucket_add_keeps b p q : q ∈ peers b -> q ∈ peers (bucket_add b p).1.1.
Proof. unfold bucket_add. repeat case_match; simpl; set_solver. Qed.

Lemma bucket_add_result b p :
  bucket_inv b ->
  let '(b', first, added) := bucket_add b p in
  (added = true -> p ∈ peers b') /\
  (added = true <-> (pid p ∉ pid <$> peers b) /\ length (peers b) < BUCKETSIZE) /\
  (first = if decide ((pid p ∉ pid <$> peers b) /\ length (peers b) = BUCKETSIZE)
           then head (peers b) else None).
Proof.
  intros (Hlen & _). unfold bucket_add.
  destruct (find_id (peers b) _) as [[i q]|] eqn:E1.
  { assert (pid p ∈ pid <$> peers b).
    { apply find_id_Some in E1 as [Hi <-]. apply list_elem_of_fmap_2.
      by eapply list_elem_of_lookup_2. }
    rewrite decide_False by tauto. split_and!; [done| |done]. split; [done|tauto]. }
  apply find_id_None in E1.
  destruct (BUCKETSIZE <=? _) eqn:E2; bool_go.
  - assert (length (peers b) = BUCKETSIZE) as Hfull by lia.
    assert (Some (peers b !!! 0) = head (peers b)) as Hh.
    { destruct (peers b); [done|done]. }
    destruct (find_id (replacements b) _); rewrite decide_True by done;
      (split_and!; [done|split; [done|lia]|done]).
  - rewrite decide_False by lia. split_and!; [set_solver| |done]. done.
Qed.

Definition known_peers (r : rtable) : list kadpeer :=
  buckets r ≫= fun b => peers b ++ replacements b.

Lemma rtable_seen_bucket r p b :
  buckets r !! bucket_no r (pid p) = Some b ->
  rtable_seen r p =
    Some (Rtable (self r) (<[bucket_no r (pid p) := (bucket_add b p).1.1]> (buckets r)),
          (bucket_add b p).1.2, (bucket_add b p).2).
Proof. intros Hb. unfold rtable_seen. rewrite Hb. by destruct (bucket_add b p) as [[??]?]. Qed.

Lemma rtable_remove_bucket r id b :
  buckets r !! bucket_no r id = Some b ->
  rtable_remove r id =
    Some (Rtable (self r) (<[bucket_no r id := (bucket_remove b id).1.1]> (buckets r)),
          (bucket_remove b id).1.2, (bucket_remove b id).2).
Proof. intros Hb. unfold rtable_remove. rewrite Hb. by destruct (bucket_remove b id) as [[??]?]. Qed.

Lemma rtable_get_updated r id i b b' ob :
  buckets r !! i = Some b -> i = bucket_no r id ->
  rtable_get (Rtable (self r) (<[i := b']> (buckets r))) id ob = Some (bucket_get b' id ob).
Proof.
  intros Hb ->. unfold rtable_get, bucket_no in *. cbn [self buckets].
  rewrite list_lookup_insert_eq by (by eapply lookup_lt_Some). done.
Qed.

(** Updating one bucket keeps what the bucket keeps. *)
Lemma bind_insert_mono (f : bucket -> list kadpeer) bs i b b' (Q : kadpeer -> Prop) :
  bs !! i = Some b -> (forall q, Q q -> q ∈ f b -> q ∈ f b') ->
  forall q, Q q -> q ∈ (bs ≫= f) -> q ∈ (<[i := b']> bs ≫= f).
Proof.
  intros Hi Hf q HQ (c & Hq & Hc)%list_elem_of_bind. apply list_elem_of_bind.
  apply list_elem_of_lookup in Hc as [j Hj]. apply lookup_lt_Some in Hi as Hlt.
  destruct (decide (i = j)) as [->|Hne].
  - simplify_eq. exists b'. split; [by apply Hf|].
    apply list_elem_of_lookup. exists j. by rewrite list_lookup_insert_eq.
  - exists c. split; [done|]. apply list_elem_of_lookup. exists j.
    by rewrite list_lookup_insert_ne.
Qed.

Lemma bucket_remove_get b id :
  bucket_inv b -> (bucket_remove b id).1.2 = bucket_get b id false.
Proof.
  intros _. unfold bucket_remove, bucket_get.
  destruct (find_id (peers b) id) as [[i p]|]; [by destruct (replacements b)|].
  by destruct (find_id (replacements b) id) as [[i p]|].
Qed.

Lemma bucket_remove_gone b id : bucket_inv b -> id ∉ bucket_ids (bucket_remove b id).1.1.
Proof.
  intros Hinv. pose proof (bucket_remove_perm b id Hinv) as Hp.
  destruct Hinv as (_ & _ & Hnd & _).
  destruct (bucket_remove b id) as [[b' [p|]] inb]; simpl in *.
  - destruct Hp as [<- Hp]. rewrite Hp in Hnd. by apply NoDup_cons in Hnd as [? _].
  - by destruct Hp as [-> ?].
Qed.

Lemma bucket_remove_keeps b id q :
  bucket_inv b -> pid q <> id -> q ∈ peers b ++ replacements b ->
  q ∈ peers (bucket_remove b id).1.1 ++ replacements (bucket_remove b id).1.1.
Proof.
  intros Hinv Hne Hq. pose proof (bucket_remove_perm b id Hinv) as Hp.
  destruct (bucket_remove b id) as [[b' [p|]] inb]; simpl in *.
  - destruct Hp as [<- Hp]. rewrite Hp in Hq. by apply elem_of_cons in Hq as [->|?].
  - by destruct Hp as [-> _].
Qed.

(** ** A small table, for the examples *)

Definition demo_id (n : Z) : list Z := n :: replicate 19 0%Z.
Definition demo_peer (n : Z) : kadpeer := Kadpeer (Z.to_nat n) (demo_id n).
Definition table_of (o : option (rtable * option kadpeer * bool)) : rtable :=
  match o with Some (r, _, _) => r | None => Rtable inhabitant [] end.
Definition demo_table : rtable :=
  table_of (rtable_seen (table_of (newrtable (demo_peer 1))) (demo_peer 7)).

(** ** Properties *)

(** The histories of a table: sightings and removals of well-formed identities. *)
Inductive table_step : rtable -> rtable -> Prop :=
| step_seen r p r' first added :
    id_ok (pid p) -> rtable_seen r p = Some (r', first, added) -> table_step r r'
| step_remove r id r' removed inb :
    id_ok id -> rtable_remove r id = Some (r', removed, inb) -> table_step r r'.

Definition table_reachable (me : kadpeer) (r : rtable) : Prop :=
  exists r0 first added, newrtable me = Some (r0, first, added) /\ rtc table_step r0 r.

Lemma table_step_inv r r' : table_inv r -> table_step r r' -> table_inv r' /\ self r' = self r.
Proof.
  intros Hinv Hstep. destruct Hstep as [r p r' first added Hid E|r id r' removed inb Hid E].
  - destruct (rtable_seen_ok r p Hinv Hid) as (?&?&?&E'&?&?). by simplify_eq.
  - destruct (rtable_remove_ok r id Hinv Hid) as (?&?&?&E'&?&?). by simplify_eq.
Qed.

Lemma table_reachable_ok me r :
  id_ok (pid me) -> table_reachable me r -> table_inv r /\ self r = me.
Proof.
  intros Hid (r0 & first & added & Hnew & Hsteps).
  destruct (rtable_seen_ok _ me (empty_table_inv me Hid) Hid) as (?&?&?&E&Hinv&Hself).
  unfold newrtable in Hnew. rewrite E in Hnew. simplify_eq. cbn [self] in Hself. clear E.
  induction Hsteps as [r|r r1 r2 Hstep _ IH]; [done|].
  destruct (table_step_inv _ _ Hinv Hstep) as [Hinv' Hs'].
  apply IH; [by rewrite Hs'|done].
Qed.

Lemma demo_reachable : table_reachable (demo_peer 1) demo_table.
Proof.
  eexists _, _, _. split; [reflexivity|]. eapply rtc_once, step_seen with (p := demo_peer 7).
  - by apply id_okb_ok.
  - reflexivity.
Qed.

Lemma demo_inv : table_inv demo_table.
Proof. apply (table_reachable_ok (demo_peer 1)); [by apply id_okb_ok|apply demo_reachable]. Qed.

(** C1. Every table reached from [newrtable] by sightings and removals is
    well formed: bounded buckets and replacement lists, no identity twice in a
    bucket, replacements only behind a full bucket, every peer in the bucket
    of its distance; and the next sighting or removal never panics. *)
Theorem table_reachable_inv me r p :
  id_ok (pid me) -> table_reachable me r -> id_ok (pid p) ->
  table_inv r /\ rtable_seen r p <> None /\ rtable_remove r (pid p) <> None.
Proof.
  intros Hme Hr Hp. destruct (table_reachable_ok me r Hme Hr) as [Hinv _].
  destruct (rtable_seen_ok r p Hinv Hp) as (?&?&?&->&_).
  destruct (rtable_remove_ok r (pid p) Hinv Hp) as (?&?&?&->&_). done.
Qed.

Lemma table_reachable_inv_witness :
  table_inv demo_table /\ rtable_seen demo_table (demo_peer 9) <> None /\
  rtable_remove demo_table (pid (demo_peer 9)) <> None.
Proof.
  apply (table_reachable_inv (demo_peer 1)); [by apply id_okb_ok|apply demo_reachable|].
  by apply id_okb_ok.
Defined.


(** C10. On a reachable table [closest] returns the [k] nearest peers by the
    exclusive-or distance, nearest first and without duplicates. *)
Theorem closest_nearest me r target k :
  id_ok (pid me) -> table_reachable me r -> id_ok target -> 0 < k ->
  exists out, rtable_closest r target k = Some out /\ nearest target k (table_peers r) out.
Proof.
  intros Hme Hr Ht Hk. destruct (table_reachable_ok me r Hme Hr) as [Hinv _].
  by apply rtable_closest_spec.
Qed.

Lemma closest_nearest_witness :
  exists out, rtable_closest demo_table (demo_id 6) 1 = Some out /\
    nearest (demo_id 6) 1 (table_peers demo_table) out.
Proof.
  apply (closest_nearest (demo_peer 1)); [by apply id_okb_ok|apply demo_reachable| |lia].
  by apply id_okb_ok.
Defined.

Example closest_demo : rtable_closest demo_table (demo_id 6) 1 = Some [demo_peer 7].
Proof. reflexivity. Qed.


(** Asking a non-empty table for zero peers panics: the result slice has
    length zero and the first popped peer is stored into it. *)
Theorem closest_zero_panics r target :
  table_peers r <> [] -> rtable_closest r target 0 = None.
Proof.
  intros Hne. unfold rtable_closest. rewrite pop_upto_zero; [done|].
  intros E. apply (f_equal length) in E. unfold heap_init in E.
  set (q := _ <$> _) in E. assert (0 < length q) as Hq.
  { unfold q. rewrite length_fmap. by destruct (table_peers r); [|simpl; lia]. }
  revert E. clear Hne. generalize (length q / 2). intros n.
  assert (forall n (l : list PqPeer), length (init_loop Pq_Less n l) = length l) as Hl.
  { clear. induction n as [|n IH]; intros l; simpl; [done|].
    rewrite IH. apply length_down_loop. }
  rewrite Hl. simpl. lia.
Qed.

Lemma closest_zero_panics_witness : rtable_closest demo_table (demo_id 6) 0 = None.
Proof. apply closest_zero_panics. vm_compute. discriminate. Defined.


(** C28. After a sighting the identity is known; the peer enters the bucket
    proper exactly when the bucket did not have it and had room, otherwise the
    oldest peer of a full bucket is pinged; no peer of a bucket is displaced. *)
Theorem seen_spec r p :
  table_inv r -> id_ok (pid p) ->
  exists r' first added b,
    rtable_seen r p = Some (r', first, added) /\
    buckets r !! bucket_no r (pid p) = Some b /\
    (exists q, rtable_get r' (pid p) false = Some (Some q) /\ pid q = pid p) /\
    (added = true <-> (pid p ∉ pid <$> peers b) /\ length (peers b) < BUCKETSIZE) /\
    (added = true -> p ∈ table_peers r') /\
    (first = if decide ((pid p ∉ pid <$> peers b) /\ length (peers b) = BUCKETSIZE)
             then head (peers b) else None) /\
    (forall q, q ∈ table_peers r -> q ∈ table_peers r').
Proof.
  intros Hinv Hid. destruct (table_bucket r (pid p) Hinv Hid) as [b Hb].
  rewrite (rtable_seen_bucket r p b Hb). eexists _, _, _, b.
  split; [done|]. split; [done|].
  destruct (Hinv) as (_ & _ & Hbs). destruct (Hbs _ _ Hb) as [Hbi _].
  pose proof (bucket_add_result b p Hbi) as Hres.
  pose proof (bucket_add_known b p) as Hk. pose proof (bucket_add_keeps b p) as Hkeep.
  destruct (bucket_add b p) as [[b' first] added]. simpl in *.
  destruct Hres as (Hadd & Hiff & Hfirst). split_and!; [|done| |done|].
  - rewrite (rtable_get_updated r (pid p) (bucket_no r (pid p)) b b') by done.
    destruct (bucket_get b' (pid p) false) as [q|] eqn:E.
    + exists q. apply bucket_get_Some in E as [? _]. done.
    + by apply bucket_get_None in E.
  - intros Ha. apply list_elem_of_bind. exists b'. split; [by apply Hadd|].
    apply list_elem_of_lookup. exists (bucket_no r (pid p)). cbn [buckets].
    apply list_lookup_insert_eq. by eapply lookup_lt_Some.
  - intros q Hq. unfold table_peers. cbn [buckets].
    apply (bind_insert_mono peers _ _ b b' (fun _ => True)); auto.
Qed.

Lemma seen_spec_witness :
  exists r' first added b,
    rtable_seen demo_table (demo_peer 9) = Some (r', first, added) /\
    buckets demo_table !! bucket_no demo_table (demo_id 9) = Some b /\
    (exists q, rtable_get r' (demo_id 9) false = Some (Some q) /\ pid q = demo_id 9) /\
    (added = true <-> (demo_id 9 ∉ pid <$> peers b) /\ length (peers b) < BUCKETSIZE) /\
    (added = true -> demo_peer 9 ∈ table_peers r') /\
    (first = if decide ((demo_id 9 ∉ pid <$> peers b) /\ length (peers b) = BUCKETSIZE)
             then head (peers b) else None) /\
    (forall q, q ∈ table_peers demo_table -> q ∈ table_peers r').
Proof. apply (seen_spec demo_table (demo_peer 9)); [apply demo_inv|by apply id_okb_ok]. Defined.


(** A removal returns the peer that [get] finds, the identity is unknown
    afterwards, and every other known peer stays known. *)
Theorem remove_spec r id :
  table_inv r -> id_ok id ->
  exists r' removed inb,
    rtable_remove r id = Some (r', removed, inb) /\
    rtable_get r id false = Some removed /\
    rtable_get r' id false = Some None /\
    (forall q, pid q <> id -> q ∈ known_peers r -> q ∈ known_peers r').
Proof.
  intros Hinv Hid. destruct (table_bucket r id Hinv Hid) as [b Hb].
  rewrite (rtable_remove_bucket r id b Hb). eexists _, _, _. split; [done|].
  destruct (Hinv) as (_ & _ & Hbs). destruct (Hbs _ _ Hb) as [Hbi _].
  split_and!.
  - unfold rtable_get. rewrite Hb. simpl. by rewrite bucket_remove_get.
  - rewrite (rtable_get_updated r id (bucket_no r id) b) by done.
    f_equal. by apply bucket_get_None, bucket_remove_gone.
  - unfold known_peers. cbn [buckets].
    apply (bind_insert_mono _ _ _ b _ (fun q => pid q <> id)); [done|].
    intros q. by apply bucket_remove_keeps.
Qed.

Lemma remove_spec_witness :
  exists r' removed inb,
    rtable_remove demo_table (demo_id 7) = Some (r', removed, inb) /\
    rtable_get demo_table (demo_id 7) false = Some removed /\
    rtable_get r' (demo_id 7) false = Some None /\
    (forall q, pid q <> demo_id 7 -> q ∈ known_peers demo_table -> q ∈ known_peers r').
Proof. apply (remove_spec demo_table (demo_id 7)); [apply demo_inv|by apply id_okb_ok]. Defined.

