(* ===== verification/Names.v ===== *)
(** * NDN names ([src/ndn/ndnsuit/utils.go])

    A name is a list of typed components.  [PrettyName] writes a name as text:
    it identifies producers in the mixer and enters the node identity, so its
    injectivity is what keeps two different prefixes apart. *)

From S2P Require Import Prelude Bytes KadId.
Local Open Scope Z_scope.

Record NameComponent := MkComponent { ctype : Z; cvalue : list Z }.

#[export] Instance NameComponent_eq_dec : EqDecision NameComponent.
Proof. solve_decision. Defined.

Abbreviation Name := (list NameComponent) (only parsing).

(** [BuildName]: the components of every argument are copied, one name after
    the other, into a slice of the total length. *)
Definition BuildName (names : list (list NameComponent)) : list NameComponent :=
  foldl (fun acc n => acc ++ n) [] names.

Definition CopyName (src : list NameComponent) : list NameComponent := take (length src) src.

(** [url.QueryEscape] of the Go standard library. *)
Definition upperhex (d : Z) : Z := if d <? 10 then 48 + d else 55 + d.

Definition unreserved (c : Z) : bool :=
  ((97 <=? c) && (c <=? 122)) || ((65 <=? c) && (c <=? 90)) || ((48 <=? c) && (c <=? 57)) ||
  (c =? 45) || (c =? 95) || (c =? 46) || (c =? 126).

Definition escape_byte (c : Z) : list Z :=
  if c =? 32 then [43]
  else if unreserved c then [c]
  else [37; upperhex (Z.shiftr c 4); upperhex (Z.land c 15)].

Definition QueryEscape (s : list Z) : list Z := s ≫= escape_byte.

(** ** The packages outside the repository

    The NDN library ([ndn-dpdk]) gives the component types, the parser of
    names and their canonical text; the hash functions come from
    [golang.org/x/crypto] and the Go library.  The laws are what their
    documentation states. *)
(** A letter or a digit. *)
Definition word_char (c : Z) : Prop := 48 <= c <= 57 \/ 65 <= c <= 90 \/ 97 <= c <= 122.

Lemma hex_word_char c : fromHexChar c <> None -> word_char c.
Proof. unfold fromHexChar, word_char. repeat case_match; bool_go; (done || lia). Qed.

Class NdnLib := {
  TtImplicitSha256DigestComponent : Z;
  TtParametersSha256DigestComponent : Z;
  TtGenericNameComponent : Z;
  ParseName : list Z -> list NameComponent;
  NameString : list NameComponent -> list Z;
  keccak256 : list Z -> list Z;
  sha256 : list Z -> list Z;
}.

Class NdnLibLaws (L : NdnLib) : Prop := {
  generic_not_implicit : TtGenericNameComponent <> TtImplicitSha256DigestComponent;
  generic_not_params : TtGenericNameComponent <> TtParametersSha256DigestComponent;
  NameString_inj n m : NameString n = NameString m -> n = m;
  keccak256_length l : length (keccak256 l) = 32%nat;
  keccak256_bytes l : Forall byte_ok (keccak256 l);
  sha256_length l : length (sha256 l) = 32%nat;
  sha256_bytes l : Forall byte_ok (sha256 l);
  (* a component written with letters and digits only is a generic one *)
  ParseName_words ws :
    Forall (fun w => w <> [] /\ Forall word_char w) ws ->
    ParseName (ws ≫= fun w => 47 :: w) = MkComponent TtGenericNameComponent <$> ws;
}.

Section pretty.
  Context {L : NdnLib}.

(** [PrettyNameComponent]: [None] is the panic of the slice expression
    [hexv[:4]] on a digest shorter than two bytes. *)
Definition PrettyNameComponent (c : NameComponent) : option (list Z) :=
  if (ctype c =? TtImplicitSha256DigestComponent) || (ctype c =? TtParametersSha256DigestComponent)
  then
    let hexv := hex_encode (cvalue c) in
    if (length hexv <? 4)%nat then None else Some (take 4 hexv ++ [46; 46; 46])
  else Some (QueryEscape (cvalue c)).

Fixpoint PrettyName (name : list NameComponent) : option (list Z) :=
  match name with
  | [] => Some []
  | c :: name =>
    match PrettyNameComponent c, PrettyName name with
    | Some s, Some t => Some (47 :: s ++ t)
    | _, _ => None
    end
  end.

End pretty.

(** ** Escaping is injective *)

(** The inverse, [url.QueryUnescape], on well-formed text. *)
Definition unhex_upper (c : Z) : Z := if c <? 58 then c - 48 else c - 55.

Fixpoint unescape (fuel : nat) (s : list Z) : list Z :=
  match fuel with
  | O => []
  | S fuel =>
    match s with
    | [] => []
    | 37 :: a :: b :: s => unhex_upper a * 16 + unhex_upper b :: unescape fuel s
    | c :: s => (if c =? 43 then 32 else c) :: unescape fuel s
    end
  end.

Lemma unhex_upperhex d : 0 <= d < 16 -> unhex_upper (upperhex d) = d.
Proof.
  intros Hd. unfold unhex_upper, upperhex.
  destruct (d <? 10) eqn:E; bool_go.
  - rewrite (proj2 (Z.ltb_lt _ _)) by lia. lia.
  - rewrite (proj2 (Z.ltb_ge _ _)) by lia. lia.
Qed.

Lemma nibble_range c : byte_ok c -> 0 <= Z.shiftr c 4 < 16 /\ 0 <= Z.land c 15 < 16.
Proof.
  intros Hc. unfold byte_ok in Hc. split.
  - rewrite Z.shiftr_div_pow2 by lia. change (2 ^ 4) with 16. split.
    + apply Z.div_pos; lia.
    + apply Z.div_lt_upper_bound; lia.
  - change 15 with (Z.ones 4). rewrite Z.land_ones by lia. apply Z.mod_pos_bound. lia.
Qed.

Lemma nibble_split c : byte_ok c -> Z.shiftr c 4 * 16 + Z.land c 15 = c.
Proof.
  intros Hc. rewrite Z.shiftr_div_pow2 by lia. change 15 with (Z.ones 4).
  rewrite Z.land_ones by lia. change (2 ^ 4) with 16.
  pose proof (Z.div_mod c 16). lia.
Qed.

Lemma unreserved_range c :
  unreserved c = true -> c <> 37 /\ c <> 43 /\ c <> 47 /\ c <> 32.
Proof.
  intros H. split_and!; intros ->; vm_compute in H; discriminate.
Qed.

(** A byte that is neither a percent sign nor a plus reads as itself. *)
Lemma unescape_plain fuel c s :
  c <> 37 -> c <> 43 -> unescape (S fuel) (c :: s) = c :: unescape fuel s.
Proof.
  intros H1 H2. cbn [unescape]. rewrite (proj2 (Z.eqb_neq c 43)) by done.
  destruct c as [|p|p]; [done| |done].
  repeat (destruct p as [p|p|]; try done).
Qed.

Lemma unescape_escape fuel s :
  (length s <= fuel)%nat -> Forall byte_ok s -> unescape fuel (QueryEscape s) = s.
Proof.
  revert fuel. induction s as [|c s IH]; intros fuel Hf Hs; [by destruct fuel|].
  apply Forall_cons in Hs as [Hc Hs]. simpl in Hf. destruct fuel as [|fuel]; [lia|].
  unfold QueryEscape in *. rewrite bind_cons. unfold escape_byte.
  destruct (c =? 32) eqn:E1; bool_go.
  { subst c. cbn [app unescape]. f_equal. apply IH; [lia|done]. }
  destruct (unreserved c) eqn:E2.
  { apply unreserved_range in E2 as (? & ? & _). cbn [app].
    rewrite unescape_plain by done. f_equal. apply IH; [lia|done]. }
  destruct (nibble_range c Hc) as [Hh Hl].
  cbn [app unescape]. rewrite !unhex_upperhex, nibble_split by done.
  f_equal. apply IH; [lia|done].
Qed.

Lemma escape_no_slash s : Forall byte_ok s -> 47 ∉ QueryEscape s.
Proof.
  intros Hs (c & Hin & Hc)%list_elem_of_bind.
  rewrite Forall_forall in Hs. specialize (Hs c Hc).
  unfold escape_byte in Hin. destruct (c =? 32); [set_solver|].
  destruct (unreserved c) eqn:E.
  - apply unreserved_range in E. set_solver.
  - destruct (nibble_range c Hs) as [Hh Hl].
    assert (forall d, 0 <= d < 16 -> upperhex d <> 47).
    { intros d Hd. unfold upperhex. case_match; bool_go; lia. }
    apply elem_of_cons in Hin as [?|Hin]; [lia|].
    apply elem_of_cons in Hin as [E1|Hin]; [by apply (H _ Hh)|].
    apply list_elem_of_singleton in Hin. by apply (H _ Hl).
Qed.

Lemma QueryEscape_inj s t :
  Forall byte_ok s -> Forall byte_ok t -> QueryEscape s = QueryEscape t -> s = t.
Proof.
  intros Hs Ht E.
  rewrite <- (unescape_escape (length s + length t) s) by (lia || done).
  rewrite E. apply unescape_escape; [lia|done].
Qed.

(** Two words without slashes followed by the end or a slash. *)
Lemma app_slash_inj (a b u v : list Z) :
  47 ∉ a -> 47 ∉ b -> (u = [] \/ head u = Some 47) -> (v = [] \/ head v = Some 47) ->
  a ++ u = b ++ v -> a = b /\ u = v.
Proof.
  revert b. induction a as [|x a IH]; intros [|y b] Ha Hb Hu Hv E; simpl in *.
  - done.
  - subst u. destruct Hu as [|[= ->]]; [done|set_solver].
  - subst v. destruct Hv as [|[= ->]]; [done|set_solver].
  - injection E as -> E. destruct (IH b) as [-> ->]; set_solver.
Qed.

Section pretty_props.
  Context {L : NdnLib} {LL : NdnLibLaws L}.

(** Names of generic components, the ones a host prefix is made of. *)
Definition generic_name (n : list NameComponent) : Prop :=
  Forall (fun c => ctype c = TtGenericNameComponent /\ Forall byte_ok (cvalue c)) n.

Lemma PrettyName_generic n :
  generic_name n -> PrettyName n = Some (n ≫= fun c => 47 :: QueryEscape (cvalue c)).
Proof.
  induction 1 as [|c n [Ht _] _ IH]; [done|]. cbn [PrettyName].
  unfold PrettyNameComponent. rewrite Ht, IH.
  rewrite (proj2 (Z.eqb_neq _ _) generic_not_implicit).
  by rewrite (proj2 (Z.eqb_neq _ _) generic_not_params).
Qed.

(** [PrettyName] never panics on generic names and different generic
    names have different texts. *)
Theorem PrettyName_injective n m :
  generic_name n -> generic_name m ->
  PrettyName n <> None /\ (PrettyName n = PrettyName m -> n = m).
Proof.
  intros Hn Hm. split; [by rewrite PrettyName_generic|].
  rewrite !PrettyName_generic by done. intros [= E]. revert m Hm E.
  induction Hn as [|c n [Ht Hc] Hn IH]; intros [|d m] Hm E; try done.
  apply Forall_cons in Hm as [[Ht' Hd] Hm]. rewrite !bind_cons in E.
  injection E as E. apply app_slash_inj in E as [E1 E2].
  - apply QueryEscape_inj in E1; [|done..].
    f_equal; [|by apply IH]. destruct c, d. simpl in *. congruence.
  - by apply escape_no_slash.
  - by apply escape_no_slash.
  - destruct n; [by left|by right].
  - destruct m; [by left|by right].
Qed.

End pretty_props.

(** A concrete library, for the examples: names are read as one component and
    written with length prefixes, hashes truncate or pad. *)
Fixpoint split_slash (s : list Z) : list Z * list (list Z) :=
  match s with
  | [] => ([], [])
  | c :: s =>
    let '(w, ws) := split_slash s in
    if c =? 47 then ([], if bool_decide (w = []) then ws else w :: ws) else (c :: w, ws)
  end.

Lemma split_slash_word a s :
  Forall word_char a -> split_slash (a ++ s) = (a ++ (split_slash s).1, (split_slash s).2).
Proof.
  induction 1 as [|c a Hc Ha IH]; [simpl; by destruct (split_slash s)|]. cbn [app split_slash]. rewrite IH.
  rewrite (proj2 (Z.eqb_neq c 47)); [done|]. unfold word_char in Hc. lia.
Qed.

Lemma split_slash_words ws :
  Forall (fun w => w <> [] /\ Forall word_char w) ws -> split_slash (ws ≫= fun w => 47 :: w) = ([], ws).
Proof.
  induction 1 as [|w ws [Hw Hc] Hws IH]; [done|]. cbn [mbind list_bind] in *. cbn [app split_slash].
  rewrite split_slash_word by done. rewrite IH. cbn [fst snd]. rewrite app_nil_r. change (47 =? 47) with true.
  cbn iota. by rewrite bool_decide_eq_false_2.
Qed.

#[export] Instance demo_lib : NdnLib := {|
  TtImplicitSha256DigestComponent := 1;
  TtParametersSha256DigestComponent := 2;
  TtGenericNameComponent := 8;
  ParseName s := MkComponent 8 <$> (split_slash (47 :: s)).2;
  NameString n :=
    n ≫= fun c => ctype c :: Z.of_nat (length (cvalue c)) :: cvalue c;
  keccak256 l := copy_array 32 ((fun b => b mod 256) <$> l);
  sha256 l := copy_array 32 ((fun b => b mod 256) <$> l);
|}.

#[export] Instance demo_lib_laws : NdnLibLaws demo_lib.
Proof.
  split; [done|done| | | | | |]; cbn [NameString keccak256 sha256 ParseName demo_lib].
  - intros n. induction n as [|[t v] n IH]; intros [|[t' v'] m] E; try done.
    rewrite !bind_cons in E. simpl in E. injection E as -> El E.
    apply app_inj_1 in E as [-> E]; [|lia]. f_equal. by apply IH.
  - intros l. apply length_copy_array.
  - intros l. apply copy_array_ok. apply Forall_fmap, Forall_true.
    intros x. simpl. unfold byte_ok. pose proof (Z.mod_pos_bound x 256). lia.
  - intros l. apply length_copy_array.
  - intros l. apply copy_array_ok. apply Forall_fmap, Forall_true.
    intros x. simpl. unfold byte_ok. pose proof (Z.mod_pos_bound x 256). lia.
  - intros ws Hws. pose proof (split_slash_words ws Hws) as E. cbn [split_slash]. rewrite E. done.
Qed.

Lemma PrettyName_injective_witness :
  PrettyName [MkComponent 8 [97; 47]] <> None /\
  (PrettyName [MkComponent 8 [97; 47]] = PrettyName [MkComponent 8 [97]; MkComponent 8 []] ->
   [MkComponent 8 [97; 47]] = [MkComponent 8 [97]; MkComponent 8 []]).
Proof.
  apply (PrettyName_injective (L := demo_lib)); repeat constructor; simpl; lia.
Defined.

Lemma BuildName_concat names : BuildName names = concat names.
Proof.
  unfold BuildName. assert (forall acc, foldl (fun a n => a ++ n) acc names = acc ++ concat names) as H.
  { induction names as [|n names IH]; intros acc; simpl; [by rewrite app_nil_r|].
    by rewrite IH, app_assoc. }
  apply H.
Qed.
