(* ===== verification/Pit.v ===== *)
(** * Pending Interests ([src/ndn/ndnsuit/pit.go], [itimer.go], [face.go])

    A face keeps the Interests that it sent in a table by name and in a queue
    ordered by expiry; an answer, a refusal or the timer ends them.  The
    waiter of an Interest has a channel with one slot. *)

From S2P Require Import Prelude Bytes GoHeap Names.
Local Open Scope Z_scope.

Inductive perror := PErrTimeout | PErrNack | PErrWrite.

Section pit.
  Context {L : NdnLib} {D : Type} (dname : D -> list NameComponent).

(** [pi_got] is what the waiter took from the channel. *)
Record pInterest := MkPi {
  pi_name : list NameComponent;
  pi_expired : Z;
  pi_ch : list (res perror D);
  pi_got : list (res perror D);
  pi_satisfied : bool;
}.

(** An entry of the queue is the address of an Interest with its expiry, which
    does not change. *)
Record pitImpl := MkPit {
  pit_store : list pInterest;
  pit_ts : list (nat * Z);
  pit_list : gmap (list Z) (list nat);
}.

Definition newPit : pitImpl := MkPit [] [] ∅.

Definition ipq_Less (x y : nat * Z) : bool := x.2 <? y.2.

(** [pInterest.satisfy]; [None] while the slot of the channel is taken. *)
Definition pi_satisfy (p : pInterest) (o : res perror D) : option pInterest :=
  match pi_ch p with
  | [] => Some (MkPi (pi_name p) (pi_expired p) [o] (pi_got p) true)
  | _ => None
  end.

Definition satisfy_at (st : list pInterest) (a : nat) (o : res perror D) : option (list pInterest) :=
  p ← st !! a; p ← pi_satisfy p o; Some (<[a := p]> st).

Fixpoint satisfy_all (st : list pInterest) (l : list nat) (o : res perror D) : option (list pInterest) :=
  match l with
  | [] => Some st
  | a :: l => st ← satisfy_at st a o; satisfy_all st l o
  end.

Definition pit_satisfy (t : pitImpl) (n : list NameComponent) (o : res perror D) : option pitImpl :=
  st ← satisfy_all (pit_store t) (default [] (pit_list t !! NameString n)) o;
  Some (MkPit st (pit_ts t) (delete (NameString n) (pit_list t))).

Definition pit_insert (t : pitImpl) (n : list NameComponent) (expired : Z) : pitImpl :=
  let a := length (pit_store t) in
  MkPit (pit_store t ++ [MkPi n expired [] [] false]) (heap_push ipq_Less (pit_ts t) (a, expired))
    (<[NameString n := default [] (pit_list t !! NameString n) ++ [a]]> (pit_list t)).

(** [checkexpiring]: a round removes an entry of the queue. *)
Fixpoint expire_loop (fuel : nat) (st : list pInterest) (q : list (nat * Z)) (now : Z) (expired : list nat)
  : option (list nat * list (nat * Z)) :=
  match fuel with
  | O => None
  | S fuel =>
    match q with
    | [] => Some (expired, q)
    | (a, _) :: _ =>
      p ← st !! a;
      if pi_satisfied p then '(_, q) ← heap_pop ipq_Less q; expire_loop fuel st q now expired
      else if pi_expired p <=? now then '(_, q) ← heap_pop ipq_Less q; expire_loop fuel st q now (expired ++ [a])
      else Some (expired, q)
    end
  end.

Definition checkexpiring (t : pitImpl) (now : Z) : option (list nat * pitImpl) :=
  '(l, q) ← expire_loop (S (length (pit_ts t))) (pit_store t) (pit_ts t) now [];
  Some (l, MkPit (pit_store t) q (pit_list t)).

Definition isgone (st : list pInterest) (a : nat) : bool := match st !! a with Some p => pi_satisfied p | None => false end.

(** A round of [refresh]. *)
Definition refresh_one (t : pitImpl) (a : nat) : option pitImpl :=
  st ← satisfy_at (pit_store t) a (Err PErrTimeout);
  p ← st !! a;
  let iname := NameString (pi_name p) in
  let newpil := filter (fun b => isgone st b = false) (default [] (pit_list t !! iname)) in
  Some (MkPit st (pit_ts t) (match newpil with [] => delete iname (pit_list t) | _ => <[iname := newpil]> (pit_list t) end)).

Fixpoint refresh_loop (t : pitImpl) (l : list nat) : option pitImpl :=
  match l with
  | [] => Some t
  | a :: l => t ← refresh_one t a; refresh_loop t l
  end.

Definition pit_refresh (t : pitImpl) (now : Z) : option pitImpl := '(l, t) ← checkexpiring t now; refresh_loop t l.

(** ** The face *)

Definition INTEREST_LIFE_TIME : Z := 4 * 10 ^ 9.

(** [AsyncSendInterest] at time [now]; [written] is the outcome of the write.
    [newpInterest] computes the expiry. *)
Definition AsyncSendInterest (t : pitImpl) (n : list NameComponent) (now : Z) (written : bool) : option pitImpl :=
  let t := pit_insert t n (s64 (now + INTEREST_LIFE_TIME)) in
  if written then Some t else pit_satisfy t n (Err PErrWrite).

(** [run] for a Data packet and for a Nack. *)
Definition recvData (t : pitImpl) (d : D) : option pitImpl := pit_satisfy t (dname d) (Ok d).
Definition recvNack (t : pitImpl) (n : list NameComponent) : option pitImpl := pit_satisfy t n (Err PErrNack).

(** The waiter of Interest [a] receives. *)
Definition pi_receive (t : pitImpl) (a : nat) : option pitImpl :=
  p ← pit_store t !! a;
  match pi_ch p with
  | [] => None
  | o :: ch =>
    Some (MkPit (<[a := MkPi (pi_name p) (pi_expired p) ch (pi_got p ++ [o]) (pi_satisfied p)]> (pit_store t)) (pit_ts t) (pit_list t))
  end.

(** The goroutines of a face; [refresh] runs without interruption. *)
Inductive face_step (t : pitImpl) : pitImpl -> Prop :=
| fs_send n now written t' : AsyncSendInterest t n now written = Some t' -> face_step t t'
| fs_data d t' : recvData t d = Some t' -> face_step t t'
| fs_nack n t' : recvNack t n = Some t' -> face_step t t'
| fs_tick now t' : pit_refresh t now = Some t' -> face_step t t'
| fs_receive a t' : pi_receive t a = Some t' -> face_step t t'.

(** ** The invariant *)

Definition ipq_le (x y : nat * Z) : Prop := x.2 <= y.2.

#[local] Instance ipq_order : HeapOrder (fun _ => True) ipq_Less ipq_le.
Proof.
  split; unfold ipq_Less, ipq_le.
  - split; [intros x; lia|intros x y z; lia].
  - intros x y _ _ ?%Z.ltb_lt. lia.
  - intros x y _ _ ?%Z.ltb_ge. lia.
Qed.

(** The outcome of an Interest: none while it is pending, else exactly one,
    and a Data packet is one of its name. *)
Definition pi_ok (p : pInterest) : Prop :=
  if pi_satisfied p then exists o, pi_got p ++ pi_ch p = [o] /\ match o with Ok d => NameString (dname d) = NameString (pi_name p) | Err _ => True end
  else pi_got p = [] /\ pi_ch p = [].

(** [late] are the Interests that [refresh] still has to end. *)
Record pit_inv (late : list nat) (t : pitImpl) : Prop := MkPitInv {
  pv_ok : forall a p, pit_store t !! a = Some p -> pi_ok p;
  pv_list : forall s l, pit_list t !! s = Some l -> NoDup l /\ forall a, a ∈ l -> exists p,
    pit_store t !! a = Some p /\ NameString (pi_name p) = s /\ pi_satisfied p = false;
  pv_pending : forall a p, pit_store t !! a = Some p -> pi_satisfied p = false ->
    a ∈ default [] (pit_list t !! NameString (pi_name p)) /\ ((a, pi_expired p) ∈ pit_ts t \/ a ∈ late);
  pv_heap : is_heap ipq_le (pit_ts t);
  pv_ts : forall a e, (a, e) ∈ pit_ts t -> exists p, pit_store t !! a = Some p /\ pi_expired p = e;
  pv_nodup : NoDup (pit_ts t).*1;
  pv_late : NoDup late /\ forall a, a ∈ late -> (exists p, pit_store t !! a = Some p /\ pi_satisfied p = false) /\ a ∉ (pit_ts t).*1;
}.

Definition answered (p : pInterest) (o : res perror D) : pInterest := MkPi (pi_name p) (pi_expired p) [o] (pi_got p) true.

(** The Interests of [l] are answered and no other one. *)
Definition ends (st : list pInterest) (l : list nat) (o : res perror D) (st' : list pInterest) : Prop :=
  forall a, st' !! a = if decide (a ∈ l) then (fun p => answered p o) <$> st !! a else st !! a.

Lemma satisfy_at_ends st a o p : st !! a = Some p -> pi_ch p = [] -> satisfy_at st a o = Some (<[a := answered p o]> st) /\ ends st [a] o (<[a := answered p o]> st).
Proof.
  intros Hp Hc. unfold satisfy_at. rewrite Hp. cbn. unfold pi_satisfy. rewrite Hc. split; [done|]. intros b.
  destruct (decide (b = a)) as [->|Hne].
  - rewrite list_lookup_insert_eq by (by eapply lookup_lt_Some). by rewrite decide_True, Hp by set_solver.
  - rewrite list_lookup_insert_ne by done. by rewrite decide_False by set_solver.
Qed.

Lemma satisfy_all_ends st l o :
  NoDup l -> (forall a, a ∈ l -> exists p, st !! a = Some p /\ pi_ch p = []) ->
  exists st', satisfy_all st l o = Some st' /\ ends st l o st'.
Proof.
  revert st. induction l as [|a l IH]; intros st Hnd Hl.
  { exists st. split; [done|]. intros b. by rewrite decide_False by set_solver. }
  apply NoDup_cons in Hnd as [Ha Hnd]. destruct (Hl a) as (p & Hp & Hc); [by left|].
  destruct (satisfy_at_ends st a o p Hp Hc) as [E He]. cbn [satisfy_all]. rewrite E. cbn [mbind option_bind].
  destruct (IH (<[a := answered p o]> st) Hnd) as (st' & E' & He').
  { intros b Hb. destruct (Hl b) as (q & Hq & Hcq); [by right|]. exists q. rewrite list_lookup_insert_ne by set_solver. done. }
  exists st'. split; [done|]. intros b. rewrite He', He. destruct (decide (b = a)) as [->|Hne].
  - by rewrite decide_False, !decide_True by set_solver.
  - rewrite (decide_False (P := b ∈ [a])) by set_solver. destruct (decide (b ∈ l)).
    + by rewrite decide_True by set_solver.
    + by rewrite decide_False by set_solver.
Qed.

Lemma pending_ch t late a p : pit_inv late t -> pit_store t !! a = Some p -> pi_satisfied p = false -> pi_ch p = [].
Proof. intros Hi Hp Hs. pose proof (pv_ok _ _ Hi a p Hp) as Hok. unfold pi_ok in Hok. rewrite Hs in Hok. by destruct Hok. Qed.

(** The conclusion of an answer to a set of pending Interests. *)
Lemma ends_inv late late' t l o st' ts' m' :
  pit_inv late t -> ends (pit_store t) l o st' ->
  (forall a p, a ∈ l -> pit_store t !! a = Some p -> pi_satisfied p = false /\
     match o with Ok d => NameString (dname d) = NameString (pi_name p) | Err _ => True end) ->
  (forall s k, m' !! s = Some k -> exists k0, pit_list t !! s = Some k0 /\ k ⊆ k0 /\ NoDup k /\ forall a, a ∈ k -> a ∉ l) ->
  (forall a p, a ∉ l -> pit_store t !! a = Some p -> pi_satisfied p = false ->
     a ∈ default [] (m' !! NameString (pi_name p)) /\ ((a, pi_expired p) ∈ ts' \/ a ∈ late')) ->
  is_heap ipq_le ts' -> NoDup ts'.*1 -> (forall x, x ∈ ts' -> x ∈ pit_ts t) ->
  (NoDup late' /\ forall a, a ∈ late' -> a ∉ l /\ a ∉ ts'.*1 /\ exists p, pit_store t !! a = Some p /\ pi_satisfied p = false) ->
  pit_inv late' (MkPit st' ts' m').
Proof.
  intros Hi He Hl Hm Hp Hh Hnd Hts [Hln Hlate]. split; cbn.
  - intros a p Ha. rewrite He in Ha. case_decide as Hin; [|by eapply (pv_ok _ _ Hi)].
    apply fmap_Some in Ha as (p0 & Hp0 & ->). destruct (Hl a p0 Hin Hp0) as [Hs Ho]. pose proof (pv_ok _ _ Hi a p0 Hp0) as Hok.
    unfold pi_ok in *. rewrite Hs in Hok. destruct Hok as [Hg _]. cbn. exists o. by rewrite Hg.
  - intros s k Hk. destruct (Hm s k Hk) as (k0 & Hk0 & Hsub & Hndk & Hout). split; [done|]. intros a Ha.
    destruct (proj2 (pv_list _ _ Hi s k0 Hk0) a (Hsub a Ha)) as (p & Hpa & ?). exists p. split; [|done]. rewrite He, decide_False by auto. done.
  - intros a p Ha Hs. rewrite He in Ha. case_decide as Hin; [|by apply Hp].
    apply fmap_Some in Ha as (p0 & _ & ->). done.
  - done.
  - intros a e Hae. destruct (pv_ts _ _ Hi a e (Hts _ Hae)) as (p & Hpa & He'). rewrite He. case_decide; [|by exists p].
    exists (answered p o). by rewrite Hpa.
  - done.
  - split; [done|]. intros a Ha. destruct (Hlate a Ha) as (Hout & Hq & p & Hpa & Hs). split; [|done]. exists p. by rewrite He, decide_False.
Qed.

Definition answers (n : list NameComponent) (o : res perror D) : Prop :=
  match o with Ok d => NameString (dname d) = NameString n | Err _ => True end.

(** [satisfy] never waits for a channel, and answers what is pending under the
    name. *)
Lemma pit_satisfy_ok t n o :
  pit_inv [] t -> answers n o ->
  exists t', pit_satisfy t n o = Some t' /\ pit_inv [] t' /\
    forall a p, pit_store t !! a = Some p -> pi_satisfied p = false -> NameString (pi_name p) = NameString n ->
      pit_store t' !! a = Some (answered p o).
Proof.
  intros Hi Ho. unfold pit_satisfy. set (l := default [] (pit_list t !! NameString n)).
  assert (NoDup l /\ forall a, a ∈ l -> exists p, pit_store t !! a = Some p /\ NameString (pi_name p) = NameString n /\ pi_satisfied p = false) as [Hnd Hl].
  { unfold l. destruct (pit_list t !! NameString n) as [k|] eqn:E; [exact (pv_list _ _ Hi _ _ E)|]. split; [apply NoDup_nil_2|set_solver]. }
  destruct (satisfy_all_ends (pit_store t) l o Hnd) as (st' & E & He).
  { intros a Ha. destruct (Hl a Ha) as (p & Hp & _ & Hs). exists p. split; [done|]. by eapply pending_ch. }
  rewrite E. cbn. eexists. split; [done|].
  assert (forall a p, pit_store t !! a = Some p -> pi_satisfied p = false -> NameString (pi_name p) = NameString n -> a ∈ l) as Hall.
  { intros a p Hp Hs Hn. unfold l. rewrite <- Hn. apply (pv_pending _ _ Hi a p Hp Hs). }
  split; [|intros a p Hp Hs Hn; cbn; rewrite He, decide_True by eauto; by rewrite Hp].
  eapply ends_inv; [exact Hi|exact He|..].
  - intros a p Ha Hp. destruct (Hl a Ha) as (p' & Hp' & Hn & Hs). simplify_eq. split; [done|]. unfold answers in Ho.
    destruct o; [congruence|done].
  - intros s0 k [Hne Hk]%lookup_delete_Some. exists k. split; [done|]. split; [done|]. split; [apply (pv_list _ _ Hi _ _ Hk)|].
    intros a Ha Hin. destruct (proj2 (pv_list _ _ Hi _ _ Hk) a Ha) as (p & Hp & Hn & _). destruct (Hl a Hin) as (p' & Hp' & Hn' & _). congruence.
  - intros a p Hout Hp Hs. destruct (pv_pending _ _ Hi a p Hp Hs) as [H1 H2]. split; [|done].
    rewrite lookup_delete_ne; [done|]. intros Heq. apply Hout. by eapply Hall.
  - apply (pv_heap _ _ Hi).
  - apply (pv_nodup _ _ Hi).
  - done.
  - split; [apply NoDup_nil_2|set_solver].
Qed.

Lemma pit_insert_inv t n e : pit_inv [] t -> pit_inv [] (pit_insert t n e).
Proof.
  intros Hi. unfold pit_insert. set (a := length (pit_store t)).
  destruct (heap_push_spec (P := fun _ => True) (less := ipq_Less) (le := ipq_le) (pit_ts t) (a, e)) as [Hp Hh];
    [by apply Forall_true|done|apply (pv_heap _ _ Hi)|].
  assert (forall k, k ∈ (pit_ts t).*1 -> (k < a)%nat) as Hlt.
  { intros k ([k' e'] & -> & Hin)%list_elem_of_fmap. destruct (pv_ts _ _ Hi _ _ Hin) as (p & Hpk & _). by eapply lookup_lt_Some. }
  assert (forall s l b, pit_list t !! s = Some l -> b ∈ l -> (b < a)%nat) as Hlt2.
  { intros s0 l b Hs Hb. destruct (proj2 (pv_list _ _ Hi s0 l Hs) b Hb) as (p & Hpb & _). by eapply lookup_lt_Some. }
  split; cbn.
  - intros b p [[_ Hb]|[_ <-]]%lookup_snoc_Some; [by eapply (pv_ok _ _ Hi)|done].
  - intros s0 l. destruct (decide (s0 = NameString n)) as [->|Hne].
    + rewrite lookup_insert_eq. intros [= <-]. destruct (pit_list t !! NameString n) as [k|] eqn:E; cbn.
      * destruct (pv_list _ _ Hi _ _ E) as [Hnd Hk]. split.
        { apply NoDup_app. split; [done|]. split; [|apply NoDup_singleton]. intros b Hb ->%list_elem_of_singleton. specialize (Hlt2 _ _ _ E Hb). lia. }
        intros b [Hb|Hb%list_elem_of_singleton]%elem_of_app.
        { destruct (Hk b Hb) as (p & Hpb & ?). exists p. split; [|done]. by apply lookup_app_l_Some. }
        subst b. eexists. split; [apply lookup_snoc_Some; by right|done].
      * split; [apply NoDup_singleton|]. intros b ->%list_elem_of_singleton. eexists. split; [apply lookup_snoc_Some; by right|done].
    + rewrite lookup_insert_ne by done. intros Hs. destruct (pv_list _ _ Hi _ _ Hs) as [Hnd Hk]. split; [done|]. intros b Hb.
      destruct (Hk b Hb) as (p & Hpb & ?). exists p. split; [|done]. by apply lookup_app_l_Some.
  - intros b p [[_ Hb]|[-> <-]]%lookup_snoc_Some Hs.
    + destruct (pv_pending _ _ Hi b p Hb Hs) as [H1 [H2|H2]]; [|set_solver]. split; [|left; rewrite Hp; by right].
      destruct (decide (NameString (pi_name p) = NameString n)) as [Heq|Hne]; [|by rewrite lookup_insert_ne].
      rewrite Heq in H1 |- *. rewrite lookup_insert_eq. cbn. apply elem_of_app. by left.
    + cbn. rewrite lookup_insert_eq. cbn. split; [set_solver|]. left. rewrite Hp. by left.
  - done.
  - intros b e'. rewrite Hp. intros [[= -> ->]|Hb]%elem_of_cons; [eexists; split; [apply lookup_snoc_Some; by right|done]|].
    destruct (pv_ts _ _ Hi _ _ Hb) as (p & Hpb & He). exists p. split; [|done]. by apply lookup_app_l_Some.
  - rewrite Hp. cbn. apply NoDup_cons. split; [|apply (pv_nodup _ _ Hi)]. intros Hin. specialize (Hlt _ Hin). lia.
  - split; [apply NoDup_nil_2|set_solver].
Qed.

(** [checkexpiring] ends and takes out the Interests that are late. *)
Lemma expire_loop_ok fuel t q now late :
  (length q < fuel)%nat -> pit_inv late (MkPit (pit_store t) q (pit_list t)) ->
  exists late' q', expire_loop fuel (pit_store t) q now late = Some (late', q') /\
    pit_inv late' (MkPit (pit_store t) q' (pit_list t)) /\ (forall a e, (a, e) ∈ q' -> now < e) /\
    (forall a, a ∈ late' -> a ∈ late \/ exists p, pit_store t !! a = Some p /\ pi_expired p <= now).
Proof.
  revert q late. induction fuel as [|fuel IH]; intros q late Hf Hi; [lia|]. cbn [expire_loop].
  destruct q as [|[a e] q0]; [exists late, []; split_and!; [done|done|set_solver|by left]|]. set (q := (a, e) :: q0) in *.
  destruct (pv_ts _ _ Hi a e) as (p & Hp & He); [cbn; by left|]. cbn in Hp. rewrite Hp. cbn [mbind option_bind].
  destruct (heap_pop_spec (P := fun _ => True) (less := ipq_Less) (le := ipq_le) q) as (x & q1 & E & Hperm & Hh & _);
    [by apply Forall_true|apply (pv_heap _ _ Hi)|done|].
  pose proof (heap_pop_head _ _ _ _ E) as ->. pose proof (pv_nodup _ _ Hi) as Hnd. cbn in Hnd.
  assert (NoDup ((a, e) :: q1).*1) as Hnd1 by (by rewrite <- Hperm). apply NoDup_cons in Hnd1 as [Hna Hnd1].
  pose proof (Permutation_length Hperm) as Hlen. cbn [length] in Hlen.
  assert (forall b e', (b, e') ∈ q -> (b, e') ∈ q1 \/ b = a) as Hin by (intros b e'; rewrite Hperm; set_solver).
  assert (forall b, b ∈ q1.*1 -> b ∈ q.*1) as Hsub by (intros b Hb; rewrite Hperm; by right).
  assert (forall l', NoDup l' -> (forall b, b ∈ late -> b ∈ l') -> (pi_satisfied p = false -> a ∈ l') ->
    (forall b, b ∈ l' -> b ∈ late \/ b = a /\ pi_satisfied p = false) -> pit_inv l' (MkPit (pit_store t) q1 (pit_list t))) as Hnext.
  { intros l' Hl1 Hl2 Hl3 Hl4. destruct Hi as [I1 I2 I3 I4 I5 I6 I7]. cbn [pit_store pit_ts pit_list] in *. split; cbn; try done.
    - intros b pb Hb Hs. destruct (I3 b pb Hb Hs) as [H1 [H2|H2]]; (split; [done|]).
      + destruct (Hin _ _ H2) as [?| ->]; [by left|right]. apply Hl3. congruence.
      + right. auto.
    - intros b e' Hb. apply I5. rewrite Hperm. by right.
    - split; [done|]. intros b Hb. destruct (Hl4 b Hb) as [Hbl|[-> Hs]].
      + destruct (proj2 I7 b Hbl) as [H1 H2]. split; [done|]. auto.
      + split; [by exists p|done]. }
  destruct (pi_satisfied p) eqn:Es; [|destruct (pi_expired p <=? now) eqn:Ee; bool_go].
  - rewrite E. cbn [mbind option_bind]. apply IH; [lia|]. apply Hnext; auto; [|done]. apply (proj1 (pv_late _ _ Hi)).
  - rewrite E. cbn [mbind option_bind]. destruct (IH q1 (late ++ [a])) as (late' & q' & E' & Hi' & Hq' & Hl'); [lia| |].
    2: { exists late', q'. split_and!; [done|done|done|]. intros b Hb. destruct (Hl' b Hb) as [[?| ->%list_elem_of_singleton]%elem_of_app|?]; eauto. }
    apply Hnext; [|set_solver..].
    apply NoDup_app. split; [apply (proj1 (pv_late _ _ Hi))|]. split; [|apply NoDup_singleton]. intros b Hb ->%list_elem_of_singleton.
    destruct (proj2 (pv_late _ _ Hi) a Hb) as [_ H2]. apply H2. by left.
  - exists late, q. split_and!; [done|exact Hi| |by left]. intros b e' Hb.
    pose proof (heap_root_min (le := ipq_le) (P := fun _ => True) (less := ipq_Less) q (b, e') (pv_heap _ _ Hi) Hb) as Hmin.
    unfold ipq_le in Hmin. cbn in Hmin. lia.
Qed.

Lemma refresh_one_ok late t a :
  pit_inv (a :: late) t ->
  exists t', refresh_one t a = Some t' /\ pit_inv late t' /\ pit_ts t' = pit_ts t /\ ends (pit_store t) [a] (Err PErrTimeout) (pit_store t').
Proof.
  intros Hi. destruct (proj2 (pv_late _ _ Hi) a) as [(p & Hp & Hs) Hna]; [by left|].
  pose proof (proj1 (pv_late _ _ Hi)) as Hnd. apply NoDup_cons in Hnd as [Hnl Hnd].
  destruct (satisfy_at_ends (pit_store t) a (Err PErrTimeout) p Hp (pending_ch _ _ _ _ Hi Hp Hs)) as [E He].
  unfold refresh_one. rewrite E. cbn [mbind option_bind]. set (st := <[a := _]> _) in *.
  assert (st !! a = Some (answered p (Err PErrTimeout))) as Ha by (rewrite He, decide_True, Hp by set_solver; done).
  rewrite Ha. cbn [mbind option_bind pi_name answered].
  set (iname := NameString (pi_name p)). set (k0 := default [] (pit_list t !! iname)).
  set (newpil := filter _ k0). eexists. split; [done|]. cbn [pit_ts pit_store]. split; [|done].
  assert (forall b, b ∈ newpil <-> b ∈ k0 /\ b <> a) as Hnew.
  { intros b. unfold newpil. rewrite list_elem_of_filter. unfold isgone. split.
    - intros [Hg Hb]. split; [done|]. intros ->. by rewrite Ha in Hg.
    - intros [Hb Hne]. split; [|done]. rewrite He, decide_False by set_solver. unfold k0 in Hb.
      destruct (pit_list t !! iname) as [k|] eqn:Ek; [|set_solver]. destruct (proj2 (pv_list _ _ Hi _ _ Ek) b Hb) as (q & -> & _ & Hq). done. }
  set (m' := match newpil with [] => _ | _ => _ end).
  assert (forall s, default [] (m' !! s) = if decide (s = iname) then newpil else default [] (pit_list t !! s)) as Hm.
  { intros s. unfold m'. case_decide as Hsi.
    - subst s. destruct newpil; [by rewrite lookup_delete_eq|by rewrite lookup_insert_eq].
    - destruct newpil; [by rewrite lookup_delete_ne|by rewrite lookup_insert_ne]. }
  eapply ends_inv; [exact Hi|exact He|..].
  - intros b q ->%list_elem_of_singleton Hq. by simplify_eq.
  - intros s k Hk. pose proof (Hm s) as Hd. rewrite Hk in Hd. cbn in Hd. case_decide as Hsi.
    + subst s k. unfold k0 in Hnew. destruct (pit_list t !! iname) as [k|] eqn:Ek.
      * exists k. split; [done|]. split; [intros b Hb; by apply Hnew in Hb as [? _]|]. split; [|intros b [_ ?]%Hnew; set_solver].
        unfold newpil, k0. cbn. apply NoDup_filter, (pv_list _ _ Hi _ _ Ek).
      * exfalso. unfold m' in Hk. unfold newpil, k0 in Hk. cbn in Hk. by rewrite lookup_delete_eq in Hk.
    + destruct (pit_list t !! s) as [k1|] eqn:Ek.
      * cbn in Hd. subst k. exists k1. split; [done|]. split; [done|]. split; [apply (pv_list _ _ Hi _ _ Ek)|].
        intros b Hb ->%list_elem_of_singleton. destruct (proj2 (pv_list _ _ Hi _ _ Ek) a Hb) as (q & Hq & Hn & _). by simplify_eq.
      * exfalso. unfold m' in Hk. destruct newpil; [rewrite lookup_delete_ne in Hk by done|rewrite lookup_insert_ne in Hk by done]; congruence.
  - intros b q Hb Hq Hsq. destruct (pv_pending _ _ Hi b q Hq Hsq) as [H1 H2]. assert (b <> a) by set_solver. split.
    + rewrite Hm. case_decide as Hsi; [|done]. apply Hnew. unfold k0. by rewrite <- Hsi.
    + destruct H2 as [?|H2]; [by left|right]. set_solver.
  - apply (pv_heap _ _ Hi).
  - apply (pv_nodup _ _ Hi).
  - done.
  - split; [done|]. intros b Hb. destruct (proj2 (pv_late _ _ Hi) b) as [H1 H2]; [by right|]. split_and!; [|done|done].
    intros ->%list_elem_of_singleton. done.
Qed.

Lemma refresh_loop_ok late t :
  pit_inv late t ->
  exists t', refresh_loop t late = Some t' /\ pit_inv [] t' /\ pit_ts t' = pit_ts t /\ ends (pit_store t) late (Err PErrTimeout) (pit_store t').
Proof.
  revert t. induction late as [|a late IH]; intros t Hi.
  { exists t. split_and!; [done|done|done|]. intros b. by rewrite decide_False by set_solver. }
  destruct (refresh_one_ok late t a Hi) as (t1 & E1 & Hi1 & Hts1 & He1). destruct (IH t1 Hi1) as (t2 & E2 & Hi2 & Hts2 & He2).
  exists t2. cbn [refresh_loop]. rewrite E1. cbn [mbind option_bind]. split_and!; [done|done|congruence|].
  pose proof (proj1 (pv_late _ _ Hi)) as Hnd. apply NoDup_cons in Hnd as [Hnl _].
  intros b. rewrite He2, He1. destruct (decide (b = a)) as [->|Hne].
  - by rewrite decide_False, !decide_True by set_solver.
  - rewrite (decide_False (P := b ∈ [a])) by set_solver. destruct (decide (b ∈ late)).
    + by rewrite decide_True by set_solver.
    + by rewrite decide_False by set_solver.
Qed.

(** [refresh] ends the Interests that are late, and only them. *)
Lemma refresh_ok t now :
  pit_inv [] t ->
  exists t', pit_refresh t now = Some t' /\ pit_inv [] t' /\ forall a p, pit_store t !! a = Some p ->
    pit_store t' !! a = Some (if negb (pi_satisfied p) && (pi_expired p <=? now) then answered p (Err PErrTimeout) else p).
Proof.
  intros Hi. destruct (expire_loop_ok (S (length (pit_ts t))) t (pit_ts t) now []) as (late & q & E & Hi1 & Hq & Hl); [lia|by destruct t|].
  destruct (refresh_loop_ok late _ Hi1) as (t' & E' & Hi' & _ & He). exists t'. unfold pit_refresh, checkexpiring. rewrite E. cbn.
  split_and!; [done|done|]. intros a p Hp. rewrite He. cbn [pit_store]. rewrite Hp. cbn. case_decide as Hin.
  - destruct (proj2 (pv_late _ _ Hi1) a Hin) as [(p' & Hp' & Hs) _]. destruct (Hl a Hin) as [?|(p2 & Hp2 & Hle)]; [set_solver|].
    cbn in Hp'. simplify_eq. rewrite Hs. by rewrite (proj2 (Z.leb_le _ _) Hle).
  - destruct (pi_satisfied p) eqn:Hs; [done|]. cbn. destruct (pi_expired p <=? now) eqn:Ele; [|done]. bool_go.
    destruct (pv_pending _ _ Hi1 a p Hp Hs) as [_ [Hx|?]]; [|done]. specialize (Hq _ _ Hx). lia.
Qed.

Lemma pi_receive_inv t a t' : pit_inv [] t -> pi_receive t a = Some t' -> pit_inv [] t'.
Proof.
  intros Hi. unfold pi_receive. destruct (pit_store t !! a) as [p|] eqn:Hp; [|done]. cbn. destruct (pi_ch p) as [|o ch] eqn:Ec; [done|].
  intros [= <-]. set (p' := MkPi _ _ _ _ _).
  assert (pi_ok p') as Hok.
  { pose proof (pv_ok _ _ Hi a p Hp) as H. unfold pi_ok in *. cbn. destruct (pi_satisfied p); [|destruct H; congruence].
    destruct H as (o' & H & Ho). exists o'. rewrite Ec in H. by rewrite <- app_assoc. }
  assert (forall b q, <[a := p']> (pit_store t) !! b = Some q -> exists q0, pit_store t !! b = Some q0 /\ pi_name q = pi_name q0 /\
    pi_expired q = pi_expired q0 /\ pi_satisfied q = pi_satisfied q0 /\ pi_ok q) as Hback.
  { intros b q. destruct (decide (b = a)) as [->|Hne].
    - rewrite list_lookup_insert_eq by (by eapply lookup_lt_Some). intros [= <-]. by exists p.
    - rewrite list_lookup_insert_ne by done. intros Hq. exists q. split_and!; try done. by eapply (pv_ok _ _ Hi). }
  assert (forall b q, pit_store t !! b = Some q -> exists q', <[a := p']> (pit_store t) !! b = Some q' /\ pi_name q' = pi_name q /\
    pi_expired q' = pi_expired q /\ pi_satisfied q' = pi_satisfied q) as Hforth.
  { intros b q Hq. destruct (decide (b = a)) as [->|Hne].
    - exists p'. rewrite list_lookup_insert_eq by (by eapply lookup_lt_Some). by simplify_eq.
    - exists q. by rewrite list_lookup_insert_ne. }
  destruct Hi as [I1 I2 I3 I4 I5 I6 I7]. split; cbn; try done.
  - intros b q Hq. by destruct (Hback b q Hq) as (? & _ & _ & _ & _ & ?).
  - intros s l Hl. destruct (I2 s l Hl) as [Hnd H]. split; [done|]. intros b Hb. destruct (H b Hb) as (q & Hq & Hn & Hs).
    destruct (Hforth b q Hq) as (q' & Hq' & En & _ & Es). exists q'. by rewrite En, Es.
  - intros b q Hq Hs. destruct (Hback b q Hq) as (q0 & Hq0 & -> & -> & Es & _). apply I3; [done|congruence].
  - intros b e Hb. destruct (I5 b e Hb) as (q & Hq & He). destruct (Hforth b q Hq) as (q' & Hq' & _ & Ee & _). exists q'. by rewrite Ee.
  - split; [apply NoDup_nil_2|set_solver].
Qed.

Lemma newPit_inv : pit_inv [] newPit.
Proof.
  split; cbn; try done.
  - intros a e Hin. by apply not_elem_of_nil in Hin.
  - apply NoDup_nil_2.
  - split; [apply NoDup_nil_2|set_solver].
Qed.

Lemma face_step_inv t t' : pit_inv [] t -> face_step t t' -> pit_inv [] t'.
Proof.
  intros Hi [n now written t1 H|d t1 H|n t1 H|now t1 H|a t1 H].
  - unfold AsyncSendInterest in H. pose proof (pit_insert_inv t n (s64 (now + INTEREST_LIFE_TIME)) Hi) as Hi1.
    destruct written; [by injection H as <-|]. destruct (pit_satisfy_ok _ n (Err PErrWrite) Hi1 I) as (t2 & E & Hi2 & _). congruence.
  - destruct (pit_satisfy_ok t (dname d) (Ok d) Hi eq_refl) as (t2 & E & Hi2 & _). unfold recvData in H. congruence.
  - destruct (pit_satisfy_ok t n (Err PErrNack) Hi I) as (t2 & E & Hi2 & _). unfold recvNack in H. congruence.
  - destruct (refresh_ok t now Hi) as (t2 & E & Hi2 & _). congruence.
  - by eapply pi_receive_inv.
Qed.

Lemma face_reachable_inv t : rtc face_step newPit t -> pit_inv [] t.
Proof.
  intros H. pose proof newPit_inv as Hi. revert Hi. induction H as [|t t1 t2 Hs _ IH]; [done|]. intros Hi. apply IH. by eapply face_step_inv.
Qed.

End pit.

(** ** Without the mutex *)

(** [refresh] does not take the mutex of the table.  When the answer arrives
    between the look at the queue and the timeout of the Interest, the second
    outcome finds the slot of the channel taken: the goroutine of the timer
    waits, for ever if the waiter has given up. *)
Theorem refresh_race :
  let n := [MkComponent 8 [97]] in
  (t ← AsyncSendInterest (L := demo_lib) (D := unit) newPit n 0 true;
   '(late, t) ← checkexpiring t (5 * 10 ^ 9);
   t ← recvData (fun _ => n) t ();
   Some (late, refresh_one t 0)) = Some ([0%nat], None).
Proof. vm_compute. reflexivity. Qed.

(** ** Witness *)

(** Two Interests of one name and one of another; Data for the first name. *)
Definition pit_name (c : Z) : list NameComponent := [MkComponent 8 [c]].

Definition demo_pit : pitImpl (D := Z) :=
  Eval vm_compute in
  default newPit (t ← AsyncSendInterest (L := demo_lib) newPit (pit_name 97) 0 true;
    t ← AsyncSendInterest t (pit_name 98) 1 true; t ← AsyncSendInterest t (pit_name 97) 2 true; t ← recvData pit_name t 97; pi_receive t 0).

Lemma demo_pit_reachable : rtc (face_step pit_name) newPit demo_pit.
Proof.
  eapply rtc_l; [apply (fs_send _ _ (pit_name 97) 0 true); vm_compute; reflexivity|].
  eapply rtc_l; [apply (fs_send _ _ (pit_name 98) 1 true); vm_compute; reflexivity|].
  eapply rtc_l; [apply (fs_send _ _ (pit_name 97) 2 true); vm_compute; reflexivity|].
  eapply rtc_l; [apply (fs_data _ _ 97); vm_compute; reflexivity|].
  eapply rtc_l; [apply (fs_receive _ _ 0); vm_compute; reflexivity|]. apply rtc_refl.
Qed.

