(* ===== verification/Signal.v ===== *)
(** * Wake-up signals

    The querying service ([pingsig]/[pingch] of [src/ndn/kad/ping.go]) and the
    node ([seensig]/[seench] of [src/ndn/kad/node.go]) wake their loops the same
    way: a flag, guarded by a mutex, and a channel with one slot.  A producer
    that finds the flag down raises it and sends on the channel while it holds
    the mutex; the loop receives, does the work and lowers the flag. *)

From S2P Require Import Prelude.

(** [staken]: the loop received a token and has not lowered the flag yet. *)
Record signal := MkSignal { sflag : bool; stok : nat; staken : bool }.

Definition sig_init : signal := MkSignal false 0 false.

(** Raise and send; [None] means that the send blocks. *)
Definition sig_raise (s : signal) : option signal :=
  if sflag s then Some s
  else if stok s <? 1 then Some (MkSignal true (S (stok s)) (staken s))
  else None.

(** The receive of the loop; [None] when there is nothing to receive. *)
Definition sig_receive (s : signal) : option signal :=
  match stok s with
  | 0 => None
  | S n => if staken s then None else Some (MkSignal (sflag s) n true)
  end.

(** End of the handler. *)
Definition sig_clear (s : signal) : signal := MkSignal false (stok s) false.

Definition sig_inv (s : signal) : Prop :=
  stok s + (if staken s then 1 else 0) = if sflag s then 1 else 0.

Lemma sig_init_inv : sig_inv sig_init.
Proof. done. Qed.

(** The send under the mutex never blocks. *)
Lemma sig_raise_ok s :
  sig_inv s -> exists s', sig_raise s = Some s' /\ sig_inv s' /\ sflag s' = true.
Proof.
  unfold sig_inv, sig_raise. destruct s as [[] n t]; simpl; [eauto|].
  intros Hn. assert (n = 0) as -> by lia. eexists. split; [done|]. simpl in *.
  split; lia || done.
Qed.

Lemma sig_receive_inv s s' :
  sig_inv s -> sig_receive s = Some s' -> sig_inv s' /\ sflag s' = sflag s /\ staken s' = true.
Proof.
  unfold sig_inv, sig_receive. destruct s as [f [|n] []]; simpl; try done.
  intros Hn [= <-]. simpl. split_and!; [lia|done..].
Qed.

Lemma sig_clear_inv s : sig_inv s -> staken s = true -> sig_inv (sig_clear s).
Proof. unfold sig_inv. destruct s as [[] n []]; simpl; try done; lia. Qed.

(** A raised flag means that a wake-up is on its way. *)
Lemma sig_pending s :
  sig_inv s -> sflag s = true -> staken s = true \/ exists s', sig_receive s = Some s'.
Proof.
  unfold sig_inv, sig_receive. destruct s as [f n []]; simpl; [by left|].
  intros Hn ->. right. assert (n = 1) as -> by lia. eauto.
Qed.

#[export] Hint Resolve sig_init_inv sig_clear_inv : ndn.
