(* ===== verification/KadPeer.v ===== *)
(** * Peers and node records
    ([src/ndn/kad/peer.go], record part of [src/ndn/kad/ndnpeer.go])

    The mutable fields of a [kadpeer] are kept in a store indexed by the
    address of the peer, so that an update is seen through every alias: the
    routing table, the ping lists and the lookup queues hold the same
    pointer.  The clock is an argument ([time.Now().UnixNano()]). *)

From S2P Require Import Prelude Bytes KadId KadTable Names.
Local Open Scope Z_scope.

Definition PING_LONGEVITY : Z := 10 * 10 ^ 9.
Definition LOST_LONGEVITY : Z := 300 * 10 ^ 9.

Inductive kaderror : Type :=
| ErrUnexpected | ErrNoPeer | ErrJobAborted | ErrFakePing | ErrInvalidIdentity
| ErrRpc.

#[export] Instance kaderror_eq_dec : EqDecision kaderror.
Proof. solve_decision. Defined.

Record ndnNodeRecord := MkRecord { rid : list Z; rprefix : list NameComponent; rpub : list Z }.

(** [rpc.NdnNodeRecordInfo]: the record on the wire. *)
Record NdnNodeRecordInfo := MkInfo { iPrefix : list Z; iPub : list Z }.

Record pdata := MkPdata { precord : ndnNodeRecord; pseen : Z }.

Record pstore := MkPstore { pheap : gmap nat pdata; pnext : nat }.

Definition empty_pstore : pstore := MkPstore ∅ 0.

(** ** Records *)

Section records.
  Context {L : NdnLib}.

(** [makeId]; [None] is the panic of [PrettyName]. *)
Definition makeId (r : ndnNodeRecord) : option ndnNodeRecord :=
  match PrettyName (rprefix r) with
  | Some s => Some (MkRecord (MakeID keccak256 (rpub r) s) (rprefix r) (rpub r))
  | None => None
  end.

(** The error result of the source is never set. *)
Definition NdnNodeRecordUnmarshaling (info : NdnNodeRecordInfo) : option ndnNodeRecord :=
  makeId (MkRecord (replicate ADDRBYTES 0) (ParseName (iPrefix info)) (iPub info)).

Definition NdnNodeRecordMarshaling (r : ndnNodeRecord) : option NdnNodeRecordInfo :=
  match PrettyName (rprefix r) with
  | Some s => Some (MkInfo s (rpub r))
  | None => None
  end.

(** A boot node: the identity is given, the key unknown; [Err tt] stands for
    both error results. *)
Definition CreateUntrustedNdnNodeRecord (id prefix : list Z) : res unit ndnNodeRecord :=
  match IdFromHexString id with
  | None => Err tt
  | Some i =>
    match ParseName prefix with
    | [] => Err tt
    | n => Ok (MkRecord i n [])
    end
  end.

Definition NdnNodeRecordFromPrivateKey (hostname : list NameComponent) (pubkey : list Z)
  : option (res unit ndnNodeRecord) :=
  match hostname with
  | [] => Some (Err tt)
  | _ => match makeId (MkRecord (replicate ADDRBYTES 0) hostname pubkey) with
         | Some r => Some (Ok r)
         | None => None
         end
  end.

Definition untrusted (r : ndnNodeRecord) : bool := (length (rpub r) =? 0)%nat.

(** ** Peers *)

Definition PeerFromRecord (st : pstore) (rec : ndnNodeRecord) : kadpeer * pstore :=
  (Kadpeer (pnext st) (rid rec),
   MkPstore (<[pnext st := MkPdata rec 0]> (pheap st)) (S (pnext st))).

Definition setseen (st : pstore) (now : Z) (p : kadpeer) : pstore :=
  MkPstore (alter (fun d => MkPdata (precord d) now) (paddr p) (pheap st)) (pnext st).

Definition recentlyseen (st : pstore) (now : Z) (p : kadpeer) : bool :=
  match pheap st !! paddr p with
  | Some d => now - pseen d <? PING_LONGEVITY
  | None => false
  end.

Definition peer_update (st : pstore) (p : kadpeer) (rec : ndnNodeRecord) : pstore :=
  MkPstore (alter (fun d => MkPdata rec (pseen d)) (paddr p) (pheap st)) (pnext st).

(** [kadpeer.UpdateNodeRecord], called with the sender field of a response. *)
Definition UpdateNodeRecord (st : pstore) (p : kadpeer) (info : NdnNodeRecordInfo)
  : option (pstore * option kaderror) :=
  match NdnNodeRecordUnmarshaling info, pheap st !! paddr p with
  | Some newrec, Some d =>
    if negb (bool_decide (rid newrec = rid (precord d))) then Some (st, Some ErrInvalidIdentity)
    else if untrusted (precord d) then Some (peer_update st p newrec, None)
    else Some (st, None)
  | _, _ => None
  end.
End records.

(** ** Invariants of the store *)

(** A live pointer whose record carries the identity of the peer. *)
Definition peer_ok (st : pstore) (p : kadpeer) : Prop :=
  exists d, pheap st !! paddr p = Some d /\ rid (precord d) = pid p.

(** Addresses in use are below the next one. *)
Definition pstore_ok (st : pstore) : Prop :=
  forall a, is_Some (pheap st !! a) -> (a < pnext st)%nat.

(** [st'] extends [st] without touching the identities of its records. *)
Definition pstore_ext (st st' : pstore) : Prop :=
  pstore_ok st' /\ forall p, peer_ok st p -> peer_ok st' p.

#[export] Instance pstore_ext_trans : Transitive pstore_ext.
Proof. intros a b c [? H1] [? H2]. split; auto. Qed.

Lemma pstore_ext_refl st : pstore_ok st -> pstore_ext st st.
Proof. by split. Qed.

Lemma PeerFromRecord_ok st rec p st' :
  pstore_ok st -> PeerFromRecord st rec = (p, st') ->
  pstore_ext st st' /\ peer_ok st' p /\ pid p = rid rec.
Proof.
  intros Hst [= <- <-]. split_and!; [split| |done]; simpl.
  - intros a. simpl. rewrite lookup_insert_is_Some. intros [<-|[_ Ha]]; [lia|].
    apply Hst in Ha. lia.
  - intros q (d & Hd & Hid). exists d. split; [|done]. simpl.
    rewrite lookup_insert_ne; [done|]. intros Heq.
    assert (paddr q < pnext st)%nat by (apply Hst; eauto). lia.
  - eexists. simpl. rewrite lookup_insert_eq. done.
Qed.

Lemma alter_ext st p f :
  pstore_ok st ->
  (forall d, pheap st !! paddr p = Some d -> rid (precord (f d)) = rid (precord d)) ->
  pstore_ext st (MkPstore (alter f (paddr p) (pheap st)) (pnext st)).
Proof.
  intros Hst Hf. split.
  - intros a [d Hd]. simpl in Hd. apply Hst.
    destruct (decide (a = paddr p)) as [->|Hne].
    + rewrite lookup_alter_eq in Hd. by apply fmap_Some in Hd as (?&?&_).
    + rewrite lookup_alter_ne in Hd by done. eauto.
  - intros q (d & Hd & Hid). unfold peer_ok. simpl.
    destruct (decide (paddr q = paddr p)) as [E|Hne].
    + rewrite E in *. rewrite lookup_alter_eq, Hd. eexists. split; [done|].
      by rewrite Hf.
    + rewrite lookup_alter_ne by done. eauto.
Qed.

Lemma setseen_ext st now p : pstore_ok st -> pstore_ext st (setseen st now p).
Proof. intros. by apply alter_ext. Qed.

Lemma peer_update_ext st p rec :
  pstore_ok st -> peer_ok st p -> rid rec = pid p -> pstore_ext st (peer_update st p rec).
Proof.
  intros Hst (d & Hd & Hid) Hr. apply alter_ext; [done|].
  intros d' Hd'. simplify_eq. simpl. congruence.
Qed.

#[export] Hint Resolve pstore_ext_refl setseen_ext peer_update_ext : ndn.

(** A peer just seen is recently seen until [PING_LONGEVITY] has passed. *)
Lemma recentlyseen_setseen st now t p :
  peer_ok st p -> recentlyseen (setseen st t p) now p = (now - t <? PING_LONGEVITY).
Proof.
  intros (d & Hd & _). unfold recentlyseen, setseen. simpl.
  by rewrite lookup_alter_eq, Hd.
Qed.

Section record_props.
  Context {L : NdnLib} {LL : NdnLibLaws L}.

(** A record whose identity is the hash of its key and prefix. *)
Definition self_certified (r : ndnNodeRecord) : Prop :=
  exists s, PrettyName (rprefix r) = Some s /\ rid r = MakeID keccak256 (rpub r) s.

Lemma Unmarshaling_certified info r :
  NdnNodeRecordUnmarshaling info = Some r -> self_certified r /\ id_ok (rid r).
Proof.
  unfold NdnNodeRecordUnmarshaling, makeId. cbn [rprefix rpub].
  destruct (PrettyName _) as [s|] eqn:E; [|done]. intros [= <-]. split.
  - by exists s.
  - split; [apply length_copy_array|]. apply copy_array_ok, keccak256_bytes.
Qed.

(** A record received in a response can replace the stored one only when
    the stored one has no public key and the identities agree; the new record
    is then certified by its own hash.  In every other case the store is
    unchanged, and a different identity is reported as an error. *)
Theorem UpdateNodeRecord_safe st p info st' err d :
  pheap st !! paddr p = Some d ->
  UpdateNodeRecord st p info = Some (st', err) ->
  (err = Some ErrInvalidIdentity /\ st' = st) \/
  (err = None /\
   ((rpub (precord d) <> [] /\ st' = st) \/
    (rpub (precord d) = [] /\
     exists d', pheap st' !! paddr p = Some d' /\ pseen d' = pseen d /\
       rid (precord d') = rid (precord d) /\ self_certified (precord d') /\
       forall q, paddr q <> paddr p -> pheap st' !! paddr q = pheap st !! paddr q))).
Proof.
  intros Hd. unfold UpdateNodeRecord. rewrite Hd.
  destruct (NdnNodeRecordUnmarshaling info) as [r|] eqn:Er; [|done].
  apply Unmarshaling_certified in Er as [Hr _].
  destruct (negb _) eqn:E; bool_go; [intros [= <- <-]; by left|].
  unfold untrusted. destruct (length _ =? 0)%nat eqn:Eu; bool_go; intros [= <- <-]; right.
  - apply nil_length_inv in Eu. split; [done|]. right. split; [done|].
    unfold peer_update. simpl. eexists. rewrite lookup_alter_eq, Hd. simpl.
    split_and!; [done..|]. intros q Hq. by rewrite lookup_alter_ne.
  - split; [done|]. left. split; [|done]. intros Enil. by rewrite Enil in Eu.
Qed.
End record_props.

Definition demo_record (n : Z) (pub : list Z) : ndnNodeRecord :=
  match NdnNodeRecordUnmarshaling (MkInfo [n] pub) with
  | Some r => r
  | None => MkRecord [] [] []
  end.

Definition demo_store : pstore := (PeerFromRecord empty_pstore (demo_record 5 [9; 9])).2.

Lemma UpdateNodeRecord_safe_witness :
  exists st' err,
  UpdateNodeRecord demo_store (Kadpeer 0 (rid (demo_record 5 [9; 9]))) (MkInfo [5] [1]) = Some (st', err) /\
  ((err = Some ErrInvalidIdentity /\ st' = demo_store) \/
   (err = None /\
   ((rpub (demo_record 5 [9; 9]) <> [] /\ st' = demo_store) \/
    (rpub (demo_record 5 [9; 9]) = [] /\
     exists d', pheap st' !! 0%nat = Some d' /\ pseen d' = 0 /\
       rid (precord d') = rid (demo_record 5 [9; 9]) /\ self_certified (precord d') /\
       forall q, paddr q <> 0%nat -> pheap st' !! paddr q = pheap demo_store !! paddr q)))).
Proof.
  eexists _, _. split; [reflexivity|].
  apply (UpdateNodeRecord_safe demo_store (Kadpeer 0 (rid (demo_record 5 [9; 9]))) (MkInfo [5] [1])
           _ _ (MkPdata (demo_record 5 [9; 9]) 0)); reflexivity.
Defined.
