(* ===== verification/KadPing.v ===== *)
(** * The querying service ([src/ndn/kad/ping.go])

    The service keeps the peers waiting for a ping, the peers being pinged
    and the recently lost peers.  Its operations run under one mutex, so each
    is a function on the state; [None] is a send that would block. *)

From S2P Require Import Prelude Bytes KadId KadTable Names Signal KadPeer.
Local Open Scope Z_scope.

Record qsvc := MkQsvc {
  qself : list Z;
  waitinglist : gmap (list Z) kadpeer;
  askinglist : gmap (list Z) kadpeer;
  deadlist : gmap (list Z) (kadpeer * Z);
  qsig : signal;
}.

Definition newqueryingservice (id : list Z) : qsvc := MkQsvc id ∅ ∅ ∅ sig_init.

(** ** The list of dead peers *)

Definition deadlist_get (l : gmap (list Z) (kadpeer * Z)) (id : list Z) : option kadpeer :=
  fst <$> l !! id.

Definition deadlist_remove (s : qsvc) (id : list Z) : qsvc :=
  MkQsvc (qself s) (waitinglist s) (askinglist s) (delete id (deadlist s)) (qsig s).

Definition deadlist_add (s : qsvc) (now : Z) (p : kadpeer) : qsvc :=
  MkQsvc (qself s) (waitinglist s) (askinglist s) (<[pid p := (p, now)]> (deadlist s)) (qsig s).

Definition deadlist_flush (s : qsvc) (now : Z) : qsvc :=
  MkQsvc (qself s) (waitinglist s) (askinglist s)
    (filter (fun e => now - e.2.2 <= LOST_LONGEVITY) (deadlist s)) (qsig s).

(** ** Ordering pings *)

Definition set_waiting (s : qsvc) (w : gmap (list Z) kadpeer) : qsvc :=
  MkQsvc (qself s) w (askinglist s) (deadlist s) (qsig s).

Definition set_sig (s : qsvc) (g : signal) : qsvc :=
  MkQsvc (qself s) (waitinglist s) (askinglist s) (deadlist s) g.

Definition qs_raise (s : qsvc) : option qsvc := set_sig s <$> sig_raise (qsig s).

Definition is_member (m : gmap (list Z) kadpeer) (id : list Z) : bool :=
  match m !! id with Some _ => true | None => false end.

Definition pingpeer (st : pstore) (now : Z) (s : qsvc) (p : kadpeer) : option qsvc :=
  if recentlyseen st now p then Some s
  else if bool_decide (qself s = pid p) then Some s
  else if is_member (askinglist s) (pid p) then Some s
  else if is_member (waitinglist s) (pid p) then Some s
  else qs_raise (set_waiting s (<[pid p := p]> (waitinglist s))).

Fixpoint pingpeers_loop (st : pstore) (now : Z) (s : qsvc) (l : list kadpeer) : qsvc :=
  match l with
  | [] => s
  | p :: l =>
    let s' :=
      if bool_decide (pid p = qself s) then s
      else if recentlyseen st now p then s
      else if is_member (askinglist s) (pid p) then s
      else if is_member (waitinglist s) (pid p) then s
      else set_waiting s (<[pid p := p]> (waitinglist s)) in
    pingpeers_loop st now s' l
  end.

Definition pingpeers (st : pstore) (now : Z) (s : qsvc) (l : list kadpeer) : option qsvc :=
  qs_raise (pingpeers_loop st now s l).

Definition qs_drop (s : qsvc) (p : kadpeer) : qsvc :=
  MkQsvc (qself s) (delete (pid p) (waitinglist s)) (delete (pid p) (askinglist s))
    (delete (pid p) (deadlist s)) (qsig s).

(** First part of [onreplied]: the peer leaves the asking list. *)
Definition qs_replied (s : qsvc) (p : kadpeer) : qsvc :=
  MkQsvc (qself s) (waitinglist s) (delete (pid p) (askinglist s)) (deadlist s) (qsig s).

(** ** Sending the pings

    [submit] tells whether the pool accepts the job of a peer.  The order of
    the jobs is the iteration order of the map. *)

Definition record_id (st : pstore) (p : kadpeer) : list Z :=
  match pheap st !! paddr p with
  | Some d => rid (precord d)
  | None => pid p
  end.

Fixpoint doping_loop (st : pstore) (now : Z) (submit : kadpeer -> bool)
    (l : list kadpeer) (asking : gmap (list Z) kadpeer) (jobs : list kadpeer)
  : gmap (list Z) kadpeer * list kadpeer :=
  match l with
  | [] => (asking, jobs)
  | p :: l =>
    if recentlyseen st now p then doping_loop st now submit l asking jobs
    else if submit p
    then doping_loop st now submit l (<[record_id st p := p]> asking) (jobs ++ [p])
    else doping_loop st now submit l asking jobs
  end.

Definition dopingpeers (st : pstore) (now : Z) (submit : kadpeer -> bool) (s : qsvc)
  : qsvc * list kadpeer :=
  let '(asking, jobs) :=
    doping_loop st now submit (snd <$> map_to_list (waitinglist s)) (askinglist s) [] in
  (MkQsvc (qself s) ∅ asking (deadlist s) (sig_clear (qsig s)), jobs).

(** ** Invariant *)

Definition plist_ok (st : pstore) (selfid : list Z) (m : gmap (list Z) kadpeer) : Prop :=
  forall id p, m !! id = Some p -> pid p = id /\ id <> selfid /\ peer_ok st p.

Definition qs_inv (st : pstore) (s : qsvc) : Prop :=
  sig_inv (qsig s) /\
  (waitinglist s <> ∅ -> sflag (qsig s) = true) /\
  plist_ok st (qself s) (waitinglist s) /\
  plist_ok st (qself s) (askinglist s) /\
  (forall id, is_Some (waitinglist s !! id) -> askinglist s !! id = None).

Lemma plist_ok_ext st st' me m : pstore_ext st st' -> plist_ok st me m -> plist_ok st' me m.
Proof. intros [_ He] H id p Hp. destruct (H id p Hp) as (?&?&?). auto. Qed.

Lemma plist_ok_delete st me m id : plist_ok st me m -> plist_ok st me (delete id m).
Proof. intros H i p [_ Hp]%lookup_delete_Some. by apply H. Qed.

Lemma plist_ok_insert st me m p :
  plist_ok st me m -> peer_ok st p -> pid p <> me -> plist_ok st me (<[pid p := p]> m).
Proof. intros H Hp Hme i q [[<- <-]|[_ Hq]]%lookup_insert_Some; [done|by apply H]. Qed.

Lemma qs_inv_ext st st' s : pstore_ext st st' -> qs_inv st s -> qs_inv st' s.
Proof. intros He (?&?&?&?&?). split_and!; eauto using plist_ok_ext. Qed.

Lemma is_member_false m id : is_member m id = false -> m !! id = None.
Proof. unfold is_member. by destruct (m !! id). Qed.

(** The part of the invariant that holds while the flag is about to be raised. *)
Definition qs_lists (st : pstore) (s : qsvc) : Prop :=
  sig_inv (qsig s) /\ plist_ok st (qself s) (waitinglist s) /\
  plist_ok st (qself s) (askinglist s) /\
  (forall id, is_Some (waitinglist s !! id) -> askinglist s !! id = None).

Lemma qs_inv_lists st s : qs_inv st s -> qs_lists st s.
Proof. by intros (?&_&?&?&?). Qed.

Lemma qs_raise_ok st s :
  qs_lists st s -> exists s', qs_raise s = Some s' /\ qs_inv st s' /\ qself s' = qself s /\
    waitinglist s' = waitinglist s /\ askinglist s' = askinglist s /\ deadlist s' = deadlist s.
Proof.
  intros (Hs & ? & ? & ?). destruct (sig_raise_ok _ Hs) as (g & Hg & Hi & Hf).
  unfold qs_raise. rewrite Hg. eexists. split; [done|]. done.
Qed.

Lemma set_waiting_lists st s p :
  qs_lists st s -> peer_ok st p -> pid p <> qself s -> askinglist s !! pid p = None ->
  qs_lists st (set_waiting s (<[pid p := p]> (waitinglist s))).
Proof.
  intros (?&?&?&Hd) Hp Hne Ha. split_and!; simpl; auto using plist_ok_insert.
  intros id. rewrite lookup_insert_is_Some. intros [<-|[_ ?]]; auto.
Qed.

Lemma pingpeer_ok st now s p :
  qs_inv st s -> peer_ok st p ->
  exists s', pingpeer st now s p = Some s' /\ qs_inv st s' /\ qself s' = qself s /\
    deadlist s' = deadlist s.
Proof.
  intros Hs Hp. unfold pingpeer.
  destruct (recentlyseen st now p); [eauto|].
  destruct (bool_decide _) eqn:E1; bool_go; [eauto|].
  destruct (is_member (askinglist s) _) eqn:E2; [eauto|].
  destruct (is_member (waitinglist s) _) eqn:E3; [eauto|].
  apply is_member_false in E2, E3.
  destruct (qs_raise_ok st (set_waiting s (<[pid p := p]> (waitinglist s))))
    as (s' & -> & ?); [|naive_solver].
  apply set_waiting_lists; auto using qs_inv_lists.
Qed.

Lemma pingpeers_loop_ok st now s l :
  qs_lists st s -> Forall (peer_ok st) l ->
  qs_lists st (pingpeers_loop st now s l) /\
  qself (pingpeers_loop st now s l) = qself s /\
  deadlist (pingpeers_loop st now s l) = deadlist s.
Proof.
  intros Hs Hl. revert s Hs. induction Hl as [|p l Hp Hl IH]; intros s Hs; [done|].
  cbn [pingpeers_loop].
  destruct (bool_decide _) eqn:E1; bool_go; [by apply IH|].
  destruct (recentlyseen st now p); [by apply IH|].
  destruct (is_member (askinglist s) _) eqn:E2; [by apply IH|].
  destruct (is_member (waitinglist s) _) eqn:E3; [by apply IH|].
  apply is_member_false in E2, E3.
  apply (IH (set_waiting s (<[pid p := p]> (waitinglist s)))). by apply set_waiting_lists.
Qed.

Lemma pingpeers_ok st now s l :
  qs_inv st s -> Forall (peer_ok st) l ->
  exists s', pingpeers st now s l = Some s' /\ qs_inv st s' /\ qself s' = qself s /\
    deadlist s' = deadlist s.
Proof.
  intros Hs Hl. destruct (pingpeers_loop_ok st now s l) as (Hq & E1 & E2); auto using qs_inv_lists.
  unfold pingpeers. destruct (qs_raise_ok _ _ Hq) as (s' & -> & ? & ? & _ & _ & ?).
  exists s'. split_and!; congruence || done.
Qed.

Lemma delete_nonempty {A} (m : gmap (list Z) A) id : delete id m <> ∅ -> m <> ∅.
Proof. intros H ->. by rewrite delete_empty in H. Qed.

Lemma qs_drop_inv st s p : qs_inv st s -> qs_inv st (qs_drop s p).
Proof.
  intros (?&Hw&?&?&Hd). split_and!; simpl; auto using plist_ok_delete.
  - intros ?%delete_nonempty. auto.
  - intros id [q [Hne Hq]%lookup_delete_Some].
    rewrite lookup_delete_ne by done. apply Hd. eauto.
Qed.

Lemma qs_replied_inv st s p : qs_inv st s -> qs_inv st (qs_replied s p).
Proof.
  intros (?&?&?&?&Hd). split_and!; simpl; auto using plist_ok_delete.
  intros id Hi. destruct (decide (pid p = id)) as [->|]; [apply lookup_delete_eq|].
  rewrite lookup_delete_ne by done. auto.
Qed.

Lemma deadlist_remove_inv st s id : qs_inv st s -> qs_inv st (deadlist_remove s id).
Proof. done. Qed.

Lemma deadlist_add_inv st s now p : qs_inv st s -> qs_inv st (deadlist_add s now p).
Proof. done. Qed.

Lemma deadlist_flush_inv st s now : qs_inv st s -> qs_inv st (deadlist_flush s now).
Proof. done. Qed.

Lemma record_id_ok st p : peer_ok st p -> record_id st p = pid p.
Proof. intros (d & Hd & Hid). unfold record_id. by rewrite Hd. Qed.

Lemma doping_loop_ok st now submit me l asking jobs :
  plist_ok st me asking -> Forall (fun p => peer_ok st p /\ pid p <> me) l ->
  plist_ok st me (doping_loop st now submit l asking jobs).1.
Proof.
  intros Ha Hl. revert asking jobs Ha.
  induction Hl as [|p l [Hp Hme] Hl IH]; intros asking jobs Ha; [done|].
  cbn [doping_loop]. destruct (recentlyseen st now p); [by apply IH|].
  destruct (submit p); [|by apply IH]. apply IH.
  rewrite record_id_ok by done. by apply plist_ok_insert.
Qed.

Lemma dopingpeers_inv st now submit s :
  qs_inv st s -> staken (qsig s) = true ->
  qs_inv st (dopingpeers st now submit s).1 /\
  qself (dopingpeers st now submit s).1 = qself s.
Proof.
  intros (Hs & _ & Hw & Ha & _) Ht. unfold dopingpeers.
  destruct (doping_loop _ _ _ _ _ _) as [asking jobs] eqn:E. split; [|done].
  split_and!; simpl; [by apply sig_clear_inv|done| | |].
  - intros id p. by rewrite lookup_empty.
  - replace asking with (doping_loop st now submit
      (snd <$> map_to_list (waitinglist s)) (askinglist s) []).1 by (by rewrite E).
    apply doping_loop_ok; [done|]. apply Forall_fmap, Forall_forall.
    intros [id p] Hin%elem_of_map_to_list. simpl.
    destruct (Hw _ _ Hin) as (<- & ? & ?). done.
  - intros id [p Hp]. by rewrite lookup_empty in Hp.
Qed.

#[export] Hint Resolve qs_drop_inv qs_replied_inv deadlist_remove_inv deadlist_add_inv
  deadlist_flush_inv qs_inv_ext : ndn.

(** ** What the service does with a waiting peer *)

(** A peer that is skipped does not change the peers that are pinged. *)
Lemma skip_head st now (submit : kadpeer -> bool) p l id (X : Prop) :
  recentlyseen st now p = true \/ submit p = false ->
  (X \/ exists q, q ∈ l /\ pid q = id /\ recentlyseen st now q = false /\ submit q = true) <->
  (X \/ exists q, q ∈ p :: l /\ pid q = id /\ recentlyseen st now q = false /\ submit q = true).
Proof.
  intros Hskip. split.
  - intros [?|(q & ? & ?)]; [by left|right]. exists q. rewrite elem_of_cons. tauto.
  - intros [?|(q & [->|?]%elem_of_cons & ? & ? & ?)]; [by left| |right; eauto 10].
    destruct Hskip; congruence.
Qed.

Lemma doping_loop_jobs st now submit l asking jobs :
  Forall (peer_ok st) l ->
  let '(asking', jobs') := doping_loop st now submit l asking jobs in
  jobs' = jobs ++ filter (fun p => recentlyseen st now p = false /\ submit p = true) l /\
  forall id, is_Some (asking' !! id) <->
    is_Some (asking !! id) \/
    exists p, p ∈ l /\ pid p = id /\ recentlyseen st now p = false /\ submit p = true.
Proof.
  intros Hl. revert asking jobs.
  induction Hl as [|p l Hp Hl IH]; intros asking jobs; cbn [doping_loop].
  { rewrite filter_nil, app_nil_r. split; [done|]. set_solver. }
  destruct (recentlyseen st now p) eqn:Er.
  { specialize (IH asking jobs). destruct (doping_loop _ _ _ _ _ _) as [a j].
    destruct IH as [-> IH]. rewrite filter_cons_False by (intros [??]; congruence).
    split; [done|]. intros id. rewrite IH. by apply skip_head; left. }
  destruct (submit p) eqn:Es.
  - specialize (IH (<[record_id st p := p]> asking) (jobs ++ [p])).
    destruct (doping_loop _ _ _ _ _ _) as [a j]. destruct IH as [-> IH].
    rewrite filter_cons_True, <- app_assoc by done. split; [done|].
    intros id. rewrite IH, record_id_ok, lookup_insert_is_Some by done.
    setoid_rewrite elem_of_cons. split.
    + intros [[?|[_ ?]]|(q & ? & ?)]; [right; eauto 10|by left|right; eauto 10].
    + destruct (decide (pid p = id)); [by left; left|].
      intros [?|(q & [->|?] & ? & ?)]; [left; by right|done|right; eauto 10].
  - specialize (IH asking jobs). destruct (doping_loop _ _ _ _ _ _) as [a j].
    destruct IH as [-> IH]. rewrite filter_cons_False by (intros [??]; congruence).
    split; [done|]. intros id. rewrite IH. by apply skip_head; right.
Qed.

(** One run of the ping loop submits exactly the waiting peers that were
    not seen lately and that the pool accepts, moves exactly those to the
    asking list and empties the waiting list. *)
Theorem dopingpeers_spec st now submit s :
  qs_inv st s ->
  let '(s', jobs) := dopingpeers st now submit s in
  waitinglist s' = ∅ /\ deadlist s' = deadlist s /\
  (forall p, p ∈ jobs <->
     waitinglist s !! pid p = Some p /\ recentlyseen st now p = false /\ submit p = true) /\
  (forall id, is_Some (askinglist s' !! id) <->
     is_Some (askinglist s !! id) \/
     exists p, waitinglist s !! id = Some p /\ recentlyseen st now p = false /\ submit p = true).
Proof.
  intros (_ & _ & Hw & _ & _). unfold dopingpeers.
  assert (forall p, p ∈ (snd <$> map_to_list (waitinglist s)) <-> waitinglist s !! pid p = Some p) as Hin.
  { intros p. rewrite list_elem_of_fmap. split.
    - intros ([id q] & -> & Hq%elem_of_map_to_list). simpl.
      by destruct (Hw _ _ Hq) as (-> & _).
    - intros Hp. exists (pid p, p). split; [done|]. by apply elem_of_map_to_list. }
  pose proof (doping_loop_jobs st now submit (snd <$> map_to_list (waitinglist s))
    (askinglist s) []) as Hj.
  destruct (doping_loop _ _ _ _ _ _) as [asking jobs].
  destruct Hj as [-> Ha].
  { apply Forall_forall. intros p Hp%Hin. by destruct (Hw _ _ Hp) as (_ & _ & ?). }
  simpl. split_and!; [done|done| |].
  - intros p. rewrite list_elem_of_filter, Hin. tauto.
  - intros id. rewrite Ha. f_equiv. split.
    + intros (p & Hp%Hin & <- & ?). eauto.
    + intros (p & Hp & ?). destruct (Hw _ _ Hp) as (<- & _).
      exists p. rewrite Hin. done.
Qed.

Definition demo_qs (p : kadpeer) : qsvc :=
  MkQsvc (demo_id 1) {[ pid p := p ]} ∅ ∅ (MkSignal true 0 true).

Lemma demo_qs_inv : qs_inv demo_store (demo_qs (Kadpeer 0 (rid (demo_record 5 [9; 9])))).
Proof.
  split_and!; simpl.
  - done.
  - done.
  - intros id p [<- <-]%lookup_singleton_Some. split_and!; [done|by vm_compute|].
    eexists. split; [reflexivity|done].
  - intros id p. by rewrite lookup_empty.
  - intros id _. apply lookup_empty.
Qed.

Lemma dopingpeers_spec_witness :
  let s := demo_qs (Kadpeer 0 (rid (demo_record 5 [9; 9]))) in
  let '(s', jobs) := dopingpeers demo_store (20 * 10 ^ 9) (fun _ => true) s in
  waitinglist s' = ∅ /\ deadlist s' = deadlist s /\
  (forall p, p ∈ jobs <->
     waitinglist s !! pid p = Some p /\ recentlyseen demo_store (20 * 10 ^ 9) p = false /\ true = true) /\
  (forall id, is_Some (askinglist s' !! id) <->
     is_Some (askinglist s !! id) \/
     exists p, waitinglist s !! id = Some p /\
       recentlyseen demo_store (20 * 10 ^ 9) p = false /\ true = true).
Proof.
  apply (dopingpeers_spec demo_store (20 * 10 ^ 9) (fun _ => true)). apply demo_qs_inv.
Defined.
