(* ===== verification/KadLookup.v ===== *)
(** * The iterative lookup ([src/ndn/kad/peersort.go], [src/ndn/kad/algo.go])

    [peersort] is the neighbour buffer: a heap of queue entries and the map of
    the identities in it.  The entries are shared pointers whose field
    [queried] is written by [mark]; the marks are kept in a store keyed by the
    address of the entry.  One round of [lookup] queries [KADEMLIA_ALPHA]
    peers; the answers, their order of arrival and the value of the loop
    variable that each callback captured are given by an environment. *)

From S2P Require Import Prelude Bytes GoHeap KadId KadTable Names Signal KadPeer.

Definition QUERY_GRANULARITY : Z := (10 * 10 ^ 9)%Z.

Record peersort := MkSort {
  ps_target : list Z;
  ps_queue : list PqPeer;
  ps_map : gmap (list Z) PqPeer;
  ps_marks : gmap nat Z;
  ps_next : nat;
}.

Definition with_queue (ps : peersort) (q : list PqPeer) (m : gmap (list Z) PqPeer) : peersort :=
  MkSort (ps_target ps) q m (ps_marks ps) (ps_next ps).

(** [item := &PqPeer{...}] with [queried: 0]. *)
Definition new_item (ps : peersort) (p : kadpeer) : PqPeer * peersort :=
  (MkPqPeer (ps_next ps) p (ps_target ps),
   MkSort (ps_target ps) (ps_queue ps) (ps_map ps) (<[ps_next ps := 0%Z]> (ps_marks ps)) (S (ps_next ps))).

Definition has_id (ps : peersort) (id : list Z) : bool :=
  match ps_map ps !! id with Some _ => true | None => false end.

(** ** Entries *)

Definition mark (ps : peersort) (now : Z) (qp : PqPeer) : peersort :=
  MkSort (ps_target ps) (ps_queue ps) (ps_map ps) (<[qaddr qp := now]> (ps_marks ps)) (ps_next ps).

Definition recentlyqueried (ps : peersort) (now : Z) (qp : PqPeer) : bool :=
  match ps_marks ps !! qaddr qp with
  | Some t => (now - t <? QUERY_GRANULARITY)%Z
  | None => false
  end.

(** ** Operations of [peersort] *)

(** The loop of [newpeersort]: the filled prefix of the slice. *)
Fixpoint newpeersort_loop (ps : peersort) (l : list kadpeer) (items : list PqPeer)
  : peersort * list PqPeer :=
  match l with
  | [] => (ps, items)
  | p :: l =>
    if has_id ps (pid p) then newpeersort_loop ps l items
    else
      let '(item, ps) := new_item ps p in
      newpeersort_loop (with_queue ps (ps_queue ps) (<[pid p := item]> (ps_map ps))) l (items ++ [item])
  end.

(** When an identity occurs twice the tail of the slice keeps nil pointers and
    [heap.Init] dereferences one of them: [None]. *)
Definition newpeersort (target : list Z) (l : list kadpeer) : option peersort :=
  let '(ps, items) := newpeersort_loop (MkSort target [] ∅ ∅ 0) l [] in
  if length items <? length l then None
  else Some (with_queue ps (heap_init Pq_Less items) (ps_map ps)).

Definition ps_push (ps : peersort) (p : kadpeer) : peersort :=
  if has_id ps (pid p) then ps
  else
    let '(item, ps) := new_item ps p in
    with_queue ps (heap_push Pq_Less (ps_queue ps) item) (<[pid p := item]> (ps_map ps)).

Definition repush (ps : peersort) (qp : PqPeer) : peersort :=
  if has_id ps (pid (qpeer qp)) then ps
  else with_queue ps (heap_push Pq_Less (ps_queue ps) qp) (<[pid (qpeer qp) := qp]> (ps_map ps)).

(** [update]: the body of its loop is the body of [push]. *)
Definition ps_update (ps : peersort) (l : list kadpeer) : peersort := foldl ps_push ps l.

Definition ps_closest (ps : peersort) (k : nat) : option (list PqPeer * peersort) :=
  match pop_upto Pq_Less k (ps_queue ps) with
  | Some (out, rest) =>
    Some (out, with_queue ps rest (foldl (fun m x => delete (pid (qpeer x)) m) (ps_map ps) out))
  | None => None
  end.

(** [closestex] scans the first cells of the heap slice; a nil [check]
    selects nothing. *)
Definition closestex (ps : peersort) (k : nat) (check : option (PqPeer -> bool)) : list kadpeer :=
  let l := Nat.min k (length (ps_queue ps)) in
  match check with
  | Some f => qpeer <$> filter (fun x => f x = true) (take l (ps_queue ps))
  | None => []
  end.

(** ** The algorithm *)

Record findnoderesult := MkResult {
  fr_queried : PqPeer;
  fr_peers : list kadpeer;
  fr_err : option kaderror;
}.

(** What happens outside during one round. *)
Record round_env := MkEnv {
  re_abort : bool;                                        (* the abort channel fires *)
  re_now : Z;                                             (* clock when the queries start *)
  re_mark : Z;                                            (* clock when the answers are read *)
  re_ans : nat -> list kadpeer * option kaderror;         (* answer of the i-th query *)
  re_cap : nat -> nat -> nat;                             (* loop index when callback i of n runs *)
  re_order : nat -> list nat;                             (* order of the n results *)
}.

(** The results of a round.  A recently queried peer yields an empty result at
    once; a callback sends the loop variable [qp], which all closures share. *)
Definition round_results (ps : peersort) (e : round_env) (queried : list PqPeer)
  : list findnoderesult :=
  (fun i =>
     let qp := queried !!! i in
     if recentlyqueried ps (re_now e) qp then MkResult qp [] None
     else MkResult (queried !!! re_cap e (length queried) i) (re_ans e i).1 (re_ans e i).2)
  <$> re_order e (length queried).

Definition take_result (now : Z) (ps : peersort) (r : findnoderesult) : peersort :=
  match fr_err r, fr_peers r with
  | None, _ :: _ => ps_update (mark (repush ps (fr_queried r)) now (fr_queried r)) (fr_peers r)
  | _, _ => ps
  end.

(** [compare]. *)
Definition compare (l1 l2 : list kadpeer) : bool := bool_decide (pid <$> l1 = pid <$> l2).

Inductive lookup_result :=
| LRet (r : res kaderror (list kadpeer))
| LPanic
| LFuel.

(** One iteration of [for]/[select] per unit of fuel.  The live-check round
    that follows a stable solution always takes its [all_reply] branch. *)
Fixpoint lookup_loop (fuel round k : nat) (env : nat -> round_env) (ps : peersort)
    (solution : list kadpeer) (queried : list PqPeer) : lookup_result :=
  match fuel with
  | 0 => LFuel
  | S fuel =>
    let e := env round in
    if re_abort e then LRet (Err ErrJobAborted)
    else match queried with
    | [] => LRet (Ok [])
    | _ =>
      let ps := foldl (take_result (re_mark e)) ps (round_results ps e queried) in
      match ps_closest ps k with
      | None => LPanic
      | Some (closest, ps) =>
        let newsolution := qpeer <$> closest in
        let ps := foldl repush ps (drop KADEMLIA_ALPHA closest) in
        if compare solution newsolution then
          if re_abort (env (S round)) then LRet (Err ErrJobAborted) else LRet (Ok newsolution)
        else lookup_loop fuel (S round) k env ps newsolution (take KADEMLIA_ALPHA closest)
      end
    end
  end.

Definition lookup (fuel : nat) (r : rtable) (target : list Z) (k : nat) (env : nat -> round_env)
  : lookup_result :=
  match rtable_closest r target k with
  | None => LPanic
  | Some [] => LRet (Err ErrNoPeer)
  | Some solution =>
    match newpeersort target solution with
    | None => LPanic
    | Some ps =>
      match ps_closest ps KADEMLIA_ALPHA with
      | None => LPanic
      | Some (queried, ps) => lookup_loop fuel 0 k env ps solution queried
      end
    end
  end.

(** ** The neighbour buffer *)

Section sort_props.
  Context (K : kadpeer -> Prop) (target : list Z).
  Hypothesis K_ok : forall p, K p -> id_ok (pid p).
  Hypothesis target_ok : id_ok target.

Definition qid (x : PqPeer) : list Z := pid (qpeer x).

Definition entry_ok (x : PqPeer) : Prop := qtarget x = target /\ K (qpeer x).

(** The buffer is a heap of distinct known peers and the map holds exactly
    the identities of the heap. *)
Definition sort_inv (ps : peersort) : Prop :=
  ps_target ps = target /\ Forall entry_ok (ps_queue ps) /\
  is_heap (Pq_le target) (ps_queue ps) /\ NoDup (qid <$> ps_queue ps) /\
  forall id, is_Some (ps_map ps !! id) <-> id ∈ (qid <$> ps_queue ps).

Lemma entry_in x : entry_ok x -> Pq_in target x.
Proof. intros [??]. split; auto. Qed.

Lemma entries_in l : Forall entry_ok l -> Forall (Pq_in target) l.
Proof. intros H. eapply Forall_impl; [exact H|]. apply entry_in. Qed.

#[local] Instance lookup_order : HeapOrder (Pq_in target) Pq_Less (Pq_le target).
Proof. by apply Pq_order. Qed.

Lemma has_id_spec ps id :
  sort_inv ps -> has_id ps id = true <-> id ∈ (qid <$> ps_queue ps).
Proof.
  intros (_ & _ & _ & _ & Hm). rewrite <- Hm. unfold has_id.
  destruct (ps_map ps !! id); split; intros H; [eauto|done|done|by destruct H].
Qed.

(** Insertion of an entry whose identity is new. *)
Lemma insert_entry_inv ps x :
  sort_inv ps -> entry_ok x -> qid x ∉ (qid <$> ps_queue ps) ->
  let q := heap_push Pq_Less (ps_queue ps) x in
  sort_inv (with_queue ps q (<[qid x := x]> (ps_map ps))) /\ q ≡ₚ x :: ps_queue ps.
Proof.
  intros (Ht & Hall & Hh & Hnd & Hm) Hx Hnew q.
  destruct (heap_push_spec (less := Pq_Less) (le := Pq_le target) (ps_queue ps) x)
    as [Hp Hh']; [by apply entries_in|by apply entry_in|done|].
  split; [|exact Hp]. split_and!; simpl; [done| |done| |].
  - unfold q. rewrite Hp. by constructor.
  - unfold q. rewrite Hp. by constructor.
  - intros id. rewrite lookup_insert_is_Some'. unfold q. rewrite Hp, Hm.
    rewrite fmap_cons, elem_of_cons. naive_solver.
Qed.

Lemma with_marks_inv ps marks next :
  sort_inv ps -> sort_inv (MkSort (ps_target ps) (ps_queue ps) (ps_map ps) marks next).
Proof. done. Qed.

Lemma ps_push_inv ps p :
  sort_inv ps -> K p ->
  sort_inv (ps_push ps p) /\
  forall id, id ∈ (qid <$> ps_queue (ps_push ps p)) <-> id = pid p \/ id ∈ (qid <$> ps_queue ps).
Proof.
  intros Hps HK. unfold ps_push. destruct (has_id ps (pid p)) eqn:E.
  { apply (has_id_spec ps _ Hps) in E. split; [done|]. intros id. split; [by right|].
    by intros [->|?]. }
  assert (pid p ∉ (qid <$> ps_queue ps)) as Hnew.
  { intros H. apply (has_id_spec ps _ Hps) in H. congruence. }
  simpl. pose proof Hps as (Ht & _).
  set (x := MkPqPeer (ps_next ps) p (ps_target ps)).
  set (ps' := MkSort _ _ _ _ _).
  destruct (insert_entry_inv ps' x) as [Hi Hp]; [by apply with_marks_inv|by split|done|].
  split; [exact Hi|]. intros id. simpl in Hp |- *. rewrite Hp. simpl. set_solver.
Qed.

Lemma repush_inv ps x :
  sort_inv ps -> entry_ok x ->
  sort_inv (repush ps x) /\
  forall id, id ∈ (qid <$> ps_queue (repush ps x)) <-> id = qid x \/ id ∈ (qid <$> ps_queue ps).
Proof.
  intros Hps Hx. unfold repush. fold (qid x). destruct (has_id ps (qid x)) eqn:E.
  { apply (has_id_spec ps _ Hps) in E. split; [done|]. intros id. split; [by right|].
    by intros [->|?]. }
  assert (qid x ∉ (qid <$> ps_queue ps)) as Hnew.
  { intros H. apply (has_id_spec ps _ Hps) in H. congruence. }
  destruct (insert_entry_inv ps x) as [Hi Hp]; [done..|].
  split; [exact Hi|]. intros id. simpl. rewrite Hp. simpl. set_solver.
Qed.

Lemma ps_update_inv ps l :
  sort_inv ps -> Forall K l ->
  sort_inv (ps_update ps l) /\
  forall id, id ∈ (qid <$> ps_queue (ps_update ps l)) <->
    id ∈ (pid <$> l) \/ id ∈ (qid <$> ps_queue ps).
Proof.
  intros Hps Hl. unfold ps_update. revert ps Hps.
  induction Hl as [|p l Hp Hl IH]; intros ps Hps; simpl; [split; [done|set_solver]|].
  destruct (ps_push_inv ps p Hps Hp) as [H1 H2]. destruct (IH _ H1) as [H3 H4].
  split; [done|]. intros id. rewrite H4, H2. set_solver.
Qed.

Lemma repush_all_inv ps l :
  sort_inv ps -> Forall entry_ok l -> sort_inv (foldl repush ps l).
Proof.
  intros Hps Hl. revert ps Hps. induction Hl as [|x l Hx Hl IH]; intros ps Hps; simpl; [done|].
  by apply IH, repush_inv.
Qed.

Lemma delete_ids_lookup (out : list PqPeer) (m : gmap (list Z) PqPeer) id :
  is_Some (foldl (fun m x => delete (pid (qpeer x)) m) m out !! id) <->
  is_Some (m !! id) /\ (id ∉ qid <$> out).
Proof.
  revert m. induction out as [|x out IH]; intros m; simpl; [set_solver|].
  rewrite IH, lookup_delete_is_Some. fold (qid x). set_solver.
Qed.

(** [closest] takes the nearest entries out of the buffer. *)
Lemma ps_closest_spec ps k :
  sort_inv ps -> 0 < k ->
  exists out ps', ps_closest ps k = Some (out, ps') /\ sort_inv ps' /\
    out ++ ps_queue ps' ≡ₚ ps_queue ps /\ length out = k `min` length (ps_queue ps) /\
    StronglySorted (Pq_le target) out /\ Forall entry_ok out /\ NoDup (qid <$> out) /\
    (forall x y, x ∈ out -> y ∈ ps_queue ps' -> Pq_le target x y) /\
    ps_marks ps' = ps_marks ps.
Proof.
  intros (Ht & Hall & Hh & Hnd & Hm) Hk. unfold ps_closest.
  destruct (pop_upto_spec (less := Pq_Less) (le := Pq_le target) k (ps_queue ps))
    as (out & rest & -> & Hp & Hr & Hlen & Hs & Hle); [by apply entries_in|done|done|].
  rewrite <- Hp in Hall, Hnd. apply Forall_app in Hall as [Ho Hrest].
  rewrite fmap_app in Hnd. apply NoDup_app in Hnd as (Hn1 & Hdis & Hn2).
  eexists _, _. split; [done|]. split_and!; simpl; try done.
  split_and!; simpl; [done..|].
  intros id. rewrite delete_ids_lookup, Hm, <- Hp, fmap_app, elem_of_app.
  split; [tauto|]. intros Hid. split; [by right|]. intros Hin. by apply (Hdis id).
Qed.

Lemma newpeersort_loop_inv ps l items :
  ps_target ps = target -> Forall K l -> NoDup (pid <$> l) ->
  Forall entry_ok items -> NoDup (qid <$> items) ->
  (forall id, is_Some (ps_map ps !! id) <-> id ∈ (qid <$> items)) ->
  (forall id, id ∈ (qid <$> items) -> id ∉ (pid <$> l)) ->
  exists ps' items', newpeersort_loop ps l items = (ps', items ++ items') /\
    ps_target ps' = target /\ (qpeer <$> items') = l /\ Forall entry_ok (items ++ items') /\
    forall id, is_Some (ps_map ps' !! id) <-> id ∈ (qid <$> items ++ items').
Proof.
  revert ps items. induction l as [|p l IH]; intros ps items Ht Hl Hnd Hi Hni Hm Hdis; simpl.
  { exists ps, []. rewrite app_nil_r. split_and!; try done. }
  apply Forall_cons in Hl as [Hp Hl]. apply NoDup_cons in Hnd as [Hpl Hnd].
  assert (has_id ps (pid p) = false) as ->.
  { unfold has_id. destruct (ps_map ps !! pid p) eqn:E; [|done].
    exfalso. apply (Hdis (pid p)); [apply Hm; eauto|by left]. }
  set (x := MkPqPeer (ps_next ps) p (ps_target ps)).
  destruct (IH (with_queue (new_item ps p).2 (ps_queue ps) (<[pid p := x]> (ps_map ps))) (items ++ [x]))
    as (ps' & items' & E & Ht' & Hq & Hall & Hm'); try done.
  - apply Forall_app. split; [done|]. constructor; [by split|done].
  - rewrite fmap_app. apply NoDup_app. split_and!; [done| |by apply NoDup_singleton].
    intros id Hid ->%list_elem_of_singleton. apply (Hdis _ Hid). by left.
  - intros id. simpl. rewrite lookup_insert_is_Some', Hm, fmap_app. simpl. set_solver.
  - intros id. rewrite fmap_app. simpl. intros [Hid| ->%list_elem_of_singleton]%elem_of_app; [|done].
    specialize (Hdis _ Hid). set_solver.
  - simpl in E. exists ps', (x :: items'). rewrite E, <- app_assoc. simpl.
    rewrite <- app_assoc in Hall, Hm'. split_and!; try done. simpl. by f_equal.
Qed.

Lemma newpeersort_inv l :
  Forall K l -> NoDup (pid <$> l) ->
  exists ps, newpeersort target l = Some ps /\ sort_inv ps /\ qpeer <$> ps_queue ps ≡ₚ l.
Proof.
  intros Hl Hnd. unfold newpeersort.
  destruct (newpeersort_loop_inv (MkSort target [] ∅ ∅ 0) l [])
    as (ps & items & E & Ht & Hq & Hall & Hm); try done; simpl; try (by constructor).
  { intros id. rewrite lookup_empty. split; [by intros []|set_solver]. }
  { set_solver. }
  simpl in E, Hall, Hm. rewrite E, <- Hq, length_fmap, Nat.ltb_irrefl.
  destruct (heap_init_spec (less := Pq_Less) (le := Pq_le target) items) as [Hp Hh];
    [by apply entries_in|].
  eexists. split; [done|]. split; [|simpl; by rewrite Hp].
  assert (qid <$> items = pid <$> l) as Hids.
  { rewrite <- Hq, <- list_fmap_compose. done. }
  split_and!; simpl; [done|by rewrite Hp|done| |].
  - by rewrite Hp, Hids.
  - intros id. by rewrite Hp.
Qed.
End sort_props.

(** ** Rounds *)

(** The results come from the queried peers: the order enumerates indices of
    queried peers and a callback runs while the loop variable is at its own
    index or later. *)
Definition env_ok (env : nat -> round_env) : Prop :=
  forall r n, re_order (env r) n ≡ₚ seq 0 n /\
    (forall i, i < n -> i <= re_cap (env r) n i < n) /\
    (forall i, Forall (fun p => id_ok (pid p)) (re_ans (env r) i).1).

Definition answered (env : nat -> round_env) (p : kadpeer) : Prop :=
  exists r i, p ∈ (re_ans (env r) i).1.

(** Peers that a lookup started on [start] can know. *)
Definition lookup_knows (start : list kadpeer) (env : nat -> round_env) (p : kadpeer) : Prop :=
  id_ok (pid p) /\ (p ∈ start \/ answered env p).

Section lookup_props.
  Context (start : list kadpeer) (env : nat -> round_env) (target : list Z).
  Hypothesis target_ok : id_ok target.
  Hypothesis Henv : env_ok env.

Let K := lookup_knows start env.

Lemma knows_ok p : K p -> id_ok (pid p).
Proof. by intros [? _]. Qed.

#[local] Hint Resolve knows_ok : core.

Lemma round_results_from ps r queried x :
  x ∈ round_results ps (env r) queried ->
  fr_queried x ∈ queried /\ forall p, p ∈ fr_peers x -> answered env p.
Proof.
  unfold round_results. destruct (Henv r (length queried)) as (Hord & Hcap & _).
  intros (i & -> & Hi)%list_elem_of_fmap. rewrite Hord in Hi. apply elem_of_seq in Hi.
  assert (forall j, j < length queried -> queried !!! j ∈ queried) as Hin.
  { intros j Hj. apply list_elem_of_lookup. exists j. by apply list_lookup_lookup_total_lt. }
  case_match; simpl.
  - split; [apply Hin; lia|]. by intros p ?%elem_of_nil.
  - split; [apply Hin; apply Hcap; lia|]. intros p Hp. by exists r, i.
Qed.

Lemma take_result_inv now ps x :
  sort_inv K target ps -> entry_ok K target (fr_queried x) -> Forall K (fr_peers x) ->
  sort_inv K target (take_result now ps x).
Proof.
  intros Hps Hq Hp. unfold take_result. destruct (fr_err x); [done|].
  destruct (fr_peers x) as [|p l]; [done|].
  apply ps_update_inv; auto.
  apply (with_marks_inv K target (repush ps (fr_queried x))). apply repush_inv; auto.
Qed.

Lemma take_results_inv now l ps :
  Forall (fun x => entry_ok K target (fr_queried x) /\ Forall K (fr_peers x)) l ->
  sort_inv K target ps -> sort_inv K target (foldl (take_result now) ps l).
Proof.
  intros Hl. revert ps. induction Hl as [|x l [H1 H2] _ IH]; intros ps Hps; simpl; [done|].
  apply IH. by apply take_result_inv.
Qed.

Lemma answered_knows r x ps queried :
  x ∈ round_results ps (env r) queried -> Forall K (fr_peers x).
Proof.
  intros Hx. apply Forall_forall. intros p Hp.
  destruct (proj2 (round_results_from _ _ _ _ Hx) p Hp) as (r' & i & Hin).
  destruct (Henv r' 0) as (_ & _ & Hok). specialize (Hok i). rewrite Forall_forall in Hok.
  split; [by apply Hok|]. right. by exists r', i.
Qed.

Lemma round_inv now ps r queried :
  sort_inv K target ps -> Forall (entry_ok K target) queried ->
  sort_inv K target (foldl (take_result now) ps (round_results ps (env r) queried)).
Proof.
  intros Hps Hq. apply take_results_inv; [|done].
  apply Forall_forall. intros x Hx. split; [|by eapply answered_knows].
  rewrite Forall_forall in Hq. apply Hq. by eapply round_results_from.
Qed.

(** What a returned list satisfies. *)
Definition good_answer (k : nat) (l : list kadpeer) : Prop :=
  length l <= k /\ NoDup (pid <$> l) /\ Forall K l /\
  StronglySorted (fun p q => (distance (pid p) target <= distance (pid q) target)%Z) l.

Lemma lookup_loop_sound fuel round k ps solution queried :
  sort_inv K target ps -> Forall (entry_ok K target) queried -> 0 < k ->
  match lookup_loop fuel round k env ps solution queried with
  | LRet (Ok l) => good_answer k l
  | LRet (Err e) => e = ErrJobAborted /\ exists i, re_abort (env i) = true
  | LPanic => False
  | LFuel => True
  end.
Proof.
  revert round ps solution queried.
  induction fuel as [|fuel IH]; intros round ps solution queried Hps Hq Hk; simpl; [done|].
  destruct (re_abort (env round)) eqn:Ea; [eauto|].
  destruct queried as [|q0 queried].
  { split_and!; [simpl; lia|constructor..]. }
  set (qs := q0 :: queried) in *.
  pose proof (round_inv (re_mark (env round)) ps round qs Hps Hq) as Hps1.
  destruct (ps_closest_spec K target knows_ok target_ok _ k Hps1 Hk)
    as (out & ps2 & -> & Hps2 & _ & Hlen & Hs & Hall & Hnd & _).
  assert (good_answer k (qpeer <$> out)) as Hgood.
  { split_and!.
    - rewrite length_fmap. lia.
    - by rewrite <- list_fmap_compose.
    - apply Forall_fmap. eapply Forall_impl; [exact Hall|]. by intros x [_ ?].
    - by apply StronglySorted_fmap_qpeer. }
  destruct (compare _ _).
  - destruct (re_abort (env (S round))) eqn:Ea'; eauto.
  - apply IH; [|by apply Forall_take|done].
    apply repush_all_inv; auto. by apply Forall_drop.
Qed.
End lookup_props.

(** The state in which the loop starts. *)
Lemma lookup_start r target k env :
  table_inv r -> id_ok target -> 0 < k ->
  (rtable_closest r target k = Some [] /\ table_peers r = []) \/
  exists solution queried ps,
    rtable_closest r target k = Some solution /\ solution <> [] /\
    nearest target k (table_peers r) solution /\
    sort_inv (lookup_knows solution env) target ps /\
    Forall (entry_ok (lookup_knows solution env) target) queried /\
    queried <> [] /\ length queried + length (ps_queue ps) = length solution /\
    forall fuel, lookup fuel r target k env = lookup_loop fuel 0 k env ps solution queried.
Proof.
  intros Hinv Ht Hk. destruct (rtable_closest_spec r target k Hinv Ht Hk) as (out & E & Hn).
  pose proof Hn as (Hlen & Hnd & _ & Hin & _).
  destruct (table_peers_ok r Hinv) as [_ Hok]. rewrite Forall_forall in Hok.
  unfold lookup. rewrite E. destruct out as [|p0 out].
  { left. split; [done|]. simpl in Hlen. destruct (table_peers r); [done|simpl in Hlen; lia]. }
  right. set (sol := p0 :: out) in *.
  assert (Forall (lookup_knows sol env) sol) as HK.
  { apply Forall_forall. intros p Hp. split; [by apply Hok, Hin|by left]. }
  assert (forall p, lookup_knows sol env p -> id_ok (pid p)) as HKok by (by intros p [? _]).
  destruct (newpeersort_inv _ target HKok Ht sol HK Hnd) as (ps & -> & Hps & Hp).
  assert (0 < KADEMLIA_ALPHA) as Ha by (unfold KADEMLIA_ALPHA; lia).
  destruct (ps_closest_spec _ target HKok Ht ps _ Hps Ha)
    as (queried & ps' & -> & Hps' & Hp' & Hl' & _ & Hall & _).
  apply Permutation_length in Hp, Hp'. rewrite length_fmap in Hp. rewrite length_app in Hp'.
  exists sol, queried, ps'. split_and!; try done.
  - intros ->. cbn [length] in Hl'. unfold sol in Hp. cbn [length] in Hp. lia.
  - lia.
Qed.

(** C22. A lookup on a reachable table never panics; what it returns has at
    most [k] distinct peers in ascending distance to the target, all of them
    from the table or from an answer; it fails only when the table is empty or
    the job is aborted. *)
Theorem lookup_sound me r target k env fuel :
  id_ok (pid me) -> table_reachable me r -> id_ok target -> 0 < k -> env_ok env ->
  match lookup fuel r target k env with
  | LRet (Ok l) =>
    length l <= k /\ NoDup (pid <$> l) /\
    StronglySorted (fun p q => (distance (pid p) target <= distance (pid q) target)%Z) l /\
    (forall p, p ∈ l -> p ∈ table_peers r \/ answered env p)
  | LRet (Err e) =>
    (e = ErrNoPeer /\ table_peers r = []) \/
    (e = ErrJobAborted /\ exists i, re_abort (env i) = true)
  | LPanic => False
  | LFuel => True
  end.
Proof.
  intros Hme Hr Ht Hk Henv. destruct (table_reachable_ok me r Hme Hr) as [Hinv _].
  destruct (lookup_start r target k env Hinv Ht Hk)
    as [[E Hnil]|(sol & qs & ps & E & Hne & Hn & Hps & Hq & _ & _ & ->)].
  { unfold lookup. rewrite E. by left. }
  pose proof (lookup_loop_sound sol env target Ht Henv fuel 0 k ps sol qs Hps Hq Hk) as Hs.
  destruct (lookup_loop _ _ _ _ _ _ _) as [[l|e]| |]; try done; [|by right].
  destruct Hs as (? & ? & Hall & ?). split_and!; try done.
  intros p Hp. rewrite Forall_forall in Hall. destruct (Hall p Hp) as [_ [Hin|?]]; [left|by right].
  destruct Hn as (_ & _ & _ & Hsub & _). by apply Hsub.
Qed.

(** ** A network that does not answer *)

Definition all_fail (env : nat -> round_env) : Prop :=
  forall r, re_abort (env r) = false /\ forall i, (re_ans (env r) i).2 <> None.

Lemma fail_results now ps ps' e queried :
  (forall i, (re_ans e i).2 <> None) ->
  foldl (take_result now) ps (round_results ps' e queried) = ps.
Proof.
  intros Hf. unfold round_results. generalize (re_order e (length queried)).
  intros order. induction order as [|i order IH]; simpl; [done|].
  rewrite <- IH at 2. f_equal. destruct (recentlyqueried _ _ _); [done|].
  specialize (Hf i). unfold take_result. simpl. by destruct (re_ans e i).2.
Qed.

Lemma compare_length l1 l2 : length l2 < length l1 -> compare l1 l2 = false.
Proof.
  intros Hlt. apply bool_decide_eq_false. intros E.
  apply (f_equal length) in E. rewrite !length_fmap in E. lia.
Qed.

Lemma length_repush_new K target ps l :
  (forall p, K p -> id_ok (pid p)) -> id_ok target ->
  sort_inv K target ps -> Forall (entry_ok K target) l ->
  length (ps_queue (foldl repush ps l)) <= length (ps_queue ps) + length l.
Proof.
  intros HK Ht Hps Hl. revert ps Hps.
  induction Hl as [|x l Hx Hl IH]; intros ps Hps; simpl; [lia|].
  destruct (repush_inv K target HK Ht ps x Hps Hx) as [Hps' _].
  specialize (IH _ Hps').
  assert (length (ps_queue (repush ps x)) <= S (length (ps_queue ps))); [|lia].
  unfold repush. destruct (has_id ps _) eqn:E; [lia|].
  destruct (insert_entry_inv K target HK Ht ps x Hps Hx) as [_ Hp].
  { intros Hin. apply (has_id_spec K target ps _ Hps) in Hin. unfold qid in Hin. congruence. }
  simpl. apply Permutation_length in Hp. rewrite Hp. done.
Qed.

Lemma lookup_loop_fail start env target fuel round k ps solution queried :
  id_ok target -> env_ok env -> all_fail env ->
  sort_inv (lookup_knows start env) target ps ->
  0 < k -> length (ps_queue ps) <= k ->
  (queried <> [] -> length (ps_queue ps) < length solution) ->
  length (ps_queue ps) + (match queried with [] => 1 | _ => 2 end) <= fuel ->
  lookup_loop fuel round k env ps solution queried = LRet (Ok []).
Proof.
  intros Ht Henv Hfail. revert round ps solution queried.
  induction fuel as [|fuel IH]; intros round ps solution queried Hps Hk Hle Hlt Hf;
    [destruct queried; lia|].
  cbn [lookup_loop]. destruct (Hfail round) as [-> Herr].
  destruct queried as [|q0 qs]; [done|]. rewrite fail_results by done.
  assert (forall p, lookup_knows start env p -> id_ok (pid p)) as HK by (by intros p [? _]).
  destruct (ps_closest_spec _ target HK Ht ps k Hps Hk)
    as (out & ps' & -> & Hps' & Hp & Hlen & _ & Hall & _).
  apply Permutation_length in Hp. rewrite length_app in Hp.
  assert (ps_queue ps' = []) as Hq' by (apply nil_length_inv; lia).
  rewrite compare_length by (rewrite length_fmap; specialize (Hlt ltac:(done)); lia).
  pose proof (length_repush_new _ target ps' (drop KADEMLIA_ALPHA out) HK Ht Hps'
    (Forall_drop _ _ _ Hall)) as Hrep.
  rewrite Hq', length_drop in Hrep. simpl in Hrep.
  assert (0 < KADEMLIA_ALPHA) by (unfold KADEMLIA_ALPHA; lia).
  apply IH; [|done|lia| |].
  - apply repush_all_inv; auto. by apply Forall_drop.
  - rewrite length_fmap. destruct out as [|x out]; [done|]. intros _. cbn [length] in *. lia.
  - destruct out as [|x out]; [cbn [length] in *; simpl; lia|].
    cbn [length] in *. case_match; lia.
Qed.

(** When no peer answers, the lookup terminates within [k + 2] rounds and
    returns an empty list without an error. *)
Theorem lookup_unanswered me r target k env :
  id_ok (pid me) -> table_reachable me r -> id_ok target -> 0 < k -> env_ok env ->
  all_fail env -> table_peers r <> [] ->
  lookup (k + 2) r target k env = LRet (Ok []).
Proof.
  intros Hme Hr Ht Hk Henv Hfail Hne. destruct (table_reachable_ok me r Hme Hr) as [Hinv _].
  destruct (lookup_start r target k env Hinv Ht Hk)
    as [[E Hnil]|(sol & qs & ps & E & Hsol & Hn & Hps & Hq & Hqs & Hlen & ->)]; [done|].
  destruct Hn as (Hl & _). destruct qs as [|q0 qs]; [done|]. simpl in Hlen.
  apply (lookup_loop_fail sol env target); try done; lia.
Qed.

(** ** What a round does to the buffer *)

Definition ids (ps : peersort) : list (list Z) := qid <$> ps_queue ps.

(** A result of a peer that replied. *)
Definition replied (r : findnoderesult) : Prop := fr_err r = None /\ fr_peers r <> [].

Lemma take_results_ids start env target now l ps :
  id_ok target -> sort_inv (lookup_knows start env) target ps ->
  Forall (fun x => entry_ok (lookup_knows start env) target (fr_queried x) /\
                   Forall (lookup_knows start env) (fr_peers x) /\ replied x) l ->
  forall id, id ∈ ids (foldl (take_result now) ps l) <->
    id ∈ ids ps \/ exists x, x ∈ l /\ (id = qid (fr_queried x) \/ id ∈ (pid <$> fr_peers x)).
Proof.
  intros Ht Hps Hl. assert (forall p, lookup_knows start env p -> id_ok (pid p)) as HK by (by intros p [? _]).
  revert ps Hps. induction Hl as [|x l (Hq & Hp & Herr & Hne) _ IH]; intros ps Hps id; simpl.
  { split; [by left|]. intros [?|(x & ?%elem_of_nil & _)]; done. }
  rewrite IH by (by apply take_result_inv).
  assert (id ∈ ids (take_result now ps x) <->
          id ∈ ids ps \/ id = qid (fr_queried x) \/ id ∈ (pid <$> fr_peers x)) as ->.
  { unfold take_result. rewrite Herr. destruct (fr_peers x) as [|p ps0] eqn:E; [done|].
    destruct (repush_inv _ target HK Ht ps (fr_queried x) Hps Hq) as [H1 H2].
    unfold ids. rewrite (proj2 (ps_update_inv _ target HK Ht
      (mark (repush ps (fr_queried x)) now (fr_queried x)) (p :: ps0)
      (with_marks_inv _ _ _ _ _ H1) Hp) id).
    simpl. rewrite H2. unfold ids. tauto. }
  split.
  - intros [[?|?]|(y & Hy & ?)]; [by left|right; exists x; split; [by left|done]|].
    right. exists y. split; [by right|done].
  - intros [?|(y & [->|Hy]%elem_of_cons & ?)]; [tauto..|]. right. by exists y.
Qed.

Lemma late_results env r ps queried last :
  let n := length (queried ++ [last]) in
  env_ok env ->
  (forall i, i < n -> re_cap (env r) n i = n - 1) ->
  (forall i, i < n -> (re_ans (env r) i).2 = None /\ (re_ans (env r) i).1 <> []) ->
  (forall q, q ∈ queried ++ [last] -> recentlyqueried ps (re_now (env r)) q = false) ->
  round_results ps (env r) (queried ++ [last]) =
    (fun i => MkResult last (re_ans (env r) i).1 None) <$> re_order (env r) n.
Proof.
  intros n Henv Hcap Hans Hrec.
  assert (Hlast : (queried ++ [last]) !!! (n - 1) = last).
  { apply list_lookup_total_correct. unfold n. rewrite length_app. simpl.
    apply list_lookup_middle. lia. }
  unfold round_results. apply list_fmap_ext. intros j i Hi. fold n.
  destruct (Henv r n) as (Hord & _ & _).
  assert (i < n) as Hlt by (apply list_elem_of_lookup_2 in Hi; rewrite Hord, elem_of_seq in Hi; lia).
  rewrite Hrec, Hcap, Hlast by (try done; apply list_elem_of_lookup; exists i;
    by apply list_lookup_lookup_total_lt).
  by destruct (Hans i Hlt) as [-> _].
Qed.

(** The closure handed to [find] captures the loop variable: when the
    answers of a round arrive after the loop has started all its queries, the
    buffer gets back the last queried peer only, although every queried peer
    has replied; of the others it keeps those that some answer names. *)
Theorem late_callbacks_keep_last start env target r ps queried last :
  id_ok target -> env_ok env -> sort_inv (lookup_knows start env) target ps ->
  Forall (entry_ok (lookup_knows start env) target) (queried ++ [last]) ->
  let n := length (queried ++ [last]) in
  (forall i, i < n -> re_cap (env r) n i = n - 1) ->
  (forall i, i < n -> (re_ans (env r) i).2 = None /\ (re_ans (env r) i).1 <> []) ->
  (forall q, q ∈ queried ++ [last] -> recentlyqueried ps (re_now (env r)) q = false) ->
  forall id,
    id ∈ ids (foldl (take_result (re_mark (env r))) ps (round_results ps (env r) (queried ++ [last])))
    <-> id ∈ ids ps \/ id = qid last \/ exists i, i < n /\ id ∈ (pid <$> (re_ans (env r) i).1).
Proof.
  intros Ht Henv Hps Hq n Hcap Hans Hrec id.
  apply Forall_app in Hq as [_ Hlast]. rewrite Forall_singleton in Hlast.
  destruct (Henv r n) as (Hord & _ & Hok).
  assert (forall x, x ∈ ((fun i => MkResult last (re_ans (env r) i).1 None) <$> re_order (env r) n) <->
    exists i, i < n /\ x = MkResult last (re_ans (env r) i).1 None) as Helem.
  { intros x. rewrite list_elem_of_fmap. setoid_rewrite Hord. setoid_rewrite elem_of_seq.
    split; intros (i & ? & ?); exists i; split; (done || lia). }
  assert (forall i, Forall (lookup_knows start env) (re_ans (env r) i).1) as Hk.
  { intros i. apply Forall_forall. intros p Hp. specialize (Hok i). rewrite Forall_forall in Hok.
    split; [by apply Hok|]. right. by exists r, i. }
  rewrite late_results by done. rewrite (take_results_ids start env target _ _ _ Ht Hps); cycle 1.
  { apply Forall_forall. intros x (i & Hi & ->)%Helem.
    split; [exact Hlast|]. split; [apply Hk|]. split; [done|by apply Hans]. }
  fold n. setoid_rewrite Helem. split.
  - intros [?|(x & (i & Hi & ->) & [->|?])]; [by left|by right; left|right; right; by exists i].
  - assert (0 < n) by (unfold n; rewrite length_app; simpl; lia).
    intros [?|[->|(i & Hi & ?)]]; [by left| |]; right; eexists; (split; [by eexists|]);
      [by left|by right].
Qed.

(** ** Concrete networks *)

Definition demo_round (cap : nat -> nat -> nat) (ans : nat -> list kadpeer * option kaderror)
  : round_env :=
  MkEnv false (10 ^ 18) (10 ^ 18) ans cap (fun n => seq 0 n).

(** Answers are read in order while the loop variable is at the queried peer. *)
Definition on_time (ans : nat -> nat -> list kadpeer * option kaderror) (r : nat) : round_env :=
  demo_round (fun _ i => i) (ans r).

Definition late (ans : nat -> nat -> list kadpeer * option kaderror) (r : nat) : round_env :=
  demo_round (fun n _ => n - 1) (ans r).

Lemma on_time_ok ans :
  (forall r i, Forall (fun p => id_ok (pid p)) (ans r i).1) -> env_ok (on_time ans).
Proof. intros H r n. split_and!; simpl; [done|lia|apply H]. Qed.

Lemma late_ok ans :
  (forall r i, Forall (fun p => id_ok (pid p)) (ans r i).1) -> env_ok (late ans).
Proof. intros H r n. split_and!; simpl; [done|lia|apply H]. Qed.

Lemma lookup_sound_witness :
  match lookup 5 demo_table (demo_id 6) 4 (on_time (fun _ _ => ([demo_peer 3], None))) with
  | LRet (Ok l) =>
    length l <= 4 /\ NoDup (pid <$> l) /\
    StronglySorted (fun p q => (distance (pid p) (demo_id 6) <= distance (pid q) (demo_id 6))%Z) l /\
    (forall p, p ∈ l -> p ∈ table_peers demo_table \/
       answered (on_time (fun _ _ => ([demo_peer 3], None))) p)
  | LRet (Err e) =>
    (e = ErrNoPeer /\ table_peers demo_table = []) \/
    (e = ErrJobAborted /\ exists i, re_abort (on_time (fun _ _ => ([demo_peer 3], None)) i) = true)
  | LPanic => False
  | LFuel => True
  end.
Proof.
  apply (lookup_sound (demo_peer 1)); [by apply id_okb_ok|apply demo_reachable|by apply id_okb_ok|lia|].
  apply on_time_ok. intros _ _. constructor; [by apply id_okb_ok|constructor].
Defined.

Lemma lookup_unanswered_witness :
  lookup 6 demo_table (demo_id 6) 4 (on_time (fun _ _ => ([], Some ErrNoPeer))) = LRet (Ok []).
Proof.
  apply (lookup_unanswered (demo_peer 1) demo_table (demo_id 6) 4);
    [by apply id_okb_ok|apply demo_reachable|by apply id_okb_ok|lia| | |done].
  - apply on_time_ok. intros _ _. constructor.
  - by intros r.
Defined.

Definition demo_entry (n : Z) : PqPeer := MkPqPeer (Z.to_nat n) (demo_peer n) (demo_id 6).

Lemma late_callbacks_keep_last_witness :
  let env := late (fun _ _ => ([demo_peer 3], None)) in
  let ps := MkSort (demo_id 6) [] ∅ ∅ 0 in
  ids ps = [] /\ forall id,
    id ∈ ids (foldl (take_result (re_mark (env 0))) ps (round_results ps (env 0) ([demo_entry 7] ++ [demo_entry 9])))
    <-> id ∈ ids ps \/ id = qid (demo_entry 9) \/
        exists i, i < 2 /\ id ∈ (pid <$> (re_ans (env 0) i).1).
Proof.
  intros env ps. split; [done|].
  apply (late_callbacks_keep_last [demo_peer 7; demo_peer 9] env (demo_id 6) 0 ps [demo_entry 7] (demo_entry 9)).
  - by apply id_okb_ok.
  - apply late_ok. intros _ _. constructor; [by apply id_okb_ok|constructor].
  - split_and!; simpl; [done|constructor|by intros ??|constructor|].
    intros id. rewrite lookup_empty. split; [by intros []|set_solver].
  - repeat (apply Forall_cons; split); [| |constructor];
      (split; [done|split; [by apply id_okb_ok|set_solver]]).
  - done.
  - done.
  - done.
Defined.

(** Node 200 has peers 1, 2, 3 and 5 in its table, the target is 0; in the first round everybody
    answers with peer 4, later with the others of the two. *)
Definition loses_table : rtable :=
  foldl (fun r n => table_of (rtable_seen r (demo_peer n))) (table_of (newrtable (demo_peer 200)))
    [1; 2; 3; 5]%Z.

Definition loses_ans (r i : nat) : list kadpeer * option kaderror :=
  match r, i with
  | 0, _ => ([demo_peer 4], None)
  | _, 0 => ([demo_peer 5], None)
  | _, _ => ([demo_peer 4], None)
  end.

Lemma seen_reachable me r p :
  id_ok (pid me) -> table_reachable me r -> id_ok (pid p) ->
  table_reachable me (table_of (rtable_seen r p)).
Proof.
  intros Hme Hr Hp. destruct (table_reachable_ok me r Hme Hr) as [Hinv _].
  destruct (rtable_seen_ok r p Hinv Hp) as (r' & f & a & E & _).
  destruct Hr as (r0 & f0 & a0 & E0 & Hr). exists r0, f0, a0. split; [done|].
  rewrite E. eapply rtc_r; [done|]. by eapply step_seen.
Qed.

Lemma loses_reachable : table_reachable (demo_peer 200) loses_table.
Proof.
  unfold loses_table. cbn [foldl]. do 4 (apply seen_reachable; [by apply id_okb_ok| |by apply id_okb_ok]).
  eexists _, _, _. split; [reflexivity|]. apply rtc_refl.
Qed.

(** The lookup can lose the closest peers although every query is
    answered in time: peers queried in the round before are skipped and not put
    back, so a run on a reachable table returns a list that lacks a peer of the
    table nearer to the target than everything in the list. *)
Theorem lookup_loses_closest :
  exists me r target k env fuel l p,
    table_reachable me r /\ env_ok env /\
    (forall n, re_abort (env n) = false) /\
    (forall n i, (re_ans (env n) i).2 = None /\ (re_ans (env n) i).1 <> []) /\
    (forall n m i, re_cap (env n) m i = i) /\
    lookup fuel r target k env = LRet (Ok l) /\ length l < k /\
    p ∈ table_peers r /\ Forall (fun q => distance (pid p) target < distance (pid q) target)%Z l.
Proof.
  exists (demo_peer 200), loses_table, (demo_id 0), 4, (on_time loses_ans), 6,
    [demo_peer 4; demo_peer 5], (demo_peer 1).
  split_and!; [apply loses_reachable| |done| |done|by vm_compute|simpl; lia| |].
  - apply on_time_ok. intros [] []; (constructor; [by apply id_okb_ok|constructor]).
  - by intros [] [].
  - apply list_elem_of_lookup. exists 1. by vm_compute.
  - by repeat constructor.
Qed.
