(* ===== verification/KadNode.v ===== *)
(** * The Kademlia node ([src/ndn/kad/node.go], node part of
    [src/ndn/kad/ndnpeer.go], callbacks of [src/ndn/kad/ping.go])

    The node owns the routing table, the querying service, the list of peers
    seen by the RPC server and the peer store.  The callbacks between the
    parts (the table orders pings, the service reports live and dead peers)
    are composed here.  [None] is a panic or a send that blocks. *)

From S2P Require Import Prelude Bytes KadId KadTable Names Signal KadPeer KadPing.
Local Open Scope Z_scope.

Definition NUM_FINDNODE_ATTEMPS : nat := 2.
Definition NUM_PING_ATTEMPS : nat := 2.
Definition LOOKUP_K : nat := 5.

Record kadnode := MkNode {
  nstore : pstore;
  nself : kadpeer;
  ntable : rtable;
  nqs : qsvc;
  nseenlist : list ndnNodeRecord;
  nsig : signal;
  nevents : list (kadpeer * bool);
  nboot : list kadpeer;
  ndead : bool;
}.

Definition set_store n st := MkNode st (nself n) (ntable n) (nqs n) (nseenlist n) (nsig n) (nevents n) (nboot n) (ndead n).
Definition set_table n t := MkNode (nstore n) (nself n) t (nqs n) (nseenlist n) (nsig n) (nevents n) (nboot n) (ndead n).
Definition set_qs n q := MkNode (nstore n) (nself n) (ntable n) q (nseenlist n) (nsig n) (nevents n) (nboot n) (ndead n).
Definition set_seen n l g := MkNode (nstore n) (nself n) (ntable n) (nqs n) l g (nevents n) (nboot n) (ndead n).
Definition set_boot n l := MkNode (nstore n) (nself n) (ntable n) (nqs n) (nseenlist n) (nsig n) (nevents n) l (ndead n).

(** [notifypeerevent]: the event handed to the callback goroutine. *)
Definition notifypeerevent (n : kadnode) (p : kadpeer) (live : bool) : kadnode :=
  MkNode (nstore n) (nself n) (ntable n) (nqs n) (nseenlist n) (nsig n)
    (nevents n ++ [(p, live)]) (nboot n) (ndead n).

Definition newkadnode (me : ndnNodeRecord) : option kadnode :=
  let '(self, st) := PeerFromRecord empty_pstore me in
  '(t, _, _) ← newrtable self;
  Some (MkNode st self t (newqueryingservice (rid me)) [] sig_init [] [] false).

(** ** Table operations with their pings *)

(** [node.rtable.seen(p)], whose [ping] field is [qs.pingpeer]. *)
Definition node_rt_seen (n : kadnode) (now : Z) (p : kadpeer) : option (kadnode * bool) :=
  '(t, first, added) ← rtable_seen (ntable n) p;
  match first with
  | None => Some (set_table n t, added)
  | Some f =>
    q ← pingpeer (nstore n) now (nqs n) f;
    Some (set_qs (set_table n t) q, added)
  end.

Definition peerstatechange (n : kadnode) (now : Z) (p : kadpeer) (live : bool) : option kadnode :=
  if live then
    '(n, added) ← node_rt_seen n now p;
    Some (if (added : bool) then notifypeerevent n p true else n)
  else
    '(t, _, inbucket) ← rtable_remove (ntable n) (pid p);
    let n := set_table n t in
    Some (if (inbucket : bool) then notifypeerevent n p false else n).

(** [queryingservice.onreplied]; [ok] is [err == nil]. *)
Definition onreplied (n : kadnode) (now : Z) (p : kadpeer) (ok : bool) : option kadnode :=
  let n := set_qs n (qs_replied (nqs n) p) in
  if ok then
    let n := set_store n (setseen (nstore n) now p) in
    let n := set_qs n (deadlist_remove (nqs n) (pid p)) in
    peerstatechange n now p true
  else
    let n := set_qs n (deadlist_add (nqs n) now p) in
    peerstatechange n now p false.

(** The callback installed by [queryingservice.findnode]. *)
Definition findnode_replied (n : kadnode) (now : Z) (p : kadpeer) (r : res kaderror (list kadpeer))
  : option kadnode :=
  match r with
  | Err _ => onreplied n now p false
  | Ok peers =>
    n ← onreplied n now p true;
    q ← pingpeers (nstore n) now (nqs n) peers;
    Some (set_qs n q)
  end.

(** ** Peers seen by the RPC server *)

Definition seepeer (n : kadnode) (now : Z) (rec : ndnNodeRecord) : option kadnode :=
  found ← rtable_get (ntable n) (rid rec) false;
  match found with
  | None =>
    let '(p, st) := PeerFromRecord (nstore n) rec in
    '(n, added) ← node_rt_seen (set_store n st) now p;
    let n := if (added : bool) then notifypeerevent n p true else n in
    Some (set_store n (setseen (nstore n) now p))
  | Some p =>
    let n := set_store n (peer_update (nstore n) p rec) in
    let n := set_qs n (deadlist_remove (nqs n) (pid p)) in
    Some (set_store n (setseen (nstore n) now p))
  end.

Fixpoint seepeers (n : kadnode) (now : Z) (l : list ndnNodeRecord) : option kadnode :=
  match l with
  | [] => Some n
  | rec :: l => n ← seepeer n now rec; seepeers n now l
  end.

Definition markseenpeers (n : kadnode) (now : Z) : option kadnode :=
  n ← seepeers n now (nseenlist n);
  Some (set_seen n [] (sig_clear (nsig n))).

Definition droppeer (n : kadnode) (id : list Z) : option kadnode :=
  '(t, removed, _) ← rtable_remove (ntable n) id;
  let n := set_table n t in
  match removed with
  | Some p => Some (set_qs n (qs_drop (nqs n) p))
  | None => Some n
  end.

Definition node_stop (n : kadnode) : kadnode :=
  MkNode (nstore n) (nself n) (ntable n) (nqs n) (nseenlist n) (nsig n) (nevents n) (nboot n) true.

(** [start]: the boot nodes other than the node itself. *)
Fixpoint boot_peers (st : pstore) (me : list Z) (recs : list ndnNodeRecord) : list kadpeer * pstore :=
  match recs with
  | [] => ([], st)
  | rec :: recs =>
    if bool_decide (rid rec = me) then boot_peers st me recs
    else
      let '(p, st) := PeerFromRecord st rec in
      let '(l, st) := boot_peers st me recs in
      (p :: l, st)
  end.

Definition node_start (n : kadnode) (bootnodes : list ndnNodeRecord) : res kaderror kadnode :=
  if ndead n then Err ErrJobAborted
  else match bootnodes with
  | [] => Ok n
  | _ =>
    let '(l, st) := boot_peers (nstore n) (pid (nself n)) bootnodes in
    Ok (set_boot (set_store n st) l)
  end.

Definition seedrtable (n : kadnode) (now : Z) : option kadnode :=
  q ← pingpeers (nstore n) now (nqs n) (nboot n);
  Some (set_qs n q).

(** The refresh branch of [mainloop]: seed an empty table, otherwise look up
    the own identity the first time and a random one later. *)
Inductive refresh_action := Seed | Lookup (id : list Z).

Definition refresh (n : kadnode) (firstlookup : bool) (random : list Z) : refresh_action * bool :=
  if rtable_isempty (ntable n) then (Seed, true)
  else if firstlookup then (Lookup (pid (nself n)), false)
  else (Lookup random, false).

Section rpc.
  Context {L : NdnLib}.

Definition AddSeenRecord (n : kadnode) (info : NdnNodeRecordInfo) : option kadnode :=
  if ndead n then Some n
  else
    rec ← NdnNodeRecordUnmarshaling info;
    g ← sig_raise (nsig n);
    Some (set_seen n (nseenlist n ++ [rec]) g).

Fixpoint marshal_peers (st : pstore) (l : list kadpeer) : option (list NdnNodeRecordInfo) :=
  match l with
  | [] => Some []
  | p :: l =>
    d ← pheap st !! paddr p;
    info ← NdnNodeRecordMarshaling (precord d);
    rest ← marshal_peers st l;
    Some (info :: rest)
  end.

(** [Find], the backend of the Findnode RPC; [k] is the byte of the request. *)
Definition Find (n : kadnode) (target : list Z) (k : Z) : option (list NdnNodeRecordInfo) :=
  if ndead n then Some []
  else match IdFromHexString target with
  | None => Some []
  | Some id =>
    peers ← rtable_closest (ntable n) id (Z.to_nat k);
    marshal_peers (nstore n) peers
  end.

Fixpoint makepeers (t : rtable) (st : pstore) (infos : list NdnNodeRecordInfo)
  : option (list kadpeer * pstore) :=
  match infos with
  | [] => Some ([], st)
  | info :: infos =>
    rec ← NdnNodeRecordUnmarshaling info;
    found ← rtable_get t (rid rec) false;
    let '(p, st) := match found with
                    | Some p => (p, st)
                    | None => PeerFromRecord st rec
                    end in
    '(l, st) ← makepeers t st infos;
    Some (p :: l, st)
  end.

(** [ping]: the outcome of each attempt is given by [rpc]. *)
Fixpoint ping_loop (tries : nat) (i : nat) (rpc : nat -> option kaderror) (err : option kaderror)
  : option kaderror :=
  match tries with
  | O => err
  | S tries =>
    match rpc i with
    | None => None
    | Some e => ping_loop tries (S i) rpc (Some e)
    end
  end.

Definition node_ping (rpc : nat -> option kaderror) : option kaderror :=
  ping_loop NUM_PING_ATTEMPS 0 rpc None.

(** [findnode]: [aborted i] tells whether the abort channel is closed when
    attempt [i] starts and [rpc i] is the answer of that attempt. *)
Fixpoint findnode_loop (n : kadnode) (tries i : nat) (aborted : nat -> bool)
    (rpc : nat -> res kaderror (list NdnNodeRecordInfo)) (err : option kaderror)
  : option (res kaderror (list kadpeer) * kadnode) :=
  match tries with
  | O => match err with Some e => Some (Err e, n) | None => Some (Ok [], n) end
  | S tries =>
    if aborted i then Some (Err ErrJobAborted, n)
    else match rpc i with
    | Ok infos =>
      '(l, st) ← makepeers (ntable n) (nstore n) infos;
      Some (Ok l, set_store n st)
    | Err e => findnode_loop n tries (S i) aborted rpc (Some e)
    end
  end.

Definition node_findnode (n : kadnode) (target : list Z) (k : nat) (p : kadpeer)
    (aborted : nat -> bool) (rpc : nat -> res kaderror (list NdnNodeRecordInfo))
  : option (res kaderror (list kadpeer) * kadnode) :=
  if bool_decide (pid (nself n) = pid p) then
    l ← rtable_closest (ntable n) target k;
    Some (Ok l, n)
  else findnode_loop n NUM_FINDNODE_ATTEMPS 0 aborted rpc None.
End rpc.

#[global] Arguments node_rt_seen : simpl never.
#[global] Arguments peerstatechange : simpl never.
#[global] Arguments onreplied : simpl never.
#[global] Arguments seepeer : simpl never.
#[global] Arguments PeerFromRecord : simpl never.

(** ** Known peers of a table *)

Lemma known_bucket r i b q :
  buckets r !! i = Some b -> q ∈ peers b ++ replacements b -> q ∈ known_peers r.
Proof.
  intros Hb Hq. apply list_elem_of_bind. exists b. split; [done|].
  apply list_elem_of_lookup. eauto.
Qed.

Lemma known_insert r i b' q :
  q ∈ known_peers (Rtable (self r) (<[i := b']> (buckets r))) ->
  q ∈ peers b' ++ replacements b' \/ q ∈ known_peers r.
Proof.
  intros (b & Hq & Hb)%list_elem_of_bind. apply list_elem_of_lookup in Hb as [j Hj].
  apply list_lookup_insert_Some in Hj as [(_ & <- & _)|[_ Hj]]; [by left|].
  right. by eapply known_bucket.
Qed.

Lemma seen_known r p r' first added :
  table_inv r -> rtable_seen r p = Some (r', first, added) ->
  (forall q, q ∈ known_peers r' -> q = p \/ q ∈ known_peers r) /\
  (forall f, first = Some f -> f ∈ known_peers r).
Proof.
  intros (_ & _ & Hbs) H. unfold rtable_seen in H.
  destruct (buckets r !! _) as [b|] eqn:Hb; [|done].
  destruct (Hbs _ _ Hb) as [Hbi _].
  pose proof (bucket_add_elem b p) as Hel. pose proof (bucket_add_result b p Hbi) as Hres.
  destruct (bucket_add b p) as [[b' f'] a']. simplify_eq. simpl in *. split.
  - intros q [Hq|Hq]%known_insert; [|by right].
    destruct (Hel q Hq) as [?|?]; [by left|right; by eapply known_bucket].
  - intros f Hf. destruct Hres as (_ & _ & Hfirst). rewrite Hf in Hfirst.
    case_decide; [|done]. eapply known_bucket; [done|].
    apply elem_of_app. left. destruct (peers b); [done|]. simpl in Hfirst.
    simplify_eq. by left.
Qed.

Lemma remove_known r id r' removed inb :
  table_inv r -> rtable_remove r id = Some (r', removed, inb) ->
  (forall q, q ∈ known_peers r' -> q ∈ known_peers r) /\
  (forall p, removed = Some p -> p ∈ known_peers r /\ pid p = id).
Proof.
  intros (_ & _ & Hbs) H. unfold rtable_remove in H.
  destruct (buckets r !! _) as [b|] eqn:Hb; [|done].
  destruct (Hbs _ _ Hb) as [Hbi _].
  pose proof (fun q => bucket_remove_elem b id q Hbi) as Hel.
  pose proof (bucket_remove_perm b id Hbi) as Hp.
  destruct (bucket_remove b id) as [[b' rm] i']. simplify_eq. simpl in *. split.
  - intros q [Hq|Hq]%known_insert; [|done]. eapply known_bucket; [done|]. by apply Hel.
  - intros p ->. destruct Hp as [? Hp]. split; [|done].
    eapply known_bucket; [done|]. rewrite Hp. by left.
Qed.

Lemma get_known r id p :
  rtable_get r id false = Some (Some p) -> p ∈ known_peers r /\ pid p = id.
Proof.
  unfold rtable_get. intros (b & Hb & Hg)%fmap_Some.
  symmetry in Hg. apply bucket_get_Some in Hg as [? ?].
  split; [by eapply known_bucket|done].
Qed.

Lemma get_ok r id : table_inv r -> id_ok id -> exists o, rtable_get r id false = Some o.
Proof.
  intros Hi Hid. destruct (table_bucket r id Hi Hid) as [b Hb].
  unfold rtable_get. rewrite Hb. simpl. eauto.
Qed.

(** ** The invariant of the node *)

Definition dead_ok (st : pstore) (m : gmap (list Z) (kadpeer * Z)) : Prop :=
  forall id p t, m !! id = Some (p, t) -> pid p = id /\ peer_ok st p.

Record node_inv (n : kadnode) : Prop := MkNodeInv {
  ni_store : pstore_ok (nstore n);
  ni_table : table_inv (ntable n);
  ni_known : Forall (peer_ok (nstore n)) (known_peers (ntable n));
  ni_qs : qs_inv (nstore n) (nqs n);
  ni_qself : qself (nqs n) = pid (nself n);
  ni_dead : dead_ok (nstore n) (deadlist (nqs n));
  ni_sig : sig_inv (nsig n);
  ni_wake : nseenlist n <> [] -> sflag (nsig n) = true;
  ni_recs : Forall (fun r => id_ok (rid r)) (nseenlist n);
  ni_boot : Forall (peer_ok (nstore n)) (nboot n);
}.

Lemma peers_ext st st' l : pstore_ext st st' -> Forall (peer_ok st) l -> Forall (peer_ok st') l.
Proof. intros [_ He] Hl. eapply Forall_impl; eauto. Qed.

Lemma dead_ext st st' m : pstore_ext st st' -> dead_ok st m -> dead_ok st' m.
Proof. intros [_ He] Hm id p t Hp. destruct (Hm _ _ _ Hp). auto. Qed.

#[export] Hint Resolve peers_ext dead_ext : ndn.

Lemma set_store_inv n st : node_inv n -> pstore_ext (nstore n) st -> node_inv (set_store n st).
Proof. intros [] He. pose proof He as [? _]. split; simpl; eauto with ndn. Qed.

Lemma set_table_inv n t :
  node_inv n -> table_inv t -> Forall (peer_ok (nstore n)) (known_peers t) ->
  node_inv (set_table n t).
Proof. by intros [] ??. Qed.

Lemma set_qs_inv n q :
  node_inv n -> qs_inv (nstore n) q -> qself q = qself (nqs n) ->
  dead_ok (nstore n) (deadlist q) -> node_inv (set_qs n q).
Proof. intros [] ? Hq ?. split; simpl; try done. congruence. Qed.

Lemma notify_inv n p b : node_inv n -> node_inv (notifypeerevent n p b).
Proof. by intros []. Qed.

Lemma dead_delete st m id : dead_ok st m -> dead_ok st (delete id m).
Proof. intros H i p t [_ Hp]%lookup_delete_Some. by eapply H. Qed.

Lemma dead_insert st m p t : dead_ok st m -> peer_ok st p -> dead_ok st (<[pid p := (p, t)]> m).
Proof. intros H Hp i q u [[<- [= <- <-]]|[_ Hq]]%lookup_insert_Some; [done|by eapply H]. Qed.

#[export] Hint Resolve set_store_inv set_qs_inv notify_inv dead_delete dead_insert : ndn.

(** What the operations leave alone. *)
Definition same_seen (n n' : kadnode) : Prop :=
  nseenlist n' = nseenlist n /\ nsig n' = nsig n /\ nself n' = nself n.

#[export] Instance same_seen_pre : PreOrder same_seen.
Proof.
  split; [by intros n|]. intros a b c (?&?&?) (?&?&?). unfold same_seen. split_and!; congruence.
Qed.

Lemma node_rt_seen_ok n now p :
  node_inv n -> peer_ok (nstore n) p -> id_ok (pid p) ->
  exists n' added, node_rt_seen n now p = Some (n', added) /\ node_inv n' /\
    same_seen n n' /\ nstore n' = nstore n.
Proof.
  intros Hn Hp Hid. pose proof Hn as [Hst Ht Hk Hq Hqs Hd _ _ _ _].
  destruct (rtable_seen_ok _ p Ht Hid) as (t & first & added & Hs & Ht' & _).
  destruct (seen_known _ _ _ _ _ Ht Hs) as [Hkn Hf].
  unfold node_rt_seen. rewrite Hs. simpl.
  assert (Forall (peer_ok (nstore n)) (known_peers t)) as Hk'.
  { apply Forall_forall. intros q Hq'. rewrite Forall_forall in Hk.
    destruct (Hkn q Hq') as [->|?]; [done|by apply Hk]. }
  pose proof (set_table_inv n t Hn Ht' Hk') as Hn'.
  destruct first as [f|]; [|eexists _, _; by split_and!].
  rewrite Forall_forall in Hk.
  destruct (pingpeer_ok (nstore n) now (nqs n) f Hq) as (q & -> & Hq' & Es & Ed); [by auto|].
  simpl. eexists _, _. split_and!; [done| |done|done].
  apply set_qs_inv; simpl; [done..|]. by rewrite Ed.
Qed.

Lemma peerstatechange_ok n now p live :
  node_inv n -> peer_ok (nstore n) p -> id_ok (pid p) ->
  exists n', peerstatechange n now p live = Some n' /\ node_inv n' /\ same_seen n n' /\
    nstore n' = nstore n.
Proof.
  intros Hn Hp Hid. unfold peerstatechange. destruct live.
  - destruct (node_rt_seen_ok n now p) as (n' & [] & -> & ? & ? & ?); [done..| |];
      simpl; eexists; split_and!; eauto with ndn.
  - pose proof Hn as [_ Ht Hk _ _ _ _ _ _ _].
    destruct (rtable_remove_ok _ _ Ht Hid) as (t & rm & inb & Hr & Ht' & _).
    destruct (remove_known _ _ _ _ _ Ht Hr) as [Hkn _]. rewrite Hr. simpl.
    assert (node_inv (set_table n t)) as Hn'.
    { apply set_table_inv; [done..|]. rewrite Forall_forall in *. eauto. }
    destruct inb; eexists; (split_and!; [done| |done|done]); eauto with ndn.
Qed.

Lemma onreplied_ok n now p ok :
  node_inv n -> peer_ok (nstore n) p -> id_ok (pid p) ->
  exists n', onreplied n now p ok = Some n' /\ node_inv n' /\ same_seen n n' /\
    pstore_ext (nstore n) (nstore n').
Proof.
  intros Hn Hp Hid. pose proof Hn as [Hst _ _ Hq _ Hd _ _ _ _]. unfold onreplied.
  assert (node_inv (set_qs n (qs_replied (nqs n) p))) as H1.
  { apply set_qs_inv; eauto with ndn. }
  destruct ok.
  - set (st := setseen _ _ _). assert (pstore_ext (nstore n) st) as He by (by apply setseen_ext).
    pose proof (set_store_inv _ _ H1 He) as H2.
    edestruct (peerstatechange_ok (set_qs (set_store (set_qs n (qs_replied (nqs n) p)) st)
      (deadlist_remove (nqs (set_store (set_qs n (qs_replied (nqs n) p)) st)) (pid p))) now p true)
      as (n' & -> & ? & ? & E); [|by apply He|done|].
    + apply set_qs_inv; [done|apply deadlist_remove_inv; apply H2|done|].
      apply dead_delete. apply H2.
    + exists n'. split_and!; [done..|]. rewrite E. done.
  - edestruct (peerstatechange_ok (set_qs (set_qs n (qs_replied (nqs n) p))
      (deadlist_add (nqs (set_qs n (qs_replied (nqs n) p))) now p)) now p false)
      as (n' & -> & ? & ? & E); [|done|done|].
    + apply set_qs_inv; [done|apply deadlist_add_inv; apply H1|done|].
      apply dead_insert; [apply H1|done].
    + exists n'. split_and!; [done..|]. rewrite E. by apply pstore_ext_refl.
Qed.

Lemma findnode_replied_ok n now p r :
  node_inv n -> peer_ok (nstore n) p -> id_ok (pid p) ->
  (forall l, r = Ok l -> Forall (peer_ok (nstore n)) l) ->
  exists n', findnode_replied n now p r = Some n' /\ node_inv n' /\ same_seen n n'.
Proof.
  intros Hn Hp Hid Hl. destruct r as [l|e]; cbn [findnode_replied].
  - destruct (onreplied_ok n now p true) as (n1 & -> & H1 & Hs & He); [done..|]. simpl.
    pose proof H1 as [_ _ _ Hq _ Hd _ _ _ _].
    destruct (pingpeers_ok (nstore n1) now (nqs n1) l) as (q & -> & ? & ? & Ed); [done|eauto with ndn|].
    simpl. eexists. split_and!; [done| |done].
    apply set_qs_inv; [done..|]. by rewrite Ed.
  - destruct (onreplied_ok n now p false) as (n1 & ? & ? & ? & _); eauto.
Qed.

Lemma seepeer_ok n now rec :
  node_inv n -> id_ok (rid rec) ->
  exists n', seepeer n now rec = Some n' /\ node_inv n' /\ same_seen n n'.
Proof.
  intros Hn Hid. pose proof Hn as [Hst Ht Hk Hq _ Hd _ _ _ _]. unfold seepeer.
  destruct (get_ok _ _ Ht Hid) as [found Hg]. rewrite Hg. cbn [mbind option_bind].
  destruct found as [p|].
  - apply get_known in Hg as [Hp Hpid]. rewrite Forall_forall in Hk.
    assert (pstore_ext (nstore n) (peer_update (nstore n) p rec)) as He.
    { apply peer_update_ext; auto. }
    pose proof (set_store_inv _ _ Hn He) as H1.
    eexists. split_and!; [done| |done].
    apply set_store_inv; [|apply setseen_ext; apply H1].
    apply set_qs_inv; [done|apply H1|done|]. apply dead_delete. apply H1.
  - destruct (PeerFromRecord (nstore n) rec) as [p st] eqn:Ep.
    destruct (PeerFromRecord_ok _ _ _ _ Hst Ep) as (He & Hp & Hpid).
    destruct (node_rt_seen_ok (set_store n st) now p) as (n1 & added & -> & H1 & Hs & E1).
    { by apply set_store_inv. }
    { done. }
    { by rewrite Hpid. }
    simpl. eexists. split_and!; [done| |by destruct added].
    apply set_store_inv; [by destruct added; [apply notify_inv|]|].
    apply setseen_ext. destruct added; apply H1.
Qed.

Lemma seepeers_ok n now l :
  node_inv n -> Forall (fun r => id_ok (rid r)) l ->
  exists n', seepeers n now l = Some n' /\ node_inv n' /\ same_seen n n'.
Proof.
  intros Hn Hl. revert n Hn. induction Hl as [|r l Hr Hl IH]; intros n Hn; simpl.
  { eexists. split_and!; try done. }
  destruct (seepeer_ok n now r Hn Hr) as (n1 & -> & H1 & S1). simpl.
  destruct (IH n1 H1) as (n2 & -> & H2 & S2). exists n2. split_and!; [done..|].
  by transitivity n1.
Qed.

Lemma markseenpeers_ok n now :
  node_inv n -> staken (nsig n) = true ->
  exists n', markseenpeers n now = Some n' /\ node_inv n' /\ nseenlist n' = [].
Proof.
  intros Hn Htk. unfold markseenpeers.
  destruct (seepeers_ok n now (nseenlist n) Hn) as (n1 & -> & H1 & (_ & S2 & _)); [apply Hn|].
  simpl. eexists. split_and!; [done| |done].
  destruct H1. split; simpl; try done. rewrite S2. apply sig_clear_inv; [|done].
  by rewrite <- S2.
Qed.

Lemma droppeer_ok n id :
  node_inv n -> id_ok id -> exists n', droppeer n id = Some n' /\ node_inv n' /\ same_seen n n'.
Proof.
  intros Hn Hid. pose proof Hn as [_ Ht Hk Hq _ Hd _ _ _ _]. unfold droppeer.
  destruct (rtable_remove_ok _ _ Ht Hid) as (t & rm & inb & Hr & Ht' & _).
  destruct (remove_known _ _ _ _ _ Ht Hr) as [Hkn _]. rewrite Hr. simpl.
  assert (node_inv (set_table n t)) as Hn'.
  { apply set_table_inv; [done..|]. rewrite Forall_forall in *. eauto. }
  destruct rm as [p|]; eexists; (split_and!; [done| |done]); [|done].
  apply set_qs_inv; simpl; eauto with ndn.
Qed.

Lemma boot_peers_ok st me recs l st' :
  pstore_ok st -> boot_peers st me recs = (l, st') ->
  pstore_ext st st' /\ Forall (peer_ok st') l.
Proof.
  revert st l st'. induction recs as [|r recs IH]; intros st l st' Hst; cbn [boot_peers].
  { intros [= <- <-]. split; [by apply pstore_ext_refl|constructor]. }
  destruct (bool_decide _); [by apply IH|].
  destruct (PeerFromRecord st r) as [p st1] eqn:E1.
  destruct (PeerFromRecord_ok _ _ _ _ Hst E1) as ([Hst1 He1] & Hp & _).
  destruct (boot_peers st1 me recs) as [l2 st2] eqn:E2. intros [= <- <-].
  destruct (IH _ _ _ Hst1 E2) as [[Hst2 He2] Hl]. split.
  - split; [done|]. auto.
  - constructor; auto.
Qed.

Lemma newkadnode_ok me :
  id_ok (rid me) -> exists n, newkadnode me = Some n /\ node_inv n.
Proof.
  intros Hid. unfold newkadnode.
  assert (pstore_ok empty_pstore) as Hst by (intros a [d Hd]; simpl in Hd; by rewrite lookup_empty in Hd).
  destruct (PeerFromRecord empty_pstore me) as [p st] eqn:Ep.
  destruct (PeerFromRecord_ok _ _ _ _ Hst Ep) as ([Hst' _] & Hp & Hpid).
  rewrite <- Hpid in Hid. pose proof (empty_table_inv p Hid) as Ht0.
  destruct (rtable_seen_ok _ p Ht0 Hid) as (t & f & a & Hs & Ht & _).
  destruct (seen_known _ _ _ _ _ Ht0 Hs) as [Hkn _].
  unfold newrtable. rewrite Hs. simpl. eexists. split; [done|].
  split; simpl; try done.
  apply Forall_forall. intros q Hq. destruct (Hkn q Hq) as [->|Hq']; [done|].
  exfalso. revert Hq'. vm_compute. by intros ?%elem_of_nil.
Qed.

(** ** Executions of the node

    One step is one critical section of one of the goroutines: a reply, a
    sighting reported by the RPC server, a wake-up of the main loop or of the
    ping loop, the work they do, and the external requests. *)

Section steps.
  Context {L : NdnLib} {LL : NdnLibLaws L}.

Inductive node_step : kadnode -> kadnode -> Prop :=
| ns_replied n now p r n' :
    peer_ok (nstore n) p -> id_ok (pid p) ->
    (forall l, r = Ok l -> Forall (peer_ok (nstore n)) l) ->
    findnode_replied n now p r = Some n' -> node_step n n'
| ns_ping_replied n now p ok n' :
    peer_ok (nstore n) p -> id_ok (pid p) ->
    onreplied n now p ok = Some n' -> node_step n n'
| ns_add_seen n info n' : AddSeenRecord n info = Some n' -> node_step n n'
| ns_wake n g : sig_receive (nsig n) = Some g -> node_step n (set_seen n (nseenlist n) g)
| ns_mark n now n' :
    staken (nsig n) = true -> markseenpeers n now = Some n' -> node_step n n'
| ns_ping_wake n g :
    sig_receive (qsig (nqs n)) = Some g -> node_step n (set_qs n (set_sig (nqs n) g))
| ns_doping n now submit :
    staken (qsig (nqs n)) = true ->
    node_step n (set_qs n (dopingpeers (nstore n) now submit (nqs n)).1)
| ns_flush n now : node_step n (set_qs n (deadlist_flush (nqs n) now))
| ns_seed n now n' : seedrtable n now = Some n' -> node_step n n'
| ns_drop n id n' : id_ok id -> droppeer n id = Some n' -> node_step n n'
| ns_start n recs n' : node_start n recs = Ok n' -> node_step n n'
| ns_stop n : node_step n (node_stop n).

Definition node_reachable (me : ndnNodeRecord) (n : kadnode) : Prop :=
  exists n0, newkadnode me = Some n0 /\ rtc node_step n0 n.

Lemma AddSeenRecord_ok n info :
  node_inv n -> NdnNodeRecordUnmarshaling info <> None ->
  exists n', AddSeenRecord n info = Some n' /\ node_inv n'.
Proof.
  intros Hn Hu. unfold AddSeenRecord. destruct (ndead n); [eauto|].
  destruct (NdnNodeRecordUnmarshaling info) as [r|] eqn:Er; [|done].
  apply Unmarshaling_certified in Er as [_ Hid].
  destruct Hn. destruct (sig_raise_ok (nsig n)) as (g & -> & Hg & Hf); [done|].
  simpl. eexists. split; [done|]. split; simpl; try done.
  apply Forall_app. auto.
Qed.

Lemma seedrtable_ok n now :
  node_inv n -> exists n', seedrtable n now = Some n' /\ node_inv n'.
Proof.
  intros Hn. pose proof Hn as [_ _ _ Hq _ Hd _ _ _ Hb]. unfold seedrtable.
  destruct (pingpeers_ok (nstore n) now (nqs n) (nboot n)) as (q & -> & ? & ? & Ed); [done..|].
  simpl. eexists. split; [done|]. apply set_qs_inv; [done..|]. by rewrite Ed.
Qed.

Lemma dopingpeers_dead st now submit s :
  deadlist (dopingpeers st now submit s).1 = deadlist s.
Proof. unfold dopingpeers. by destruct (doping_loop _ _ _ _ _ _). Qed.

Lemma dead_flush st m now :
  dead_ok st m -> dead_ok st (filter (fun e => now - e.2.2 <= LOST_LONGEVITY) m).
Proof. intros H i p t [Hp _]%map_lookup_filter_Some. by eapply H. Qed.

Lemma node_step_inv n n' : node_inv n -> node_step n n' -> node_inv n'.
Proof.
  intros Hn Hs. destruct Hs as
    [n now p r n' Hp Hid Hl E|n now p ok n' Hp Hid E|n info n' E|n g E|n now n' Ht E
    |n g E|n now submit Ht|n now|n now n' E|n id n' Hid E|n recs n' E|n].
  - destruct (findnode_replied_ok n now p r Hn Hp Hid Hl) as (m & E' & ? & _). congruence.
  - destruct (onreplied_ok n now p ok Hn Hp Hid) as (m & E' & ? & _). congruence.
  - destruct (decide (NdnNodeRecordUnmarshaling info = None)) as [Eu|Hu].
    + unfold AddSeenRecord in E. rewrite Eu in E. destruct (ndead n); [by simplify_eq|done].
    + destruct (AddSeenRecord_ok n info Hn Hu) as (m & E' & ?). congruence.
  - destruct (sig_receive_inv _ _ (ni_sig _ Hn) E) as (? & Hf & _). destruct Hn.
    split; simpl; try done. by rewrite Hf.
  - destruct (markseenpeers_ok n now Hn Ht) as (m & E' & ? & _). congruence.
  - pose proof Hn as [_ _ _ (Hs & Hw & ?) _ Hd _ _ _ _].
    destruct (sig_receive_inv _ _ Hs E) as (? & Hf & _).
    apply set_qs_inv; [done| |done|done]. split_and!; simpl; naive_solver.
  - pose proof Hn as [_ _ _ Hq _ Hd _ _ _ _].
    destruct (dopingpeers_inv (nstore n) now submit (nqs n) Hq Ht).
    apply set_qs_inv; [done..|]. by rewrite dopingpeers_dead.
  - pose proof Hn as [_ _ _ Hq _ Hd _ _ _ _].
    apply set_qs_inv; [done|done|done|]. by apply dead_flush.
  - destruct (seedrtable_ok n now Hn) as (m & E' & ?). congruence.
  - destruct (droppeer_ok n id Hn Hid) as (m & E' & ? & _). congruence.
  - unfold node_start in E. destruct (ndead n); [done|].
    destruct recs as [|r recs]; [by simplify_eq|].
    destruct (boot_peers _ _ _) as [l st] eqn:Eb. simplify_eq.
    destruct (boot_peers_ok _ _ _ _ _ (ni_store _ Hn) Eb) as [He Hl].
    pose proof (set_store_inv _ _ Hn He) as []. by split.
  - by destruct Hn.
Qed.

Lemma node_reachable_ok me n : id_ok (rid me) -> node_reachable me n -> node_inv n.
Proof.
  intros Hid (n0 & Hnew & Hsteps).
  destruct (newkadnode_ok me Hid) as (m & E & Hm).
  assert (node_inv n0) as H0 by congruence. clear Hnew E Hm.
  induction Hsteps; [done|]. eauto using node_step_inv.
Qed.

(** C11. In every reachable state of the node the table, the ping lists, the
    list of dead peers and the seen list satisfy their invariant (all pointers
    live and carrying the right identity), and no critical section panics or
    blocks on its wake-up channel. *)
Theorem node_invariant me n now p ok info id :
  id_ok (rid me) -> node_reachable me n ->
  peer_ok (nstore n) p -> id_ok (pid p) -> id_ok id ->
  NdnNodeRecordUnmarshaling info <> None ->
  node_inv n /\ onreplied n now p ok <> None /\ AddSeenRecord n info <> None /\
  seedrtable n now <> None /\ droppeer n id <> None /\
  (staken (nsig n) = true -> markseenpeers n now <> None).
Proof.
  intros Hme Hr Hp Hpid Hid Hu. pose proof (node_reachable_ok me n Hme Hr) as Hn.
  destruct (onreplied_ok n now p ok Hn Hp Hpid) as (? & -> & _).
  destruct (AddSeenRecord_ok n info Hn Hu) as (? & -> & _).
  destruct (seedrtable_ok n now Hn) as (? & -> & _).
  destruct (droppeer_ok n id Hn Hid) as (? & -> & _).
  split_and!; try done. intros Ht.
  by destruct (markseenpeers_ok n now Hn Ht) as (? & -> & _).
Qed.

(** C26. No wake-up is lost: in a reachable state with a peer waiting for a
    ping (or a sighting waiting to be processed) the corresponding loop has a
    token to receive or is already at work. *)
Theorem node_no_lost_wakeup me n :
  id_ok (rid me) -> node_reachable me n ->
  (waitinglist (nqs n) <> ∅ ->
     staken (qsig (nqs n)) = true \/ exists g, sig_receive (qsig (nqs n)) = Some g) /\
  (nseenlist n <> [] -> staken (nsig n) = true \/ exists g, sig_receive (nsig n) = Some g).
Proof.
  intros Hme Hr. destruct (node_reachable_ok me n Hme Hr) as [_ _ _ (Hs & Hw & _) _ _ Hg Hk _ _].
  split; intros H; apply sig_pending; auto.
Qed.
End steps.

Definition demo_node : kadnode :=
  match newkadnode (demo_record 5 [9; 9]) with
  | Some n => match AddSeenRecord n (MkInfo [6] [8]) with Some n => n | None => n end
  | None => MkNode empty_pstore inhabitant (Rtable inhabitant []) (newqueryingservice []) [] sig_init [] [] true
  end.

Lemma demo_node_reachable : node_reachable (demo_record 5 [9; 9]) demo_node.
Proof.
  eexists. split; [reflexivity|]. eapply rtc_once, (ns_add_seen _ (MkInfo [6] [8])).
  reflexivity.
Qed.

Lemma node_invariant_witness :
  node_inv demo_node /\
  onreplied demo_node 7 (nself demo_node) true <> None /\
  AddSeenRecord demo_node (MkInfo [6] [8]) <> None /\
  seedrtable demo_node 7 <> None /\ droppeer demo_node (demo_id 3) <> None /\
  (staken (nsig demo_node) = true -> markseenpeers demo_node 7 <> None).
Proof.
  apply (node_invariant (demo_record 5 [9; 9])).
  - by apply id_okb_ok.
  - apply demo_node_reachable.
  - eexists. split; reflexivity.
  - by apply id_okb_ok.
  - by apply id_okb_ok.
  - done.
Defined.

Lemma node_no_lost_wakeup_witness :
  (waitinglist (nqs demo_node) <> ∅ ->
     staken (qsig (nqs demo_node)) = true \/ exists g, sig_receive (qsig (nqs demo_node)) = Some g) /\
  (nseenlist demo_node <> [] ->
     staken (nsig demo_node) = true \/ exists g, sig_receive (nsig demo_node) = Some g).
Proof.
  apply (node_no_lost_wakeup (demo_record 5 [9; 9])).
  - by apply id_okb_ok.
  - apply demo_node_reachable.
Defined.
