(* ===== verification/Cacher.v ===== *)
(** * Object caches ([src/ndn/utils/cacher.go], [src/ndn/eth/objcache.go])

    Both caches cut an encoded object into segments of a fixed size and serve
    a segment by its number, a [uint16].  [simpleCacher] keeps a ring of the
    last objects; [ObjCacheManager] keeps objects until they expire.  [None]
    is a panic or a loop that does not end. *)

From S2P Require Import Prelude.

(** ** Segments *)

Definition go_slice (wire : list Z) (a b : nat) : option (list Z) :=
  if (a <=? b) && (b <=? length wire) then Some (take (b - a) (drop a wire)) else None.

(** [for start < len(wire) { start += ssize; num++ }] with a [uint16] counter. *)
Fixpoint count_loop (fuel : nat) (ssize len start : nat) (num : Z) : option Z :=
  match fuel with
  | O => None
  | S fuel =>
    if start <? len then count_loop fuel ssize len (start + ssize) (u16 (num + 1))
    else Some num
  end.

Definition num_segments (ssize len : nat) : option Z := count_loop (S len) ssize len 0 0.

Inductive cache_error := ErrObjNotFound | ErrUnexpected | ErrCacheAborted.

(** ** The ring cache *)

Record cacheobj := MkCacheObj { cwire : list Z; cid : list Z }.

Record simpleCacher := MkCacher {
  ssize : nat;
  imax : nat;
  objlist : list (option cacheobj);
  objmap : gmap (list Z) cacheobj;
  cnext : nat;
}.

Definition NewSimpleCacher (segmentsize maxitems : nat) : simpleCacher :=
  MkCacher segmentsize maxitems (replicate maxitems None) ∅ 0.

(** The method [segment]; an [Err] result still carries the number. *)
Definition segment (c : simpleCacher) (wire : list Z) (segId : Z)
  : option (res cache_error (list Z) * Z) :=
  num ← num_segments (ssize c) (length wire);
  if (segId <? num)%Z then
    let i := Z.to_nat segId in
    s ← go_slice wire (i * ssize c) (length wire `min` ((i + 1) * ssize c));
    Some (Ok s, num)
  else Some (Err ErrObjNotFound, num).

(** The insertion of a new object: the object of the slot is forgotten. *)
Definition cache_insert (c : simpleCacher) (obj : cacheobj) : option simpleCacher :=
  let m := <[cid obj := obj]> (objmap c) in
  slot ← objlist c !! cnext c;
  let m := match slot with Some old => delete (cid old) m | None => m end in
  let next := S (cnext c) in
  Some (MkCacher (ssize c) (imax c) (<[cnext c := Some obj]> (objlist c)) m
          (if imax c <=? next then 0 else next)).

Definition Cache (c : simpleCacher) (id wire : list Z) : option (list Z * Z * simpleCacher) :=
  if length wire <? ssize c then Some (wire, 1%Z, c)
  else
    c ← match objmap c !! id with
        | Some _ => Some c
        | None => cache_insert c (MkCacheObj wire id)
        end;
    '(seg, num) ← segment c wire 0;
    Some (match seg with Ok s => s | Err _ => [] end, num, c).

Definition GetSegment (c : simpleCacher) (id : list Z) (segId : Z)
  : option (res cache_error (list Z) * Z) :=
  match objmap c !! id with
  | Some obj => segment c (cwire obj) segId
  | None => Some (Err ErrObjNotFound, 0%Z)
  end.

(** ** The expiring cache *)

Definition OBJ_EXPIRING_PERIOD : Z := (10 * 10 ^ 9)%Z.
Definition MAX_SEGMENT_SIZE : nat := 1000.

Record CachedObj := MkCached { oexpired : Z; owire : list Z; onumsegs : Z }.

Record ObjCacheManager := MkManager {
  objects : gmap (list Z) CachedObj;
  mdead : bool;
}.

Definition newObjCacheManager : ObjCacheManager := MkManager ∅ false.

Definition obj_update (now : Z) (o : CachedObj) : CachedObj :=
  MkCached (now + OBJ_EXPIRING_PERIOD)%Z (owire o) (onumsegs o).

Definition isexpired (now : Z) (o : CachedObj) : bool := (oexpired o <? now)%Z.

(** The ticker branch of [loop]. *)
Definition expire (c : ObjCacheManager) (now : Z) : ObjCacheManager :=
  MkManager (filter (fun kv => isexpired now kv.2 = false) (objects c)) (mdead c).

Definition manager_stop (c : ObjCacheManager) : ObjCacheManager := MkManager (objects c) true.

Definition manager_cache (c : ObjCacheManager) (now : Z) (id wire : list Z)
  : option (list Z * Z * ObjCacheManager) :=
  if mdead c then Some ([], 0%Z, c)
  else match objects c !! id with
  | Some obj =>
    let c := MkManager (<[id := obj_update now obj]> (objects c)) (mdead c) in
    seg ← go_slice (owire obj) 0 (length (owire obj) `min` MAX_SEGMENT_SIZE);
    Some (seg, onumsegs obj, c)
  | None =>
    num ← num_segments MAX_SEGMENT_SIZE (length wire);
    if (1 <? num)%Z then
      let obj := obj_update now (MkCached 0 wire num) in
      seg ← go_slice wire 0 (length wire `min` MAX_SEGMENT_SIZE);
      Some (seg, num, MkManager (<[id := obj]> (objects c)) (mdead c))
    else Some (wire, num, c)
  end.

Definition getSegment (c : ObjCacheManager) (now : Z) (id : list Z) (segId : Z)
  : option (res cache_error (list Z) * Z * ObjCacheManager) :=
  if mdead c then Some (Err ErrCacheAborted, 0%Z, c)
  else match objects c !! id with
  | Some obj =>
    let c := MkManager (<[id := obj_update now obj]> (objects c)) (mdead c) in
    if (onumsegs obj <=? segId)%Z then Some (Err ErrUnexpected, onumsegs obj, c)
    else
      let start := MAX_SEGMENT_SIZE * Z.to_nat segId in
      seg ← go_slice (owire obj) start (length (owire obj) `min` (start + MAX_SEGMENT_SIZE));
      Some (Ok seg, onumsegs obj, c)
  | None => Some (Err ErrObjNotFound, 0%Z, c)
  end.

(** ** Arithmetic of segments *)

Definition nsegs (ssize len : nat) : nat := (len + (ssize - 1)) / ssize.

Definition chunk (ssize : nat) (wire : list Z) (i : nat) : list Z :=
  take ssize (drop (i * ssize) wire).

Lemma nsegs_spec ssize len i : 0 < ssize -> i < nsegs ssize len <-> i * ssize < len.
Proof.
  intros Hs. unfold nsegs. pose proof (Nat.div_mod_eq (len + (ssize - 1)) ssize).
  pose proof (Nat.mod_upper_bound (len + (ssize - 1)) ssize). split; intros; nia.
Qed.

Lemma count_loop_spec fuel ssize len start num :
  0 < ssize -> len - start < fuel ->
  count_loop fuel ssize len start num =
    Some (match nsegs ssize (len - start) with
          | O => num
          | S _ => u16 (num + Z.of_nat (nsegs ssize (len - start)))
          end).
Proof.
  intros Hs. revert start num. induction fuel as [|fuel IH]; intros start num Hf; [lia|].
  cbn [count_loop]. destruct (start <? len) eqn:E; bool_go.
  - rewrite IH by lia. f_equal.
    assert (nsegs ssize (len - start) = S (nsegs ssize (len - (start + ssize)))) as ->.
    { unfold nsegs. destruct (decide (len - start <= ssize)).
      - replace (len - (start + ssize)) with 0 by lia.
        rewrite (Nat.div_small (0 + _)) by lia.
        symmetry. apply (Nat.div_unique _ _ 1 (len - start - 1)); lia.
      - replace (len - start + (ssize - 1)) with (len - (start + ssize) + (ssize - 1) + 1 * ssize) by lia.
        rewrite Nat.div_add by lia. lia. }
    destruct (nsegs ssize (len - (start + ssize))) as [|n] eqn:En.
    + f_equal. 
    + unfold wrap. rewrite Zplus_mod_idemp_l. f_equal. lia.
  - replace (len - start) with 0 by lia. unfold nsegs. by rewrite Nat.div_small by lia.
Qed.

Lemma num_segments_spec ssize len :
  0 < ssize -> num_segments ssize len = Some (u16 (Z.of_nat (nsegs ssize len))).
Proof.
  intros Hs. unfold num_segments. rewrite count_loop_spec by lia.
  rewrite Nat.sub_0_r. by destruct (nsegs ssize len).
Qed.

Lemma num_segments_small ssize len :
  0 < ssize -> (Z.of_nat (nsegs ssize len) < 2 ^ 16)%Z -> num_segments ssize len = Some (Z.of_nat (nsegs ssize len)).
Proof.
  intros Hs Hn. rewrite num_segments_spec by done. f_equal. apply wrap_id. unfold fits. lia.
Qed.

Lemma chunk_slice ssize wire i :
  i * ssize <= length wire ->
  go_slice wire (i * ssize) (length wire `min` ((i + 1) * ssize)) = Some (chunk ssize wire i).
Proof.
  intros Hi. unfold go_slice, chunk.
  rewrite (proj2 (Nat.leb_le _ _)) by lia. rewrite (proj2 (Nat.leb_le _ _)) by lia. simpl. f_equal.
  destruct (decide ((i + 1) * ssize <= length wire)).
  - rewrite Nat.min_r by lia. f_equal. lia.
  - rewrite Nat.min_l by lia. rewrite !take_ge; [done|rewrite length_drop; lia..].
Qed.

Lemma chunks_from ssize wire n i :
  mjoin (chunk ssize wire <$> seq i n) = take (n * ssize) (drop (i * ssize) wire).
Proof.
  revert i. induction n as [|n IH]; intros i; simpl; [by rewrite take_0|].
  rewrite IH. unfold chunk. rewrite <- (take_take_drop _ ssize). f_equal.
  rewrite drop_drop. do 2 f_equal. lia.
Qed.

(** The segments put together are the object. *)
Lemma chunks_concat ssize wire :
  0 < ssize -> mjoin (chunk ssize wire <$> seq 0 (nsegs ssize (length wire))) = wire.
Proof.
  intros Hs. rewrite chunks_from. rewrite Nat.mul_0_l, drop_0. apply take_ge.
  pose proof (proj2 (nsegs_spec ssize (length wire) (nsegs ssize (length wire)) Hs)). lia.
Qed.

(** ** The ring *)

Record cacher_inv (c : simpleCacher) : Prop := MkCacherInv {
  ci_ssize : 0 < ssize c;
  ci_len : length (objlist c) = imax c;
  ci_next : cnext c < imax c;
  ci_ring : forall i o, objlist c !! i = Some (Some o) -> objmap c !! cid o = Some o;
  ci_map : forall id o, objmap c !! id = Some o ->
    cid o = id /\ exists i, objlist c !! i = Some (Some o);
  ci_inj : forall i j o o', objlist c !! i = Some (Some o) -> objlist c !! j = Some (Some o') ->
    cid o = cid o' -> i = j;
}.

Lemma NewSimpleCacher_inv s m : 0 < s -> 0 < m -> cacher_inv (NewSimpleCacher s m).
Proof.
  intros Hs Hm. split; simpl; try done.
  - by rewrite length_replicate.
  - intros i o [? _]%lookup_replicate. done.
  - intros i j o o' [? _]%lookup_replicate. done.
Qed.

(** Insertions before the slot [i] is overwritten. *)
Definition ahead (c : simpleCacher) (i : nat) : nat :=
  if cnext c <=? i then i - cnext c else i + imax c - cnext c.

Lemma cache_insert_inv c obj :
  cacher_inv c -> objmap c !! cid obj = None ->
  exists c', cache_insert c obj = Some c' /\ cacher_inv c' /\ ssize c' = ssize c /\ imax c' = imax c /\
    objlist c' !! cnext c = Some (Some obj) /\ ahead c' (cnext c) = imax c - 1 /\
    forall i, i < imax c -> i <> cnext c ->
      objlist c' !! i = objlist c !! i /\ ahead c' i = ahead c i - 1 /\ 0 < ahead c i.
Proof.
  intros [Hs Hlen Hn Hring Hmap Hinj] Hnew. unfold cache_insert.
  destruct (lookup_lt_is_Some_2 (objlist c) (cnext c)) as [slot Hslot]; [lia|].
  rewrite Hslot. simpl. eexists. split; [done|].
  assert (forall i o, objlist c !! i = Some (Some o) -> cid o <> cid obj) as Hfresh.
  { intros i o Ho E. apply Hring in Ho. rewrite E in Ho. congruence. }
  assert (forall i o, objlist c !! i = Some (Some o) -> i <> cnext c ->
    forall old, slot = Some old -> cid o <> cid old) as Hold.
  { intros i o Ho Hi old -> E. apply Hi. by eapply Hinj. }
  split; [split; simpl; try done|].
  - by rewrite length_insert.
  - case_go; bool_go; lia.
  - intros i o [(<- & E & _)|[Hi Ho]]%list_lookup_insert_Some.
    + simplify_eq. destruct slot as [old|]; [|by rewrite lookup_insert_eq].
      rewrite lookup_delete_ne, lookup_insert_eq; [done|]. by eapply Hfresh.
    + assert (<[cid obj := obj]> (objmap c) !! cid o = Some o) as Hins.
      { rewrite lookup_insert_ne; [by eapply Hring|]. intros E. by eapply Hfresh. }
      destruct slot as [old|]; [|done].
      rewrite lookup_delete_ne; [done|]. intros E. by eapply (Hold i o).
  - intros id o Ho.
    assert (<[cid obj := obj]> (objmap c) !! id = Some o /\
            forall old, slot = Some old -> cid old <> id) as [Hins Hne].
    { destruct slot as [old|]; [|done]. apply lookup_delete_Some in Ho as [? ?].
      split; [done|]. by intros ? [= <-]. }
    apply lookup_insert_Some in Hins as [[<- <-]|[Hid Ho']].
    + split; [done|]. exists (cnext c). apply list_lookup_insert_eq. lia.
    + destruct (Hmap _ _ Ho') as [<- [i Hi]]. split; [done|]. exists i.
      rewrite list_lookup_insert_ne; [done|]. intros <-. rewrite Hslot in Hi. simplify_eq.
      by eapply Hne.
  - intros i j o o' [(<- & E & _)|[Hi Ho]]%list_lookup_insert_Some
      [(<- & E' & _)|[Hj Ho']]%list_lookup_insert_Some Hid; simplify_eq; [done| | |by eapply Hinj].
    + exfalso. by eapply (Hfresh j).
    + exfalso. by eapply (Hfresh i).
  - split_and!; simpl; try done.
    + apply list_lookup_insert_eq. lia.
    + unfold ahead. simpl. repeat case_go; bool_go; lia.
    + intros i Hi Hne. rewrite list_lookup_insert_ne by done. split; [done|].
      unfold ahead. simpl. repeat case_go; bool_go; lia.
Qed.

Lemma segment_ok c wire i :
  0 < ssize c -> (Z.of_nat (nsegs (ssize c) (length wire)) < 2 ^ 16)%Z ->
  i < nsegs (ssize c) (length wire) ->
  segment c wire (Z.of_nat i) =
    Some (Ok (chunk (ssize c) wire i), Z.of_nat (nsegs (ssize c) (length wire))).
Proof.
  intros Hs Hn Hi. unfold segment. rewrite num_segments_small by done. simpl.
  rewrite (proj2 (Z.ltb_lt _ _)) by lia. rewrite Nat2Z.id.
  apply nsegs_spec in Hi; [|done]. rewrite chunk_slice by lia. done.
Qed.

Lemma segment_total c wire i : 0 < ssize c -> (0 <= i)%Z -> is_Some (segment c wire i).
Proof.
  intros Hs Hi. unfold segment. rewrite num_segments_spec by done. simpl.
  destruct (_ <? _)%Z eqn:E; [|eauto]. bool_go.
  assert (u16 (Z.of_nat (nsegs (ssize c) (length wire))) <= Z.of_nat (nsegs (ssize c) (length wire)))%Z
    by (apply Z.mod_le; lia).
  assert (Z.to_nat i * ssize c < length wire) by (apply nsegs_spec; [done|lia]).
  rewrite chunk_slice by lia. simpl. eauto.
Qed.

(** An object in the ring with the number of insertions it still survives. *)
Definition held (c : simpleCacher) (obj : cacheobj) (n : nat) : Prop :=
  exists i, objlist c !! i = Some (Some obj) /\ n <= ahead c i.

Lemma Cache_ok c id wire :
  cacher_inv c ->
  exists seg num c', Cache c id wire = Some (seg, num, c') /\ cacher_inv c' /\
    ssize c' = ssize c /\ imax c' = imax c /\
    (ssize c <= length wire -> objmap c !! id = None -> held c' (MkCacheObj wire id) (imax c - 1)) /\
    forall obj n, held c obj (S n) -> held c' obj n.
Proof.
  intros Hi. pose proof Hi as [Hs Hlen Hn _ _ _]. unfold Cache. destruct (_ <? _) eqn:E; bool_go.
  { eexists _, _, _. split; [done|]. split_and!; try done; [lia|].
    intros obj n (i & ? & ?). exists i. split; [done|lia]. }
  assert (exists c', match objmap c !! id with
                     | Some _ => Some c
                     | None => cache_insert c (MkCacheObj wire id) end = Some c' /\ cacher_inv c' /\
    ssize c' = ssize c /\ imax c' = imax c /\
    (objmap c !! id = None -> held c' (MkCacheObj wire id) (imax c - 1)) /\
    forall obj n, held c obj (S n) -> held c' obj n) as (c' & -> & Hc' & Hss & Him & Hnew & Hkeep).
  { destruct (objmap c !! id) eqn:Em.
    - exists c. split_and!; try done. intros obj n (i & ? & ?). exists i. split; [done|lia].
    - destruct (cache_insert_inv c (MkCacheObj wire id) Hi Em)
        as (c' & -> & Hc' & ? & ? & Hslot & Hah & Hkeep).
      exists c'. split_and!; try done.
      + intros _. exists (cnext c). split; [done|lia].
      + intros obj n (i & Hl & Ha). pose proof (lookup_lt_Some _ _ _ Hl) as Hlt.
        destruct (decide (i = cnext c)) as [->|Hne].
        * unfold ahead in Ha. rewrite Nat.leb_refl in Ha. lia.
        * destruct (Hkeep i) as (? & ? & ?); [lia|done|]. exists i. split; [congruence|lia]. }
  simpl. destruct (segment_total c' wire 0) as [[seg num] ->]; [lia|lia|].
  simpl. eexists _, _, c'. split; [done|]. split_and!; auto.
Qed.

(** A history of cached objects. *)
Fixpoint Cache_run (c : simpleCacher) (ops : list (list Z * list Z)) : option simpleCacher :=
  match ops with
  | [] => Some c
  | (id, wire) :: ops => '(_, _, c) ← Cache c id wire; Cache_run c ops
  end.

(** What a client of a new object gets: segment 0 from [Cache], the others
    from [GetSegment]; an object below the segment size is one segment. *)
Lemma Cache_served c id wire :
  cacher_inv c -> objmap c !! id = None -> 0 < length wire ->
  (Z.of_nat (nsegs (ssize c) (length wire)) < 2 ^ 16)%Z ->
  exists c', Cache c id wire = Some (chunk (ssize c) wire 0, Z.of_nat (nsegs (ssize c) (length wire)), c') /\
    forall i, 0 < i -> i < nsegs (ssize c) (length wire) ->
      GetSegment c' id (Z.of_nat i) = Some (Ok (chunk (ssize c) wire i), Z.of_nat (nsegs (ssize c) (length wire))).
Proof.
  intros Hi Hid Hw Hn. pose proof (ci_ssize _ Hi) as Hs.
  assert (0 < nsegs (ssize c) (length wire)) as Hpos by (apply nsegs_spec; lia).
  destruct (Cache_ok c id wire Hi) as (seg & num & c' & Hc & Hi' & Hs' & _ & Hnew & _).
  destruct (decide (ssize c <= length wire)) as [Hle|Hlt].
  - exists c'. split.
    + rewrite Hc. unfold Cache in Hc. rewrite (proj2 (Nat.ltb_ge _ _)), Hid in Hc by done.
      destruct (cache_insert_inv c (MkCacheObj wire id) Hi Hid) as (c1 & Hins & _ & Hsc & _).
      rewrite Hins in Hc. simpl in Hc. change 0%Z with (Z.of_nat 0) in Hc.
      rewrite segment_ok, Hsc in Hc by (rewrite Hsc; done). simpl in Hc. by simplify_eq.
    + intros i _ Hlt. destruct (Hnew Hle Hid) as (j & Hj & _).
      apply (ci_ring _ Hi') in Hj. simpl in Hj. unfold GetSegment. rewrite Hj. simpl.
      rewrite segment_ok by (rewrite Hs'; done). by rewrite Hs'.
  - assert (nsegs (ssize c) (length wire) = 1) as Hone.
    { pose proof (nsegs_spec (ssize c) (length wire) 1 Hs). lia. }
    exists c. rewrite Hone. split; [|lia]. unfold Cache. rewrite (proj2 (Nat.ltb_lt _ _)) by lia.
    unfold chunk. by rewrite Nat.mul_0_l, drop_0, take_ge by lia.
Qed.

Lemma Cache_run_ok c ops :
  cacher_inv c -> exists c', Cache_run c ops = Some c' /\ cacher_inv c' /\
    ssize c' = ssize c /\ imax c' = imax c /\
    forall obj n, held c obj (length ops + n) -> held c' obj n.
Proof.
  revert c. induction ops as [|[id wire] ops IH]; intros c Hi; simpl.
  { exists c. split_and!; try done. }
  destruct (Cache_ok c id wire Hi) as (seg & num & c1 & -> & H1 & Es & Em & _ & Hk). simpl.
  destruct (IH c1 H1) as (c' & -> & H' & Es' & Em' & Hk'). exists c'.
  split_and!; try done; try congruence. intros obj n Hh. by apply Hk', Hk.
Qed.

(** An object that is cached under a new identifier stays available while
    fewer objects are cached after it than the ring has slots: every segment
    can be fetched, with the right number of segments, and the segments put
    together are the object. *)
Theorem cacher_serves seglen slots before id wire seg num c1 after :
  0 < seglen -> 0 < slots -> seglen <= length wire ->
  (Z.of_nat (nsegs seglen (length wire)) < 2 ^ 16)%Z -> length after < slots ->
  (exists c0, Cache_run (NewSimpleCacher seglen slots) before = Some c0 /\
              objmap c0 !! id = None /\ Cache c0 id wire = Some (seg, num, c1)) ->
  exists c2, Cache_run c1 after = Some c2 /\
    num = Z.of_nat (nsegs seglen (length wire)) /\ seg = chunk seglen wire 0 /\
    (forall i, i < nsegs seglen (length wire) ->
       GetSegment c2 id (Z.of_nat i) = Some (Ok (chunk seglen wire i), num)) /\
    mjoin (chunk seglen wire <$> seq 0 (nsegs seglen (length wire))) = wire.
Proof.
  intros Hs Hm Hw Hn Ha (c0 & Hb & Hid & Hc).
  destruct (Cache_run_ok _ before (NewSimpleCacher_inv seglen slots Hs Hm))
    as (c0' & Hb' & Hi0 & Hs0 & Hm0 & _). simplify_eq. simpl in *.
  destruct (Cache_ok c0 id wire Hi0) as (seg' & num' & c1' & Hc' & Hi1 & Hs1 & Hm1 & Hnew & _).
  simplify_eq. destruct (Cache_run_ok c1 after Hi1) as (c2 & -> & Hi2 & Hs2 & Hm2 & Hk).
  exists c2. split; [done|].
  assert (0 < nsegs (ssize c0) (length wire)) as Hpos by (apply nsegs_spec; lia).
  assert (num = Z.of_nat (nsegs (ssize c0) (length wire)) /\ seg = chunk (ssize c0) wire 0) as [-> ->].
  { unfold Cache in Hc. rewrite (proj2 (Nat.ltb_ge _ _)), Hid in Hc by done.
    destruct (cache_insert_inv c0 (MkCacheObj wire id) Hi0 Hid) as (c & Hins & _ & Hsc & _).
    rewrite Hins in Hc. simpl in Hc. change 0%Z with (Z.of_nat 0) in Hc.
    rewrite segment_ok, Hsc in Hc by (rewrite Hsc; done). simpl in Hc. by simplify_eq. }
  split_and!; [done..| |by apply chunks_concat].
  intros i Hlt. destruct (Hk (MkCacheObj wire id) 0) as (j & Hj & _).
  { destruct (Hnew Hw Hid) as (j & ? & ?). exists j. split; [done|lia]. }
  apply (ci_ring _ Hi2) in Hj. simpl in Hj. unfold GetSegment. rewrite Hj. simpl.
  rewrite segment_ok by (rewrite Hs2, Hs1; done). by rewrite Hs2, Hs1.
Qed.

Lemma cacher_serves_witness :
  exists c2, Cache_run (MkCacher 2 2 [Some (MkCacheObj [1; 2; 3]%Z [7]%Z); None]
      {[ [7]%Z := MkCacheObj [1; 2; 3]%Z [7]%Z ]} 1) [([8]%Z, [4; 5]%Z)] = Some c2 /\
    2%Z = Z.of_nat (nsegs 2 3) /\ [1; 2]%Z = chunk 2 [1; 2; 3]%Z 0 /\
    (forall i, i < nsegs 2 3 -> GetSegment c2 [7]%Z (Z.of_nat i) = Some (Ok (chunk 2 [1; 2; 3]%Z i), 2%Z)) /\
    mjoin (chunk 2 [1; 2; 3]%Z <$> seq 0 (nsegs 2 3)) = [1; 2; 3]%Z.
Proof.
  apply (cacher_serves 2 2 [] [7]%Z [1; 2; 3]%Z); [lia|lia|simpl; lia|done|simpl; lia|].
  eexists. split; [reflexivity|]. split; reflexivity.
Defined.

(** An object re-cached under a known identifier with other contents is
    served mixed: the first answer has the first segment and the segment count
    of the new contents, later segments come from the old ones. *)
Theorem Cache_stale c id old wire i :
  cacher_inv c -> objmap c !! id = Some old -> ssize c <= length wire ->
  (Z.of_nat (nsegs (ssize c) (length wire)) < 2 ^ 16)%Z ->
  (Z.of_nat (nsegs (ssize c) (length (cwire old))) < 2 ^ 16)%Z ->
  i < nsegs (ssize c) (length (cwire old)) ->
  Cache c id wire = Some (chunk (ssize c) wire 0, Z.of_nat (nsegs (ssize c) (length wire)), c) /\
  GetSegment c id (Z.of_nat i) =
    Some (Ok (chunk (ssize c) (cwire old) i), Z.of_nat (nsegs (ssize c) (length (cwire old)))).
Proof.
  intros [Hs _ _ _ _ _] Hid Hw Hn Ho Hi. unfold Cache, GetSegment.
  rewrite (proj2 (Nat.ltb_ge _ _)), Hid by done. split; [|by apply segment_ok].
  simpl. change 0%Z with (Z.of_nat 0). rewrite segment_ok; [done..|]. apply nsegs_spec; lia.
Qed.

Lemma Cache_stale_witness :
  let c := MkCacher 2 2 [Some (MkCacheObj [1; 2; 3]%Z [7]%Z); None]
      {[ [7]%Z := MkCacheObj [1; 2; 3]%Z [7]%Z ]} 1 in
  Cache c [7]%Z [4; 5; 6]%Z = Some (chunk 2 [4; 5; 6]%Z 0, 2%Z, c) /\
  GetSegment c [7]%Z 1 = Some (Ok (chunk 2 [1; 2; 3]%Z 1), 2%Z).
Proof.
  intros c. apply (Cache_stale c [7]%Z (MkCacheObj [1; 2; 3]%Z [7]%Z) [4; 5; 6]%Z 1); try done.
  - destruct (cache_insert_inv (NewSimpleCacher 2 2) (MkCacheObj [1; 2; 3]%Z [7]%Z))
      as (c' & E & Hi & _); [apply NewSimpleCacher_inv; lia|done|].
    vm_compute in E. by simplify_eq.
  - simpl. lia.
  - vm_compute. lia.
Defined.

(** ** The expiring cache *)

Definition cached_ok (o : CachedObj) : Prop :=
  onumsegs o = u16 (Z.of_nat (nsegs MAX_SEGMENT_SIZE (length (owire o)))).

Definition manager_inv (c : ObjCacheManager) : Prop := map_Forall (fun _ o => cached_ok o) (objects c).

(** Operations with the time at which they run. *)
Inductive manager_op := OpCache (id wire : list Z) | OpGet (id : list Z) (segId : Z) | OpExpire.

Definition manager_do (c : ObjCacheManager) (now : Z) (op : manager_op) : option ObjCacheManager :=
  match op with
  | OpCache id wire => '(_, _, c) ← manager_cache c now id wire; Some c
  | OpGet id segId => '(_, _, c) ← getSegment c now id segId; Some c
  | OpExpire => Some (expire c now)
  end.

Definition op_ok (op : manager_op) : Prop :=
  match op with OpGet _ segId => (0 <= segId)%Z | _ => True end.

(** The object is there and does not expire before [t]. *)
Definition fresh (c : ObjCacheManager) (id wire : list Z) (t : Z) : Prop :=
  exists o, objects c !! id = Some o /\ owire o = wire /\ (t <= oexpired o)%Z.

Lemma MAX_SEGMENT_pos : 0 < MAX_SEGMENT_SIZE.
Proof. unfold MAX_SEGMENT_SIZE. lia. Qed.

Lemma first_slice wire :
  go_slice wire 0 (length wire `min` MAX_SEGMENT_SIZE) = Some (chunk MAX_SEGMENT_SIZE wire 0).
Proof. rewrite <- chunk_slice by lia. done. Qed.

Lemma update_inv c id o now dead :
  manager_inv c -> cached_ok o ->
  manager_inv (MkManager (<[id := obj_update now o]> (objects c)) dead).
Proof. intros Hc Ho. by apply map_Forall_insert_2. Qed.

Lemma update_fresh c id o now dead id' wire t :
  objects c !! id = Some o -> (t <= now + OBJ_EXPIRING_PERIOD)%Z -> fresh c id' wire t ->
  fresh (MkManager (<[id := obj_update now o]> (objects c)) dead) id' wire t.
Proof.
  intros Ho Ht (o' & Ho' & Hw & He). unfold fresh. simpl. destruct (decide (id = id')) as [->|Hne].
  - rewrite lookup_insert_eq. simplify_eq. by eexists.
  - rewrite lookup_insert_ne by done. by exists o'.
Qed.

(** [start + MAX_SEGMENT_SIZE] in the form of [chunk_slice]. *)
Lemma getSegment_slice o segId :
  cached_ok o -> (0 <= segId < onumsegs o)%Z ->
  go_slice (owire o) (MAX_SEGMENT_SIZE * Z.to_nat segId)
    (length (owire o) `min` (MAX_SEGMENT_SIZE * Z.to_nat segId + MAX_SEGMENT_SIZE)) =
  Some (chunk MAX_SEGMENT_SIZE (owire o) (Z.to_nat segId)).
Proof.
  intros Ho Hs. rewrite <- chunk_slice; [f_equal; lia|].
  assert (Z.to_nat segId * MAX_SEGMENT_SIZE < length (owire o)); [|lia].
  apply nsegs_spec; [apply MAX_SEGMENT_pos|]. rewrite Ho in Hs.
  assert (u16 (Z.of_nat (nsegs MAX_SEGMENT_SIZE (length (owire o)))) <=
          Z.of_nat (nsegs MAX_SEGMENT_SIZE (length (owire o))))%Z by (apply Z.mod_le; lia). lia.
Qed.

Lemma manager_cache_ok c now id wire :
  manager_inv c ->
  exists seg num c', manager_cache c now id wire = Some (seg, num, c') /\ manager_inv c' /\
    mdead c' = mdead c /\
    (forall id' wire' t, (t <= now + OBJ_EXPIRING_PERIOD)%Z -> fresh c id' wire' t -> fresh c' id' wire' t) /\
    (mdead c = false -> objects c !! id = None -> (1 < u16 (Z.of_nat (nsegs MAX_SEGMENT_SIZE (length wire))))%Z ->
     fresh c' id wire (now + OBJ_EXPIRING_PERIOD) /\ seg = chunk MAX_SEGMENT_SIZE wire 0 /\
     num = u16 (Z.of_nat (nsegs MAX_SEGMENT_SIZE (length wire)))).
Proof.
  intros Hi. unfold manager_cache. destruct (mdead c) eqn:Ed; [by eexists _, _, c|].
  destruct (objects c !! id) as [o|] eqn:Eo.
  { rewrite first_slice. simpl. eexists _, _, _. split; [done|]. split_and!; try done.
    - apply update_inv; [done|]. by apply (Hi id).
    - intros. by apply update_fresh. }
  rewrite num_segments_spec by apply MAX_SEGMENT_pos. simpl.
  destruct (1 <? _)%Z eqn:E; bool_go; [|eexists _, _, c; split_and!; try done; lia].
  rewrite first_slice. simpl. eexists _, _, _. split; [done|]. split_and!; try done.
  - by apply map_Forall_insert_2.
  - intros id' wire' t Ht (o & Ho & ? & ?). exists o. simpl.
    rewrite lookup_insert_ne by congruence. done.
  - intros _ _ _. split; [|done]. eexists. simpl. rewrite lookup_insert_eq. split; [done|].
    simpl. split; [done|lia].
Qed.

Lemma getSegment_ok c now id segId :
  manager_inv c -> (0 <= segId)%Z ->
  exists r num c', getSegment c now id segId = Some (r, num, c') /\ manager_inv c' /\
    mdead c' = mdead c /\
    (forall id' wire t, (t <= now + OBJ_EXPIRING_PERIOD)%Z -> fresh c id' wire t -> fresh c' id' wire t) /\
    (forall wire t, mdead c = false -> fresh c id wire t ->
     fresh c' id wire (now + OBJ_EXPIRING_PERIOD) /\
     num = u16 (Z.of_nat (nsegs MAX_SEGMENT_SIZE (length wire))) /\
     r = if (segId <? num)%Z then Ok (chunk MAX_SEGMENT_SIZE wire (Z.to_nat segId)) else Err ErrUnexpected).
Proof.
  intros Hi Hs. unfold getSegment. destruct (mdead c) eqn:Ed; [by eexists _, _, c|].
  destruct (objects c !! id) as [o|] eqn:Eo.
  2:{ eexists _, _, c. split_and!; try done. intros wire t _ (o & ? & _). congruence. }
  pose proof (Hi id o Eo) as Ho. simpl in Ho.
  assert (forall wire t, fresh c id wire t ->
    fresh (MkManager (<[id:=obj_update now o]> (objects c)) false) id wire (now + OBJ_EXPIRING_PERIOD) /\
    onumsegs o = u16 (Z.of_nat (nsegs MAX_SEGMENT_SIZE (length wire))) /\ owire o = wire) as Hf.
  { intros wire t (o' & ? & <- & _). simplify_eq. split; [|done].
    eexists. simpl. rewrite lookup_insert_eq. split; [done|]. simpl. split; [done|lia]. }
  destruct (_ <=? _)%Z eqn:E; bool_go;
    [|rewrite getSegment_slice by done; simpl]; eexists _, _, _;
    (split; [done|]; split; [by apply update_inv|]; split; [done|]; split;
     [intros; by apply update_fresh|]);
    intros wire t _ (Hfr & Hnum & <-)%Hf; (split; [done|]; split; [done|]).
  - by rewrite (proj2 (Z.ltb_ge _ _)).
  - by rewrite (proj2 (Z.ltb_lt _ _)).
Qed.

Lemma expire_ok c now :
  manager_inv c -> manager_inv (expire c now) /\ mdead (expire c now) = mdead c /\
    forall id wire t, (now <= t)%Z -> fresh c id wire t -> fresh (expire c now) id wire t.
Proof.
  intros Hi. split_and!; [|done|].
  - intros id o [Ho _]%map_lookup_filter_Some. by apply (Hi id).
  - intros id wire t Ht (o & Ho & ? & ?). exists o. split; [|done]. simpl.
    apply map_lookup_filter_Some. split; [done|]. simpl. apply Z.ltb_ge. lia.
Qed.

(** A history of timed operations. *)
Fixpoint manager_run (c : ObjCacheManager) (ops : list (Z * manager_op)) : option ObjCacheManager :=
  match ops with
  | [] => Some c
  | (now, op) :: ops => c ← manager_do c now op; manager_run c ops
  end.

Lemma manager_run_ok c ops lo :
  manager_inv c -> Forall (fun x => op_ok x.2) ops ->
  exists c', manager_run c ops = Some c' /\ manager_inv c' /\ mdead c' = mdead c /\
    (Forall (fun x => lo <= x.1 <= lo + OBJ_EXPIRING_PERIOD)%Z ops ->
     forall id wire, fresh c id wire (lo + OBJ_EXPIRING_PERIOD) ->
                     fresh c' id wire (lo + OBJ_EXPIRING_PERIOD)).
Proof.
  intros Hi Hops. revert c Hi. induction Hops as [|[now op] ops Hop _ IH]; intros c Hi; simpl.
  { by exists c. }
  assert (exists c', manager_do c now op = Some c' /\ manager_inv c' /\ mdead c' = mdead c /\
    forall id wire, (lo <= now <= lo + OBJ_EXPIRING_PERIOD)%Z ->
      fresh c id wire (lo + OBJ_EXPIRING_PERIOD) -> fresh c' id wire (lo + OBJ_EXPIRING_PERIOD))
    as (c1 & -> & H1 & Hd & Hf).
  { destruct op as [id wire|id segId|]; simpl.
    - destruct (manager_cache_ok c now id wire Hi) as (? & ? & c' & -> & ? & ? & Hf & _).
      exists c'. split_and!; try done. intros. apply Hf; [lia|done].
    - destruct (getSegment_ok c now id segId Hi Hop) as (? & ? & c' & -> & ? & ? & Hf & _).
      exists c'. split_and!; try done. intros. apply Hf; [lia|done].
    - destruct (expire_ok c now Hi) as (? & ? & Hf). eexists. split_and!; try done.
      intros. apply Hf; [lia|done]. }
  simpl. destruct (IH c1 H1) as (c2 & -> & H2 & Hd2 & Hf2). exists c2.
  split_and!; try done; [congruence|]. intros [Ht Hall]%Forall_cons id wire Hfr. simpl in Ht.
  apply Hf2; [done|]. by apply Hf.
Qed.

(** A client that asks for the segments [i], [i+1], ... while other operations
    run between its requests. *)
Fixpoint client_gets (c : ObjCacheManager) (id : list Z) (i : nat) (gets : list (list (Z * manager_op) * Z))
  : option (list (res cache_error (list Z) * Z)) :=
  match gets with
  | [] => Some []
  | (ops, t) :: gets =>
    c ← manager_run c ops;
    '(r, num, c) ← getSegment c t id (Z.of_nat i);
    rest ← client_gets c id (S i) gets;
    Some ((r, num) :: rest)
  end.

(** No pause of the client is longer than the life time of an object. *)
Fixpoint spaced (prev : Z) (gets : list (list (Z * manager_op) * Z)) : Prop :=
  match gets with
  | [] => True
  | (ops, t) :: gets =>
    Forall (fun x => op_ok x.2 /\ (prev <= x.1 <= prev + OBJ_EXPIRING_PERIOD)%Z) ops /\ spaced t gets
  end.

Lemma client_gets_ok c id wire prev i gets :
  manager_inv c -> mdead c = false -> spaced prev gets ->
  fresh c id wire (prev + OBJ_EXPIRING_PERIOD) ->
  (Z.of_nat (nsegs MAX_SEGMENT_SIZE (length wire)) < 2 ^ 16)%Z ->
  i + length gets <= nsegs MAX_SEGMENT_SIZE (length wire) ->
  client_gets c id i gets =
    Some ((fun j => (Ok (chunk MAX_SEGMENT_SIZE wire j), Z.of_nat (nsegs MAX_SEGMENT_SIZE (length wire))))
          <$> seq i (length gets)).
Proof.
  intros Hi Hd Hsp Hfr Hn. revert c prev i Hi Hd Hsp Hfr.
  induction gets as [|[ops t] gets IH]; intros c prev i Hi Hd Hsp Hfr Hlen; [done|].
  destruct Hsp as [[Hops Htimes]%Forall_and Hsp]. cbn [client_gets length] in *.
  destruct (manager_run_ok c ops prev Hi Hops) as (c1 & -> & H1 & Hd1 & Hf1). cbn [mbind option_bind].
  destruct (getSegment_ok c1 t id (Z.of_nat i) H1) as (r & num & c2 & -> & H2 & Hd2 & _ & Hg); [lia|].
  destruct (Hg wire _ ltac:(congruence) (Hf1 Htimes id wire Hfr)) as (Hfr2 & -> & ->).
  cbn [mbind option_bind]. rewrite (IH c2 t (S i) H2 ltac:(congruence) Hsp Hfr2) by lia.
  rewrite wrap_id by (unfold fits; lia). rewrite (proj2 (Z.ltb_lt _ _)) by lia.
  by rewrite Nat2Z.id.
Qed.

(** A client of [ObjCacheManager] that keeps asking, with pauses no longer
    than the life time, gets all segments of a cached object, and they are the
    object; no operation panics meanwhile. *)
Theorem manager_serves before now id wire c0 seg num c1 gets :
  Forall (fun x => op_ok x.2) before ->
  manager_run newObjCacheManager before = Some c0 -> objects c0 !! id = None ->
  1 < nsegs MAX_SEGMENT_SIZE (length wire) ->
  (Z.of_nat (nsegs MAX_SEGMENT_SIZE (length wire)) < 2 ^ 16)%Z ->
  manager_cache c0 now id wire = Some (seg, num, c1) ->
  spaced now gets -> S (length gets) = nsegs MAX_SEGMENT_SIZE (length wire) ->
  exists segs, client_gets c1 id 1 gets = Some ((fun s => (Ok s, num)) <$> segs) /\
    num = Z.of_nat (nsegs MAX_SEGMENT_SIZE (length wire)) /\ seg ++ mjoin segs = wire.
Proof.
  intros Hb Hrun Hid Hbig Hn Hc Hsp Hlen.
  destruct (manager_run_ok newObjCacheManager before 0) as (c0' & Hrun' & H0 & Hd0 & _); [done|done|].
  simplify_eq. destruct (manager_cache_ok c0 now id wire H0) as (? & ? & c1' & Hc' & H1 & Hd1 & _ & Hnew).
  simpl in Hd0. simplify_eq. rewrite wrap_id in Hnew by (unfold fits; lia).
  destruct (Hnew Hd0 Hid ltac:(lia)) as (Hfr & -> & ->).
  exists (chunk MAX_SEGMENT_SIZE wire <$> seq 1 (length gets)).
  rewrite (client_gets_ok c1 id wire now) by (done || lia || congruence).
  split; [by rewrite <- list_fmap_compose|]. split; [done|].
  rewrite <- (chunks_concat MAX_SEGMENT_SIZE wire MAX_SEGMENT_pos) at 3. by rewrite <- Hlen.
Qed.

Lemma manager_serves_witness :
  exists segs, client_gets (MkManager {[ [7]%Z := MkCached (5 + OBJ_EXPIRING_PERIOD) (replicate 1500 1%Z) 2 ]} false)
      [7]%Z 1 [([(6, OpExpire)], 7)]%Z = Some ((fun s => (Ok s, 2%Z)) <$> segs) /\
    2%Z = Z.of_nat (nsegs MAX_SEGMENT_SIZE (length (replicate 1500 1%Z))) /\
    replicate 1000 1%Z ++ mjoin segs = replicate 1500 1%Z.
Proof.
  apply (manager_serves [] 5 [7]%Z (replicate 1500 1%Z) newObjCacheManager); try done.
  - vm_compute. lia.
  - split; [|done]. repeat constructor; vm_compute; congruence.
Defined.

(** ** Stopping the expiring cache

    [stop] sends on the unbuffered channel [quit] while it holds the mutex;
    [loop] is its only receiver and takes the mutex in its ticker branch. *)

Inductive loop_pc := LoopSelect | LoopLock | LoopSweep | LoopDone.
Inductive stop_pc := StopLock | StopSend | StopDone.

Record stop_state := MkStop { lpc : loop_pc; spc : stop_pc; locked : bool }.

Inductive stop_step : stop_state -> stop_state -> Prop :=
| tick s b : stop_step (MkStop LoopSelect s b) (MkStop LoopLock s b)
| loop_lock s : stop_step (MkStop LoopLock s false) (MkStop LoopSweep s true)
| loop_unlock s : stop_step (MkStop LoopSweep s true) (MkStop LoopSelect s false)
| stop_lock l : stop_step (MkStop l StopLock false) (MkStop l StopSend true)
| stop_send : stop_step (MkStop LoopSelect StopSend true) (MkStop LoopDone StopDone false).

(** Stopping the expiring cache can deadlock: a reachable state has the
    loop waiting for the mutex that [stop] holds while [stop] waits for the
    loop to receive. *)
Theorem manager_stop_deadlock :
  exists s, rtc stop_step (MkStop LoopSelect StopLock false) s /\
    spc s <> StopDone /\ lpc s <> LoopDone /\ forall s', ~ stop_step s s'.
Proof.
  exists (MkStop LoopLock StopSend true). split_and!; try done.
  - eapply rtc_l; [apply tick|]. eapply rtc_l; [apply stop_lock|]. apply rtc_refl.
  - intros s' H. inversion H.
Qed.
