(* ===== verification/Fetching.v ===== *)
(** * Object fetching ([src/ndn/ndnsuit/fetching.go])

    An object is fetched segment by segment, either one request at a time or
    all at once through the worker pool.  The transport is a parameter: what a
    request for a segment is answered with.  The order in which the answers of
    the parallel requests arrive, and the quit signal, are explicit events. *)

From S2P Require Import Prelude Cacher.

Inductive ferror := ErrNoObject | FErrUnexpected | FErrJobAborted | FErrOther (n : nat).

Record SimpleSegment := NewSimpleSegment { Wire : list Z; Id : Z; Total : Z }.

(** What a request returns when it does not fail: an empty answer, an answer
    that carries a segment, or another message. *)
Inductive response :=
| RespNil
| RespSegment (ex : res ferror SimpleSegment)
| RespOther.

(** The body shared by both [fetchSegment] methods. *)
Definition extract (reply : res ferror response) : res ferror SimpleSegment :=
  match reply with
  | Err e => Err e
  | Ok RespNil => Err ErrNoObject
  | Ok (RespSegment ex) => ex
  | Ok RespOther => Err FErrUnexpected
  end.

(** ** One request at a time *)

Definition fetchSegment (request : Z -> res ferror response) (segId : Z) : res ferror SimpleSegment :=
  extract (request segId).

(** [request num] is the transport when the [num]-th request is made. *)
Fixpoint FetchObject_loop (fuel : nat) (request : nat -> Z -> res ferror response) (num : nat) (obj : list Z)
  : option (list Z * option ferror) :=
  match fuel with
  | O => None
  | S fuel =>
    match fetchSegment (request num) (u16 (Z.of_nat num)) with
    | Err e => Some (obj, Some e)
    | Ok segment =>
      let obj := obj ++ Wire segment in
      if (Total segment <=? u16 (Id segment + 1))%Z then Some (obj, None)
      else FetchObject_loop fuel request (S num) obj
    end
  end.

Definition FetchObject (fuel : nat) (request : nat -> Z -> res ferror response)
  : option (list Z * option ferror) :=
  FetchObject_loop fuel request 0 [].

(** ** All requests at once *)

Record async_state := MkAsync {
  as_total : Z;
  as_segments : list (list Z);
  as_counter : nat;
  as_pending : list nat;       (* requests whose answer is outstanding *)
}.

Inductive async_event := Arrive (id : nat) | Quit.

Inductive async_result :=
| ADone (r : res ferror (list Z))
| APanic
| AWait (st : async_state).

(** [fetchSegment] of the async consumer fails when the pool refuses the job. *)
Fixpoint submit_all (submit : nat -> option ferror) (ids : list nat) : option ferror :=
  match ids with
  | [] => None
  | i :: ids => match submit i with Some e => Some e | None => submit_all submit ids end
  end.

Section async.
  Context (numsegments : Z) (submit : nat -> option ferror) (answer : nat -> res ferror response).

Definition async_start : res ferror async_state :=
  let ids := if (0 <? numsegments)%Z then seq 0 (Z.to_nat numsegments) else [0] in
  match submit_all submit ids with
  | Some e => Err e
  | None =>
    Ok (MkAsync numsegments
          (if (0 <? numsegments)%Z then replicate (Z.to_nat numsegments) [] else []) 0 ids)
  end.

(** The test after each stored segment. *)
Definition async_check (st : async_state) : async_result :=
  if (Z.of_nat (as_counter st) =? as_total st)%Z then ADone (Ok (mjoin (as_segments st)))
  else AWait st.

(** The result [res] of request [id] is received. *)
Definition async_recv (st : async_state) (id : nat) : async_result :=
  let pending := filter (fun j => j <> id) (as_pending st) in
  match extract (answer id) with
  | Err e => ADone (Err e)
  | Ok seg =>
    if negb (Z.of_nat id =? Id seg)%Z then ADone (Err FErrUnexpected)
    else if (numsegments =? 0)%Z && (id =? 0) then
      let total := Total seg in
      if (total <=? 0)%Z then ADone (Err FErrUnexpected)
      else
        let segments := <[0 := Wire seg]> (replicate (Z.to_nat total) []) in
        let ids := seq 1 (Z.to_nat total - 1) in
        match submit_all submit ids with
        | Some e => ADone (Err e)
        | None => async_check (MkAsync total segments (as_counter st + 1) (pending ++ ids))
        end
    else if negb (as_total st =? Total seg)%Z then ADone (Err FErrUnexpected)
    else match as_segments st !! id with
    | None => APanic
    | Some _ =>
      async_check (MkAsync (as_total st) (<[id := Wire seg]> (as_segments st)) (as_counter st + 1) pending)
    end
  end.

Fixpoint async_loop (st : async_state) (events : list async_event) : async_result :=
  match events with
  | [] => AWait st
  | Quit :: _ => ADone (Err FErrJobAborted)
  | Arrive id :: events =>
    if decide (id ∈ as_pending st) then
      match async_recv st id with
      | AWait st => async_loop st events
      | r => r
      end
    else AWait st
  end.

Definition FetchObjectAsync (events : list async_event) : async_result :=
  match async_start with
  | Err e => ADone (Err e)
  | Ok st => async_loop st events
  end.
End async.

(** ** The promise of a segment server *)

(** The server of [wire] in [n] segments answers request [i] with segment [i]. *)
Class SegmentServer (answer : nat -> res ferror response) (wire : list Z) (n : nat) (seg : nat -> list Z) : Prop := {
  server_count : 0 < n /\ (Z.of_nat n < 2 ^ 16)%Z;
  server_answer : forall i, i < n -> answer i = Ok (RespSegment (Ok (NewSimpleSegment (seg i) (Z.of_nat i) (Z.of_nat n))));
  server_wire : mjoin (seg <$> seq 0 n) = wire;
}.

(** ** Fetching in sequence *)

Lemma FetchObject_loop_served answer wire n seg fuel num obj :
  SegmentServer answer wire n seg -> num < n -> n - num <= fuel ->
  FetchObject_loop fuel (fun _ segId => answer (Z.to_nat segId)) num obj =
    Some (obj ++ mjoin (seg <$> seq num (n - num)), None).
Proof.
  intros Hs. destruct (server_count (answer := answer)) as [Hn Hmax]. revert num obj.
  induction fuel as [|fuel IH]; intros num obj Hlt Hf; [lia|]. cbn [FetchObject_loop].
  unfold fetchSegment. rewrite (wrap_id 16 (Z.of_nat num)) by (unfold fits; lia).
  rewrite Nat2Z.id, server_answer by done. cbn [extract Wire Total Id].
  rewrite wrap_id by (unfold fits; lia). replace (n - num) with (S (n - S num)) by lia.
  cbn [seq fmap list_fmap mjoin list_join]. destruct (_ <=? _)%Z eqn:E; bool_go.
  - replace (n - S num) with 0 by lia. simpl. by rewrite app_nil_r.
  - rewrite IH by lia. by rewrite <- app_assoc.
Qed.

(** Only the requests that are made matter. *)
Lemma FetchObject_loop_ext fuel f g num obj :
  (forall n, f n (u16 (Z.of_nat n)) = g n (u16 (Z.of_nat n))) ->
  FetchObject_loop fuel f num obj = FetchObject_loop fuel g num obj.
Proof.
  intros H. revert num obj. induction fuel as [|fuel IH]; intros num obj; [done|].
  cbn [FetchObject_loop]. unfold fetchSegment. rewrite H. destruct (extract _); [|done].
  case_match; [done|apply IH].
Qed.

(** Fetching one segment after the other from a server of an object
    returns the object, after as many requests as the object has segments. *)
Theorem FetchObject_served answer wire n seg fuel :
  SegmentServer answer wire n seg -> n <= fuel ->
  FetchObject fuel (fun _ segId => answer (Z.to_nat segId)) = Some (wire, None).
Proof.
  intros Hs Hf. destruct (server_count (answer := answer)) as [Hn _]. unfold FetchObject.
  rewrite (FetchObject_loop_served answer wire n seg) by (done || lia).
  rewrite Nat.sub_0_r. by rewrite server_wire.
Qed.

(** The sequential fetch is not bounded by anything it checks: a server
    that always answers with segment 0 of 2 keeps it going for ever. *)
Theorem FetchObject_diverges w fuel :
  FetchObject fuel (fun _ _ => Ok (RespSegment (Ok (NewSimpleSegment w 0 2)))) = None.
Proof.
  unfold FetchObject. generalize 0 at 1 as num. generalize (@nil Z) as obj.
  induction fuel as [|fuel IH]; intros obj num; [done|]. simpl. apply IH.
Qed.

(** ** Fetching in parallel *)

Section async_props.
  Context (numsegments : Z) (submit : nat -> option ferror) (answer : nat -> res ferror response).

(** Request [i] was answered with segment [i] of [total]. *)
Definition good_segment (total : Z) (i : nat) (w : list Z) : Prop :=
  exists s, extract (answer i) = Ok s /\ Wire s = w /\ Id s = Z.of_nat i /\ Total s = total.

(** [got] are the requests whose segment is stored. *)
Record async_inv (st : async_state) (got : list nat) : Prop := MkAsyncInv {
  ai_total : (0 < as_total st)%Z;
  ai_len : length (as_segments st) = Z.to_nat (as_total st);
  ai_ids : as_pending st ++ got ≡ₚ seq 0 (Z.to_nat (as_total st));
  ai_count : as_counter st = length got;
  ai_open : as_pending st <> [];
  ai_num : (0 < numsegments -> as_total st = numsegments)%Z;
  ai_zero : numsegments = 0%Z -> 0 ∈ got;
  ai_got : forall i, i ∈ got -> exists w, as_segments st !! i = Some w /\ good_segment (as_total st) i w;
}.

(** The first answer of a fetch of unknown length is still outstanding. *)
Definition async_first (st : async_state) : Prop :=
  numsegments = 0%Z /\ st = MkAsync 0 [] 0 [0].

Definition complete (obj : list Z) : Prop :=
  exists total ws, (0 < total)%Z /\ (0 < numsegments -> total = numsegments)%Z /\
    length ws = Z.to_nat total /\ obj = mjoin ws /\
    forall i w, ws !! i = Some w -> good_segment total i w.

Lemma filter_pending (pending : list nat) id :
  NoDup pending -> id ∈ pending -> pending ≡ₚ id :: filter (fun j => j <> id) pending.
Proof.
  induction pending as [|j l IH]; intros Hnd Hin; [by apply elem_of_nil in Hin|].
  apply NoDup_cons in Hnd as [Hj Hnd]. rewrite filter_cons. case_decide as Hd.
  - rewrite Permutation_swap. constructor. apply IH; [done|]. by apply elem_of_cons in Hin as [<-|?].
  - assert (j = id) as -> by (destruct (decide (j = id)); [done|by destruct Hd]).
    constructor. clear -Hj. induction l as [|k l IH]; [done|]. rewrite filter_cons_True; [|set_solver].
    constructor. apply IH. set_solver.
Qed.

(** Storing one more segment either completes the object or keeps waiting. *)
Lemma async_check_ok st got :
  (0 < as_total st)%Z -> (0 < numsegments -> as_total st = numsegments)%Z ->
  length (as_segments st) = Z.to_nat (as_total st) ->
  as_pending st ++ got ≡ₚ seq 0 (Z.to_nat (as_total st)) -> as_counter st = length got ->
  (numsegments = 0%Z -> 0 ∈ got) ->
  (forall i, i ∈ got -> exists w, as_segments st !! i = Some w /\ good_segment (as_total st) i w) ->
  match async_check st with
  | ADone (Ok obj) => complete obj /\ as_pending st = []
  | ADone (Err _) | APanic => False
  | AWait st' => st' = st /\ async_inv st got
  end.
Proof.
  intros Ht Hnum Hl Hp Hc Hz Hg. unfold async_check.
  pose proof (Permutation_length Hp) as Hlen. rewrite length_app, length_seq in Hlen.
  destruct (_ =? _)%Z eqn:E; bool_go.
  - assert (as_pending st = []) as Hnil by (apply nil_length_inv; lia). split; [|done].
    rewrite Hnil in Hp. simpl in Hp. exists (as_total st), (as_segments st). split_and!; try done.
    intros i w Hi. destruct (Hg i) as (w' & Hw & Hgood).
    { rewrite Hp. apply elem_of_seq. apply lookup_lt_Some in Hi. lia. }
    by simplify_eq.
  - split; [done|]. split; try done. intros Hnil. rewrite Hnil in Hlen. simpl in Hlen. lia.
Qed.

(** Why a result of a request ends the fetch with an error. *)
Definition bad_answer (total : Z) (id : nat) (e : ferror) : Prop :=
  extract (answer id) = Err e \/ (e = FErrUnexpected /\ ~ exists w, good_segment total id w).

Lemma async_recv_later st got id :
  async_inv st got -> id ∈ as_pending st ->
  match async_recv numsegments submit answer st id with
  | ADone (Ok obj) => complete obj /\ filter (fun j => j <> id) (as_pending st) = []
  | ADone (Err e) => bad_answer (as_total st) id e
  | APanic => False
  | AWait st' => async_inv st' (id :: got) /\ as_total st' = as_total st /\
      as_pending st' = filter (fun j => j <> id) (as_pending st)
  end.
Proof.
  intros Hi Hid. pose proof Hi as [Ht Hl Hp Hc _ Hnum Hz Hg].
  assert (NoDup (as_pending st ++ got)) as Hnd by (rewrite Hp; apply NoDup_seq).
  apply NoDup_app in Hnd as (Hnd & Hdis & _).
  assert (id < Z.to_nat (as_total st)) as Hlt.
  { assert (id ∈ seq 0 (Z.to_nat (as_total st))) as Hin by (rewrite <- Hp; set_solver).
    apply elem_of_seq in Hin. lia. }
  unfold async_recv, bad_answer. destruct (extract (answer id)) as [s|e] eqn:Es; [|by left].
  destruct (negb (Z.of_nat id =? Id s)%Z) eqn:E1; bool_go.
  { right. split; [done|]. intros (w & s' & Hs' & _ & ? & _). rewrite Es in Hs'. by simplify_eq. }
  destruct ((numsegments =? 0)%Z && (id =? 0)) eqn:E2.
  { bool_go. subst id. exfalso. by eapply (Hdis 0), Hz. }
  destruct (negb (as_total st =? Total s)%Z) eqn:E3; bool_go.
  { right. split; [done|]. intros (w & s' & Hs' & _ & _ & ?). rewrite Es in Hs'. simplify_eq; lia. }
  destruct (lookup_lt_is_Some_2 (as_segments st) id) as [w Hw]; [lia|]. rewrite Hw.
  set (st' := MkAsync _ _ _ _).
  pose proof (async_check_ok st' (id :: got)) as Hck. cbn [as_total as_segments as_counter as_pending st'] in Hck.
  assert (match async_check st' with
          | ADone (Ok obj) => complete obj /\ filter (fun j => j <> id) (as_pending st) = []
          | ADone (Err _) | APanic => False
          | AWait st1 => st1 = st' /\ async_inv st' (id :: got) end) as Hres.
  { apply Hck; try done.
    - by rewrite length_insert.
    - rewrite <- Hp. rewrite (filter_pending (as_pending st) id Hnd Hid) at 2. solve_Permutation.
    - simpl. lia.
    - intros. right. auto.
    - intros i [->|Hi']%elem_of_cons.
      + exists (Wire s). split; [apply list_lookup_insert_eq; lia|]. by exists s.
      + rewrite list_lookup_insert_ne; [by apply Hg|]. intros ->. by eapply Hdis. }
  destruct (async_check st') as [[obj|e]| |st1]; try done. by destruct Hres as [-> ?].
Qed.

Lemma async_recv_first :
  numsegments = 0%Z ->
  match async_recv numsegments submit answer (MkAsync 0 [] 0 [0]) 0 with
  | ADone (Ok obj) => complete obj
  | ADone (Err e) => (forall total, (0 < total)%Z -> bad_answer total 0 e) \/ exists i, submit i = Some e
  | APanic => False
  | AWait st' => async_inv st' [0] /\ as_pending st' = seq 1 (Z.to_nat (as_total st') - 1) /\
      exists w, good_segment (as_total st') 0 w
  end.
Proof.
  intros Hz. unfold async_recv, bad_answer. destruct (extract (answer 0)) as [s|e] eqn:Es; [|by left; left].
  destruct (negb (Z.of_nat 0 =? Id s)%Z) eqn:E1; bool_go.
  { left. right. split; [done|]. intros (w & s' & Hs' & _ & ? & _). rewrite Es in Hs'. by simplify_eq. }
  rewrite Hz, Z.eqb_refl, Nat.eqb_refl. cbn [andb as_counter as_pending].
  destruct (Total s <=? 0)%Z eqn:E2; bool_go.
  { left. right. split; [done|]. intros (w & s' & Hs' & _ & _ & ?). rewrite Es in Hs'. simplify_eq; lia. }
  destruct (submit_all _ _) as [e|] eqn:Esub.
  { right. revert Esub. generalize (seq 1 (Z.to_nat (Total s) - 1)). intros l.
    induction l as [|i l IH]; simpl; [done|]. destruct (submit i) eqn:Ei; [|done]. intros [= ->]. eauto. }
  replace (filter (fun j => j <> 0) [0]) with (@nil nat) by done. cbn [app Nat.add].
  set (st' := MkAsync _ _ _ _).
  pose proof (async_check_ok st' [0]) as Hck. cbn [as_total as_segments as_counter as_pending st'] in Hck.
  assert (exists w, good_segment (Total s) 0 w) as Hgood by (exists (Wire s), s; split_and!; done).
  assert (match async_check st' with
          | ADone (Ok obj) => complete obj /\ seq 1 (Z.to_nat (Total s) - 1) = []
          | ADone (Err _) | APanic => False
          | AWait st1 => st1 = st' /\ async_inv st' [0] end) as Hres.
  { apply Hck; try done; try lia.
    - by rewrite length_insert, length_replicate.
    - destruct (Z.to_nat (Total s)) as [|n] eqn:En; [lia|]. simpl. rewrite Nat.sub_0_r. solve_Permutation.
    - intros _. by left.
    - intros i ->%list_elem_of_singleton. exists (Wire s).
      split; [apply list_lookup_insert_eq; rewrite length_replicate; lia|]. by exists s. }
  destruct (async_check st') as [[obj|e]| |st1]; try done; [by destruct Hres|].
  by destruct Hres as [-> ?].
Qed.

Lemma submit_all_none ids : submit_all (fun _ => None) ids = None.
Proof. by induction ids. Qed.

Lemma async_start_ok st :
  fits 16 numsegments -> async_start numsegments submit = Ok st ->
  (numsegments = 0%Z /\ st = MkAsync 0 [] 0 [0]) \/
  async_inv st [] /\ as_total st = numsegments /\ as_pending st = seq 0 (Z.to_nat numsegments).
Proof.
  intros [Hn _]. unfold async_start. destruct (0 <? numsegments)%Z eqn:E; bool_go;
    destruct (submit_all _ _); try done; intros [= <-]; [right|left; split; [lia|f_equal; lia]].
  split; [|done]. split; simpl; try done; try lia.
  - by rewrite length_replicate.
  - by rewrite app_nil_r.
  - destruct (Z.to_nat numsegments) eqn:En; [lia|done].
  - by intros i ?%elem_of_nil.
Qed.

Lemma async_loop_sound st got events :
  async_inv st got ->
  match async_loop numsegments submit answer st events with
  | ADone (Ok obj) => complete obj
  | APanic => False
  | _ => True
  end.
Proof.
  revert st got. induction events as [|[id|] events IH]; intros st got Hi; simpl; [done| |done].
  case_decide as Hid; [|done]. pose proof (async_recv_later st got id Hi Hid) as Hr.
  destruct (async_recv _ _ _ _ _) as [[obj|e]| |st']; try done; [by destruct Hr|].
  destruct Hr as (Hi' & _). by eapply IH.
Qed.
End async_props.

(** Whatever the server answers and in whatever order the answers arrive,
    the parallel fetch never indexes outside its table of segments, and an
    object it returns is made of segments [0] to [total - 1], each the answer to
    the request of its own number and all agreeing on [total]. *)
Theorem FetchObjectAsync_sound numsegments submit answer events :
  fits 16 numsegments ->
  match FetchObjectAsync numsegments submit answer events with
  | ADone (Ok obj) => complete numsegments answer obj
  | APanic => False
  | _ => True
  end.
Proof.
  intros Hn. unfold FetchObjectAsync. destruct (async_start _ _) as [st|e] eqn:E; [|done].
  destruct (async_start_ok numsegments submit answer st Hn E) as [[Hz ->]|[Hi _]];
    [|by eapply async_loop_sound].
  destruct events as [|[id|] events]; simpl; [done| |done].
  case_decide as Hid; [|done]. apply list_elem_of_singleton in Hid as ->.
  pose proof (async_recv_first numsegments submit answer Hz) as Hr.
  destruct (async_recv _ _ _ _ _) as [[obj|e]| |st']; try done.
  destruct Hr as (Hi & _). by eapply async_loop_sound.
Qed.

(** ** Fetching in parallel from a server of the object *)

Section served.
  Context (answer : nat -> res ferror response) (wire : list Z) (n : nat) (seg : nat -> list Z).
  Context {Hs : SegmentServer answer wire n seg}.

Lemma served_good i : i < n -> good_segment answer (Z.of_nat n) i (seg i).
Proof. intros Hi. eexists. rewrite server_answer by done. split; [done|]. done. Qed.

Lemma served_total total i w : i < n -> good_segment answer total i w -> total = Z.of_nat n /\ w = seg i.
Proof.
  intros Hi (s & E & <- & _ & <-). rewrite server_answer in E by done. simpl in E. by simplify_eq.
Qed.

Lemma served_complete numsegments obj : complete numsegments answer obj -> obj = wire.
Proof.
  intros (total & ws & Ht & _ & Hl & -> & Hg). destruct (server_count (answer := answer)) as [Hn _].
  destruct (lookup_lt_is_Some_2 ws 0) as [w0 Hw0]; [lia|].
  destruct (served_total _ _ _ Hn (Hg _ _ Hw0)) as [-> _].
  rewrite <- (server_wire (wire := wire)). f_equal. apply list_eq. intros i.
  destruct (ws !! i) as [w|] eqn:Ei.
  - pose proof (lookup_lt_Some _ _ _ Ei).
    destruct (served_total _ i w ltac:(lia) (Hg _ _ Ei)) as [_ ->].
    rewrite list_lookup_fmap, lookup_seq_lt by lia. done.
  - apply lookup_ge_None in Ei. symmetry. rewrite list_lookup_fmap, lookup_seq_ge by lia. done.
Qed.

Lemma async_loop_served numsegments st got ids :
  async_inv numsegments answer st got -> as_total st = Z.of_nat n -> ids ≡ₚ as_pending st ->
  async_loop numsegments (fun _ => None) answer st (Arrive <$> ids) = ADone (Ok wire).
Proof.
  revert st got. induction ids as [|id ids IH]; intros st got Hi Ht Hp.
  { exfalso. apply (ai_open _ _ _ _ Hi). symmetry. by apply Permutation_nil_l. }
  simpl. assert (id ∈ as_pending st) as Hid by (rewrite <- Hp; by left).
  rewrite decide_True by done.
  assert (NoDup (as_pending st ++ got)) as Hnd by (rewrite (ai_ids _ _ _ _ Hi); apply NoDup_seq).
  apply NoDup_app in Hnd as (Hnd & _).
  assert (id < n) as Hlt.
  { assert (id ∈ seq 0 (Z.to_nat (as_total st))) as Hin by (rewrite <- (ai_ids _ _ _ _ Hi); set_solver).
    apply elem_of_seq in Hin. lia. }
  pose proof (async_recv_later numsegments (fun _ => None) answer st got id Hi Hid) as Hr.
  assert (ids ≡ₚ filter (fun j => j <> id) (as_pending st)) as Hrest.
  { apply (Permutation_cons_inv (a := id)). rewrite Hp. by apply filter_pending. }
  destruct (async_recv _ _ _ _ _) as [[obj|e]| |st']; try done.
  - destruct Hr as [Hc _]. do 2 f_equal. by eapply served_complete.
  - exfalso. destruct Hr as [E|[_ Hno]]; [by rewrite server_answer in E|].
    apply Hno. rewrite Ht. eexists. by apply served_good.
  - destruct Hr as (Hi' & Ht' & Hp'). eapply IH; [done|congruence|]. by rewrite Hp'.
Qed.
End served.

(** From a server of the object the parallel fetch returns the object, for
    every order in which the answers arrive, when the number of segments is
    known beforehand. *)
Lemma async_served_known answer wire n seg ids :
  SegmentServer answer wire n seg -> ids ≡ₚ seq 0 n ->
  FetchObjectAsync (Z.of_nat n) (fun _ => None) answer (Arrive <$> ids) = ADone (Ok wire).
Proof.
  intros Hs Hp. destruct (server_count (answer := answer)) as [Hn Hmax]. unfold FetchObjectAsync.
  assert (fits 16 (Z.of_nat n)) as Hf by (unfold fits; lia).
  destruct (async_start (Z.of_nat n) (fun _ => None)) as [st|e] eqn:E;
    [|unfold async_start in E; by rewrite submit_all_none in E].
  destruct (async_start_ok (Z.of_nat n) _ answer st Hf E) as [[? _]|(Hi & Ht & Hpend)]; [lia|].
  eapply async_loop_served; [done..|]. by rewrite Hpend, Nat2Z.id.
Qed.

(** The same when it is learnt from the first answer. *)
Lemma async_served_unknown answer wire n seg ids :
  SegmentServer answer wire n seg -> ids ≡ₚ seq 1 (n - 1) ->
  FetchObjectAsync 0 (fun _ => None) answer (Arrive <$> 0 :: ids) = ADone (Ok wire).
Proof.
  intros Hs Hp. destruct (server_count (answer := answer)) as [Hn Hmax]. unfold FetchObjectAsync.
  change (async_start 0 (fun _ => None)) with (@Ok ferror _ (MkAsync 0 [] 0 [0])).
  cbn [fmap list_fmap async_loop as_pending]. rewrite decide_True by set_solver.
  pose proof (async_recv_first 0 (fun _ => None) answer eq_refl) as Hr.
  destruct (async_recv _ _ _ _ _) as [[obj|e]| |st']; try done.
  - do 2 f_equal. by eapply served_complete.
  - exfalso. destruct Hr as [Hr|[i ?]]; [|done].
    destruct (Hr (Z.of_nat n) ltac:(lia)) as [E|[_ Hno]]; [by rewrite server_answer in E|].
    apply Hno. eexists. by apply (served_good answer wire n seg).
  - destruct Hr as (Hi & Hpend & w & Hg). destruct (served_total answer wire n seg _ 0 w Hn Hg) as [Ht _].
    eapply async_loop_served; [done..|]. by rewrite Hpend, Ht, Nat2Z.id.
Qed.

(** ** Witnesses *)

Definition demo_seg (i : nat) : list Z := [Z.of_nat i; 7]%Z.
Definition demo_answer (i : nat) : res ferror response :=
  Ok (RespSegment (Ok (NewSimpleSegment (demo_seg i) (Z.of_nat i) 3))).

#[export] Instance demo_server : SegmentServer demo_answer [0; 7; 1; 7; 2; 7]%Z 3 demo_seg.
Proof. split; [split; lia|done|done]. Qed.

Lemma FetchObject_served_witness :
  FetchObject 3 (fun _ segId => demo_answer (Z.to_nat segId)) = Some ([0; 7; 1; 7; 2; 7]%Z, None).
Proof. apply (FetchObject_served demo_answer _ 3 demo_seg 3); [apply demo_server|lia]. Defined.

Lemma FetchObjectAsync_sound_witness :
  match FetchObjectAsync 0 (fun _ => None) demo_answer [Arrive 0; Arrive 2; Arrive 1] with
  | ADone (Ok obj) => complete 0 demo_answer obj
  | APanic => False
  | _ => True
  end.
Proof. apply (FetchObjectAsync_sound 0). split; lia. Defined.

