(* ===== verification/KadCrypto.v ===== *)
(** * Signatures and encryption of the overlay ([src/ndn/kad/crypto.go])

    The elliptic-curve signature, the hash and the AES block function are
    parameters; the CFB mode of the standard library is written out.  [None]
    is a panic of the Go runtime. *)

From S2P Require Import Prelude Bytes.

Class CryptoLib := {
  c_keccak256 : list Z -> list Z;
  c_sign : list Z -> list Z -> option (list Z);          (* [crypto.Sign(hash, prv)] *)
  c_pub : list Z -> list Z;                              (* the public key of a private key *)
  c_verify : list Z -> list Z -> list Z -> bool;         (* [crypto.VerifySignature(pub, hash, sig)] *)
  c_aes : list Z -> list Z -> list Z;                    (* [block.Encrypt] under a key *)
}.

(** A signature is 64 bytes [R || S] and a recovery byte, and verifies. *)
Class CryptoLaws (C : CryptoLib) : Prop := {
  sign_verifies prv h sig : c_sign prv h = Some sig ->
    length sig = 65 /\ c_verify (c_pub prv) h (take 64 sig) = true;
  sign_bytes prv h sig : c_sign prv h = Some sig -> Forall byte_ok sig;
  aes_block key b : length b = 16 -> length (c_aes key b) = 16;
}.

Section crypto.
  Context {C : CryptoLib}.

Definition Crypto_Sign (prv content : list Z) : option (list Z) := c_sign prv (c_keccak256 content).

(** [sig[:len(sig)-1]] panics on an empty signature. *)
Definition Crypto_Verify (content sig pub : list Z) : option bool :=
  match sig with
  | [] => None
  | _ => Some (c_verify pub (c_keccak256 content) (take (length sig - 1) sig))
  end.

Definition BlockSize : nat := 16.

Definition Pad (src : list Z) : list Z :=
  let padding := BlockSize - length src mod BlockSize in
  src ++ replicate padding (u8 (Z.of_nat padding)).

Definition Unpad (src : list Z) : option (res unit (list Z)) :=
  match last src with
  | None => None
  | Some b =>
    let unpadding := Z.to_nat b in
    if length src <? unpadding then Some (Err tt)
    else Some (Ok (take (length src - unpadding) src))
  end.

(** [cipher.NewCFBEncrypter] and [NewCFBDecrypter]: the next block of the key
    stream is the encryption of the previous block of cipher text. *)
Fixpoint cfb (fuel : nat) (encrypt : bool) (key prev msg : list Z) : list Z :=
  match fuel with
  | O => []
  | S fuel =>
    match msg with
    | [] => []
    | _ =>
      let input := take BlockSize msg in
      let output := zip_with Z.lxor input (c_aes key prev) in
      output ++ cfb fuel encrypt key (if encrypt then output else input) (drop BlockSize msg)
    end
  end.

Definition key_ok (key : list Z) : bool :=
  (length key =? 16) || (length key =? 24) || (length key =? 32).

(** [iv] is what [rand.Reader] delivers. *)
Definition Encrypt (key iv plaintext : list Z) : res unit (list Z) :=
  let msg := Pad plaintext in
  if key_ok key then Ok (iv ++ cfb (length msg) true key iv msg) else Err tt.

(** An error of [Unpad] is dropped. *)
Definition Decrypt (key ciphertext : list Z) : option (res unit (list Z)) :=
  if key_ok key then
    if length ciphertext <? BlockSize then None
    else
      let iv := take BlockSize ciphertext in
      let msg := drop BlockSize ciphertext in
      let msg := cfb (length msg) false key iv msg in
      match Unpad msg with
      | None => None
      | Some (Ok p) => Some (Ok p)
      | Some (Err _) => Some (Ok [])
      end
  else Some (Err tt).
End crypto.

(** ** Properties *)

Section props.
  Context {C : CryptoLib} {HC : CryptoLaws C}.

Lemma length_Pad src : exists n, length (Pad src) = BlockSize * n /\ length src < length (Pad src).
Proof.
  unfold Pad. rewrite length_app, length_replicate.
  pose proof (Nat.div_mod_eq (length src) BlockSize). pose proof (Nat.mod_upper_bound (length src) BlockSize).
  unfold BlockSize in *. exists (length src / 16 + 1). lia.
Qed.

Lemma Unpad_Pad src : Unpad (Pad src) = Some (Ok src).
Proof.
  unfold Unpad, Pad. pose proof (Nat.mod_upper_bound (length src) BlockSize ltac:(done)) as Hm.
  set (padding := BlockSize - length src mod BlockSize).
  assert (0 < padding <= 16) as Hp by (unfold padding, BlockSize in *; lia).
  replace (replicate padding (u8 (Z.of_nat padding)))
    with (replicate (padding - 1) (u8 (Z.of_nat padding)) ++ [u8 (Z.of_nat padding)]).
  2:{ rewrite <- replicate_S_end. f_equal. lia. }
  rewrite app_assoc, last_snoc. rewrite u8_id by (unfold byte_ok; lia). rewrite Nat2Z.id.
  rewrite !length_app, length_replicate. simpl.
  rewrite (proj2 (Nat.ltb_ge _ _)) by lia. do 2 f_equal. rewrite <- app_assoc.
  replace (length src + (padding - 1) + 1 - padding) with (length src) by lia.
  by rewrite take_app_length.
Qed.

Lemma xor_twice p o : length p <= length o -> zip_with Z.lxor (zip_with Z.lxor p o) o = p.
Proof.
  revert o. induction p as [|x p IH]; intros [|y o] Hl; simpl in *; try done; try lia.
  rewrite IH by lia. by rewrite Z.lxor_assoc, Z.lxor_nilpotent, Z.lxor_0_r.
Qed.

(** Decryption follows encryption block by block. *)
Lemma cfb_roundtrip fuel key prev msg :
  length prev = BlockSize -> length msg <= fuel -> (exists n, length msg = BlockSize * n) ->
  length (cfb fuel true key prev msg) = length msg /\
  cfb fuel false key prev (cfb fuel true key prev msg) = msg.
Proof.
  revert prev msg. induction fuel as [|fuel IH]; intros prev msg Hprev Hf [n Hn].
  { assert (msg = []) as -> by (apply nil_length_inv; lia). done. }
  destruct msg as [|b msg]; [done|]. cbn [cfb]. set (m := b :: msg) in *.
  assert (0 < n) as Hn0 by (destruct n; unfold m in Hn; simpl in Hn; lia).
  set (out := zip_with Z.lxor (take BlockSize m) (c_aes key prev)).
  assert (length (take BlockSize m) = BlockSize) as Ht
    by (rewrite length_take; unfold BlockSize in *; lia).
  assert (length out = BlockSize) as Ho
    by (unfold out; rewrite length_zip_with, Ht, aes_block by done; unfold BlockSize; lia).
  destruct (IH out (drop BlockSize m)) as [Hl Hr]; [done| | |].
  { rewrite length_drop. unfold BlockSize in *. unfold m in *. simpl in *. lia. }
  { exists (n - 1). rewrite length_drop, Hn. unfold BlockSize. lia. }
  rewrite length_app, Ho, Hl, length_drop. split; [unfold BlockSize in *; lia|].
  destruct (out ++ cfb fuel true key out (drop BlockSize m)) as [|x rest] eqn:E.
  { apply (f_equal length) in E. rewrite length_app, Ho in E. simpl in E. unfold BlockSize in E. lia. }
  rewrite <- E. rewrite take_app_length', drop_app_length' by done. rewrite Hr.
  unfold out. rewrite xor_twice by (rewrite Ht, aes_block by done; done). by rewrite take_drop.
Qed.

(** Decryption undoes encryption for every plain text. *)
Theorem Decrypt_Encrypt key iv plaintext :
  key_ok key = true -> length iv = BlockSize ->
  exists c, Encrypt key iv plaintext = Ok c /\ Decrypt key c = Some (Ok plaintext).
Proof.
  intros Hk Hiv. unfold Encrypt, Decrypt. rewrite Hk. eexists. split; [done|].
  destruct (length_Pad plaintext) as (n & Hn & _).
  destruct (cfb_roundtrip (length (Pad plaintext)) key iv (Pad plaintext) Hiv) as [Hl Hr]; [lia|by exists n|].
  rewrite length_app, (proj2 (Nat.ltb_ge _ _)) by lia.
  rewrite take_app_length', drop_app_length' by done. rewrite Hl, Hr. by rewrite Unpad_Pad.
Qed.

(** A cipher text of at most one block makes [Decrypt] panic. *)
Theorem Decrypt_short_panics key c :
  key_ok key = true -> length c <= BlockSize -> Decrypt key c = None.
Proof.
  intros Hk Hl. unfold Decrypt. rewrite Hk. destruct (_ <? _) eqn:E; [done|]. bool_go.
  assert (drop BlockSize c = []) as -> by (apply nil_length_inv; rewrite length_drop; lia). done.
Qed.
End props.

(** ** A concrete library, for the witnesses: the signature is the hash
    itself, the block function is the identity. *)
#[export] Instance demo_crypto : CryptoLib := {|
  c_keccak256 := fun l => (fun x => u8 x) <$> take 64 (l ++ replicate 64 0%Z);
  c_sign := fun _ h => if decide (Forall byte_ok h /\ length h = 64) then Some (h ++ [0%Z]) else None;
  c_pub := fun prv => prv;
  c_verify := fun _ h sig => bool_decide (sig = h);
  c_aes := fun _ b => b;
|}.

#[export] Instance demo_crypto_laws : CryptoLaws demo_crypto.
Proof.
  split; simpl.
  - intros _ h sig. case_decide as H; [|done]. destruct H as [_ Hl]. intros [= <-].
    rewrite length_app, Hl. split; [done|]. apply bool_decide_eq_true. by rewrite take_app_length'.
  - intros _ h sig. case_decide as H; [|done]. destruct H as [Hb _]. intros [= <-].
    apply Forall_app. split; [done|]. constructor; [done|constructor].
  - done.
Qed.

Lemma Decrypt_Encrypt_witness :
  exists c, Encrypt (replicate 16 5%Z) (replicate 16 9%Z) [1; 2; 3]%Z = Ok c /\
    Decrypt (replicate 16 5%Z) c = Some (Ok [1; 2; 3]%Z).
Proof. apply (Decrypt_Encrypt (replicate 16 5%Z) (replicate 16 9%Z) [1; 2; 3]%Z); done. Defined.

Lemma Decrypt_short_panics_witness : Decrypt (replicate 16 5%Z) (replicate 16 9%Z) = None.
Proof. apply (Decrypt_short_panics (replicate 16 5%Z) (replicate 16 9%Z)); [done|simpl; unfold BlockSize; lia]. Defined.
