(* ===== verification/KadRpc.v ===== *)
(** * Kademlia RPC ([src/ndn/kad/rpc])

    Requests and responses are RLP structures, signed by their sender; a
    response is served in segments from the cache and fetched one segment
    after the other.  The signature scheme is a parameter.  The transport
    between the two parties delivers a marshalled message unchanged. *)

From S2P Require Import Prelude Bytes Rlp RlpStream RlpTypes KadId KadTable Names Signal KadPeer KadPing KadNode KadCrypto Cacher Fetching.
Local Open Scope Z_scope.

(** ** Messages *)

Definition TtRpcReq : Z := 100.
Definition TtSegReq : Z := 101.
Definition TtSegment : Z := 102.
Definition TtKadRpcPing : Z := 1.
Definition TtKadRpcFindnode : Z := 2.

Record PingParams := MkPingParams { ppTime : Z }.
Record PingResponse := MkPingResponse { prTime : Z }.
Record FindnodeParams := MkFindnodeParams { fpTarget : list Z; fpK : Z }.
Record FindnodeResponse := MkFindnodeResponse { frPeers : list NdnNodeRecordInfo }.
Record RpcSegmentReq := MkSegReq { sqId : list Z; sqSegId : Z }.

(** The exported fields of a request and of a response. *)
Record KadRpcRequest := MkRequest {
  qMethod : Z; qSender : NdnNodeRecordInfo; qParamsW : list Z; qNonce : Z; qSig : list Z;
}.

Record KadRpcResponse := MkResponse {
  pMethod : Z; pSender : NdnNodeRecordInfo; pResultsW : list Z; pErr : list Z; pSig : list Z;
}.

(** ** Encodings *)

(** [NdnNodeRecordInfo] as a struct of 2 fields. *)
#[export] Instance rlp_info : RlpType NdnNodeRecordInfo.
Proof.
  refine {| rlp_value := fun i => VList [VBytes (iPrefix i); VBytes (iPub i)];
    rlp_dec := decodeStruct (dmap (fun x => MkInfo x.1 x.2.1)
      (field_cons decodeByteSlice (field_cons decodeByteSlice field_nil)));
    rlp_ok := fun i => Forall byte_ok (iPrefix i) /\ Forall byte_ok (iPub i) /\ True |}.
  - intros i Hi. apply value_ok_list. rlp_value_okt.
  - eapply lawful_ext; [|exact (decodeStruct_lawful _ _ _ (dmap_lawful (fun x => MkInfo x.1 x.2.1)
      (fun i => (iPrefix i, (iPub i, tt))) _ _ _ ltac:(by intros []) ltac:(by intros [? [? []]])
      (field_cons_lawful _ _ _ _ _ _ decodeByteSlice_lawful (field_cons_lawful _ _ _ _ _ _ decodeByteSlice_lawful field_nil_lawful))))].
    rlp_bytes_eq.
Defined.

(** [PingParams] as a struct of 1 field. *)
#[export] Instance rlp_pingparams : RlpType PingParams.
Proof.
  refine {| rlp_value := fun i => VList [VUint (ppTime i)];
    rlp_dec := decodeStruct (dmap (fun x => MkPingParams x.1)
      (field_cons u64_dec field_nil));
    rlp_ok := fun i => 0 <= ppTime i < 2 ^ 64 /\ True |}.
  - intros i Hi. apply value_ok_list. rlp_value_okt.
  - eapply lawful_ext; [|exact (decodeStruct_lawful _ _ _ (dmap_lawful (fun x => MkPingParams x.1)
      (fun i => (ppTime i, tt)) _ _ _ ltac:(by intros []) ltac:(by intros [? []])
      (field_cons_lawful _ _ _ _ _ _ u64_lawful field_nil_lawful)))].
    rlp_bytes_eq.
Defined.

(** [PingResponse] as a struct of 1 field. *)
#[export] Instance rlp_pingresponse : RlpType PingResponse.
Proof.
  refine {| rlp_value := fun i => VList [VUint (prTime i)];
    rlp_dec := decodeStruct (dmap (fun x => MkPingResponse x.1)
      (field_cons u64_dec field_nil));
    rlp_ok := fun i => 0 <= prTime i < 2 ^ 64 /\ True |}.
  - intros i Hi. apply value_ok_list. rlp_value_okt.
  - eapply lawful_ext; [|exact (decodeStruct_lawful _ _ _ (dmap_lawful (fun x => MkPingResponse x.1)
      (fun i => (prTime i, tt)) _ _ _ ltac:(by intros []) ltac:(by intros [? []])
      (field_cons_lawful _ _ _ _ _ _ u64_lawful field_nil_lawful)))].
    rlp_bytes_eq.
Defined.

(** [FindnodeParams] as a struct of 2 fields. *)
#[export] Instance rlp_findparams : RlpType FindnodeParams.
Proof.
  refine {| rlp_value := fun i => VList [VBytes (fpTarget i); VUint (fpK i)];
    rlp_dec := decodeStruct (dmap (fun x => MkFindnodeParams x.1 x.2.1)
      (field_cons decodeByteSlice (field_cons u8_dec field_nil)));
    rlp_ok := fun i => Forall byte_ok (fpTarget i) /\ 0 <= fpK i < 2 ^ 8 /\ True |}.
  - intros i Hi. apply value_ok_list. rlp_value_okt.
  - eapply lawful_ext; [|exact (decodeStruct_lawful _ _ _ (dmap_lawful (fun x => MkFindnodeParams x.1 x.2.1)
      (fun i => (fpTarget i, (fpK i, tt))) _ _ _ ltac:(by intros []) ltac:(by intros [? [? []]])
      (field_cons_lawful _ _ _ _ _ _ decodeByteSlice_lawful (field_cons_lawful _ _ _ _ _ _ u8_lawful field_nil_lawful))))].
    rlp_bytes_eq.
Defined.

(** [FindnodeResponse] as a struct of 1 field. *)
#[export] Instance rlp_findresponse : RlpType FindnodeResponse.
Proof.
  refine {| rlp_value := fun i => VList [slice_value (frPeers i)];
    rlp_dec := decodeStruct (dmap (fun x => MkFindnodeResponse x.1)
      (field_cons (decodeListSlice rlp_dec) (field_nil)));
    rlp_ok := fun i => Forall rlp_ok (frPeers i) /\ True |}.
  - intros i Hi. apply value_ok_list. rlp_value_okt.
  - eapply lawful_ext; [|exact (decodeStruct_lawful _ _ _ (dmap_lawful (fun x => MkFindnodeResponse x.1)
      (fun i => (frPeers i, tt)) _ _ _ ltac:(by intros []) ltac:(by intros [? []])
      (field_cons_lawful _ _ _ _ _ _ slice_lawful field_nil_lawful)))].
    rlp_bytes_eq.
Defined.

(** [RpcSegmentReq] as a struct of 2 fields. *)
#[export] Instance rlp_segreq : RlpType RpcSegmentReq.
Proof.
  refine {| rlp_value := fun i => VList [VBytes (sqId i); VUint (sqSegId i)];
    rlp_dec := decodeStruct (dmap (fun x => MkSegReq x.1 x.2.1)
      (field_cons decodeByteSlice (field_cons u16_dec field_nil)));
    rlp_ok := fun i => Forall byte_ok (sqId i) /\ 0 <= sqSegId i < 2 ^ 16 /\ True |}.
  - intros i Hi. apply value_ok_list. rlp_value_okt.
  - eapply lawful_ext; [|exact (decodeStruct_lawful _ _ _ (dmap_lawful (fun x => MkSegReq x.1 x.2.1)
      (fun i => (sqId i, (sqSegId i, tt))) _ _ _ ltac:(by intros []) ltac:(by intros [? [? []]])
      (field_cons_lawful _ _ _ _ _ _ decodeByteSlice_lawful (field_cons_lawful _ _ _ _ _ _ u16_lawful field_nil_lawful))))].
    rlp_bytes_eq.
Defined.

(** [KadRpcRequest] as a struct of 5 fields. *)
#[export] Instance rlp_request : RlpType KadRpcRequest.
Proof.
  refine {| rlp_value := fun i => VList [VUint (qMethod i); rlp_value (qSender i); VBytes (qParamsW i); VUint (qNonce i); VBytes (qSig i)];
    rlp_dec := decodeStruct (dmap (fun x => MkRequest x.1 x.2.1 x.2.2.1 x.2.2.2.1 x.2.2.2.2.1)
      (field_cons u16_dec (field_cons rlp_dec (field_cons decodeByteSlice (field_cons u64_dec (field_cons decodeByteSlice field_nil))))));
    rlp_ok := fun i => 0 <= qMethod i < 2 ^ 16 /\ rlp_ok (qSender i) /\ Forall byte_ok (qParamsW i) /\ 0 <= qNonce i < 2 ^ 64 /\ Forall byte_ok (qSig i) /\ True |}.
  - intros i Hi. apply value_ok_list. rlp_value_okt.
  - eapply lawful_ext; [|exact (decodeStruct_lawful _ _ _ (dmap_lawful (fun x => MkRequest x.1 x.2.1 x.2.2.1 x.2.2.2.1 x.2.2.2.2.1)
      (fun i => (qMethod i, (qSender i, (qParamsW i, (qNonce i, (qSig i, tt)))))) _ _ _ ltac:(by intros []) ltac:(by intros [? [? [? [? [? []]]]]])
      (field_cons_lawful _ _ _ _ _ _ u16_lawful (field_cons_lawful _ _ _ _ _ _ rlp_lawful (field_cons_lawful _ _ _ _ _ _ decodeByteSlice_lawful (field_cons_lawful _ _ _ _ _ _ u64_lawful (field_cons_lawful _ _ _ _ _ _ decodeByteSlice_lawful field_nil_lawful)))))))].
    rlp_bytes_eq.
Defined.

(** [KadRpcResponse] as a struct of 5 fields. *)
#[export] Instance rlp_response : RlpType KadRpcResponse.
Proof.
  refine {| rlp_value := fun i => VList [VUint (pMethod i); rlp_value (pSender i); VBytes (pResultsW i); VBytes (pErr i); VBytes (pSig i)];
    rlp_dec := decodeStruct (dmap (fun x => MkResponse x.1 x.2.1 x.2.2.1 x.2.2.2.1 x.2.2.2.2.1)
      (field_cons u16_dec (field_cons rlp_dec (field_cons decodeByteSlice (field_cons decodeByteSlice (field_cons decodeByteSlice field_nil))))));
    rlp_ok := fun i => 0 <= pMethod i < 2 ^ 16 /\ rlp_ok (pSender i) /\ Forall byte_ok (pResultsW i) /\ Forall byte_ok (pErr i) /\ Forall byte_ok (pSig i) /\ True |}.
  - intros i Hi. apply value_ok_list. rlp_value_okt.
  - eapply lawful_ext; [|exact (decodeStruct_lawful _ _ _ (dmap_lawful (fun x => MkResponse x.1 x.2.1 x.2.2.1 x.2.2.2.1 x.2.2.2.2.1)
      (fun i => (pMethod i, (pSender i, (pResultsW i, (pErr i, (pSig i, tt)))))) _ _ _ ltac:(by intros []) ltac:(by intros [? [? [? [? [? []]]]]])
      (field_cons_lawful _ _ _ _ _ _ u16_lawful (field_cons_lawful _ _ _ _ _ _ rlp_lawful (field_cons_lawful _ _ _ _ _ _ decodeByteSlice_lawful (field_cons_lawful _ _ _ _ _ _ decodeByteSlice_lawful (field_cons_lawful _ _ _ _ _ _ decodeByteSlice_lawful field_nil_lawful)))))))].
    rlp_bytes_eq.
Defined.

(** [SimpleSegment] in the order of its declaration: wire, total, id. *)
#[export] Instance rlp_segment : RlpType SimpleSegment.
Proof.
  refine {| rlp_value := fun i => VList [VBytes (Wire i); VUint (Total i); VUint (Id i)];
    rlp_dec := decodeStruct (dmap (fun x => NewSimpleSegment x.1 x.2.2.1 x.2.1)
      (field_cons decodeByteSlice (field_cons u16_dec (field_cons u16_dec field_nil))));
    rlp_ok := fun i => Forall byte_ok (Wire i) /\ 0 <= Total i < 2 ^ 16 /\ 0 <= Id i < 2 ^ 16 /\ True |}.
  - intros i Hi. apply value_ok_list. rlp_value_okt.
  - eapply lawful_ext; [|exact (decodeStruct_lawful _ _ _ (dmap_lawful (fun x => NewSimpleSegment x.1 x.2.2.1 x.2.1)
      (fun i => (Wire i, (Total i, (Id i, tt)))) _ _ _ ltac:(by intros []) ltac:(by intros [? [? [? []]]])
      (field_cons_lawful _ _ _ _ _ _ decodeByteSlice_lawful (field_cons_lawful _ _ _ _ _ _ u16_lawful
        (field_cons_lawful _ _ _ _ _ _ u16_lawful field_nil_lawful)))))].
    rlp_bytes_eq.
Defined.

(** ** Requests and responses in memory *)

Inductive rpc_params := ParamsPing (p : PingParams) | ParamsFindnode (p : FindnodeParams).
Inductive rpc_results := ResultsPing (r : PingResponse) | ResultsFindnode (r : FindnodeResponse).

(** The unexported fields [params], [wire] and [id] beside the encoded ones. *)
Record rpc_request := MkReq {
  rq : KadRpcRequest;
  rq_params : option rpc_params;
  rq_wire : list Z;
  rq_id : list Z;
}.

Record rpc_response := MkResp {
  rp : KadRpcResponse;
  rp_results : option rpc_results;
}.

Inductive rpc_error := RpcErrUnexpected | RpcErrTlv | RpcErrDecode (e : rerr) | RpcErrInvalidSignature
| RpcErrRemote (msg : list Z) | RpcErrFetch (e : ferror) | RpcErrCache (e : cache_error).

Section rpc.
  Context {L : NdnLib} {C : CryptoLib}.

Definition set_paramsW (r : rpc_request) (w : list Z) : rpc_request :=
  MkReq (MkRequest (qMethod (rq r)) (qSender (rq r)) w (qNonce (rq r)) (qSig (rq r)))
    (rq_params r) (rq_wire r) (rq_id r).

(** [encodeParams]; [None] is its error. *)
Definition encodeParams (r : rpc_request) : option rpc_request :=
  match qParamsW (rq r) with
  | [] =>
    w ← match rq_params r with
        | Some (ParamsPing p) => rlp_encode p
        | Some (ParamsFindnode p) => rlp_encode p
        | None => None
        end;
    Some (set_paramsW r w)
  | _ => Some r
  end.

Definition decodeParams (r : rpc_request) : res rpc_error rpc_request :=
  let set p := MkReq (rq r) (Some p) (rq_wire r) (rq_id r) in
  if qMethod (rq r) =? TtKadRpcPing then
    match rlp_decode (A := PingParams) (qParamsW (rq r)) with
    | Ok p => Ok (set (ParamsPing p))
    | Err e => Err (RpcErrDecode e)
    end
  else if qMethod (rq r) =? TtKadRpcFindnode then
    match rlp_decode (A := FindnodeParams) (qParamsW (rq r)) with
    | Ok p => Ok (set (ParamsFindnode p))
    | Err e => Err (RpcErrDecode e)
    end
  else Err RpcErrUnexpected.

(** The signed part of a request: method, sender, parameters. *)
Definition request_content (r : KadRpcRequest) : option (list Z) :=
  EncodeToBytes (VList [VUint (qMethod r); rlp_value (qSender r); VBytes (qParamsW r)]).

Definition set_sig (r : rpc_request) (sig : list Z) : rpc_request :=
  MkReq (MkRequest (qMethod (rq r)) (qSender (rq r)) (qParamsW (rq r)) (qNonce (rq r)) sig)
    (rq_params r) (rq_wire r) (rq_id r).

(** [Sign]; the callers ignore its error, so an unsigned request is kept. *)
Definition request_Sign (prv : list Z) (r : rpc_request) : rpc_request :=
  match encodeParams r with
  | None => r
  | Some r =>
    match request_content (rq r) with
    | None => r
    | Some wire => set_sig r (match Crypto_Sign prv wire with Some s => s | None => [] end)
    end
  end.

(** [Verify]: [None] is the panic of the signature check. *)
Definition request_Verify (r : rpc_request) : option bool :=
  match encodeParams r with
  | None => Some false
  | Some r =>
    match request_content (rq r) with
    | None => Some false
    | Some wire => Crypto_Verify wire (qSig (rq r)) (iPub (qSender (rq r)))
    end
  end.

(** [getId]: the hash of the encoded request, in hexadecimal; it is kept. *)
Definition getId (r : rpc_request) : list Z * rpc_request :=
  match rq_id r with
  | _ :: _ => (rq_id r, r)
  | [] =>
    let wire := match rq_wire r with
                | [] => match rlp_encode (rq r) with Some w => w | None => [] end
                | w => w
                end in
    let id := hex_encode (sha256 wire) in
    (id, MkReq (rq r) (rq_params r) wire id)
  end.

Definition encodeResults (r : rpc_response) : option rpc_response :=
  match pResultsW (rp r) with
  | [] =>
    w ← match rp_results r with
        | Some (ResultsPing x) => rlp_encode x
        | Some (ResultsFindnode x) => rlp_encode x
        | None => None
        end;
    Some (MkResp (MkResponse (pMethod (rp r)) (pSender (rp r)) w (pErr (rp r)) (pSig (rp r))) (rp_results r))
  | _ => Some r
  end.

Definition decodeResults (r : rpc_response) : res rpc_error rpc_response :=
  if pMethod (rp r) =? TtKadRpcPing then
    match rlp_decode (A := PingResponse) (pResultsW (rp r)) with
    | Ok x => Ok (MkResp (rp r) (Some (ResultsPing x)))
    | Err e => Err (RpcErrDecode e)
    end
  else if pMethod (rp r) =? TtKadRpcFindnode then
    match rlp_decode (A := FindnodeResponse) (pResultsW (rp r)) with
    | Ok x => Ok (MkResp (rp r) (Some (ResultsFindnode x)))
    | Err e => Err (RpcErrDecode e)
    end
  else Err RpcErrUnexpected.

Definition response_content (r : KadRpcResponse) : option (list Z) :=
  EncodeToBytes (VList [VUint (pMethod r); rlp_value (pSender r); VBytes (pResultsW r); VBytes (pErr r)]).

Definition response_Sign (prv : list Z) (r : rpc_response) : rpc_response :=
  match encodeResults r with
  | None => r
  | Some r =>
    match response_content (rp r) with
    | None => r
    | Some wire =>
      let sig := match Crypto_Sign prv wire with Some s => s | None => [] end in
      MkResp (MkResponse (pMethod (rp r)) (pSender (rp r)) (pResultsW (rp r)) (pErr (rp r)) sig) (rp_results r)
    end
  end.

Definition response_Verify (r : rpc_response) : option bool :=
  match encodeResults r with
  | None => Some false
  | Some r =>
    match response_content (rp r) with
    | None => Some false
    | Some wire => Crypto_Verify wire (pSig (rp r)) (iPub (pSender (rp r)))
    end
  end.

(** ** The message wrapper *)

Record KadRpcMsg := MkMsg {
  m_request : option rpc_request;
  m_segment : option SimpleSegment;
  m_segreq : option RpcSegmentReq;
  m_type : Z;
}.

Definition MarshalTlv (m : KadRpcMsg) : option (Z * list Z * KadRpcMsg) :=
  match m_request m with
  | Some r =>
    r ← encodeParams r;
    value ← rlp_encode (rq r);
    Some (m_type m, value, MkMsg (Some (MkReq (rq r) (rq_params r) value (rq_id r))) (m_segment m) (m_segreq m) (m_type m))
  | None =>
    match m_segreq m with
    | Some q => value ← rlp_encode q; Some (m_type m, value, m)
    | None =>
      s ← m_segment m;
      value ← rlp_encode s;
      Some (m_type m, value, m)
    end
  end.

Definition UnmarshalTlv (typ : Z) (value : list Z) : res rpc_error KadRpcMsg :=
  if typ =? TtRpcReq then
    match rlp_decode (A := KadRpcRequest) value with
    | Err e => Err (RpcErrDecode e)
    | Ok q =>
      match decodeParams (MkReq q None [] []) with
      | Ok r => Ok (MkMsg (Some r) None None typ)
      | Err e => Err e
      end
    end
  else if typ =? TtSegReq then
    match rlp_decode (A := RpcSegmentReq) value with
    | Ok q => Ok (MkMsg None None (Some q) typ)
    | Err e => Err (RpcErrDecode e)
    end
  else if typ =? TtSegment then
    match rlp_decode (A := SimpleSegment) value with
    | Ok s => Ok (MkMsg None (Some s) None typ)
    | Err e => Err (RpcErrDecode e)
    end
  else Err RpcErrTlv.

Definition ExtractSegment (m : KadRpcMsg) : res rpc_error (option SimpleSegment) :=
  if m_type m =? TtSegment then Ok (m_segment m) else Err RpcErrUnexpected.

Inductive rpc_query := QueryRequest (r : rpc_request) | QuerySegment (q : RpcSegmentReq).

Definition ExtractQuery (m : KadRpcMsg) : res rpc_error (option rpc_query * Z) :=
  if m_type m =? TtRpcReq then Ok (QueryRequest <$> m_request m, 0)
  else if m_type m =? TtSegReq then
    Ok (QuerySegment <$> m_segreq m, match m_segreq m with Some q => sqSegId q | None => 0 end)
  else Err RpcErrUnexpected.

(** [WriteRequest]: segment 0 is asked for with the request itself. *)
Definition WriteRequest (r : rpc_request) (segId : Z) : KadRpcMsg * rpc_request :=
  if segId =? 0 then (MkMsg (Some r) None None TtRpcReq, r)
  else
    let '(id, r) := getId r in
    (MkMsg None None (Some (MkSegReq id segId)) TtSegReq, r).

(** ** Names of segments

    A segment other than the first is named [prefix/id/number]; the number is
    printed with [%d] and parsed with [strconv.ParseInt(s, 10, 16)]. *)

Fixpoint dec_digits (fuel : nat) (n : Z) (acc : list Z) : list Z :=
  match fuel with
  | O => acc
  | S fuel =>
    let acc := 48 + n mod 10 :: acc in
    if n / 10 =? 0 then acc else dec_digits fuel (n / 10) acc
  end.

Definition print_uint16 (n : Z) : list Z := dec_digits 5 n [].

Fixpoint parse_digits (acc : Z) (s : list Z) : option Z :=
  match s with
  | [] => Some acc
  | c :: s =>
    if (48 <=? c) && (c <=? 57) then
      let acc := acc * 10 + (c - 48) in
      if 65535 <? acc then None else parse_digits acc s
    else None
  end.

Definition parse_uint16 (s : list Z) : option Z :=
  match s with [] => None | _ => parse_digits 0 s end.

Definition ParseInt16 (s : list Z) : option Z :=
  let '(neg, digits) := match s with
                        | 45 :: s => (true, s)
                        | 43 :: s => (false, s)
                        | _ => (false, s)
                        end in
  un ← parse_uint16 digits;
  if neg then (if 32768 <? un then None else Some (- un))
  else if 32768 <=? un then None else Some un.

(** [ToName] and the second branch of [DecodeInterest], which reads the last
    two components; [None] is a parse error. *)
Definition ToName (q : RpcSegmentReq) (prefix : list NameComponent) : list NameComponent :=
  BuildName [prefix; ParseName (47 :: sqId q ++ 47 :: print_uint16 (sqSegId q))].

Definition DecodeSegmentName (name : list NameComponent) : option RpcSegmentReq :=
  c2 ← name !! (length name - 2)%nat;
  c1 ← name !! (length name - 1)%nat;
  segId ← ParseInt16 (cvalue c1);
  Some (MkSegReq (cvalue c2) (u16 segId)).

(** ** The server *)

Record rpc_server := MkServer { sv_node : kadnode; sv_cacher : simpleCacher }.

(** [Record] of the node. *)
Definition node_Record (n : kadnode) : option NdnNodeRecordInfo :=
  d ← pheap (nstore n) !! paddr (nself n);
  NdnNodeRecordMarshaling (precord d).

(** [Api.Ping] and [Api.Findnode]. *)
Definition Api_Ping (n : kadnode) (now : Z) (sender : NdnNodeRecordInfo) : option (PingResponse * kadnode) :=
  n ← AddSeenRecord n sender;
  Some (MkPingResponse (u64 now), n).

Definition Api_Findnode (n : kadnode) (sender : NdnNodeRecordInfo) (p : FindnodeParams)
  : option (FindnodeResponse * kadnode) :=
  n ← AddSeenRecord n sender;
  peers ← Find n (fpTarget p) (fpK p);
  Some (MkFindnodeResponse peers, n).

(** The response to a request for segment 0; [Some (None, _)] is an unknown
    method.  The type assertion of the parameters follows the method. *)
Definition serve_request (n : kadnode) (now : Z) (r : rpc_request)
  : option (option rpc_response * kadnode) :=
  record ← node_Record n;
  let respond results := MkResp (MkResponse (qMethod (rq r)) record [] [] []) (Some results) in
  if qMethod (rq r) =? TtKadRpcPing then
    '(x, n) ← Api_Ping n now (qSender (rq r));
    Some (Some (respond (ResultsPing x)), n)
  else if qMethod (rq r) =? TtKadRpcFindnode then
    match rq_params r with
    | Some (ParamsFindnode p) =>
      '(x, n) ← Api_Findnode n (qSender (rq r)) p;
      Some (Some (respond (ResultsFindnode x)), n)
    | _ => None
    end
  else Some (None, n).

Definition segment_msg (segment : list Z) (segId num : Z) : KadRpcMsg :=
  MkMsg None (Some (NewSimpleSegment segment segId num)) None TtSegment.

(** A segment from the cache. *)
Definition serve_cached (sv : rpc_server) (queryid : list Z) (segId : Z)
  : option (res rpc_error KadRpcMsg * rpc_server) :=
  '(r, num) ← GetSegment (sv_cacher sv) queryid segId;
  match r with
  | Ok segment => Some (Ok (segment_msg segment segId num), sv)
  | Err e => Some (Err (RpcErrCache e), sv)
  end.

(** [GetSegment] of the RPC server. *)
Definition server_GetSegment (sv : rpc_server) (prv : list Z) (now : Z) (query : rpc_query) (segId : Z)
  : option (res rpc_error KadRpcMsg * rpc_server) :=
  match query with
  | QueryRequest req =>
    let '(queryid, req) := getId req in
    if 0 <? segId then serve_cached sv queryid segId
    else
      '(response, n) ← serve_request (sv_node sv) now req;
      match response with
      | None => Some (Err RpcErrUnexpected, MkServer n (sv_cacher sv))
      | Some response =>
        match rlp_encode (rp (response_Sign prv response)) with
        | Some wire =>
          '(segment, num, c) ← Cache (sv_cacher sv) queryid wire;
          Some (Ok (segment_msg segment segId num), MkServer n c)
        | None => Some (Ok (segment_msg [] segId 0), MkServer n (sv_cacher sv))
        end
      end
  | QuerySegment q => serve_cached sv (sqId q) segId
  end.

(** ** The client *)

(** [request] after the object was fetched: decode, verify, take the results
    and the sender's record. *)
Definition client_finish (st : pstore) (peer : kadpeer) (obj : list Z)
  : option (res rpc_error rpc_results * pstore) :=
  match rlp_decode (A := KadRpcResponse) obj with
  | Err e => Some (Err (RpcErrDecode e), st)
  | Ok resp =>
    match decodeResults (MkResp resp None) with
    | Err e => Some (Err e, st)
    | Ok resp =>
      ok ← response_Verify resp;
      if negb ok then Some (Err RpcErrInvalidSignature, st)
      else match pErr (rp resp), rp_results resp with
      | _ :: _, _ => Some (Err (RpcErrRemote (pErr (rp resp))), st)
      | [], Some results =>
        '(st, _) ← UpdateNodeRecord st peer (pSender (rp resp));
        Some (Ok results, st)
      | [], None => None
      end
    end
  end.

Definition client_request (st : pstore) (peer : kadpeer) (fetched : list Z * option ferror)
  : option (res rpc_error rpc_results * pstore) :=
  match fetched with
  | (_, Some e) => Some (Err (RpcErrFetch e), st)
  | (obj, None) => client_finish st peer obj
  end.

(** The requests built by [Findnode] and [Ping]. *)
Definition Findnode_request (prv : list Z) (me : NdnNodeRecordInfo) (nonce : Z) (target : list Z) (k : Z)
  : rpc_request :=
  request_Sign prv (MkReq (MkRequest TtKadRpcFindnode me [] nonce []) (Some (ParamsFindnode (MkFindnodeParams target k))) [] []).

Definition Ping_request (prv : list Z) (me : NdnNodeRecordInfo) (nonce now : Z) : rpc_request :=
  request_Sign prv (MkReq (MkRequest TtKadRpcPing me [] nonce []) (Some (ParamsPing (MkPingParams (u64 now)))) [] []).
End rpc.

Section rpc_props.
  Context {L : NdnLib} {C : CryptoLib} {HC : CryptoLaws C}.

(** A key that signs. *)
Definition key_valid (prv : list Z) : Prop := forall content, is_Some (Crypto_Sign prv content).

Definition response_value (r : KadRpcResponse) : value := rlp_value r.

Lemma response_content_ok r :
  rlp_ok r -> small (rlp_value r) -> exists c, response_content r = Some c.
Proof.
  intros (Hm & Hs & Hw & He & _) Hsm. unfold response_content.
  destruct (small_prefix [VUint (pMethod r); rlp_value (pSender r); VBytes (pResultsW r); VBytes (pErr r)]
    [VBytes (pSig r)] Hsm) as [Hl _].
  eexists. apply EncodeToBytes_ok; [|exact Hl]. apply value_ok_list.
  repeat (apply Forall_cons; split); try apply Forall_nil; try done.
  by eapply (uint_value_ok 16).
Qed.

(** Signing fills in the encoded results and a signature that verifies. *)
Lemma response_Sign_Verify prv method record results w :
  key_valid prv -> iPub record = c_pub prv -> w <> [] ->
  match results with ResultsPing x => rlp_encode x | ResultsFindnode x => rlp_encode x end = Some w ->
  (exists c, response_content (MkResponse method record w [] []) = Some c) ->
  exists sig, response_Sign prv (MkResp (MkResponse method record [] [] []) (Some results)) =
      MkResp (MkResponse method record w [] sig) (Some results) /\ Forall byte_ok sig /\
    forall res, response_Verify (MkResp (MkResponse method record w [] sig) res) = Some true.
Proof.
  intros Hk Hpub Hw Henc (c & Hc). unfold response_Sign, encodeResults. cbn [rp pResultsW rp_results].
  assert (match results with ResultsPing x => rlp_encode x | ResultsFindnode x => rlp_encode x end ≫=
    (fun w => Some (MkResp (MkResponse method record w [] []) (Some results))) =
    Some (MkResp (MkResponse method record w [] []) (Some results))) as E by (by rewrite Henc).
  destruct (Hk c) as [sig Hsig]. exists sig.
  destruct results as [x|x]; rewrite Henc in *; cbn [mbind option_bind rp pMethod pSender pErr pSig] in *;
    rewrite Hc, Hsig; (split; [done|]); (split; [by eapply sign_bytes|]); intros res;
    unfold response_Verify, encodeResults; cbn [rp pResultsW]; (destruct w as [|b w]; [done|]);
    cbn [rp pSig pSender]; change (response_content (MkResponse method record (b :: w) [] sig)) with
      (response_content (MkResponse method record (b :: w) [] [])); rewrite Hc;
    destruct (sign_verifies _ _ _ Hsig) as [Hlen Hv]; unfold Crypto_Verify;
    (destruct sig as [|s0 sig]; [done|]); rewrite Hlen, Hpub; simpl; by rewrite <- Hv.
Qed.

Lemma response_parts r : small (rlp_value r) -> small (VBytes (pResultsW r)).
Proof.
  intros Hs. apply (small_prefix [VUint (pMethod r); rlp_value (pSender r); VBytes (pResultsW r)]
    [VBytes (pErr r); VBytes (pSig r)]) in Hs as [_ Hs].
  by repeat (apply Forall_cons in Hs as [? Hs]).
Qed.

(** The client takes the results of a response of the queried method. *)
Lemma client_finish_ok st peer record x w sig :
  rlp_ok (MkResponse TtKadRpcFindnode record w [] sig) ->
  small (rlp_value (MkResponse TtKadRpcFindnode record w [] sig)) ->
  rlp_ok x -> small (rlp_value x) -> w = rlp_bytes (rlp_value x) ->
  (forall res, response_Verify (MkResp (MkResponse TtKadRpcFindnode record w [] sig) res) = Some true) ->
  client_finish st peer (rlp_bytes (rlp_value (MkResponse TtKadRpcFindnode record w [] sig))) =
    '(st, _) ← UpdateNodeRecord st peer record; Some (Ok (ResultsFindnode x), st).
Proof.
  intros Hok Hsm Hx Hsx -> Hv. unfold client_finish. rewrite rlp_decode_ok by done.
  unfold decodeResults. cbn [rp pMethod pResultsW Z.eqb TtKadRpcFindnode TtKadRpcPing Pos.eqb].
  change (TtKadRpcFindnode =? TtKadRpcPing) with false. change (TtKadRpcFindnode =? TtKadRpcFindnode) with true.
  cbn iota. rewrite rlp_decode_ok by done. rewrite Hv. done.
Qed.

(** ** One exchange *)

(** The producer side: decode the marshalled message, extract the query, ask
    the server; the reply is marshalled, unmarshalled and its segment extracted. *)
Definition reply_segment (reply : KadRpcMsg) : option SimpleSegment :=
  '(typ, value, _) ← MarshalTlv reply;
  match UnmarshalTlv typ value with
  | Ok m => match ExtractSegment m with Ok (Some s) => Some s | _ => None end
  | Err _ => None
  end.

Definition to_response (r : option (res rpc_error KadRpcMsg)) : res ferror response :=
  match r with
  | Some (Ok reply) =>
    match reply_segment reply with
    | Some s => Ok (RespSegment (Ok s))
    | None => Err (FErrOther 1)
    end
  | _ => Err (FErrOther 0)
  end.

(** The first request carries the marshalled request. *)
Definition exchange_first (sv : rpc_server) (prv : list Z) (now : Z) (r : rpc_request)
  : option (res rpc_error KadRpcMsg * rpc_server) :=
  '(typ, value, _) ← MarshalTlv (WriteRequest r 0).1;
  match UnmarshalTlv typ value with
  | Err e => Some (Err e, sv)
  | Ok m =>
    match ExtractQuery m with
    | Ok (Some q, segId) => server_GetSegment sv prv now q segId
    | _ => None
    end
  end.

(** A later request is a name. *)
Definition exchange_segment (sv : rpc_server) (prv : list Z) (now : Z) (prefix : list NameComponent) (q : RpcSegmentReq)
  : option (res rpc_error KadRpcMsg * rpc_server) :=
  match DecodeSegmentName (ToName q prefix) with
  | None => Some (Err RpcErrTlv, sv)
  | Some q => server_GetSegment sv prv now (QuerySegment q) (sqSegId q)
  end.

(** The transport seen by [FetchObject]: the server keeps its state between
    the requests of one object. *)
Definition rpc_transport (sv : rpc_server) (prv : list Z) (now : Z) (prefix : list NameComponent) (r : rpc_request)
  (num : nat) (segId : Z) : res ferror response :=
  match exchange_first sv prv now r with
  | None => Err (FErrOther 2)
  | Some (first, sv1) =>
    if segId =? 0 then to_response (Some first)
    else to_response (fst <$> exchange_segment sv1 prv now prefix (MkSegReq (getId r).1 segId))
  end.

Lemma small_segment seg id num :
  Z.of_nat (length seg) < 2 ^ 31 -> 0 <= num < 2 ^ 16 -> 0 <= id < 2 ^ 16 ->
  small (rlp_value (NewSimpleSegment seg id num)).
Proof.
  intros Hl Hn Hi. unfold small. cbn [rlp_value rlp_segment Wire Total Id]. rewrite rlp_bytes_list.
  cbn [fmap list_fmap item_of mbind list_bind encode_item].
  pose proof (length_encode_string_le seg ltac:(lia)). pose proof (length_uint_le num ltac:(lia)).
  pose proof (length_uint_le id ltac:(lia)).
  set (c := encode_string seg ++ encode_string (big_bytes num) ++ encode_string (big_bytes id) ++ []).
  assert (length c <= 43 + length seg)%nat as Hc by (unfold c; rewrite !length_app, length_nil; lia).
  pose proof (length_encode_list_le c). lia.
Qed.

Lemma segment_reply seg id num :
  Forall byte_ok seg -> 0 <= num < 2 ^ 16 -> 0 <= id < 2 ^ 16 -> Z.of_nat (length seg) < 2 ^ 31 ->
  to_response (Some (Ok (segment_msg seg id num))) = Ok (RespSegment (Ok (NewSimpleSegment seg id num))).
Proof.
  intros Hb Hn Hi Hl.
  assert (rlp_ok (NewSimpleSegment seg id num)) as Hok by (split_and!; done || apply Hn || apply Hi).
  pose proof (small_segment seg id num Hl Hn Hi) as Hsm.
  unfold to_response, reply_segment, MarshalTlv. cbn [m_request m_segreq m_segment segment_msg m_type mbind option_bind].
  rewrite rlp_encode_ok by done. cbn [mbind option_bind]. unfold UnmarshalTlv.
  change (TtSegment =? TtRpcReq) with false. change (TtSegment =? TtSegReq) with false.
  change (TtSegment =? TtSegment) with true. cbn iota. by rewrite rlp_decode_ok.
Qed.

(** *** Names of segments *)

Lemma dec_digits_head fuel n acc :
  0 <= n -> exists c l, dec_digits (S fuel) n acc = c :: l /\ 48 <= c <= 57 /\ (Forall (fun c => 48 <= c <= 57) acc -> Forall (fun c => 48 <= c <= 57) l).
Proof.
  revert n acc. induction fuel as [|fuel IH]; intros n acc Hn; pose proof (Z.mod_pos_bound n 10 eq_refl).
  - cbn [dec_digits]. destruct (_ =? _); eexists _, _; (split; [done|]); (split; [lia|done]).
  - remember (S fuel) as f. cbn [dec_digits]. destruct (_ =? _); [eexists _, _; (split; [done|]); (split; [lia|done])|].
    destruct (IH (n / 10) (48 + n mod 10 :: acc)) as (c & l & -> & Hc & Hl); [apply Z.div_pos; lia|].
    exists c, l. split; [done|]. split; [done|]. intros Ha. apply Hl. constructor; [lia|done].
Qed.

Lemma parse_dec_digits fuel n acc :
  0 <= n <= 65535 -> n < 10 ^ Z.of_nat (S fuel) ->
  parse_digits 0 (dec_digits (S fuel) n acc) = parse_digits n acc.
Proof.
  revert n acc. induction fuel as [|fuel IH]; intros n acc Hn Hf; pose proof (Z.mod_pos_bound n 10 eq_refl);
    pose proof (Z.div_mod n 10 ltac:(lia)) as Hd.
  - change (10 ^ Z.of_nat 1) with 10 in Hf. cbn [dec_digits]. rewrite Z.div_small by lia. change (0 =? 0) with true. cbn [parse_digits].
    rewrite !(proj2 (Z.leb_le _ _)) by lia. cbn [andb]. rewrite (proj2 (Z.ltb_ge _ _)) by lia. f_equal. lia.
  - remember (S fuel) as f. cbn [dec_digits]. destruct (_ =? _) eqn:E; bool_go.
    + cbn [parse_digits]. rewrite !(proj2 (Z.leb_le _ _)) by lia. cbn [andb].
      rewrite (proj2 (Z.ltb_ge _ _)) by lia. f_equal. lia.
    + subst f. rewrite IH.
      * cbn [parse_digits]. rewrite !(proj2 (Z.leb_le _ _)) by lia. cbn [andb].
        rewrite (proj2 (Z.ltb_ge _ _)) by lia. f_equal. lia.
      * split; [apply Z.div_pos; lia|]. lia.
      * rewrite Nat2Z.inj_succ, Z.pow_succ_r in Hf by lia. apply Z.div_lt_upper_bound; lia.
Qed.

(** Below [2^15] a printed number is read back; from there on it is refused,
    although the field has 16 bits. *)
Lemma ParseInt16_print n :
  0 <= n < 2 ^ 16 -> ParseInt16 (print_uint16 n) = if n <? 32768 then Some n else None.
Proof.
  intros Hn. unfold ParseInt16, print_uint16.
  pose proof (parse_dec_digits 4 n [] ltac:(lia) ltac:(lia)) as Hp. cbn [parse_digits] in Hp.
  destruct (dec_digits_head 4 n [] ltac:(lia)) as (c & l & E & Hc & _). rewrite E in *.
  assert (c <> 45 /\ c <> 43) as [Hm Hpl] by lia.
  assert (match c :: l with 45 :: s => (true, s) | 43 :: s => (false, s) | _ => (false, c :: l) end = (false, c :: l)) as ->.
  { destruct c as [|p|p]; try done. do 6 (destruct p as [p|p|]; try done); lia. }
  unfold parse_uint16. rewrite Hp. cbn [mbind option_bind].
  destruct (_ <=? _) eqn:E1, (_ <? _) eqn:E2; bool_go; done || lia.
Qed.

Lemma print_uint16_word n : 0 <= n -> print_uint16 n <> [] /\ Forall word_char (print_uint16 n).
Proof.
  intros Hn. unfold print_uint16. destruct (dec_digits_head 4 n [] Hn) as (c & l & -> & Hc & Hl).
  split; [done|]. assert (Forall (fun c => 48 <= c <= 57) (c :: l)) as H by (constructor; [done|by apply Hl]).
  eapply Forall_impl; [exact H|]. intros x Hx. by left.
Qed.

Lemma hex_encode_word b : Forall byte_ok b -> Forall word_char (hex_encode b).
Proof.
  induction 1 as [|v b Hv Hb IH]; [constructor|]. cbn [hex_encode].
  assert (forall d, 0 <= d < 16 -> word_char (hextable d)) as Hd.
  { intros d Hd. apply hex_word_char. by rewrite hextable_fromHexChar. }
  unfold byte_ok in Hv. constructor; [|constructor]; [apply Hd|apply Hd|done].
  - rewrite Z.shiftr_div_pow2 by lia. split; [apply Z.div_pos; lia|]. apply Z.div_lt_upper_bound; lia.
  - change 15 with (Z.ones 4). rewrite Z.land_ones by lia. apply Z.mod_pos_bound. lia.
Qed.

(** The identity of a request. *)
Definition request_id (wire : list Z) : list Z := hex_encode (sha256 wire).
End rpc_props.

Section names.
  Context {L : NdnLib} {HL : NdnLibLaws L}.

Lemma segment_name wire n prefix :
  0 <= n < 2 ^ 16 ->
  DecodeSegmentName (ToName (MkSegReq (request_id wire) n) prefix) =
    if n <? 32768 then Some (MkSegReq (request_id wire) n) else None.
Proof.
  intros Hn. unfold ToName. cbn [sqId sqSegId]. destruct (print_uint16_word n) as [Hp1 Hp2]; [lia|].
  replace (47 :: request_id wire ++ 47 :: print_uint16 n) with ([request_id wire; print_uint16 n] ≫= fun w => 47 :: w)
    by (cbn; by rewrite app_nil_r).
  rewrite ParseName_words.
  2: { constructor; [split; [|apply hex_encode_word, sha256_bytes]|by repeat constructor].
    unfold request_id. pose proof (sha256_length wire) as Hl. by destruct (sha256 wire). }
  rewrite BuildName_concat. cbn [concat app fmap list_fmap]. unfold DecodeSegmentName. rewrite length_app. cbn [length].
  replace (length prefix + 2 - 2)%nat with (length prefix + 0)%nat by lia.
  replace (length prefix + 2 - 1)%nat with (length prefix + 1)%nat by lia.
  rewrite !lookup_app_r by lia. replace (length prefix + 0 - length prefix)%nat with 0%nat by lia.
  replace (length prefix + 1 - length prefix)%nat with 1%nat by lia.
  cbn [lookup list_lookup mbind option_bind cvalue]. rewrite ParseInt16_print by done.
  destruct (n <? 32768) eqn:E; [|done]. bool_go. cbn [option_bind mbind]. by rewrite wrap_id by (unfold fits; lia).
Qed.

(** A record whose fields are byte strings of moderate length. *)
Definition info_small (i : NdnNodeRecordInfo) : Prop :=
  rlp_ok i /\ Z.of_nat (length (iPrefix i)) < 2 ^ 20 /\ Z.of_nat (length (iPub i)) < 2 ^ 20.

Lemma info_size i : info_small i -> Z.of_nat (length (rlp_bytes (rlp_value i))) < 2 ^ 22.
Proof.
  intros (_ & H1 & H2). cbn [rlp_value rlp_info].
  pose proof (bytes_size (iPrefix i) ltac:(lia)). pose proof (bytes_size (iPub i) ltac:(lia)).
  pose proof (list_size [VBytes (iPrefix i); VBytes (iPub i)]) as Hl. cbn [sum_list_with] in Hl. lia.
Qed.

Lemma message_size m i w x y :
  0 <= m < 2 ^ 16 -> info_small i -> Z.of_nat (length w) < 2 ^ 24 ->
  Z.of_nat (length (rlp_bytes x)) < 2 ^ 10 -> Z.of_nat (length (rlp_bytes y)) < 2 ^ 10 ->
  Z.of_nat (length (rlp_bytes (VList [VUint m; rlp_value i; VBytes w; x; y]))) < 2 ^ 24 + 2 ^ 23.
Proof.
  intros Hm Hi Hw Hx Hy. pose proof (info_size i Hi). pose proof (uint_size m ltac:(lia)).
  pose proof (bytes_size w ltac:(lia)). pose proof (list_size [VUint m; rlp_value i; VBytes w; x; y]) as Hl.
  cbn [sum_list_with] in Hl. lia.
Qed.

Lemma params_size target k :
  Z.of_nat (length target) < 2 ^ 20 -> 0 <= k < 2 ^ 8 ->
  Z.of_nat (length (rlp_bytes (rlp_value (MkFindnodeParams target k)))) < 2 ^ 21.
Proof.
  intros Ht Hk. cbn [rlp_value rlp_findparams fpTarget fpK]. pose proof (bytes_size target ltac:(lia)).
  pose proof (uint_size k ltac:(lia)). pose proof (list_size [VBytes target; VUint k]) as Hl.
  cbn [sum_list_with] in Hl. lia.
Qed.
End names.

Section exchange.
  Context {L : NdnLib} {HL : NdnLibLaws L} {C : CryptoLib} {HC : CryptoLaws C}.

Lemma sign_size prv c sig : Crypto_Sign prv c = Some sig ->
  Forall byte_ok sig /\ Z.of_nat (length (rlp_bytes (VBytes sig))) < 2 ^ 10.
Proof.
  intros Hs. split; [by eapply sign_bytes|]. destruct (sign_verifies _ _ _ Hs) as [Hl _].
  pose proof (bytes_size sig). lia.
Qed.

Lemma info_item (i : NdnNodeRecordInfo) : rlp_ok i -> item_ok (item_of (rlp_value i)).
Proof. intros (H1 & H2 & _). exact (conj H1 (conj H2 I)). Qed.

Lemma peers_item (l : list NdnNodeRecordInfo) : Forall rlp_ok l -> item_ok (item_of (rlp_value (MkFindnodeResponse l))).
Proof.
  intros Hl. split; [|done]. simpl. induction Hl as [|i l Hi Hl IH]; [done|].
  split; [by apply info_item|done].
Qed.

Lemma response_item (r : KadRpcResponse) : rlp_ok r -> item_ok (item_of (rlp_value r)).
Proof.
  intros (Hm & Hs & Hw & He & Hg & _). cbn [rlp_value rlp_response item_of fmap list_fmap item_ok fold_right].
  split_and!; [apply item_ok_uint; lia|by apply info_item|done..].
Qed.

Lemma Findnode_request_ok prv me nonce target k :
  key_valid prv -> info_small me -> 0 <= nonce < 2 ^ 64 ->
  Forall byte_ok target -> Z.of_nat (length target) < 2 ^ 20 -> 0 <= k < 2 ^ 8 ->
  let p := MkFindnodeParams target k in
  exists sig, let q := MkRequest TtKadRpcFindnode me (rlp_bytes (rlp_value p)) nonce sig in
    Findnode_request prv me nonce target k = MkReq q (Some (ParamsFindnode p)) [] [] /\
    rlp_ok q /\ small (rlp_value q) /\ rlp_ok p /\ small (rlp_value p).
Proof.
  intros Hk Hme Hn Ht Hlen Hk8 p.
  assert (rlp_ok p) as Hp by done. pose proof (params_size target k Hlen Hk8) as Hps. fold p in Hps.
  assert (small (rlp_value p)) as Hsp by (unfold small; lia).
  assert (Forall byte_ok (rlp_bytes (rlp_value p))) as Hw.
  { apply rlp_bytes_ok; [|done]. split; [done|]. split; [|done]. apply item_ok_uint. simpl. lia. }
  assert (forall sig, Forall byte_ok sig -> Z.of_nat (length (rlp_bytes (VBytes sig))) < 2 ^ 10 ->
    let q := MkRequest TtKadRpcFindnode me (rlp_bytes (rlp_value p)) nonce sig in
    rlp_ok q /\ small (rlp_value q)) as Hq.
  { intros sig Hb Hl q. split; [split_and!; done || apply Hme || apply Hn|].
    pose proof (message_size TtKadRpcFindnode me (rlp_bytes (rlp_value p)) (VUint nonce) (VBytes sig)
      ltac:(done) Hme ltac:(lia) ltac:(pose proof (uint_size nonce Hn); lia) Hl) as Hm. unfold small. simpl in *. lia. }
  destruct (Hq []) as [Hok0 Hs0]; [constructor|done|].
  destruct (small_prefix [VUint TtKadRpcFindnode; rlp_value me; VBytes (rlp_bytes (rlp_value p))]
    [VUint nonce; VBytes []] Hs0) as [Hl _].
  unfold Findnode_request, request_Sign, encodeParams, request_content.
  cbn [rq qParamsW rq_params]. fold p. rewrite rlp_encode_ok by done.
  cbn [mbind option_bind set_paramsW rq qMethod qSender qParamsW qNonce qSig rq_params rq_wire rq_id].
  assert (value_ok (VList [VUint TtKadRpcFindnode; rlp_value me; VBytes (rlp_bytes (rlp_value p))])) as Hv.
  { apply value_ok_list, Forall_cons_2; [done|]. apply Forall_cons_2; [apply rlp_value_ok, Hme|].
    by apply Forall_singleton. }
  rewrite (proj1 (EncodeToBytes_ok _ Hv Hl)).
  destruct (Hk (encode_item (item_of (VList [VUint TtKadRpcFindnode; rlp_value me; VBytes (rlp_bytes (rlp_value p))]))))
    as [sig Hsig]. rewrite Hsig. exists sig. split; [done|].
  destruct (sign_size _ _ _ Hsig). destruct (Hq sig); done.
Qed.

(** What the server sends for a Findnode request: a signed response with the
    results, cut into segments. *)
Definition findnode_reply (record : NdnNodeRecordInfo) (x : FindnodeResponse) (sig : list Z) : KadRpcResponse :=
  MkResponse TtKadRpcFindnode record (rlp_bytes (rlp_value x)) [] sig.

Lemma findnode_reply_ok prv record peers :
  key_valid prv -> info_small record -> iPub record = c_pub prv -> Forall rlp_ok peers ->
  let x := MkFindnodeResponse peers in
  Z.of_nat (length (rlp_bytes (rlp_value x))) < 2 ^ 24 ->
  exists sig, let r := findnode_reply record x sig in
    response_Sign prv (MkResp (MkResponse TtKadRpcFindnode record [] [] []) (Some (ResultsFindnode x))) =
      MkResp r (Some (ResultsFindnode x)) /\ rlp_ok r /\
    Z.of_nat (length (rlp_bytes (rlp_value r))) < 2 ^ 24 + 2 ^ 23 /\
    rlp_ok x /\ small (rlp_value x) /\ forall res, response_Verify (MkResp r res) = Some true.
Proof.
  intros Hk Hr Hpub Hp x Hx. assert (rlp_ok x) as Hxo by (split; done).
  assert (small (rlp_value x)) as Hsx by (unfold small; lia).
  assert (Forall byte_ok (rlp_bytes (rlp_value x))) as Hb by (by apply rlp_bytes_ok; [apply peers_item|]).
  assert (forall sig, Forall byte_ok sig -> Z.of_nat (length (rlp_bytes (VBytes sig))) < 2 ^ 10 ->
    rlp_ok (findnode_reply record x sig) /\
    Z.of_nat (length (rlp_bytes (rlp_value (findnode_reply record x sig)))) < 2 ^ 24 + 2 ^ 23) as Hq.
  { intros sig Hbs Hl. split; [split_and!; try done; apply Hr || constructor|].
    exact (message_size TtKadRpcFindnode record (rlp_bytes (rlp_value x)) (VBytes []) (VBytes sig)
      ltac:(done) Hr Hx ltac:(done) Hl). }
  destruct (Hq []) as [Hok0 Hs0]; [constructor|done|].
  destruct (response_content_ok (findnode_reply record x []) Hok0) as (c & Hc); [unfold small; lia|].
  destruct (response_Sign_Verify prv TtKadRpcFindnode record (ResultsFindnode x) (rlp_bytes (rlp_value x)) Hk Hpub)
    as (sig & Hsig & Hbs & Hv); [apply rlp_bytes_nonempty|by apply rlp_encode_ok|by exists c|].
  exists sig. assert (Z.of_nat (length (rlp_bytes (VBytes sig))) < 2 ^ 10) as Hl.
  { pose proof Hsig as E. unfold response_Sign, encodeResults in E. cbn [rp pResultsW rp_results] in E.
    rewrite rlp_encode_ok in E by done. cbn [mbind option_bind rp pMethod pSender pErr pSig] in E.
    change (MkResponse TtKadRpcFindnode record (rlp_bytes (rlp_value x)) [] []) with (findnode_reply record x []) in E.
    rewrite Hc in E. destruct (Hk c) as [sg Hsg]. rewrite Hsg in E. injection E as ->. by eapply sign_size. }
  destruct (Hq sig Hbs Hl). done.
Qed.

(** The answer to the first request leaves the whole response in the cache. *)
Lemma exchange_first_ok sv prv now me nonce target k sig record peers n' :
  let p := MkFindnodeParams target k in
  let q := MkRequest TtKadRpcFindnode me (rlp_bytes (rlp_value p)) nonce sig in
  let x := MkFindnodeResponse peers in
  rlp_ok q -> small (rlp_value q) -> rlp_ok p -> small (rlp_value p) ->
  node_Record (sv_node sv) = Some record ->
  Api_Findnode (sv_node sv) me p = Some (x, n') ->
  exchange_first sv prv now (MkReq q (Some (ParamsFindnode p)) [] []) =
    match rlp_encode (rp (response_Sign prv (MkResp (MkResponse TtKadRpcFindnode record [] [] []) (Some (ResultsFindnode x))))) with
    | Some wire =>
      '(segment, num, c) ← Cache (sv_cacher sv) (request_id (rlp_bytes (rlp_value q))) wire;
      Some (Ok (segment_msg segment 0 num), MkServer n' c)
    | None => Some (Ok (segment_msg [] 0 0), MkServer n' (sv_cacher sv))
    end.
Proof.
  intros p q x Hq Hsq Hp Hsp Hrec Hapi.
  unfold exchange_first, WriteRequest. change (0 =? 0) with true. cbn [fst MarshalTlv m_request].
  assert (encodeParams (MkReq q (Some (ParamsFindnode p)) [] []) = Some (MkReq q (Some (ParamsFindnode p)) [] [])) as Hep.
  { unfold encodeParams. pose proof (rlp_bytes_nonempty (rlp_value p)). cbn [rq qParamsW q].
    by destruct (rlp_bytes (rlp_value p)). }
  rewrite Hep. cbn [mbind option_bind rq m_type]. rewrite rlp_encode_ok by done. cbn [mbind option_bind].
  unfold UnmarshalTlv. change (TtRpcReq =? TtRpcReq) with true. cbn iota. rewrite rlp_decode_ok by done.
  unfold decodeParams. cbn [rq rq_wire rq_id]. change (qMethod q) with TtKadRpcFindnode.
  change (TtKadRpcFindnode =? TtKadRpcPing) with false. change (TtKadRpcFindnode =? TtKadRpcFindnode) with true.
  cbn iota. change (qParamsW q) with (rlp_bytes (rlp_value p)). rewrite rlp_decode_ok by done.
  unfold ExtractQuery. cbn [m_type m_request fmap option_fmap option_map]. change (TtRpcReq =? TtRpcReq) with true. cbn iota.
  unfold server_GetSegment, getId. cbn [rq_id rq_wire rq rq_params]. rewrite rlp_encode_ok by done.
  change (0 <? 0) with false. cbn iota. unfold serve_request. rewrite Hrec. cbn [mbind option_bind rq rq_params].
  change (qMethod q) with TtKadRpcFindnode.
  change (TtKadRpcFindnode =? TtKadRpcPing) with false. change (TtKadRpcFindnode =? TtKadRpcFindnode) with true.
  cbn iota. change (qSender q) with me. rewrite Hapi. reflexivity.
Qed.

Lemma chunk_bytes n wire i : Forall byte_ok wire -> Forall byte_ok (chunk n wire i).
Proof. intros H. unfold chunk. by apply Forall_take, Forall_drop. Qed.

Lemma nsegs_bound len : Z.of_nat len < 2 ^ 24 + 2 ^ 23 -> Z.of_nat (nsegs 1000 len) < 32768.
Proof.
  intros Hl. unfold nsegs. rewrite Nat2Z.inj_div. apply Z.div_lt_upper_bound; lia.
Qed.

(** The server as seen through the transport keeps the promise of a segment
    server for the response that it signed. *)
Lemma transport_serves sv prv now prefix q p wire n' :
  rlp_ok q -> small (rlp_value q) ->
  cacher_inv (sv_cacher sv) -> ssize (sv_cacher sv) = 1000%nat ->
  objmap (sv_cacher sv) !! request_id (rlp_bytes (rlp_value q)) = None ->
  wire <> [] -> Forall byte_ok wire -> Z.of_nat (length wire) < 2 ^ 24 + 2 ^ 23 ->
  let r := MkReq q p [] [] in
  exchange_first sv prv now r =
    ('(segment, num, c) ← Cache (sv_cacher sv) (request_id (rlp_bytes (rlp_value q))) wire;
     Some (Ok (segment_msg segment 0 num), MkServer n' c)) ->
  SegmentServer (fun i => rpc_transport sv prv now prefix r 0 (Z.of_nat i)) wire
    (nsegs 1000 (length wire)) (chunk 1000 wire).
Proof.
  intros Hq Hsq Hinv Hss Hfresh Hne Hb Hlen r Hfirst.
  assert (0 < length wire)%nat as Hpos by (destruct wire; [done|simpl; lia]).
  assert (0 < nsegs 1000 (length wire))%nat as Hn0 by (apply nsegs_spec; lia).
  assert (Z.of_nat (nsegs 1000 (length wire)) < 32768) as Hn1.
  { by apply nsegs_bound. }
  destruct (Cache_served (sv_cacher sv) (request_id (rlp_bytes (rlp_value q))) wire Hinv Hfresh Hpos)
    as (c & Hc & Hget); rewrite Hss in *; [lia|]. rewrite Hc in Hfirst. cbn [mbind option_bind] in Hfirst.
  assert (forall i, Z.of_nat (length (chunk 1000 wire i)) < 2 ^ 31) as Hcl.
  { intros i. unfold chunk. rewrite length_take. lia. }
  split; [lia| |by apply chunks_concat; lia].
  intros i Hi. unfold rpc_transport. rewrite Hfirst. destruct (decide (i = 0%nat)) as [->|Hi0].
  { change (Z.of_nat 0 =? 0) with true. cbn iota. apply segment_reply; [by apply chunk_bytes|lia..|done]. }
  rewrite (proj2 (Z.eqb_neq (Z.of_nat i) 0)) by lia.
  unfold getId. cbn [rq_id rq_wire rq r fst]. rewrite rlp_encode_ok by done. unfold exchange_segment.
  change (hex_encode (sha256 (rlp_bytes (rlp_value q)))) with (request_id (rlp_bytes (rlp_value q))).
  rewrite segment_name, (proj2 (Z.ltb_lt (Z.of_nat i) 32768)) by lia.
  unfold server_GetSegment, serve_cached. cbn [sqId sqSegId sv_cacher]. rewrite Hget by lia.
  cbn [mbind option_bind fmap option_fmap option_map fst]. apply segment_reply; [by apply chunk_bytes|lia..|done].
Qed.

(** C4. A Findnode query end to end: the signed request is marshalled and
    decoded by the server, which answers with the closest peers of its own
    table, signs the response, cuts it into segments and caches them; the
    client fetches the segments by name, puts them together, decodes and
    verifies.  For any query with a fresh identity the client obtains exactly
    the list of peers that the server computed, and then updates its record of
    the peer. *)
Theorem findnode_end_to_end sv cprv sprv now prefix me nonce target k record peers n' fuel st peer :
  key_valid cprv -> key_valid sprv -> info_small me -> info_small record ->
  0 <= nonce < 2 ^ 64 -> Forall byte_ok target -> Z.of_nat (length target) < 2 ^ 20 -> 0 <= k < 2 ^ 8 ->
  node_Record (sv_node sv) = Some record -> iPub record = c_pub sprv ->
  Api_Findnode (sv_node sv) me (MkFindnodeParams target k) = Some (MkFindnodeResponse peers, n') ->
  Forall rlp_ok peers -> Z.of_nat (length (rlp_bytes (rlp_value (MkFindnodeResponse peers)))) < 2 ^ 24 ->
  cacher_inv (sv_cacher sv) -> ssize (sv_cacher sv) = 1000%nat ->
  let r := Findnode_request cprv me nonce target k in
  objmap (sv_cacher sv) !! (getId r).1 = None -> 32768 <= Z.of_nat fuel ->
  exists obj, FetchObject fuel (rpc_transport sv sprv now prefix r) = Some (obj, None) /\
    client_request st peer (obj, None) =
      '(st, _) ← UpdateNodeRecord st peer record; Some (Ok (ResultsFindnode (MkFindnodeResponse peers)), st).
Proof.
  intros Hkc Hks Hme Hrec Hn Ht Htl Hk8 Hnode Hpub Hapi Hpeers Hsize Hinv Hss r Hfresh Hfuel.
  destruct (Findnode_request_ok cprv me nonce target k Hkc Hme Hn Ht Htl Hk8) as (csig & Er & Hq & Hsq & Hp & Hsp).
  subst r. rewrite Er in *. destruct (findnode_reply_ok sprv record peers Hks Hrec Hpub Hpeers Hsize)
    as (ssig & Hsign & Hro & Hrl & Hxo & Hxs & Hver).
  set (reply := findnode_reply record (MkFindnodeResponse peers) ssig) in *.
  assert (small (rlp_value reply)) as Hrs by (unfold small; lia).
  unfold getId in Hfresh. cbn [rq_id rq_wire rq fst] in Hfresh. rewrite rlp_encode_ok in Hfresh by done.
  pose proof (exchange_first_ok sv sprv now me nonce target k csig record peers n' Hq Hsq Hp Hsp Hnode Hapi) as Hfirst.
  rewrite Hsign in Hfirst. cbn [rp] in Hfirst. rewrite rlp_encode_ok in Hfirst by done.
  pose proof (transport_serves sv sprv now prefix _ (Some (ParamsFindnode (MkFindnodeParams target k)))
    (rlp_bytes (rlp_value reply)) n' Hq Hsq Hinv Hss Hfresh (rlp_bytes_nonempty _)
    (rlp_bytes_ok _ (response_item _ Hro) Hrs) Hrl Hfirst) as Hserve.
  exists (rlp_bytes (rlp_value reply)). split.
  - destruct (server_count (SegmentServer := Hserve)) as [Hn0 Hn1].
    unfold FetchObject. erewrite FetchObject_loop_ext.
    + rewrite (FetchObject_loop_served _ _ _ _ _ _ _ Hserve).
      * rewrite Nat.sub_0_r. by rewrite (server_wire (SegmentServer := Hserve)).
      * done.
      * pose proof (nsegs_bound _ Hrl). lia.
    + intros n. cbv beta. rewrite Z2Nat.id; [done|]. apply Z.mod_pos_bound. lia.
  - cbn [client_request]. by apply client_finish_ok.
Qed.
End exchange.

Section client_props.
  Context {L : NdnLib} {HL : NdnLibLaws L} {C : CryptoLib}.

(** A response whose signature is the empty string crashes the client:
    the signature check slices off the last byte before it looks at the
    length. *)
Theorem client_empty_signature_panics st peer record peers :
  info_small record -> Forall rlp_ok peers ->
  Z.of_nat (length (rlp_bytes (rlp_value (MkFindnodeResponse peers)))) < 2 ^ 24 ->
  client_finish st peer (rlp_bytes (rlp_value (findnode_reply record (MkFindnodeResponse peers) []))) = None.
Proof.
  intros Hr Hp Hx. set (x := MkFindnodeResponse peers) in *.
  assert (rlp_ok x) as Hxo by (split; done). assert (small (rlp_value x)) as Hsx by (unfold small; lia).
  assert (rlp_ok (findnode_reply record x [])) as Hro.
  { split_and!; try done; [apply Hr..|]. by apply rlp_bytes_ok; [apply peers_item|]. }
  pose proof (message_size TtKadRpcFindnode record (rlp_bytes (rlp_value x)) (VBytes []) (VBytes [])
      ltac:(done) Hr Hx ltac:(done) ltac:(done)) as Hl.
  assert (small (rlp_value (findnode_reply record x []))) as Hrs by (unfold small; simpl in *; lia).
  destruct (response_content_ok _ Hro Hrs) as (c & Hc).
  unfold client_finish. rewrite rlp_decode_ok by done. unfold decodeResults. cbn [rp].
  change (pMethod (findnode_reply record x [])) with TtKadRpcFindnode.
  change (TtKadRpcFindnode =? TtKadRpcPing) with false. change (TtKadRpcFindnode =? TtKadRpcFindnode) with true.
  cbn iota. change (pResultsW (findnode_reply record x [])) with (rlp_bytes (rlp_value x)).
  rewrite rlp_decode_ok by done. unfold response_Verify, encodeResults. cbn [rp].
  change (pResultsW (findnode_reply record x [])) with (rlp_bytes (rlp_value x)).
  destruct (rlp_bytes (rlp_value x)) eqn:E; [by apply rlp_bytes_nonempty in E|]. cbn [rp].
  rewrite Hc. done.
Qed.

(** The name of segment [n] of a request is decoded to the same request
    and number for [n < 32768]; from there on the producer cannot decode the
    name, although segment numbers have 16 bits and a response may have up to
    65535 segments. *)
Theorem segment_name_decoding wire prefix n :
  0 <= n < 2 ^ 16 ->
  (n < 32768 -> DecodeSegmentName (ToName (MkSegReq (request_id wire) n) prefix) = Some (MkSegReq (request_id wire) n)) /\
  (32768 <= n -> DecodeSegmentName (ToName (MkSegReq (request_id wire) n) prefix) = None).
Proof.
  intros Hn. split; intros H; rewrite segment_name by done; destruct (n <? 32768) eqn:E; bool_go; done || lia.
Qed.
End client_props.

(** ** Witnesses *)

Lemma demo_key_valid prv : key_valid (C := demo_crypto) prv.
Proof.
  intros content. unfold Crypto_Sign. cbn [c_sign demo_crypto]. rewrite decide_True; [done|]. split.
  - apply Forall_fmap, Forall_true. intros x. apply u8_ok.
  - cbn [c_keccak256 demo_crypto]. rewrite length_fmap, length_take, length_app, length_replicate. lia.
Qed.

Definition demo_peers : list NdnNodeRecordInfo := [MkInfo [47; 37; 48; 53] [9; 9]].

Lemma demo_peers_ok : Forall rlp_ok demo_peers.
Proof. repeat constructor; simpl; lia. Qed.

Lemma demo_info_small a b : Forall byte_ok a -> Forall byte_ok b -> (length a < 100)%nat -> (length b < 100)%nat ->
  info_small (MkInfo a b).
Proof. intros Ha Hb Hl Hm. split; [by repeat split|]. simpl. lia. Qed.

Lemma client_empty_signature_panics_witness :
  client_finish (nstore demo_node) (nself demo_node)
    (rlp_bytes (rlp_value (findnode_reply (MkInfo [47; 54] [9; 9]) (MkFindnodeResponse demo_peers) []))) = None.
Proof.
  apply (client_empty_signature_panics (nstore demo_node) (nself demo_node) (MkInfo [47; 54] [9; 9]) demo_peers).
  - apply demo_info_small; repeat constructor; simpl; lia.
  - apply demo_peers_ok.
  - vm_compute. reflexivity.
Defined.

Lemma segment_name_decoding_witness :
  (7 < 32768 -> DecodeSegmentName (ToName (MkSegReq (request_id [1]) 7) []) = Some (MkSegReq (request_id [1]) 7)) /\
  (32768 <= 7 -> DecodeSegmentName (ToName (MkSegReq (request_id [1]) 7) []) = None).
Proof. apply (segment_name_decoding [1] [] 7); lia. Defined.

Lemma findnode_end_to_end_witness :
  let sv := MkServer demo_node (NewSimpleCacher 1000 100) in
  let me := MkInfo [7] [8] in
  let target := hex_encode (demo_id 3) in
  exists obj, FetchObject (Z.to_nat 32768) (rpc_transport sv [9; 9] 7 [] (Findnode_request [5] me 3 target 4)) = Some (obj, None) /\
    client_request (nstore demo_node) (nself demo_node) (obj, None) =
      '(st, _) ← UpdateNodeRecord (nstore demo_node) (nself demo_node) (MkInfo [47; 37; 48; 53] [9; 9]);
      Some (Ok (ResultsFindnode (MkFindnodeResponse demo_peers)), st).
Proof.
  intros sv me target.
  assert (is_Some (snd <$> Api_Findnode demo_node me (MkFindnodeParams target 4))) as [n' Hn'] by (vm_compute; eauto).
  apply (findnode_end_to_end sv [5] [9; 9] 7 [] me 3 target 4 (MkInfo [47; 37; 48; 53] [9; 9]) demo_peers n').
  - apply demo_key_valid.
  - apply demo_key_valid.
  - apply demo_info_small; repeat constructor; simpl; lia.
  - apply demo_info_small; repeat constructor; simpl; lia.
  - lia.
  - repeat constructor; vm_compute; done.
  - vm_compute. reflexivity.
  - lia.
  - vm_compute. reflexivity.
  - reflexivity.
  - simpl sv_node. assert (frPeers <$> (fst <$> Api_Findnode demo_node me (MkFindnodeParams target 4)) = Some demo_peers) as E
      by (vm_compute; reflexivity).
    destruct (Api_Findnode demo_node me (MkFindnodeParams target 4)) as [[[l] n]|]; [|done].
    simpl in *. by simplify_eq.
  - apply demo_peers_ok.
  - vm_compute. reflexivity.
  - apply NewSimpleCacher_inv; lia.
  - reflexivity.
  - reflexivity.
  - lia.
Defined.
