(* ===== verification/Dh.v ===== *)
(** * Diffie-Hellman key exchange ([src/dhkx])

    The two ends of a connection derive their shared secret from it.  Moduli
    and keys are big integers; the random source is the list of its draws. *)

From Stdlib Require Import Zpow_facts.
From S2P Require Import Prelude Bytes Rlp.
Local Open Scope Z_scope.

(** A group made by [GetGroup] or [CreateGroup] has a modulus. *)
Record DHGroup := MkGroup { gp : Z; gg : Z }.
Record DHKey := MkKey { kx : option Z; ky : option Z; kgroup : option DHGroup }.

Definition P (g : DHGroup) : Z := gp g.
Definition G (g : DHGroup) : Z := gg g.

(** [big.Int.Exp] with a positive modulus. *)
Definition Exp (x y m : Z) : Z := Zpow_mod x y m.

(** The draws below [p] until one is not zero; [None] is an error of the
    random source. *)
Fixpoint draw_nonzero (draws : list Z) : option Z :=
  match draws with
  | [] => None
  | x :: draws => if x =? 0 then draw_nonzero draws else Some x
  end.

Definition GeneratePrivateKey (self : DHGroup) (draws : list Z) : option DHKey :=
  x ← draw_nonzero draws;
  Some (MkKey (Some x) (Some (Exp (gg self) x (gp self))) (Some self)).

Definition prime1 : Z :=
  0xFFFFFFFFFFFFFFFFC90FDAA22168C234C4C6628B80DC1CD129024E088A67CC74020BBEA63B139B22514A08798E3404DDEF9519B3CD3A431B302B0A6DF25F14374FE1356D6D51C245E485B576625E7EC6F44C42E9A63A3620FFFFFFFFFFFFFFFF.
Definition prime2 : Z :=
  0xFFFFFFFFFFFFFFFFC90FDAA22168C234C4C6628B80DC1CD129024E088A67CC74020BBEA63B139B22514A08798E3404DDEF9519B3CD3A431B302B0A6DF25F14374FE1356D6D51C245E485B576625E7EC6F44C42E9A637ED6B0BFF5CB6F406B7EDEE386BFB5A899FA5AE9F24117C4B1FE649286651ECE65381FFFFFFFFFFFFFFFF.
Definition prime14 : Z :=
  0xFFFFFFFFFFFFFFFFC90FDAA22168C234C4C6628B80DC1CD129024E088A67CC74020BBEA63B139B22514A08798E3404DDEF9519B3CD3A431B302B0A6DF25F14374FE1356D6D51C245E485B576625E7EC6F44C42E9A637ED6B0BFF5CB6F406B7EDEE386BFB5A899FA5AE9F24117C4B1FE649286651ECE45B3DC2007CB8A163BF0598DA48361C55D39A69163FA8FD24CF5F83655D23DCA3AD961C62F356208552BB9ED529077096966D670C354E4ABC9804F1746C08CA18217C32905E462E36CE3BE39E772C180E86039B2783A2EC07A28FB5C55DF06F4C52C9DE2BCBF6955817183995497CEA956AE515D2261898FA051015728E5A8AACAA68FFFFFFFFFFFFFFFF.

Definition GetGroup (groupID : Z) : option DHGroup :=
  let groupID := if groupID <=? 0 then 14 else groupID in
  if groupID =? 1 then Some (MkGroup prime1 2)
  else if groupID =? 2 then Some (MkGroup prime2 2)
  else if groupID =? 14 then Some (MkGroup prime14 2)
  else None.

Definition CreateGroup (prime generator : Z) : DHGroup := MkGroup prime generator.

Inductive dherr := DHInvalidPublic | DHOutOfBounds | DHInvalidPrivate.

Definition ComputeKey (self : DHGroup) (pubkey privkey : DHKey) : res dherr DHKey :=
  match ky pubkey with
  | None => Err DHInvalidPublic
  | Some y =>
    if (y <=? 0) || (gp self <=? y) then Err DHOutOfBounds
    else match kx privkey with
    | None => Err DHInvalidPrivate
    | Some x => Ok (MkKey None (Some (Exp y x (gp self))) (Some self))
    end
  end.

(** [copyWithLeftPad]: a source longer than the destination panics. *)
Definition copyWithLeftPad (dest : nat) (src : list Z) : option (list Z) :=
  if (dest <? length src)%nat then None
  else Some (replicate (dest - length src) 0 ++ src).

Definition BitLen (n : Z) : Z := if n =? 0 then 0 else Z.log2 (Z.abs n) + 1.

Definition Bytes (self : DHKey) : option (list Z) :=
  match ky self with
  | None => Some []
  | Some y =>
    match kgroup self with
    | Some g => copyWithLeftPad (Z.to_nat ((BitLen (gp g) + 7) / 8)) (big_bytes y)
    | None => Some (big_bytes y)
    end
  end.

Definition NewPublicKey (s : list Z) : DHKey := MkKey None (Some (be_value s)) None.

Definition IsPrivateKey (self : DHKey) : bool := match kx self with Some _ => true | None => false end.

(** ** Agreement *)

Definition group_ok (g : DHGroup) : Prop := 1 < gp g /\ Z.gcd (gp g) (gg g) = 1.

Lemma GetGroup_ok id g : GetGroup id = Some g -> group_ok g.
Proof.
  assert (forall p, 1 < p -> p mod 2 = 1 -> group_ok (MkGroup p 2)) as H.
  { intros p Hp Ho. split; [done|]. simpl. rewrite Z.gcd_comm, <- Z.gcd_mod, Ho by lia. done. }
  unfold GetGroup. repeat case_match; intros [= <-]; apply H; vm_compute; done.
Qed.

Lemma Exp_spec x y m : 0 <= y -> 1 < m -> Exp x y m = x ^ y mod m.
Proof. intros Hy Hm. unfold Exp. apply Zpow_mod_correct. lia. Qed.

Lemma Exp_range x y m : 0 <= y -> 1 < m -> 0 <= Exp x y m < m.
Proof. intros Hy Hm. rewrite Exp_spec by done. apply Z.mod_pos_bound. lia. Qed.

Lemma Exp_unit g x : group_ok g -> 0 <= x -> 0 < Exp (gg g) x (gp g).
Proof.
  intros [Hp Hr] Hx. pose proof (Exp_range (gg g) x (gp g) Hx Hp) as Hb.
  destruct (decide (Exp (gg g) x (gp g) = 0)) as [E|]; [|lia]. rewrite Exp_spec in E by done.
  apply Z.mod_divide in E; [|lia].
  assert (forall n, 0 <= n -> (gp g | gg g ^ n) -> (gp g | 1)) as H.
  { apply (natlike_ind (fun n => (gp g | gg g ^ n) -> (gp g | 1))); [by rewrite Z.pow_0_r|].
    intros n Hn IH Hd. rewrite Z.pow_succ_r in Hd by done. apply IH. by apply (Z.gauss _ (gg g)). }
  apply H in E; [|done]. apply Z.divide_1_r_nonneg in E; lia.
Qed.

Lemma bytes_roundtrip n y :
  0 <= y -> (length (big_bytes y) <= n)%nat ->
  exists b, copyWithLeftPad n (big_bytes y) = Some b /\ be_value b = y /\ length b = n.
Proof.
  intros Hy Hl. unfold copyWithLeftPad. rewrite (proj2 (Nat.ltb_ge _ _)) by done.
  eexists. split; [done|]. destruct (big_bytes_spec y Hy) as (_ & _ & Hv). split.
  - rewrite be_value_app, Hv. induction (n - length (big_bytes y))%nat as [|k IH]; simpl; lia.
  - rewrite length_app, length_replicate. lia.
Qed.

Lemma big_bytes_length p y :
  1 < p -> 0 <= y < p -> (length (big_bytes y) <= Z.to_nat ((BitLen p + 7) / 8))%nat.
Proof.
  intros Hp Hy. destruct (big_bytes_spec y) as (Hok & Hc & Hv); [lia|].
  destruct (big_bytes y) as [|x l]; [simpl; lia|]. simpl in Hc.
  pose proof (canonical_lower x l Hok Hc) as Hlow. rewrite Hv in Hlow.
  unfold BitLen. rewrite (proj2 (Z.eqb_neq p 0)), Z.abs_eq by lia.
  pose proof (Z.log2_spec p ltac:(lia)) as [_ Hlog].
  assert (2 ^ (8 * Z.of_nat (length l)) < 2 ^ Z.succ (Z.log2 p)) as Hlt.
  { rewrite Z.pow_mul_r by lia. change (2 ^ 8) with 256. lia. }
  apply Z.pow_lt_mono_r_iff in Hlt; [|lia|pose proof (Z.log2_nonneg p); lia].
  simpl length. assert (Z.of_nat (length l) + 1 <= (Z.log2 p + 1 + 7) / 8); [|lia].
  apply Z.div_le_lower_bound; lia.
Qed.

Lemma draw_nonzero_in draws x : draw_nonzero draws = Some x -> x ∈ draws /\ x <> 0.
Proof.
  induction draws as [|d draws IH]; simpl; [done|]. case_match eqn:E; bool_go.
  - intros H. destruct (IH H). set_solver.
  - intros [= <-]. set_solver.
Qed.

(** A pair of keys of a group, as generated. *)
Definition key_of (g : DHGroup) (k : DHKey) : Prop :=
  exists x, 0 < x < gp g /\ k = MkKey (Some x) (Some (Exp (gg g) x (gp g))) (Some g).

Lemma GeneratePrivateKey_key g draws k :
  Forall (fun x => 0 <= x < gp g) draws -> GeneratePrivateKey g draws = Some k -> key_of g k.
Proof.
  intros Hd. unfold GeneratePrivateKey. destruct (draw_nonzero draws) as [x|] eqn:E; simpl; [|done].
  intros [= <-]. apply draw_nonzero_in in E as [Hin Hx]. rewrite Forall_forall in Hd.
  pose proof (Hd _ Hin). exists x. split; [lia|done].
Qed.

(** The public part of a key is transmitted and gives the key of [g^xy]. *)
Lemma dh_compute g a b :
  group_ok g -> key_of g a -> key_of g b ->
  exists wire k, Bytes b = Some wire /\ ComputeKey g (NewPublicKey wire) a = Ok k /\
    match kx a, kx b with
    | Some x, Some y => k = MkKey None (Some (gg g ^ (x * y) mod gp g)) (Some g)
    | _, _ => False
    end.
Proof.
  intros Hg (x & Hx & ->) (y & Hy & ->). pose proof Hg as [Hp _].
  pose proof (Exp_range (gg g) y (gp g) ltac:(lia) Hp) as Hr. pose proof (Exp_unit g y Hg ltac:(lia)) as Hu.
  destruct (bytes_roundtrip (Z.to_nat ((BitLen (gp g) + 7) / 8)) (Exp (gg g) y (gp g))) as (w & Hw & Hv & _);
    [lia|by apply big_bytes_length|].
  exists w. eexists. split; [exact Hw|]. unfold ComputeKey, NewPublicKey. cbn [ky kx]. rewrite Hv.
  rewrite (proj2 (Z.leb_gt _ _)), (proj2 (Z.leb_gt _ _)) by lia. cbn [orb]. split; [done|].
  do 2 f_equal. rewrite !Exp_spec by lia. rewrite <- Zpower_mod by lia.
  rewrite <- Z.pow_mul_r by lia. by rewrite Z.mul_comm.
Qed.

(** Both ends compute the same key. *)
Lemma dh_agree g a b :
  group_ok g -> key_of g a -> key_of g b ->
  exists wa wb k wk, Bytes a = Some wa /\ Bytes b = Some wb /\
    ComputeKey g (NewPublicKey wb) a = Ok k /\ ComputeKey g (NewPublicKey wa) b = Ok k /\ Bytes k = Some wk.
Proof.
  intros Hg Ha Hb. destruct (dh_compute g a b Hg Ha Hb) as (wb & k & Hwb & Hk & Ek).
  destruct (dh_compute g b a Hg Hb Ha) as (wa & k' & Hwa & Hk' & Ek').
  destruct Ha as (x & Hx & ->), Hb as (y & Hy & ->). cbn [kx] in *. subst.
  rewrite (Z.mul_comm y x) in Hk'. pose proof Hg as [Hp _].
  destruct (bytes_roundtrip (Z.to_nat ((BitLen (gp g) + 7) / 8)) (gg g ^ (x * y) mod gp g)) as (wk & Hw & _);
    [apply Z.mod_pos_bound; lia|apply big_bytes_length; [done|apply Z.mod_pos_bound; lia]|].
  by exists wa, wb, (MkKey None (Some (gg g ^ (x * y) mod gp g)) (Some g)), wk.
Qed.
