(* ===== verification/WorkerPool.v ===== *)
(** * The worker pool ([src/ndn/utils/workerpool.go])

    The pool as a transition system: the dispatcher goroutine [run], the
    workers, and the callers of [Submit] and [Stop].  A channel is the list of
    its buffered values; every step is one operation on a channel, or the
    execution of a job.  A job is a number. *)

From S2P Require Import Prelude.

(** Where a worker is: about to register its channel, waiting, executing a
    job, or gone. *)
Inductive worker_pc := WRegister | WSelect | WExecute (j : nat) | WDone.

#[export] Instance worker_pc_eq_dec : EqDecision worker_pc.
Proof. solve_decision. Defined.

Record Worker := MkWorker {
  wpc : worker_pc;
  wjob : option nat;      (* its job channel, with room for one job *)
  wquit : bool;           (* [quit] is closed *)
}.

(** Where [run] is: waiting for a worker, for a job for worker [w], about to
    send job [j] to worker [w], or gone. *)
Inductive run_pc := RunWorker | RunJob (w : nat) | RunSend (w j : nat) | RunDone.

(** Where [Stop] is: not called, jobs refused, [jobCh] closed and the quit
    channels of the first [k] workers closed, [workerCh] closed. *)
Inductive stop_pc := NotStopped | Refusing | Stopping (k : nat) | Stopped.

Record workerPool := MkPool {
  workers : list Worker;
  workerCh : list nat;
  jobCh : list nat;       (* with room for one job *)
  runpc : run_pc;
  stoppc : stop_pc;
  submitted : list nat;   (* all jobs that were accepted, in order *)
  executed : list nat;    (* all jobs that were executed, in order *)
}.

Definition NewWorkerPool (num : nat) : workerPool :=
  MkPool (replicate num (MkWorker WRegister None false)) [] [] RunWorker NotStopped [] [].

Definition jobs_closed (p : workerPool) : bool :=
  match stoppc p with Stopping _ | Stopped => true | _ => false end.

Definition set_worker (p : workerPool) (i : nat) (w : Worker) : workerPool :=
  MkPool (<[i := w]> (workers p)) (workerCh p) (jobCh p) (runpc p) (stoppc p) (submitted p) (executed p).
Definition set_run (p : workerPool) (wch jch : list nat) (pc : run_pc) : workerPool :=
  MkPool (workers p) wch jch pc (stoppc p) (submitted p) (executed p).
Definition set_stop (p : workerPool) (pc : stop_pc) : workerPool :=
  MkPool (workers p) (workerCh p) (jobCh p) (runpc p) pc (submitted p) (executed p).

(** [Submit]: [None] when it blocks on the channel, otherwise whether the job
    was accepted. *)
Definition Submit (p : workerPool) (j : nat) : option (bool * workerPool) :=
  match stoppc p with
  | NotStopped =>
    match jobCh p with
    | [] => Some (true, MkPool (workers p) (workerCh p) [j] (runpc p) (stoppc p) (submitted p ++ [j]) (executed p))
    | _ => None
    end
  | _ => Some (false, p)
  end.

(** One operation of [run]; [None] when it waits. *)
Definition run (p : workerPool) : option workerPool :=
  match runpc p with
  | RunWorker =>
    match workerCh p with
    | w :: wch => Some (set_run p wch (jobCh p) (RunJob w))
    | [] => match stoppc p with Stopped => Some (set_run p [] (jobCh p) RunDone) | _ => None end
    end
  | RunJob w =>
    match jobCh p with
    | j :: jch => Some (set_run p (workerCh p) jch (RunSend w j))
    | [] => if jobs_closed p then Some (set_run p (workerCh p) [] RunDone) else None
    end
  | RunSend w j =>
    wk ← workers p !! w;
    match wjob wk with
    | None => Some (set_worker (set_run p (workerCh p) (jobCh p) RunWorker) w (MkWorker (wpc wk) (Some j) (wquit wk)))
    | Some _ => None
    end
  | RunDone => None
  end.

(** [work] of worker [i]: registering, taking a job, the end of a job. *)
Definition work (p : workerPool) (i : nat) : option workerPool :=
  wk ← workers p !! i;
  match wpc wk with
  | WRegister =>
    Some (set_run (set_worker p i (MkWorker WSelect (wjob wk) (wquit wk))) (workerCh p ++ [i]) (jobCh p) (runpc p))
  | WSelect =>
    match wjob wk with
    | Some j => Some (set_worker p i (MkWorker (WExecute j) None (wquit wk)))
    | None => None
    end
  | WExecute j =>
    Some (MkPool (<[i := MkWorker WRegister (wjob wk) (wquit wk)]> (workers p)) (workerCh p) (jobCh p) (runpc p)
      (stoppc p) (submitted p) (executed p ++ [j]))
  | WDone => None
  end.

(** The other case of the [select]: a worker that was told to quit. *)
Definition work_quit (p : workerPool) (i : nat) : option workerPool :=
  wk ← workers p !! i;
  match wpc wk, wquit wk with
  | WSelect, true => Some (set_worker p i (MkWorker WDone (wjob wk) true))
  | _, _ => None
  end.

(** One operation of [Stop]: refuse jobs, close the job channel, tell the
    workers, wait for them and close their channel. *)
Definition Stop (p : workerPool) : option workerPool :=
  match stoppc p with
  | NotStopped => Some (set_stop p Refusing)
  | Refusing => Some (set_stop p (Stopping 0))
  | Stopping k =>
    match workers p !! k with
    | Some wk => Some (set_stop (set_worker p k (MkWorker (wpc wk) (wjob wk) true)) (Stopping (S k)))
    | None =>
      if forallb (fun wk => match wpc wk with WDone => true | _ => false end) (workers p)
      then Some (set_stop p Stopped) else None
    end
  | Stopped => None
  end.

Inductive pool_step (p : workerPool) : workerPool -> Prop :=
| step_submit j p' : Submit p j = Some (true, p') -> pool_step p p'
| step_run p' : run p = Some p' -> pool_step p p'
| step_work i p' : work p i = Some p' -> pool_step p p'
| step_quit i p' : work_quit p i = Some p' -> pool_step p p'
| step_stop p' : Stop p = Some p' -> pool_step p p'.

(** ** Where the jobs are *)

(** The jobs a worker has: in its channel and in execution. *)
Definition held (wk : Worker) : list nat :=
  match wjob wk with Some j => [j] | None => [] end ++ match wpc wk with WExecute j => [j] | _ => [] end.

Definition sending (pc : run_pc) : list nat := match pc with RunSend _ j => [j] | _ => [] end.

(** The jobs that were accepted and not executed yet. *)
Definition pending (p : workerPool) : list nat := jobCh p ++ sending (runpc p) ++ (workers p ≫= held).

(** The workers whose channel waits for a job. *)
Definition tokens (p : workerPool) : list nat :=
  workerCh p ++ match runpc p with RunJob w | RunSend w _ => [w] | _ => [] end.

(** A waiting worker has no job, and every worker without one is known to [run]. *)
Record pool_inv (p : workerPool) : Prop := MkPoolInv {
  pi_nodup : NoDup (tokens p);
  pi_tokens : forall i, i ∈ tokens p ->
    exists wk, workers p !! i = Some wk /\ wjob wk = None /\ (wpc wk = WSelect \/ wpc wk = WDone);
  pi_idle : forall i wk, workers p !! i = Some wk -> wpc wk = WSelect -> wjob wk = None -> runpc p <> RunDone -> i ∈ tokens p;
  pi_busy : forall i wk, workers p !! i = Some wk -> wjob wk <> None -> wpc wk = WSelect \/ wpc wk = WDone;
  pi_quit : forall i wk, workers p !! i = Some wk -> jobs_closed p = false -> wquit wk = false /\ wpc wk <> WDone;
  pi_done : runpc p = RunDone -> jobs_closed p = true;
  pi_count : submitted p ≡ₚ executed p ++ pending p;
}.

(** Look-up in the list of workers with worker [w] replaced. *)
Ltac worker_cases H i w :=
  destruct (decide (i = w)) as [->|];
  [rewrite list_lookup_insert_eq in H by (by eapply lookup_lt_Some); simplify_eq/=
  |rewrite list_lookup_insert_ne in H by done].

Lemma held_insert (l : list Worker) i wk wk' :
  l !! i = Some wk -> held wk ++ (<[i := wk']> l ≫= held) ≡ₚ held wk' ++ (l ≫= held).
Proof.
  revert i. induction l as [|x l IH]; intros [|i] Hi; [done|done| |].
  - cbn in Hi. injection Hi as ->. cbn. rewrite !app_assoc. f_equiv. apply Permutation_app_comm.
  - cbn in *. specialize (IH i Hi). rewrite (app_assoc (held wk)), (Permutation_app_comm (held wk)), <- app_assoc, IH.
    rewrite !app_assoc. f_equiv. apply Permutation_app_comm.
Qed.

Lemma pool_inv_new n : pool_inv (NewWorkerPool n).
Proof.
  assert (forall i wk, workers (NewWorkerPool n) !! i = Some wk -> wk = MkWorker WRegister None false) as Hw.
  { intros i wk Hi. cbn in Hi. by apply lookup_replicate in Hi as [-> _]. }
  split; [constructor|..].
  - intros i Hi. by apply not_elem_of_nil in Hi.
  - intros i wk Hi%Hw. by subst.
  - intros i wk Hi%Hw. by subst.
  - intros i wk Hi%Hw. by subst.
  - done.
  - clear Hw. induction n as [|n IH]; [done|exact IH].
Qed.

Lemma Submit_inv p j b p' : pool_inv p -> Submit p j = Some (b, p') -> pool_inv p'.
Proof.
  intros Hp. unfold Submit. destruct (stoppc p) eqn:Es; try by intros [= _ <-]. destruct (jobCh p) eqn:Ej; [|done].
  intros [= _ <-]. destruct Hp as [H1 H2 H3 H4 H5 H6 H7]. split; try done.
  - intros i wk Hi. unfold jobs_closed in *. cbn. rewrite Es in H5. by apply (H5 i wk).
  - intros Hr. specialize (H6 Hr). unfold jobs_closed in *. cbn. by rewrite Es in *.
  - cbn. unfold pending in *. cbn. rewrite H7, Ej. cbn. rewrite <- app_assoc. f_equiv. apply Permutation_app_comm.
Qed.

Lemma run_inv p p' : pool_inv p -> run p = Some p' -> pool_inv p'.
Proof.
  intros Hp. pose proof Hp as [H1 H2 H3 H4 H5 H6 H7]. unfold run, tokens, pending in *. destruct (runpc p) as [|w|w j|] eqn:Er; [| | |done].
  - destruct (workerCh p) as [|w wch] eqn:Ew.
    + destruct (stoppc p) eqn:Es; try done. intros [= <-]. split; unfold tokens, pending, jobs_closed; cbn; rewrite ?Es; done.
    + intros [= <-]. rewrite app_nil_r in H1, H2, H3.
      split; unfold tokens, pending; cbn; try done.
      * by rewrite <- Permutation_cons_append.
      * intros i Hi. apply H2. set_solver.
      * intros i wk Hi Hpc Hj _. specialize (H3 i wk Hi Hpc Hj ltac:(done)). set_solver.
  - destruct (jobCh p) as [|j jch] eqn:Ej.
    + destruct (jobs_closed p) eqn:Ec; [|done]. intros [= <-]. split; unfold tokens, pending; cbn; try done.
      * rewrite app_nil_r. by apply NoDup_app in H1 as (? & _).
      * intros i Hi. apply H2. set_solver.
      * intros i wk Hi Hc. unfold jobs_closed in *. cbn in Hc. congruence.
    + intros [= <-]. split; unfold tokens, pending; cbn; try done.
      * intros i wk Hi Hpc Hj _. by apply (H3 i wk Hi Hpc Hj).
      * rewrite H7. f_equiv. cbn. apply Permutation_middle.
  - destruct (H2 w ltac:(set_solver)) as (wk & Hwk & Hj & Hpc). rewrite Hwk. cbn. rewrite Hj. intros [= <-].
    apply NoDup_app in H1 as (H1 & Hn & _).
    split; unfold tokens, pending, set_worker, set_run; cbn; rewrite ?app_nil_r; try done.
    + intros i Hi. assert (i <> w) by (intros ->; apply (Hn w Hi); set_solver).
      destruct (H2 i ltac:(set_solver)) as (wk' & Hwk' & ?). exists wk'. by rewrite list_lookup_insert_ne.
    + intros i wk' Hi Hpc' Hj' _. worker_cases Hi i w; try done. specialize (H3 i wk' Hi Hpc' Hj' ltac:(done)). set_solver.
    + intros i wk' Hi Hj'. worker_cases Hi i w; try done. by apply (H4 i wk').
    + intros i wk' Hi Hc. worker_cases Hi i w; [by apply (H5 w wk)|by apply (H5 i wk')].
    + rewrite H7. do 2 f_equiv. cbn. pose proof (held_insert (workers p) w wk (MkWorker (wpc wk) (Some j) (wquit wk)) Hwk) as Hh.
      assert (held wk = []) as E by (unfold held; rewrite Hj; by destruct Hpc as [->| ->]).
      assert (held (MkWorker (wpc wk) (Some j) (wquit wk)) = [j]) as E' by (unfold held; cbn; by destruct Hpc as [->| ->]).
      rewrite E, E' in Hh. done.
Qed.

Lemma work_inv p i p' : pool_inv p -> work p i = Some p' -> pool_inv p'.
Proof.
  intros Hp. pose proof Hp as [H1 H2 H3 H4 H5 H6 H7]. unfold work. destruct (workers p !! i) as [wk|] eqn:Ei; [|done]. cbn.
  assert (forall x, wpc wk = x -> x <> WSelect -> x <> WDone -> (i ∉ tokens p) /\ wjob wk = None) as Hfree.
  { intros x Hx Hs Hd. split.
    - intros (wk' & Hwk' & _ & Hpc)%H2. simplify_eq. naive_solver.
    - destruct (wjob wk) eqn:Ej; [|done]. destruct (H4 i wk Ei) as [?|?]; congruence. }
  destruct (wpc wk) as [| |j|] eqn:Epc; [| | |done].
  - intros [= <-]. destruct (Hfree _ eq_refl ltac:(done) ltac:(done)) as [Hnt Hj]. rewrite Hj.
    set (t := match runpc p with RunJob w | RunSend w _ => [w] | _ => [] end).
    assert (tokens p = workerCh p ++ t) as Et by done. rewrite Et in *.
    split; unfold tokens, pending, set_worker, set_run; cbn; fold t; try done.
    + rewrite (Permutation_app_comm (workerCh p)), <- app_assoc. cbn. by constructor.
    + intros k Hk. destruct (decide (k = i)) as [->|Hne].
      * eexists. rewrite list_lookup_insert_eq by (by eapply lookup_lt_Some). split; [done|]. cbn. by split; [|left].
      * rewrite list_lookup_insert_ne by done. apply H2. set_solver.
    + intros k wk' Hi Hpc Hj' Hr. worker_cases Hi k i; [set_solver|]. specialize (H3 k wk' Hi Hpc Hj' Hr). set_solver.
    + intros k wk' Hi Hj'. worker_cases Hi k i; try done. by apply (H4 k wk').
    + intros k wk' Hi Hc. worker_cases Hi k i; [by split; [apply (H5 i wk)|]|by apply (H5 k wk')].
    + rewrite H7. unfold pending. do 3 f_equiv. symmetry. pose proof (held_insert _ _ _ (MkWorker WSelect None (wquit wk)) Ei) as Hh.
      unfold held at 1 3 in Hh. by rewrite Epc, Hj in Hh.
  - destruct (wjob wk) as [j|] eqn:Ej; [|done]. intros [= <-]. 
    assert (i ∉ tokens p) as Hnt by (intros (wk' & Hwk' & Hj & _)%H2; congruence).
    split; unfold tokens, pending, set_worker; cbn; try done.
    + intros k Hk. destruct (decide (k = i)) as [->|Hne]; [done|]. rewrite list_lookup_insert_ne by done. by apply H2.
    + intros k wk' Hi Hpc Hj' Hr. worker_cases Hi k i; try done. by apply (H3 k wk').
    + intros k wk' Hi Hj'. worker_cases Hi k i; try done. by apply (H4 k wk').
    + intros k wk' Hi Hc. worker_cases Hi k i; [by split; [apply (H5 i wk)|]|by apply (H5 k wk')].
    + rewrite H7. unfold pending. do 3 f_equiv. symmetry. pose proof (held_insert _ _ _ (MkWorker (WExecute j) None (wquit wk)) Ei) as Hh.
      unfold held at 1 3 in Hh. rewrite Epc, Ej in Hh. cbn in Hh. by apply Permutation_cons_inv in Hh.
  - intros [= <-]. destruct (Hfree _ eq_refl ltac:(done) ltac:(done)) as [Hnt Hj]. rewrite Hj.
    split; unfold tokens, pending; cbn; try done.
    + intros k Hk. destruct (decide (k = i)) as [->|Hne]; [done|]. rewrite list_lookup_insert_ne by done. by apply H2.
    + intros k wk' Hi Hpc Hj' Hr. worker_cases Hi k i; try done. by apply (H3 k wk').
    + intros k wk' Hi Hj'. worker_cases Hi k i; try done. by apply (H4 k wk').
    + intros k wk' Hi Hc. worker_cases Hi k i; [by split; [apply (H5 i wk)|]|by apply (H5 k wk')].
    + rewrite H7. unfold pending. rewrite <- app_assoc. f_equiv. pose proof (held_insert _ _ _ (MkWorker WRegister None (wquit wk)) Ei) as Hh.
      unfold held at 1 3 in Hh. rewrite Epc, Hj in Hh. cbn in Hh. rewrite <- Hh.
      cbn. rewrite !(app_assoc (jobCh p)). symmetry. apply Permutation_middle.
Qed.

Lemma work_quit_inv p i p' : pool_inv p -> work_quit p i = Some p' -> pool_inv p'.
Proof.
  intros [H1 H2 H3 H4 H5 H6 H7]. unfold work_quit. destruct (workers p !! i) as [wk|] eqn:Ei; [|done]. cbn.
  destruct (wpc wk) eqn:Epc; try done. destruct (wquit wk) eqn:Eq; [|done]. intros [= <-].
  assert (jobs_closed p = true) as Hc.
  { destruct (jobs_closed p) eqn:Ec; [done|]. destruct (H5 i wk Ei eq_refl). congruence. }
  split; unfold tokens, pending, set_worker; cbn; try done.
  - intros k Hk. destruct (H2 k Hk) as (wk' & Hwk' & Hj & Hpc). destruct (decide (k = i)) as [->|Hne].
    + eexists. rewrite list_lookup_insert_eq by (by eapply lookup_lt_Some). split; [done|]. cbn. simplify_eq. by split; [|right].
    + rewrite list_lookup_insert_ne by done. by exists wk'.
  - intros k wk' Hi Hpc Hj' Hr. worker_cases Hi k i; try done. by apply (H3 k wk').
  - intros k wk' Hi Hj'. worker_cases Hi k i; [by right|by apply (H4 k wk')].
  - intros k wk' Hi Hc'. unfold jobs_closed in *. cbn in Hc'. congruence.
  - rewrite H7. unfold pending. do 3 f_equiv. symmetry. pose proof (held_insert _ _ _ (MkWorker WDone (wjob wk) true) Ei) as Hh.
    unfold held at 1 3 in Hh. rewrite Epc in Hh. cbn in Hh. by apply Permutation_app_inv_l in Hh.
Qed.

Lemma Stop_inv p p' : pool_inv p -> Stop p = Some p' -> pool_inv p'.
Proof.
  intros Hp. pose proof Hp as [H1 H2 H3 H4 H5 H6 H7]. unfold Stop. destruct (stoppc p) as [| |k|] eqn:Es; [| | |done].
  - intros [= <-]. unfold jobs_closed in *. rewrite Es in *. by split.
  - intros [= <-]. unfold jobs_closed in *. rewrite Es in *. split; try done.
  - assert (jobs_closed p = true) as Hc by (unfold jobs_closed; by rewrite Es).
    destruct (workers p !! k) as [wk|] eqn:Ek; [|case_match; [|done]]; intros [= <-].
    + split; unfold tokens, pending, set_worker; cbn; try done.
      * intros i Hi. destruct (H2 i Hi) as (wk' & Hwk' & Hj & Hpc). destruct (decide (i = k)) as [->|Hne].
        -- eexists. rewrite list_lookup_insert_eq by (by eapply lookup_lt_Some). split; [done|]. cbn. by simplify_eq.
        -- rewrite list_lookup_insert_ne by done. by exists wk'.
      * intros i wk' Hi Hpc Hj' Hr. worker_cases Hi i k; [by apply (H3 k wk)|by apply (H3 i wk')].
      * intros i wk' Hi Hj'. worker_cases Hi i k; [by apply (H4 k wk)|by apply (H4 i wk')].
      * rewrite H7. unfold pending. do 3 f_equiv. symmetry. pose proof (held_insert _ _ _ (MkWorker (wpc wk) (wjob wk) true) Ek) as Hh.
        by apply Permutation_app_inv_l in Hh.
    + split; unfold set_stop; try done.
Qed.

(** Reachable states of a pool with [n] workers. *)
Definition pool_reachable (n : nat) (p : workerPool) : Prop := rtc pool_step (NewWorkerPool n) p.

Lemma pool_step_inv p p' : pool_inv p -> pool_step p p' -> pool_inv p'.
Proof.
  intros Hp []; [by eapply Submit_inv|by eapply run_inv|by eapply work_inv|by eapply work_quit_inv|by eapply Stop_inv].
Qed.

Lemma pool_reachable_inv n p : pool_reachable n p -> pool_inv p.
Proof.
  intros H. unfold pool_reachable in H. pose proof (pool_inv_new n) as Hi. revert Hi. induction H as [|p p1 p2 Hs _ IH]; [done|].
  intros Hi. apply IH. by eapply pool_step_inv.
Qed.

(** ** Accepted jobs are executed *)

(** The steps of the goroutines of the pool. *)
Definition inner (p p' : workerPool) : Prop := run p = Some p' \/ exists i, work p i = Some p'.

Definition worker_weight (wk : Worker) : nat :=
  match wjob wk with Some _ => 5 | None => 0 end +
  match wpc wk with WRegister => 1 | WExecute _ => 4 | _ => 0 end.

Definition weight (p : workerPool) : nat :=
  10 * length (jobCh p) + match runpc p with RunWorker => 2 | RunJob _ => 1 | RunSend _ _ => 8 | RunDone => 0 end +
  sum_list_with worker_weight (workers p).

Lemma weight_insert (l : list Worker) i wk wk' :
  l !! i = Some wk ->
  sum_list_with worker_weight (<[i := wk']> l) + worker_weight wk = sum_list_with worker_weight l + worker_weight wk'.
Proof.
  revert i. induction l as [|x l IH]; intros [|i] Hi; [done|done| |].
  - injection Hi as ->. change (worker_weight wk' + sum_list_with worker_weight l + worker_weight wk =
      worker_weight wk + sum_list_with worker_weight l + worker_weight wk'). lia.
  - specialize (IH i Hi). change (worker_weight x + sum_list_with worker_weight (<[i := wk']> l) + worker_weight wk =
      worker_weight x + sum_list_with worker_weight l + worker_weight wk'). lia.
Qed.

Lemma inner_weight p p' : inner p p' -> weight p' < weight p.
Proof.
  unfold inner, run, work, weight. intros [Hr|[i Hw]].
  - destruct (runpc p) as [|w|w j|]; [| | |done].
    + destruct (workerCh p); [destruct (stoppc p); try done|]; simplify_eq/=; lia.
    + destruct (jobCh p); [destruct (jobs_closed p); [|done]|]; simplify_eq/=; lia.
    + destruct (workers p !! w) as [wk|] eqn:Ew; [|done]. cbn in Hr. destruct (wjob wk) eqn:Ej; [done|]. simplify_eq/=.
      pose proof (weight_insert _ _ _ (MkWorker (wpc wk) (Some j) (wquit wk)) Ew) as H.
      unfold worker_weight in H at 2 4. cbn in H. rewrite Ej in H. lia.
  - destruct (workers p !! i) as [wk|] eqn:Ei; [|done]. cbn in Hw. destruct (wpc wk) as [| |j|] eqn:Ep; [| | |done].
    + simplify_eq/=. pose proof (weight_insert _ _ _ (MkWorker WSelect (wjob wk) (wquit wk)) Ei) as H.
      unfold worker_weight in H at 2 4. cbn in H. rewrite Ep in H. lia.
    + destruct (wjob wk) as [j|] eqn:Ej; [|done]. simplify_eq/=.
      pose proof (weight_insert _ _ _ (MkWorker (WExecute j) None (wquit wk)) Ei) as H.
      unfold worker_weight in H at 2 4. cbn in H. rewrite Ep, Ej in H. lia.
    + simplify_eq/=. pose proof (weight_insert _ _ _ (MkWorker WRegister (wjob wk) (wquit wk)) Ei) as H.
      unfold worker_weight in H at 2 4. cbn in H. rewrite Ep in H. lia.
Qed.

Lemma inner_steps_weight k p p' : nsteps inner k p p' -> k <= weight p.
Proof. intros H. induction H as [|k p p1 p2 Hs _ IH]; [lia|]. pose proof (inner_weight _ _ Hs). lia. Qed.

Lemma inner_keeps p p' :
  inner p p' -> submitted p' = submitted p /\ stoppc p' = stoppc p /\ length (workers p') = length (workers p).
Proof.
  unfold inner, run, work. intros [Hr|[i Hw]].
  - destruct (runpc p) as [|w|w j|]; [| | |done].
    + destruct (workerCh p); [destruct (stoppc p) eqn:Es; try done|]; by simplify_eq/=.
    + destruct (jobCh p); [destruct (jobs_closed p); [|done]|]; by simplify_eq/=.
    + destruct (workers p !! w) as [wk|]; [|done]. cbn in Hr. destruct (wjob wk); [done|]. simplify_eq/=. by rewrite length_insert.
  - destruct (workers p !! i) as [wk|]; [|done]. cbn in Hw. destruct (wpc wk); try done; [| |];
      [|destruct (wjob wk); [|done]|]; simplify_eq/=; by rewrite length_insert.
Qed.

Lemma pool_workers n p : pool_reachable n p -> length (workers p) = n.
Proof.
  assert (forall p p', pool_step p p' -> length (workers p') = length (workers p)) as Hs.
  { intros q q' [j q1 H|q1 H|i q1 H|i q1 H|q1 H].
    - unfold Submit in H. destruct (stoppc q); [|done..]. destruct (jobCh q); by simplify_eq/=.
    - apply inner_keeps. by left.
    - apply inner_keeps. right. eauto.
    - unfold work_quit in H. destruct (workers q !! i) as [wk|]; [|done]. cbn in H. destruct (wpc wk), (wquit wk); simplify_eq/=.
      by rewrite length_insert.
    - unfold Stop in H. destruct (stoppc q) as [| |k|]; simplify_eq/=; try done. destruct (workers q !! k); [simplify_eq/=; by rewrite length_insert|].
      case_match; by simplify_eq/=. }
  intros H. transitivity (length (workers (NewWorkerPool n))); [|cbn; by rewrite length_replicate].
  unfold pool_reachable in H. induction H as [|p p1 p2 H _ IH]; [done|]. rewrite IH. by apply Hs.
Qed.

(** A worker that is not waiting without a job can go on. *)
Lemma work_ready p i wk :
  workers p !! i = Some wk -> wpc wk <> WDone -> wpc wk <> WSelect \/ wjob wk <> None -> is_Some (work p i).
Proof.
  intros Hi Hd Hb. unfold work. rewrite Hi. cbn. destruct (wpc wk); [eauto| |eauto|done].
  destruct (wjob wk); [eauto|]. by destruct Hb.
Qed.

(** As long as the pool was not stopped, a job that waits can be moved on. *)
Lemma pool_progress p :
  pool_inv p -> jobs_closed p = false -> workers p <> [] -> pending p <> [] -> exists p', inner p p'.
Proof.
  intros [H1 H2 H3 H4 H5 H6 H7] Hc Hw Hp. unfold inner.
  destruct (decide (Exists (fun wk => wpc wk <> WSelect \/ wjob wk <> None) (workers p))) as [He|Hn].
  { apply Exists_exists in He as (wk & Hin & Hb). apply list_elem_of_lookup in Hin as [i Hi].
    destruct (H5 i wk Hi Hc) as [_ Hnd]. destruct (work_ready p i wk Hi Hnd Hb) as [p' ?]. eauto. }
  assert (forall i wk, workers p !! i = Some wk -> wpc wk = WSelect /\ wjob wk = None) as Hidle.
  { intros i wk Hi. apply not_Exists_Forall in Hn; [|apply _]. pose proof (Forall_lookup_1 _ _ _ _ Hn Hi) as H.
    cbn in H. destruct (wpc wk), (wjob wk); naive_solver. }
  assert (workers p ≫= held = []) as Hheld.
  { clear -Hidle. induction (workers p) as [|wk l IH]; [done|]. cbn. destruct (Hidle 0 wk eq_refl) as [E1 E2].
    unfold held at 1. rewrite E1, E2. cbn. apply IH. intros i. apply (Hidle (S i)). }
  unfold pending in Hp. rewrite Hheld, app_nil_r in Hp.
  destruct (runpc p) as [|w|w j|] eqn:Er; unfold run; rewrite Er.
  - destruct (workers p) as [|wk l] eqn:El; [done|]. rewrite <- El in *.
    assert (0 ∈ tokens p) as H0.
    { apply (H3 0 wk); [by rewrite El|apply (Hidle 0 wk); by rewrite El|apply (Hidle 0 wk); by rewrite El|done]. }
    unfold tokens in H0. rewrite Er, app_nil_r in H0. destruct (workerCh p); [by apply not_elem_of_nil in H0|eauto].
  - destruct (jobCh p); [done|eauto].
  - destruct (H2 w) as (wk & Hwk & Hj & _); [unfold tokens; rewrite Er; set_solver|]. rewrite Hwk. cbn. rewrite Hj. eauto.
  - specialize (H6 eq_refl). congruence.
Qed.

(** C34. In a pool with a worker that was not stopped, every job that was
    accepted is executed, exactly once, provided that jobs end: whatever the
    order in which the dispatcher and the workers run, they can only make a
    bounded number of steps, and when none is left, the executed jobs are the
    accepted ones. *)
Theorem pool_executes n p :
  pool_reachable (S n) p -> jobs_closed p = false ->
  (forall k p', nsteps inner k p p' -> k <= weight p) /\
  (forall p', rtc inner p p' -> (forall p'', ~ inner p' p'') -> executed p' ≡ₚ submitted p).
Proof.
  intros Hr Hc. split; [intros k p'; apply inner_steps_weight|]. intros p' Hs Hstuck.
  assert (length (workers p) = S n) as Hlen by (by apply (pool_workers (S n))).
  assert (pool_inv p' /\ jobs_closed p' = false /\ submitted p' = submitted p /\ length (workers p') = S n) as (Hi & Hc' & <- & Hl).
  { pose proof (pool_reachable_inv _ _ Hr) as Hi. clear Hstuck Hr. induction Hs as [|p p1 p2 H _ IH]; [done|].
    destruct (inner_keeps p p1 H) as (E1 & E2 & E3). rewrite <- E1. apply IH; [unfold jobs_closed; by rewrite E2|congruence|].
    destruct H as [H|[i H]]; [by eapply run_inv|by eapply work_inv]. }
  destruct (decide (pending p' = [])) as [E|Hne].
  - rewrite (pi_count _ Hi), E. by rewrite app_nil_r.
  - destruct (pool_progress p' Hi Hc') as [p'' Hp]; [by destruct (workers p')|done|]. by destruct (Hstuck p'').
Qed.

(** ** Stopping loses accepted jobs *)

(** A schedule: who makes the next step. *)
Inductive act := ASubmit (j : nat) | ARun | AWork (i : nat) | AQuit (i : nat) | AStop.

Definition pool_act (p : workerPool) (a : act) : option workerPool :=
  match a with
  | ASubmit j => match Submit p j with Some (true, p') => Some p' | _ => None end
  | ARun => run p
  | AWork i => work p i
  | AQuit i => work_quit p i
  | AStop => Stop p
  end.

Fixpoint pool_run (p : workerPool) (l : list act) : option workerPool :=
  match l with [] => Some p | a :: l => p ← pool_act p a; pool_run p l end.

Lemma pool_run_reachable n p l p' : pool_reachable n p -> pool_run p l = Some p' -> pool_reachable n p'.
Proof.
  revert p. induction l as [|a l IH]; intros p Hp; cbn; [by intros [= <-]|]. destruct (pool_act p a) as [p1|] eqn:E; [|done]. cbn.
  apply IH. eapply rtc_r; [exact Hp|]. destruct a; cbn in E; [|by econstructor..].
  destruct (Submit p j) as [[[] p2]|] eqn:Es; simplify_eq. by econstructor.
Qed.

(** The job reaches the channel of worker 0, which then sees that it has to
    quit. *)
Definition drop_schedule : list act :=
  (AWork <$> seq 0 10) ++ [ASubmit 7; ARun; ARun; AStop; AStop; ARun] ++ replicate 10 AStop ++
  (AQuit <$> seq 0 10) ++ [AStop; ARun; ARun].

(** A pool of ten workers, like the one of the downloader, can be stopped
    completely although a job that [Submit] accepted was never executed: who
    waits for the result of the job waits for ever. *)
Theorem pool_stop_drops :
  exists p, pool_reachable 10 p /\ stoppc p = Stopped /\ 7 ∈ submitted p /\ (7 ∉ executed p) /\
    (forall p', ~ pool_step p p').
Proof.
  destruct (pool_run (NewWorkerPool 10) drop_schedule) as [p|] eqn:E; [|by vm_compute in E].
  exists p. split; [by eapply pool_run_reachable; [apply rtc_refl|exact E]|].
  vm_compute in E. injection E as <-. split_and!; [done|left|apply not_elem_of_nil|].
  intros p' [j q H|q H|i q H|i q H|q H]; [done|done| | |done].
  - do 10 (destruct i as [|i]; [done|]). done.
  - do 10 (destruct i as [|i]; [done|]). done.
Qed.

(** ** Witnesses *)

Lemma pool_executes_witness :
  exists p, pool_reachable 2 p /\ (forall k p', nsteps inner k p p' -> k <= weight p) /\
    (forall p', rtc inner p p' -> (forall p'', ~ inner p' p'') -> executed p' ≡ₚ [7]).
Proof.
  destruct (pool_run (NewWorkerPool 2) [AWork 1; ASubmit 7]) as [p|] eqn:E; [|by vm_compute in E].
  assert (pool_reachable 2 p) as Hr by (by eapply pool_run_reachable; [apply rtc_refl|exact E]).
  assert (jobs_closed p = false /\ submitted p = [7]) as [Hc <-] by (vm_compute in E; injection E as <-; done).
  exists p. split; [done|]. apply (pool_executes 1); done.
Defined.
