(* ===== verification/EthPush.v ===== *)
(** * Announcements to a peer ([src/ndn/eth/push.go], [peerannounce.go] and the
    known-item sets of [peer.go])

    Every connected peer has a loop that collects block and transaction
    announcements, packs them into messages that fit into one NDN packet and
    sends them, either in an Interest of its own or in the acknowledgement of
    an Interest of the peer.  The encoding of a message and its HMAC are left
    out; an item carries the tree of values that is encoded. *)

From S2P Require Import Prelude Bytes Rlp RlpStream.

Abbreviation hash := (list Z) (only parsing).

(** ** Items *)

Definition ITypeTx : Z := 1.
Definition ITypeTxHash : Z := 2.
Definition ITypeBlock : Z := 3.
Definition ITypeBlockHeader : Z := 4.
Definition ITypeBlockHash : Z := 5.

Record PushItem := MkItem { IType : Z; iwire : list Z; ihash : hash; icontent : value }.

Definition item_Size (it : PushItem) : nat := length (iwire it) + 1.

Definition EncodeWire (it : PushItem) : PushItem :=
  MkItem (IType it) (match EncodeToBytes (icontent it) with Some w => w | None => [] end) (ihash it) (icontent it).

Definition ForBlock (it : PushItem) : bool :=
  (IType it =? ITypeBlock)%Z || (IType it =? ITypeBlockHash)%Z || (IType it =? ITypeBlockHeader)%Z.

(** ** What the peer knows *)

Definition MAX_KNOWN_TXS : nat := 4096.
Definition MAX_KNOWN_BLKS : nat := 256.
Definition MAX_QUEUED_TXS : nat := 4096.
Definition MAX_QUEUED_BLKS : nat := 256.
Definition MIN_PUSH_ITEMS : nat := 10.
Definition MAX_PUSH_CONTENT_SIZE : nat := 1000.

Record known := MkKnown { ktxs : gset hash; kblks : gset hash }.

Definition hasitem (k : known) (it : PushItem) : bool :=
  if ForBlock it then bool_decide (ihash it ∈ kblks k) else bool_decide (ihash it ∈ ktxs k).

(** [Pop] of the set library removes some element. *)
Class SetLib := { Pop : gset hash -> hash }.
Class SetLaws (S : SetLib) : Prop := { Pop_in s : s <> ∅ -> Pop s ∈ s }.

Section loop.
  Context {S : SetLib}.

(** [for set.Cardinality() >= max { set.Pop() }] *)
Fixpoint shrink (fuel max : nat) (s : gset hash) : gset hash :=
  match fuel with
  | O => s
  | Datatypes.S fuel => if max <=? size s then shrink fuel max (s ∖ {[ Pop s ]}) else s
  end.

Definition mark (max : nat) (h : hash) (s : gset hash) : gset hash := {[ h ]} ∪ shrink (size s) max s.

Definition markitem (k : known) (it : PushItem) : known :=
  if ForBlock it then MkKnown (ktxs k) (mark MAX_KNOWN_BLKS (ihash it) (kblks k))
  else MkKnown (mark MAX_KNOWN_TXS (ihash it) (ktxs k)) (kblks k).

Definition markitems (k : known) (items : list PushItem) : known := foldl markitem k items.

(** ** The loop *)

Record peersendingloop := MkLoop {
  tlist : list PushItem;
  blist : list PushItem;
  alist : list PushItem;
  all : gmap hash PushItem;
  lknown : known;                (* the sets of the peer, shared with the handlers *)
  lforced : bool;
  loutcome : bool;               (* an Interest is in flight: outcomeCh is not nil *)
}.

Definition newpeersendingloop (k : known) : peersendingloop := MkLoop [] [] [] ∅ k false false.

Definition sizes (l : list PushItem) : nat := sum_list_with item_Size l.

(** The first loop of [accumulate], over the items left from last time. *)
Fixpoint acc_left (k : known) (items : list PushItem) (a : gmap hash PushItem) : list PushItem * gmap hash PushItem :=
  match items with
  | [] => ([], a)
  | it :: items =>
    if hasitem k it then acc_left k items (delete (ihash it) a)
    else let '(l, a) := acc_left k items a in (it :: l, a)
  end.

(** The other two: pop items until one does not fit. *)
Record acc := MkAcc { a_total : nat; a_list : list PushItem; a_queue : list PushItem; a_all : gmap hash PushItem; a_full : bool }.

Fixpoint acc_queue (k : known) (total : nat) (newlist queue : list PushItem) (a : gmap hash PushItem) : acc :=
  match queue with
  | [] => MkAcc total newlist [] a false
  | it :: q =>
    if hasitem k it then acc_queue k total newlist q (delete (ihash it) a)
    else if MAX_PUSH_CONTENT_SIZE <? total + item_Size it then MkAcc total newlist queue a true
    else acc_queue k (total + item_Size it) (newlist ++ [it]) q a
  end.

(** Returns [totalsize] and [hasblock]: a block was appended to the items left. *)
Definition accumulate (l : peersendingloop) : nat * bool * peersendingloop :=
  let k := lknown l in
  let '(old, a) := acc_left k (alist l) (all l) in
  let b := acc_queue k (sizes old) old (blist l) a in
  let hasblock := length old <? length (a_list b) in
  if a_full b then
    (a_total b, hasblock, MkLoop (tlist l) (a_queue b) (a_list b) (a_all b) k (lforced l) (loutcome l))
  else
    let t := acc_queue k (a_total b) (a_list b) (tlist l) (a_all b) in
    (a_total t, hasblock, MkLoop (a_queue t) (a_queue b) (a_list t) (a_all t) k (lforced l) (loutcome l)).

Definition addItem (l : peersendingloop) (item : PushItem) : peersendingloop :=
  let item := EncodeWire item in
  match all l !! ihash item with
  | Some _ => l
  | None =>
    if ForBlock item then
      MkLoop (tlist l) (blist l ++ [item]) (alist l) (<[ihash item := item]> (all l)) (lknown l) (lforced l) (loutcome l)
    else
      MkLoop (tlist l ++ [item]) (blist l) (alist l) (<[ihash item := item]> (all l)) (lknown l) (lforced l) (loutcome l)
  end.

Definition delete_items (items : list PushItem) (a : gmap hash PushItem) : gmap hash PushItem :=
  foldl (fun a it => delete (ihash it) a) a items.

(** The oldest items of an overloaded list are dropped.  For transactions the
    number of hashes forgotten is computed from the limit of blocks. *)
Definition addItems (l : peersendingloop) (items : list PushItem) : peersendingloop :=
  let l := foldl addItem l items in
  let l :=
    if MAX_QUEUED_BLKS <? length (blist l) then
      let start := length (blist l) - MAX_QUEUED_BLKS in
      MkLoop (tlist l) (drop start (blist l)) (alist l) (delete_items (take start (blist l)) (all l))
        (lknown l) (lforced l) (loutcome l)
    else l in
  if MAX_QUEUED_TXS <? length (tlist l) then
    let start := length (tlist l) - MAX_QUEUED_BLKS in
    MkLoop (drop (length (tlist l) - MAX_QUEUED_TXS) (tlist l)) (blist l) (alist l)
      (delete_items (take start (tlist l)) (all l)) (lknown l) (lforced l) (loutcome l)
  else l.

Definition updatesent (l : peersendingloop) : peersendingloop :=
  MkLoop (tlist l) (blist l) [] (delete_items (alist l) (all l)) (markitems (lknown l) (alist l))
    (lforced l) (loutcome l).

(** ** [run] *)

Inductive loop_event :=
| EvAck                            (* an Interest of the peer waits for its acknowledgement *)
| EvQuit
| EvTimer
| EvItems (items : list PushItem)
| EvOutcome (ok : bool)            (* the Interest in flight came back *)
| EvKnown (items : list PushItem). (* a handler marks items that the peer sent *)

Inductive loop_output :=
| OutInterest (items : list PushItem)
| OutAck (items : list PushItem)   (* an empty list is the empty acknowledgement *)
| OutUnregister.

(** [updatesent] followed by [forced = false]. *)
Definition sent (l : peersendingloop) (inflight : bool) : peersendingloop :=
  let l := updatesent l in
  MkLoop (tlist l) (blist l) (alist l) (all l) (lknown l) false inflight.

(** The head of the loop body. *)
Definition loop_top (l : peersendingloop) : list loop_output * peersendingloop :=
  if loutcome l then ([], l)
  else
    let '(total, hasblock, l) := accumulate l in
    if (0 <? total) && (lforced l || hasblock || (MIN_PUSH_ITEMS <? length (alist l)))
    then ([OutInterest (alist l)], sent l true)
    else ([], l).

(** The select statement; [None] ends the loop. *)
Definition loop_select (l : peersendingloop) (ev : loop_event) : list loop_output * option peersendingloop :=
  match ev with
  | EvAck =>
    let '(total, _, l) := accumulate l in
    if 0 <? total then ([OutAck (alist l)], Some (sent l (loutcome l))) else ([OutAck []], Some l)
  | EvQuit => ([OutUnregister], None)
  | EvTimer => ([], Some (MkLoop (tlist l) (blist l) (alist l) (all l) (lknown l) true (loutcome l)))
  | EvItems items => ([], Some (addItems l items))
  | EvOutcome ok =>
    if loutcome l then
      if ok then ([], Some (MkLoop (tlist l) (blist l) (alist l) (all l) (lknown l) (lforced l) false))
      else ([OutUnregister], None)
    else ([], Some l)              (* receiving from a nil channel does not happen *)
  | EvKnown items =>
    ([], Some (MkLoop (tlist l) (blist l) (alist l) (all l) (markitems (lknown l) items) (lforced l) (loutcome l)))
  end.

Definition loop_step (l : peersendingloop) (ev : loop_event) : list loop_output * option peersendingloop :=
  let '(o1, l) := loop_top l in
  let '(o2, l) := loop_select l ev in
  (o1 ++ o2, l).

(** The outputs of a run and the state at its end. *)
Fixpoint loop_run (l : peersendingloop) (evs : list loop_event) : list loop_output * option peersendingloop :=
  match evs with
  | [] => ([], Some l)
  | ev :: evs =>
    match loop_step l ev with
    | (o, None) => (o, None)
    | (o, Some l) => let '(o', l) := loop_run l evs in (o ++ o', l)
    end
  end.
End loop.

(** ** Bookkeeping *)

Section push_props.
  Context {S : SetLib} {HS : SetLaws S}.

Definition hashes (l : list PushItem) : list hash := ihash <$> l.

(** Everything that waits to be sent, in the order of sending. *)
Definition waiting (l : peersendingloop) : list PushItem := alist l ++ blist l ++ tlist l.

Definition unknown (k : known) (l : list PushItem) : list PushItem := filter (fun it => hasitem k it = false) l.

Lemma sizes_app a b : sizes (a ++ b) = sizes a + sizes b.
Proof. unfold sizes. induction a as [|it a IH]; cbn [app sum_list_with]; lia. Qed.

Lemma item_Size_pos it : 0 < item_Size it.
Proof. unfold item_Size. lia. Qed.
#[local] Arguments item_Size : simpl never.

Lemma sizes_pos l : l <> [] -> 0 < sizes l.
Proof. destruct l as [|it l]; [done|]. intros _. pose proof (item_Size_pos it). unfold sizes. cbn [sum_list_with]. lia. Qed.

Lemma delete_items_app d1 d2 a : delete_items (d1 ++ d2) a = delete_items d2 (delete_items d1 a).
Proof. unfold delete_items. by rewrite foldl_app. Qed.

Lemma dom_delete_items d a : dom (delete_items d a) = dom a ∖ list_to_set (hashes d).
Proof.
  revert a. induction d as [|it d IH]; intros a; simpl; [set_solver|]. rewrite IH, dom_delete_L. set_solver.
Qed.

Lemma acc_left_spec k items a :
  exists dropped, acc_left k items a = (unknown k items, delete_items dropped a) /\
    items ≡ₚ dropped ++ unknown k items /\ Forall (fun it => hasitem k it = true) dropped.
Proof.
  revert a. induction items as [|it items IH]; intros a; cbn [acc_left].
  { exists []. by split_and!. }
  unfold unknown. rewrite filter_cons. destruct (hasitem k it) eqn:E.
  - destruct (IH (delete (ihash it) a)) as (d & -> & Hp & Hd). exists (it :: d).
    rewrite decide_False by done. split_and!; [done|by rewrite Hp at 1|by constructor].
  - destruct (IH a) as (d & -> & Hp & Hd). exists d. rewrite decide_True by done.
    split_and!; [done| |done]. rewrite <- Permutation_middle. by rewrite Hp at 1.
Qed.

(** What a pass over a queue does. *)
Record acc_ok (k : known) (total : nat) (newlist queue : list PushItem) (a : gmap hash PushItem)
  (r : acc) (taken dropped : list PushItem) : Prop := {
  ao_list : a_list r = newlist ++ taken;
  ao_total : a_total r = total + sizes taken;
  ao_all : a_all r = delete_items dropped a;
  ao_perm : queue ≡ₚ dropped ++ taken ++ a_queue r;
  ao_order : unknown k queue = taken ++ unknown k (a_queue r);
  ao_suffix : exists pre, queue = pre ++ a_queue r;
  ao_dropped : Forall (fun it => hasitem k it = true) dropped;
  ao_taken : Forall (fun it => hasitem k it = false) taken;
  ao_fits : total <= MAX_PUSH_CONTENT_SIZE -> a_total r <= MAX_PUSH_CONTENT_SIZE;
  ao_stop : if a_full r
            then exists it q, a_queue r = it :: q /\ hasitem k it = false /\ MAX_PUSH_CONTENT_SIZE < a_total r + item_Size it
            else a_queue r = [];
}.

Lemma acc_queue_spec k total newlist queue a :
  exists taken dropped, acc_ok k total newlist queue a (acc_queue k total newlist queue a) taken dropped.
Proof.
  revert total newlist a. induction queue as [|it q IH]; intros total newlist a; cbn [acc_queue].
  { exists [], []. split; simpl; try done; first [by rewrite app_nil_r|unfold sizes; simpl; lia|by exists []]. }
  destruct (hasitem k it) eqn:E.
  - destruct (IH total newlist (delete (ihash it) a)) as (t & d & [H1 H2 H3 H4 H5 [pre H6] H7 H8 H9 H10]).
    exists t, (it :: d). split; try done.
    + by rewrite H4 at 1.
    + unfold unknown in *. by rewrite filter_cons, decide_False by (by rewrite E).
    + exists (it :: pre). by rewrite H6 at 1.
    + by constructor.
  - destruct (_ <? _) eqn:Ef; bool_go.
    + exists [], []. split; simpl; try done; first [by rewrite app_nil_r|by exists []|exists it, q; split_and!; [done|done|lia]|unfold sizes; simpl; lia].
    + destruct (IH (total + item_Size it) (newlist ++ [it]) a) as (t & d & [H1 H2 H3 H4 H5 [pre H6] H7 H8 H9 H10]).
      exists (it :: t), d. split; try done.
      * rewrite H1. by rewrite <- app_assoc.
      * rewrite H2. unfold sizes. simpl. lia.
      * rewrite H4 at 1. by rewrite Permutation_middle.
      * unfold unknown in *. rewrite filter_cons, decide_True by done. by rewrite H5.
      * exists (it :: pre). by rewrite H6 at 1.
      * by constructor.
      * intros _. apply H9. lia.
Qed.

(** [accumulate] drops known items, moves items from the queues to the end of
    the accumulated list and never exceeds the size of a message. *)
Record accumulate_ok (l : peersendingloop) (total : nat) (hasblock : bool) (l' : peersendingloop)
  (dropped : list PushItem) : Prop := {
  ac_total : total = sizes (alist l');
  ac_perm : waiting l ≡ₚ dropped ++ waiting l';
  ac_all : all l' = delete_items dropped (all l);
  ac_dropped : Forall (fun it => hasitem (lknown l) it = true) dropped;
  ac_unknown : Forall (fun it => hasitem (lknown l) it = false) (alist l');
  ac_fits : sizes (alist l) <= MAX_PUSH_CONTENT_SIZE -> sizes (alist l') <= MAX_PUSH_CONTENT_SIZE;
  ac_order : unknown (lknown l) (waiting l) = unknown (lknown l) (waiting l');
  ac_known : lknown l' = lknown l;
  ac_flags : lforced l' = lforced l /\ loutcome l' = loutcome l;
  ac_blist : exists pre, blist l = pre ++ blist l';
  ac_tlist : exists pre, tlist l = pre ++ tlist l';
  ac_empty : alist l' = [] -> waiting l' = [] \/
    exists it, it ∈ waiting l /\ hasitem (lknown l) it = false /\ MAX_PUSH_CONTENT_SIZE < item_Size it;
}.

Lemma unknown_app k a b : unknown k (a ++ b) = unknown k a ++ unknown k b.
Proof. apply filter_app. Qed.

Lemma unknown_all k l : Forall (fun it => hasitem k it = false) l -> unknown k l = l.
Proof. induction 1; [done|]. unfold unknown in *. rewrite filter_cons, decide_True by done. by f_equal. Qed.

Lemma unknown_ok k l : Forall (fun it => hasitem k it = false) (unknown k l).
Proof. apply Forall_forall. intros it [H _]%list_elem_of_filter. done. Qed.

Lemma sizes_unknown k l : sizes (unknown k l) <= sizes l.
Proof.
  induction l as [|it l IH]; [done|]. unfold unknown in *. rewrite filter_cons. unfold sizes in *. case_decide; simpl; lia.
Qed.

Lemma accumulate_spec l :
  exists total hasblock l' dropped, accumulate l = (total, hasblock, l') /\ accumulate_ok l total hasblock l' dropped.
Proof.
  unfold accumulate. destruct (acc_left_spec (lknown l) (alist l) (all l)) as (d0 & -> & Hp0 & Hd0).
  set (k := lknown l) in *.
  destruct (acc_queue_spec k (sizes (unknown k (alist l))) (unknown k (alist l)) (blist l) (delete_items d0 (all l)))
    as (tb & db & Hb). set (b := acc_queue _ _ _ (blist l) _) in *.
  pose proof Hb as [B1 B2 B3 B4 B5 B6 B7 B8 B9 B10]. pose proof (sizes_unknown k (alist l)) as Hsz.
  destruct (a_full b).
  - eexists _, _, _, (d0 ++ db). split; [reflexivity|].
    split; cbn [alist blist tlist all lknown lforced loutcome]; try done.
    + by rewrite B1, sizes_app, B2.
    + unfold waiting. cbn [alist blist tlist]. rewrite Hp0, B4, B1. solve_Permutation.
    + by rewrite B3, delete_items_app.
    + by apply Forall_app.
    + rewrite B1. apply Forall_app. split; [apply unknown_ok|done].
    + intros H. rewrite B1, sizes_app, <- B2. apply B9. lia.
    + fold k. unfold waiting. cbn [alist blist tlist]. rewrite !unknown_app, B1, unknown_app, B5.
      rewrite (unknown_all k (unknown k (alist l))) by apply unknown_ok. rewrite (unknown_all k tb) by done.
      by rewrite !app_assoc.
    + by exists [].
    + intros E. right. destruct B10 as (it & q & Hq & Hk & Hsz'). exists it. rewrite B1 in E.
      apply app_nil in E as [E1 ->]. rewrite E1 in B2. unfold sizes in B2. simpl in B2.
      split_and!; [|done|lia]. destruct B6 as [pre Hpre]. unfold waiting. rewrite Hpre, Hq. set_solver.
  - destruct (acc_queue_spec k (a_total b) (a_list b) (tlist l) (a_all b)) as (tt' & dt & Ht).
    set (t := acc_queue _ _ _ (tlist l) _) in *. pose proof Ht as [T1 T2 T3 T4 T5 T6 T7 T8 T9 T10].
    eexists _, _, _, (d0 ++ db ++ dt). split; [reflexivity|].
    split; cbn [alist blist tlist all lknown lforced loutcome]; try done.
    + rewrite T1, B1, !sizes_app. lia.
    + unfold waiting. cbn [alist blist tlist]. rewrite Hp0, B4, T4, T1, B1. rewrite B10. solve_Permutation.
    + by rewrite T3, B3, !delete_items_app.
    + by repeat (apply Forall_app; split).
    + rewrite T1, B1. repeat (apply Forall_app; split); [apply unknown_ok|done|done].
    + intros H. rewrite T1, B1, !sizes_app. assert (a_total t <= MAX_PUSH_CONTENT_SIZE) by (apply T9, B9; lia). lia.
    + fold k. unfold waiting. cbn [alist blist tlist]. rewrite !unknown_app, T1, B1, !unknown_app, B5, T5, B10.
      rewrite (unknown_all k (unknown k (alist l))) by apply unknown_ok.
      rewrite (unknown_all k tb), (unknown_all k tt') by done. simpl. by rewrite !app_assoc, app_nil_r.
    + intros E. unfold waiting. cbn [alist blist tlist]. rewrite E, B10. destruct (a_full t).
      * right. destruct T10 as (it & q & Hq & Hk & Hsz'). exists it. rewrite T1, B1 in E.
        apply app_nil in E as [[E1 ->]%app_nil ->]. rewrite E1 in B2. unfold sizes in B2, T2. simpl in B2, T2.
        split_and!; [|done|lia]. destruct T6 as [pre Hpre]. rewrite Hpre, Hq. set_solver.
      * left. by rewrite T10.
Qed.

(** ** The invariant of the loop *)

Record queue_inv (l : peersendingloop) : Prop := {
  qi_nodup : NoDup (hashes (waiting l));
  qi_dom : dom (all l) = list_to_set (hashes (waiting l));
  qi_size : sizes (alist l) <= MAX_PUSH_CONTENT_SIZE;
}.

Lemma hashes_app a b : hashes (a ++ b) = hashes a ++ hashes b.
Proof. apply fmap_app. Qed.

Lemma hashes_perm a b : a ≡ₚ b -> hashes a ≡ₚ hashes b.
Proof. intros H. unfold hashes. by rewrite H. Qed.

(** Items that leave the loop leave the index too. *)
Lemma dom_leave (w d w' : list PushItem) (a : gmap hash PushItem) :
  w ≡ₚ d ++ w' -> NoDup (hashes w) -> dom a = list_to_set (hashes w) ->
  NoDup (hashes w') /\ dom (delete_items d a) = list_to_set (hashes w').
Proof.
  intros Hp Hnd Hd. apply hashes_perm in Hp. rewrite hashes_app in Hp. rewrite Hp in Hnd.
  apply NoDup_app in Hnd as (_ & Hdis & Hnd). split; [done|].
  rewrite dom_delete_items, Hd, Hp. set_solver.
Qed.

Lemma accumulate_inv l total hb l' d :
  queue_inv l -> accumulate_ok l total hb l' d -> queue_inv l'.
Proof.
  intros [Hn Hd Hs] [A1 A2 A3 A4 A5 A6 A7 A8 A9 A10 A11 A12].
  destruct (dom_leave _ _ _ _ A2 Hn Hd). split; [done| |by apply A6]. by rewrite A3.
Qed.

Lemma sent_inv l b : queue_inv l -> queue_inv (sent l b).
Proof.
  intros [Hn Hd Hs]. destruct (dom_leave (waiting l) (alist l) (blist l ++ tlist l) (all l)) as [H1 H2]; try done.
  split; simpl; try done. unfold sizes. simpl. lia.
Qed.

Lemma addItem_cases l item :
  addItem l item = l /\ is_Some (all l !! ihash item) \/
  all l !! ihash item = None /\ all (addItem l item) = <[ihash item := EncodeWire item]> (all l) /\
    alist (addItem l item) = alist l /\ lknown (addItem l item) = lknown l /\
    loutcome (addItem l item) = loutcome l /\ lforced (addItem l item) = lforced l /\
    (if ForBlock item then blist (addItem l item) = blist l ++ [EncodeWire item] /\ tlist (addItem l item) = tlist l
     else blist (addItem l item) = blist l /\ tlist (addItem l item) = tlist l ++ [EncodeWire item]).
Proof.
  unfold addItem. cbn [EncodeWire ihash]. destruct (all l !! ihash item) eqn:E; [by left; eauto|].
  right. split; [done|]. change (ForBlock (EncodeWire item)) with (ForBlock item).
  destruct (ForBlock item); by split_and!.
Qed.

Lemma addItem_inv l item : queue_inv l -> queue_inv (addItem l item).
Proof.
  intros [Hn Hd Hs]. destruct (addItem_cases l item) as [[-> _]|(Hnone & Ha & Hal & _ & _ & _ & Hq)]; [done|].
  assert (waiting (addItem l item) ≡ₚ EncodeWire item :: waiting l) as Hp.
  { unfold waiting. rewrite Hal. destruct (ForBlock item); destruct Hq as [-> ->]; solve_Permutation. }
  pose proof (hashes_perm _ _ Hp) as Hh. cbn [hashes fmap list_fmap] in Hh.
  apply not_elem_of_dom in Hnone. rewrite Hd in Hnone. split.
  - rewrite Hh. constructor; [|done]. set_solver.
  - rewrite Ha, dom_insert_L, Hh, Hd. cbn [list_to_set]. done.
  - by rewrite Hal.
Qed.

Lemma addItems_foldl_inv items l : queue_inv l -> queue_inv (foldl addItem l items).
Proof. revert l. induction items as [|it items IH]; intros l Hl; [done|]. simpl. by apply IH, addItem_inv. Qed.

Lemma addItems_tlist items l : length (tlist (foldl addItem l items)) <= length (tlist l) + length items.
Proof.
  revert l. induction items as [|it items IH]; intros l; simpl; [lia|]. etrans; [apply IH|].
  destruct (addItem_cases l it) as [[-> _]|(_ & _ & _ & _ & _ & _ & Hq)]; [lia|].
  destruct (ForBlock it); destruct Hq as [_ ->]; [lia|]. rewrite length_app. simpl. lia.
Qed.

Lemma addItems_inv l items :
  queue_inv l -> length (tlist l) + length items <= MAX_QUEUED_TXS -> queue_inv (addItems l items).
Proof.
  intros Hl Hc. unfold addItems. pose proof (addItems_foldl_inv items l Hl) as H.
  pose proof (addItems_tlist items l) as Ht. set (m := foldl addItem l items) in *.
  assert ((MAX_QUEUED_TXS <? length (tlist m)) = false) as Hno by (apply Nat.ltb_ge; lia).
  destruct (_ <? length (blist m)); cbn [tlist]; rewrite Hno; [|done].
  destruct H as [Hn Hd Hs].
  destruct (dom_leave (waiting m) (take (length (blist m) - MAX_QUEUED_BLKS) (blist m))
    (alist m ++ drop (length (blist m) - MAX_QUEUED_BLKS) (blist m) ++ tlist m) (all m)) as [H1 H2]; [|done..|].
  - unfold waiting. rewrite <- (take_drop (length (blist m) - MAX_QUEUED_BLKS) (blist m)) at 1. solve_Permutation.
  - split; done.
Qed.

(** ** Runs *)

(** The items of a message that leaves the loop. *)
Definition out_items (o : loop_output) : list PushItem :=
  match o with OutInterest items | OutAck items => items | OutUnregister => [] end.

Definition message_ok (o : loop_output) : Prop :=
  sizes (out_items o) <= MAX_PUSH_CONTENT_SIZE /\ NoDup (hashes (out_items o)) /\
  match o with OutInterest items => items <> [] | _ => True end.

(** The run never queues more transactions than the limit. *)
Fixpoint calm (l : peersendingloop) (evs : list loop_event) : Prop :=
  match evs with
  | [] => True
  | ev :: evs =>
    match ev with
    | EvItems items =>
      length (tlist (loop_top l).2) + length items <= MAX_QUEUED_TXS /\
      length (blist (loop_top l).2) + length items <= MAX_QUEUED_BLKS
    | _ => True
    end /\
    match loop_step l ev with (_, Some l) => calm l evs | (_, None) => True end
  end.

Lemma alist_nodup l : queue_inv l -> NoDup (hashes (alist l)).
Proof. intros [Hn _ _]. unfold waiting in Hn. rewrite hashes_app in Hn. by apply NoDup_app in Hn as [? _]. Qed.

(** An item that the peer does not know leaves the loop only in a message. *)
Definition kept (it : PushItem) (out : list loop_output) (l : peersendingloop) : Prop :=
  it ∈ (out ≫= out_items) \/ (it ∈ waiting l /\ hasitem (lknown l) it = false).

Lemma mark_other max h h' s : h' <> h -> h' ∉ s -> h' ∉ mark max h s.
Proof.
  intros Hne Hs. unfold mark. assert (shrink (size s) max s ⊆ s) as H; [|set_solver].
  generalize (size s) as fuel. intros fuel. revert s Hs. induction fuel as [|fuel IH]; intros s Hs; [done|].
  simpl. destruct (max <=? size s); [|done]. etrans; [apply IH; set_solver|set_solver].
Qed.

Lemma markitem_other k it it' : ihash it' <> ihash it -> hasitem k it = false -> hasitem (markitem k it') it = false.
Proof.
  unfold hasitem, markitem. intros Hne. destruct (ForBlock it), (ForBlock it'); simpl; try done;
    intros H; bool_go; apply bool_decide_eq_false; apply mark_other; congruence.
Qed.

Lemma markitems_other items k it :
  ihash it ∉ hashes items -> hasitem k it = false -> hasitem (markitems k items) it = false.
Proof.
  revert k. induction items as [|it' items IH]; intros k Hn Hk; [done|]. simpl.
  cbn [hashes fmap list_fmap] in Hn. apply IH; [set_solver|]. apply markitem_other; [set_solver|done].
Qed.

Lemma sent_kept l b it :
  queue_inv l -> it ∈ waiting l -> hasitem (lknown l) it = false ->
  it ∈ alist l \/ (it ∈ waiting (sent l b) /\ hasitem (lknown (sent l b)) it = false).
Proof.
  intros Hi Hin Hk. pose proof (qi_nodup l Hi) as Hn. unfold waiting in *.
  apply elem_of_app in Hin as [Hin|Hin]; [by left|]. right. split; [simpl; set_solver|]. simpl.
  apply markitems_other; [|done]. rewrite hashes_app in Hn. apply NoDup_app in Hn as (_ & Hdis & _).
  intros Hc. apply (Hdis _ Hc). unfold hashes. by apply list_elem_of_fmap_2.
Qed.

Lemma accumulate_kept l total hb l' d it :
  accumulate_ok l total hb l' d -> it ∈ waiting l -> hasitem (lknown l) it = false ->
  it ∈ waiting l' /\ hasitem (lknown l') it = false.
Proof.
  intros A Hin Hk. rewrite (ac_known _ _ _ _ _ A). split; [|done].
  rewrite (ac_perm _ _ _ _ _ A) in Hin. apply elem_of_app in Hin as [Hin|Hin]; [|done].
  pose proof (ac_dropped _ _ _ _ _ A) as Hd. rewrite Forall_forall in Hd. apply Hd in Hin. congruence.
Qed.

Lemma loop_top_ok l :
  queue_inv l -> let r := loop_top l in
  queue_inv r.2 /\ Forall message_ok r.1 /\
  (forall it, it ∈ waiting l -> hasitem (lknown l) it = false -> kept it r.1 r.2).
Proof.
  intros Hi. unfold loop_top. destruct (loutcome l); [split_and!; [done|constructor|by right]|].
  destruct (accumulate_spec l) as (total & hb & l' & d & -> & A). pose proof (accumulate_inv _ _ _ _ _ Hi A) as Hi'.
  destruct (_ && _) eqn:E; simpl.
  - split_and!; [by apply sent_inv| |].
    + bool_go. constructor; [|constructor]. split_and!; simpl; [apply Hi'|by apply alist_nodup|].
      intros E. rewrite (ac_total _ _ _ _ _ A), E in *. unfold sizes in *. simpl in *. lia.
    + intros it Hin Hk. destruct (accumulate_kept _ _ _ _ _ _ A Hin Hk) as [Hin' Hk'].
      destruct (sent_kept l' true it Hi' Hin' Hk') as [H|H]; [left; simpl; by rewrite app_nil_r|by right].
  - split_and!; [done|constructor|]. intros it Hin Hk. right. by eapply accumulate_kept.
Qed.

Lemma addItem_kept l item it :
  queue_inv l -> it ∈ waiting l -> it ∈ waiting (addItem l item) /\ lknown (addItem l item) = lknown l.
Proof.
  intros Hi Hin. destruct (addItem_cases l item) as [[-> _]|(_ & _ & Hal & -> & _ & _ & Hq)]; [done|].
  split; [|done]. unfold waiting in *. rewrite Hal. destruct (ForBlock item); destruct Hq as [-> ->]; set_solver.
Qed.

Lemma addItems_kept l items it :
  queue_inv l -> length (tlist l) + length items <= MAX_QUEUED_TXS ->
  length (blist l) + length items <= MAX_QUEUED_BLKS -> it ∈ waiting l ->
  it ∈ waiting (addItems l items) /\ lknown (addItems l items) = lknown l.
Proof.
  intros Hi Ht Hb Hin. unfold addItems. pose proof (addItems_tlist items l) as H1.
  assert (length (blist (foldl addItem l items)) <= length (blist l) + length items) as H2.
  { clear. revert l. induction items as [|x items IH]; intros l; simpl; [lia|]. etrans; [apply IH|].
    destruct (addItem_cases l x) as [[-> _]|(_ & _ & _ & _ & _ & _ & Hq)]; [lia|].
    destruct (ForBlock x); destruct Hq as [-> _]; [|lia]. rewrite length_app. simpl. lia. }
  rewrite (proj2 (Nat.ltb_ge _ (length (blist _)))) by lia. rewrite (proj2 (Nat.ltb_ge _ (length (tlist _)))) by lia.
  clear H1 H2 Ht Hb. revert l Hi Hin. induction items as [|x items IH]; intros l Hi Hin; [done|]. simpl.
  destruct (addItem_kept l x it Hi Hin) as [H1 H2]. rewrite <- H2. apply IH; [by apply addItem_inv|done].
Qed.

Lemma loop_select_ok l ev :
  queue_inv l ->
  match ev with
  | EvItems items => length (tlist l) + length items <= MAX_QUEUED_TXS /\ length (blist l) + length items <= MAX_QUEUED_BLKS
  | _ => True
  end ->
  let r := loop_select l ev in
  Forall message_ok r.1 /\
  match r.2 with
  | None => True
  | Some l' => queue_inv l' /\
    forall it, it ∈ waiting l -> hasitem (lknown l) it = false ->
      match ev with EvKnown items => ihash it ∉ hashes items | _ => True end -> kept it r.1 l'
  end.
Proof.
  intros Hi Hc. assert (forall o, out_items o = [] -> (forall x, o <> OutInterest x) -> message_ok o) as Hempty.
  { intros o E Hx. unfold message_ok. rewrite E. split_and!; [unfold sizes; simpl; lia|constructor|]. by destruct o; try done; destruct (Hx items). }
  destruct ev as [| | |items|ok|items]; cbn [loop_select].
  - destruct (accumulate_spec l) as (total & hb & l' & d & -> & A). pose proof (accumulate_inv _ _ _ _ _ Hi A) as Hi'.
    destruct (0 <? total); simpl.
    + split; [constructor; [|constructor]; split_and!; simpl; [apply Hi'|by apply alist_nodup|done]|].
      split; [by apply sent_inv|]. intros it Hin Hk _. destruct (accumulate_kept _ _ _ _ _ _ A Hin Hk) as [Hin' Hk'].
      destruct (sent_kept l' (loutcome l') it Hi' Hin' Hk') as [H|H]; [left; simpl; by rewrite app_nil_r|by right].
    + split; [constructor; [by apply Hempty|constructor]|]. split; [done|]. intros it Hin Hk _. right. by eapply accumulate_kept.
  - split; [constructor; [by apply Hempty|constructor]|done].
  - split; [constructor|]. split; [by destruct Hi; split|]. intros it Hin Hk _. by right.
  - destruct Hc as [Hc1 Hc2]. split; [constructor|]. split; [by apply addItems_inv|]. intros it Hin Hk _. right.
    destruct (addItems_kept l items it Hi Hc1 Hc2 Hin) as [? ->]. done.
  - destruct (loutcome l), ok; simpl; (split; [repeat constructor; by try apply Hempty|]); try done;
      (split; [by destruct Hi; split|]); intros it Hin Hk _; by right.
  - split; [constructor|]. split; [by destruct Hi; split|]. intros it Hin Hk Hn. right. split; [done|].
    by apply markitems_other.
Qed.

Lemma loop_run_ok l evs outs r :
  queue_inv l -> calm l evs -> loop_run l evs = (outs, r) ->
  Forall message_ok outs /\
  match r with
  | None => True
  | Some l' => queue_inv l' /\
    forall it, it ∈ waiting l -> hasitem (lknown l) it = false ->
      (forall items, EvKnown items ∈ evs -> ihash it ∉ hashes items) -> kept it outs l'
  end.
Proof.
  revert l outs. induction evs as [|ev evs IH]; intros l outs Hi Hc; cbn [loop_run].
  { intros [= <- <-]. split; [constructor|]. split; [done|]. intros it Hin Hk _. by right. }
  cbn [calm] in Hc. destruct Hc as [Hc1 Hc2]. unfold loop_step in *.
  destruct (loop_top_ok l Hi) as (Hi1 & Hm1 & Hk1). destruct (loop_top l) as [o1 l1]. simpl in *.
  destruct (loop_select_ok l1 ev Hi1) as [Hm2 Hs]; [by destruct ev|]. destruct (loop_select l1 ev) as [o2 [l2|]]; simpl in *.
  - destruct Hs as [Hi2 Hk2]. destruct (loop_run l2 evs) as [o3 l3] eqn:Er. intros [= <- <-].
    destruct (IH l2 o3 Hi2 Hc2 Er) as [Hm3 Hk3]. split; [by repeat (apply Forall_app; split)|].
    destruct l3 as [l3|]; [|done]. destruct Hk3 as [Hi3 Hk3]. split; [done|].
    intros it Hin Hk Hn. unfold kept in *. rewrite !bind_app.
    destruct (Hk1 it Hin Hk) as [H|[H1 H2]]; [left; set_solver|].
    destruct (Hk2 it H1 H2) as [H|[H3 H4]]; [|left; set_solver|].
    { destruct ev; try done. apply Hn. set_solver. }
    destruct (Hk3 it H3 H4) as [H|H]; [|left; set_solver|by right].
    intros items Hit. apply Hn. set_solver.
  - intros [= <- <-]. split; [by apply Forall_app|done].
Qed.

Lemma new_inv k : queue_inv (newpeersendingloop k).
Proof. split; simpl; [constructor|set_solver|unfold sizes; simpl; lia]. Qed.

(** States of the loop of a connected peer. *)
Definition loop_reachable (l : peersendingloop) : Prop :=
  exists k evs outs, calm (newpeersendingloop k) evs /\ loop_run (newpeersendingloop k) evs = (outs, Some l).

Lemma loop_reachable_inv l : loop_reachable l -> queue_inv l.
Proof. intros (k & evs & outs & Hc & Hr). by destruct (loop_run_ok _ _ _ _ (new_inv k) Hc Hr) as [_ [? _]]. Qed.


(** Progress: if no Interest is in flight, the timer has fired and every
    waiting item is small enough for a packet, the next iteration sends the
    first waiting item that the peer does not know. *)
Theorem push_loop_progress l it rest :
  loop_reachable l -> loutcome l = false -> lforced l = true ->
  Forall (fun it => item_Size it <= MAX_PUSH_CONTENT_SIZE) (waiting l) ->
  unknown (lknown l) (waiting l) = it :: rest ->
  exists items l', loop_top l = ([OutInterest (it :: items)], l').
Proof.
  intros Hl Ho Hf Hs Hu. unfold loop_top. rewrite Ho.
  destruct (accumulate_spec l) as (total & hb & l' & d & -> & A).
  assert (exists items, alist l' = it :: items) as [items E].
  { pose proof (ac_order _ _ _ _ _ A) as Ho'. rewrite Hu in Ho'. unfold waiting in Ho'. rewrite unknown_app in Ho'.
    rewrite (unknown_all _ (alist l')) in Ho' by apply (ac_unknown _ _ _ _ _ A).
    destruct (alist l') as [|x items] eqn:E; [|simplify_eq/=; eauto].
    destruct (ac_empty _ _ _ _ _ A E) as [Hw|(x & Hx & _ & Hsz)].
    - unfold waiting in Hw. rewrite E in Hw. simpl in *. rewrite Hw in Ho'. done.
    - rewrite Forall_forall in Hs. specialize (Hs x Hx). lia. }
  assert (0 < total) as Ht by (rewrite (ac_total _ _ _ _ _ A); apply sizes_pos; by rewrite E).
  rewrite (proj2 (Nat.ltb_lt 0 total)) by done. destruct (ac_flags _ _ _ _ _ A) as [-> _]. rewrite Hf, E. simpl. eauto.
Qed.

(** ** An item that does not fit *)

Definition stuck (it : PushItem) (l : peersendingloop) : Prop :=
  alist l = [] /\ (exists rest, blist l = it :: rest) /\ hasitem (lknown l) it = false /\
  MAX_PUSH_CONTENT_SIZE < item_Size it.

Lemma accumulate_stuck it l : stuck it l -> accumulate l = (0, false, l).
Proof.
  intros (Ha & [rest Hb] & Hk & Hs). unfold accumulate. rewrite Ha. cbn [acc_left]. rewrite Hb. cbn [acc_queue].
  rewrite Hk. rewrite (proj2 (Nat.ltb_lt _ _)) by (unfold sizes; simpl; lia). simpl.
  destruct l; simpl in *; subst. done.
Qed.

Lemma addItem_stuck it l item : stuck it l -> stuck it (addItem l item) /\
  length (blist (addItem l item)) <= length (blist l) + 1.
Proof.
  intros (Ha & [rest Hb] & Hk & Hs). destruct (addItem_cases l item) as [[-> _]|(_ & _ & Hal & Hkn & _ & _ & Hq)].
  { split; [|lia]. split_and!; eauto. }
  unfold stuck. rewrite Hal, Hkn. destruct (ForBlock item); destruct Hq as [-> _].
  - rewrite Hb, length_app. split; [split_and!; [done| |done|done]|simpl; lia]. eexists. reflexivity.
  - split; [split_and!; eauto|lia].
Qed.

Lemma addItems_stuck it l items :
  stuck it l -> length (blist l) + length items <= MAX_QUEUED_BLKS ->
  stuck it (addItems l items) /\ length (blist (addItems l items)) <= length (blist l) + length items.
Proof.
  intros Hs Hb. assert (stuck it (foldl addItem l items) /\
    length (blist (foldl addItem l items)) <= length (blist l) + length items) as [H1 H2].
  { clear Hb. revert l Hs. induction items as [|x items IH]; intros l Hs; simpl; [split; [done|lia]|].
    destruct (addItem_stuck it l x Hs) as [H1 H2]. destruct (IH _ H1). split; [done|lia]. }
  unfold addItems. rewrite (proj2 (Nat.ltb_ge _ (length (blist _)))) by lia. by destruct (_ <? _).
Qed.

(** The number of items that events hand to the loop. *)
Definition offered (evs : list loop_event) : nat :=
  sum_list_with (fun ev => match ev with EvItems items => length items | _ => 0 end) evs.

(** A block announcement that is larger than a packet and unknown to the
    peer stops the loop: while it is at the head of the queue no item, block
    or transaction, is sent to the peer any more, whatever happens, until 256
    newer announcements have displaced it.  (Blocks of up to 1024 bytes are
    announced in full, the limit of a packet is 1000 bytes.) *)
Theorem push_loop_stuck it l evs outs r :
  stuck it l -> length (blist l) + offered evs <= MAX_QUEUED_BLKS ->
  (forall items, EvKnown items ∈ evs -> ihash it ∉ hashes items) ->
  loop_run l evs = (outs, r) ->
  (outs ≫= out_items) = [] /\ match r with Some l' => stuck it l' | None => True end.
Proof.
  revert l outs. induction evs as [|ev evs IH]; intros l outs Hs Hb Hn; cbn [loop_run].
  { intros [= <- <-]. done. }
  cbn [offered sum_list_with] in Hb. fold (offered evs) in Hb.
  unfold loop_step. assert (loop_top l = ([], l)) as ->.
  { unfold loop_top. destruct (loutcome l); [done|]. by rewrite (accumulate_stuck it l Hs). }
  assert (match loop_select l ev with
          | (o, Some l') => (o ≫= out_items) = [] /\ stuck it l' /\ length (blist l') + offered evs <= MAX_QUEUED_BLKS
          | (o, None) => (o ≫= out_items) = []
          end) as Hsel.
  { pose proof Hs as (Ha & Hbl & Hk & Hsz).
    destruct ev as [| | |items|ok|items]; cbn [loop_select].
    - rewrite (accumulate_stuck it l Hs). simpl. split_and!; [done|done|lia].
    - done.
    - split_and!; [done|done|simpl; lia].
    - destruct (addItems_stuck it l items Hs ltac:(lia)). split_and!; [done|done|lia].
    - destruct (loutcome l), ok; simpl; try done; (split_and!; [done|done|simpl; lia]).
    - split_and!; [done| |simpl; lia]. split_and!; simpl; [done|done| |done].
      apply markitems_other; [|done]. apply Hn. set_solver. }
  destruct (loop_select l ev) as [o [l'|]]; simpl.
  - destruct Hsel as (Ho & Hs' & Hb'). destruct (loop_run l' evs) as [o' r'] eqn:Er. intros [= <- <-].
    destruct (IH l' o' Hs' Hb') as [Ho' Hr]; [|done|].
    { intros items Hit. apply Hn. set_solver. }
    rewrite bind_app, Ho, Ho'. done.
  - intros [= <- <-]. done.
Qed.
End push_props.

(** ** Witnesses *)

#[export] Instance demo_set : SetLib := {| Pop s := match elements s with h :: _ => h | [] => [] end |}.

#[export] Instance demo_set_laws : SetLaws demo_set.
Proof.
  split. intros s Hs. simpl. destruct (elements s) as [|h l] eqn:E.
  - apply elements_empty_inv in E. by apply leibniz_equiv in E.
  - apply elem_of_elements. rewrite E. left.
Qed.

Definition demo_item (t : Z) (h : Z) : PushItem := MkItem t [] [h] (VBytes [h]).

(** After one transaction hash was queued. *)
Definition demo_loop : peersendingloop := addItems (newpeersendingloop (MkKnown ∅ ∅)) [demo_item ITypeTxHash 7].

Lemma demo_loop_reachable : loop_reachable demo_loop.
Proof.
  exists (MkKnown ∅ ∅), [EvItems [demo_item ITypeTxHash 7]], [].
  split; [split; [|done]; split; vm_compute; lia|reflexivity].
Qed.

Definition demo_end : peersendingloop :=
  match (loop_run demo_loop [EvAck]).2 with Some l => l | None => demo_loop end.


Lemma push_loop_progress_witness :
  exists items l', loop_top (MkLoop (tlist demo_loop) [] [] (all demo_loop) (MkKnown ∅ ∅) true false) =
    ([OutInterest (EncodeWire (demo_item ITypeTxHash 7) :: items)], l').
Proof.
  apply (push_loop_progress (MkLoop (tlist demo_loop) [] [] (all demo_loop) (MkKnown ∅ ∅) true false)
    (EncodeWire (demo_item ITypeTxHash 7)) []); try done.
  - exists (MkKnown ∅ ∅), [EvTimer; EvItems [demo_item ITypeTxHash 7]], [].
    split; [split; [done|]; split; [|done]; split; vm_compute; lia|reflexivity].
  - constructor; [vm_compute; lia|constructor].
Defined.

(** A block of 1001 bytes. *)
Definition demo_big : PushItem := EncodeWire (MkItem ITypeBlock [] [1%Z] (VBytes (replicate 1001 5%Z))).

Definition demo_stuck : peersendingloop := MkLoop [] [demo_big] [] {[ [1%Z] := demo_big ]} (MkKnown ∅ ∅) false false.

Lemma push_loop_stuck_witness :
  let evs := [EvTimer; EvItems [demo_item ITypeTxHash 7]; EvAck; EvTimer; EvAck] in
  ((loop_run demo_stuck evs).1 ≫= out_items) = [] /\
  match (loop_run demo_stuck evs).2 with Some l' => stuck demo_big l' | None => True end.
Proof.
  intros evs. apply (push_loop_stuck demo_big demo_stuck evs).
  - split_and!; [done|by exists []|done|].
    assert (item_Size demo_big = 1005) as -> by (vm_compute; reflexivity). unfold MAX_PUSH_CONTENT_SIZE. lia.
  - vm_compute. lia.
  - intros items Hi. unfold evs in Hi. set_solver.
  - by destruct (loop_run demo_stuck evs).
Defined.
