(* ===== verification/EthTypes.v ===== *)
(** * Headers, transactions and blocks ([src/core/types])

    The records with their RLP encodings, hashes and sizes, and the signature
    schemes of transactions.  The caches inside a block or a transaction
    ([hash], [size], [from]) hold what their functions compute and are left
    out; the hash function and the secp256k1 library are parameters. *)

From S2P Require Import Prelude Bytes Rlp RlpStream RlpTypes Dh Names.
Local Open Scope Z_scope.

Record Header := MkHeader {
  ParentHash : list Z; UncleHash : list Z; Coinbase : list Z; Root : list Z; TxHash : list Z;
  ReceiptHash : list Z; Bloom : list Z; Difficulty : Z; Number : Z; GasLimit : Z; GasUsed : Z;
  Time : Z; Extra : list Z; MixDigest : list Z; Nonce : list Z;
}.

(** [Transaction] with the fields of its [txdata]. *)
Record Transaction := MkTx {
  AccountNonce : Z; Price : Z; txGasLimit : Z; Recipient : option (list Z); Amount : Z;
  Payload : list Z; V : Z; R : Z; S_ : Z;
}.

Record Body := MkBody { body_txs : list Transaction; body_uncles : list Header }.
Record Block := MkBlock { header : Header; transactions : list Transaction; uncles : list Header }.

(** [Header] as a struct of 15 fields. *)
#[export] Instance rlp_header : RlpType Header.
Proof.
  refine {| rlp_value := fun i => VList [VBytes (ParentHash i); VBytes (UncleHash i); VBytes (Coinbase i); VBytes (Root i); VBytes (TxHash i); VBytes (ReceiptHash i); VBytes (Bloom i); VBigInt (Difficulty i); VBigInt (Number i); VUint (GasLimit i); VUint (GasUsed i); VUint (Time i); VBytes (Extra i); VBytes (MixDigest i); VBytes (Nonce i)];
    rlp_dec := decodeStruct (dmap (fun x => MkHeader x.1 x.2.1 x.2.2.1 x.2.2.2.1 x.2.2.2.2.1 x.2.2.2.2.2.1 x.2.2.2.2.2.2.1 x.2.2.2.2.2.2.2.1 x.2.2.2.2.2.2.2.2.1 x.2.2.2.2.2.2.2.2.2.1 x.2.2.2.2.2.2.2.2.2.2.1 x.2.2.2.2.2.2.2.2.2.2.2.1 x.2.2.2.2.2.2.2.2.2.2.2.2.1 x.2.2.2.2.2.2.2.2.2.2.2.2.2.1 x.2.2.2.2.2.2.2.2.2.2.2.2.2.2.1)
      (field_cons (decodeByteArray 32) (field_cons (decodeByteArray 32) (field_cons (decodeByteArray 20) (field_cons (decodeByteArray 32) (field_cons (decodeByteArray 32) (field_cons (decodeByteArray 32) (field_cons (decodeByteArray 256) (field_cons (decodeBigInt) (field_cons (decodeBigInt) (field_cons (u64_dec) (field_cons (u64_dec) (field_cons (u64_dec) (field_cons (decodeByteSlice) (field_cons (decodeByteArray 32) (field_cons (decodeByteArray 8) (field_nil)))))))))))))))));
    rlp_ok := fun i => array_ok 32 (ParentHash i) /\ array_ok 32 (UncleHash i) /\ array_ok 20 (Coinbase i) /\ array_ok 32 (Root i) /\ array_ok 32 (TxHash i) /\ array_ok 32 (ReceiptHash i) /\ array_ok 256 (Bloom i) /\ 0 <= Difficulty i /\ 0 <= Number i /\ 0 <= GasLimit i < 2 ^ 64 /\ 0 <= GasUsed i < 2 ^ 64 /\ 0 <= Time i < 2 ^ 64 /\ Forall byte_ok (Extra i) /\ array_ok 32 (MixDigest i) /\ array_ok 8 (Nonce i) /\ True |}.
  - intros i Hi. apply value_ok_list. rlp_value_okt.
  - eapply lawful_ext; [|exact (decodeStruct_lawful _ _ _ (dmap_lawful (fun x => MkHeader x.1 x.2.1 x.2.2.1 x.2.2.2.1 x.2.2.2.2.1 x.2.2.2.2.2.1 x.2.2.2.2.2.2.1 x.2.2.2.2.2.2.2.1 x.2.2.2.2.2.2.2.2.1 x.2.2.2.2.2.2.2.2.2.1 x.2.2.2.2.2.2.2.2.2.2.1 x.2.2.2.2.2.2.2.2.2.2.2.1 x.2.2.2.2.2.2.2.2.2.2.2.2.1 x.2.2.2.2.2.2.2.2.2.2.2.2.2.1 x.2.2.2.2.2.2.2.2.2.2.2.2.2.2.1)
      (fun i => (ParentHash i, (UncleHash i, (Coinbase i, (Root i, (TxHash i, (ReceiptHash i, (Bloom i, (Difficulty i, (Number i, (GasLimit i, (GasUsed i, (Time i, (Extra i, (MixDigest i, (Nonce i, tt)))))))))))))))) _ _ _ ltac:(by intros []) ltac:(by intros [? [? [? [? [? [? [? [? [? [? [? [? [? [? [? []]]]]]]]]]]]]]]])
      (field_cons_lawful _ _ _ _ _ _ (decodeByteArray_lawful 32 ltac:(lia)) (field_cons_lawful _ _ _ _ _ _ (decodeByteArray_lawful 32 ltac:(lia)) (field_cons_lawful _ _ _ _ _ _ (decodeByteArray_lawful 20 ltac:(lia)) (field_cons_lawful _ _ _ _ _ _ (decodeByteArray_lawful 32 ltac:(lia)) (field_cons_lawful _ _ _ _ _ _ (decodeByteArray_lawful 32 ltac:(lia)) (field_cons_lawful _ _ _ _ _ _ (decodeByteArray_lawful 32 ltac:(lia)) (field_cons_lawful _ _ _ _ _ _ (decodeByteArray_lawful 256 ltac:(lia)) (field_cons_lawful _ _ _ _ _ _ decodeBigInt_lawful (field_cons_lawful _ _ _ _ _ _ decodeBigInt_lawful (field_cons_lawful _ _ _ _ _ _ u64_lawful (field_cons_lawful _ _ _ _ _ _ u64_lawful (field_cons_lawful _ _ _ _ _ _ u64_lawful (field_cons_lawful _ _ _ _ _ _ decodeByteSlice_lawful (field_cons_lawful _ _ _ _ _ _ (decodeByteArray_lawful 32 ltac:(lia)) (field_cons_lawful _ _ _ _ _ _ (decodeByteArray_lawful 8 ltac:(lia)) field_nil_lawful)))))))))))))))))].
    rlp_bytes_eq.
Defined.

(** [Transaction] as a struct of 9 fields. *)
#[export] Instance rlp_tx : RlpType Transaction.
Proof.
  refine {| rlp_value := fun i => VList [VUint (AccountNonce i); VBigInt (Price i); VUint (txGasLimit i); VBytes (match Recipient i with Some b => b | None => [] end); VBigInt (Amount i); VBytes (Payload i); VBigInt (V i); VBigInt (R i); VBigInt (S_ i)];
    rlp_dec := decodeStruct (dmap (fun x => MkTx x.1 x.2.1 x.2.2.1 x.2.2.2.1 x.2.2.2.2.1 x.2.2.2.2.2.1 x.2.2.2.2.2.2.1 x.2.2.2.2.2.2.2.1 x.2.2.2.2.2.2.2.2.1)
      (field_cons (u64_dec) (field_cons (decodeBigInt) (field_cons (u64_dec) (field_cons (decodeNilPtr (decodeByteArray 20)) (field_cons (decodeBigInt) (field_cons (decodeByteSlice) (field_cons (decodeBigInt) (field_cons (decodeBigInt) (field_cons (decodeBigInt) (field_nil)))))))))));
    rlp_ok := fun i => 0 <= AccountNonce i < 2 ^ 64 /\ 0 <= Price i /\ 0 <= txGasLimit i < 2 ^ 64 /\ opt_ok 20 (Recipient i) /\ 0 <= Amount i /\ Forall byte_ok (Payload i) /\ 0 <= V i /\ 0 <= R i /\ 0 <= S_ i /\ True |}.
  - intros i Hi. apply value_ok_list. rlp_value_okt.
  - eapply lawful_ext; [|exact (decodeStruct_lawful _ _ _ (dmap_lawful (fun x => MkTx x.1 x.2.1 x.2.2.1 x.2.2.2.1 x.2.2.2.2.1 x.2.2.2.2.2.1 x.2.2.2.2.2.2.1 x.2.2.2.2.2.2.2.1 x.2.2.2.2.2.2.2.2.1)
      (fun i => (AccountNonce i, (Price i, (txGasLimit i, (Recipient i, (Amount i, (Payload i, (V i, (R i, (S_ i, tt)))))))))) _ _ _ ltac:(by intros []) ltac:(by intros [? [? [? [? [? [? [? [? [? []]]]]]]]]])
      (field_cons_lawful _ _ _ _ _ _ u64_lawful (field_cons_lawful _ _ _ _ _ _ decodeBigInt_lawful (field_cons_lawful _ _ _ _ _ _ u64_lawful (field_cons_lawful _ _ _ _ _ _ (decodeNilPtr_lawful 20 ltac:(lia)) (field_cons_lawful _ _ _ _ _ _ decodeBigInt_lawful (field_cons_lawful _ _ _ _ _ _ decodeByteSlice_lawful (field_cons_lawful _ _ _ _ _ _ decodeBigInt_lawful (field_cons_lawful _ _ _ _ _ _ decodeBigInt_lawful (field_cons_lawful _ _ _ _ _ _ decodeBigInt_lawful field_nil_lawful)))))))))))].
    rlp_bytes_eq.
Defined.

(** [Body] as a struct of 2 fields. *)
#[export] Instance rlp_body : RlpType Body.
Proof.
  refine {| rlp_value := fun i => VList [slice_value (body_txs i); slice_value (body_uncles i)];
    rlp_dec := decodeStruct (dmap (fun x => MkBody x.1 x.2.1)
      (field_cons (decodeListSlice rlp_dec) (field_cons (decodeListSlice rlp_dec) (field_nil))));
    rlp_ok := fun i => Forall rlp_ok (body_txs i) /\ Forall rlp_ok (body_uncles i) /\ True |}.
  - intros i Hi. apply value_ok_list. rlp_value_okt.
  - eapply lawful_ext; [|exact (decodeStruct_lawful _ _ _ (dmap_lawful (fun x => MkBody x.1 x.2.1)
      (fun i => (body_txs i, (body_uncles i, tt))) _ _ _ ltac:(by intros []) ltac:(by intros [? [? []]])
      (field_cons_lawful _ _ _ _ _ _ slice_lawful (field_cons_lawful _ _ _ _ _ _ slice_lawful field_nil_lawful))))].
    rlp_bytes_eq.
Defined.

(** [Block] as a struct of 3 fields. *)
#[export] Instance rlp_block : RlpType Block.
Proof.
  refine {| rlp_value := fun i => VList [rlp_value (header i); slice_value (transactions i); slice_value (uncles i)];
    rlp_dec := decodeStruct (dmap (fun x => MkBlock x.1 x.2.1 x.2.2.1)
      (field_cons (rlp_dec) (field_cons (decodeListSlice rlp_dec) (field_cons (decodeListSlice rlp_dec) (field_nil)))));
    rlp_ok := fun i => rlp_ok (header i) /\ Forall rlp_ok (transactions i) /\ Forall rlp_ok (uncles i) /\ True |}.
  - intros i Hi. apply value_ok_list. rlp_value_okt.
  - eapply lawful_ext; [|exact (decodeStruct_lawful _ _ _ (dmap_lawful (fun x => MkBlock x.1 x.2.1 x.2.2.1)
      (fun i => (header i, (transactions i, (uncles i, tt)))) _ _ _ ltac:(by intros []) ltac:(by intros [? [? [? []]]])
      (field_cons_lawful _ _ _ _ _ _ rlp_lawful (field_cons_lawful _ _ _ _ _ _ slice_lawful (field_cons_lawful _ _ _ _ _ _ slice_lawful field_nil_lawful)))))].
    rlp_bytes_eq.
Defined.

Section types.
  Context {L : NdnLib}.

(** [rlpHash]: an encoding error is ignored, the hash of nothing is taken. *)
Definition rlpHash (v : value) : list Z := keccak256 (match EncodeToBytes v with Some w => w | None => [] end).

Definition Header_Hash (h : Header) : list Z := rlpHash (rlp_value h).

Definition SanityCheck (h : Header) : bool :=
  ((0 <=? Number h) && (Number h <? 2 ^ 64)) && (BitLen (Difficulty h) <=? 80) && (Z.of_nat (length (Extra h)) <=? 100 * 1024).

Definition CopyHeader (h : Header) : Header := h.
Definition NewBlockWithHeader (h : Header) : Block := MkBlock (CopyHeader h) [] [].
Definition Block_Hash (b : Block) : list Z := Header_Hash (header b).
Definition Block_Body (b : Block) : Body := MkBody (transactions b) (uncles b).
Definition NumberU64 (b : Block) : Z := u64 (Z.abs (Number (header b))).

(** The number of bytes written. *)
Definition Block_Size (b : Block) : Z :=
  Z.of_nat (length (match EncodeToBytes (rlp_value b) with Some w => w | None => [] end)).

Definition WithSeal (b : Block) (h : Header) : Block := MkBlock h (transactions b) (uncles b).
Definition WithBody (b : Block) (txs : list Transaction) (us : list Header) : Block :=
  MkBlock (CopyHeader (header b)) txs (CopyHeader <$> us).

Definition EmptyUncleHash : list Z := rlpHash (VList []).
Definition CalcUncleHash (us : list Header) : list Z :=
  match us with [] => EmptyUncleHash | _ => rlpHash (slice_value us) end.

Definition newTransaction (nonce : Z) (to : option (list Z)) (amount gasLimit gasPrice : Z) (data : list Z) : Transaction :=
  MkTx nonce gasPrice gasLimit to amount data 0 0 0.

Definition Tx_Hash (tx : Transaction) : list Z := rlpHash (rlp_value tx).
Definition Tx_Size (tx : Transaction) : Z :=
  Z.of_nat (length (match EncodeToBytes (rlp_value tx) with Some w => w | None => [] end)).
Definition Cost (tx : Transaction) : Z := Price tx * txGasLimit tx + Amount tx.

Definition TxDifference (a b : list Transaction) : list Transaction :=
  let remove : gset (list Z) := list_to_set (Tx_Hash <$> b) in
  filter (fun tx => Tx_Hash tx ∉ remove) a.
End types.

(** ** Signatures *)

Definition isProtectedV (v : Z) : bool :=
  if BitLen v <=? 8 then let v := u64 (Z.abs v) in negb (v =? 27) && negb (v =? 28) else true.

Definition deriveChainId (v : Z) : Z :=
  if BitLen v <=? 64 then
    let v := u64 (Z.abs v) in
    if (v =? 27) || (v =? 28) then 0 else u64 (v - 35) / 2
  else (v - 35) / 2.

Definition secp256k1N : Z := 0xfffffffffffffffffffffffffffffffebaaedce6af48a03bbfd25e8cd0364141.
Definition secp256k1halfN : Z := secp256k1N / 2.

Definition ValidateSignatureValues (v r s : Z) (homestead : bool) : bool :=
  if (r <? 1) || (s <? 1) then false
  else if homestead && (secp256k1halfN <? s) then false
  else (r <? secp256k1N) && (s <? secp256k1N) && ((v =? 0) || (v =? 1)).

(** The library of the curve: signatures are [R || S || V] with [V] 0 or 1 and
    [S] in the lower half; recovery gives the uncompressed public key. *)
Class SecpLib := {
  Secp_Sign : list Z -> list Z -> option (list Z);       (* hash, private key *)
  Ecrecover : list Z -> list Z -> option (list Z);       (* hash, signature *)
  FromECDSAPub : list Z -> list Z;                       (* the public key of a private key *)
}.

Class SecpLaws (C : SecpLib) : Prop := {
  sign_shape h prv sig : Secp_Sign h prv = Some sig ->
    length sig = 65%nat /\ Forall byte_ok sig /\ 0 < be_value (take 32 sig) < secp256k1N /\
    0 < be_value (take 32 (drop 32 sig)) <= secp256k1halfN /\ (sig !! 64%nat = Some 0 \/ sig !! 64%nat = Some 1);
  sign_recover h prv sig : Secp_Sign h prv = Some sig -> Ecrecover h sig = Some (FromECDSAPub prv);
  pub_shape prv : exists l, FromECDSAPub prv = 4 :: l;
}.

Inductive Signer := FrontierSigner | HomesteadSigner | EIP155Signer (chainId : Z).
Inductive sig_error := ErrInvalidSig | ErrInvalidChainId | ErrRecover | ErrInvalidPublic.

Section signing.
  Context {L : NdnLib} {C : SecpLib}.

Definition PubkeyToAddress (pub : list Z) : list Z := drop 12 (keccak256 (drop 1 pub)).

Definition recipient_value (tx : Transaction) : value := VBytes (match Recipient tx with Some b => b | None => [] end).

Definition signing_Hash (s : Signer) (tx : Transaction) : list Z :=
  let fields := [VUint (AccountNonce tx); VBigInt (Price tx); VUint (txGasLimit tx); recipient_value tx;
                 VBigInt (Amount tx); VBytes (Payload tx)] in
  match s with
  | EIP155Signer chainId => rlpHash (VList (fields ++ [VBigInt chainId; VUint 0; VUint 0]))
  | _ => rlpHash (VList fields)
  end.

(** [None] is the panic on a signature of the wrong length. *)
Definition SignatureValues (s : Signer) (sig : list Z) : option (Z * Z * Z) :=
  if negb (length sig =? 65)%nat then None
  else
    v ← sig !! 64%nat;
    let r := be_value (take 32 sig) in
    let s' := be_value (take 32 (drop 32 sig)) in
    match s with
    | EIP155Signer chainId =>
      if negb (chainId =? 0) then Some (r, s', u8 (v + 35) + chainId * 2)
      else Some (r, s', u8 (v + 27))
    | _ => Some (r, s', u8 (v + 27))
    end.

Definition WithSignature (tx : Transaction) (s : Signer) (sig : list Z) : option Transaction :=
  '(r, s', v) ← SignatureValues s sig;
  Some (MkTx (AccountNonce tx) (Price tx) (txGasLimit tx) (Recipient tx) (Amount tx) (Payload tx) v r s').

(** Right-aligned copy into 32 bytes; [None] is the panic on a longer number. *)
Definition recoverPlain (sighash : list Z) (r s vb : Z) (homestead : bool) : option (res sig_error (list Z)) :=
  if 8 <? BitLen vb then Some (Err ErrInvalidSig)
  else
    let v := u8 (u64 (Z.abs vb) - 27) in
    if negb (ValidateSignatureValues v r s homestead) then Some (Err ErrInvalidSig)
    else
      rb ← copyWithLeftPad 32 (big_bytes r);
      sb ← copyWithLeftPad 32 (big_bytes s);
      match Ecrecover sighash (rb ++ sb ++ [v]) with
      | None => Some (Err ErrRecover)
      | Some pub =>
        match pub with
        | 4 :: _ => Some (Ok (PubkeyToAddress pub))
        | _ => Some (Err ErrInvalidPublic)
        end
      end.

Definition Sender (s : Signer) (tx : Transaction) : option (res sig_error (list Z)) :=
  match s with
  | FrontierSigner => recoverPlain (signing_Hash FrontierSigner tx) (R tx) (S_ tx) (V tx) false
  | HomesteadSigner => recoverPlain (signing_Hash HomesteadSigner tx) (R tx) (S_ tx) (V tx) true
  | EIP155Signer chainId =>
    if negb (isProtectedV (V tx)) then recoverPlain (signing_Hash HomesteadSigner tx) (R tx) (S_ tx) (V tx) true
    else if negb (deriveChainId (V tx) =? chainId) then Some (Err ErrInvalidChainId)
    else recoverPlain (signing_Hash s tx) (R tx) (S_ tx) (V tx - chainId * 2 - 8) true
  end.

Definition SignTx (tx : Transaction) (s : Signer) (prv : list Z) : option Transaction :=
  sig ← Secp_Sign (signing_Hash s tx) prv;
  WithSignature tx s sig.
End signing.

(** ** Properties *)

(** A fixed-length number is read and written without loss. *)
Lemma leftpad_be b :
  Forall byte_ok b -> copyWithLeftPad (length b) (big_bytes (be_value b)) = Some b.
Proof.
  intros Hb. pose proof (be_value_bound b Hb) as Hv.
  destruct (big_bytes_spec (be_value b)) as (Hok & Hc & Hval); [lia|].
  assert (length (big_bytes (be_value b)) <= length b)%nat as Hl.
  { destruct (big_bytes (be_value b)) as [|x l] eqn:E; [simpl; lia|]. simpl in Hc.
    pose proof (canonical_lower x l Hok Hc) as Hlow. rewrite Hval in Hlow.
    assert (256 ^ Z.of_nat (length l) < 256 ^ Z.of_nat (length b)) as Hlt by lia.
    apply Z.pow_lt_mono_r_iff in Hlt; simpl; lia. }
  destruct (bytes_roundtrip (length b) (be_value b)) as (b' & Hcp & Hv' & Hl'); [lia|done|].
  rewrite Hcp. f_equal. apply be_value_inj; try done.
  unfold copyWithLeftPad in Hcp. rewrite (proj2 (Nat.ltb_ge _ _)) in Hcp by done. injection Hcp as <-.
  apply Forall_app. split; [|done]. apply Forall_replicate. unfold byte_ok. lia.
Qed.

Lemma BitLen_small n v : 0 <= v -> 0 <= n -> v < 2 ^ n -> BitLen v <= n.
Proof.
  intros Hv Hn Hb. unfold BitLen. destruct (v =? 0) eqn:E; bool_go; [lia|]. rewrite Z.abs_eq by lia.
  assert (Z.log2 v < n); [|lia]. apply Z.log2_lt_pow2; lia.
Qed.

Lemma BitLen_large n v : 0 <= n -> 2 ^ n <= v -> n < BitLen v.
Proof.
  intros Hn Hb. assert (0 < 2 ^ n) by (apply Z.pow_pos_nonneg; lia). unfold BitLen.
  rewrite (proj2 (Z.eqb_neq v 0)), Z.abs_eq by lia. assert (n <= Z.log2 v); [|lia]. apply Z.log2_le_pow2; lia.
Qed.

(** The chain identity and the parity come back out of [V]. *)
Lemma chain_id_of_V c v : 0 < c -> v = 0 \/ v = 1 ->
  isProtectedV (35 + v + c * 2) = true /\ deriveChainId (35 + v + c * 2) = c.
Proof.
  intros Hc Hv. unfold isProtectedV, deriveChainId. split.
  - destruct (_ <=? 8) eqn:E; [|done]. bool_go.
    assert (35 + v + c * 2 < 2 ^ 8) as Hlt.
    { destruct (decide (35 + v + c * 2 < 2 ^ 8)); [done|]. pose proof (BitLen_large 8 (35 + v + c * 2)). lia. }
    rewrite Z.abs_eq, wrap_id by (unfold fits; lia).
    by rewrite (proj2 (Z.eqb_neq _ 27)), (proj2 (Z.eqb_neq _ 28)) by lia.
  - assert ((35 + v + c * 2 - 35) / 2 = c) as Hdiv.
    { replace (35 + v + c * 2 - 35) with (v + c * 2) by lia. rewrite Z.div_add by lia. destruct Hv as [-> | ->]; done. }
    destruct (_ <=? 64) eqn:E; [|done]. bool_go.
    assert (35 + v + c * 2 < 2 ^ 64) as Hlt.
    { destruct (decide (35 + v + c * 2 < 2 ^ 64)); [done|]. pose proof (BitLen_large 64 (35 + v + c * 2)). lia. }
    rewrite Z.abs_eq, wrap_id by (unfold fits; lia).
    rewrite (proj2 (Z.eqb_neq _ 27)), (proj2 (Z.eqb_neq _ 28)) by lia. cbn [orb].
    by rewrite wrap_id by (unfold fits; lia).
Qed.

Section sign_props.
  Context {L : NdnLib} {C : SecpLib} {HC : SecpLaws C}.

(** The parts of a signature are validated and put together again. *)
Lemma recoverPlain_signed h prv sig v homestead :
  Secp_Sign h prv = Some sig -> sig !! 64%nat = Some v ->
  recoverPlain h (be_value (take 32 sig)) (be_value (take 32 (drop 32 sig))) (v + 27) homestead =
    Some (Ok (PubkeyToAddress (FromECDSAPub prv))).
Proof.
  intros Hs Hv. destruct (sign_shape _ _ _ Hs) as (Hl & Hb & Hr & Hs' & Hv').
  assert (v = 0 \/ v = 1) as Hv01 by (destruct Hv'; simplify_eq; auto).
  unfold recoverPlain. rewrite (proj2 (Z.ltb_ge 8 _)).
  2: { apply BitLen_small; lia. }
  assert (u8 (u64 (Z.abs (v + 27)) - 27) = v) as ->.
  { rewrite Z.abs_eq by lia. rewrite (wrap_id 64) by (unfold fits; lia). rewrite wrap_id by (unfold fits; lia). lia. }
  assert (ValidateSignatureValues v (be_value (take 32 sig)) (be_value (take 32 (drop 32 sig))) homestead = true) as ->.
  { unfold ValidateSignatureValues. assert (secp256k1halfN < secp256k1N) by done.
    rewrite (proj2 (Z.ltb_ge (be_value (take 32 sig)) 1)), (proj2 (Z.ltb_ge (be_value (take 32 (drop 32 sig))) 1)) by lia.
    rewrite (proj2 (Z.ltb_ge secp256k1halfN _)), andb_false_r by lia. cbn [orb].
    rewrite (proj2 (Z.ltb_lt _ secp256k1N)), (proj2 (Z.ltb_lt _ secp256k1N)) by lia. by destruct Hv01 as [-> | ->]. }
  cbn [negb].
  assert (length (take 32 sig) = 32%nat) as E1 by (rewrite length_take; lia).
  assert (length (take 32 (drop 32 sig)) = 32%nat) as E2 by (rewrite length_take, length_drop; lia).
  pose proof (leftpad_be (take 32 sig) ltac:(by apply Forall_take)) as P1. rewrite E1 in P1. rewrite P1.
  pose proof (leftpad_be (take 32 (drop 32 sig)) ltac:(by apply Forall_take, Forall_drop)) as P2. rewrite E2 in P2.
  cbn [mbind option_bind]. rewrite P2. cbn [mbind option_bind].
  assert (take 32 sig ++ take 32 (drop 32 sig) ++ [v] = sig) as ->.
  { rewrite app_assoc, take_take_drop. rewrite <- (take_drop 64 sig) at 2. f_equal.
    rewrite (drop_S _ v) by done. rewrite drop_ge by lia. done. }
  rewrite (sign_recover _ _ _ Hs). destruct (pub_shape prv) as [l ->]. done.
Qed.

End sign_props.

(** ** Witness *)

Definition demo_sig : list Z := replicate 31 0 ++ [1] ++ replicate 31 0 ++ [2] ++ [1].

#[export] Instance demo_secp : SecpLib := {|
  Secp_Sign := fun _ _ => Some demo_sig;
  Ecrecover := fun _ _ => Some [4; 7];
  FromECDSAPub := fun _ => [4; 7];
|}.

#[export] Instance demo_secp_laws : SecpLaws demo_secp.
Proof.
  split.
  - intros h prv sig [= <-]. split; [done|]. split.
    { repeat (constructor; [vm_compute; split; congruence|]). constructor. }
    split; [vm_compute; done|]. split; [vm_compute; split; congruence|by right].
  - done.
  - intros prv. by eexists.
Qed.

Definition demo_tx : Transaction := newTransaction 3 (Some (replicate 20 9)) 5 21000 1 [1; 2].

