(* ===== verification/EthPeer.v ===== *)
(** * Ethereum peers and the peer set ([src/ndn/eth/peer.go], [peerlist.go])

    Peers are shared by pointer: the peer set, the handlers of messages and the
    announcement loop all hold the same object.  The model has a store of
    peers; a pointer is an address of the store. *)

From S2P Require Import Prelude Bytes Rlp RlpStream Names Dh EthPush.
Local Open Scope Z_scope.

Inductive peer_status := PEER_HANDSHAKING | PEER_CONNECTED | PEER_CLOSED.

(** The announcement loop of a peer is started once; after its end the flag
    says whether its quit channel is closed. *)
Inductive loop_state := LoopNone | LoopRunning | LoopDone (quit_closed : bool).

#[export] Instance peer_status_eq_dec : EqDecision peer_status.
Proof. solve_decision. Defined.
#[export] Instance loop_state_eq_dec : EqDecision loop_state.
Proof. solve_decision. Defined.

Record peer := MkPeer {
  p_id : list Z;
  p_pub : list Z;
  p_name : list Z;
  p_prefix : list NameComponent;
  p_group : option DHGroup;
  p_dhprv : option DHKey;
  p_secret : list Z;
  p_dir : bool;
  p_head : list Z;
  p_td : Z;
  p_bnum : Z;
  p_status : peer_status;
  p_known : known;
  p_loop : loop_state;
  p_queue : list PushItem;         (* handed to the announcement loop *)
}.

Section peers.
  Context {L : NdnLib} {S : SetLib}.

(** [newpeer]: errors of the key generation are ignored. *)
Definition newpeer (id pub prefix : list Z) (offering : bool) (draws : list Z) : peer :=
  let g := GetGroup 0 in
  MkPeer id pub prefix (ParseName prefix) g (g ← g; GeneratePrivateKey g draws) (replicate 32 0) offering
    (replicate 32 0) 0 0 PEER_HANDSHAKING (MkKnown ∅ ∅) LoopNone [].

Definition isConnected (p : peer) : bool := bool_decide (p_status p = PEER_CONNECTED).

Definition with_status (p : peer) (s : peer_status) : peer :=
  MkPeer (p_id p) (p_pub p) (p_name p) (p_prefix p) (p_group p) (p_dhprv p) (p_secret p) (p_dir p) (p_head p)
    (p_td p) (p_bnum p) s (p_known p) (p_loop p) (p_queue p).
Definition with_loop (p : peer) (l : loop_state) : peer :=
  MkPeer (p_id p) (p_pub p) (p_name p) (p_prefix p) (p_group p) (p_dhprv p) (p_secret p) (p_dir p) (p_head p)
    (p_td p) (p_bnum p) (p_status p) (p_known p) l (p_queue p).
Definition with_secret (p : peer) (s : list Z) : peer :=
  MkPeer (p_id p) (p_pub p) (p_name p) (p_prefix p) (p_group p) (p_dhprv p) s (p_dir p) (p_head p)
    (p_td p) (p_bnum p) (p_status p) (p_known p) (p_loop p) (p_queue p).
Definition with_head (p : peer) (head : list Z) (td bnum : Z) : peer :=
  MkPeer (p_id p) (p_pub p) (p_name p) (p_prefix p) (p_group p) (p_dhprv p) (p_secret p) (p_dir p) head
    td bnum (p_status p) (p_known p) (p_loop p) (p_queue p).
Definition with_queue (p : peer) (q : list PushItem) : peer :=
  MkPeer (p_id p) (p_pub p) (p_name p) (p_prefix p) (p_group p) (p_dhprv p) (p_secret p) (p_dir p) (p_head p)
    (p_td p) (p_bnum p) (p_status p) (p_known p) (p_loop p) q.
Definition with_known (p : peer) (k : known) : peer :=
  MkPeer (p_id p) (p_pub p) (p_name p) (p_prefix p) (p_group p) (p_dhprv p) (p_secret p) (p_dir p) (p_head p)
    (p_td p) (p_bnum p) (p_status p) k (p_loop p) (p_queue p).

Definition setConnected (p : peer) : peer := with_status p PEER_CONNECTED.

(** [copy(p.secret[:], k.Bytes())] *)
Definition copy_secret (old k : list Z) : list Z := take 32 k ++ drop (length k) old.

(** [makesecret]: the error of [ComputeKey] is ignored; its nil key is then
    dereferenced, which is a panic. *)
Definition makesecret (p : peer) (dhpub : list Z) : option peer :=
  g ← p_group p;
  prv ← p_dhprv p;
  match ComputeKey g (NewPublicKey dhpub) prv with
  | Err _ => None
  | Ok k => b ← Dh.Bytes k; Some (with_secret p (copy_secret (p_secret p) b))
  end.

Definition SetHead (p : peer) (head : list Z) (td bnum : Z) : bool * peer :=
  if p_td p <? td then (true, with_head p head td bnum) else (false, p).

Definition peer_markitems (p : peer) (items : list PushItem) : peer := with_known p (markitems (p_known p) items).

(** [doSend]: only to a connected peer that does not know the item. *)
Definition doSend (p : peer) (item : PushItem) : peer :=
  if negb (isConnected p) then p
  else if hasitem (p_known p) item then p
  else with_queue p (p_queue p ++ [item]).

Definition announceTxs (p : peer) (hs : list (list Z)) : peer :=
  if negb (isConnected p) then p
  else with_queue p (p_queue p ++ ((fun h => MkItem ITypeTxHash [] h (VBytes h)) <$> hs)).

(** ** The peer set *)

Record peerSet := MkPeerSet {
  ps_store : gmap nat peer;
  ps_next : nat;
  peers : gmap (list Z) nat;
  pendings : gmap (list Z) nat;
  numins : Z;
  numouts : Z;
}.

Definition newpeerset : peerSet := MkPeerSet ∅ 0 ∅ ∅ 0 0.

Definition set_store (ps : peerSet) (st : gmap nat peer) : peerSet :=
  MkPeerSet st (ps_next ps) (peers ps) (pendings ps) (numins ps) (numouts ps).

Definition makenewpeer (ps : peerSet) (id pub prefix : list Z) (dir : bool) (draws : list Z) : nat * peerSet :=
  match peers ps !! id with
  | Some a => (a, ps)
  | None =>
    match pendings ps !! id with
    | Some a => (a, ps)
    | None =>
      let a := ps_next ps in
      (a, MkPeerSet (<[a := newpeer id pub prefix dir draws]> (ps_store ps)) (a + 1)%nat (peers ps)
            (<[id := a]> (pendings ps)) (numins ps) (numouts ps))
    end
  end.

Definition startsendingloop (p : peer) : peer :=
  match p_loop p with LoopNone => with_loop p LoopRunning | _ => p end.

(** [register]; [None] is a dangling pointer. *)
Definition register (ps : peerSet) (a : nat) : option (bool * peerSet) :=
  p ← ps_store ps !! a;
  let pend := delete (p_id p) (pendings ps) in
  match peers ps !! p_id p with
  | Some _ => Some (false, MkPeerSet (ps_store ps) (ps_next ps) (peers ps) pend (numins ps) (numouts ps))
  | None =>
    let p := startsendingloop (setConnected p) in
    Some (true, MkPeerSet (<[a := p]> (ps_store ps)) (ps_next ps) (<[p_id p := a]> (peers ps)) pend
      (if p_dir p then numins ps else numins ps + 1) (if p_dir p then numouts ps + 1 else numouts ps))
  end.

Definition unregister (ps : peerSet) (a : nat) : option peerSet :=
  p ← ps_store ps !! a;
  match peers ps !! p_id p with
  | None => Some ps
  | Some _ =>
    Some (MkPeerSet (ps_store ps) (ps_next ps) (delete (p_id p) (peers ps)) (pendings ps)
      (if p_dir p then numins ps else numins ps - 1) (if p_dir p then numouts ps - 1 else numouts ps))
  end.

Definition reject (ps : peerSet) (a : nat) : option peerSet :=
  p ← ps_store ps !! a;
  Some (MkPeerSet (ps_store ps) (ps_next ps) (peers ps) (delete (p_id p) (pendings ps)) (numins ps) (numouts ps)).

Definition getPeer (ps : peerSet) (id : list Z) : option nat := peers ps !! id.
Definition Len (ps : peerSet) : nat := size (peers ps).

(** The loop of a peer ends and unregisters it ([run] of the announcement loop). *)
Definition loop_exit (ps : peerSet) (a : nat) (quit_closed : bool) : option peerSet :=
  p ← ps_store ps !! a;
  match p_loop p with
  | LoopRunning => ps ← unregister ps a; Some (set_store ps (<[a := with_loop p (LoopDone quit_closed)]> (ps_store ps)))
  | _ => None
  end.

(** [close]: a connected peer is marked closed and its loop is told to end; the
    caller waits for the loop.  Closing the quit channel again is a panic. *)
Definition peer_close (ps : peerSet) (a : nat) : option peerSet :=
  p ← ps_store ps !! a;
  if negb (isConnected p) then Some ps
  else
    let ps := set_store ps (<[a := with_status p PEER_CLOSED]> (ps_store ps)) in
    match p_loop p with
    | LoopNone => Some ps
    | LoopRunning => loop_exit ps a true
    | LoopDone false => Some (set_store ps (<[a := with_loop (with_status p PEER_CLOSED) (LoopDone true)]> (ps_store ps)))
    | LoopDone true => None
    end.

(** The iteration over a Go map visits its entries in some order. *)
Definition map_order (ps : peerSet) (order : list nat) : Prop := order ≡ₚ (map_to_list (peers ps)).*2.

Definition bestPeer (ps : peerSet) (order : list nat) : option nat :=
  (foldl (fun '(best, maxtd) a =>
    match ps_store ps !! a with
    | Some p => if maxtd <? p_td p then (Some a, p_td p) else (best, maxtd)
    | None => (best, maxtd)
    end) (None, 0) order).1.

Definition select_peers (ps : peerSet) (order : list nat) (f : peer -> bool) : list nat :=
  filter (fun a => match ps_store ps !! a with Some p => f p | None => false end = true) order.

(** [pick] is the random index of the source, reduced to the length. *)
Definition randomPeer (ps : peerSet) (order : list nat) (num : Z) (pick : nat) : option nat :=
  let l := select_peers ps order (fun p => num <=? p_bnum p) in
  match l with [] => None | _ => l !! (pick mod length l)%nat end.

Definition getRandomPeer (ps : peerSet) (order : list nat) (offering : bool) (pick : nat) : option nat :=
  let l := select_peers ps order (fun p => bool_decide (p_dir p = offering)) in
  match l with [] => None | _ => l !! (pick mod length l)%nat end.

(** The lists are shuffled; [order] is the order after the shuffle. *)
Definition peersWithoutBlock (ps : peerSet) (order : list nat) (h : list Z) : list nat :=
  select_peers ps order (fun p => negb (bool_decide (h ∈ kblks (p_known p)))).
Definition peersWithoutTx (ps : peerSet) (order : list nat) (h : list Z) : list nat :=
  select_peers ps order (fun p => negb (bool_decide (h ∈ ktxs (p_known p)))).
End peers.

(** ** The invariant of the peer set *)

Definition dir_of (st : gmap nat peer) (a : nat) : bool := match st !! a with Some p => p_dir p | None => false end.

(** The number of registered peers of a direction. *)
Definition count_dir (st : gmap nat peer) (m : gmap (list Z) nat) (d : bool) : Z :=
  Z.of_nat (size (filter (fun x => dir_of st x.2 = d) m)).

Record ps_inv (ps : peerSet) : Prop := MkPsInv {
  psi_peer : forall id a, peers ps !! id = Some a ->
    exists p, ps_store ps !! a = Some p /\ p_id p = id /\ p_loop p <> LoopNone;
  psi_pend : forall id a, pendings ps !! id = Some a -> exists p, ps_store ps !! a = Some p /\ p_id p = id;
  psi_run : forall a p, ps_store ps !! a = Some p -> p_loop p = LoopRunning -> peers ps !! p_id p = Some a;
  psi_next : forall a, is_Some (ps_store ps !! a) -> (a < ps_next ps)%nat;
  psi_ins : numins ps = count_dir (ps_store ps) (peers ps) false;
  psi_outs : numouts ps = count_dir (ps_store ps) (peers ps) true;
}.

(** What an update of the data of a peer keeps. *)
Definition same_peer (p q : peer) : Prop :=
  p_id q = p_id p /\ p_dir q = p_dir p /\
  (p_loop q = p_loop p \/ exists b b', p_loop p = LoopDone b /\ p_loop q = LoopDone b').

Section peerset_props.
  Context {L : NdnLib} {S : SetLib}.

Lemma count_dir_ext st st' m d :
  (forall id a, m !! id = Some a -> dir_of st a = dir_of st' a) -> count_dir st m d = count_dir st' m d.
Proof.
  intros H. unfold count_dir. do 2 f_equal. apply map_filter_ext. intros id a Hm. simpl. by rewrite (H id a Hm).
Qed.

Lemma count_dir_insert st m d id a :
  m !! id = None -> count_dir st (<[id := a]> m) d = count_dir st m d + (if bool_decide (dir_of st a = d) then 1 else 0).
Proof.
  intros Hm. unfold count_dir. case_bool_decide as Hd.
  - rewrite map_filter_insert_True, map_size_insert_None by (done || by apply map_lookup_filter_None; left). lia.
  - rewrite map_filter_insert_not' by (done || by intros y Hy; rewrite Hm in Hy). lia.
Qed.

Lemma count_dir_delete st m d id a :
  m !! id = Some a -> count_dir st (delete id m) d = count_dir st m d - (if bool_decide (dir_of st a = d) then 1 else 0).
Proof.
  intros Hm. rewrite <- (insert_delete_id m id a Hm) at 2. rewrite count_dir_insert by apply lookup_delete_eq. lia.
Qed.

Lemma dir_of_insert st a p q b : st !! a = Some p -> p_dir q = p_dir p -> dir_of (<[a := q]> st) b = dir_of st b.
Proof.
  intros Ha Hd. unfold dir_of. destruct (decide (a = b)) as [->|].
  - by rewrite lookup_insert_eq, Ha.
  - by rewrite lookup_insert_ne.
Qed.

Lemma dir_of_live st a p : st !! a = Some p -> dir_of st a = p_dir p.
Proof. intros Ha. unfold dir_of. by rewrite Ha. Qed.

Lemma newpeerset_inv : ps_inv newpeerset.
Proof. split; try done. intros a [? ?]. done. Qed.

(** Updating a peer in place. *)
Lemma store_update_inv ps a p q :
  ps_inv ps -> ps_store ps !! a = Some p -> same_peer p q -> ps_inv (set_store ps (<[a := q]> (ps_store ps))).
Proof.
  intros [H1 H2 H3 H4 H5 H6] Ha (Hid & Hdir & Hl).
  assert ((p_loop p <> LoopNone -> p_loop q <> LoopNone) /\ (p_loop q = LoopRunning -> p_loop p = LoopRunning)) as [Hl1 Hl2]
    by (destruct Hl as [->|(b & b' & -> & ->)]; done).
  split; cbn [ps_store peers pendings numins numouts ps_next set_store].
  - intros id b Hb. destruct (H1 id b Hb) as (p' & Hp' & ? & ?). destruct (decide (a = b)) as [->|Hne].
    + rewrite lookup_insert_eq. simplify_eq. eexists. split_and!; [done|congruence|by apply Hl1].
    + rewrite lookup_insert_ne by done. eauto.
  - intros id b Hb. destruct (H2 id b Hb) as (p' & Hp' & ?). destruct (decide (a = b)) as [->|Hne].
    + rewrite lookup_insert_eq. simplify_eq. eexists. split; [done|congruence].
    + rewrite lookup_insert_ne by done. eauto.
  - intros b p' Hb Hr. destruct (decide (a = b)) as [->|Hne].
    + rewrite lookup_insert_eq in Hb. simplify_eq. rewrite Hid. apply H3; [done|by apply Hl2].
    + rewrite lookup_insert_ne in Hb by done. by apply H3.
  - intros b Hb. apply H4. destruct (decide (a = b)) as [->|Hne]; [eauto|]. by rewrite lookup_insert_ne in Hb.
  - rewrite H5. apply count_dir_ext. intros id b _. symmetry. by eapply dir_of_insert.
  - rewrite H6. apply count_dir_ext. intros id b _. symmetry. by eapply dir_of_insert.
Qed.

Lemma makenewpeer_inv ps id pub prefix dir draws :
  ps_inv ps -> ps_inv (makenewpeer ps id pub prefix dir draws).2 /\
  exists p, ps_store (makenewpeer ps id pub prefix dir draws).2 !! (makenewpeer ps id pub prefix dir draws).1 = Some p /\ p_id p = id.
Proof.
  intros Hi. unfold makenewpeer. destruct (peers ps !! id) as [a|] eqn:E1.
  { split; [done|]. destruct (psi_peer _ Hi _ _ E1) as (p & ? & ? & _). eauto. }
  destruct (pendings ps !! id) as [a|] eqn:E2.
  { split; [done|]. destruct (psi_pend _ Hi _ _ E2) as (p & ? & ?). eauto. }
  destruct Hi as [H1 H2 H3 H4 H5 H6].
  assert (forall b, is_Some (ps_store ps !! b) -> ps_next ps <> b) as Hf by (intros b Hb; pose proof (H4 b Hb); lia).
  cbn [fst snd ps_store]. split; [|rewrite lookup_insert_eq; eauto].
  split; cbn [ps_store peers pendings numins numouts ps_next].
  - intros id' b Hb. destruct (H1 id' b Hb) as (p' & Hp' & ? & ?). rewrite lookup_insert_ne by (apply Hf; eauto). eauto.
  - intros id' b. destruct (decide (id = id')) as [<-|Hne].
    + rewrite lookup_insert_eq. intros [= <-]. rewrite lookup_insert_eq. eauto.
    + rewrite lookup_insert_ne by done. intros Hb. destruct (H2 id' b Hb) as (p' & Hp' & ?).
      rewrite lookup_insert_ne by (apply Hf; eauto). eauto.
  - intros b p'. destruct (decide (ps_next ps = b)) as [<-|Hne].
    + rewrite lookup_insert_eq. by intros [= <-].
    + rewrite lookup_insert_ne by done. apply H3.
  - intros b. destruct (decide (ps_next ps = b)) as [<-|Hne]; [lia|]. rewrite lookup_insert_ne by done. intros Hb%H4. lia.
  - rewrite H5. apply count_dir_ext. intros id' b Hb. destruct (H1 id' b Hb) as (p' & Hp' & _).
    unfold dir_of. by rewrite lookup_insert_ne by (apply Hf; eauto).
  - rewrite H6. apply count_dir_ext. intros id' b Hb. destruct (H1 id' b Hb) as (p' & Hp' & _).
    unfold dir_of. by rewrite lookup_insert_ne by (apply Hf; eauto).
Qed.

Lemma pend_delete_inv ps id :
  ps_inv ps -> ps_inv (MkPeerSet (ps_store ps) (ps_next ps) (peers ps) (delete id (pendings ps)) (numins ps) (numouts ps)).
Proof.
  intros [H1 H2 H3 H4 H5 H6]. split; simpl; try done.
  intros id' b [_ Hb]%lookup_delete_Some. eauto.
Qed.

Lemma startsendingloop_spec p : p_id (startsendingloop p) = p_id p /\ p_dir (startsendingloop p) = p_dir p /\
  p_loop (startsendingloop p) <> LoopNone.
Proof. unfold startsendingloop. destruct (p_loop p) eqn:E; split_and!; simpl; congruence. Qed.

Lemma register_inv ps a ok ps' :
  ps_inv ps -> register ps a = Some (ok, ps') -> ps_inv ps'.
Proof.
  intros Hi. unfold register. destruct (ps_store ps !! a) as [p|] eqn:Ha; [|done]. cbn [mbind option_bind].
  destruct (peers ps !! p_id p) as [b|] eqn:Hp; intros [= <- <-]; [by apply pend_delete_inv|].
  destruct (startsendingloop_spec (setConnected p)) as (Hid & Hdir & Hloop). change (p_id (setConnected p)) with (p_id p) in Hid.
  change (p_dir (setConnected p)) with (p_dir p) in Hdir. set (q := startsendingloop (setConnected p)) in *.
  destruct Hi as [H1 H2 H3 H4 H5 H6].
  assert (forall b, dir_of (<[a := q]> (ps_store ps)) b = dir_of (ps_store ps) b) as Hd by (intros b; by eapply dir_of_insert).
  assert (forall d, count_dir (<[a := q]> (ps_store ps)) (<[p_id q := a]> (peers ps)) d =
    count_dir (ps_store ps) (peers ps) d + (if bool_decide (p_dir q = d) then 1 else 0)) as Hcount.
  { intros d. rewrite count_dir_insert by (by rewrite Hid). rewrite Hd, (dir_of_live _ _ _ Ha), Hdir. f_equal.
    by apply count_dir_ext. }
  split; cbn [ps_store peers pendings numins numouts ps_next].
  - intros id b. destruct (decide (p_id q = id)) as [<-|Hne].
    + rewrite lookup_insert_eq. intros [= <-]. rewrite lookup_insert_eq. eauto.
    + rewrite lookup_insert_ne by done. intros Hb. destruct (H1 id b Hb) as (p' & Hp' & Hid' & ?).
      rewrite lookup_insert_ne; [eauto|]. intros <-. simplify_eq; congruence.
  - intros id b [_ Hb]%lookup_delete_Some. destruct (H2 id b Hb) as (p' & Hp' & ?). destruct (decide (a = b)) as [->|Hne].
    + rewrite lookup_insert_eq. simplify_eq. eauto.
    + rewrite lookup_insert_ne by done. eauto.
  - intros b p'. destruct (decide (a = b)) as [<-|Hne].
    + rewrite lookup_insert_eq. intros [= <-] _. apply lookup_insert_eq.
    + rewrite lookup_insert_ne by done. intros Hb Hr. pose proof (H3 b p' Hb Hr) as Hreg.
      rewrite lookup_insert_ne; [done|]. rewrite Hid. congruence.
  - intros b Hb. apply H4. destruct (decide (a = b)) as [<-|Hne]; [eauto|]. by rewrite lookup_insert_ne in Hb.
  - rewrite Hcount, H5. destruct (p_dir q); simpl; lia.
  - rewrite Hcount, H6. destruct (p_dir q); simpl; lia.
Qed.

Lemma loop_exit_inv ps a b0 ps' : ps_inv ps -> loop_exit ps a b0 = Some ps' -> ps_inv ps'.
Proof.
  intros [H1 H2 H3 H4 H5 H6]. unfold loop_exit, unregister. destruct (ps_store ps !! a) as [p|] eqn:Ha; [|done].
  cbn [mbind option_bind]. destruct (p_loop p) eqn:El; try done. pose proof (H3 a p Ha El) as Hreg. rewrite Hreg.
  cbn [mbind option_bind]. intros [= <-].
  assert (forall b, dir_of (<[a := with_loop p (LoopDone b0)]> (ps_store ps)) b = dir_of (ps_store ps) b) as Hd
    by (intros b; by eapply dir_of_insert).
  assert (forall d, count_dir (<[a := with_loop p (LoopDone b0)]> (ps_store ps)) (delete (p_id p) (peers ps)) d =
    count_dir (ps_store ps) (peers ps) d - (if bool_decide (p_dir p = d) then 1 else 0)) as Hcount.
  { intros d. erewrite count_dir_delete by done. rewrite Hd, (dir_of_live _ _ _ Ha). f_equal. by apply count_dir_ext. }
  split; cbn [ps_store peers pendings numins numouts ps_next set_store].
  - intros id b [Hne Hb]%lookup_delete_Some. destruct (H1 id b Hb) as (p' & Hp' & Hid' & ?).
    rewrite lookup_insert_ne; [eauto|]. intros <-. simplify_eq.
  - intros id b Hb. destruct (H2 id b Hb) as (p' & Hp' & ?). destruct (decide (a = b)) as [->|Hne].
    + rewrite lookup_insert_eq. simplify_eq. eauto.
    + rewrite lookup_insert_ne by done. eauto.
  - intros b p'. destruct (decide (a = b)) as [<-|Hne].
    + rewrite lookup_insert_eq. by intros [= <-].
    + rewrite lookup_insert_ne by done. intros Hb Hr. pose proof (H3 b p' Hb Hr) as Hr'.
      apply lookup_delete_Some. split; [|done]. intros E. rewrite E in Hreg. congruence.
  - intros b Hb. apply H4. destruct (decide (a = b)) as [<-|Hne]; [eauto|]. by rewrite lookup_insert_ne in Hb.
  - rewrite Hcount, H5. destruct (p_dir p); simpl; lia.
  - rewrite Hcount, H6. destruct (p_dir p); simpl; lia.
Qed.

(** The operations on the data of a peer. *)
Inductive peer_update (p : peer) : peer -> Prop :=
| pu_head head td bnum : peer_update p (SetHead p head td bnum).2
| pu_secret dhpub q : makesecret p dhpub = Some q -> peer_update p q
| pu_mark items : peer_update p (peer_markitems p items)
| pu_send item : peer_update p (doSend p item)
| pu_announce hs : peer_update p (announceTxs p hs).

Inductive ps_step (ps : peerSet) : peerSet -> Prop :=
| pss_make id pub prefix dir draws : ps_step ps (makenewpeer ps id pub prefix dir draws).2
| pss_register a ok ps' : register ps a = Some (ok, ps') -> ps_step ps ps'
| pss_reject a ps' : reject ps a = Some ps' -> ps_step ps ps'
| pss_exit a ps' : loop_exit ps a false = Some ps' -> ps_step ps ps'
| pss_close a ps' : peer_close ps a = Some ps' -> ps_step ps ps'
| pss_update a p q : ps_store ps !! a = Some p -> peer_update p q -> ps_step ps (set_store ps (<[a := q]> (ps_store ps))).

Lemma peer_update_same p q : peer_update p q -> same_peer p q.
Proof.
  intros [head td bnum|dhpub r Hm|items|item|hs].
  - unfold SetHead, same_peer. destruct (_ <? _); eauto.
  - unfold makesecret in Hm. destruct (p_group p); [|done]. destruct (p_dhprv p); [|done]. simpl in Hm.
    destruct (ComputeKey _ _ _); [|done]. destruct (Dh.Bytes _); [|done]. simpl in Hm. simplify_eq.
    unfold same_peer; eauto.
  - unfold same_peer; eauto.
  - unfold same_peer, doSend. repeat case_match; eauto.
  - unfold same_peer, announceTxs. repeat case_match; eauto.
Qed.

Lemma ps_step_inv ps ps' : ps_inv ps -> ps_step ps ps' -> ps_inv ps'.
Proof.
  intros Hi [id pub prefix dir draws|a ok ps1 Hr|a ps1 Hr|a ps1 Hr|a ps1 Hr|a p q Ha Hu].
  - by apply makenewpeer_inv.
  - by eapply register_inv.
  - unfold reject in Hr. destruct (ps_store ps !! a) as [p|]; [|done]. simpl in Hr. simplify_eq. by apply pend_delete_inv.
  - by eapply loop_exit_inv.
  - unfold peer_close in Hr. destruct (ps_store ps !! a) as [p|] eqn:Ha; [|done]. simpl in Hr.
    destruct (isConnected p); simpl in Hr; [|by simplify_eq].
    assert (ps_inv (set_store ps (<[a := with_status p PEER_CLOSED]> (ps_store ps)))) as Hi'
      by (eapply store_update_inv; [done|done|unfold same_peer; eauto]).
    destruct (p_loop p) as [| |[]] eqn:El; simplify_eq; [done|by eapply loop_exit_inv|].
    eapply store_update_inv; [exact Hi'|apply lookup_insert_eq|]. split_and!; [done|done|]. right. by exists false, true.
  - eapply store_update_inv; [done|done|]. by apply peer_update_same.
Qed.

Lemma ps_reachable_inv ps : rtc ps_step newpeerset ps -> ps_inv ps.
Proof.
  intros H. pose proof newpeerset_inv as Hi. revert Hi. induction H as [|ps1 ps2 ps3 Hs _ IH]; [done|].
  intros Hi. apply IH. by eapply ps_step_inv.
Qed.

Lemma count_total st m : count_dir st m false + count_dir st m true = Z.of_nat (size m).
Proof.
  unfold count_dir. induction m as [|id a m Hm IH] using map_ind; [done|].
  rewrite map_size_insert_None by done. destruct (dir_of st a) eqn:Ed.
  - rewrite map_filter_insert_not' by (simpl; congruence || by intros y Hy; rewrite Hm in Hy).
    rewrite map_filter_insert_True, map_size_insert_None by (done || by apply map_lookup_filter_None; left). lia.
  - rewrite (map_filter_insert_not' (fun x => dir_of st x.2 = true)) by (simpl; congruence || by intros y Hy; rewrite Hm in Hy).
    rewrite map_filter_insert_True, map_size_insert_None by (done || by apply map_lookup_filter_None; left). lia.
Qed.

(** C25. In every reachable peer set the two counters, on which the admission
    of peers depends, are exactly the numbers of registered peers of each
    direction, every registered or pending pointer is live and registered
    under its own identity, and a running announcement loop belongs to the
    registered peer. *)
Theorem peerset_invariant ps :
  rtc ps_step newpeerset ps ->
  numins ps = count_dir (ps_store ps) (peers ps) false /\
  numouts ps = count_dir (ps_store ps) (peers ps) true /\
  numins ps + numouts ps = Z.of_nat (Len ps) /\
  (forall id a, peers ps !! id = Some a \/ pendings ps !! id = Some a ->
     exists p, ps_store ps !! a = Some p /\ p_id p = id) /\
  (forall a p, ps_store ps !! a = Some p -> p_loop p = LoopRunning -> getPeer ps (p_id p) = Some a).
Proof.
  intros Hr. destruct (ps_reachable_inv ps Hr) as [H1 H2 H3 H4 H5 H6]. split_and!; try done.
  - rewrite H5, H6. apply count_total.
  - intros id a [H|H]; [|by apply H2]. destruct (H1 id a H) as (p & ? & ? & _). eauto.
Qed.

Lemma best_fold ps order best maxtd :
  let r := foldl (fun '(best, maxtd) a =>
    match ps_store ps !! a with
    | Some p => if maxtd <? p_td p then (Some a, p_td p) else (best, maxtd)
    | None => (best, maxtd)
    end) (best, maxtd) order in
  maxtd <= r.2 /\ (forall a p, a ∈ order -> ps_store ps !! a = Some p -> p_td p <= r.2) /\
  ((r = (best, maxtd)) \/ exists a p, a ∈ order /\ ps_store ps !! a = Some p /\ r = (Some a, p_td p) /\ maxtd < p_td p).
Proof.
  revert best maxtd. induction order as [|a order IH]; intros best maxtd; cbn [foldl].
  { split; [simpl; lia|]. split; [by intros ?? ?%elem_of_nil|by left]. }
  destruct (ps_store ps !! a) as [p|] eqn:Ha.
  - destruct (maxtd <? p_td p) eqn:E; bool_go.
    + destruct (IH (Some a) (p_td p)) as (I1 & I2 & I3). split; [lia|]. split.
      * intros b q [->|Hb]%elem_of_cons Hq; [simplify_eq; done|eauto].
      * right. destruct I3 as [->|(b & q & Hb & Hq & -> & Hlt)].
        -- exists a, p. split_and!; [left|done|done|done].
        -- exists b, q. split_and!; [by right|done|done|lia].
    + destruct (IH best maxtd) as (I1 & I2 & I3). split; [lia|]. split.
      * intros b q [->|Hb]%elem_of_cons Hq; [simplify_eq; lia|eauto].
      * destruct I3 as [->|(b & q & Hb & Hq & -> & Hlt)]; [by left|]. right. exists b, q. split_and!; [by right|done..].
  - destruct (IH best maxtd) as (I1 & I2 & I3). split; [lia|]. split.
    + intros b q [->|Hb]%elem_of_cons Hq; [congruence|eauto].
    + destruct I3 as [->|(b & q & Hb & Hq & -> & Hlt)]; [by left|]. right. exists b, q. split_and!; [by right|done..].
Qed.

(** [bestPeer] returns a registered peer of the highest total difficulty,
    whatever the iteration order of the map, and nothing exactly when no
    registered peer has a positive one. *)
Theorem bestPeer_max ps order :
  rtc ps_step newpeerset ps -> map_order ps order ->
  match bestPeer ps order with
  | Some a => exists p, ps_store ps !! a = Some p /\ peers ps !! p_id p = Some a /\ 0 < p_td p /\
      forall id b q, peers ps !! id = Some b -> ps_store ps !! b = Some q -> p_td q <= p_td p
  | None => forall id b q, peers ps !! id = Some b -> ps_store ps !! b = Some q -> p_td q <= 0
  end.
Proof.
  intros Hr Ho. pose proof (ps_reachable_inv ps Hr) as Hi. unfold bestPeer.
  assert (forall a, a ∈ order <-> exists id, peers ps !! id = Some a) as Hin.
  { intros a. rewrite Ho, list_elem_of_fmap. setoid_rewrite <- elem_of_map_to_list. split.
    - intros ([id b] & -> & H). by exists id.
    - intros (id & H). by exists (id, a). }
  destruct (best_fold ps order None 0) as (_ & Hmax & [E|(a & p & Ha & Hp & E & Hlt)]); rewrite E in *; cbn [fst snd] in *.
  - intros id b q Hb Hq. apply (Hmax b q); [|done]. apply Hin. eauto.
  - exists p. apply Hin in Ha as (id & Ha). destruct (psi_peer _ Hi _ _ Ha) as (p' & Hp' & Hid & _). simplify_eq.
    split_and!; try done. intros id b q Hb Hq. apply (Hmax b q); [|done]. apply Hin. eauto.
Qed.
End peerset_props.

(** ** Witnesses *)

Definition demo_ps : peerSet := (makenewpeer newpeerset [1; 2] [9] [47; 97] true [5]).2.

Definition demo_ps2 : peerSet := match register demo_ps 0 with Some (_, ps) => ps | None => demo_ps end.

Lemma demo_ps2_reachable : rtc ps_step newpeerset demo_ps2.
Proof.
  apply (rtc_l _ _ demo_ps); [constructor|]. apply rtc_once. apply (pss_register demo_ps 0 true). reflexivity.
Qed.

Lemma peerset_invariant_witness :
  numins demo_ps2 = count_dir (ps_store demo_ps2) (peers demo_ps2) false /\
  numouts demo_ps2 = count_dir (ps_store demo_ps2) (peers demo_ps2) true /\
  numins demo_ps2 + numouts demo_ps2 = Z.of_nat (Len demo_ps2) /\
  (forall id a, peers demo_ps2 !! id = Some a \/ pendings demo_ps2 !! id = Some a ->
     exists p, ps_store demo_ps2 !! a = Some p /\ p_id p = id) /\
  (forall a p, ps_store demo_ps2 !! a = Some p -> p_loop p = LoopRunning -> getPeer demo_ps2 (p_id p) = Some a).
Proof. apply (peerset_invariant demo_ps2 demo_ps2_reachable). Defined.

Lemma demo_order : map_order demo_ps2 [0%nat].
Proof. unfold map_order. assert ((map_to_list (peers demo_ps2)).*2 = [0%nat]) as -> by (vm_compute; reflexivity). done. Qed.

Lemma bestPeer_max_witness :
  map_order demo_ps2 [0%nat] /\
  match bestPeer demo_ps2 [0%nat] with
  | Some a => exists p, ps_store demo_ps2 !! a = Some p /\ peers demo_ps2 !! p_id p = Some a /\ 0 < p_td p /\
      forall id b q, peers demo_ps2 !! id = Some b -> ps_store demo_ps2 !! b = Some q -> p_td q <= p_td p
  | None => forall id b q, peers demo_ps2 !! id = Some b -> ps_store demo_ps2 !! b = Some q -> p_td q <= 0
  end.
Proof.
  split; [apply demo_order|]. apply (bestPeer_max demo_ps2 [0%nat] demo_ps2_reachable demo_order).
Defined.
