(* ===== verification/EthHandler.v ===== *)
(** * The protocol handler ([src/ndn/eth/handler.go], messages of [ethmsg.go]
    and [push.go])

    Handshake of two nodes, goodbyes, announcements in both directions.  The
    chain and the pool of a node enter through what the handler reads of them;
    what the handler asks of the other components (syncer, fetchers, pool,
    Kademlia server, transport) is recorded in order as a list of calls.
    Logging and metrics are left out.  A panic is [None]. *)

From S2P Require Import Prelude Bytes Rlp RlpStream RlpTypes KadId Names KadCrypto Cacher Dh EthTypes EthPush EthPeer.
Local Open Scope Z_scope.

Definition MAX_PUSH_BLOCKSIZE : Z := 1024.
Definition MAX_PUSH_TXSIZE : Z := 256.
Definition MIN_BROADCAST_PEERS : nat := 3.

(** ** Messages *)

Record StatusMsg := MkStatus {
  sPub : list Z; sDHPub : list Z; sPrefix : list Z; sNetworkId : Z; sTd : Z; sHead : list Z; sBnum : Z;
  sGenesis : list Z; sAccept : bool; sNonce : Z; sSig : list Z;
}.

Record ByeMsg := MkBye { bPub : list Z; bPrefix : list Z; bNonce : Z; bSig : list Z }.

Record PushMsg := MkPush { mNodeId : list Z; mItems : list PushItem; mNonce : Z; mSig : list Z }.

Definition encoded (v : value) : list Z := match EncodeToBytes v with Some w => w | None => [] end.

Section handler.
  Context {L : NdnLib} {C : CryptoLib} {S : SetLib}.

(** HMAC-SHA256 of the Go library. *)
Definition hmac_pad (key : list Z) (x : Z) : list Z :=
  let key := if (64 <? length key)%nat then sha256 key else key in
  (fun b => Z.lxor b x) <$> (key ++ replicate (64 - length key) 0).

Definition SignHmac256 (key message : list Z) : list Z :=
  sha256 (hmac_pad key 0x5c ++ sha256 (hmac_pad key 0x36 ++ message)).

Definition ValidateHmac256 (key message sig : list Z) : bool := bool_decide (sig = SignHmac256 key message).

Definition Status_signedpart (m : StatusMsg) : list Z :=
  encoded (VList [VBytes (sPub m); VBytes (sDHPub m); VBytes (sPrefix m); VUint (sNetworkId m); VBigInt (sTd m);
    VBytes (sHead m); VUint (sBnum m); VBytes (sGenesis m); VBool (sAccept m); VUint (sNonce m)]).

Definition with_sSig (m : StatusMsg) (sig : list Z) : StatusMsg :=
  MkStatus (sPub m) (sDHPub m) (sPrefix m) (sNetworkId m) (sTd m) (sHead m) (sBnum m) (sGenesis m) (sAccept m) (sNonce m) sig.

(** The error of [Sign] is ignored. *)
Definition Status_Sign (prv : list Z) (m : StatusMsg) : StatusMsg :=
  with_sSig m (match Crypto_Sign prv (Status_signedpart m) with Some s => s | None => [] end).
Definition Status_Verify (m : StatusMsg) : option bool := Crypto_Verify (Status_signedpart m) (sSig m) (sPub m).

Definition Bye_signedpart (m : ByeMsg) : list Z := encoded (VList [VBytes (bPub m); VBytes (bPrefix m); VUint (bNonce m)]).
Definition Bye_Sign (prv : list Z) (m : ByeMsg) : ByeMsg :=
  MkBye (bPub m) (bPrefix m) (bNonce m) (match Crypto_Sign prv (Bye_signedpart m) with Some s => s | None => [] end).
Definition Bye_Verify (m : ByeMsg) : option bool := Crypto_Verify (Bye_signedpart m) (bSig m) (bPub m).

(** [EncodeRLP] of an item: its type and its encoded content. *)
Definition item_value (it : PushItem) : option value :=
  w ← EncodeToBytes (icontent it); Some (VList [VUint (IType it); VBytes w]).
(** The error is ignored: what cannot be encoded is signed as nothing. *)
Definition Push_signedpart (m : PushMsg) : list Z :=
  match mapM item_value (mItems m) with
  | Some l => encoded (VList [VBytes (mNodeId m); VList l; VUint (mNonce m)])
  | None => []
  end.
Definition Push_Sign (key : list Z) (m : PushMsg) : PushMsg :=
  MkPush (mNodeId m) (mItems m) (mNonce m) (SignHmac256 key (Push_signedpart m)).
Definition Push_Verify (key : list Z) (m : PushMsg) : bool := ValidateHmac256 key (Push_signedpart m) (mSig m).

(** ** The controller *)

Inductive EthMsg := TtStatus (m : StatusMsg) | TtBye (m : ByeMsg) | TtPush (m : PushMsg).

(** A call on another component; a peer is its address. *)
Inductive call :=
| SyncerAddPeer (a : nat)
| SyncerPeerDropped (a : nat)
| SyncerPeerEvent
| TfetcherRemovePeer (a : nat)
| BfetcherRemovePeer (a : nat)
| TfetcherUpdate (it : PushItem)
| TfetcherAnnounce (a : nat) (h : list Z)
| BfetcherUpdate (a : nat) (it : PushItem)
| BfetcherAnnounce (a : nat) (it : PushItem)
| PoolAddRemotes (it : PushItem)
| ServerDropPeer (id : list Z)
| LoopSendAck (a : nat)
| Serve (reply : option EthMsg)
| SendInterest (a : nat) (msg : EthMsg)
| PostStart
| PostDone
| PostFailed.

Record Controller := MkController {
  c_id : list Z;
  c_prefix : list Z;
  c_pubkey : list Z;
  c_prv : list Z;
  c_networkId : Z;
  c_genesis : list Z;
  c_head : list Z;                (* hash, number and total difficulty of the current header *)
  c_bnum : Z;
  c_td : Z;
  c_pending : list (list Transaction);   (* the pending transactions by account, as iterated *)
  c_TxAccepting : bool;
  c_maxIns : Z;
  c_maxOuts : Z;
  c_peers : peerSet;
  c_cacher : ObjCacheManager;
  c_calls : list call;
}.

Definition set_peers (c : Controller) (ps : peerSet) : Controller :=
  MkController (c_id c) (c_prefix c) (c_pubkey c) (c_prv c) (c_networkId c) (c_genesis c) (c_head c) (c_bnum c)
    (c_td c) (c_pending c) (c_TxAccepting c) (c_maxIns c) (c_maxOuts c) ps (c_cacher c) (c_calls c).
Definition set_cacher (c : Controller) (m : ObjCacheManager) : Controller :=
  MkController (c_id c) (c_prefix c) (c_pubkey c) (c_prv c) (c_networkId c) (c_genesis c) (c_head c) (c_bnum c)
    (c_td c) (c_pending c) (c_TxAccepting c) (c_maxIns c) (c_maxOuts c) (c_peers c) m (c_calls c).
Definition set_accepting (c : Controller) (b : bool) : Controller :=
  MkController (c_id c) (c_prefix c) (c_pubkey c) (c_prv c) (c_networkId c) (c_genesis c) (c_head c) (c_bnum c)
    (c_td c) (c_pending c) b (c_maxIns c) (c_maxOuts c) (c_peers c) (c_cacher c) (c_calls c).
Definition emit (c : Controller) (l : list call) : Controller :=
  MkController (c_id c) (c_prefix c) (c_pubkey c) (c_prv c) (c_networkId c) (c_genesis c) (c_head c) (c_bnum c)
    (c_td c) (c_pending c) (c_TxAccepting c) (c_maxIns c) (c_maxOuts c) (c_peers c) (c_cacher c) (c_calls c ++ l).

Definition get_peer (c : Controller) (a : nat) : option peer := ps_store (c_peers c) !! a.
Definition put_peer (c : Controller) (a : nat) (p : peer) : Controller :=
  set_peers c (set_store (c_peers c) (<[a := p]> (ps_store (c_peers c)))).

Definition createStatusMsg (c : Controller) (dhpub : list Z) (nonce : Z) (accept : bool) : StatusMsg :=
  Status_Sign (c_prv c) (MkStatus (c_pubkey c) dhpub (c_prefix c) (c_networkId c) (c_td c) (c_head c) (c_bnum c)
    (c_genesis c) accept nonce []).

Definition checkHandshake (c : Controller) (m : StatusMsg) : bool :=
  (c_networkId c =? sNetworkId m) && bool_decide (c_genesis c = sGenesis m).

(** [p.dhprv.Bytes()] *)
Definition dh_bytes (p : peer) : option (list Z) := k ← p_dhprv p; Dh.Bytes k.

(** [kad.MakeID(pub, prefix).String()] *)
Definition node_id (pub prefix : list Z) : list Z := ID_String (MakeID keccak256 pub prefix).

Definition txSync (c : Controller) (a : nat) : option Controller :=
  p ← get_peer c a;
  Some (match Tx_Hash <$> concat (c_pending c) with [] => c | hs => put_peer c a (announceTxs p hs) end).

(** The common end of both sides of the handshake: register, tell the syncer,
    announce the pending transactions. *)
Definition register_peer (c : Controller) (a : nat) : option Controller :=
  match register (c_peers c) a with
  | None => None
  | Some (false, ps) => Some (set_peers c ps)
  | Some (true, ps) => txSync (emit (set_peers c ps) [SyncerAddPeer a]) a
  end.

(** [onNewKadPeer] up to the request. *)
Definition onNewKadPeer_send (c : Controller) (id pub prefix draws : list Z) (nonce : Z)
  : option (option (nat * StatusMsg) * Controller) :=
  if c_maxOuts c <=? numouts (c_peers c) then Some (None, c)
  else
    let '(a, ps) := makenewpeer (c_peers c) id pub prefix true draws in
    let c := set_peers c ps in
    p ← get_peer c a;
    if isConnected p then Some (None, c)
    else
      dhpub ← dh_bytes p;
      let msg := createStatusMsg c dhpub nonce true in
      Some (Some (a, msg), emit c [SendInterest a (TtStatus msg)]).

(** [sendStatus] on the response; [None] inside is a transport error, an empty
    reply or one of another type.  The head of the peer is set from the
    message that was sent. *)
Definition sendStatus (c : Controller) (a : nat) (msg : StatusMsg) (reply : option StatusMsg)
  : option (option (list Z) * Controller) :=
  match reply with
  | None => Some (None, c)
  | Some response =>
    ok ← Status_Verify response;
    if negb ok then Some (None, c)
    else if sAccept response && checkHandshake c response then
      p ← get_peer c a;
      Some (Some (sDHPub response), put_peer c a (SetHead p (sHead msg) (sTd msg) (sBnum msg)).2)
    else Some (None, c)
  end.

(** [onNewKadPeer] after the request. *)
Definition onNewKadPeer_reply (c : Controller) (a : nat) (msg : StatusMsg) (reply : option StatusMsg) : option Controller :=
  match sendStatus c a msg reply with
  | None => None
  | Some (None, c) => ps ← reject (c_peers c) a; Some (set_peers c ps)
  | Some (Some dhpub, c) =>
    p ← get_peer c a;
    p ← makesecret p dhpub;
    register_peer (put_peer c a p) a
  end.

(** [receiveStatus].  A peer exists only where it was accepted, so the branch
    that rejects one is not reached. *)
Definition receiveStatus (c : Controller) (msg : StatusMsg) (draws : list Z) : option Controller :=
  ok ← Status_Verify msg;
  if negb ok then Some c
  else
    let id := node_id (sPub msg) (sPrefix msg) in
    if (numins (c_peers c) <? c_maxIns c) && checkHandshake c msg then
      let '(a, ps) := makenewpeer (c_peers c) id (sPub msg) (sPrefix msg) false draws in
      let c := set_peers c ps in
      p ← get_peer c a;
      let p := (SetHead p (sHead msg) (sTd msg) (sBnum msg)).2 in
      dhpub ← dh_bytes p;
      p ← makesecret p (sDHPub msg);
      let c := put_peer c a p in
      let c := emit c [Serve (Some (TtStatus (createStatusMsg c dhpub (sNonce msg) true)))] in
      if isConnected p then Some c else register_peer c a
    else Some (emit c [Serve (Some (TtStatus (createStatusMsg c [] (sNonce msg) false)))]).

(** ** Goodbyes *)

Definition createBye (c : Controller) (nonce : Z) : ByeMsg :=
  Bye_Sign (c_prv c) (MkBye (c_pubkey c) (c_prefix c) nonce []).

Definition close_peer (c : Controller) (a : nat) : option Controller :=
  ps ← peer_close (c_peers c) a; Some (set_peers c ps).

Definition dropPeerAfterBye (c : Controller) (a : nat) (announcekad : bool) : option Controller :=
  c ← close_peer (emit c [SyncerPeerDropped a; TfetcherRemovePeer a; BfetcherRemovePeer a]) a;
  p ← get_peer c a;
  Some (if announcekad then emit c [ServerDropPeer (p_id p)] else c).

Definition dropPeer (c : Controller) (a : nat) (announcekad : bool) (nonce : Z) : option Controller :=
  dropPeerAfterBye (emit c [SendInterest a (TtBye (createBye c nonce))]) a announcekad.

(** [interest] says whether the message came in an Interest. *)
Definition receiveBye (c : Controller) (interest : bool) (msg : ByeMsg) : option Controller :=
  ok ← Bye_Verify msg;
  if negb ok then Some c
  else match getPeer (c_peers c) (node_id (bPub msg) (bPrefix msg)) with
  | None => Some c
  | Some a => dropPeerAfterBye (if interest then emit c [Serve None] else c) a true
  end.

Definition onDropKadPeer (c : Controller) (id : list Z) : option Controller :=
  match getPeer (c_peers c) (ID_String id) with
  | None => Some c
  | Some a => close_peer (emit c [SyncerPeerDropped a; TfetcherRemovePeer a; BfetcherRemovePeer a]) a
  end.

(** [dropRandomPeer]: the orders, picks and nonces are the random choices; the
    second order is taken of the set after the first drop. *)
Definition dropRandomPeer (c : Controller) (isdownloading : bool) (order1 order2 : list nat) (pick1 pick2 : nat) (n1 n2 : Z)
  : option Controller :=
  if isdownloading then Some c
  else
    c ← (if c_maxIns c <=? numins (c_peers c) then
           match getRandomPeer (c_peers c) order1 false pick1 with Some a => dropPeer c a true n1 | None => Some c end
         else Some c);
    if c_maxOuts c <=? numouts (c_peers c) then
      match getRandomPeer (c_peers c) order2 true pick2 with Some a => dropPeer c a true n2 | None => Some c end
    else Some c.

(** [announceQuit]: one goroutine per peer; [order] is the order they run in.
    All send the same message. *)
Fixpoint announceQuit_loop (c : Controller) (msg : ByeMsg) (order : list nat) : option Controller :=
  match order with
  | [] => Some c
  | a :: order => c ← close_peer c a; announceQuit_loop (emit c [SendInterest a (TtBye msg)]) msg order
  end.
Definition announceQuit (c : Controller) (order : list nat) (nonce : Z) : option Controller :=
  announceQuit_loop c (createBye c nonce) order.

Fixpoint SetPeersHead_loop (c : Controller) (l : list nat) (hash : list Z) (td number : Z) (change : bool) : option (bool * Controller) :=
  match l with
  | [] => Some (change, c)
  | a :: l =>
    p ← get_peer c a;
    let r := SetHead p hash td number in
    SetPeersHead_loop (put_peer c a r.2) l hash td number (change || r.1)
  end.
Definition SetPeersHead (c : Controller) (l : list nat) (hash : list Z) (td number : Z) : option Controller :=
  r ← SetPeersHead_loop c l hash td number false;
  Some (if r.1 : bool then emit r.2 [SyncerPeerEvent] else r.2).

(** ** Announcements to the peers *)

Definition send_to (c : Controller) (a : nat) (item : PushItem) : Controller :=
  match get_peer c a with Some p => put_peer c a (doSend p item) | None => c end.

Definition send_all (c : Controller) (l : list (nat * PushItem)) : Controller :=
  foldl (fun c '(a, item) => send_to c a item) c l.

Definition tx_hash_item (h : list Z) : PushItem := MkItem ITypeTxHash [] h (VBytes h).
Definition tx_item (tx : Transaction) : PushItem := MkItem ITypeTx [] (Tx_Hash tx) (rlp_value tx).

(** One transaction of [propagateTxs]; the square root is computed and then
    overwritten with 1. *)
Definition propagateTx (c : Controller) (order : list nat) (tx : Transaction) : Controller :=
  let thash := Tx_Hash tx in
  let ps := peersWithoutTx (c_peers c) order thash in
  if MAX_PUSH_TXSIZE <? Tx_Size tx then send_all c ((fun a => (a, tx_hash_item thash)) <$> ps)
  else send_all c (imap (fun k a => (a, if (k <? 1)%nat then tx_item tx else tx_hash_item thash)) ps).

Definition propagateTxs (c : Controller) (orders : Transaction -> list nat) (txs : list Transaction) : Controller :=
  foldl (fun c tx => propagateTx c (orders tx) tx) c txs.

Record EthBlockQuery := MkBlockQuery { bqPart : Z; bqHash : list Z; bqNumber : Z }.
Definition BlockPartHeader : Z := 0.
Definition BlockPartBody : Z := 1.
Definition BlockPartFull : Z := 2.
Definition BlockQuery_GetId (q : EthBlockQuery) : list Z :=
  hex_encode (sha256 (encoded (VList [VUint (bqPart q); VBytes (bqHash q); VUint (bqNumber q)]))).

Definition cacheBlockBody (c : Controller) (now : Z) (b : Block) : option (Z * Controller) :=
  let body := Block_Body b in
  match body_txs body, body_uncles body with
  | [], [] => Some (0, c)
  | _, _ =>
    let queryid := BlockQuery_GetId (MkBlockQuery BlockPartBody (Block_Hash b) (NumberU64 b)) in
    match getSegment (c_cacher c) now queryid 0 with
    | None => None
    | Some (Ok _, num, m) => Some (num, set_cacher c m)
    | Some (Err _, _, m) =>
      match manager_cache m now queryid (encoded (rlp_value body)) with
      | None => None
      | Some (_, num, m) => Some (num, set_cacher c m)
      end
    end
  end.

Definition block_item (b : Block) (td : Z) : PushItem :=
  MkItem ITypeBlock [] (Block_Hash b) (VList [rlp_value b; VBigInt td]).
Definition header_item (c : Controller) (b : Block) (td numsegments : Z) : PushItem :=
  MkItem ITypeBlockHeader [] (Block_Hash b) (VList [rlp_value (header b); VBigInt td; VBytes (c_prefix c); VUint numsegments]).
Definition hash_item (b : Block) (numsegments : Z) : PushItem :=
  MkItem ITypeBlockHash [] (Block_Hash b) (VList [VBytes (Block_Hash b); VUint (NumberU64 b); VUint numsegments]).

(** [propagateBlock]: [parent_td] is the total difficulty of the parent when
    the chain has it.  The number of peers for a block that was not mined here
    is computed in a variable of the inner scope; the outer one stays 0. *)
Definition propagateBlock (c : Controller) (now : Z) (order : list nat) (parent_td : option Z) (b : Block) (isminer : bool)
  : option Controller :=
  match parent_td with
  | None => Some c
  | Some ptd =>
    let td := Difficulty (header b) + ptd in
    let ps := peersWithoutBlock (c_peers c) order (Block_Hash b) in
    match ps with
    | [] => Some c
    | _ =>
      let l := if isminer then length ps else 0%nat in
      r ← cacheBlockBody c now b;
      Some (send_all r.2 (mjoin (imap (fun i a =>
        if (i <? l)%nat then
          if Block_Size b <=? MAX_PUSH_BLOCKSIZE then [(a, block_item b td)] else [(a, header_item c b td r.1)]
        else if isminer then [(a, hash_item b r.1)] else []) ps)))
    end
  end.

Definition announceBlock (c : Controller) (now : Z) (order : list nat) (b : Block) : option Controller :=
  let ps := peersWithoutBlock (c_peers c) order (Block_Hash b) in
  match ps with
  | [] => Some c
  | _ =>
    r ← cacheBlockBody c now b;
    Some (send_all r.2 ((fun a => (a, hash_item b r.1)) <$> ps))
  end.

(** [propagateHeader]: [int(math.Sqrt(float64(n)))] is the integer square root
    for the numbers of peers that occur. *)
Definition propagateHeader (c : Controller) (order : list nat) (hash : list Z) (content : value) : Controller :=
  let ps := peersWithoutBlock (c_peers c) order hash in
  let l := Nat.sqrt (length ps) in
  let l := if (l <? MIN_BROADCAST_PEERS)%nat then MIN_BROADCAST_PEERS else l in
  let l := if (length ps <? l)%nat then length ps else l in
  send_all c ((fun a => (a, MkItem ITypeBlockHeader [] hash content)) <$> take l ps).

(** ** Announcements from a peer *)

Definition push_item_calls (accepttx : bool) (a : nat) (it : PushItem) : list call :=
  if IType it =? ITypeTx then if accepttx then [TfetcherUpdate it; PoolAddRemotes it] else []
  else if IType it =? ITypeTxHash then if accepttx then [TfetcherAnnounce a (ihash it)] else []
  else if IType it =? ITypeBlock then [BfetcherUpdate a it]
  else if IType it =? ITypeBlockHeader then [BfetcherAnnounce a it]
  else if IType it =? ITypeBlockHash then [BfetcherAnnounce a it]
  else [].

Definition handlePushMsg (c : Controller) (a : nat) (msg : PushMsg) (verified : bool) : option Controller :=
  p ← get_peer c a;
  if negb verified && negb (Push_Verify (p_secret p) msg) then Some c
  else Some (emit c (mItems msg ≫= push_item_calls (c_TxAccepting c) a)).

(** [p.sendAck] *)
Definition peer_sendAck (c : Controller) (a : nat) (p : peer) : Controller :=
  if isConnected p then emit c [LoopSendAck a] else c.

Definition receivePushMsg (c : Controller) (msg : PushMsg) (nonce : Z) : option Controller :=
  match getPeer (c_peers c) (mNodeId msg) with
  | None => Some c
  | Some a =>
    p ← get_peer c a;
    if Push_Verify (p_secret p) msg then
      handlePushMsg (peer_sendAck (put_peer c a (peer_markitems p (mItems msg))) a p) a msg true
    else Some (emit c [Serve (Some (TtBye (createBye c nonce)))])
  end.

(** [receiveEthMsg]; [draws] and [nonce] are the random numbers of the handler. *)
Definition receiveEthMsg (c : Controller) (msg : option EthMsg) (draws : list Z) (nonce : Z) : option Controller :=
  match msg with
  | None => Some (emit c [Serve None])
  | Some (TtPush m) => receivePushMsg c m nonce
  | Some (TtStatus m) => receiveStatus c m draws
  | Some (TtBye m) => receiveBye c true m
  end.

(** The job that handles a message in an acknowledgement. *)
Definition ackMsg_Execute (c : Controller) (a : nat) (msg : EthMsg) : option Controller :=
  match msg with
  | TtPush m => handlePushMsg c a m false
  | TtBye m => receiveBye c false m
  | TtStatus _ => Some c
  end.

(** ** Chain synchronisation *)

Definition onChainsyncStarted (c : Controller) : Controller := emit (set_accepting c false) [PostStart].

(** [block] is the current block; it is announced on failure too. *)
Definition onChainsyncCompleted (c : Controller) (now : Z) (order : list nat) (block : Block) (failed : bool) : option Controller :=
  let c := if failed then emit c [PostFailed] else emit (set_accepting c true) [PostDone] in
  announceBlock c now order block.
End handler.
