(* ===== verification/EthHandshake.v ===== *)
(** * What the protocol handler achieves ([src/ndn/eth/handler.go])

    The handshake of two nodes ends with both registered under a common
    secret, which authenticates the announcements that follow; a mined block
    reaches every peer that lacks it, a relayed one reaches nobody; a hostile
    status message stops the node. *)

From S2P Require Import Prelude Bytes Rlp RlpStream RlpTypes KadId Names KadCrypto Cacher Dh EthTypes EthPush EthPeer EthHandler.
Local Open Scope Z_scope.

Section handshake.
  Context {L : NdnLib} {C : CryptoLib} {HC : CryptoLaws C} {S : SetLib}.

(** The node signs with its own key. *)
Definition can_sign (c : Controller) : Prop :=
  c_pubkey c = c_pub (c_prv c) /\ forall m, is_Some (Crypto_Sign (c_prv c) m).

Definition fresh_id (c : Controller) (id : list Z) : Prop :=
  peers (c_peers c) !! id = None /\ pendings (c_peers c) !! id = None.

(** The random source delivers numbers below the prime, one of them not 0. *)
Definition draws_ok (draws : list Z) : Prop :=
  Forall (fun x => 0 <= x < prime14) draws /\ is_Some (draw_nonzero draws).

Lemma signed_verifies c m : can_sign c -> sPub m = c_pubkey c -> Status_Verify (Status_Sign (c_prv c) m) = Some true.
Proof.
  intros [Hp Hs] Hm. unfold Status_Verify, Status_Sign. destruct (Hs (Status_signedpart m)) as [sig Hsig]. rewrite Hsig.
  change (Status_signedpart (with_sSig m sig)) with (Status_signedpart m). cbn [sSig sPub with_sSig]. rewrite Hm, Hp.
  destruct (sign_verifies _ _ _ Hsig) as [Hl Hv]. unfold Crypto_Verify. destruct sig as [|b sig]; [done|].
  rewrite Hl. change (65 - 1)%nat with 64%nat. by rewrite Hv.
Qed.

Lemma createStatusMsg_verifies c d n b : can_sign c -> Status_Verify (createStatusMsg c d n b) = Some true.
Proof. intros H. by apply signed_verifies. Qed.

Definition group14 : DHGroup := MkGroup prime14 2.

Lemma newpeer_key id pub prefix dir draws : draws_ok draws ->
  exists k, p_dhprv (newpeer id pub prefix dir draws) = Some k /\ key_of group14 k.
Proof.
  intros [Hd [x Hx]]. exists (MkKey (Some x) (Some (Exp 2 x prime14)) (Some group14)).
  assert (GeneratePrivateKey group14 draws = Some (MkKey (Some x) (Some (Exp 2 x prime14)) (Some group14))) as Hg
    by (unfold GeneratePrivateKey; by rewrite Hx).
  split; [exact Hg|]. by eapply (GeneratePrivateKey_key group14 draws).
Qed.

Lemma makesecret_ok p g k w kk wk : p_group p = Some g -> p_dhprv p = Some k ->
  ComputeKey g (NewPublicKey w) k = Ok kk -> Dh.Bytes kk = Some wk ->
  makesecret p w = Some (with_secret p (copy_secret (p_secret p) wk)).
Proof. intros Hg Hk Hc Hb. unfold makesecret. rewrite Hg, Hk. cbn [mbind option_bind]. by rewrite Hc, Hb. Qed.

Lemma makenewpeer_fresh c id pub prefix dir draws : fresh_id c id ->
  makenewpeer (c_peers c) id pub prefix dir draws =
    (ps_next (c_peers c), MkPeerSet (<[ps_next (c_peers c) := newpeer id pub prefix dir draws]> (ps_store (c_peers c)))
       (ps_next (c_peers c) + 1)%nat (peers (c_peers c)) (<[id := ps_next (c_peers c)]> (pendings (c_peers c)))
       (numins (c_peers c)) (numouts (c_peers c))).
Proof. intros [H1 H2]. unfold makenewpeer. by rewrite H1, H2. Qed.

(** Registering a peer that is not registered yet. *)
Lemma register_peer_ok c a p : get_peer c a = Some p -> peers (c_peers c) !! p_id p = None ->
  exists c' q, register_peer c a = Some c' /\ getPeer (c_peers c') (p_id p) = Some a /\ get_peer c' a = Some q /\
    isConnected q = true /\ p_secret q = p_secret p /\ (p_head q, p_td q, p_bnum q) = (p_head p, p_td p, p_bnum p) /\
    c_calls c' = c_calls c ++ [SyncerAddPeer a] /\ c_TxAccepting c' = c_TxAccepting c.
Proof.
  intros Ha Hid. unfold register_peer, register. unfold get_peer in Ha. rewrite Ha. cbn [mbind option_bind]. rewrite Hid.
  set (q := startsendingloop (setConnected p)).
  assert (p_id q = p_id p /\ isConnected q = true /\ p_secret q = p_secret p /\ p_head q = p_head p /\ p_td q = p_td p /\
    p_bnum q = p_bnum p) as (Hq & Hc & Hs & Hh & Ht & Hb) by (unfold q, startsendingloop; by destruct (p_loop _)).
  unfold txSync, get_peer, getPeer. cbn [emit set_peers c_peers ps_store c_pending]. rewrite lookup_insert_eq. cbn [mbind option_bind].
  destruct (Tx_Hash <$> concat (c_pending c)) as [|h hs].
  - eexists _, q. split; [done|]. cbn [c_peers emit set_peers getPeer peers ps_store c_calls c_TxAccepting].
    rewrite Hq, !lookup_insert_eq. split_and!; congruence.
  - eexists _, (announceTxs q (h :: hs)). split; [done|]. unfold put_peer, announceTxs. rewrite Hc.
    cbn [negb c_peers emit set_peers set_store getPeer peers ps_store c_calls c_TxAccepting].
    rewrite Hq, !lookup_insert_eq. unfold isConnected in *. cbn. split_and!; try done; congruence.
Qed.

(** An announcement under the common secret is accepted: the items are marked
    as known to the peer, acknowledged and handed on in order. *)
Lemma push_accepted c a p items n nonce id :
  getPeer (c_peers c) id = Some a -> get_peer c a = Some p -> isConnected p = true ->
  exists c', receivePushMsg c (Push_Sign (p_secret p) (MkPush id items n [])) nonce = Some c' /\
    c_calls c' = c_calls c ++ LoopSendAck a :: (items ≫= push_item_calls (c_TxAccepting c) a) /\
    get_peer c' a = Some (peer_markitems p items).
Proof.
  intros Hg Ha Hc. unfold receivePushMsg. cbn [mNodeId Push_Sign mItems]. rewrite Hg, Ha. cbn [mbind option_bind].
  assert (Push_Verify (p_secret p) (Push_Sign (p_secret p) (MkPush id items n [])) = true) as ->
    by (unfold Push_Verify, ValidateHmac256; by apply bool_decide_eq_true).
  unfold peer_sendAck, handlePushMsg, get_peer, put_peer. rewrite Hc.
  cbn [emit c_peers set_peers set_store ps_store mItems Push_Sign]. rewrite lookup_insert_eq. cbn [mbind option_bind negb andb].
  eexists. split; [done|]. cbn [emit c_calls set_peers c_peers set_store ps_store c_TxAccepting].
  rewrite lookup_insert_eq. split; [|done]. by rewrite <- app_assoc.
Qed.

(** The three parts of the handshake. *)
Lemma send_ok A id pub prefix draws nonce :
  fresh_id A id -> numouts (c_peers A) < c_maxOuts A -> draws_ok draws ->
  let a := ps_next (c_peers A) in let p := newpeer id pub prefix true draws in
  exists k w A1, p_dhprv p = Some k /\ key_of group14 k /\ Dh.Bytes k = Some w /\
    onNewKadPeer_send A id pub prefix draws nonce = Some (Some (a, createStatusMsg A w nonce true), A1) /\
    get_peer A1 a = Some p /\ peers (c_peers A1) = peers (c_peers A) /\
    c_networkId A1 = c_networkId A /\ c_genesis A1 = c_genesis A.
Proof.
  intros Hf Hn Hd a p. destruct (newpeer_key id pub prefix true draws Hd) as (k & Hk & Hkey).
  destruct (dh_agree group14 k k (GetGroup_ok 0 _ eq_refl) Hkey Hkey) as (w & _ & _ & _ & Hw & _).
  exists k, w. eexists. split; [done|]. split; [done|]. split; [done|]. unfold onNewKadPeer_send.
  rewrite (proj2 (Z.leb_gt _ _)) by done. rewrite makenewpeer_fresh by done. unfold get_peer.
  cbn [c_peers set_peers ps_store]. rewrite lookup_insert_eq. cbn [mbind option_bind].
  change (isConnected (newpeer id pub prefix true draws)) with false. cbn [negb]. unfold dh_bytes. rewrite Hk.
  cbn [mbind option_bind]. rewrite Hw. split; [reflexivity|].
  cbn [c_peers emit set_peers ps_store peers c_networkId c_genesis]. rewrite lookup_insert_eq. done.
Qed.

Lemma receive_ok B msg draws ka :
  let id := node_id (sPub msg) (sPrefix msg) in
  Status_Verify msg = Some true -> checkHandshake B msg = true -> numins (c_peers B) < c_maxIns B ->
  fresh_id B id -> draws_ok draws -> key_of group14 ka -> Dh.Bytes ka = Some (sDHPub msg) ->
  exists wb kk wk B1 b pb, receiveStatus B msg draws = Some B1 /\
    c_calls B1 = c_calls B ++ [Serve (Some (TtStatus (createStatusMsg B wb (sNonce msg) true))); SyncerAddPeer b] /\
    ComputeKey group14 (NewPublicKey wb) ka = Ok kk /\ Dh.Bytes kk = Some wk /\
    getPeer (c_peers B1) id = Some b /\ get_peer B1 b = Some pb /\ isConnected pb = true /\
    p_secret pb = copy_secret (replicate 32 0) wk /\ c_TxAccepting B1 = c_TxAccepting B /\
    (0 < sTd msg -> (p_head pb, p_td pb, p_bnum pb) = (sHead msg, sTd msg, sBnum msg)).
Proof.
  intros id Hv Hh Hn Hf Hd Hka Hwa. destruct (newpeer_key id (sPub msg) (sPrefix msg) false draws Hd) as (kb & Hkb & Hkey).
  destruct (dh_agree group14 ka kb (GetGroup_ok 0 _ eq_refl) Hka Hkey) as (wa & wb & kk & wk & Hwa' & Hwb & HkA & HkB & Hwk).
  rewrite Hwa in Hwa'. injection Hwa' as <-.
  unfold receiveStatus. rewrite Hv. cbn [mbind option_bind negb]. rewrite Hh, (proj2 (Z.ltb_lt _ _)) by done. cbn [andb].
  fold id. rewrite makenewpeer_fresh by done. set (p := newpeer id (sPub msg) (sPrefix msg) false draws) in *.
  unfold get_peer at 1. cbn [c_peers set_peers ps_store]. rewrite lookup_insert_eq. cbn [mbind option_bind].
  set (q := (SetHead p (sHead msg) (sTd msg) (sBnum msg)).2).
  assert (p_dhprv q = Some kb /\ p_group q = Some group14 /\ p_secret q = replicate 32 0 /\ p_id q = id /\ isConnected q = false)
    as (Hq1 & Hq2 & Hq3 & Hq4 & Hq5) by (unfold q, SetHead; destruct (_ <? _); done).
  unfold dh_bytes. rewrite Hq1. cbn [mbind option_bind]. rewrite Hwb. cbn [mbind option_bind].
  rewrite (makesecret_ok q group14 kb (sDHPub msg) kk wk) by done. cbn [mbind option_bind]. rewrite Hq3.
  set (q' := with_secret q _). change (isConnected q') with (isConnected q). rewrite Hq5.
  match goal with |- context [register_peer ?c ?a] => destruct (register_peer_ok c a q') as
    (B1 & pb & Hr & Hg & Hp & Hc & Hs & Hhd & Hcalls & Hacc) end.
  { unfold get_peer, put_peer. cbn [c_peers emit set_peers set_store ps_store]. apply lookup_insert_eq. }
  { change (p_id q') with (p_id q). rewrite Hq4. apply Hf. }
  exists wb, kk, wk, B1, (ps_next (c_peers B)), pb. split_and!; try done.
  - rewrite Hcalls. cbn [emit c_calls put_peer set_peers]. by rewrite <- app_assoc.
  - rewrite <- Hq4. exact Hg.
  - intros Ht. rewrite Hhd. unfold q', q, SetHead. by rewrite (proj2 (Z.ltb_lt (p_td p) (sTd msg))).
Qed.

Lemma reply_ok A1 a p k msg response kk wk :
  get_peer A1 a = Some p -> peers (c_peers A1) !! p_id p = None ->
  p_group p = Some group14 -> p_dhprv p = Some k -> p_secret p = replicate 32 0 -> p_td p = 0 ->
  Status_Verify response = Some true -> sAccept response = true -> checkHandshake A1 response = true ->
  ComputeKey group14 (NewPublicKey (sDHPub response)) k = Ok kk -> Dh.Bytes kk = Some wk ->
  exists A2 pa, onNewKadPeer_reply A1 a msg (Some response) = Some A2 /\
    getPeer (c_peers A2) (p_id p) = Some a /\ get_peer A2 a = Some pa /\ isConnected pa = true /\
    p_secret pa = copy_secret (replicate 32 0) wk /\ c_calls A2 = c_calls A1 ++ [SyncerAddPeer a] /\
    (0 < sTd msg -> (p_head pa, p_td pa, p_bnum pa) = (sHead msg, sTd msg, sBnum msg)).
Proof.
  intros Ha Hid Hg Hk Hs Ht Hv Hacc Hh Hc Hw. unfold onNewKadPeer_reply, sendStatus. rewrite Hv. cbn [mbind option_bind negb].
  rewrite Hacc, Hh. cbn [andb]. rewrite Ha. cbn [mbind option_bind].
  set (q := (SetHead p (sHead msg) (sTd msg) (sBnum msg)).2).
  assert (p_dhprv q = Some k /\ p_group q = Some group14 /\ p_secret q = replicate 32 0 /\ p_id q = p_id p)
    as (Hq1 & Hq2 & Hq3 & Hq4) by (unfold q, SetHead; destruct (_ <? _); done).
  unfold get_peer, put_peer. cbn [c_peers set_peers set_store ps_store]. rewrite lookup_insert_eq.
  cbn [mbind option_bind]. rewrite (makesecret_ok q group14 k _ kk wk) by done. cbn [mbind option_bind]. rewrite Hq3.
  set (q' := with_secret q _).
  match goal with |- context [register_peer ?c ?a] => destruct (register_peer_ok c a q') as
    (A2 & pa & Hr & Hgp & Hp & Hco & Hse & Hhd & Hcalls & _) end.
  { unfold get_peer, put_peer. cbn [c_peers set_peers set_store ps_store]. apply lookup_insert_eq. }
  { change (p_id q') with (p_id q). rewrite Hq4. exact Hid. }
  exists A2, pa. split_and!; try done.
  - rewrite <- Hq4. exact Hgp.
  - intros Ht'. rewrite Hhd. unfold q', q, SetHead. by rewrite (proj2 (Z.ltb_lt (p_td p) (sTd msg))) by lia.
Qed.

(** C3. A handshake between two nodes of the same chain that have room for each
    other runs to its end: both nodes register the other as connected under
    one secret, and every announcement the first node authenticates with it is
    accepted by the second.  The second node learns the head of the first; the
    first records its own head as the one of the second. *)
Theorem handshake_end_to_end A B idB pubB prefixB drawsA drawsB nonce :
  can_sign A -> can_sign B -> c_networkId A = c_networkId B -> c_genesis A = c_genesis B ->
  numouts (c_peers A) < c_maxOuts A -> numins (c_peers B) < c_maxIns B ->
  fresh_id A idB -> fresh_id B (node_id (c_pubkey A) (c_prefix A)) -> draws_ok drawsA -> draws_ok drawsB -> 0 < c_td A ->
  exists a msg A1 b reply B1 A2 pa pb,
    onNewKadPeer_send A idB pubB prefixB drawsA nonce = Some (Some (a, msg), A1) /\
    receiveEthMsg B (Some (TtStatus msg)) drawsB 0 = Some B1 /\
    c_calls B1 = c_calls B ++ [Serve (Some (TtStatus reply)); SyncerAddPeer b] /\
    onNewKadPeer_reply A1 a msg (Some reply) = Some A2 /\
    getPeer (c_peers A2) idB = Some a /\ get_peer A2 a = Some pa /\ isConnected pa = true /\
    getPeer (c_peers B1) (node_id (c_pubkey A) (c_prefix A)) = Some b /\ get_peer B1 b = Some pb /\ isConnected pb = true /\
    p_secret pa = p_secret pb /\
    (p_head pb, p_td pb, p_bnum pb) = (c_head A, c_td A, c_bnum A) /\
    (p_head pa, p_td pa, p_bnum pa) = (c_head A, c_td A, c_bnum A) /\
    (forall items n n', exists B2,
       receivePushMsg B1 (Push_Sign (p_secret pa) (MkPush (node_id (c_pubkey A) (c_prefix A)) items n [])) n' = Some B2 /\
       c_calls B2 = c_calls B1 ++ LoopSendAck b :: (items ≫= push_item_calls (c_TxAccepting B) b)).
Proof.
  intros HA HB Hnet Hgen Ho Hi HfA HfB HdA HdB Htd.
  destruct (send_ok A idB pubB prefixB drawsA nonce HfA Ho HdA) as (ka & wa & A1 & Hka & Hkey & Hwa & Hsend & Hpa & Hps & Hn1 & Hg1).
  set (msg := createStatusMsg A wa nonce true) in *.
  destruct (receive_ok B msg drawsB ka) as (wb & kk & wk & B1 & b & pb & Hrec & Hcalls & Hck & Hwk & Hgb & Hpb & Hcb & Hsb & Hacc & Hhb);
    try done.
  { by apply createStatusMsg_verifies. }
  { unfold checkHandshake, msg. cbn. rewrite Hnet, Hgen, Z.eqb_refl. by rewrite bool_decide_eq_true_2. }
  destruct (reply_ok A1 (ps_next (c_peers A)) (newpeer idB pubB prefixB true drawsA) ka msg
    (createStatusMsg B wb (sNonce msg) true) kk wk) as (A2 & pa & Hrep & Hga & Hpa2 & Hca & Hsa & _ & Hha); try done.
  { rewrite Hps. apply HfA. }
  { by apply createStatusMsg_verifies. }
  { unfold checkHandshake. cbn. rewrite Hn1, Hg1, Hnet, Hgen, Z.eqb_refl. by rewrite bool_decide_eq_true_2. }
  exists (ps_next (c_peers A)), msg, A1, b, (createStatusMsg B wb (sNonce msg) true), B1, A2, pa, pb.
  split_and!; try done; [congruence|by apply Hhb|by apply Hha|].
  intros items n n'. rewrite Hsa, <- Hsb, <- Hacc.
  destruct (push_accepted B1 b pb items n n' _ Hgb Hpb Hcb) as (B2 & H1 & H2 & _). eauto.
Qed.

(** C29. A correctly signed status message whose Diffie-Hellman value is zero
    or not below the prime makes the node that accepts it panic: the key that
    was not computed is dereferenced. *)
Theorem status_bad_dhpub_panics B msg draws nonce :
  Status_Verify msg = Some true -> checkHandshake B msg = true -> numins (c_peers B) < c_maxIns B ->
  fresh_id B (node_id (sPub msg) (sPrefix msg)) -> draws_ok draws ->
  be_value (sDHPub msg) <= 0 \/ prime14 <= be_value (sDHPub msg) ->
  receiveEthMsg B (Some (TtStatus msg)) draws nonce = None.
Proof.
  intros Hv Hh Hn Hf Hd Hbad. cbn [receiveEthMsg]. unfold receiveStatus. rewrite Hv. cbn [mbind option_bind negb].
  rewrite Hh, (proj2 (Z.ltb_lt _ _)) by done. cbn [andb]. rewrite makenewpeer_fresh by done.
  set (p := newpeer _ _ _ _ _). unfold get_peer at 1. cbn [c_peers set_peers ps_store]. rewrite lookup_insert_eq.
  cbn [mbind option_bind]. set (q := (SetHead p _ _ _).2).
  assert (makesecret q (sDHPub msg) = None) as ->; [|by destruct (dh_bytes q)].
  assert (p_group q = Some group14) as Hg by (unfold q, SetHead; destruct (_ <? _); done).
  unfold makesecret. rewrite Hg. cbn [mbind option_bind]. destruct (p_dhprv q) as [k|]; [|done]. cbn [mbind option_bind].
  unfold ComputeKey, NewPublicKey. cbn [ky gp group14].
  destruct Hbad as [H|H]; rewrite (proj2 (Z.leb_le _ _) H), ?orb_true_r; done.
Qed.

(** ** Announcing a block *)

Lemma send_to_lookup c a it b : get_peer (send_to c a it) b =
  (fun p => if bool_decide (a = b) then doSend p it else p) <$> get_peer c b.
Proof.
  unfold send_to. destruct (get_peer c a) as [p|] eqn:Ha.
  - unfold get_peer, put_peer. cbn [c_peers set_peers set_store ps_store]. case_bool_decide as E.
    + subst. rewrite lookup_insert_eq. unfold get_peer in Ha. by rewrite Ha.
    + rewrite lookup_insert_ne by done. by rewrite option_fmap_id.
  - case_bool_decide as E; [subst; by rewrite Ha|]. by rewrite option_fmap_id.
Qed.

Lemma send_all_lookup c (l : list (nat * PushItem)) b : get_peer (send_all c l) b =
  (fun p => foldl doSend p (filter (fun x => x.1 = b) l).*2) <$> get_peer c b.
Proof.
  unfold send_all. revert c. induction l as [|[a it] l IH]; intros c; cbn [foldl]; [by rewrite option_fmap_id|].
  rewrite IH, send_to_lookup, <- option_fmap_compose. destruct (get_peer c b) as [p|]; [|done].
  cbn [fmap option_fmap option_map]. unfold compose. f_equal. rewrite filter_cons. cbn [fst]. case_bool_decide as E; [by rewrite decide_True|by rewrite decide_False].
Qed.

Lemma send_all_fields c l : c_calls (send_all c l) = c_calls c /\ peers (c_peers (send_all c l)) = peers (c_peers c).
Proof.
  unfold send_all. revert c. induction l as [|[a it] l IH]; intros c; cbn [foldl]; [done|].
  destruct (IH (send_to c a it)) as [-> ->]. unfold send_to. by destruct (get_peer c a).
Qed.

Lemma cacheBlockBody_fields c now b num c' : cacheBlockBody c now b = Some (num, c') ->
  c_peers c' = c_peers c /\ c_calls c' = c_calls c.
Proof. unfold cacheBlockBody. repeat case_match; intros [= <- <-]; done. Qed.

(** What a miner pushes to a peer: the block, or its header when it is large. *)
Definition mined_item (c : Controller) (b : Block) (td num : Z) : PushItem :=
  if Block_Size b <=? MAX_PUSH_BLOCKSIZE then block_item b td else header_item c b td num.

Lemma imap_all {A B} (f g : nat -> A -> list B) (l : list A) :
  (forall i a, (i < length l)%nat -> f i a = g i a) -> imap f l = imap g l.
Proof.
  revert f g. induction l as [|a l IH]; intros f g H; [done|]. cbn [imap]. f_equal; [apply H; simpl; lia|].
  apply IH. intros i x Hi. apply H. simpl. lia.
Qed.

Lemma mjoin_singletons {A B} (f : A -> B) (l : list A) : mjoin (imap (fun _ a => [f a]) l) = f <$> l.
Proof. induction l as [|a l IH]; [done|]. cbn. f_equal. exact IH. Qed.

Lemma mjoin_empty {A B} (l : list A) : mjoin (imap (fun _ _ => ([] : list B)) l) = [].
Proof. induction l as [|a l IH]; [done|]. exact IH. Qed.

Lemma filter_addr (ps : list nat) b (it : PushItem) : NoDup ps ->
  (filter (fun x => x.1 = b) ((fun a => (a, it)) <$> ps)).*2 = if bool_decide (b ∈ ps) then [it] else [].
Proof.
  induction 1 as [|a ps Ha Hn IH]; [done|]. cbn [fmap list_fmap]. rewrite filter_cons. cbn [fst].
  destruct (decide (a = b)) as [->|Hne].
  - cbn [fmap list_fmap snd]. rewrite IH, (bool_decide_eq_false_2 (b ∈ ps)) by done.
    rewrite bool_decide_eq_true_2 by left. done.
  - rewrite IH. apply (f_equal (fun x : bool => if x then [it] else [])). apply bool_decide_ext. set_solver.
Qed.

(** A mined block is handed to the announcement loop of every registered
    and connected peer that does not know it, once, in full or as its header;
    the other peers are left alone.  The loops are the only thing that
    changes for the peers. *)
Theorem propagateBlock_mined c now order ptd b c' :
  NoDup order -> propagateBlock c now order (Some ptd) b true = Some c' ->
  c_calls c' = c_calls c /\
  exists num, forall a p, get_peer c a = Some p ->
    get_peer c' a = Some
      (if bool_decide (a ∈ order) && isConnected p && negb (bool_decide (Block_Hash b ∈ kblks (p_known p)))
       then with_queue p (p_queue p ++ [mined_item c b (Difficulty (header b) + ptd) num]) else p).
Proof.
  intros Hn. unfold propagateBlock. set (ps := peersWithoutBlock _ _ _).
  assert (NoDup ps) as Hps by (by apply NoDup_filter).
  assert (forall a p, get_peer c a = Some p -> a ∈ ps <-> a ∈ order /\ Block_Hash b ∉ kblks (p_known p)) as Hin.
  { intros a p Ha. unfold ps, peersWithoutBlock, select_peers. rewrite list_elem_of_filter. unfold get_peer in Ha. rewrite Ha.
    rewrite negb_true_iff, bool_decide_eq_false. tauto. }
  assert (forall q, (exists num, q = mined_item c b (Difficulty (header b) + ptd) num) ->
    ihash q = Block_Hash b /\ ForBlock q = true) as Hit.
  { intros q [num ->]. unfold mined_item. by destruct (_ <=? _). }
  destruct ps as [|a0 ps0] eqn:Eps.
  - intros [= <-]. split; [done|]. exists 0. intros a p Ha. pose proof (proj2 (Hin a p Ha)) as Hni.
    rewrite Ha. f_equal. case_bool_decide as E1; [|done].
    case_bool_decide as E2; [by rewrite andb_comm|]. by apply not_elem_of_nil in Hni.
  - rewrite <- Eps in *. clear Eps. destruct (cacheBlockBody c now b) as [[num c1]|] eqn:Ec; [|done].
    cbn [mbind option_bind fst snd]. intros [= <-]. apply cacheBlockBody_fields in Ec as [Ep Ecl].
    rewrite (imap_all _ (fun _ a => [(a, mined_item c b (Difficulty (header b) + ptd) num)])).
    2: { intros i a Hi. rewrite (proj2 (Nat.ltb_lt _ _)) by done. unfold mined_item. by destruct (_ <=? _). }
    rewrite (mjoin_singletons (fun a => (a, _))). split; [rewrite (proj1 (send_all_fields _ _)); done|].
    exists num. intros a p Ha. rewrite send_all_lookup, filter_addr by done.
    assert (get_peer c1 a = Some p) as -> by (unfold get_peer; by rewrite Ep). cbn [fmap option_fmap option_map]. f_equal.
    destruct (Hit _ (ex_intro _ num eq_refl)) as [Hh Hf].
    case_bool_decide as E; [apply (Hin _ _ Ha) in E as [E1 E2]|].
    + rewrite bool_decide_eq_true_2 by done. rewrite (bool_decide_eq_false_2 _ E2), andb_true_r. cbn [andb foldl].
      unfold doSend. destruct (isConnected p); [|done]. cbn [negb]. unfold hasitem. rewrite Hf, Hh. by rewrite bool_decide_eq_false_2.
    + case_bool_decide as E1; [|done]. case_bool_decide as E2; [by rewrite andb_comm|]. by destruct E; apply (Hin a p Ha).
Qed.

(** A block that was not mined here is sent to nobody: the number of
    peers computed for it is lost in an inner variable. *)
Theorem propagateBlock_relayed c now order ptd b c' :
  propagateBlock c now order ptd b false = Some c' -> c_peers c' = c_peers c /\ c_calls c' = c_calls c.
Proof.
  unfold propagateBlock. destruct ptd as [ptd|]; [|by intros [= <-]]. destruct (peersWithoutBlock _ _ _) as [|a ps]; [by intros [= <-]|].
  destruct (cacheBlockBody c now b) as [[num c1]|] eqn:Ec; [|done]. cbn [mbind option_bind fst snd].
  rewrite (imap_all _ (fun _ _ => [])) by done. rewrite mjoin_empty. intros [= <-]. by apply cacheBlockBody_fields in Ec.
Qed.
End handshake.

(** ** Witnesses *)

Definition demo_controller (key : list Z) (prefix : list Z) (head : list Z) (td : Z) (ins outs : Z) : Controller :=
  MkController (node_id key prefix) prefix key key 7 (replicate 32 1) head 3 td [] true ins outs newpeerset newObjCacheManager [].

Definition demo_A : Controller := demo_controller [1; 2] [47; 97] (replicate 32 5) 10 2 2.
Definition demo_B : Controller := demo_controller [3; 4] [47; 98] (replicate 32 6) 20 2 2.

Lemma demo_can_sign key prefix head td ins outs : can_sign (demo_controller key prefix head td ins outs).
Proof.
  split; [done|]. intros m. unfold Crypto_Sign. cbn [c_sign demo_crypto]. rewrite decide_True; [eauto|].
  cbn [c_keccak256 demo_crypto]. split.
  - apply Forall_fmap, Forall_true. intros x. apply u8_ok.
  - rewrite length_fmap, length_take, length_app, length_replicate. lia.
Qed.

Lemma demo_draws x : 0 < x < 100 -> draws_ok [x].
Proof.
  intros Hx. assert (100 < prime14) by (vm_compute; reflexivity). split; [constructor; [lia|constructor]|].
  cbn [draw_nonzero]. rewrite (proj2 (Z.eqb_neq x 0)) by lia. eauto.
Qed.

Lemma handshake_end_to_end_witness :
  exists a msg A1 b reply B1 A2 pa pb,
    onNewKadPeer_send demo_A (c_id demo_B) [3; 4] [47; 98] [11] 99 = Some (Some (a, msg), A1) /\
    receiveEthMsg demo_B (Some (TtStatus msg)) [13] 0 = Some B1 /\
    c_calls B1 = c_calls demo_B ++ [Serve (Some (TtStatus reply)); SyncerAddPeer b] /\
    onNewKadPeer_reply A1 a msg (Some reply) = Some A2 /\
    getPeer (c_peers A2) (c_id demo_B) = Some a /\ get_peer A2 a = Some pa /\ isConnected pa = true /\
    getPeer (c_peers B1) (node_id (c_pubkey demo_A) (c_prefix demo_A)) = Some b /\ get_peer B1 b = Some pb /\ isConnected pb = true /\
    p_secret pa = p_secret pb /\
    (p_head pb, p_td pb, p_bnum pb) = (c_head demo_A, c_td demo_A, c_bnum demo_A) /\
    (p_head pa, p_td pa, p_bnum pa) = (c_head demo_A, c_td demo_A, c_bnum demo_A) /\
    (forall items n n', exists B2,
       receivePushMsg B1 (Push_Sign (p_secret pa) (MkPush (node_id (c_pubkey demo_A) (c_prefix demo_A)) items n [])) n' = Some B2 /\
       c_calls B2 = c_calls B1 ++ LoopSendAck b :: (items ≫= push_item_calls (c_TxAccepting demo_B) b)).
Proof.
  apply (handshake_end_to_end demo_A demo_B (c_id demo_B) [3; 4] [47; 98] [11] [13] 99);
    [apply demo_can_sign|apply demo_can_sign|done|done|done|done|done|done|apply demo_draws; lia|apply demo_draws; lia|done].
Defined.

Definition demo_bad : StatusMsg := createStatusMsg demo_A [] 1 true.

Lemma status_bad_dhpub_panics_witness : receiveEthMsg demo_B (Some (TtStatus demo_bad)) [13] 0 = None.
Proof.
  apply (status_bad_dhpub_panics demo_B demo_bad [13] 0);
    [apply createStatusMsg_verifies, demo_can_sign|done|done|done|apply demo_draws; lia|by left].
Defined.

(** The second node after the handshake, with the first as its only peer. *)
Definition demo_B1 : Controller :=
  match onNewKadPeer_send demo_A (c_id demo_B) [3; 4] [47; 98] [11] 99 with
  | Some (Some (_, msg), _) => match receiveEthMsg demo_B (Some (TtStatus msg)) [13] 0 with Some B1 => B1 | None => demo_B end
  | _ => demo_B
  end.

Definition demo_block : Block :=
  NewBlockWithHeader (MkHeader (replicate 32 1) (replicate 32 2) (replicate 20 3) (replicate 32 4) (replicate 32 5)
    (replicate 32 6) (replicate 256 0) 4 4 5000 0 17 [] (replicate 32 7) (replicate 8 0)).

Definition demo_sent (isminer : bool) : Controller :=
  match propagateBlock demo_B1 0 [0%nat] (Some 20) demo_block isminer with Some c => c | None => demo_B1 end.

Lemma propagateBlock_mined_witness :
  c_calls (demo_sent true) = c_calls demo_B1 /\
  exists num, forall a p, get_peer demo_B1 a = Some p ->
    get_peer (demo_sent true) a = Some
      (if bool_decide (a ∈ [0%nat]) && isConnected p && negb (bool_decide (Block_Hash demo_block ∈ kblks (p_known p)))
       then with_queue p (p_queue p ++ [mined_item demo_B1 demo_block (Difficulty (header demo_block) + 20) num]) else p).
Proof.
  apply (propagateBlock_mined demo_B1 0 [0%nat] 20 demo_block (demo_sent true)).
  - apply NoDup_singleton.
  - vm_compute. reflexivity.
Defined.

Lemma propagateBlock_relayed_witness :
  peersWithoutBlock (c_peers demo_B1) [0%nat] (Block_Hash demo_block) = [0%nat] /\
  c_peers (demo_sent false) = c_peers demo_B1 /\ c_calls (demo_sent false) = c_calls demo_B1.
Proof.
  split; [vm_compute; reflexivity|].
  apply (propagateBlock_relayed demo_B1 0 [0%nat] (Some 20) demo_block (demo_sent false)). vm_compute. reflexivity.
Defined.
