(* ===== verification/EthAdmission.v ===== *)
(** * Admission of peers ([src/ndn/eth/handler.go], [peerlist.go])

    The controller as a transition system: every handler is a step, except
    that the node waits between the status message it sends to a discovered
    peer and the answer, so [onNewKadPeer] is two steps.  The limit on
    incoming peers holds in every state; the limit on outgoing peers does
    not. *)

From S2P Require Import Prelude Bytes Rlp RlpStream RlpTypes KadId Names KadCrypto Cacher Dh EthTypes EthPush EthPeer EthHandler EthHandshake.
Local Open Scope Z_scope.

(** [fly] are the peers whose answer is awaited. *)
Record adm (ps : peerSet) (fly : list nat) (max : Z) : Prop := MkAdm {
  adm_ps : ps_inv ps;
  adm_pend : forall id a, pendings ps !! id = Some a -> dir_of (ps_store ps) a = true;
  adm_fly : forall a, a ∈ fly -> dir_of (ps_store ps) a = true;
  adm_in : forall id a p, peers ps !! id = Some a -> ps_store ps !! a = Some p -> p_dir p = false ->
    p_loop p = LoopRunning /\ p_status p = PEER_CONNECTED;
  adm_max : numins ps <= max;
}.

Definition in_flight (l : list (nat * StatusMsg)) : list nat := l.*1.

Definition drop_pending (ps : peerSet) (id : list Z) : peerSet :=
  MkPeerSet (ps_store ps) (ps_next ps) (peers ps) (delete id (pendings ps)) (numins ps) (numouts ps).

Section admission.
  Context {L : NdnLib} {C : CryptoLib} {S : SetLib}.

Definition net : Type := Controller * list (nat * StatusMsg).

Inductive ctl_step : net -> net -> Prop :=
| cs_send c l id pub prefix draws nonce a msg c' :
    onNewKadPeer_send c id pub prefix draws nonce = Some (Some (a, msg), c') -> ctl_step (c, l) (c', (a, msg) :: l)
| cs_full c l id pub prefix draws nonce c' :
    onNewKadPeer_send c id pub prefix draws nonce = Some (None, c') -> ctl_step (c, l) (c', l)
| cs_reply c l1 l2 a msg reply c' :
    onNewKadPeer_reply c a msg reply = Some c' -> ctl_step (c, l1 ++ (a, msg) :: l2) (c', l1 ++ l2)
| cs_receive c l msg draws nonce c' : receiveEthMsg c msg draws nonce = Some c' -> ctl_step (c, l) (c', l)
| cs_ack c l a msg c' : ackMsg_Execute c a msg = Some c' -> ctl_step (c, l) (c', l)
| cs_dropkad c l id c' : onDropKadPeer c id = Some c' -> ctl_step (c, l) (c', l)
| cs_random c l d o1 o2 k1 k2 n1 n2 c' : dropRandomPeer c d o1 o2 k1 k2 n1 n2 = Some c' -> ctl_step (c, l) (c', l)
| cs_quit c l order nonce c' : announceQuit c order nonce = Some c' -> ctl_step (c, l) (c', l)
| cs_heads c l ps hash td num c' : SetPeersHead c ps hash td num = Some c' -> ctl_step (c, l) (c', l)
| cs_txs c l orders txs : ctl_step (c, l) (propagateTxs c orders txs, l)
| cs_block c l now order ptd b isminer c' : propagateBlock c now order ptd b isminer = Some c' -> ctl_step (c, l) (c', l)
| cs_announce c l now order b c' : announceBlock c now order b = Some c' -> ctl_step (c, l) (c', l)
| cs_header c l order hash content : ctl_step (c, l) (propagateHeader c order hash content, l)
| cs_started c l : ctl_step (c, l) (onChainsyncStarted c, l)
| cs_completed c l now order b failed c' : onChainsyncCompleted c now order b failed = Some c' -> ctl_step (c, l) (c', l)
| cs_exit c l a ps : loop_exit (c_peers c) a false = Some ps -> ctl_step (c, l) (set_peers c ps, l).

(** ** The operations of the peer set *)

Lemma adm_update ps fly max a p q :
  adm ps fly max -> ps_store ps !! a = Some p -> same_peer p q -> p_loop q = p_loop p -> p_status q = p_status p ->
  adm (set_store ps (<[a := q]> (ps_store ps))) fly max.
Proof.
  intros [H1 H2 H3 H4 H5] Ha Hs Hl Hst. pose proof Hs as (_ & Hd & _).
  split; cbn [set_store ps_store peers pendings numins].
  - by eapply store_update_inv.
  - intros id b Hb. erewrite dir_of_insert by done. eauto.
  - intros b Hb. erewrite dir_of_insert by done. eauto.
  - intros id b r Hb Hr Hf. destruct (decide (a = b)) as [<-|Hne].
    + rewrite lookup_insert_eq in Hr. simplify_eq. rewrite Hl, Hst. eapply H4; [done|done|congruence].
    + rewrite lookup_insert_ne in Hr by done. by eapply H4.
  - done.
Qed.

Lemma peer_update_status p q : peer_update p q -> p_loop q = p_loop p /\ p_status q = p_status p.
Proof.
  intros [head td bnum|dhpub r Hm|items|item|hs].
  - unfold SetHead. by destruct (_ <? _).
  - unfold makesecret in Hm. destruct (p_group p); [|done]. destruct (p_dhprv p); [|done]. simpl in Hm.
    destruct (ComputeKey _ _ _); [|done]. destruct (Dh.Bytes _); [|done]. simpl in Hm. by simplify_eq.
  - done.
  - unfold doSend. by repeat case_match.
  - unfold announceTxs. by repeat case_match.
Qed.

Lemma adm_peer_update ps fly max a p q :
  adm ps fly max -> ps_store ps !! a = Some p -> peer_update p q -> adm (set_store ps (<[a := q]> (ps_store ps))) fly max.
Proof.
  intros H Ha Hu. destruct (peer_update_status p q Hu). eapply adm_update; try done. by apply peer_update_same.
Qed.

Lemma adm_weaken ps fly fly' max : fly' ⊆ fly -> adm ps fly max -> adm ps fly' max.
Proof. intros Hs [H1 H2 H3 H4 H5]. split; try done. set_solver. Qed.

Lemma adm_reject ps fly max id :
  adm ps fly max -> adm (drop_pending ps id) fly max.
Proof.
  intros [H1 H2 H3 H4 H5]. split; cbn [drop_pending ps_store peers pendings numins]; try done; [by apply pend_delete_inv|].
  intros id' a [_ Ha]%lookup_delete_Some. eauto.
Qed.

(** A new peer is live at an address that was not in use. *)
Lemma make_new_store ps id pub prefix dir draws b p :
  ps_inv ps -> ps_store ps !! b = Some p -> ps_store (makenewpeer ps id pub prefix dir draws).2 !! b = Some p.
Proof.
  intros Hi Hb. unfold makenewpeer. repeat case_match; try done. cbn [snd ps_store].
  pose proof (psi_next _ Hi b (mk_is_Some _ _ Hb)). rewrite lookup_insert_ne by lia. done.
Qed.

Lemma make_new_dir ps id pub prefix dir draws b :
  ps_inv ps -> dir_of (ps_store ps) b = true -> dir_of (ps_store (makenewpeer ps id pub prefix dir draws).2) b = true.
Proof.
  intros Hi. unfold dir_of at 1. destruct (ps_store ps !! b) as [p|] eqn:Hb; [|done].
  unfold dir_of. by rewrite (make_new_store ps id pub prefix dir draws b p Hi Hb).
Qed.

Lemma makenewpeer_fields ps id pub prefix dir draws :
  let r := (makenewpeer ps id pub prefix dir draws).2 in peers r = peers ps /\ numins r = numins ps.
Proof. unfold makenewpeer. repeat case_match; done. Qed.

Lemma adm_make_out ps fly max id pub prefix draws :
  adm ps fly max -> adm (makenewpeer ps id pub prefix true draws).2 fly max.
Proof.
  intros [H1 H2 H3 H4 H5]. destruct (makenewpeer_inv ps id pub prefix true draws H1) as [Hi _].
  destruct (makenewpeer_fields ps id pub prefix true draws) as [Hp Hn]. split; try done.
  - intros id' b. unfold makenewpeer. destruct (peers ps !! id); [apply H2|]. destruct (pendings ps !! id); [apply H2|].
    cbn [snd pendings ps_store]. destruct (decide (id = id')) as [<-|Hne].
    + rewrite lookup_insert_eq. intros [= <-]. unfold dir_of. by rewrite lookup_insert_eq.
    + rewrite lookup_insert_ne by done. intros Hb. specialize (H2 _ _ Hb). unfold dir_of in *.
      destruct (ps_store ps !! b) as [p|] eqn:E; [|done]. pose proof (psi_next _ H1 b (mk_is_Some _ _ E)).
      rewrite lookup_insert_ne by lia. by rewrite E.
  - intros b Hb. apply make_new_dir; auto.
  - rewrite Hp. intros id' b p Hb Hpb. destruct (psi_peer _ H1 _ _ Hb) as (p' & Hp' & _).
    rewrite (make_new_store ps id pub prefix true draws b p' H1 Hp') in Hpb. simplify_eq. eauto.
  - lia.
Qed.

(** Registering a peer: an outgoing one, or an incoming one while there is room. *)
Lemma adm_register ps fly max a p ok ps' :
  adm (drop_pending ps (p_id p)) fly max ->
  ps_inv ps -> ps_store ps !! a = Some p -> p_dir p = true \/ (p_loop p = LoopNone /\ numins ps < max) ->
  register ps a = Some (ok, ps') -> adm ps' fly max.
Proof.
  intros [_ H2 H3 H4 H5] Hi Ha Hroom Hr. pose proof (register_inv _ _ _ _ Hi Hr) as Hi'. unfold register in Hr. rewrite Ha in Hr.
  cbn [mbind option_bind] in Hr. cbn [drop_pending ps_store peers pendings numins] in *.
  destruct (peers ps !! p_id p) as [b|] eqn:Hp; simplify_eq; [split; done|].
  destruct (startsendingloop_spec (setConnected p)) as (Hid & Hdir & _).
  change (p_id (setConnected p)) with (p_id p) in Hid. change (p_dir (setConnected p)) with (p_dir p) in Hdir.
  split; cbn [ps_store peers pendings numins]; [done| | | |].
  - intros id b Hb. rewrite (dir_of_insert _ a p) by done. eauto.
  - intros b Hb. rewrite (dir_of_insert _ a p) by done. eauto.
  - rewrite Hid. intros id b q Hb Hq Hf. destruct (decide (a = b)) as [<-|Hne].
    + rewrite lookup_insert_eq in Hq. simplify_eq. destruct Hroom as [Ht|[Hl _]]; [congruence|].
      unfold startsendingloop. change (p_loop (setConnected p)) with (p_loop p). by rewrite Hl.
    + rewrite lookup_insert_ne in Hq by done. destruct (decide (p_id p = id)) as [<-|Hni].
      * rewrite lookup_insert_eq in Hb. congruence.
      * rewrite lookup_insert_ne in Hb by done. eauto.
  - rewrite Hdir. destruct Hroom as [->|[_ Hlt]]; [lia|]. destruct (p_dir p); lia.
Qed.

Lemma adm_loop_exit ps fly max a b ps' : adm ps fly max -> loop_exit ps a b = Some ps' -> adm ps' fly max.
Proof.
  intros [H1 H2 H3 H4 H5] Hr. pose proof (loop_exit_inv _ _ _ _ H1 Hr) as Hi'. unfold loop_exit, unregister in Hr.
  destruct (ps_store ps !! a) as [p|] eqn:Ha; [|done]. cbn [mbind option_bind] in Hr. destruct (p_loop p) eqn:El; try done.
  pose proof (psi_run _ H1 a p Ha El) as Hreg. rewrite Hreg in Hr. cbn [mbind option_bind] in Hr. simplify_eq.
  split; cbn [set_store ps_store peers pendings numins]; [done| | | |].
  - intros id c Hb. rewrite (dir_of_insert _ a p) by done. eauto.
  - intros c Hb. rewrite (dir_of_insert _ a p) by done. eauto.
  - intros id c q [Hne Hc]%lookup_delete_Some Hq Hf. destruct (decide (a = c)) as [<-|Hac].
    + destruct (psi_peer _ H1 _ _ Hc) as (p' & ? & ? & _). simplify_eq.
    + rewrite lookup_insert_ne in Hq by done. eauto.
  - destruct (p_dir p); lia.
Qed.

(** The data of a peer that is not a registered incoming one is free. *)
Lemma adm_update_other ps fly max a p q :
  adm ps fly max -> ps_store ps !! a = Some p -> same_peer p q ->
  (forall id, peers ps !! id = Some a -> p_dir p = true) ->
  adm (set_store ps (<[a := q]> (ps_store ps))) fly max.
Proof.
  intros [H1 H2 H3 H4 H5] Ha Hs Ho. pose proof Hs as (_ & Hd & _).
  split; cbn [set_store ps_store peers pendings numins]; [by eapply store_update_inv| | | |done].
  - intros id b Hb. erewrite dir_of_insert by done. eauto.
  - intros b Hb. erewrite dir_of_insert by done. eauto.
  - intros id b r Hb Hr Hf. destruct (decide (a = b)) as [<-|Hne].
    + rewrite lookup_insert_eq in Hr. simplify_eq. pose proof (Ho _ Hb). congruence.
    + rewrite lookup_insert_ne in Hr by done. by eapply H4.
Qed.

Lemma adm_close ps fly max a ps' : adm ps fly max -> peer_close ps a = Some ps' -> adm ps' fly max.
Proof.
  intros Hadm. unfold peer_close. destruct (ps_store ps !! a) as [p|] eqn:Ha; [|done]. cbn [mbind option_bind].
  destruct (isConnected p) eqn:Hc; cbn [negb]; [|by intros [= <-]].
  assert (forall id, peers ps !! id = Some a -> p_loop p <> LoopRunning -> p_dir p = true) as Hdir.
  { intros id Hid Hl. destruct (p_dir p) eqn:Ed; [done|]. by destruct (adm_in _ _ _ Hadm _ _ _ Hid Ha Ed). }
  destruct (p_loop p) as [| |[]] eqn:El; try done.
  - intros [= <-]. eapply adm_update_other; [done|done|split_and!; [done|done|by left]|]. intros id Hid. by eapply Hdir.
  - destruct (loop_exit ps a true) as [ps1|] eqn:E1; [|exfalso; unfold loop_exit, unregister in E1; rewrite Ha in E1;
      cbn [mbind option_bind] in E1; rewrite El in E1; by case_match].
    pose proof (adm_loop_exit _ _ _ _ _ _ Hadm E1) as Hadm1. unfold loop_exit, unregister in *. rewrite Ha in E1.
    cbn [mbind option_bind set_store ps_store peers] in *. rewrite lookup_insert_eq. cbn [mbind option_bind].
    change (p_loop (with_status p PEER_CLOSED)) with (p_loop p). change (p_id (with_status p PEER_CLOSED)) with (p_id p).
    rewrite El in *. pose proof (psi_run _ (adm_ps _ _ _ Hadm) a p Ha El) as Hreg. rewrite Hreg in *.
    cbn [mbind option_bind set_store ps_store] in *. simplify_eq. rewrite insert_insert_eq. intros [= <-].
    pose proof (adm_update_other _ _ _ a (with_loop p (LoopDone true)) (with_loop (with_status p PEER_CLOSED) (LoopDone true)) Hadm1) as H.
    cbn [set_store ps_store peers ps_next pendings numins numouts] in H. rewrite insert_insert_eq in H. apply H.
    + apply lookup_insert_eq.
    + split_and!; [done|done|by left].
    + intros id [Hne Hid]%lookup_delete_Some. destruct (psi_peer _ (adm_ps _ _ _ Hadm) _ _ Hid) as (p' & ? & ? & _). simplify_eq.
  - intros [= <-]. rewrite insert_insert_eq.
    assert (forall st, set_store (set_store ps st) = set_store ps) as -> by done.
    eapply adm_update_other; [done|done|split_and!; [done|done|right; by exists false, true]|]. intros id Hid. by eapply Hdir.
Qed.

(** ** The handlers *)

Definition keeps (c c' : Controller) : Prop :=
  c_maxIns c' = c_maxIns c /\ forall fly, adm (c_peers c) fly (c_maxIns c) -> adm (c_peers c') fly (c_maxIns c').

Lemma keeps_refl c : keeps c c.
Proof. done. Qed.

Lemma keeps_trans c1 c2 c3 : keeps c1 c2 -> keeps c2 c3 -> keeps c1 c3.
Proof. intros [E1 H1] [E2 H2]. split; [congruence|auto]. Qed.

Lemma keeps_same c c' : c_peers c' = c_peers c -> c_maxIns c' = c_maxIns c -> keeps c c'.
Proof. intros E1 E2. split; [done|]. by rewrite E1, E2. Qed.

Lemma keeps_emit c l : keeps c (emit c l).
Proof. by apply keeps_same. Qed.

Lemma keeps_put c a p q : get_peer c a = Some p -> peer_update p q -> keeps c (put_peer c a q).
Proof. intros Ha Hu. split; [done|]. intros fly H. by eapply adm_peer_update. Qed.

Lemma keeps_close c a c' : close_peer c a = Some c' -> keeps c c'.
Proof.
  unfold close_peer. destruct (peer_close (c_peers c) a) as [ps|] eqn:E; [|done]. cbn [mbind option_bind]. intros [= <-].
  split; [done|]. intros fly H. by eapply adm_close.
Qed.

Lemma keeps_dropAfterBye c a k c' : dropPeerAfterBye c a k = Some c' -> keeps c c'.
Proof.
  unfold dropPeerAfterBye. destruct (close_peer _ a) as [c1|] eqn:E; [|done]. cbn [mbind option_bind].
  destruct (get_peer c1 a); [|done]. cbn [mbind option_bind]. intros [= <-].
  eapply keeps_trans; [apply keeps_emit|]. eapply keeps_trans; [by eapply keeps_close|]. destruct k; [apply keeps_emit|done].
Qed.

Lemma keeps_drop c a k n c' : dropPeer c a k n = Some c' -> keeps c c'.
Proof. intros H. eapply keeps_trans; [apply keeps_emit|]. by eapply keeps_dropAfterBye. Qed.

Lemma keeps_bye c i m c' : receiveBye c i m = Some c' -> keeps c c'.
Proof.
  unfold receiveBye. destruct (Bye_Verify m) as [[]|]; [|by intros [= <-]|done]. cbn [mbind option_bind negb].
  destruct (getPeer _ _); [|by intros [= <-]]. intros H%keeps_dropAfterBye. eapply keeps_trans; [|done].
  destruct i; [apply keeps_emit|done].
Qed.

Lemma keeps_random c d o1 o2 k1 k2 n1 n2 c' : dropRandomPeer c d o1 o2 k1 k2 n1 n2 = Some c' -> keeps c c'.
Proof.
  unfold dropRandomPeer. destruct d; [by intros [= <-]|].
  assert (forall (b : bool) c a n c', (if b then match a with Some a => dropPeer c a true n | None => Some c end else Some c) = Some c' -> keeps c c') as H.
  { intros b c0 a n c1. destruct b; [|by intros [= <-]]. destruct a; [apply keeps_drop|by intros [= <-]]. }
  match goal with |- (?x ≫= _) = _ -> _ => destruct x as [c1|] eqn:E; [|done] end. cbn [mbind option_bind].
  intros H2%H. eapply keeps_trans; [by eapply H|done].
Qed.

Lemma keeps_quit c order nonce c' : announceQuit c order nonce = Some c' -> keeps c c'.
Proof.
  unfold announceQuit. generalize (createBye c nonce). intros msg. revert c.
  induction order as [|a order IH]; intros c; cbn [announceQuit_loop]; [by intros [= <-]|].
  destruct (close_peer c a) as [c1|] eqn:E; [|done]. cbn [mbind option_bind]. intros H%IH.
  eapply keeps_trans; [by eapply keeps_close|]. eapply keeps_trans; [apply keeps_emit|done].
Qed.

Lemma keeps_heads c l hash td num c' : SetPeersHead c l hash td num = Some c' -> keeps c c'.
Proof.
  unfold SetPeersHead. generalize false. revert c. induction l as [|a l IH]; intros c b; cbn [SetPeersHead_loop].
  - cbn [mbind option_bind]. intros [= <-]. destruct b; [apply keeps_emit|done].
  - destruct (get_peer c a) as [p|] eqn:Ha; [|done]. cbn [mbind option_bind]. intros H%IH.
    eapply keeps_trans; [|exact H]. eapply keeps_put; [done|apply pu_head].
Qed.

Lemma keeps_send c l : keeps c (send_all c l).
Proof.
  unfold send_all. revert c. induction l as [|[a it] l IH]; intros c; [done|]. cbn [foldl].
  eapply keeps_trans; [|apply IH]. unfold send_to. destruct (get_peer c a) as [p|] eqn:Ha; [|done].
  eapply keeps_put; [done|apply pu_send].
Qed.

Lemma keeps_txs c orders txs : keeps c (propagateTxs c orders txs).
Proof.
  unfold propagateTxs. revert c. induction txs as [|tx txs IH]; intros c; [done|]. cbn [foldl].
  eapply keeps_trans; [|apply IH]. unfold propagateTx. destruct (_ <? _); apply keeps_send.
Qed.

Lemma keeps_cache c now b r : cacheBlockBody c now b = Some r -> keeps c r.2.
Proof. unfold cacheBlockBody. repeat case_match; intros [= <-]; by apply keeps_same. Qed.

Lemma keeps_block c now order ptd b m c' : propagateBlock c now order ptd b m = Some c' -> keeps c c'.
Proof.
  unfold propagateBlock. destruct ptd; [|by intros [= <-]]. destruct (peersWithoutBlock _ _ _); [by intros [= <-]|].
  destruct (cacheBlockBody c now b) as [r|] eqn:E; [|done]. cbn [mbind option_bind].
  intros H. apply (inj Some) in H as <-. eapply keeps_trans; [by eapply keeps_cache|apply keeps_send].
Qed.

Lemma keeps_announce c now order b c' : announceBlock c now order b = Some c' -> keeps c c'.
Proof.
  unfold announceBlock. destruct (peersWithoutBlock _ _ _); [by intros [= <-]|].
  destruct (cacheBlockBody c now b) as [r|] eqn:E; [|done]. cbn [mbind option_bind].
  intros H. apply (inj Some) in H as <-. eapply keeps_trans; [by eapply keeps_cache|apply keeps_send].
Qed.

Lemma keeps_handlePush c a m v c' : handlePushMsg c a m v = Some c' -> keeps c c'.
Proof.
  unfold handlePushMsg. destruct (get_peer c a); [|done]. cbn [mbind option_bind].
  destruct (_ && _); intros [= <-]; [done|apply keeps_emit].
Qed.

Lemma keeps_push c m n c' : receivePushMsg c m n = Some c' -> keeps c c'.
Proof.
  unfold receivePushMsg. destruct (getPeer _ _) as [a|]; [|by intros [= <-]]. destruct (get_peer c a) as [p|] eqn:Ha; [|done].
  cbn [mbind option_bind]. destruct (Push_Verify _ _); [|intros [= <-]; apply keeps_emit]. intros H%keeps_handlePush.
  eapply keeps_trans; [|exact H]. eapply keeps_trans; [eapply keeps_put; [done|apply pu_mark]|].
  unfold peer_sendAck. destruct (isConnected p); [apply keeps_emit|done].
Qed.

Lemma txSync_keeps c a c' : txSync c a = Some c' -> keeps c c'.
Proof.
  unfold txSync. destruct (get_peer c a) as [p|] eqn:Ha; [|done]. cbn [mbind option_bind]. intros H. apply (inj Some) in H as <-.
  destruct (Tx_Hash <$> _) as [|h hs]; [done|]. eapply keeps_put; [done|apply pu_announce].
Qed.

(** Registration after a handshake. *)
Lemma adm_register_peer c a p fly c' :
  let ps := c_peers c in
  adm (drop_pending ps (p_id p)) fly (c_maxIns c) ->
  ps_inv ps -> get_peer c a = Some p -> p_dir p = true \/ (p_loop p = LoopNone /\ numins ps < c_maxIns c) ->
  register_peer c a = Some c' -> adm (c_peers c') fly (c_maxIns c') /\ c_maxIns c' = c_maxIns c.
Proof.
  intros ps Hadm Hi Ha Hroom. unfold register_peer. destruct (register (c_peers c) a) as [[ok ps1]|] eqn:Er; [|done].
  pose proof (adm_register _ _ _ _ _ _ _ Hadm Hi Ha Hroom Er) as H1. destruct ok.
  - intros [E H]%txSync_keeps. split; [by apply H|done].
  - by intros [= <-].
Qed.

(** The peer of a status message is registered already, or pending, or new. *)
Lemma make_in ps fly max id pub prefix draws :
  adm ps fly max ->
  let r := makenewpeer ps id pub prefix false draws in
  exists p, ps_store r.2 !! r.1 = Some p /\ p_id p = id /\ ps_inv r.2 /\ numins r.2 = numins ps /\
    adm (drop_pending r.2 id) fly max /\
    ((adm r.2 fly max /\ (p_dir p = true \/ p_status p = PEER_CONNECTED)) \/ (p_loop p = LoopNone /\ p_status p = PEER_HANDSHAKING)).
Proof.
  intros Hadm r. pose proof Hadm as [Hi H2 H3 H4 H5].
  destruct (makenewpeer_inv ps id pub prefix false draws Hi) as (Hi1 & p & Hp & Hid). fold r in Hi1, Hp. exists p.
  destruct (makenewpeer_fields ps id pub prefix false draws) as [Ep En]. fold r in Ep, En. split_and!; try done.
  - subst r. revert Hp. unfold makenewpeer. destruct (peers ps !! id) as [b|] eqn:E1; [intros _; by apply adm_reject|].
    destruct (pendings ps !! id) as [b|] eqn:E2; [intros _; by apply adm_reject|]. cbn [fst snd]. intros _.
    assert (forall b q, ps_store ps !! b = Some q -> ps_next ps <> b) as Hf
      by (intros b q Hb; pose proof (psi_next _ Hi b (mk_is_Some _ _ Hb)); lia).
    assert (forall b, dir_of (ps_store ps) b = true ->
      dir_of (<[ps_next ps := newpeer id pub prefix false draws]> (ps_store ps)) b = true) as Hd.
    { intros b. unfold dir_of. destruct (ps_store ps !! b) as [q|] eqn:E; [|done]. rewrite lookup_insert_ne by eauto. by rewrite E. }
    split; cbn [drop_pending ps_store peers pendings numins ps_next numouts]; try done; [|..].
    + pose proof (makenewpeer_inv ps id pub prefix false draws Hi) as [Hx _]. unfold makenewpeer in Hx. rewrite E1, E2 in Hx.
      by apply (pend_delete_inv _ id) in Hx.
    + intros id' b [Hne Hb]%lookup_delete_Some. rewrite lookup_insert_ne in Hb by done. eauto.
    + eauto.
    + intros id' b q Hb Hq. destruct (psi_peer _ Hi _ _ Hb) as (q' & Hq' & _). rewrite lookup_insert_ne in Hq by eauto. eauto.
  - subst r. revert Hp. unfold makenewpeer. destruct (peers ps !! id) as [b|] eqn:E1.
    { cbn [fst snd]. intros Hp. left. split; [done|]. destruct (p_dir p) eqn:Ed; [by left|]. right. by eapply H4. }
    destruct (pendings ps !! id) as [b|] eqn:E2; cbn [fst snd ps_store]; intros Hp.
    { left. split; [done|]. left. specialize (H2 _ _ E2). unfold dir_of in H2. by rewrite Hp in H2. }
    right. rewrite lookup_insert_eq in Hp. apply (inj Some) in Hp. by rewrite <- Hp.
Qed.

Lemma adm_receiveStatus c fly msg draws c' :
  adm (c_peers c) fly (c_maxIns c) -> receiveStatus c msg draws = Some c' -> adm (c_peers c') fly (c_maxIns c') /\ c_maxIns c' = c_maxIns c.
Proof.
  intros Hadm. unfold receiveStatus. destruct (Status_Verify msg) as [[]|]; [|by intros [= <-]|done]. cbn [mbind option_bind negb].
  destruct (_ && _) eqn:Ea; [|by intros [= <-]]. apply andb_true_iff in Ea as [Hroom%Z.ltb_lt _].
  destruct (make_in _ _ _ (node_id (sPub msg) (sPrefix msg)) (sPub msg) (sPrefix msg) draws Hadm) as (p & Hp & Hid & Hi & En & Hdrop & Hcase).
  destruct (makenewpeer _ _ _ _ _ _) as [a ps]. cbn [fst snd] in *. unfold get_peer at 1. cbn [c_peers set_peers]. rewrite Hp.
  cbn [mbind option_bind]. set (p1 := (SetHead p _ _ _).2). destruct (dh_bytes p1); [|done]. cbn [mbind option_bind].
  destruct (makesecret p1 (sDHPub msg)) as [q|] eqn:Eq; [|done]. cbn [mbind option_bind].
  pose proof (peer_update_same _ _ (pu_head p (sHead msg) (sTd msg) (sBnum msg))) as (I1 & D1 & _).
  destruct (peer_update_status _ _ (pu_head p (sHead msg) (sTd msg) (sBnum msg))) as [L1 T1].
  pose proof (peer_update_same _ _ (pu_secret p1 _ _ Eq)) as (I2 & D2 & _).
  destruct (peer_update_status _ _ (pu_secret p1 _ _ Eq)) as [L2 T2]. fold p1 in I1, D1, L1, T1.
  assert (p_id q = p_id p /\ p_dir q = p_dir p /\ p_loop q = p_loop p /\ p_status q = p_status p) as (I & D & Lp & T)
    by (split_and!; congruence).
  assert (forall ps0 f m, adm ps0 f m -> ps_store ps0 !! a = Some p -> adm (set_store ps0 (<[a := q]> (ps_store ps0))) f m) as Hup.
  { intros ps0 f m H0 H1. eapply adm_update; try done. split_and!; [done|done|by left]. }
  destruct (isConnected q) eqn:Ec.
  - intros [= <-]. split; [|done]. destruct Hcase as [[H _]|[_ Hs]]; [by apply Hup|].
    unfold isConnected in Ec. rewrite T, Hs in Ec. done.
  - intros Hr. eapply (adm_register_peer _ a q fly) in Hr; try done.
    + rewrite I, Hid. exact (Hup _ _ _ Hdrop Hp).
    + apply (store_update_inv ps a p q Hi Hp). split_and!; [done|done|by left].
    + unfold get_peer, put_peer. cbn [emit c_peers set_peers set_store ps_store]. apply lookup_insert_eq.
    + rewrite D, Lp. destruct Hcase as [[_ [H|H]]|[H _]]; [by left| |right; split; [done|cbn; lia]].
      exfalso. unfold isConnected in Ec. rewrite T, H in Ec. done.
Qed.

Lemma adm_send c fly id pub prefix draws nonce r c' :
  adm (c_peers c) fly (c_maxIns c) -> onNewKadPeer_send c id pub prefix draws nonce = Some (r, c') ->
  adm (c_peers c') (match r with Some (a, _) => a :: fly | None => fly end) (c_maxIns c') /\ c_maxIns c' = c_maxIns c.
Proof.
  intros Hadm. unfold onNewKadPeer_send. destruct (_ <=? _); [by intros [= <- <-]|].
  pose proof (adm_make_out _ _ _ id pub prefix draws Hadm) as H1.
  assert (forall p, ps_store (makenewpeer (c_peers c) id pub prefix true draws).2 !! (makenewpeer (c_peers c) id pub prefix true draws).1 = Some p ->
    isConnected p = false -> p_dir p = true) as Hd.
  { intros p. unfold makenewpeer. destruct (peers (c_peers c) !! id) as [b|] eqn:E1; cbn [fst snd].
    - intros Hp Hc. destruct (p_dir p) eqn:Ed; [done|]. destruct (adm_in _ _ _ Hadm _ _ _ E1 Hp Ed) as [_ Hs].
      unfold isConnected in Hc. by rewrite Hs in Hc.
    - destruct (pendings (c_peers c) !! id) as [b|] eqn:E2; cbn [fst snd ps_store]; intros Hp Hc.
      + pose proof (adm_pend _ _ _ Hadm _ _ E2) as H. unfold dir_of in H. by rewrite Hp in H.
      + rewrite lookup_insert_eq in Hp. apply (inj Some) in Hp. by rewrite <- Hp. }
  destruct (makenewpeer _ _ _ _ _ _) as [a ps]. cbn [fst snd] in *. unfold get_peer. cbn [c_peers set_peers].
  destruct (ps_store ps !! a) as [p|] eqn:Hp; [|done]. cbn [mbind option_bind].
  destruct (isConnected p) eqn:Hc; [by intros [= <- <-]|]. destruct (dh_bytes p); [|done]. cbn [mbind option_bind].
  intros [= <- <-]. split; [|done]. cbn [emit c_peers set_peers c_maxIns]. destruct H1 as [G1 G2 G3 G4 G5]. split; try done.
  intros b [->|Hb]%elem_of_cons; [|auto]. unfold dir_of. rewrite Hp. auto.
Qed.

Lemma adm_reply c fly a msg reply c' :
  adm (c_peers c) fly (c_maxIns c) -> a ∈ fly -> onNewKadPeer_reply c a msg reply = Some c' ->
  adm (c_peers c') fly (c_maxIns c') /\ c_maxIns c' = c_maxIns c.
Proof.
  intros Hadm Ha. unfold onNewKadPeer_reply. destruct (sendStatus c a msg reply) as [[r c1]|] eqn:Es; [|done].
  assert (keeps c c1) as [E K].
  { unfold sendStatus in Es. destruct reply as [resp|]; [|by simplify_eq]. destruct (Status_Verify resp) as [[]|]; [|by simplify_eq/=|done].
    cbn [mbind option_bind negb] in Es. destruct (_ && _); [|by simplify_eq]. destruct (get_peer c a) as [p|] eqn:Hp; [|done].
    cbn [mbind option_bind] in Es. simplify_eq. eapply keeps_put; [done|apply pu_head]. }
  apply K in Hadm. rewrite <- E. clear E K Es. destruct r as [dhpub|].
  - destruct (get_peer c1 a) as [p|] eqn:Hp; [|done]. cbn [mbind option_bind].
    destruct (makesecret p dhpub) as [q|] eqn:Eq; [|done]. cbn [mbind option_bind].
    pose proof (keeps_put c1 a p q Hp (pu_secret _ _ _ Eq)) as [E K]. pose proof (peer_update_same _ _ (pu_secret _ _ _ Eq)) as (_ & Hd & _).
    apply K in Hadm as Hadm2. intros Hr. eapply (adm_register_peer _ a q fly) in Hr; try done.
    + by apply adm_reject.
    + apply Hadm2.
    + unfold get_peer, put_peer. cbn [c_peers set_peers set_store ps_store]. apply lookup_insert_eq.
    + left. rewrite Hd. pose proof (adm_fly _ _ _ Hadm _ Ha) as Hf. unfold dir_of, get_peer in *. by rewrite Hp in Hf.
  - unfold reject. destruct (ps_store (c_peers c1) !! a) as [p|]; [|done]. cbn [mbind option_bind]. intros [= <-].
    split; [|done]. by apply (adm_reject _ _ _ (p_id p)).
Qed.

Lemma ctl_step_adm c l c' l' :
  ctl_step (c, l) (c', l') -> adm (c_peers c) (in_flight l) (c_maxIns c) ->
  adm (c_peers c') (in_flight l') (c_maxIns c') /\ c_maxIns c' = c_maxIns c.
Proof.
  assert (forall c c' fly, keeps c c' -> adm (c_peers c) fly (c_maxIns c) -> adm (c_peers c') fly (c_maxIns c') /\ c_maxIns c' = c_maxIns c) as HK.
  { intros c0 c1 fly [E K] H. auto. }
  intros Hs Hadm. inversion Hs; subst.
  - exact (adm_send _ _ _ _ _ _ _ (Some (a, msg)) _ Hadm ltac:(eassumption)).
  - exact (adm_send _ _ _ _ _ _ _ None _ Hadm ltac:(eassumption)).
  - assert (a ∈ in_flight (l1 ++ (a, msg) :: l2)) as Ha by (unfold in_flight; rewrite fmap_app; set_solver).
    edestruct (adm_reply c) as [H1 H2]; [exact Hadm|exact Ha|done|]. split; [|done]. eapply adm_weaken; [|exact H1].
    unfold in_flight. rewrite !fmap_app. set_solver.
  - match goal with H : receiveEthMsg _ ?m _ _ = _ |- _ => destruct m as [[m|m|m]|]; cbn [receiveEthMsg] in H end.
    + by eapply adm_receiveStatus.
    + eapply HK; [by eapply keeps_bye|done].
    + eapply HK; [by eapply keeps_push|done].
    + simplify_eq. eapply HK; [apply keeps_emit|done].
  - match goal with H : ackMsg_Execute _ _ ?m = _ |- _ => destruct m; cbn [ackMsg_Execute] in H end.
    + by simplify_eq.
    + eapply HK; [by eapply keeps_bye|done].
    + eapply HK; [by eapply keeps_handlePush|done].
  - match goal with H : onDropKadPeer _ _ = _ |- _ => unfold onDropKadPeer in H; destruct (getPeer _ _); [|by simplify_eq] end.
    eapply HK; [|done]. eapply keeps_trans; [apply keeps_emit|by eapply keeps_close].
  - eapply HK; [by eapply keeps_random|done].
  - eapply HK; [by eapply keeps_quit|done].
  - eapply HK; [by eapply keeps_heads|done].
  - eapply HK; [apply keeps_txs|done].
  - eapply HK; [by eapply keeps_block|done].
  - eapply HK; [by eapply keeps_announce|done].
  - eapply HK; [apply keeps_send|done].
  - eapply HK; [|done]. by apply keeps_same.
  - match goal with H : onChainsyncCompleted _ _ _ _ _ = _ |- _ => apply keeps_announce in H as Hk end.
    eapply HK; [|done]. eapply keeps_trans; [|exact Hk]. destruct failed; by apply keeps_same.
  - split; [|done]. by eapply adm_loop_exit.
Qed.

(** C14. While the handlers of status messages run one after the other, the
    number of registered incoming peers never exceeds the limit [maxIns], in
    whatever order messages, answers, goodbyes, block and transaction events
    and failures of the announcement loops come. *)
Theorem incoming_peers_bounded c c' l :
  c_peers c = newpeerset -> 0 <= c_maxIns c -> rtc ctl_step (c, []) (c', l) ->
  count_dir (ps_store (c_peers c')) (peers (c_peers c')) false <= c_maxIns c.
Proof.
  intros Hnew Hmax Hr.
  assert (forall x y : net, rtc ctl_step x y -> adm (c_peers x.1) (in_flight x.2) (c_maxIns x.1) ->
    adm (c_peers y.1) (in_flight y.2) (c_maxIns y.1) /\ c_maxIns y.1 = c_maxIns x.1) as H.
  { intros x y. induction 1 as [|[c1 l1] [c2 l2] y Hs _ IH]; [done|]. intros Hadm.
    destruct (ctl_step_adm _ _ _ _ Hs Hadm) as [H1 E1]. destruct (IH H1) as [H2 E2]. split; [done|]. by etrans. }
  destruct (H _ _ Hr) as [Hadm E].
  { cbn [fst snd]. rewrite Hnew. split; try done. apply newpeerset_inv. intros a Ha. by apply elem_of_nil in Ha. }
  cbn [fst snd] in *. rewrite <- (psi_ins _ (adm_ps _ _ _ Hadm)), <- E. apply Hadm.
Qed.
End admission.

(** ** A run of two handshakes that overlap *)

Definition demo_D : Controller := demo_controller [5; 6] [47; 100] (replicate 32 8) 30 2 2.
Definition demo_one : Controller := demo_controller [1; 2] [47; 97] (replicate 32 5) 10 1 1.

Definition get_send (r : option (option (nat * StatusMsg) * Controller)) : nat * StatusMsg * Controller :=
  match r with Some (Some x, c) => (x, c) | _ => (0%nat, demo_bad, demo_one) end.
Definition get_c (r : option Controller) : Controller := match r with Some c => c | None => demo_one end.

Definition send1 := get_send (onNewKadPeer_send demo_one (c_id demo_B) [3; 4] [47; 98] [11] 99).
Definition send2 := get_send (onNewKadPeer_send send1.2 (c_id demo_D) [5; 6] [47; 100] [12] 98).
Definition answer (B : Controller) (msg : StatusMsg) : option StatusMsg :=
  match c_calls (get_c (receiveStatus B msg [13])) with Serve (Some (TtStatus m)) :: _ => Some m | _ => None end.
Definition reply1 := get_c (onNewKadPeer_reply send2.2 send1.1.1 send1.1.2 (answer demo_B send1.1.2)).
Definition reply2 := get_c (onNewKadPeer_reply reply1 send2.1.1 send2.1.2 (answer demo_D send2.1.2)).

Lemma send1_ok : onNewKadPeer_send demo_one (c_id demo_B) [3; 4] [47; 98] [11] 99 = Some (Some (send1.1.1, send1.1.2), send1.2).
Proof. vm_compute. reflexivity. Qed.
Lemma send2_ok : onNewKadPeer_send send1.2 (c_id demo_D) [5; 6] [47; 100] [12] 98 = Some (Some (send2.1.1, send2.1.2), send2.2).
Proof. vm_compute. reflexivity. Qed.
Lemma reply1_ok : onNewKadPeer_reply send2.2 send1.1.1 send1.1.2 (answer demo_B send1.1.2) = Some reply1.
Proof. vm_compute. reflexivity. Qed.
Lemma reply2_ok : onNewKadPeer_reply reply1 send2.1.1 send2.1.2 (answer demo_D send2.1.2) = Some reply2.
Proof. vm_compute. reflexivity. Qed.

(** The limit on outgoing peers is not kept: it is checked before the
    status message is sent and not when the answer arrives, so a node with
    room for one outgoing peer registers two. *)
Theorem outgoing_peers_exceed :
  c_peers demo_one = newpeerset /\ rtc ctl_step (demo_one, []) (reply2, []) /\
  c_maxOuts reply2 = 1 /\ count_dir (ps_store (c_peers reply2)) (peers (c_peers reply2)) true = 2.
Proof.
  split; [done|]. split; [|split; vm_compute; reflexivity].
  eapply rtc_l; [apply (cs_send _ _ _ _ _ _ _ _ _ _ send1_ok)|].
  eapply rtc_l; [apply (cs_send _ _ _ _ _ _ _ _ _ _ send2_ok)|].
  eapply rtc_l; [apply (cs_reply _ [(send2.1.1, send2.1.2)] [] _ _ _ _ reply1_ok)|].
  apply rtc_once. apply (cs_reply _ [] [] _ _ _ _ reply2_ok).
Qed.

Definition demo_first : StatusMsg :=
  (get_send (onNewKadPeer_send demo_A (c_id demo_B) [3; 4] [47; 98] [11] 99)).1.2.

Lemma demo_B1_ok : receiveEthMsg demo_B (Some (TtStatus demo_first)) [13] 0 = Some demo_B1.
Proof. vm_compute. reflexivity. Qed.

Lemma incoming_peers_bounded_witness :
  rtc ctl_step (demo_B, []) (demo_B1, []) /\
  count_dir (ps_store (c_peers demo_B1)) (peers (c_peers demo_B1)) false <= c_maxIns demo_B.
Proof.
  assert (rtc ctl_step (demo_B, []) (demo_B1, [])) as H by exact (rtc_once _ _ (cs_receive _ [] _ _ _ _ demo_B1_ok)).
  split; [exact H|]. apply (incoming_peers_bounded demo_B demo_B1 []); [reflexivity|vm_compute; discriminate|exact H].
Defined.
