(* ===== verification/EthWire.v ===== *)
(** * Messages of the Ethereum protocol on the wire ([src/ndn/eth/ethmsg.go], [push.go])

    The RLP forms of all messages, with the two [DecodeRLP] methods that
    choose the type of an embedded byte string by a tag (announced items, data
    queries), and the TLV value of a message.  A message is decoded if and only
    if it is the encoding of a well-formed message. *)

From S2P Require Import Prelude Bytes Rlp RlpStream RlpTypes KadId Names Cacher Fetching KadRpc EthTypes EthPush EthHandler.
Local Open Scope Z_scope.

(** ** Decoders with a check

    [DecodeRLP] methods that decode a struct and then read its fields. *)

Definition dpost {A B} (f : A -> res rerr B) (d : M A) : M B := bind d (fun a s => (f a, s)).

Lemma dpost_lawful {A B} (f : A -> res rerr B) (g : B -> A) (d : M A) enc okA okB :
  lawful d enc okA ->
  (forall b, okB b -> f (g b) = Ok b /\ okA (g b)) ->
  (forall a, okA a -> Z.of_nat (length (enc a)) < 2 ^ 64 ->
    match f a with Ok b => okB b /\ g b = a | Err e => e <> EOL end) ->
  lawful (dpost f d) (fun b => enc (g b)) okB.
Proof.
  intros [Hc Hs He Hp] Hg Hf. split.
  - intros b s r st Hb Hrd Hi Hr. destruct (Hg b Hb) as [E Ha].
    destruct (Hc (g b) s r st Ha Hrd Hi Hr) as (s' & Ed & H). exists s'. unfold dpost, bind. by rewrite Ed, E.
  - intros s r st Hrd Hi Hb. specialize (Hs s r st Hrd Hi Hb). unfold dpost, bind.
    destruct (d s) as [[a|e] s']; [|done]. destruct Hs as (Ha & r' & -> & H).
    destruct Hi as [_ Hl]. rewrite length_app in Hl. specialize (Hf a Ha ltac:(lia)).
    destruct (f a) as [b|e]; [|by intros ->]. destruct Hf as [Hb' <-]. split; [done|]. eauto.
  - by apply bind_eol.
  - intros b. apply Hp.
Qed.

Lemma DecodeBytes_lawful {A} (d : M A) enc ok w :
  lawful d enc ok -> Forall byte_ok w -> Z.of_nat (length w) < 2 ^ 64 ->
  match DecodeBytes w d with Ok a => ok a /\ w = enc a | Err e => e <> EOL end.
Proof.
  intros [Hc Hs He Hp] Hb Hl. destruct (DecodeBytes w d) as [a|e] eqn:E.
  - by apply (DecodeBytes_sound d enc ok w a).
  - intros ->. unfold DecodeBytes in E. pose proof (Hs _ _ _ (NewStream_ready w)) as H.
    specialize (H ltac:(split; [constructor|done]) Hb). destruct (d _) as [[a|e] s']; [by case_match|].
    simplify_eq. destruct (H eq_refl) as (_ & p & st & ?). done.
Qed.

(** ** Structs *)

(** A block or a header with the total difficulty of its chain; the fields of
    [FetchedBlock] that are not exported are not encoded. *)
Record FetchedHeader := MkFetchedHeader { fhHeader : Header; fhTd : Z }.
Record FetchedBlock := MkFetchedBlock { fbBlock : Block; fbTd : Z }.
Record BlockHashItem := MkHashItem { hiHash : list Z; hiNumber : Z; hiNumSegments : Z }.
Record BlockHeaderItem := MkHeaderItem { biHeader : Header; biTd : Z; biHolder : list Z; biNumSegments : Z }.
Record EthHeadersQuery := MkHeadersQuery { hqFrom : Z; hqCount : Z; hqSkip : Z; hqNonce : Z }.

(** [StatusMsg] as a struct of 11 fields. *)
#[export] Instance rlp_status : RlpType StatusMsg.
Proof.
  refine {| rlp_value := fun i => VList [VBytes (sPub i); VBytes (sDHPub i); VBytes (sPrefix i); VUint (sNetworkId i); VBigInt (sTd i); VBytes (sHead i); VUint (sBnum i); VBytes (sGenesis i); VBool (sAccept i); VUint (sNonce i); VBytes (sSig i)];
    rlp_dec := decodeStruct (dmap (fun x => MkStatus x.1 x.2.1 x.2.2.1 x.2.2.2.1 x.2.2.2.2.1 x.2.2.2.2.2.1 x.2.2.2.2.2.2.1 x.2.2.2.2.2.2.2.1 x.2.2.2.2.2.2.2.2.1 x.2.2.2.2.2.2.2.2.2.1 x.2.2.2.2.2.2.2.2.2.2.1)
      (field_cons decodeByteSlice (field_cons decodeByteSlice (field_cons decodeByteSlice (field_cons u64_dec (field_cons decodeBigInt (field_cons (decodeByteArray 32) (field_cons u64_dec (field_cons (decodeByteArray 32) (field_cons decodeBool (field_cons u64_dec (field_cons decodeByteSlice field_nil))))))))))));
    rlp_ok := fun i => Forall byte_ok (sPub i) /\ Forall byte_ok (sDHPub i) /\ Forall byte_ok (sPrefix i) /\ 0 <= sNetworkId i < 2 ^ 64 /\ 0 <= sTd i /\ array_ok 32 (sHead i) /\ 0 <= sBnum i < 2 ^ 64 /\ array_ok 32 (sGenesis i) /\ True /\ 0 <= sNonce i < 2 ^ 64 /\ Forall byte_ok (sSig i) /\ True |}.
  - intros i Hi. apply value_ok_list. rlp_value_okt.
  - eapply lawful_ext; [|exact (decodeStruct_lawful _ _ _ (dmap_lawful (fun x => MkStatus x.1 x.2.1 x.2.2.1 x.2.2.2.1 x.2.2.2.2.1 x.2.2.2.2.2.1 x.2.2.2.2.2.2.1 x.2.2.2.2.2.2.2.1 x.2.2.2.2.2.2.2.2.1 x.2.2.2.2.2.2.2.2.2.1 x.2.2.2.2.2.2.2.2.2.2.1)
      (fun i => (sPub i, (sDHPub i, (sPrefix i, (sNetworkId i, (sTd i, (sHead i, (sBnum i, (sGenesis i, (sAccept i, (sNonce i, (sSig i, tt)))))))))))) _ _ _ ltac:(by intros []) ltac:(by intros [? [? [? [? [? [? [? [? [? [? [? []]]]]]]]]]]])
      (field_cons_lawful _ _ _ _ _ _ decodeByteSlice_lawful (field_cons_lawful _ _ _ _ _ _ decodeByteSlice_lawful (field_cons_lawful _ _ _ _ _ _ decodeByteSlice_lawful (field_cons_lawful _ _ _ _ _ _ u64_lawful (field_cons_lawful _ _ _ _ _ _ decodeBigInt_lawful (field_cons_lawful _ _ _ _ _ _ (decodeByteArray_lawful 32 ltac:(lia)) (field_cons_lawful _ _ _ _ _ _ u64_lawful (field_cons_lawful _ _ _ _ _ _ (decodeByteArray_lawful 32 ltac:(lia)) (field_cons_lawful _ _ _ _ _ _ decodeBool_lawful (field_cons_lawful _ _ _ _ _ _ u64_lawful (field_cons_lawful _ _ _ _ _ _ decodeByteSlice_lawful field_nil_lawful)))))))))))))].
    rlp_bytes_eq.
Defined.

(** [ByeMsg] as a struct of 4 fields. *)
#[export] Instance rlp_bye : RlpType ByeMsg.
Proof.
  refine {| rlp_value := fun i => VList [VBytes (bPub i); VBytes (bPrefix i); VUint (bNonce i); VBytes (bSig i)];
    rlp_dec := decodeStruct (dmap (fun x => MkBye x.1 x.2.1 x.2.2.1 x.2.2.2.1)
      (field_cons decodeByteSlice (field_cons decodeByteSlice (field_cons u64_dec (field_cons decodeByteSlice field_nil)))));
    rlp_ok := fun i => Forall byte_ok (bPub i) /\ Forall byte_ok (bPrefix i) /\ 0 <= bNonce i < 2 ^ 64 /\ Forall byte_ok (bSig i) /\ True |}.
  - intros i Hi. apply value_ok_list. rlp_value_okt.
  - eapply lawful_ext; [|exact (decodeStruct_lawful _ _ _ (dmap_lawful (fun x => MkBye x.1 x.2.1 x.2.2.1 x.2.2.2.1)
      (fun i => (bPub i, (bPrefix i, (bNonce i, (bSig i, tt))))) _ _ _ ltac:(by intros []) ltac:(by intros [? [? [? [? []]]]])
      (field_cons_lawful _ _ _ _ _ _ decodeByteSlice_lawful (field_cons_lawful _ _ _ _ _ _ decodeByteSlice_lawful (field_cons_lawful _ _ _ _ _ _ u64_lawful (field_cons_lawful _ _ _ _ _ _ decodeByteSlice_lawful field_nil_lawful))))))].
    rlp_bytes_eq.
Defined.

(** [FetchedHeader] as a struct of 2 fields. *)
#[export] Instance rlp_fetchedheader : RlpType FetchedHeader.
Proof.
  refine {| rlp_value := fun i => VList [rlp_value (fhHeader i); VBigInt (fhTd i)];
    rlp_dec := decodeStruct (dmap (fun x => MkFetchedHeader x.1 x.2.1)
      (field_cons rlp_dec (field_cons decodeBigInt field_nil)));
    rlp_ok := fun i => rlp_ok (fhHeader i) /\ 0 <= fhTd i /\ True |}.
  - intros i Hi. apply value_ok_list. rlp_value_okt.
  - eapply lawful_ext; [|exact (decodeStruct_lawful _ _ _ (dmap_lawful (fun x => MkFetchedHeader x.1 x.2.1)
      (fun i => (fhHeader i, (fhTd i, tt))) _ _ _ ltac:(by intros []) ltac:(by intros [? [? []]])
      (field_cons_lawful _ _ _ _ _ _ rlp_lawful (field_cons_lawful _ _ _ _ _ _ decodeBigInt_lawful field_nil_lawful))))].
    rlp_bytes_eq.
Defined.

(** [FetchedBlock] as a struct of 2 fields. *)
#[export] Instance rlp_fetchedblock : RlpType FetchedBlock.
Proof.
  refine {| rlp_value := fun i => VList [rlp_value (fbBlock i); VBigInt (fbTd i)];
    rlp_dec := decodeStruct (dmap (fun x => MkFetchedBlock x.1 x.2.1)
      (field_cons rlp_dec (field_cons decodeBigInt field_nil)));
    rlp_ok := fun i => rlp_ok (fbBlock i) /\ 0 <= fbTd i /\ True |}.
  - intros i Hi. apply value_ok_list. rlp_value_okt.
  - eapply lawful_ext; [|exact (decodeStruct_lawful _ _ _ (dmap_lawful (fun x => MkFetchedBlock x.1 x.2.1)
      (fun i => (fbBlock i, (fbTd i, tt))) _ _ _ ltac:(by intros []) ltac:(by intros [? [? []]])
      (field_cons_lawful _ _ _ _ _ _ rlp_lawful (field_cons_lawful _ _ _ _ _ _ decodeBigInt_lawful field_nil_lawful))))].
    rlp_bytes_eq.
Defined.

(** [BlockHashItem] as a struct of 3 fields. *)
#[export] Instance rlp_hashitem : RlpType BlockHashItem.
Proof.
  refine {| rlp_value := fun i => VList [VBytes (hiHash i); VUint (hiNumber i); VUint (hiNumSegments i)];
    rlp_dec := decodeStruct (dmap (fun x => MkHashItem x.1 x.2.1 x.2.2.1)
      (field_cons (decodeByteArray 32) (field_cons u64_dec (field_cons u16_dec field_nil))));
    rlp_ok := fun i => array_ok 32 (hiHash i) /\ 0 <= hiNumber i < 2 ^ 64 /\ 0 <= hiNumSegments i < 2 ^ 16 /\ True |}.
  - intros i Hi. apply value_ok_list. rlp_value_okt.
  - eapply lawful_ext; [|exact (decodeStruct_lawful _ _ _ (dmap_lawful (fun x => MkHashItem x.1 x.2.1 x.2.2.1)
      (fun i => (hiHash i, (hiNumber i, (hiNumSegments i, tt)))) _ _ _ ltac:(by intros []) ltac:(by intros [? [? [? []]]])
      (field_cons_lawful _ _ _ _ _ _ (decodeByteArray_lawful 32 ltac:(lia)) (field_cons_lawful _ _ _ _ _ _ u64_lawful (field_cons_lawful _ _ _ _ _ _ u16_lawful field_nil_lawful)))))].
    rlp_bytes_eq.
Defined.

(** [BlockHeaderItem] as a struct of 4 fields. *)
#[export] Instance rlp_headeritem : RlpType BlockHeaderItem.
Proof.
  refine {| rlp_value := fun i => VList [rlp_value (biHeader i); VBigInt (biTd i); VBytes (biHolder i); VUint (biNumSegments i)];
    rlp_dec := decodeStruct (dmap (fun x => MkHeaderItem x.1 x.2.1 x.2.2.1 x.2.2.2.1)
      (field_cons rlp_dec (field_cons decodeBigInt (field_cons decodeByteSlice (field_cons u16_dec field_nil)))));
    rlp_ok := fun i => rlp_ok (biHeader i) /\ 0 <= biTd i /\ Forall byte_ok (biHolder i) /\ 0 <= biNumSegments i < 2 ^ 16 /\ True |}.
  - intros i Hi. apply value_ok_list. rlp_value_okt.
  - eapply lawful_ext; [|exact (decodeStruct_lawful _ _ _ (dmap_lawful (fun x => MkHeaderItem x.1 x.2.1 x.2.2.1 x.2.2.2.1)
      (fun i => (biHeader i, (biTd i, (biHolder i, (biNumSegments i, tt))))) _ _ _ ltac:(by intros []) ltac:(by intros [? [? [? [? []]]]])
      (field_cons_lawful _ _ _ _ _ _ rlp_lawful (field_cons_lawful _ _ _ _ _ _ decodeBigInt_lawful (field_cons_lawful _ _ _ _ _ _ decodeByteSlice_lawful (field_cons_lawful _ _ _ _ _ _ u16_lawful field_nil_lawful))))))].
    rlp_bytes_eq.
Defined.

(** [EthHeadersQuery] as a struct of 4 fields. *)
#[export] Instance rlp_headersquery : RlpType EthHeadersQuery.
Proof.
  refine {| rlp_value := fun i => VList [VUint (hqFrom i); VUint (hqCount i); VUint (hqSkip i); VUint (hqNonce i)];
    rlp_dec := decodeStruct (dmap (fun x => MkHeadersQuery x.1 x.2.1 x.2.2.1 x.2.2.2.1)
      (field_cons u64_dec (field_cons u16_dec (field_cons u16_dec (field_cons u64_dec field_nil)))));
    rlp_ok := fun i => 0 <= hqFrom i < 2 ^ 64 /\ 0 <= hqCount i < 2 ^ 16 /\ 0 <= hqSkip i < 2 ^ 16 /\ 0 <= hqNonce i < 2 ^ 64 /\ True |}.
  - intros i Hi. apply value_ok_list. rlp_value_okt.
  - eapply lawful_ext; [|exact (decodeStruct_lawful _ _ _ (dmap_lawful (fun x => MkHeadersQuery x.1 x.2.1 x.2.2.1 x.2.2.2.1)
      (fun i => (hqFrom i, (hqCount i, (hqSkip i, (hqNonce i, tt))))) _ _ _ ltac:(by intros []) ltac:(by intros [? [? [? [? []]]]])
      (field_cons_lawful _ _ _ _ _ _ u64_lawful (field_cons_lawful _ _ _ _ _ _ u16_lawful (field_cons_lawful _ _ _ _ _ _ u16_lawful (field_cons_lawful _ _ _ _ _ _ u64_lawful field_nil_lawful))))))].
    rlp_bytes_eq.
Defined.

(** [EthBlockQuery] as a struct of 3 fields. *)
#[export] Instance rlp_blockquery : RlpType EthBlockQuery.
Proof.
  refine {| rlp_value := fun i => VList [VUint (bqPart i); VBytes (bqHash i); VUint (bqNumber i)];
    rlp_dec := decodeStruct (dmap (fun x => MkBlockQuery x.1 x.2.1 x.2.2.1)
      (field_cons u8_dec (field_cons (decodeByteArray 32) (field_cons u64_dec field_nil))));
    rlp_ok := fun i => 0 <= bqPart i < 2 ^ 8 /\ array_ok 32 (bqHash i) /\ 0 <= bqNumber i < 2 ^ 64 /\ True |}.
  - intros i Hi. apply value_ok_list. rlp_value_okt.
  - eapply lawful_ext; [|exact (decodeStruct_lawful _ _ _ (dmap_lawful (fun x => MkBlockQuery x.1 x.2.1 x.2.2.1)
      (fun i => (bqPart i, (bqHash i, (bqNumber i, tt)))) _ _ _ ltac:(by intros []) ltac:(by intros [? [? [? []]]])
      (field_cons_lawful _ _ _ _ _ _ u8_lawful (field_cons_lawful _ _ _ _ _ _ (decodeByteArray_lawful 32 ltac:(lia)) (field_cons_lawful _ _ _ _ _ _ u64_lawful field_nil_lawful)))))].
    rlp_bytes_eq.
Defined.

(** A hash, an array of 32 bytes. *)
Definition rlp_hash : RlpType (list Z).
Proof.
  refine {| rlp_value := VBytes; rlp_dec := decodeByteArray 32; rlp_ok := array_ok 32 |}; [done|].
  eapply lawful_ext; [|apply (decodeByteArray_lawful 32); lia]. done.
Defined.

(** ** Embedded byte strings *)

Definition wire_ok (w : list Z) : Prop := Forall byte_ok w /\ Z.of_nat (length w) < 2 ^ 64.

(** [rlp.DecodeBytes] of an embedded byte string. *)
Definition embedded {A B} `{RlpType A} (w : list Z) (mk : A -> B) : res rerr B :=
  match rlp_decode w with Ok a => Ok (mk a) | Err e => Err e end.

Lemma embedded_sound {A B} `{RlpType A} w (mk : A -> B) :
  wire_ok w ->
  match embedded w mk with
  | Ok b => exists a, rlp_ok a /\ w = rlp_bytes (rlp_value a) /\ b = mk a
  | Err e => e <> EOL
  end.
Proof.
  intros [Hb Hl]. unfold embedded, rlp_decode.
  pose proof (DecodeBytes_lawful rlp_dec (fun a : A => rlp_bytes (rlp_value a)) rlp_ok w rlp_lawful Hb Hl) as Hd.
  destruct (DecodeBytes w rlp_dec) as [a|e]; [|done]. destruct Hd. eauto.
Qed.

Lemma embedded_complete {A B} `{RlpType A} (a : A) (mk : A -> B) :
  rlp_ok a -> wire_ok (rlp_bytes (rlp_value a)) -> embedded (rlp_bytes (rlp_value a)) mk = Ok (mk a).
Proof.
  intros Ha [_ Hl]. unfold embedded, rlp_decode.
  by rewrite (DecodeBytes_complete rlp_dec (fun a => rlp_bytes (rlp_value a)) rlp_ok a) by (done || apply rlp_lawful).
Qed.

Lemma encoded_ok {A} `{RlpType A} (a : A) :
  rlp_ok a -> wire_ok (rlp_bytes (rlp_value a)) -> encoded (rlp_value a) = rlp_bytes (rlp_value a).
Proof.
  intros Ha [_ Hl]. unfold encoded.
  by destruct (EncodeToBytes_ok (rlp_value a) (rlp_value_ok a Ha) Hl) as [-> _].
Qed.

Definition pair_dec : M (Z * (list Z * ())) := decodeStruct (field_cons u8_dec (field_cons decodeByteSlice field_nil)).
Definition triple_dec : M (Z * (Z * (list Z * ()))) :=
  decodeStruct (field_cons u8_dec (field_cons u16_dec (field_cons decodeByteSlice field_nil))).

Lemma embedded_length (x w y : list Z) :
  Z.of_nat (length (encode_list (x ++ encode_string w ++ y))) < 2 ^ 64 -> Z.of_nat (length w) < 2 ^ 64.
Proof.
  intros H. pose proof (length_encode_list (x ++ encode_string w ++ y)) as H1. rewrite !length_app in H1.
  assert (length w <= length (encode_string w))%nat; [|lia].
  unfold encode_string. destruct w as [|b [|c w]]; [simpl; lia| |rewrite length_app; lia].
  destruct (_ <=? _); [done|rewrite length_app; lia].
Qed.

(** ** Announced items ([push.go]) *)

Section items.
  Context {L : NdnLib}.

(** [PushItem.DecodeRLP] after the struct of type and wire. *)
Definition item_DecodeRLP (x : Z * (list Z * ())) : res rerr PushItem :=
  let '(t, (w, _)) := x in
  if t =? ITypeTx then embedded w (fun tx => MkItem t w (Tx_Hash tx) (rlp_value tx))
  else if t =? ITypeTxHash then embedded (H := rlp_hash) w (fun h => MkItem t w h (VBytes h))
  else if t =? ITypeBlock then embedded w (fun b => MkItem t w (Block_Hash (fbBlock b)) (rlp_value b))
  else if t =? ITypeBlockHeader then embedded w (fun b => MkItem t w (Header_Hash (biHeader b)) (rlp_value b))
  else if t =? ITypeBlockHash then embedded w (fun b => MkItem t w (hiHash b) (rlp_value b))
  else Err errForeign.

(** An item of type [t] around a value of type [A] with the hash [h]. *)
Definition item_with {A} `{RlpType A} (t : Z) (h : A -> list Z) (it : PushItem) : Prop :=
  exists a, rlp_ok a /\ wire_ok (rlp_bytes (rlp_value a)) /\
    it = MkItem t (rlp_bytes (rlp_value a)) (h a) (rlp_value a).

Definition pushitem_ok (it : PushItem) : Prop :=
  item_with ITypeTx Tx_Hash it \/ item_with (H := rlp_hash) ITypeTxHash id it \/
  item_with ITypeBlock (fun b => Block_Hash (fbBlock b)) it \/
  item_with ITypeBlockHeader (fun b => Header_Hash (biHeader b)) it \/ item_with ITypeBlockHash hiHash it.

Lemma item_complete it :
  pushitem_ok it ->
  item_DecodeRLP (IType it, (encoded (icontent it), ())) = Ok it /\
  0 <= IType it < 2 ^ 8 /\ wire_ok (encoded (icontent it)).
Proof.
  intros [H|[H|[H|[H|H]]]]; destruct H as (a & Ha & Hw & ->); cbn [IType icontent];
    rewrite encoded_ok by done; (split; [|by split]);
    cbv [item_DecodeRLP ITypeTx ITypeTxHash ITypeBlock ITypeBlockHeader ITypeBlockHash Z.eqb Pos.eqb];
    by rewrite embedded_complete.
Qed.

Lemma item_sound t w :
  wire_ok w ->
  match item_DecodeRLP (t, (w, ())) with
  | Ok it => pushitem_ok it /\ (IType it, (encoded (icontent it), ())) = (t, (w, ()))
  | Err e => e <> EOL
  end.
Proof.
  intros Hw. unfold item_DecodeRLP, pushitem_ok.
  destruct (t =? ITypeTx) eqn:E1; [|destruct (t =? ITypeTxHash) eqn:E2; [|destruct (t =? ITypeBlock) eqn:E3;
    [|destruct (t =? ITypeBlockHeader) eqn:E4; [|destruct (t =? ITypeBlockHash) eqn:E5; [|done]]]]];
    bool_go; subst t;
    match goal with |- context [@embedded _ _ ?H w ?mk] =>
      pose proof (@embedded_sound _ _ H w mk Hw) as Hs; destruct (@embedded _ _ H w mk) as [it|e]; [|done];
      destruct Hs as (a & Ha & -> & ->)
    end; cbn [IType icontent];
    (split; [|first [by rewrite encoded_ok | by rewrite (encoded_ok (H := rlp_hash) a Ha Hw : encoded (VBytes a) = _)]]).
  - left. by exists a.
  - right; left. by exists a.
  - do 2 right; left. by exists a.
  - do 3 right; left. by exists a.
  - do 4 right. by exists a.
Qed.

#[export] Instance rlp_pushitem : RlpType PushItem.
Proof.
  refine {| rlp_value := fun it => VList [VUint (IType it); VBytes (encoded (icontent it))];
    rlp_dec := dpost item_DecodeRLP pair_dec; rlp_ok := pushitem_ok |}.
  - intros it Hit. destruct (item_complete it Hit) as (_ & Ht & _). apply value_ok_list.
    repeat constructor; simpl; lia.
  - eapply lawful_ext; [|apply (dpost_lawful item_DecodeRLP (fun it => (IType it, (encoded (icontent it), ())))
      pair_dec _ _ pushitem_ok (decodeStruct_lawful _ _ _ (field_cons_lawful _ _ _ _ _ _ u8_lawful
        (field_cons_lawful _ _ _ _ _ _ decodeByteSlice_lawful field_nil_lawful))))].
    + rlp_bytes_eq.
    + intros it Hit. destruct (item_complete it Hit) as (E & Ht & [Hb _]). by split.
    + intros [t [w []]] (Ht & Hb & _) Hl. apply item_sound. split; [done|]. by apply embedded_length in Hl.
Defined.

(** [PushMsg] as a struct of 4 fields. *)
#[export] Instance rlp_pushmsg : RlpType PushMsg.
Proof.
  refine {| rlp_value := fun i => VList [VBytes (mNodeId i); slice_value (mItems i); VUint (mNonce i); VBytes (mSig i)];
    rlp_dec := decodeStruct (dmap (fun x => MkPush x.1 x.2.1 x.2.2.1 x.2.2.2.1)
      (field_cons decodeByteSlice (field_cons (decodeListSlice rlp_dec) (field_cons u64_dec (field_cons decodeByteSlice field_nil)))));
    rlp_ok := fun i => Forall byte_ok (mNodeId i) /\ Forall rlp_ok (mItems i) /\ 0 <= mNonce i < 2 ^ 64 /\ Forall byte_ok (mSig i) /\ True |}.
  - intros i Hi. apply value_ok_list. rlp_value_okt.
  - eapply lawful_ext; [|exact (decodeStruct_lawful _ _ _ (dmap_lawful (fun x => MkPush x.1 x.2.1 x.2.2.1 x.2.2.2.1)
      (fun i => (mNodeId i, (mItems i, (mNonce i, (mSig i, tt))))) _ _ _ ltac:(by intros []) ltac:(by intros [? [? [? [? []]]]])
      (field_cons_lawful _ _ _ _ _ _ decodeByteSlice_lawful (field_cons_lawful _ _ _ _ _ _ slice_lawful (field_cons_lawful _ _ _ _ _ _ u64_lawful (field_cons_lawful _ _ _ _ _ _ decodeByteSlice_lawful field_nil_lawful))))))].
    rlp_bytes_eq.
Defined.

End items.

(** ** Data queries ([ethmsg.go]) *)

Definition QtHeadersQuery : Z := 1.
Definition QtTxQuery : Z := 2.
Definition QtBlockQuery : Z := 3.
Definition QtGenericQuery : Z := 4.

(** The query types; a generic query is the identity of another one. *)
Inductive Query :=
| QHeaders (q : EthHeadersQuery)
| QTx (h : list Z)
| QBlock (q : EthBlockQuery)
| QGeneric (id : list Z).

Definition query_type (q : Query) : Z :=
  match q with
  | QHeaders _ => QtHeadersQuery | QTx _ => QtTxQuery | QBlock _ => QtBlockQuery | QGeneric _ => QtGenericQuery
  end.

Definition query_value (q : Query) : value :=
  match q with
  | QHeaders q => rlp_value q
  | QTx h => VBytes h
  | QBlock q => rlp_value q
  | QGeneric id => VList [VBytes id]
  end.

(** [common.Hash.String]: hexadecimal with the prefix 0x. *)
Definition Hash_String (h : list Z) : list Z := 48 :: 120 :: hex_encode h.

Definition Query_GetId `{NdnLib} (q : Query) : list Z :=
  match q with
  | QHeaders q => hex_encode (sha256 (encoded (rlp_value q)))
  | QTx h => Hash_String h
  | QBlock q => BlockQuery_GetId q
  | QGeneric id => id
  end.

Record EthDataReqMsg := MkDataReq { rqQType : Z; rqSegment : Z; rqQuery : Query }.

(** [WriteRequest] of the query types: the query goes with the first segment,
    the other segments are requested by its identity. *)
Definition WriteRequest `{NdnLib} (q : Query) (segId : Z) : EthDataReqMsg :=
  match q with
  | QGeneric _ => MkDataReq QtGenericQuery segId q
  | _ =>
    if segId =? 0 then MkDataReq (query_type q) 0 q
    else MkDataReq QtGenericQuery segId (QGeneric (Query_GetId q))
  end.

(** [EthDataReqMsg.DecodeRLP] after the struct; a generic query is refused. *)
Definition req_DecodeRLP (x : Z * (Z * (list Z * ()))) : res rerr EthDataReqMsg :=
  let '(t, (seg, (w, _))) := x in
  if t =? QtHeadersQuery then embedded w (fun q => MkDataReq t seg (QHeaders q))
  else if t =? QtTxQuery then embedded (H := rlp_hash) w (fun q => MkDataReq t seg (QTx q))
  else if t =? QtBlockQuery then embedded w (fun q => MkDataReq t seg (QBlock q))
  else Err errForeign.

Definition query_ok (q : Query) : Prop :=
  wire_ok (rlp_bytes (query_value q)) /\
  match q with
  | QHeaders q => rlp_ok q
  | QTx h => array_ok 32 h
  | QBlock q => rlp_ok q
  | QGeneric _ => False
  end.

Definition req_ok (r : EthDataReqMsg) : Prop :=
  rqQType r = query_type (rqQuery r) /\ 0 <= rqSegment r < 2 ^ 16 /\ query_ok (rqQuery r).

Lemma query_encoded q : query_ok q -> encoded (query_value q) = rlp_bytes (query_value q).
Proof.
  intros [Hw Hq]. destruct q as [q|h|q|id]; cbn [query_value] in *; [by apply encoded_ok| |by apply encoded_ok|done].
  exact (encoded_ok (H := rlp_hash) h Hq Hw).
Qed.

Lemma req_complete r :
  req_ok r ->
  req_DecodeRLP (rqQType r, (rqSegment r, (encoded (query_value (rqQuery r)), ()))) = Ok r /\
  0 <= rqQType r < 2 ^ 8 /\ wire_ok (encoded (query_value (rqQuery r))).
Proof.
  destruct r as [t seg q]. intros (Ht & Hs & Hq). cbn [rqQType rqSegment rqQuery] in *.
  rewrite query_encoded by done. destruct Hq as [Hw Hq]. subst t. split; [|by destruct q].
  destruct q as [q|h|q|id]; cbn [query_type query_value] in *; [| | |done];
    cbv [req_DecodeRLP QtHeadersQuery QtTxQuery QtBlockQuery Z.eqb Pos.eqb].
  - by rewrite embedded_complete.
  - by rewrite (embedded_complete (H := rlp_hash) h _ Hq Hw).
  - by rewrite embedded_complete.
Qed.

Lemma req_sound t seg w :
  0 <= seg < 2 ^ 16 -> wire_ok w ->
  match req_DecodeRLP (t, (seg, (w, ()))) with
  | Ok r => req_ok r /\ (rqQType r, (rqSegment r, (encoded (query_value (rqQuery r)), ()))) = (t, (seg, (w, ())))
  | Err e => e <> EOL
  end.
Proof.
  intros Hseg Hw. unfold req_DecodeRLP.
  destruct (t =? QtHeadersQuery) eqn:E1; [|destruct (t =? QtTxQuery) eqn:E2; [|destruct (t =? QtBlockQuery) eqn:E3; [|done]]];
    bool_go; subst t;
    match goal with |- context [@embedded _ _ ?H w ?mk] =>
      pose proof (@embedded_sound _ _ H w mk Hw) as Hs; destruct (@embedded _ _ H w mk) as [it|e]; [|done];
      destruct Hs as (a & Ha & -> & ->)
    end.
  all: match goal with |- req_ok (MkDataReq _ _ ?q) /\ _ => assert (query_ok q) as Hq by done end.
  all: pose proof (query_encoded _ Hq) as E; split; [by split|]; cbn [rqQType rqSegment rqQuery].
  all: by rewrite E.
Qed.

#[export] Instance rlp_datareq : RlpType EthDataReqMsg.
Proof.
  refine {| rlp_value := fun r => VList [VUint (rqQType r); VUint (rqSegment r); VBytes (encoded (query_value (rqQuery r)))];
    rlp_dec := dpost req_DecodeRLP triple_dec; rlp_ok := req_ok |}.
  - intros r Hr. destruct (req_complete r Hr) as (_ & Ht & _). destruct Hr as (_ & Hs & _).
    apply value_ok_list. repeat constructor; simpl; lia.
  - eapply lawful_ext; [|apply (dpost_lawful req_DecodeRLP
      (fun r => (rqQType r, (rqSegment r, (encoded (query_value (rqQuery r)), ())))) triple_dec _ _ req_ok
      (decodeStruct_lawful _ _ _ (field_cons_lawful _ _ _ _ _ _ u8_lawful (field_cons_lawful _ _ _ _ _ _ u16_lawful
        (field_cons_lawful _ _ _ _ _ _ decodeByteSlice_lawful field_nil_lawful)))))].
    + rlp_bytes_eq.
    + intros r Hr. destruct (req_complete r Hr) as (E & Ht & [Hb _]). destruct Hr as (_ & Hs & _). by split.
    + intros [t [seg [w []]]] (Ht & Hseg & Hb & _) Hl. apply req_sound; [done|]. split; [done|].
      cbn [fst snd] in Hl. rewrite app_assoc in Hl. by apply embedded_length in Hl.
Defined.

(** ** Messages *)

Inductive EthContent :=
| EStatus (m : StatusMsg)
| EBye (m : ByeMsg)
| EPush (m : PushMsg)
| EDataReq (m : EthDataReqMsg)
| EDataSegment (s : SimpleSegment).

Definition MsgType (m : EthContent) : Z :=
  match m with EStatus _ => 200 | EBye _ => 201 | EPush _ => 202 | EDataReq _ => 203 | EDataSegment _ => 204 end.

Section messages.
  Context {L : NdnLib}.

Definition eth_MarshalTlv (m : EthContent) : option (Z * list Z) :=
  value ← match m with
          | EStatus m => rlp_encode m
          | EBye m => rlp_encode m
          | EPush m => rlp_encode m
          | EDataReq m => rlp_encode m
          | EDataSegment s => rlp_encode s
          end;
  Some (MsgType m, value).

Definition eth_UnmarshalTlv (typ : Z) (value : list Z) : res rerr EthContent :=
  if typ =? 200 then embedded value EStatus
  else if typ =? 201 then embedded value EBye
  else if typ =? 202 then embedded value EPush
  else if typ =? 203 then embedded value EDataReq
  else if typ =? 204 then embedded value EDataSegment
  else Err errForeign.

Definition content_ok (m : EthContent) : Prop :=
  match m with
  | EStatus m => rlp_ok m
  | EBye m => rlp_ok m
  | EPush m => rlp_ok m
  | EDataReq m => rlp_ok m
  | EDataSegment s => rlp_ok s
  end.

Definition content_value (m : EthContent) : value :=
  match m with
  | EStatus m => rlp_value m
  | EBye m => rlp_value m
  | EPush m => rlp_value m
  | EDataReq m => rlp_value m
  | EDataSegment s => rlp_value s
  end.

Lemma eth_MarshalTlv_ok m :
  content_ok m -> Z.of_nat (length (rlp_bytes (content_value m))) < 2 ^ 64 ->
  eth_MarshalTlv m = Some (MsgType m, rlp_bytes (content_value m)).
Proof.
  intros Hm Hl. unfold eth_MarshalTlv, rlp_encode.
  destruct m as [m|m|m|m|m]; cbn [content_ok content_value] in *;
    by destruct (EncodeToBytes_ok (rlp_value m) (rlp_value_ok m Hm) Hl) as [-> _].
Qed.

Lemma eth_UnmarshalTlv_ok m :
  content_ok m -> wire_ok (rlp_bytes (content_value m)) ->
  eth_UnmarshalTlv (MsgType m) (rlp_bytes (content_value m)) = Ok m.
Proof.
  intros Hm Hl. unfold eth_UnmarshalTlv.
  destruct m as [m|m|m|m|m]; cbn [content_ok content_value MsgType] in *;
    cbv [Z.eqb Pos.eqb]; by rewrite embedded_complete.
Qed.

Lemma eth_UnmarshalTlv_sound typ w m :
  wire_ok w -> eth_UnmarshalTlv typ w = Ok m ->
  content_ok m /\ typ = MsgType m /\ w = rlp_bytes (content_value m).
Proof.
  intros Hw. unfold eth_UnmarshalTlv.
  destruct (typ =? 200) eqn:E1; [|destruct (typ =? 201) eqn:E2; [|destruct (typ =? 202) eqn:E3;
    [|destruct (typ =? 203) eqn:E4; [|destruct (typ =? 204) eqn:E5; [|done]]]]]; bool_go; subst typ;
    match goal with |- @embedded _ _ ?H w ?mk = _ -> _ =>
      pose proof (@embedded_sound _ _ H w mk Hw) as Hs; destruct (@embedded _ _ H w mk) as [it|e]; [|done];
      intros [= ->]; by destruct Hs as (a & Ha & -> & ->)
    end.
Qed.

(** C32. Every message of the Ethereum protocol that is well-formed is read
    back from its TLV value, and whatever is read, is the value of a
    well-formed message of the type of the packet: the forms on the wire are
    unambiguous. *)
Theorem eth_wire_roundtrip m typ w :
  content_ok m -> Z.of_nat (length (rlp_bytes (content_value m))) < 2 ^ 64 -> wire_ok w ->
  (eth_MarshalTlv m = Some (typ, w) <-> eth_UnmarshalTlv typ w = Ok m).
Proof.
  intros Hm Hl Hw. rewrite eth_MarshalTlv_ok by done. split.
  - intros [= <- <-]. by apply eth_UnmarshalTlv_ok.
  - intros (_ & -> & ->)%eth_UnmarshalTlv_sound; done.
Qed.
End messages.

Definition demo_bye : EthContent := EBye (MkBye [4; 7] [47] 9 [1]).

Lemma eth_wire_roundtrip_witness :
  eth_MarshalTlv demo_bye = Some (201, [198; 130; 4; 7; 47; 9; 1])
  <-> eth_UnmarshalTlv 201 [198; 130; 4; 7; 47; 9; 1] = Ok demo_bye.
Proof.
  apply (eth_wire_roundtrip demo_bye).
  - cbn. repeat split; try lia; repeat constructor; unfold byte_ok; lia.
  - by vm_compute.
  - split; [|by vm_compute]. repeat constructor; unfold byte_ok; lia.
Defined.
