(* ===== verification/EthData.v ===== *)
(** * Data objects of the Ethereum protocol ([src/ndn/eth/datafetch.go], [ethmsg.go], [src/ndn/ndnsuit/producer.go])

    A data query travels in an Interest, with the query as parameter for the
    first segment and with its identity as name for the others; the producer
    decodes it, looks the object up in the chain or in the transaction pool,
    caches it and answers with a segment.  The chain and the pool are seen
    through the calls made on them. *)

From S2P Require Import Prelude Bytes Rlp RlpStream RlpTypes KadId Names Cacher Fetching KadRpc.
From S2P Require Import EthTypes EthPush EthHandler EthWire.
Local Open Scope Z_scope.

(** ** The object manager *)

(** What [ObjManager] reads: the chain and the transaction pool. *)
Record ChainView := MkView {
  GetBlock : list Z -> Z -> option Block;
  GetBlockByNumber : Z -> option Block;
  GetTd : list Z -> Z -> option Z;
  pool_Get : list Z -> option Transaction;
}.

Inductive data_error := DErrUnexpected | DErrInvalidRequest | DErrNoHeaderFound | DErrNoTxFound | DErrNoBlockFound
| DErrCache (e : cache_error).

(** The loop of [queryHeaders] from index [i] with [n] entries left; the
    entries after the first missing block stay nil. *)
Fixpoint headers_loop (v : ChainView) (q : EthHeadersQuery) (i n : nat) : list (option Header) :=
  match n with
  | O => []
  | S n' =>
    let bnum := u64 (hqFrom q + u16 (u16 (Z.of_nat i) * u16 (hqSkip q + 1))) in
    match GetBlockByNumber v bnum with
    | Some b => Some (header b) :: headers_loop v q (S i) n'
    | None => replicate n None
    end
  end.

Definition queryHeaders (v : ChainView) (q : EthHeadersQuery) : res data_error (list (option Header)) :=
  if hqCount q <? 1 then Err DErrInvalidRequest
  else
    let headers := headers_loop v q 0 (Z.to_nat (hqCount q)) in
    match headers with
    | Some _ :: _ => Ok headers
    | _ => Err DErrNoHeaderFound
    end.

(** A nil pointer to a struct is encoded as the empty list. *)
Definition ptr_value {A} `{RlpType A} (o : option A) : value :=
  match o with Some a => rlp_value a | None => VList [] end.

Section manager.
  Context {L : NdnLib}.

(** The object that the first segment of a query asks for. *)
Definition query_object (v : ChainView) (q : Query) : res data_error value :=
  match q with
  | QHeaders q =>
    match queryHeaders v q with Ok hs => Ok (VList (ptr_value <$> hs)) | Err e => Err e end
  | QTx h => match pool_Get v h with Some tx => Ok (rlp_value tx) | None => Err DErrNoTxFound end
  | QBlock q =>
    match GetBlock v (bqHash q) (bqNumber q) with
    | None => Err DErrNoBlockFound
    | Some b =>
      let td := GetTd v (Block_Hash b) (NumberU64 b) in
      if bqPart q =? BlockPartHeader then
        match td with Some td => Ok (rlp_value (MkFetchedHeader (header b) td)) | None => Err DErrUnexpected end
      else if bqPart q =? BlockPartBody then Ok (rlp_value (Block_Body b))
      else if bqPart q =? BlockPartFull then
        match td with Some td => Ok (rlp_value (MkFetchedBlock b td)) | None => Err DErrUnexpected end
      else Err DErrUnexpected
    end
  | QGeneric _ => Err DErrUnexpected
  end.

(** [ObjManager.GetSegment] at time [now]. *)
Definition eth_GetSegment (v : ChainView) (m : ObjCacheManager) (now : Z) (q : Query) (segId : Z)
  : option (res data_error SimpleSegment * ObjCacheManager) :=
  let queryid := Query_GetId q in
  if 0 <? segId then
    '(r, num, m) ← getSegment m now queryid segId;
    Some (match r with Ok seg => Ok (NewSimpleSegment seg segId num) | Err e => Err (DErrCache e) end, m)
  else
    match query_object v q with
    | Err e => Some (Err e, m)
    | Ok obj =>
      '(seg, num, m) ← manager_cache m now queryid (encoded obj);
      Some (Ok (NewSimpleSegment seg segId num), m)
    end.

(** ** Packets *)

(** An Interest with its forwarding hint and the TLV of its parameters. *)
Record Interest := MkInterest {
  iName : list NameComponent; iHint : option (list NameComponent); iParams : option (Z * list Z);
}.

Record PeerRouteInfo := MkRoute { peername : list NameComponent; usehint : bool; appname : list NameComponent }.

Definition EthNdnName : NameComponent := MkComponent TtGenericNameComponent [101; 116; 104].
Definition REQSTR : list Z := [114; 101; 113].
Definition ReqNdnName : NameComponent := MkComponent TtGenericNameComponent REQSTR.

(** The digest component that [UpdateParamsDigest] adds to a name. *)
Context (params_digest : Z * list Z -> list Z).

Definition WriteInterest (msg : EthContent) (route : PeerRouteInfo) : Interest :=
  let queryname := match msg with
                   | EDataReq r =>
                     if rqQType r =? QtGenericQuery
                     then ParseName ([REQSTR; Query_GetId (rqQuery r); print_uint16 (rqSegment r)] ≫= fun w => 47 :: w)
                     else []
                   | _ => []
                   end in
  let routename := BuildName [appname route; [EthNdnName]] in
  let wire := match queryname with [] => eth_MarshalTlv msg | _ => None end in
  let hint := if usehint route then Some (BuildName [peername route; appname route]) else None in
  let name := BuildName (if usehint route then [routename; queryname] else [peername route; routename; queryname]) in
  let digest := match wire with
                | Some w => [MkComponent TtParametersSha256DigestComponent (params_digest w)]
                | None => []
                end in
  MkInterest (name ++ digest) hint wire.

Definition is_prefix (p n : list NameComponent) : bool := bool_decide (take (length p) n = p).

(** [ethMsgRequestDecoder.DecodeInterest] *)
Definition DecodeInterest (prv_prefix pub_prefix : list NameComponent) (i : Interest) : res rerr EthContent :=
  let l := length (iName i) in
  let chosen :=
    if is_prefix prv_prefix (iName i) && (length prv_prefix <? l)%nat then Some (length prv_prefix)
    else if is_prefix pub_prefix (iName i) && (length pub_prefix <? l)%nat then Some (length pub_prefix)
    else None in
  match chosen with
  | None => Err errForeign
  | Some l1 =>
    if bool_decide (iName i !! l1 = Some ReqNdnName) then
      if negb (l =? l1 + 3)%nat then Err errForeign
      else
        match iName i !! (l - 2)%nat, iName i !! (l - 1)%nat with
        | Some c2, Some c1 =>
          match ParseInt16 (cvalue c1) with
          | None => Err errForeign
          | Some segment => Ok (EDataReq (MkDataReq QtGenericQuery (u16 segment) (QGeneric (cvalue c2))))
          end
        | _, _ => Err errForeign
        end
    else
      match iParams i with
      | None => Err errForeign
      | Some (typ, value) => eth_UnmarshalTlv typ value
      end
  end.

(** [EthMsg.ExtractQuery] *)
Definition eth_ExtractQuery (m : EthContent) : option (Query * Z) :=
  match m with EDataReq r => Some (rqQuery r, rqSegment r) | _ => None end.

(** ** The producer *)

(** What the producer does with an Interest. *)
Inductive produced := Dropped | ServeSegment (s : SimpleSegment) | SendNack | Handle (m : EthContent).

(** [producerImpl.process] with the object manager of the protocol. *)
Definition process (v : ChainView) (prv_prefix pub_prefix : list NameComponent) (m : ObjCacheManager) (now : Z) (i : Interest)
  : option (produced * ObjCacheManager) :=
  match DecodeInterest prv_prefix pub_prefix i with
  | Err _ => Some (Dropped, m)
  | Ok req =>
    match eth_ExtractQuery req with
    | None => Some (Handle req, m)
    | Some (query, segId) =>
      '(r, m) ← eth_GetSegment v m now query segId;
      Some (match r with Ok s => ServeSegment s | Err _ => SendNack end, m)
    end
  end.

(** [WriteData], [DecodeData] and [ExtractSegment]: what the consumer gets.
    An answer that is never sent is a timeout; a message for the handler is
    not a data request. *)
Definition reply_of (p : produced) : res ferror response :=
  match p with
  | Dropped => Err (FErrOther 0)
  | SendNack => Err (FErrOther 1)
  | ServeSegment s =>
    match eth_MarshalTlv (EDataSegment s) with
    | None => Ok RespNil
    | Some (typ, value) =>
      match eth_UnmarshalTlv typ value with
      | Err _ => Err (FErrOther 2)
      | Ok (EDataSegment s) => Ok (RespSegment (Ok s))
      | Ok _ => Ok (RespSegment (Err FErrUnexpected))
      end
    end
  | Handle _ => Err (FErrOther 3)
  end.

(** The request for segment [segId] of a query, sent to a node named [host]
    and handled at time [now] with the cache [m]. *)
Definition exchange (v : ChainView) (host : list NameComponent) (route : PeerRouteInfo) (m : ObjCacheManager) (now : Z)
  (q : Query) (segId : Z) : option (produced * ObjCacheManager) :=
  let prefix := BuildName [host; appname route] in
  process v (BuildName [prefix; [EthNdnName]]) (BuildName [appname route; [EthNdnName]]) m now
    (WriteInterest (EDataReq (WriteRequest q segId)) route).

End manager.

(** ** Decoding the Interest of a request *)

(** The route leads to the node; with a forwarding hint the name of the
    application cannot be taken for the one of the node. *)
Definition route_to (host : list NameComponent) (route : PeerRouteInfo) : Prop :=
  peername route = host /\
  (usehint route = true -> exists a b h' n', host = a :: h' /\ appname route = b :: n' /\ a <> b).

Section decoding.
  Context {L : NdnLib} {HL : NdnLibLaws L} (params_digest : Z * list Z -> list Z).
  Context (host : list NameComponent) (route : PeerRouteInfo).
  Hypothesis (Hroute : route_to host route).

Let prv := BuildName [BuildName [host; appname route]; [EthNdnName]].
Let pub := BuildName [appname route; [EthNdnName]].
Let base := if usehint route then pub else prv.

(** The decoder looks behind the prefix that the route used. *)
Lemma DecodeInterest_base rest hint params :
  rest <> [] ->
  DecodeInterest prv pub (MkInterest (base ++ rest) hint params) =
    if bool_decide (rest !! 0%nat = Some ReqNdnName) then
      if negb (length rest =? 3)%nat then Err errForeign
      else
        match rest !! 1%nat, rest !! 2%nat with
        | Some c2, Some c1 =>
          match ParseInt16 (cvalue c1) with
          | None => Err errForeign
          | Some segment => Ok (EDataReq (MkDataReq QtGenericQuery (u16 segment) (QGeneric (cvalue c2))))
          end
        | _, _ => Err errForeign
        end
    else match params with None => Err errForeign | Some (typ, value) => eth_UnmarshalTlv typ value end.
Proof.
  intros Hr. unfold DecodeInterest. cbn [iName iParams].
  assert (length base < length (base ++ rest))%nat as Hl by (rewrite length_app; destruct rest; simpl; [done|lia]).
  assert ((if is_prefix prv (base ++ rest) && (length prv <? length (base ++ rest))%nat then Some (length prv)
    else if is_prefix pub (base ++ rest) && (length pub <? length (base ++ rest))%nat then Some (length pub) else None)
    = Some (length base)) as ->.
  { destruct Hroute as [_ Hhint]. unfold is_prefix, base in *. destruct (usehint route).
    - destruct (Hhint eq_refl) as (a & b & h' & n' & Eh & En & Hne). rewrite (bool_decide_eq_false_2 (take (length prv) _ = prv)).
      2: { unfold prv, pub. rewrite !BuildName_concat. cbn [concat]. rewrite Eh, En. intros [= E _]. done. }
      cbn [andb]. rewrite bool_decide_eq_true_2 by (by rewrite take_app_length). cbn [andb].
      by rewrite (proj2 (Nat.ltb_lt _ _)) by done.
    - rewrite bool_decide_eq_true_2 by (by rewrite take_app_length). cbn [andb].
      by rewrite (proj2 (Nat.ltb_lt _ _)) by done. }
  rewrite lookup_app_r by lia. rewrite Nat.sub_diag. destruct (bool_decide _); [|done].
  rewrite length_app. destruct (length rest =? 3)%nat eqn:E3.
  - apply Nat.eqb_eq in E3. rewrite (proj2 (Nat.eqb_eq (length base + length rest) (length base + 3))) by lia.
    cbn [negb]. rewrite !lookup_app_r by lia.
    replace (length base + length rest - 2 - length base)%nat with 1%nat by lia.
    by replace (length base + length rest - 1 - length base)%nat with 2%nat by lia.
  - apply Nat.eqb_neq in E3. by rewrite (proj2 (Nat.eqb_neq (length base + length rest) (length base + 3))) by lia.
Qed.

(** The identity of a query can be written as a name component. *)
Lemma Query_GetId_word q : query_ok q -> Query_GetId q <> [] /\ Forall word_char (Query_GetId q).
Proof.
  assert (forall w, hex_encode (sha256 w) <> [] /\ Forall word_char (hex_encode (sha256 w))) as H.
  { intros w. split; [|apply hex_encode_word, sha256_bytes]. pose proof (sha256_length w). by destruct (sha256 w). }
  intros [_ Hq]. destruct q as [q|h|q|id]; cbn [Query_GetId]; [apply H| |apply H|done].
  split; [done|]. constructor; [left; lia|]. constructor; [right; right; lia|]. apply hex_encode_word, Hq.
Qed.

Lemma WriteInterest_name name_rest msg :
  (match msg with
   | EDataReq r => if rqQType r =? QtGenericQuery
     then ParseName ([REQSTR; Query_GetId (rqQuery r); print_uint16 (rqSegment r)] ≫= fun w => 47 :: w) else []
   | _ => [] end) = name_rest ->
  let wire := match name_rest with [] => eth_MarshalTlv msg | _ => None end in
  exists hint, WriteInterest params_digest msg route =
    MkInterest (base ++ name_rest ++ match wire with
      | Some w => [MkComponent TtParametersSha256DigestComponent (params_digest w)] | None => [] end) hint wire.
Proof.
  intros E wire. unfold WriteInterest. rewrite E. fold wire.
  exists (if usehint route then Some (BuildName [peername route; appname route]) else None). f_equal.
  unfold base, prv, pub. destruct Hroute as [-> _]. rewrite app_assoc. f_equal.
  destruct (usehint route); rewrite !BuildName_concat; cbn [concat]; rewrite ?app_nil_r, ?app_assoc; done.
Qed.

(** A request for a later segment is decoded below 32768 and dropped above. *)
Lemma decode_segment_request q n :
  query_ok q -> 0 < n < 2 ^ 16 ->
  DecodeInterest prv pub (WriteInterest params_digest (EDataReq (WriteRequest q n)) route) =
    if n <? 32768 then Ok (EDataReq (MkDataReq QtGenericQuery n (QGeneric (Query_GetId q)))) else Err errForeign.
Proof.
  intros Hq Hn. destruct (Query_GetId_word q Hq) as [Hid1 Hid2]. destruct (print_uint16_word n) as [Hp1 Hp2]; [lia|].
  assert (WriteRequest q n = MkDataReq QtGenericQuery n (QGeneric (Query_GetId q))) as ->.
  { destruct q; try (unfold WriteRequest; by rewrite (proj2 (Z.eqb_neq n 0)) by lia). by destruct Hq. }
  destruct (WriteInterest_name (MkComponent TtGenericNameComponent <$> [REQSTR; Query_GetId q; print_uint16 n])
    (EDataReq (MkDataReq QtGenericQuery n (QGeneric (Query_GetId q))))) as [hint ->].
  { cbn [rqQType rqSegment rqQuery Query_GetId]. change (QtGenericQuery =? QtGenericQuery) with true. cbn iota.
    apply ParseName_words. constructor; [|by repeat constructor]. split; [done|].
    unfold REQSTR. do 3 (apply Forall_cons_2; [right; right; lia|]). apply Forall_nil_2. }
  cbn [fmap list_fmap]. rewrite DecodeInterest_base by done. cbn [app lookup list_lookup].
  rewrite bool_decide_eq_true_2 by done. cbn [length Nat.eqb negb cvalue].
  rewrite ParseInt16_print by lia. destruct (n <? 32768) eqn:E; [|done]. bool_go. by rewrite wrap_id by (unfold fits; lia).
Qed.

(** The request for the first segment carries the query. *)
Lemma decode_first_request q :
  query_ok q -> wire_ok (rlp_bytes (rlp_value (WriteRequest q 0))) ->
  DecodeInterest prv pub (WriteInterest params_digest (EDataReq (WriteRequest q 0)) route) = Ok (EDataReq (WriteRequest q 0)).
Proof.
  intros Hq Hw. assert (WriteRequest q 0 = MkDataReq (query_type q) 0 q) as E0 by (destruct q; try done; by destruct Hq).
  assert (req_ok (WriteRequest q 0)) as Hr by (rewrite E0; split; [done|split; [cbn; lia|done]]).
  destruct (WriteInterest_name [] (EDataReq (WriteRequest q 0))) as [hint ->].
  { rewrite E0. cbn [rqQType]. rewrite (proj2 (Z.eqb_neq _ _)); [done|]. destruct q; try done. by destruct Hq. }
  rewrite eth_MarshalTlv_ok by (done || apply Hw). cbn [app]. rewrite DecodeInterest_base by done.
  cbn [lookup list_lookup]. rewrite bool_decide_eq_false_2.
  - by apply eth_UnmarshalTlv_ok.
  - intros [= E]. by apply generic_not_params.
Qed.
End decoding.

(** ** From the chain of the server to the client *)

Section transfer.
  Context {L : NdnLib} {HL : NdnLibLaws L} (params_digest : Z * list Z -> list Z).
  Context (host : list NameComponent) (route : PeerRouteInfo) (Hroute : route_to host route).
  Context (v : ChainView) (q : Query) (obj : value).
  Hypothesis (Hq : query_ok q) (Hreq : wire_ok (rlp_bytes (rlp_value (WriteRequest q 0)))).
  Hypothesis (Hobj : query_object v q = Ok obj) (Hv : value_ok obj) (Hwo : wire_ok (rlp_bytes obj)).

Let n := nsegs MAX_SEGMENT_SIZE (length (rlp_bytes obj)).
Hypothesis (Hn : Z.of_nat n < 32768).

Lemma n_pos : (0 < n)%nat.
Proof.
  apply nsegs_spec; [apply MAX_SEGMENT_pos|]. pose proof (rlp_bytes_nonempty obj). destruct (rlp_bytes obj); [done|simpl; lia].
Qed.

(** The answer to the first request; the object is in the cache if it has
    more than one segment. *)
Lemma exchange_first m now :
  manager_inv m -> mdead m = false -> objects m !! Query_GetId q = None ->
  exists m', exchange params_digest v host route m now q 0 =
      Some (ServeSegment (NewSimpleSegment (chunk MAX_SEGMENT_SIZE (rlp_bytes obj) 0) 0 (Z.of_nat n)), m') /\
    manager_inv m' /\ mdead m' = false /\
    ((1 < n)%nat -> fresh m' (Query_GetId q) (rlp_bytes obj) (now + OBJ_EXPIRING_PERIOD)).
Proof.
  intros Hi Hd Hnone. unfold exchange, process.
  rewrite (decode_first_request params_digest host route Hroute q Hq Hreq). cbn [eth_ExtractQuery].
  assert (WriteRequest q 0 = MkDataReq (query_type q) 0 q) as E0 by (destruct q; try done; by destruct Hq).
  rewrite E0. cbn [rqQuery rqSegment]. unfold eth_GetSegment. change (0 <? 0) with false. cbn iota.
  rewrite Hobj. assert (encoded obj = rlp_bytes obj) as ->.
  { unfold encoded. by destruct (EncodeToBytes_ok obj Hv ltac:(apply Hwo)) as [-> _]. }
  assert (u16 (Z.of_nat n) = Z.of_nat n) as Hu by (apply wrap_id; unfold fits; lia).
  destruct (manager_cache_ok m now (Query_GetId q) (rlp_bytes obj) Hi) as (seg & num & m' & E & Hi' & Hd' & _ & Hnew).
  rewrite E. cbn [mbind option_bind]. fold n in Hnew. rewrite Hu in Hnew. pose proof n_pos as Hpos.
  destruct (decide (1 < n)%nat) as [Hbig|Hsmall].
  - destruct (Hnew Hd Hnone ltac:(lia)) as (Hfr & -> & ->). exists m'. split_and!; try done. congruence.
  - exists m'. unfold manager_cache in E. rewrite Hd, Hnone in E.
    rewrite num_segments_spec in E by apply MAX_SEGMENT_pos. fold n in E. rewrite Hu in E. cbn [mbind option_bind] in E.
    rewrite (proj2 (Z.ltb_ge 1 (Z.of_nat n))) in E by lia. injection E as <- <- <-.
    split_and!; try done. do 4 f_equal. unfold chunk. rewrite drop_0. symmetry. apply take_ge.
    destruct (decide (MAX_SEGMENT_SIZE < length (rlp_bytes obj))%nat) as [Hlt|]; [|lia].
    pose proof (proj2 (nsegs_spec MAX_SEGMENT_SIZE (length (rlp_bytes obj)) 1 MAX_SEGMENT_pos)). fold n in H. lia.
Qed.

(** The answer to a later request while the object is cached. *)
Lemma exchange_later m now t i :
  manager_inv m -> mdead m = false -> fresh m (Query_GetId q) (rlp_bytes obj) t -> (0 < i < n)%nat ->
  exists m', exchange params_digest v host route m now q (Z.of_nat i) =
    Some (ServeSegment (NewSimpleSegment (chunk MAX_SEGMENT_SIZE (rlp_bytes obj) i) (Z.of_nat i) (Z.of_nat n)), m').
Proof.
  intros Hi Hd Hfr Hlt. unfold exchange, process.
  rewrite (decode_segment_request params_digest host route Hroute q (Z.of_nat i) Hq) by lia.
  rewrite (proj2 (Z.ltb_lt (Z.of_nat i) 32768)) by lia. cbn [eth_ExtractQuery rqQuery rqSegment].
  unfold eth_GetSegment. rewrite (proj2 (Z.ltb_lt 0 (Z.of_nat i))) by lia. cbn [Query_GetId].
  destruct (getSegment_ok m now (Query_GetId q) (Z.of_nat i) Hi ltac:(lia)) as (r & num & m' & -> & _ & _ & _ & Hg).
  destruct (Hg (rlp_bytes obj) t Hd Hfr) as (_ & -> & ->). fold n. rewrite wrap_id by (unfold fits; lia).
  rewrite (proj2 (Z.ltb_lt (Z.of_nat i) (Z.of_nat n))) by lia. cbn [mbind option_bind]. rewrite Nat2Z.id. by exists m'.
Qed.

Lemma chunk_ok i : Forall byte_ok (chunk MAX_SEGMENT_SIZE (rlp_bytes obj) i).
Proof. apply Forall_take, Forall_drop, Hwo. Qed.

(** A served segment arrives. *)
Lemma reply_segment_ok i :
  (i < n)%nat ->
  reply_of (ServeSegment (NewSimpleSegment (chunk MAX_SEGMENT_SIZE (rlp_bytes obj) i) (Z.of_nat i) (Z.of_nat n))) =
    Ok (RespSegment (Ok (NewSimpleSegment (chunk MAX_SEGMENT_SIZE (rlp_bytes obj) i) (Z.of_nat i) (Z.of_nat n)))).
Proof.
  intros Hlt. set (s := NewSimpleSegment _ _ _). pose proof (chunk_ok i) as Hb.
  assert (content_ok (EDataSegment s)) as Hok by (unfold s; cbn [content_ok rlp_ok rlp_segment Wire Total Id]; split_and!; (done || lia)).
  assert (length (Wire s) <= 1000)%nat as Hlen by (unfold s, chunk; cbn [Wire]; rewrite length_take; unfold MAX_SEGMENT_SIZE; lia).
  pose proof (small_segment (Wire s) (Z.of_nat i) (Z.of_nat n) ltac:(lia) ltac:(lia) ltac:(lia)) as Hsm.
  assert (wire_ok (rlp_bytes (content_value (EDataSegment s)))) as Hw.
  { split; [|unfold small in Hsm; cbn [content_value]; change (rlp_value s) with
      (rlp_value (NewSimpleSegment (Wire s) (Z.of_nat i) (Z.of_nat n))); lia].
    apply rlp_bytes_ok; [|exact Hsm]. cbn. split_and!; try done; apply item_ok_uint; lia. }
  unfold reply_of. rewrite eth_MarshalTlv_ok by (done || apply Hw). by rewrite eth_UnmarshalTlv_ok.
Qed.

(** The cache of the server at the later requests, after other requests were
    handled, within the life time of the object. *)
Definition later (m1 : ObjCacheManager) (now : Z) (m : ObjCacheManager) : Prop :=
  exists ops, Forall (fun x => op_ok x.2 /\ now <= x.1 <= now + OBJ_EXPIRING_PERIOD) ops /\ manager_run m1 ops = Some m.

Lemma later_refl m now : later m now m.
Proof. exists []. by split. Qed.

(** What the requests of one fetch are answered with: the first at time [now],
    request [i] with the cache and at the time that [st i] says. *)
Definition answers (m0 : ObjCacheManager) (now : Z) (st : nat -> ObjCacheManager * Z) (i : nat) : res ferror response :=
  let '(m, t) := match i with O => (m0, now) | _ => st i end in
  match exchange params_digest v host route m t q (Z.of_nat i) with
  | Some (p, _) => reply_of p
  | None => Err (FErrOther 4)
  end.

Lemma answers_served m0 now st p m1 :
  manager_inv m0 -> mdead m0 = false -> objects m0 !! Query_GetId q = None ->
  exchange params_digest v host route m0 now q 0 = Some (p, m1) ->
  (forall i, (0 < i < n)%nat -> later m1 now (st i).1) ->
  SegmentServer (answers m0 now st) (rlp_bytes obj) n (chunk MAX_SEGMENT_SIZE (rlp_bytes obj)).
Proof.
  intros Hi Hd Hnone E Hst. destruct (exchange_first m0 now Hi Hd Hnone) as (m1' & E1 & Hi1 & Hd1 & Hfr).
  rewrite E in E1. injection E1 as -> ->. split.
  - pose proof n_pos. split; [done|lia].
  - intros i Hlt. unfold answers. destruct i as [|i].
    + change (Z.of_nat 0) with 0. rewrite E. exact (reply_segment_ok 0 Hlt).
    + destruct (Hst (S i) ltac:(lia)) as (ops & Hops & Hrun). destruct (st (S i)) as [m t]. cbn [fst] in Hrun.
      apply Forall_and in Hops as [Hok Ht]. destruct (manager_run_ok m1' ops now Hi1 Hok) as (m' & Hrun' & Hi' & Hd' & Hf').
      rewrite Hrun in Hrun'. injection Hrun' as <-.
      destruct (exchange_later m t (now + OBJ_EXPIRING_PERIOD) (S i) Hi' ltac:(congruence) (Hf' Ht _ _ (Hfr ltac:(lia))) ltac:(lia))
        as [m'' ->]. by apply reply_segment_ok.
  - apply (chunks_concat MAX_SEGMENT_SIZE (rlp_bytes obj) MAX_SEGMENT_pos).
Qed.

(** The parallel fetch of the object by a client. *)
Lemma fetch_object m0 now st p m1 ids :
  manager_inv m0 -> mdead m0 = false -> objects m0 !! Query_GetId q = None ->
  exchange params_digest v host route m0 now q 0 = Some (p, m1) ->
  (forall i, (0 < i < n)%nat -> later m1 now (st i).1) -> ids ≡ₚ seq 1 (n - 1) ->
  FetchObjectAsync 0 (fun _ => None) (answers m0 now st) (Arrive <$> (0%nat :: ids)) = ADone (Ok (rlp_bytes obj)).
Proof.
  intros Hi Hd Hnone E Hst Hids. pose proof (answers_served m0 now st p m1 Hi Hd Hnone E Hst) as Hs.
  by apply (async_served_unknown _ _ _ _ _ Hs).
Qed.
End transfer.

(** ** Batches of headers *)

Section headers.
  Context {L : NdnLib} {HL : NdnLibLaws L} (params_digest : Z * list Z -> list Z).

(** [dwork.getHeaders]: the fetched object decoded as a list of headers. *)
Definition getHeaders (r : async_result) : option (res (ferror + rerr) (list Header)) :=
  match r with
  | ADone (Ok obj) =>
    Some (match DecodeBytes obj (decodeListSlice rlp_dec) with Ok hs => Ok hs | Err e => Err (inr e) end)
  | ADone (Err e) => Some (Err (inl e))
  | _ => None
  end.

Lemma headers_index q i :
  0 <= hqFrom q -> 0 <= hqSkip q < 2 ^ 16 - 1 -> Z.of_nat i * (hqSkip q + 1) < 2 ^ 16 ->
  hqFrom q + Z.of_nat i * (hqSkip q + 1) < 2 ^ 64 ->
  u64 (hqFrom q + u16 (u16 (Z.of_nat i) * u16 (hqSkip q + 1))) = hqFrom q + Z.of_nat i * (hqSkip q + 1).
Proof.
  intros Hf Hs Hi Hl. assert (Z.of_nat i <= Z.of_nat i * (hqSkip q + 1)) by nia.
  rewrite (wrap_id 16 (Z.of_nat i)), (wrap_id 16 (hqSkip q + 1)) by (unfold fits; lia).
  rewrite (wrap_id 16) by (unfold fits; nia). apply wrap_id. unfold fits. nia.
Qed.

(** The blocks that the query asks for, as far as the chain has them. *)
Lemma headers_loop_prefix v q bs i n :
  0 <= hqFrom q -> 0 <= hqSkip q < 2 ^ 16 - 1 ->
  (Z.of_nat (i + n) - 1) * (hqSkip q + 1) < 2 ^ 16 -> hqFrom q + (Z.of_nat (i + n) - 1) * (hqSkip q + 1) < 2 ^ 64 ->
  (length bs <= n)%nat ->
  (forall j b, bs !! j = Some b -> GetBlockByNumber v (hqFrom q + Z.of_nat (i + j) * (hqSkip q + 1)) = Some b) ->
  ((length bs < n)%nat -> GetBlockByNumber v (hqFrom q + Z.of_nat (i + length bs) * (hqSkip q + 1)) = None) ->
  headers_loop v q i n = ((fun b => Some (header b)) <$> bs) ++ replicate (n - length bs) None.
Proof.
  intros Hf Hs Hp Hq. revert i n Hp Hq. induction bs as [|b bs IH]; intros i n Hp Hq Hl Hb Hend.
  - destruct n as [|n]; [done|]. cbn [headers_loop]. rewrite headers_index by (done || nia).
    cbn [length] in Hend. rewrite Nat.add_0_r in Hend. rewrite Hend by lia. done.
  - destruct n as [|n]; cbn [length] in *; [lia|]. cbn [headers_loop]. rewrite headers_index by (done || nia).
    pose proof (Hb 0%nat b eq_refl) as H0. rewrite Nat.add_0_r in H0. rewrite H0. cbn [fmap list_fmap app Nat.sub].
    f_equal. apply IH; [by rewrite <- Nat.add_succ_comm in Hp|by rewrite <- Nat.add_succ_comm in Hq|lia| |].
    + intros j b' Hj. rewrite Nat.add_succ_comm. by apply (Hb (S j)).
    + intros Hlt. rewrite Nat.add_succ_comm. apply Hend. lia.
Qed.

Lemma header_item_ok (h : Header) : rlp_ok h -> item_ok (item_of (rlp_value h)).
Proof.
  intros (H1 & H2 & H3 & H4 & H5 & H6 & H7 & H8 & H9 & H10 & H11 & H12 & H13 & H14 & H15 & _).
  cbn. split_and!; try (by apply (item_ok_uint)); try apply item_ok_uint; try lia; try done;
    match goal with H : array_ok _ ?b |- Forall _ ?b => apply H end.
Qed.

Lemma headers_item_ok (hs : list (option Header)) :
  Forall (fun o => match o with Some h => rlp_ok h | None => True end) hs ->
  item_ok (item_of (VList (ptr_value <$> hs))) /\ value_ok (VList (ptr_value <$> hs)).
Proof.
  intros Hhs. split.
  - cbn [item_of]. induction Hhs as [|[h|] hs Hh Hhs IH]; [done|..]; cbn; (split; [|exact IH]); [by apply header_item_ok|done].
  - apply value_ok_list, Forall_fmap. eapply Forall_impl; [exact Hhs|]. intros [h|] Hh; [by apply (rlp_value_ok h)|done].
Qed.

(** The query and its first request are small. *)
Lemma headers_query_ok (q : EthHeadersQuery) :
  rlp_ok q -> query_ok (QHeaders q) /\ wire_ok (rlp_bytes (rlp_value (WriteRequest (QHeaders q) 0))).
Proof.
  intros Hq. pose proof Hq as (H1 & H2 & H3 & H4 & _).
  assert (length (rlp_bytes (rlp_value q)) <= 77)%nat as Hl.
  { cbn [rlp_value rlp_headersquery]. pose proof (uint_size _ H1). pose proof (uint_size (hqCount q) ltac:(lia)).
    pose proof (uint_size (hqSkip q) ltac:(lia)). pose proof (uint_size _ H4).
    pose proof (list_size [VUint (hqFrom q); VUint (hqCount q); VUint (hqSkip q); VUint (hqNonce q)]) as Hs.
    cbn [sum_list_with] in Hs. lia. }
  assert (wire_ok (rlp_bytes (rlp_value q))) as Hw.
  { split; [|lia]. apply rlp_bytes_ok; [|unfold small; lia]. cbn. split_and!; try done; apply item_ok_uint; lia. }
  assert (query_ok (QHeaders q)) as Hqo by done. split; [done|].
  unfold WriteRequest. change (0 =? 0) with true. cbn iota. cbn [rlp_value rlp_datareq rqQType rqSegment rqQuery query_type].
  rewrite (query_encoded _ Hqo). cbn [query_value].
  clear Hqo. set (w := rlp_bytes (rlp_value q)) in *. clearbody w.
  assert (small (VList [VUint QtHeadersQuery; VUint 0; VBytes w])) as Hsm.
  { unfold small. pose proof (uint_size QtHeadersQuery ltac:(unfold QtHeadersQuery; lia)). pose proof (uint_size 0 ltac:(lia)).
    pose proof (bytes_size w ltac:(lia)).
    pose proof (list_size [VUint QtHeadersQuery; VUint 0; VBytes w]) as Hs.
    cbn [sum_list_with] in Hs. lia. }
  split; [|unfold small in Hsm; lia]. apply rlp_bytes_ok; [|done]. cbn. split_and!; first [done | apply Hw | by apply item_ok_uint].
Qed.

Section batch.
  Context (host : list NameComponent) (route : PeerRouteInfo) (Hroute : route_to host route).
  Context (v : ChainView) (q : EthHeadersQuery) (hs : list (option Header)).
  Hypothesis (Hq : rlp_ok q) (Hhs : queryHeaders v q = Ok hs).
  Hypothesis (Hok : Forall (fun o => match o with Some h => rlp_ok h | None => True end) hs).
  Hypothesis (Hlen : Z.of_nat (length (rlp_bytes (VList (ptr_value <$> hs)))) <= 32767 * 1000).

Let n := nsegs MAX_SEGMENT_SIZE (length (rlp_bytes (VList (ptr_value <$> hs)))).

(** What a batch request is answered with arrives. *)
Lemma fetch_headers m0 now st p m1 ids :
  manager_inv m0 -> mdead m0 = false -> objects m0 !! Query_GetId (QHeaders q) = None ->
  exchange params_digest v host route m0 now (QHeaders q) 0 = Some (p, m1) ->
  (forall i, (0 < i < n)%nat -> later m1 now (st i).1) -> ids ≡ₚ seq 1 (n - 1) ->
  FetchObjectAsync 0 (fun _ => None) (answers params_digest host route v (QHeaders q) m0 now st) (Arrive <$> (0%nat :: ids)) =
    ADone (Ok (rlp_bytes (VList (ptr_value <$> hs)))).
Proof.
  intros Hi Hd Hnone E Hst Hids. destruct (headers_query_ok q Hq) as [Hqo Hreq]. destruct (headers_item_ok hs Hok) as [Hit Hv].
  assert (small (VList (ptr_value <$> hs))) as Hsm by (unfold small; lia).
  assert (wire_ok (rlp_bytes (VList (ptr_value <$> hs)))) as Hw.
  { split; [by apply rlp_bytes_ok|]. unfold small in Hsm. lia. }
  apply (fetch_object params_digest host route Hroute v (QHeaders q) (VList (ptr_value <$> hs)) Hqo Hreq) with (p := p) (m1 := m1);
    try done; [by cbn [query_object]; rewrite Hhs|].
  fold n. destruct (decide (Z.of_nat n < 32768)) as [|Hlt]; [done|exfalso].
  pose proof (proj1 (nsegs_spec MAX_SEGMENT_SIZE (length (rlp_bytes (VList (ptr_value <$> hs)))) (n - 1) MAX_SEGMENT_pos)) as Hs.
  fold n in Hs. specialize (Hs ltac:(lia)). unfold MAX_SEGMENT_SIZE in Hs. lia.
Qed.
End batch.

Lemma decode_headers (hs : list Header) :
  Forall rlp_ok hs -> Z.of_nat (length (rlp_bytes (slice_value hs))) < 2 ^ 64 ->
  DecodeBytes (rlp_bytes (slice_value hs)) (decodeListSlice (rlp_dec (A := Header))) = Ok hs.
Proof.
  intros Hok Hl. apply (DecodeBytes_complete _ (fun l => rlp_bytes (slice_value l)) (Forall rlp_ok)); [|done|done].
  apply slice_lawful.
Qed.

(** A batch with a nil entry does not decode. *)
Lemma decode_nil_header (hs : list (option Header)) :
  None ∈ hs -> item_ok (item_of (VList (ptr_value <$> hs))) -> small (VList (ptr_value <$> hs)) ->
  exists e, DecodeBytes (rlp_bytes (VList (ptr_value <$> hs))) (decodeListSlice (rlp_dec (A := Header))) = Err e.
Proof.
  intros Hnone Hit Hsm. destruct (DecodeBytes _ _) as [l|e] eqn:E; [exfalso|eauto].
  destruct (DecodeBytes_sound _ (fun l => rlp_bytes (slice_value l)) (Forall rlp_ok) _ _
    (lw_sound _ _ _ slice_lawful) (rlp_bytes_ok _ Hit Hsm) ltac:(unfold small in Hsm; lia) E) as [_ El].
  apply encode_item_inj' in El; [|unfold small, rlp_bytes in Hsm; lia]. cbn [item_of slice_value] in El. injection El as El.
  clear -Hnone El. revert l El. induction hs as [|o hs IH]; intros l El; [by apply not_elem_of_nil in Hnone|].
  destruct l as [|h l]; [done|]. injection El as E1 El. apply elem_of_cons in Hnone as [<-|Hin]; [done|by eapply IH].
Qed.
End headers.

(** ** A batch against a chain *)

Section against_chain.
  Context {L : NdnLib} {HL : NdnLibLaws L} (params_digest : Z * list Z -> list Z).
  Context (host : list NameComponent) (route : PeerRouteInfo) (v : ChainView) (q : EthHeadersQuery) (bs : list Block).

(** The query asks for at least one block without overflow of its 16 bit
    arithmetic, and [bs] are the blocks that the chain has, from the first. *)
Record asks (bs : list Block) : Prop := MkAsks {
  ak_query : rlp_ok q;
  ak_count : 0 < hqCount q;
  ak_skip : hqSkip q < 2 ^ 16 - 1;
  ak_span : (hqCount q - 1) * (hqSkip q + 1) < 2 ^ 16;
  ak_number : hqFrom q + (hqCount q - 1) * (hqSkip q + 1) < 2 ^ 64;
  ak_len : Z.of_nat (length bs) <= hqCount q;
  ak_have : forall j b, bs !! j = Some b -> GetBlockByNumber v (hqFrom q + Z.of_nat j * (hqSkip q + 1)) = Some b;
  ak_end : Z.of_nat (length bs) < hqCount q ->
    GetBlockByNumber v (hqFrom q + Z.of_nat (length bs) * (hqSkip q + 1)) = None;
  ak_ok : Forall (fun b => rlp_ok (header b)) bs;
}.

(** The entries of the answer. *)
Definition batch (bs : list Block) : list (option Header) :=
  ((fun b => Some (header b)) <$> bs) ++ replicate (Z.to_nat (hqCount q) - length bs) None.

Lemma asks_query b bs' : asks (b :: bs') -> queryHeaders v q = Ok (batch (b :: bs')).
Proof.
  intros [(Hf & Hc & Hs & _) ? ? ? ? Hl Hh He _]. unfold queryHeaders. rewrite (proj2 (Z.ltb_ge _ _)) by lia.
  rewrite (headers_loop_prefix v q (b :: bs') 0 (Z.to_nat (hqCount q))); [done|lia|lia|..].
  - rewrite Nat.add_0_l, Z2Nat.id by lia. done.
  - rewrite Nat.add_0_l, Z2Nat.id by lia. done.
  - lia.
  - intros j b' Hj. by apply Hh.
  - intros Hlt. apply He. lia.
Qed.

Lemma batch_ok : asks bs -> Forall (fun o => match o with Some h => rlp_ok h | None => True end) (batch bs).
Proof.
  intros Ha. apply Forall_app. split; [|by apply Forall_replicate]. apply Forall_fmap. exact (ak_ok _ Ha).
Qed.

Lemma batch_full : asks bs -> Z.of_nat (length bs) = hqCount q -> VList (ptr_value <$> batch bs) = slice_value (header <$> bs).
Proof.
  intros Ha Hl. unfold batch. replace (Z.to_nat (hqCount q) - length bs)%nat with 0%nat by lia.
  cbn [replicate]. rewrite app_nil_r. unfold slice_value. f_equal. by rewrite <- !list_fmap_compose.
Qed.

Context (before : list (Z * manager_op)) (m0 m1 : ObjCacheManager) (now : Z) (p : produced).
Context (st : nat -> ObjCacheManager * Z) (ids : list nat).

(** The server with any history, which caches the answer before it is asked
    for the other segments, and answers them within the life time. *)
Record serves (w : list Z) : Prop := MkServes {
  sv_route : route_to host route;
  sv_before : Forall (fun x => op_ok x.2) before;
  sv_cache : manager_run newObjCacheManager before = Some m0;
  sv_new : objects m0 !! Query_GetId (QHeaders q) = None;
  sv_first : exchange params_digest v host route m0 now (QHeaders q) 0 = Some (p, m1);
  sv_later : forall i, (0 < i < nsegs MAX_SEGMENT_SIZE (length w))%nat -> later m1 now (st i).1;
  sv_order : ids ≡ₚ seq 1 (nsegs MAX_SEGMENT_SIZE (length w) - 1);
  sv_size : Z.of_nat (length w) <= 32767 * 1000;
}.

(** The parallel fetch of the batch. *)
Definition fetched : async_result :=
  FetchObjectAsync 0 (fun _ => None) (answers params_digest host route v (QHeaders q) m0 now st) (Arrive <$> (0%nat :: ids)).

Lemma fetched_batch b bs' :
  bs = b :: bs' -> asks bs -> serves (rlp_bytes (VList (ptr_value <$> batch bs))) ->
  fetched = ADone (Ok (rlp_bytes (VList (ptr_value <$> batch bs)))).
Proof.
  intros Eb Ha [Hr Hb Hrun Hnew Hfirst Hlater Hord Hsz].
  destruct (manager_run_ok newObjCacheManager before 0) as (m0' & Hrun' & Hi & Hd & _); [done|done|].
  rewrite Hrun in Hrun'. injection Hrun' as <-.
  apply (fetch_headers params_digest host route Hr v q (batch bs) (ak_query _ Ha)) with (p := p) (m1 := m1); try done.
  - rewrite Eb in Ha |- *. by apply asks_query.
  - by apply batch_ok.
Qed.

(** C5. A batch of headers that is asked from a node which has all the blocks
    arrives as it is in the chain of the node: through the Interest of the
    query, its decoding, the look-up, the cache, the segments in whatever
    order they arrive, and the decoding of the object. *)
Theorem headers_end_to_end :
  asks bs -> Z.of_nat (length bs) = hqCount q -> serves (rlp_bytes (slice_value (header <$> bs))) ->
  getHeaders fetched = Some (Ok (header <$> bs)).
Proof.
  intros Ha Hl Hs. pose proof (batch_full Ha Hl) as Ef. pose proof (ak_count _ Ha).
  destruct bs as [|b bs'] eqn:Eb; [cbn in Hl; lia|]. rewrite <- Eb in *.
  rewrite (fetched_batch b bs' Eb Ha) by (by rewrite Ef). rewrite Ef. cbn [getHeaders]. rewrite decode_headers; [done| |].
  - apply Forall_fmap. exact (ak_ok _ Ha).
  - pose proof (sv_size _ Hs). lia.
Qed.

(** A batch that reaches past the end of the chain of the node is lost as
    a whole: the answer has nil entries after the last block, which no client
    can decode. *)
Theorem headers_past_end :
  asks bs -> bs <> [] -> Z.of_nat (length bs) < hqCount q -> serves (rlp_bytes (VList (ptr_value <$> batch bs))) ->
  exists e, getHeaders fetched = Some (Err (inr e)).
Proof.
  intros Ha Hne Hl Hs. destruct bs as [|b bs'] eqn:Eb; [done|]. rewrite <- Eb in *.
  rewrite (fetched_batch b bs' Eb Ha Hs). cbn [getHeaders].
  destruct (headers_item_ok (batch bs) (batch_ok Ha)) as [Hit _].
  destruct (decode_nil_header (batch bs)) as [e ->]; [|done| |eauto].
  - unfold batch. apply elem_of_app. right. apply elem_of_replicate. split; [done|lia].
  - unfold small. pose proof (sv_size _ Hs). lia.
Qed.
End against_chain.

(** ** Witnesses *)

Definition demo_header (n : Z) : Header :=
  MkHeader (replicate 32 1) (replicate 32 2) (replicate 20 3) (replicate 32 4) (replicate 32 5) (replicate 32 6)
    (replicate 256 0) 4 n 5000 0 17 [] (replicate 32 7) (replicate 8 0).

(** A chain of six blocks. *)
Definition demo_view : ChainView :=
  MkView (fun _ _ => None) (fun n => if (0 <=? n) && (n <=? 6) then Some (NewBlockWithHeader (demo_header n)) else None)
    (fun _ _ => None) (fun _ => None).

Definition demo_host : list NameComponent := [MkComponent 8 [97]].
Definition demo_route : PeerRouteInfo := MkRoute demo_host false [MkComponent 8 [98]].
Definition demo_digest (w : Z * list Z) : list Z := take 32 w.2.
(** Every other block from number 2: three that are there, or one more. *)
Definition demo_query (past : bool) : EthHeadersQuery := MkHeadersQuery 2 (if past then 4 else 3) 1 9.
Definition demo_blocks : list Block := (fun n => NewBlockWithHeader (demo_header n)) <$> [2; 4; 6].

(** The cache after the first answer. *)
Definition demo_first (past : bool) : produced * ObjCacheManager :=
  match exchange demo_digest demo_view demo_host demo_route newObjCacheManager 5 (QHeaders (demo_query past)) 0 with
  | Some x => x
  | None => (Dropped, newObjCacheManager)
  end.

Lemma demo_header_ok n : 0 <= n -> rlp_ok (demo_header n).
Proof.
  intros Hn. cbn [rlp_ok rlp_header demo_header ParentHash UncleHash Coinbase Root TxHash ReceiptHash Bloom Difficulty Number
    GasLimit GasUsed Time Extra MixDigest Nonce].
  assert (forall k x, byte_ok x -> array_ok (Z.of_nat k) (replicate k x)) as H.
  { intros k x Hx. split; [by apply Forall_replicate|by rewrite length_replicate]. }
  split_and!; try (apply (H 32%nat) || apply (H 20%nat) || apply (H 256%nat) || apply (H 8%nat)); try lia;
    try (unfold byte_ok; lia); constructor.
Qed.

Lemma demo_asks past : asks demo_view (demo_query past) demo_blocks.
Proof.
  split; [cbv [rlp_ok rlp_headersquery demo_query hqFrom hqCount hqSkip hqNonce]; by destruct past|by destruct past..| | |].
  - intros j b Hj. do 3 (destruct j as [|j]; [cbn in Hj; simplify_eq; reflexivity|]). by destruct j.
  - by destruct past.
  - apply Forall_fmap. do 3 (apply Forall_cons_2; [by apply demo_header_ok|]). apply Forall_nil_2.
Qed.

Lemma demo_first_ok past :
  exchange demo_digest demo_view demo_host demo_route newObjCacheManager 5 (QHeaders (demo_query past)) 0 =
    Some ((demo_first past).1, (demo_first past).2).
Proof. destruct past; vm_compute; reflexivity. Qed.

Lemma demo_length past :
  length (rlp_bytes (VList (ptr_value <$> batch (demo_query past) demo_blocks))) = if past then 1498%nat else 1497%nat.
Proof. destruct past; vm_compute; reflexivity. Qed.

Lemma demo_serves past :
  serves demo_digest demo_host demo_route demo_view (demo_query past) [] newObjCacheManager
    (demo_first past).2 5 (demo_first past).1 (fun _ => ((demo_first past).2, 6)) [1%nat]
    (rlp_bytes (VList (ptr_value <$> batch (demo_query past) demo_blocks))).
Proof.
  pose proof (demo_length past) as Hl. split; [by split|constructor|reflexivity|apply lookup_empty|apply demo_first_ok| | |].
  - intros i _. cbn [fst]. apply later_refl.
  - rewrite Hl. by destruct past.
  - rewrite Hl. by destruct past.
Qed.

Lemma headers_end_to_end_witness :
  getHeaders (fetched demo_digest demo_host demo_route demo_view (demo_query false) newObjCacheManager 5
    (fun _ => ((demo_first false).2, 6)) [1%nat]) = Some (Ok (demo_header <$> [2; 4; 6])).
Proof.
  pose proof (demo_serves false) as Hs. rewrite (batch_full _ _ _ (demo_asks false) eq_refl) in Hs.
  exact (headers_end_to_end demo_digest demo_host demo_route demo_view (demo_query false) demo_blocks []
    newObjCacheManager (demo_first false).2 5 (demo_first false).1 _ _ (demo_asks false) eq_refl Hs).
Defined.

Lemma headers_past_end_witness :
  exists e, getHeaders (fetched demo_digest demo_host demo_route demo_view (demo_query true) newObjCacheManager 5
    (fun _ => ((demo_first true).2, 6)) [1%nat]) = Some (Err (inr e)).
Proof.
  apply (headers_past_end demo_digest demo_host demo_route demo_view (demo_query true) demo_blocks []
    newObjCacheManager (demo_first true).2 5 (demo_first true).1); [apply demo_asks|done|done|apply (demo_serves true)].
Defined.
