(* ===== verification/EthTxFetch.v ===== *)
(** * Fetching announced transactions ([src/ndn/eth/txfetcher.go])

    A transaction that was announced by its hash is fetched by a work: a
    sequence of jobs on the worker pool, from the announcing peers one after
    the other, until it arrives or is given up.  Works are shared by pointer
    between the list of works, the jobs and the callbacks.  The outcome of a
    job, the clock and the iteration order of a map are arguments; [None] is a
    panic. *)

From S2P Require Import Prelude Bytes Rlp RlpStream RlpTypes KadId Names Cacher Fetching KadRpc.
From S2P Require Import EthTypes EthPush EthPeer EthHandler EthWire EthData.
Local Open Scope Z_scope.

Definition TxFetchingLifeTime : Z := 10 * 10 ^ 9.

(** The error of a refused request, see [EthData.reply_of]. *)
Definition ErrNack : ferror := FErrOther 1.

#[export] Instance ferror_eq_dec : EqDecision ferror.
Proof. solve_decision. Defined.

Inductive txerr := TxTooLong | TxFetch (e : ferror) | TxDecode (e : rerr) | TxNoPeer.

(** An announcer is queried when its flag is set. *)
Record txFetchingWork := MkTxWork {
  tw_hash : list Z;
  tw_announcers : gmap (list Z) bool;
  tw_tx : option Transaction;
  tw_err : option txerr;
  tw_done : bool;
  tw_created : Z;
}.

Definition newTxFetchingWork (id h : list Z) (now : Z) : txFetchingWork := MkTxWork h {[ id := true ]} None None false now.

Definition tw_setErr (w : txFetchingWork) (e : option txerr) : txFetchingWork :=
  MkTxWork (tw_hash w) (tw_announcers w) (tw_tx w) e (tw_done w) (tw_created w).
Definition tw_setAnnouncers (w : txFetchingWork) (m : gmap (list Z) bool) : txFetchingWork :=
  MkTxWork (tw_hash w) m (tw_tx w) (tw_err w) (tw_done w) (tw_created w).

Definition tx_addAnnouncer (w : txFetchingWork) (id : list Z) : txFetchingWork :=
  match tw_announcers w !! id with
  | None => tw_setAnnouncers w (<[id := false]> (tw_announcers w))
  | Some _ => w
  end.
Definition tx_dropAnnouncer (w : txFetchingWork) (id : list Z) : txFetchingWork :=
  tw_setAnnouncers w (delete id (tw_announcers w)).
Definition tx_setDone (w : txFetchingWork) : txFetchingWork :=
  MkTxWork (tw_hash w) (tw_announcers w) (tw_tx w) (tw_err w) true (tw_created w).

Section txfetcher.
  Context {L : NdnLib}.

(** [nextPrefix]: the first announcer in the order of the map that was not
    queried; its identity is read as a name. *)
Definition tx_nextPrefix (w : txFetchingWork) (order : list (list Z)) : list NameComponent * txFetchingWork :=
  match filter (fun id => tw_announcers w !! id = Some false) order with
  | id :: _ => (ParseName id, tw_setAnnouncers w (<[id := true]> (tw_announcers w)))
  | [] => ([], w)
  end.

(** The callback of [createHandler] for a job with this route and outcome:
    the work is done, or there is a new job.  When the object does not decode,
    the error of the job is nil and its text is taken. *)
Definition tx_handler (now : Z) (w : txFetchingWork) (route : PeerRouteInfo) (outcome : res ferror (list Z)) (order : list (list Z))
  : option (txFetchingWork * option PeerRouteInfo) :=
  if tw_done w then Some (w, None)
  else if tw_created w + TxFetchingLifeTime <? now then Some (tw_setErr w (Some TxTooLong), None)
  else
    match outcome with
    | Ok obj =>
      match rlp_decode obj with
      | Ok tx => Some (MkTxWork (tw_hash w) (tw_announcers w) (Some tx) None (tw_done w) (tw_created w), None)
      | Err _ => None
      end
    | Err e =>
      if bool_decide (e = ErrNoObject) || bool_decide (e = ErrNack) then Some (tw_setErr w (Some (TxFetch e)), None)
      else
        let '(peername', w) := if usehint route then (peername route, w) else tx_nextPrefix w order in
        match peername', usehint route with
        | [], false => Some (tw_setErr w (Some TxNoPeer), None)
        | _, _ => Some (w, Some (MkRoute peername' false (appname route)))
        end
    end.

(** ** The fetcher *)

Record txFetcher := MkTxFetcher {
  tf_works : gmap nat txFetchingWork;
  tf_next : nat;
  tf_fetching : gmap (list Z) nat;
  tf_jobs : list (nat * PeerRouteInfo);       (* jobs on the pool *)
  tf_fetched : list (list Z * Transaction);   (* fetched and not inserted *)
  tf_sending : list nat;                      (* workers that send on [fetchedSig] *)
  tf_sig : bool;                              (* [fetchedSig] holds its one token *)
  tf_top : bool;                              (* [insertloop] is before its test *)
  tf_pool : list Transaction;                 (* handed to the transaction pool *)
}.

Definition newtxFetcher : txFetcher := MkTxFetcher ∅ 0 ∅ [] [] [] false true [].

Definition tf_setWork (f : txFetcher) (a : nat) (w : txFetchingWork) : txFetcher :=
  MkTxFetcher (<[a := w]> (tf_works f)) (tf_next f) (tf_fetching f) (tf_jobs f) (tf_fetched f) (tf_sending f) (tf_sig f)
    (tf_top f) (tf_pool f).
Definition tf_setJobs (f : txFetcher) (l : list (nat * PeerRouteInfo)) : txFetcher :=
  MkTxFetcher (tf_works f) (tf_next f) (tf_fetching f) l (tf_fetched f) (tf_sending f) (tf_sig f) (tf_top f) (tf_pool f).
Definition tf_removework (f : txFetcher) (h : list Z) : txFetcher :=
  MkTxFetcher (tf_works f) (tf_next f) (delete h (tf_fetching f)) (tf_jobs f) (tf_fetched f) (tf_sending f) (tf_sig f)
    (tf_top f) (tf_pool f).

(** [processAnnouncement] of hash [h] by peer [id] with the name [prefix]. *)
Definition tx_processAnnouncement (f : txFetcher) (now : Z) (id : list Z) (prefix app : list NameComponent) (h : list Z) (hastx : bool)
  : option txFetcher :=
  match tf_fetching f !! h with
  | Some a => w ← tf_works f !! a; Some (tf_setWork f a (tx_addAnnouncer w id))
  | None =>
    if bool_decide (h ∈ (tf_fetched f).*1) || hastx then Some f
    else
      let a := tf_next f in
      Some (MkTxFetcher (<[a := newTxFetchingWork id h now]> (tf_works f)) (S a) (<[h := a]> (tf_fetching f))
        (tf_jobs f ++ [(a, MkRoute prefix true app)]) (tf_fetched f) (tf_sending f) (tf_sig f) (tf_top f) (tf_pool f))
  end.

(** [onWorkDone] up to the sending of the signal; the work is removed when
    the function returns. *)
Definition tx_onWorkDone (f : txFetcher) (a : nat) (w : txFetchingWork) : txFetcher :=
  let f := tf_setWork f a w in
  match tw_err w, tw_tx w with
  | None, Some tx =>
    let fetched := if bool_decide (tw_hash w ∈ (tf_fetched f).*1) then tf_fetched f else tf_fetched f ++ [(tw_hash w, tx)] in
    MkTxFetcher (tf_works f) (tf_next f) (tf_fetching f) (tf_jobs f) fetched (tf_sending f ++ [a]) (tf_sig f) (tf_top f) (tf_pool f)
  | _, _ => tf_removework f (tw_hash w)
  end.

(** The end of job [k]. *)
Definition tx_jobDone (f : txFetcher) (k : nat) (now : Z) (outcome : res ferror (list Z)) (order : list (list Z)) : option txFetcher :=
  '(a, route) ← tf_jobs f !! k;
  w ← tf_works f !! a;
  let f := tf_setJobs f (delete k (tf_jobs f)) in
  '(w, next) ← tx_handler now w route outcome order;
  match next with
  | None => Some (tx_onWorkDone f a w)
  | Some route => Some (tf_setJobs (tf_setWork f a w) (tf_jobs f ++ [(a, route)]))
  end.

(** A worker sends on [fetchedSig]; [None] while the channel is full. *)
Definition tx_signal (f : txFetcher) (k : nat) : option txFetcher :=
  a ← tf_sending f !! k;
  w ← tf_works f !! a;
  if tf_sig f then None
  else Some (tf_removework (MkTxFetcher (tf_works f) (tf_next f) (tf_fetching f) (tf_jobs f) (tf_fetched f)
    (delete k (tf_sending f)) true (tf_top f) (tf_pool f)) (tw_hash w)).

(** [insertloop]: at its test, which inserts what was fetched, and at its
    receive. *)
Definition insertloop (f : txFetcher) : option txFetcher :=
  if tf_top f then
    Some (MkTxFetcher (tf_works f) (tf_next f) (tf_fetching f) (tf_jobs f) [] (tf_sending f) (tf_sig f) false
      (tf_pool f ++ (tf_fetched f).*2))
  else if tf_sig f then
    Some (MkTxFetcher (tf_works f) (tf_next f) (tf_fetching f) (tf_jobs f) (tf_fetched f) (tf_sending f) false true (tf_pool f))
  else None.

(** [update]: the transaction [h] arrived otherwise. *)
Definition tx_update (f : txFetcher) (h : list Z) : txFetcher :=
  match tf_fetching f !! h with
  | Some a => match tf_works f !! a with Some w => tf_setWork f a (tx_setDone w) | None => f end
  | None => f
  end.

(** [removepeer]: in all works of the list. *)
Definition tx_removepeer (f : txFetcher) (id : list Z) : txFetcher :=
  MkTxFetcher (map_imap (fun a w => Some (if bool_decide (tf_fetching f !! tw_hash w = Some a) then tx_dropAnnouncer w id else w))
    (tf_works f)) (tf_next f) (tf_fetching f) (tf_jobs f) (tf_fetched f) (tf_sending f) (tf_sig f) (tf_top f) (tf_pool f).

(** ** Invariant *)

(** The steps of workers and of [insertloop]. *)
Inductive tx_inner (f : txFetcher) : txFetcher -> Prop :=
| ti_job k now outcome order f' : tx_jobDone f k now outcome order = Some f' -> tx_inner f f'
| ti_signal k f' : tx_signal f k = Some f' -> tx_inner f f'
| ti_insert f' : insertloop f = Some f' -> tx_inner f f'.

Inductive tx_step (f : txFetcher) : txFetcher -> Prop :=
| ts_inner f' : tx_inner f f' -> tx_step f f'
| ts_announce now id prefix app h hastx f' : tx_processAnnouncement f now id prefix app h hastx = Some f' -> tx_step f f'
| ts_update h : tx_step f (tx_update f h)
| ts_removepeer id : tx_step f (tx_removepeer f id).

(** The works that a worker is busy with. *)
Definition busy (f : txFetcher) : list nat := (tf_jobs f).*1 ++ tf_sending f.

(** Every work in the list is in the hands of exactly one worker, and a
    fetched transaction is announced to [insertloop]. *)
Record tx_inv (f : txFetcher) : Prop := MkTxInv {
  tv_live : forall h a, tf_fetching f !! h = Some a -> exists w, tf_works f !! a = Some w /\ tw_hash w = h /\ a ∈ busy f;
  tv_busy : forall a, a ∈ busy f -> exists w, tf_works f !! a = Some w /\ tf_fetching f !! tw_hash w = Some a;
  tv_nodup : NoDup (busy f);
  tv_next : forall a w, tf_works f !! a = Some w -> (a < tf_next f)%nat;
  tv_wake : tf_fetched f <> [] -> tf_sig f = true \/ tf_sending f <> [] \/ tf_top f = true;
}.

Lemma tx_handler_hash now w route o order w' r : tx_handler now w route o order = Some (w', r) -> tw_hash w' = tw_hash w.
Proof.
  unfold tx_handler, tx_nextPrefix. intros H. repeat case_match; simplify_eq/=; done.
Qed.

(** Replacing a work by one with the same hash. *)
Lemma tx_setWork_inv f a w w' :
  tx_inv f -> tf_works f !! a = Some w -> tw_hash w' = tw_hash w -> tx_inv (tf_setWork f a w').
Proof.
  intros [H1 H2 H3 H4 H5] Ha Hh. split; cbn; try done.
  - intros h b Hb. destruct (H1 h b Hb) as (v & Hv & Hvh & Hin). destruct (decide (b = a)) as [->|Hne].
    + exists w'. rewrite lookup_insert_eq. split; [done|]. split; [congruence|done].
    + exists v. by rewrite lookup_insert_ne.
  - intros b Hb. destruct (H2 b Hb) as (v & Hv & Hf). destruct (decide (b = a)) as [->|Hne].
    + exists w'. rewrite lookup_insert_eq. split; [done|]. rewrite Hh. congruence.
    + exists v. by rewrite lookup_insert_ne.
  - intros b v. destruct (decide (b = a)) as [->|Hne]; [intros _; by eapply H4|]. rewrite lookup_insert_ne by done. apply H4.
Qed.

(** The worker of work [a] is done with it. *)
Lemma tx_remove_inv f a w jobs sending fetched sig top pool :
  tx_inv f -> tf_works f !! a = Some w -> busy f ≡ₚ a :: jobs.*1 ++ sending ->
  (fetched <> [] -> sig = true \/ sending <> [] \/ top = true) ->
  tx_inv (MkTxFetcher (tf_works f) (tf_next f) (delete (tw_hash w) (tf_fetching f)) jobs fetched sending sig top pool).
Proof.
  intros [H1 H2 H3 H4 H5] Ha Hp Hw.
  assert (a ∉ jobs.*1 ++ sending) as Hna by (rewrite Hp in H3; by apply NoDup_cons in H3 as [? _]).
  destruct (H2 a) as (w' & Ha' & Hf); [rewrite Hp; by left|]. simplify_eq. split; cbn; try done.
  - intros h b Hb. apply lookup_delete_Some in Hb as [Hne Hb]. destruct (H1 h b Hb) as (v & Hv & Hvh & Hin).
    exists v. split; [done|]. split; [done|]. rewrite Hp in Hin. apply elem_of_cons in Hin as [->|Hin]; [|done].
    exfalso. apply Hne. congruence.
  - intros b Hb. destruct (H2 b) as (v & Hv & Hf'); [rewrite Hp; by right|]. exists v. split; [done|].
    rewrite lookup_delete_ne; [done|]. intros E. apply Hna. rewrite E in Hf. congruence.
  - rewrite Hp in H3. by apply NoDup_cons in H3 as [_ ?].
Qed.

(** The worker of work [a] passes it on. *)
Lemma tx_pass_inv f jobs sending fetched sig top pool :
  tx_inv f -> busy f ≡ₚ jobs.*1 ++ sending -> (fetched <> [] -> sig = true \/ sending <> [] \/ top = true) ->
  tx_inv (MkTxFetcher (tf_works f) (tf_next f) (tf_fetching f) jobs fetched sending sig top pool).
Proof.
  intros [H1 H2 H3 H4 H5] Hp Hw. split; cbn; try done.
  - intros h a Ha. destruct (H1 h a Ha) as (w & ? & ? & Hin). exists w. split; [done|]. split; [done|]. unfold busy. cbn. by rewrite <- Hp.
  - intros a Ha. apply H2. by rewrite Hp.
  - unfold busy. cbn. by rewrite <- Hp.
Qed.

Lemma tx_jobDone_inv f k now o order f' : tx_inv f -> tx_jobDone f k now o order = Some f' -> tx_inv f'.
Proof.
  intros Hi. unfold tx_jobDone. destruct (tf_jobs f !! k) as [[a route]|] eqn:Ek; [|done]. cbn.
  destruct (tf_works f !! a) as [w|] eqn:Ea; [|done]. cbn.
  destruct (tx_handler now w route o order) as [[w' next]|] eqn:Eh; [|done]. cbn. pose proof (tx_handler_hash _ _ _ _ _ _ _ Eh) as Hh.
  pose proof (delete_Permutation _ _ _ Ek) as Hp. assert (busy f ≡ₚ a :: (delete k (tf_jobs f)).*1 ++ tf_sending f) as Hb.
  { unfold busy. rewrite Hp at 1. done. }
  pose proof (tx_setWork_inv f a w w' Hi Ea Hh) as Hi'. destruct next as [r|]; intros [= <-].
  - apply (tx_pass_inv (tf_setWork f a w')); [done| |apply (tv_wake _ Hi)].
    change (busy (tf_setWork f a w')) with (busy f). rewrite Hb, fmap_app. cbn. rewrite <- app_assoc. cbn. apply Permutation_middle.
  - unfold tx_onWorkDone. cbn. destruct (tw_err w'), (tw_tx w') as [tx|].
    3: { apply (tx_pass_inv (tf_setWork f a w')); [done| |intros _; right; left; by destruct (tf_sending f)].
      change (busy (tf_setWork f a w')) with (busy f). rewrite Hb, app_assoc. apply Permutation_cons_append. }
    all: apply (tx_remove_inv (tf_setWork f a w') a w'); try done; [by cbn; rewrite lookup_insert_eq|apply (tv_wake _ Hi)].
Qed.

Lemma tx_signal_inv f k f' : tx_inv f -> tx_signal f k = Some f' -> tx_inv f'.
Proof.
  intros Hi. unfold tx_signal. destruct (tf_sending f !! k) as [a|] eqn:Ek; [|done]. cbn.
  destruct (tf_works f !! a) as [w|] eqn:Ea; [|done]. cbn. destruct (tf_sig f); [done|]. intros [= <-].
  apply (tx_remove_inv f a w); [done|done| |by left]. unfold busy.
  pose proof (delete_Permutation _ _ _ Ek) as Hp. rewrite Hp at 1. symmetry. apply Permutation_middle.
Qed.

Lemma insertloop_inv f f' : tx_inv f -> insertloop f = Some f' -> tx_inv f'.
Proof.
  intros Hi. unfold insertloop. destruct (tf_top f) eqn:Et; [|destruct (tf_sig f); [|done]]; intros [= <-];
    apply tx_pass_inv; try done. intros _. by right; right.
Qed.

Lemma tx_announce_inv f now id prefix app h hastx f' :
  tx_inv f -> tx_processAnnouncement f now id prefix app h hastx = Some f' -> tx_inv f'.
Proof.
  intros Hi. unfold tx_processAnnouncement. destruct (tf_fetching f !! h) as [a|] eqn:Eh.
  - destruct (tf_works f !! a) as [w|] eqn:Ea; [|done]. cbn. intros [= <-]. apply (tx_setWork_inv f a w); [done|done|].
    unfold tx_addAnnouncer. by case_match.
  - case_match; intros [= <-]; [done|]. destruct Hi as [H1 H2 H3 H4 H5].
    assert (tf_works f !! tf_next f = None) as Hn by (destruct (tf_works f !! tf_next f) eqn:E; [apply H4 in E; lia|done]).
    assert (forall r, (tf_jobs f ++ [(tf_next f, r)]).*1 ++ tf_sending f ≡ₚ tf_next f :: busy f) as Hb.
    { intros r. unfold busy. rewrite fmap_app. cbn. rewrite <- app_assoc. cbn. symmetry. apply Permutation_middle. }
    split; unfold busy in *; cbn; try done.
    + intros h' b. destruct (decide (h' = h)) as [->|Hne].
      * rewrite lookup_insert_eq. intros [= <-]. eexists. rewrite lookup_insert_eq. split; [done|]. split; [done|]. rewrite Hb. by left.
      * rewrite lookup_insert_ne by done. intros Hb'. destruct (H1 h' b Hb') as (w & Hw & ? & Hin). exists w.
        rewrite lookup_insert_ne by congruence. split; [done|]. split; [done|]. rewrite Hb. by right.
    + intros b. rewrite Hb. intros [->|Hin]%elem_of_cons.
      * eexists. rewrite lookup_insert_eq. split; [done|]. cbn. by rewrite lookup_insert_eq.
      * destruct (H2 b Hin) as (w & Hw & Hf). exists w. rewrite lookup_insert_ne by congruence. split; [done|].
        rewrite lookup_insert_ne; [done|]. congruence.
    + rewrite Hb. apply NoDup_cons. split; [|done]. intros Hin. destruct (H2 _ Hin) as (w & ? & _). congruence.
    + intros b w. destruct (decide (b = tf_next f)) as [->|Hne]; [lia|]. rewrite lookup_insert_ne by done. intros Hw%H4. lia.
Qed.

Lemma tx_step_inv f f' : tx_inv f -> tx_step f f' -> tx_inv f'.
Proof.
  intros Hi [f1 [k now o order f2 H|k f2 H|f2 H]|now id prefix app h hastx f1 H|h|id].
  - by eapply tx_jobDone_inv.
  - by eapply tx_signal_inv.
  - by eapply insertloop_inv.
  - by eapply tx_announce_inv.
  - unfold tx_update. destruct (tf_fetching f !! h) as [a|]; [|done]. destruct (tf_works f !! a) as [w|] eqn:Ea; [|done].
    by apply (tx_setWork_inv f a w).
  - destruct Hi as [H1 H2 H3 H4 H5].
    set (g := fun a w => Some (if bool_decide (tf_fetching f !! tw_hash w = Some a) then tx_dropAnnouncer w id else w)).
    assert (forall a w, tf_works f !! a = Some w -> exists w', map_imap g (tf_works f) !! a = Some w' /\ tw_hash w' = tw_hash w) as Hg.
    { intros a w Ha. rewrite map_lookup_imap, Ha. cbn. eexists. split; [done|]. by case_bool_decide. }
    split; cbn; try done.
    + intros h a Ha. destruct (H1 h a Ha) as (w & Hw & Hwh & Hin). destruct (Hg a w Hw) as (w' & Hw' & E). exists w'.
      split; [done|]. split; [congruence|done].
    + intros a Ha. destruct (H2 a Ha) as (w & Hw & Hf). destruct (Hg a w Hw) as (w' & Hw' & E). exists w'. split; [done|]. by rewrite E.
    + intros a w. rewrite map_lookup_imap. destruct (tf_works f !! a) eqn:Ea; [|done]. intros _. by eapply H4.
Qed.

Definition tx_reachable (f : txFetcher) : Prop := rtc tx_step newtxFetcher f.

Lemma tx_reachable_inv f : tx_reachable f -> tx_inv f.
Proof.
  intros H. unfold tx_reachable in H. assert (tx_inv newtxFetcher) as Hi.
  { split; cbn; try done; [intros a Ha; by apply not_elem_of_nil in Ha|constructor]. }
  revert Hi. induction H as [|f f1 f2 Hs _ IH]; [done|]. intros Hi. apply IH. by eapply tx_step_inv.
Qed.

(** ** Progress *)

(** The announcers that can still be asked. *)
Definition unasked (w : txFetchingWork) : nat := size (filter (fun kv => kv.2 = false) (tw_announcers w)).

Definition job_weight (works : gmap nat txFetchingWork) (j : nat * PeerRouteInfo) : nat :=
  match works !! j.1 with
  | Some w => 4 * (1 + (if usehint j.2 then 1 else 0) + unasked w)
  | None => 0
  end.

(** The jobs, signals and rounds of [insertloop] that are still to come. *)
Definition tx_weight (f : txFetcher) : nat :=
  sum_list_with (job_weight (tf_works f)) (tf_jobs f) + 3 * length (tf_sending f) + (if tf_sig f then 2 else 0) + (if tf_top f then 1 else 0).

Lemma nextPrefix_unasked w order p w' : tx_nextPrefix w order = (p, w') -> p <> [] -> (unasked w' < unasked w)%nat.
Proof.
  unfold tx_nextPrefix. destruct (filter _ order) as [|id l] eqn:El; intros [= <- <-] Hp; [done|].
  assert (id ∈ filter (fun id => tw_announcers w !! id = Some false) order) as Hin by (rewrite El; by left).
  apply list_elem_of_filter in Hin as [Hf _]. unfold unasked. cbn.
  rewrite map_filter_insert_False by done. rewrite map_filter_delete.
  rewrite map_size_delete_Some; [|by eexists; apply map_lookup_filter_Some]. 
  assert (filter (fun kv : list Z * bool => kv.2 = false) (tw_announcers w) <> ∅) as Hne.
  { intros E. assert (filter (fun kv : list Z * bool => kv.2 = false) (tw_announcers w) !! id = Some false) as E'.
    { by apply map_lookup_filter_Some. } by rewrite E, lookup_empty in E'. }
  apply map_size_non_empty_iff in Hne. lia.
Qed.

Lemma tx_handler_weight now w route o order w' r' :
  tx_handler now w route o order = Some (w', Some r') ->
  ((if usehint r' then 1 else 0) + unasked w' < (if usehint route then 1 else 0) + unasked w)%nat.
Proof.
  unfold tx_handler. intros H. destruct (tw_done w); [done|]. case_match; [done|]. destruct o as [obj|e]; [by case_match|].
  case_match; [done|]. destruct (usehint route) eqn:Eu.
  - destruct (peername route); simplify_eq/=; lia.
  - destruct (tx_nextPrefix w order) as [p w1] eqn:Ep. destruct p as [|c p]; [done|]. simplify_eq/=.
    by pose proof (nextPrefix_unasked _ _ _ _ Ep ltac:(done)).
Qed.

Lemma job_weight_other works a w (l : list (nat * PeerRouteInfo)) :
  a ∉ l.*1 -> sum_list_with (job_weight (<[a := w]> works)) l = sum_list_with (job_weight works) l.
Proof.
  induction l as [|[b r] l IH]; cbn; [done|]. intros [Hne Hl]%not_elem_of_cons. rewrite IH by done.
  unfold job_weight. cbn. by rewrite lookup_insert_ne.
Qed.

Lemma tx_jobDone_weight f k now o order f' :
  tx_inv f -> tx_jobDone f k now o order = Some f' -> (tx_weight f' < tx_weight f)%nat.
Proof.
  intros Hi. unfold tx_jobDone. destruct (tf_jobs f !! k) as [[a route]|] eqn:Ek; [|done]. cbn.
  destruct (tf_works f !! a) as [w|] eqn:Ea; [|done]. cbn.
  destruct (tx_handler now w route o order) as [[w' next]|] eqn:Eh; [|done]. cbn.
  pose proof (delete_Permutation _ _ _ Ek) as Hp. pose proof (tv_nodup _ Hi) as Hn. unfold busy in Hn. rewrite Hp in Hn. cbn in Hn.
  apply NoDup_cons in Hn as [Hna _]. assert (a ∉ (delete k (tf_jobs f)).*1) as Hna' by (intros ?; apply Hna, elem_of_app; by left).
  assert (tx_weight f = 4 * (1 + (if usehint route then 1 else 0) + unasked w) + (sum_list_with (job_weight (tf_works f)) (delete k (tf_jobs f))
    + 3 * length (tf_sending f) + (if tf_sig f then 2 else 0) + (if tf_top f then 1 else 0)))%nat as ->.
  { unfold tx_weight. rewrite (sum_list_with_perm _ _ _ Hp). cbn. unfold job_weight at 1. cbn. rewrite Ea. lia. }
  destruct next as [r|]; intros [= <-].
  - pose proof (tx_handler_weight _ _ _ _ _ _ _ Eh). unfold tx_weight. cbn. rewrite sum_list_with_app, job_weight_other by done.
    cbn. unfold job_weight at 2. cbn. rewrite lookup_insert_eq. lia.
  - unfold tx_onWorkDone. destruct (tw_err w'), (tw_tx w'); unfold tx_weight; cbn; rewrite job_weight_other by done; rewrite ?length_app; cbn; lia.
Qed.

Lemma tx_inner_weight f f' : tx_inv f -> tx_inner f f' -> (tx_weight f' < tx_weight f)%nat.
Proof.
  intros Hi [k now o order f1 H|k f1 H|f1 H].
  - by eapply tx_jobDone_weight.
  - unfold tx_signal in H. destruct (tf_sending f !! k) as [a|] eqn:Ek; [|done]. cbn in H.
    destruct (tf_works f !! a) as [w|]; [|done]. cbn in H. destruct (tf_sig f) eqn:Es; [done|]. simplify_eq. unfold tx_weight. cbn.
    rewrite Es, length_delete by (by eexists). apply lookup_lt_Some in Ek. lia.
  - unfold insertloop in H. destruct (tf_top f) eqn:Et; [|destruct (tf_sig f) eqn:Es; [|done]]; simplify_eq; unfold tx_weight; cbn;
      rewrite ?Et, ?Es; lia.
Qed.

Lemma tx_inner_inv f f' : tx_inv f -> tx_inner f f' -> tx_inv f'.
Proof. intros Hi H. by eapply tx_step_inv; [|constructor]. Qed.

(** A fetcher where nothing moves has neither works nor fetched transactions. *)
Lemma tx_quiescent f : tx_inv f -> (forall f', ~ tx_inner f f') -> tf_fetching f = ∅ /\ tf_fetched f = [] /\ tf_jobs f = [].
Proof.
  intros Hi Hq.
  assert (tf_top f = false) as Ht.
  { destruct (tf_top f) eqn:E; [|done]. exfalso. eapply Hq, ti_insert. unfold insertloop. by rewrite E. }
  assert (tf_sig f = false) as Hs.
  { destruct (tf_sig f) eqn:E; [|done]. exfalso. eapply Hq, ti_insert. unfold insertloop. by rewrite Ht, E. }
  assert (tf_sending f = []) as Hd.
  { destruct (tf_sending f) as [|a l] eqn:E; [done|]. exfalso. destruct (tv_busy _ Hi a) as (w & Hw & _).
    { unfold busy. rewrite E. apply elem_of_app. right. by left. }
    eapply Hq, (ti_signal f 0). unfold tx_signal. rewrite E. cbn. rewrite Hw. cbn. by rewrite Hs. }
  assert (tf_jobs f = []) as Hj.
  { destruct (tf_jobs f) as [|[a r] l] eqn:E; [done|]. exfalso. destruct (tv_busy _ Hi a) as (w & Hw & _).
    { unfold busy. rewrite E. apply elem_of_app. left. by left. }
    destruct (tx_handler 0 w r (Err ErrNoObject) []) as [[w' next]|] eqn:Eh.
    2: { unfold tx_handler in Eh. repeat case_match; done. }
    destruct next as [r'|]; eapply Hq, (ti_job f 0 0 (Err ErrNoObject) []); unfold tx_jobDone; rewrite E; cbn; rewrite Hw; cbn; by rewrite Eh. }
  assert (busy f = []) as Hb by (unfold busy; by rewrite Hd, Hj). split; [|split; [|done]].
  - apply map_eq. intros h. rewrite lookup_empty. destruct (tf_fetching f !! h) as [a|] eqn:E; [|done]. exfalso.
    destruct (tv_live _ Hi h a E) as (w & _ & _ & Hin). rewrite Hb in Hin. by apply not_elem_of_nil in Hin.
  - destruct (tf_fetched f) eqn:E; [done|]. exfalso. destruct (tv_wake _ Hi) as [?|[?|?]]; congruence.
Qed.

(** What was fetched is kept until the pool has it. *)
Lemma tx_inner_kept f f' tx :
  tx_inner f f' -> tx ∈ (tf_fetched f).*2 \/ tx ∈ tf_pool f -> tx ∈ (tf_fetched f').*2 \/ tx ∈ tf_pool f'.
Proof.
  intros [k now o order f1 H|k f1 H|f1 H] Hin.
  - unfold tx_jobDone in H. destruct (tf_jobs f !! k) as [[a route]|]; [|done]. cbn in H. destruct (tf_works f !! a) as [w|]; [|done]. cbn in H.
    destruct (tx_handler now w route o order) as [[w' [r|]]|]; simplify_eq/=; [done|]. unfold tx_onWorkDone.
    destruct (tw_err w'), (tw_tx w'); cbn; try done. case_bool_decide; [done|]. rewrite fmap_app, elem_of_app. tauto.
  - unfold tx_signal in H. destruct (tf_sending f !! k); [|done]. cbn in H. destruct (tf_works f !! n); [|done]. cbn in H.
    by destruct (tf_sig f); simplify_eq/=.
  - unfold insertloop in H. destruct (tf_top f); [|destruct (tf_sig f)]; simplify_eq/=; [|done]. rewrite elem_of_app. tauto.
Qed.


(** An object that is not a transaction makes the node crash: the error of the
    job, which is nil, is printed. *)
Lemma tx_garbage_panics f k a route w now obj order :
  tf_jobs f !! k = Some (a, route) -> tf_works f !! a = Some w -> tw_done w = false -> now <= tw_created w + TxFetchingLifeTime ->
  (forall tx : Transaction, rlp_decode obj <> Ok tx) -> tx_jobDone f k now (Ok obj) order = None.
Proof.
  intros Hk Hw Hd Ht Ho. unfold tx_jobDone. rewrite Hk. cbn. rewrite Hw. cbn. unfold tx_handler. rewrite Hd.
  destruct (Z.ltb_spec (tw_created w + TxFetchingLifeTime) now); [lia|]. destruct (rlp_decode obj) eqn:E; [by destruct (Ho a0)|done].
Qed.

(** After two failures with the announcing peer, the next announcer is asked
    under the name its identity spells, not under its prefix. *)
Lemma tx_retry_name now w route e order id l :
  tw_done w = false -> now <= tw_created w + TxFetchingLifeTime -> e <> ErrNoObject -> e <> ErrNack -> usehint route = false ->
  filter (fun id => tw_announcers w !! id = Some false) order = id :: l -> ParseName id <> [] ->
  tx_handler now w route (Err e) order
  = Some (tw_setAnnouncers w (<[id := true]> (tw_announcers w)), Some (MkRoute (ParseName id) false (appname route))).
Proof.
  intros Hd Ht H1 H2 Hu Hf Hp. unfold tx_handler. rewrite Hd. destruct (Z.ltb_spec (tw_created w + TxFetchingLifeTime) now); [lia|].
  rewrite !bool_decide_eq_false_2 by done. cbn. rewrite Hu. unfold tx_nextPrefix. rewrite Hf. by destruct (ParseName id).
Qed.
End txfetcher.

Definition tx_demo : txFetcher :=
  default newtxFetcher (tx_processAnnouncement newtxFetcher 0 [112] [] [] [1] false).

