(* ===== verification/EthSync.v ===== *)
(** * The common ancestor ([src/ndn/eth/downloader.go])

    The search for the last block in common with the best peer, against the
    batches of headers that [EthData] serves.  The local chain and the answers
    of the network are arguments. *)

From S2P Require Import Prelude Bytes Rlp RlpStream RlpTypes KadId Names Cacher Fetching KadRpc.
From S2P Require Import EthTypes EthPush EthPeer EthHandler EthWire EthData.
Local Open Scope Z_scope.

Definition MAX_HEADERS_COUNT : Z := 15.

(** ** The common ancestor *)

Definition number (h : Header) : Z := u64 (Z.abs (Number h)).

Section ancestor.
  Context {L : NdnLib} {E : Type}.
  Context (has : list Z -> Z -> bool).                            (* [blockchain.HasHeader] *)
  Context (ask : nat -> Z -> Z -> Z -> res E (list Header)).      (* round, from, count, skip *)

(** The scan of a batch from its last header. *)
Fixpoint scan (headers : list Header) : option Header :=
  match headers with
  | [] => None
  | h :: headers =>
    match scan headers with
    | Some c => Some c
    | None => if has (Header_Hash h) (number h) then Some h else None
    end
  end.

(** One round of the loop: an error, the ancestor, or the next interval. *)
Definition find_round (k : nat) (startbnum endbnum : Z) : res E (Z + Z * Z) :=
  let total := u64 (endbnum - startbnum + 1) in
  let '(from, count, skip, lastround) :=
    if total <=? MAX_HEADERS_COUNT then (startbnum, u16 total, 0, true)
    else
      let skip := u16 (total / MAX_HEADERS_COUNT - 1) in
      (u64 (endbnum - u16 (skip + 1) * (MAX_HEADERS_COUNT - 1)), MAX_HEADERS_COUNT, skip, false) in
  match ask k from count skip with
  | Err e => Err e
  | Ok headers =>
    match scan headers with
    | None => if lastround then Ok (inl 0) else Ok (inr (startbnum, u64 (from - 1)))
    | Some c =>
      if lastround then Ok (inl (number c))
      else if number c =? endbnum then Ok (inl (number c))
      else
        let bound := u64 (number c + skip) in
        Ok (inr (number c, if bound <? endbnum then bound else endbnum))
    end
  end.

Fixpoint find_loop (fuel : nat) (k : nat) (startbnum endbnum : Z) : option (res E Z) :=
  match fuel with
  | O => None
  | S fuel =>
    match find_round k startbnum endbnum with
    | Err e => Some (Err e)
    | Ok (inl a) => Some (Ok a)
    | Ok (inr (s, e)) => find_loop fuel (S k) s e
    end
  end.

(** [findAncestor] on a chain of height [localh]. *)
Definition findAncestor (fuel : nat) (localh : Z) : option (res E Z) :=
  if localh =? 0 then Some (Ok 0) else find_loop fuel 0 1 localh.
End ancestor.

(** The answer of a node to a batch request, as [EthData.headers_end_to_end]
    and [EthData.headers_past_end] show it: all headers, or an error. *)
Definition served (v : ChainView) (from count skip : Z) : res () (list Header) :=
  match queryHeaders v (MkHeadersQuery from count skip 0) with
  | Ok hs => match mapM id hs with Some l => Ok l | None => Err () end
  | Err _ => Err ()
  end.

(** ** Batches *)

Definition block_at (v : ChainView) (n : Z) : Header :=
  match GetBlockByNumber v n with Some b => header b | None => MkHeader [] [] [] [] [] [] [] 0 0 0 0 0 [] [] [] end.

(** The headers of a batch. *)
Definition batch_at (v : ChainView) (from skip : Z) (n : nat) : list Header :=
  (fun i => block_at v (from + Z.of_nat i * (skip + 1))) <$> seq 0 n.

Lemma mapM_Some {A B} (f : A -> B) (l : list A) : mapM id ((fun x => Some (f x)) <$> l) = Some (f <$> l).
Proof. induction l as [|x l IH]; [done|]. cbn. cbn in IH. by rewrite IH. Qed.

Section batches.
  Context (v : ChainView) (top : Z).
  Hypothesis (Htop : top < 2 ^ 63) (Hblocks : forall n, 1 <= n <= top -> is_Some (GetBlockByNumber v n)).

Lemma headers_loop_batch q i n :
  1 <= hqFrom q -> 0 <= hqSkip q < 2 ^ 16 - 1 -> (Z.of_nat (i + n) - 1) * (hqSkip q + 1) < 2 ^ 16 ->
  hqFrom q + (Z.of_nat (i + n) - 1) * (hqSkip q + 1) <= top ->
  headers_loop v q i n = (fun j => Some (block_at v (hqFrom q + Z.of_nat j * (hqSkip q + 1)))) <$> seq i n.
Proof.
  intros Hfr Hs. revert i. induction n as [|n IH]; intros i Hsp Hl; [done|].
  cbn [headers_loop seq fmap list_fmap]. rewrite headers_index by (lia || nia). unfold block_at at 1.
  destruct (Hblocks (hqFrom q + Z.of_nat i * (hqSkip q + 1))) as [b ->]; [nia|].
  f_equal. apply IH; by rewrite Nat.add_succ_comm.
Qed.

Lemma served_batch from count skip :
  1 <= from -> 0 < count <= 15 -> 0 <= skip < 2 ^ 16 - 1 -> (count - 1) * (skip + 1) < 2 ^ 16 ->
  from + (count - 1) * (skip + 1) <= top ->
  served v from count skip = Ok (batch_at v from skip (Z.to_nat count)).
Proof.
  intros Hfr Hc Hs Hsp Hl. unfold served, queryHeaders. cbn [hqCount]. rewrite (proj2 (Z.ltb_ge _ _)) by lia.
  rewrite headers_loop_batch by (cbn [hqFrom hqSkip]; (lia || nia)). cbn [hqFrom hqSkip].
  destruct (Z.to_nat count) as [|n] eqn:En; [lia|]. cbn [seq fmap list_fmap].
  rewrite <- fmap_cons with (f := fun j => Some (block_at v (from + Z.of_nat j * (skip + 1)))).
  by rewrite (mapM_Some (fun j => block_at v (from + Z.of_nat j * (skip + 1)))).
Qed.
End batches.

(** ** The search is exact *)

Section exact.
  Context {L : NdnLib} (has : list Z -> Z -> bool) (v : ChainView).
  Context (localh a : Z).

(** The chain of the peer reaches up to the local height, its headers carry
    their numbers, and the blocks in common are those up to [a]. *)
Record forked : Prop := MkForked {
  fk_range : 0 <= a <= localh;
  fk_small : localh < 70230;
  fk_blocks : forall n, 1 <= n <= localh ->
    exists b, GetBlockByNumber v n = Some b /\ Number (header b) = n;
  fk_common : forall n b, 1 <= n <= localh -> GetBlockByNumber v n = Some b ->
    has (Header_Hash (header b)) n = (n <=? a);
}.
Hypothesis (Hf : forked).

Lemma block_at_ok n : 1 <= n <= localh ->
  exists b, GetBlockByNumber v n = Some b /\ header b = block_at v n /\ number (block_at v n) = n /\
    has (Header_Hash (block_at v n)) n = (n <=? a).
Proof.
  intros Hn. destruct (fk_blocks Hf n Hn) as (b & Hb & Hnum). exists b. unfold block_at. rewrite Hb.
  pose proof (fk_small Hf). split_and!; try done.
  - unfold number. rewrite Hnum, Z.abs_eq by lia. apply wrap_id. unfold fits. lia.
  - by apply (fk_common Hf).
Qed.

Lemma fk_present n : 1 <= n <= localh -> is_Some (GetBlockByNumber v n).
Proof. intros Hn. destruct (fk_blocks Hf n Hn) as (b & -> & _). eauto. Qed.

(** The scan finds the last header in common. *)
Lemma scan_batch from skip i n :
  1 <= from -> 0 <= skip -> from + (Z.of_nat (i + n) - 1) * (skip + 1) <= localh ->
  match scan has ((fun j => block_at v (from + Z.of_nat j * (skip + 1))) <$> seq i n) with
  | Some h => exists j, (i <= j < i + n)%nat /\ number h = from + Z.of_nat j * (skip + 1) /\ number h <= a /\
      (forall j', (j < j' < i + n)%nat -> a < from + Z.of_nat j' * (skip + 1))
  | None => forall j, (i <= j < i + n)%nat -> a < from + Z.of_nat j * (skip + 1)
  end.
Proof.
  intros Hfr Hs. revert i. induction n as [|n IH]; intros i Hl; [intros j Hj; lia|].
  cbn [seq fmap list_fmap scan]. specialize (IH (S i) ltac:(by rewrite Nat.add_succ_comm)).
  destruct (scan has _) as [h|].
  - destruct IH as (j & Hj & Hnum & Ha & Hlast). exists j. split; [lia|]. split; [done|]. split; [done|].
    intros j' Hj'. apply Hlast. lia.
  - destruct (block_at_ok (from + Z.of_nat i * (skip + 1))) as (b & _ & _ & Hnum & Hhas); [nia|].
    rewrite Hnum, Hhas. destruct (_ <=? _) eqn:E; bool_go.
    + exists i. split; [lia|]. split; [done|]. split; [lia|]. intros j' Hj'. apply IH. lia.
    + intros j Hj. destruct (decide (j = i)) as [->|]; [done|apply IH; lia].
Qed.

(** The interval of a round contains the ancestor, or the ancestor is the
    genesis block. *)
Definition round_inv (s e : Z) : Prop := 1 <= s <= e /\ e <= localh /\ a <= e /\ (s <= a \/ s = 1 /\ a = 0).

Lemma find_round_ok k s e :
  round_inv s e ->
  match find_round has (fun _ => served v) k s e with
  | Ok (inl x) => x = a
  | Ok (inr (s', e')) => round_inv s' e' /\ e' - s' < e - s
  | Err _ => False
  end.
Proof.
  intros (Hs & He & Hae & Hsa). pose proof (fk_small Hf) as Hsm. unfold find_round, MAX_HEADERS_COUNT.
  rewrite (wrap_id 64 (e - s + 1)) by (unfold fits; lia). destruct (_ <=? 15) eqn:E; bool_go.
  - rewrite (wrap_id 16) by (unfold fits; lia). rewrite (served_batch v localh) by (first [lia | apply fk_present]).
    pose proof (scan_batch s 0 0 (Z.to_nat (e - s + 1)) ltac:(lia) ltac:(lia) ltac:(lia)) as Hsc.
    unfold batch_at. destruct (scan has _) as [h|].
    + destruct Hsc as (j & Hj & Hnum & Ha & Hlast). destruct (decide (number h = a)) as [|Hne]; [done|].
      assert (a = s + Z.of_nat (Z.to_nat (a - s))) by lia.
      specialize (Hlast (Z.to_nat (a - s)) ltac:(lia)). lia.
    + destruct Hsa as [Hsa|[_ Ha0]]; [|done]. specialize (Hsc (Z.to_nat (a - s)) ltac:(lia)). lia.
  - set (step := (e - s + 1) / 15). assert (15 * step <= e - s + 1 < 15 * step + 15) as Hstep.
    { pose proof (Z.div_mod (e - s + 1) 15 ltac:(lia)). pose proof (Z.mod_pos_bound (e - s + 1) 15). unfold step. lia. }
    rewrite (wrap_id 16 (step - 1)) by (unfold fits; lia). replace (step - 1 + 1) with step by lia.
    rewrite (wrap_id 16 step) by (unfold fits; lia). change (15 - 1) with 14.
    rewrite (wrap_id 64 (e - step * 14)) by (unfold fits; lia).
    rewrite (served_batch v localh) by (first [lia | apply fk_present]).
    pose proof (scan_batch (e - step * 14) (step - 1) 0 15 ltac:(lia) ltac:(lia) ltac:(lia)) as Hsc.
    unfold batch_at. change (Z.to_nat 15) with 15%nat. replace (step - 1 + 1) with step in * by lia.
    destruct (scan has _) as [h|].
    + destruct Hsc as (j & Hj & Hnum & Ha & Hlast). destruct (number h =? e) eqn:Ee; bool_go; [lia|].
      rewrite (wrap_id 64) by (unfold fits; nia).
      assert (a < number h + step) as Hup.
      { destruct (decide (j = 14%nat)) as [->|]; [lia|]. specialize (Hlast (S j) ltac:(lia)). lia. }
      unfold round_inv. destruct (_ <? e) eqn:Eb; bool_go; repeat split; lia.
    + rewrite (wrap_id 64) by (unfold fits; lia). specialize (Hsc 0%nat ltac:(lia)). unfold round_inv. repeat split; lia.
Qed.

(** A request to the peer may fail. *)
Section requests.
  Context (ask : nat -> Z -> Z -> Z -> res () (list Header)).
  Hypothesis (Hask : forall k from count skip, ask k from count skip = Err () \/ ask k from count skip = served v from count skip).

Lemma find_round_ask k s e : find_round has ask k s e = Err () \/ find_round has ask k s e = find_round has (fun _ => served v) k s e.
Proof.
  unfold find_round. destruct (if _ <=? _ then _ else _) as [[[from count] skip] lastround].
  destruct (Hask k from count skip) as [-> | ->]; [by left|by right].
Qed.

Lemma find_loop_ok fuel k s e :
  round_inv s e -> (Z.to_nat (e - s) < fuel)%nat ->
  find_loop has ask fuel k s e = Some (Ok a) \/
  find_loop has ask fuel k s e = Some (Err ()) /\ exists k s e, round_inv s e /\ find_round has ask k s e = Err ().
Proof.
  revert k s e. induction fuel as [|fuel IH]; intros k s e Hi Hfu; [lia|]. cbn [find_loop].
  destruct (find_round_ask k s e) as [E|E]; rewrite E; [right; eauto 6|].
  clear E. pose proof (find_round_ok k s e Hi) as Hr. destruct (find_round _ _ k s e) as [[x|[s' e']]|]; [left; by rewrite Hr| |done].
  destruct Hr as [Hi' Hd]. apply IH; [done|]. destruct Hi, Hi'. lia.
Qed.

Lemma findAncestor_ok fuel :
  (Z.to_nat localh <= fuel)%nat ->
  findAncestor has ask fuel localh = Some (Ok a) \/
  findAncestor has ask fuel localh = Some (Err ()) /\ exists k s e, round_inv s e /\ find_round has ask k s e = Err ().
Proof.
  intros Hfu. destruct (fk_range Hf) as [Ha Hal]. unfold findAncestor. destruct (localh =? 0) eqn:E; bool_go; [left; do 2 f_equal; lia|].
  apply find_loop_ok; [unfold round_inv; lia|lia].
Qed.
End requests.

(** Against a peer whose chain is at least as long as the local one and
    shares its first [a] blocks, the search returns [a]; it ends after fewer
    rounds than the chain has blocks, which must be less than 70230, where the
    16 bit positions of a batch overflow. *)
Theorem findAncestor_exact fuel :
  (Z.to_nat localh <= fuel)%nat -> findAncestor has (fun _ => served v) fuel localh = Some (Ok a).
Proof.
  intros Hfu. destruct (findAncestor_ok (fun _ => served v) ltac:(auto) fuel Hfu) as [?|[_ (k & s & e & Hi & He)]]; [done|].
  pose proof (find_round_ok k s e Hi) as Hr. by rewrite He in Hr.
Qed.
End exact.

(** ** A peer with a shorter chain *)

Lemma headers_loop_missing v q i n :
  0 <= hqFrom q -> 0 <= hqSkip q < 2 ^ 16 - 1 -> Z.of_nat (i + n) * (hqSkip q + 1) < 2 ^ 16 ->
  hqFrom q + Z.of_nat (i + n) * (hqSkip q + 1) < 2 ^ 64 ->
  GetBlockByNumber v (hqFrom q + Z.of_nat (i + n) * (hqSkip q + 1)) = None ->
  None ∈ headers_loop v q i (S n).
Proof.
  intros Hfr Hs. revert i. induction n as [|n IH]; intros i Hsp Hl Hnone.
  - cbn [headers_loop]. rewrite headers_index by nia. rewrite Nat.add_0_r in Hnone. rewrite Hnone. left.
  - remember (S n) as n'. cbn [headers_loop]. rewrite headers_index by nia.
    destruct (GetBlockByNumber v (hqFrom q + Z.of_nat i * (hqSkip q + 1))); [|left].
    right. subst n'. apply IH; by rewrite Nat.add_succ_comm.
Qed.

Lemma mapM_None {A} (l : list (option A)) : None ∈ l -> mapM id l = None.
Proof.
  induction l as [|o l IH]; intros Hin; [by apply not_elem_of_nil in Hin|]. apply elem_of_cons in Hin as [<-|Hin]; [done|].
  cbn. specialize (IH Hin). cbn in IH. rewrite IH. by destruct o.
Qed.

Lemma served_missing v from count skip :
  0 <= from -> 0 < count -> 0 <= skip < 2 ^ 16 - 1 -> (count - 1) * (skip + 1) < 2 ^ 16 ->
  from + (count - 1) * (skip + 1) < 2 ^ 64 -> GetBlockByNumber v (from + (count - 1) * (skip + 1)) = None ->
  served v from count skip = Err ().
Proof.
  intros Hfr Hc Hs Hsp Hl Hnone. unfold served, queryHeaders. cbn [hqCount]. rewrite (proj2 (Z.ltb_ge _ _)) by lia.
  assert (None ∈ headers_loop v (MkHeadersQuery from count skip 0) 0 (Z.to_nat count)) as Hin.
  { replace (Z.to_nat count) with (S (Z.to_nat (count - 1))) by lia.
    apply headers_loop_missing; cbn [hqFrom hqSkip]; rewrite ?Nat.add_0_l, ?Z2Nat.id by lia; done || lia. }
  destruct (headers_loop _ _ _ _) as [|[h|] hs]; [done| |done]. by rewrite (mapM_None _ Hin).
Qed.

(** The search fails against a peer whose chain is shorter than the local
    one, whatever the blocks in common: the first batch reaches past the end
    of the chain of the peer.  A chain that is shorter but of more total
    difficulty is never synchronised with. *)
Theorem findAncestor_short_peer `{NdnLib} (has : list Z -> Z -> bool) v localh fuel :
  1 <= localh < 70230 -> GetBlockByNumber v localh = None ->
  findAncestor has (fun _ => served v) (S fuel) localh = Some (Err ()).
Proof.
  intros Hl Hnone. unfold findAncestor. rewrite (proj2 (Z.eqb_neq _ _)) by lia. cbn [find_loop].
  unfold find_round, MAX_HEADERS_COUNT. rewrite (wrap_id 64 (localh - 1 + 1)) by (unfold fits; lia).
  replace (localh - 1 + 1) with localh by lia. destruct (_ <=? 15) eqn:E; bool_go.
  - rewrite (wrap_id 16) by (unfold fits; lia). rewrite served_missing; try lia; [done|].
    by replace (1 + (localh - 1) * (0 + 1)) with localh by lia.
  - set (step := localh / 15). assert (15 * step <= localh < 15 * step + 15) as Hstep.
    { pose proof (Z.div_mod localh 15 ltac:(lia)). pose proof (Z.mod_pos_bound localh 15). unfold step. lia. }
    rewrite (wrap_id 16 (step - 1)) by (unfold fits; lia). replace (step - 1 + 1) with step by lia.
    rewrite (wrap_id 16 step) by (unfold fits; lia). change (15 - 1) with 14.
    rewrite (wrap_id 64 (localh - step * 14)) by (unfold fits; lia). rewrite served_missing; try lia; [done|].
    by replace (localh - step * 14 + (15 - 1) * (step - 1 + 1)) with localh by lia.
Qed.

(** A chain of [n] blocks in which a block is its number. *)
Definition plain_view (n : Z) : ChainView :=
  MkView (fun _ _ => None) (fun k => if (0 <=? k) && (k <=? n) then Some (NewBlockWithHeader (demo_header k)) else None)
    (fun _ _ => None) (fun _ => None).


Lemma findAncestor_exact_witness :
  findAncestor (fun _ n => n <=? 33) (fun _ => served (plain_view 60)) 50 50 = Some (Ok 33).
Proof.
  apply (findAncestor_exact (fun _ n => n <=? 33) (plain_view 60) 50 33); [|vm_compute; lia].
  split; [lia|lia|intros n Hn|intros n b Hn _; done].
  exists (NewBlockWithHeader (demo_header n)). split; [|done].
  cbn [plain_view GetBlockByNumber]. by rewrite !(proj2 (Z.leb_le _ _)) by lia.
Defined.

Lemma findAncestor_short_peer_witness :
  findAncestor (fun _ n => n <=? 33) (fun _ => served (plain_view 49)) 50 50 = Some (Err ()).
Proof. apply (findAncestor_short_peer (fun _ n => n <=? 33) (plain_view 49) 50 49); [lia|done]. Defined.
