(* ===== verification/EthBlockFetch.v ===== *)
(** * Fetching announced blocks ([src/ndn/eth/blockfetcher.go])

    A block that was announced by its hash or by its header is fetched by a
    work: a job for the header and one for the body, from the announcing peers
    and the holders one after the other.  An assembled block waits in a priority
    queue until its parent may be in the chain, and is then announced and
    inserted.  Works are shared by pointer between the list of works, the jobs
    and the fetched blocks.

    What the chain answers, the outcome of a job, the clock and the iteration
    order of maps are arguments; [None] is a panic. *)

From S2P Require Import Prelude Bytes Rlp RlpStream RlpTypes GoHeap Prque KadId Names Cacher Fetching KadRpc KadCrypto.
From S2P Require Import EthTypes EthPush EthPeer EthHandler EthHandshake EthWire EthData EthSync.
Local Open Scope Z_scope.

Definition MAX_UNCLE_DIST : Z := 7.
Definition MAX_QUEUE_DIST : Z := 256.
Definition FetchedLifeTime : Z := 30 * 10 ^ 9.
Definition SIGNALS : nat := 128.

(** A fetched block: [fb_work] is the work of a block that was not pushed. *)
Record FetchedBlk := MkFetchedBlk {
  fb_block : Block;
  fb_td : Z;
  fb_ftime : Z;
  fb_work : option nat;
  fb_pushed : bool;
}.

#[export] Instance fetchedblk_inhabited : Inhabited FetchedBlk :=
  populate (MkFetchedBlk (MkBlock (MkHeader [] [] [] [] [] [] [] 0 0 0 0 0 [] [] []) [] []) 0 0 None false).

(** An announcement of a block by the peer at address [a]. *)
Inductive BlockAnnouncement := AnnHeader (a : nat) (it : BlockHeaderItem) | AnnHash (a : nat) (it : BlockHashItem).

(** What the fetcher reads of the chain and of the consensus engine. *)
Record BlockChain := MkChain {
  bc_height : Z;                           (* [CurrentBlock().NumberU64()] *)
  bc_GetBlock : list Z -> Z -> option Block;
  bc_GetBlockByHash : list Z -> option Block;
  bc_GetTd : list Z -> Z -> option Z;
  bc_VerifyHeader : Header -> bool;
}.

Inductive bferror := BfNoPeer.

Record blockFetchingWork := MkBlkWork {
  bw_hash : list Z;
  bw_number : Z;
  bw_numsegments : Z;
  bw_header : option Header;
  bw_body : option Body;
  bw_td : Z;
  bw_fblock : option FetchedBlk;
  bw_announcers : gmap (list Z) (nat * bool);   (* address of the peer, was it queried *)
  bw_holders : gmap (list Z) bool;
  bw_headersent : bool;
  bw_err : option bferror;
}.

Section blockfetcher.
  Context {L : NdnLib} {C : CryptoLib} {S : SetLib}.

Definition BlockInfo (ann : BlockAnnouncement) : list Z * Z * Z :=
  match ann with
  | AnnHeader _ it => (Header_Hash (biHeader it), number (biHeader it), biNumSegments it)
  | AnnHash _ it => (hiHash it, hiNumber it, hiNumSegments it)
  end.

(** ** Blocks that were fetched *)

Record fetchedList := MkFetched {
  fl_blocks : gmap (list Z) FetchedBlk;
  fl_queue : list (prq_item FetchedBlk);
}.

Definition newFetchedList : fetchedList := MkFetched ∅ [].

Definition fl_push (fl : fetchedList) (b : FetchedBlk) : bool * fetchedList :=
  let h := Block_Hash (fb_block b) in
  match fl_blocks fl !! h with
  | Some _ => (false, fl)
  | None => (true, MkFetched (<[h := b]> (fl_blocks fl)) (prq_Push (fl_queue fl) b (s64 (- s64 (NumberU64 (fb_block b))))))
  end.

Definition fl_pop (fl : fetchedList) : option (option FetchedBlk * fetchedList) :=
  if bool_decide (fl_blocks fl = ∅) then Some (None, fl)
  else
    '(b, q) ← prq_PopItem (fl_queue fl);
    Some (Some b, MkFetched (delete (Block_Hash (fb_block b)) (fl_blocks fl)) q).

Definition fl_empty (fl : fetchedList) : bool := bool_decide (fl_blocks fl = ∅).

(** ** Works *)

Definition bw_setSent (w : blockFetchingWork) : blockFetchingWork :=
  MkBlkWork (bw_hash w) (bw_number w) (bw_numsegments w) (bw_header w) (bw_body w) (bw_td w) (bw_fblock w) (bw_announcers w)
    (bw_holders w) true (bw_err w).
Definition bw_setheader (w : blockFetchingWork) (h : Header) (td : Z) : blockFetchingWork :=
  MkBlkWork (bw_hash w) (bw_number w) (bw_numsegments w) (Some h) (bw_body w) td (bw_fblock w) (bw_announcers w)
    (bw_holders w) true (bw_err w).
Definition bw_setbody (w : blockFetchingWork) (b : Body) : blockFetchingWork :=
  MkBlkWork (bw_hash w) (bw_number w) (bw_numsegments w) (bw_header w) (Some b) (bw_td w) (bw_fblock w) (bw_announcers w)
    (bw_holders w) (bw_headersent w) (bw_err w).
Definition bw_seterror (w : blockFetchingWork) (e : bferror) : blockFetchingWork :=
  MkBlkWork (bw_hash w) (bw_number w) (bw_numsegments w) (bw_header w) (bw_body w) (bw_td w) (bw_fblock w) (bw_announcers w)
    (bw_holders w) (bw_headersent w) (Some e).
Definition bw_setsources (w : blockFetchingWork) (ann : gmap (list Z) (nat * bool)) (holders : gmap (list Z) bool)
  : blockFetchingWork :=
  MkBlkWork (bw_hash w) (bw_number w) (bw_numsegments w) (bw_header w) (bw_body w) (bw_td w) (bw_fblock w) ann
    holders (bw_headersent w) (bw_err w).

Definition addHolder (w : blockFetchingWork) (holder : list Z) : blockFetchingWork :=
  match bw_holders w !! holder with
  | None => bw_setsources w (bw_announcers w) (<[holder := false]> (bw_holders w))
  | Some _ => w
  end.

Definition addAnnouncer (w : blockFetchingWork) (id : list Z) (a : nat) : blockFetchingWork :=
  match bw_announcers w !! id with
  | None => bw_setsources w (<[id := (a, false)]> (bw_announcers w)) (bw_holders w)
  | Some _ => w
  end.

Definition dropAnnouncer (w : blockFetchingWork) (id : list Z) : blockFetchingWork :=
  bw_setsources w (delete id (bw_announcers w)) (bw_holders w).

(** [getAnnouncers] with the iteration order of the map. *)
Definition getAnnouncers (w : blockFetchingWork) (order : list (list Z)) : list nat :=
  omap (fun id => fst <$> bw_announcers w !! id) order.

(** [buildblock] of the work at address [a]. *)
Definition buildblock (w : blockFetchingWork) (a : nat) (now : Z) : bool * blockFetchingWork :=
  match bw_fblock w, bw_header w, bw_body w with
  | None, Some h, Some body =>
    let b := WithBody (NewBlockWithHeader h) (body_txs body) (body_uncles body) in
    (true, MkBlkWork (bw_hash w) (bw_number w) (bw_numsegments w) (bw_header w) (bw_body w) (bw_td w)
      (Some (MkFetchedBlk b (bw_td w) now (Some a) false)) (bw_announcers w) (bw_holders w) (bw_headersent w) (bw_err w))
  | _, _, _ => (false, w)
  end.

(** [nextPrefix]: a holder that was not queried, or an announcer; [prefix] is
    the prefix of the peer at an address. *)
Definition nextPrefix (w : blockFetchingWork) (prefix : nat -> option (list NameComponent)) (horder aorder : list (list Z))
  : option (list NameComponent * blockFetchingWork) :=
  match filter (fun n => bw_holders w !! n = Some false) horder with
  | name :: _ => Some (ParseName name, bw_setsources w (bw_announcers w) (<[name := true]> (bw_holders w)))
  | [] =>
    match omap (fun id => match bw_announcers w !! id with Some (a, false) => Some (id, a) | _ => None end) aorder with
    | (id, a) :: _ => p ← prefix a; Some (p, bw_setsources w (<[id := (a, true)]> (bw_announcers w)) (bw_holders w))
    | [] => Some ([], w)
    end
  end.

(** ** The fetcher *)

Record blockFetcher := MkFetcher {
  bf_works : gmap nat blockFetchingWork;
  bf_next : nat;
  bf_fetching : gmap (list Z) nat;
  bf_jobs : list (nat * bool * PeerRouteInfo);   (* work, is it for the header, route *)
  bf_fetched : fetchedList;
  bf_sending : list (option nat);   (* goroutines that send on [fetchedSig]: the worker of a work, a handler *)
  bf_sig : nat;                     (* tokens of [fetchedSig] *)
  bf_top : bool;                    (* [loop] is in its insertions, not in its [select] *)
  bf_ctl : Controller;
}.

Definition newblockFetcher (c : Controller) : blockFetcher := MkFetcher ∅ 0 ∅ [] newFetchedList [] 0 true c.

Definition bf_setWork (f : blockFetcher) (a : nat) (w : blockFetchingWork) : blockFetcher :=
  MkFetcher (<[a := w]> (bf_works f)) (bf_next f) (bf_fetching f) (bf_jobs f) (bf_fetched f) (bf_sending f) (bf_sig f) (bf_top f) (bf_ctl f).
Definition bf_setJobs (f : blockFetcher) (l : list (nat * bool * PeerRouteInfo)) : blockFetcher :=
  MkFetcher (bf_works f) (bf_next f) (bf_fetching f) l (bf_fetched f) (bf_sending f) (bf_sig f) (bf_top f) (bf_ctl f).
Definition bf_setFetched (f : blockFetcher) (fl : fetchedList) : blockFetcher :=
  MkFetcher (bf_works f) (bf_next f) (bf_fetching f) (bf_jobs f) fl (bf_sending f) (bf_sig f) (bf_top f) (bf_ctl f).
Definition bf_setSending (f : blockFetcher) (l : list (option nat)) (sig : nat) : blockFetcher :=
  MkFetcher (bf_works f) (bf_next f) (bf_fetching f) (bf_jobs f) (bf_fetched f) l sig (bf_top f) (bf_ctl f).
Definition bf_setTop (f : blockFetcher) (sig : nat) (top : bool) : blockFetcher :=
  MkFetcher (bf_works f) (bf_next f) (bf_fetching f) (bf_jobs f) (bf_fetched f) (bf_sending f) sig top (bf_ctl f).
Definition bf_setCtl (f : blockFetcher) (c : Controller) : blockFetcher :=
  MkFetcher (bf_works f) (bf_next f) (bf_fetching f) (bf_jobs f) (bf_fetched f) (bf_sending f) (bf_sig f) (bf_top f) c.
Definition bf_removework (f : blockFetcher) (h : list Z) : blockFetcher :=
  MkFetcher (bf_works f) (bf_next f) (delete h (bf_fetching f)) (bf_jobs f) (bf_fetched f) (bf_sending f) (bf_sig f) (bf_top f) (bf_ctl f).

(** A number that is too far from the current block, as [int64]. *)
Definition strange (bc : BlockChain) (number : Z) : bool :=
  let dist := s64 (s64 number - s64 (bc_height bc)) in
  (dist <? - MAX_UNCLE_DIST) || (MAX_QUEUE_DIST <? dist).

(** [handleFetchedBlock] up to its signal; it is false for a strange block. *)
Definition handleFetchedBlock (f : blockFetcher) (bc : BlockChain) (fb : FetchedBlk) (announcers : list nat)
  : option (bool * blockFetcher) :=
  let number := NumberU64 (fb_block fb) in
  let td := fb_td fb - Difficulty (header (fb_block fb)) in
  c ← SetPeersHead (bf_ctl f) announcers (ParentHash (header (fb_block fb))) td (u64 (number - 1));
  let f := bf_setCtl f c in
  if strange bc number then Some (false, f)
  else Some (true, bf_setFetched f (fl_push (bf_fetched f) fb).2).

(** [onWorkDone] of the work at address [a]; its [defer] runs after the signal. *)
Definition onWorkDone (f : blockFetcher) (bc : BlockChain) (a : nat) (aorder : list (list Z)) : option blockFetcher :=
  w ← bf_works f !! a;
  match bw_err w, bw_fblock w with
  | None, Some fb =>
    '(sends, f) ← handleFetchedBlock f bc fb (getAnnouncers w aorder);
    Some (if sends : bool then bf_setSending f (bf_sending f ++ [Some a]) (bf_sig f) else bf_removework f (bw_hash w))
  | _, _ => Some (bf_removework f (bw_hash w))
  end.

(** A goroutine sends on [fetchedSig]; [None] while the channel is full. *)
Definition bf_signal (f : blockFetcher) (k : nat) : option blockFetcher :=
  s ← bf_sending f !! k;
  if (bf_sig f <? SIGNALS)%nat then
    let f := bf_setSending f (delete k (bf_sending f)) (Datatypes.S (bf_sig f)) in
    match s with
    | None => Some f
    | Some a => w ← bf_works f !! a; Some (bf_removework f (bw_hash w))
    end
  else None.

(** [update]: a block that a peer pushed. *)
Definition bf_update (f : blockFetcher) (bc : BlockChain) (now : Z) (a : nat) (it : FetchedBlock) (aorder : list (list Z))
  : option blockFetcher :=
  let fb := MkFetchedBlk (fbBlock it) (fbTd it) now None true in
  announcers ← match bf_fetching f !! Block_Hash (fbBlock it) with
               | Some i => w ← bf_works f !! i; Some (getAnnouncers w aorder ++ [a])
               | None => Some [a]
               end;
  '(sends, f) ← handleFetchedBlock f bc fb announcers;
  Some (if sends : bool then bf_setSending f (bf_sending f ++ [None]) (bf_sig f) else f).

(** [refetch]: a new job, or no peer is left. *)
Definition refetch (f : blockFetcher) (bc : BlockChain) (a : nat) (w : blockFetchingWork) (isheader : bool) (route : PeerRouteInfo)
  (horder aorder : list (list Z)) : option blockFetcher :=
  '(name, w) ← (if usehint route then Some (peername route, w)
                else nextPrefix w (fun i => p_prefix <$> get_peer (bf_ctl f) i) horder aorder);
  match name, usehint route with
  | [], false => onWorkDone (bf_setWork f a (bw_seterror w BfNoPeer)) bc a aorder
  | _, _ => Some (bf_setJobs (bf_setWork f a w) (bf_jobs f ++ [(a, isheader, MkRoute name false (appname route))]))
  end.

(** After a part arrived. *)
Definition assemble (f : blockFetcher) (bc : BlockChain) (now : Z) (a : nat) (w : blockFetchingWork) (aorder : list (list Z))
  : option blockFetcher :=
  let '(ok, w) := buildblock w a now in
  if ok : bool then onWorkDone (bf_setWork f a w) bc a aorder else Some (bf_setWork f a w).

(** The callback of [createHandler] at the end of job [k].  The error of an
    aborted job is that of another package and is handled like any other. *)
Definition bf_jobDone (f : blockFetcher) (bc : BlockChain) (now : Z) (k : nat) (outcome : res ferror (list Z))
  (horder aorder : list (list Z)) (porder : list nat) : option blockFetcher :=
  '(a, isheader, route) ← bf_jobs f !! k;
  w ← bf_works f !! a;
  let f := bf_setJobs f (delete k (bf_jobs f)) in
  match outcome with
  | Err _ => refetch f bc a w isheader route horder aorder
  | Ok obj =>
    if isheader : bool then
      match rlp_decode (A := FetchedHeader) obj with
      | Err _ => refetch f bc a w isheader route horder aorder
      | Ok fh =>
        '(f, w) ← (if negb (bw_headersent w) && bc_VerifyHeader bc (fhHeader fh) then
                     holder ← PrettyName (peername route);
                     Some (bf_setCtl f (propagateHeader (bf_ctl f) porder (Header_Hash (fhHeader fh))
                       (rlp_value (MkHeaderItem (fhHeader fh) (fhTd fh) holder (bw_numsegments w)))), bw_setSent w)
                   else Some (f, w));
        assemble f bc now a (bw_setheader w (fhHeader fh) (fhTd fh)) aorder
      end
    else
      match rlp_decode (A := Body) obj with
      | Err _ => refetch f bc a w isheader route horder aorder
      | Ok body => assemble f bc now a (bw_setbody w body) aorder
      end
  end.

(** [processAnnouncement]. *)
Definition announce_known (f : blockFetcher) (bc : BlockChain) (now : Z) (i : nat) (ann : BlockAnnouncement) (porder : list nat)
  : option blockFetcher :=
  w ← bf_works f !! i;
  match ann with
  | AnnHeader _ it =>
    let '(f, w) :=
      if bw_headersent w then (f, w)
      else
        (if bc_VerifyHeader bc (biHeader it)
         then bf_setCtl f (propagateHeader (bf_ctl f) porder (Header_Hash (biHeader it)) (rlp_value it)) else f,
         bw_setheader w (biHeader it) (biTd it)) in
    Some (bf_setWork f i (buildblock (addHolder w (biHolder it)) i now).2)
  | AnnHash a _ => p ← get_peer (bf_ctl f) a; Some (bf_setWork f i (addAnnouncer w (p_id p) a))
  end.

Definition announce_new (f : blockFetcher) (bc : BlockChain) (ann : BlockAnnouncement) (app : list NameComponent) (porder : list nat)
  : option blockFetcher :=
  let '(bhash, bnum, numsegments) := BlockInfo ann in
  let i := bf_next f in
  let start w jobs c :=
    MkFetcher (<[i := w]> (bf_works f)) (Datatypes.S i) (<[bhash := i]> (bf_fetching f)) (bf_jobs f ++ jobs) (bf_fetched f)
      (bf_sending f) (bf_sig f) (bf_top f) c in
  match ann with
  | AnnHash a _ =>
    p ← get_peer (bf_ctl f) a;
    let route := MkRoute (p_prefix p) true app in
    Some (start (MkBlkWork bhash bnum numsegments None None 0 None {[ p_id p := (a, true) ]} ∅ false None)
      [(i, true, route); (i, false, route)] (bf_ctl f))
  | AnnHeader _ it =>
    let route := MkRoute (ParseName (biHolder it)) true app in
    let ok := bc_VerifyHeader bc (biHeader it) in
    Some (start (MkBlkWork bhash bnum numsegments (Some (biHeader it)) None (biTd it) None ∅ {[ biHolder it := true ]} ok None)
      [(i, false, route)]
      (if ok then propagateHeader (bf_ctl f) porder (Header_Hash (biHeader it)) (rlp_value it) else bf_ctl f))
  end.

Definition processAnnouncement (f : blockFetcher) (bc : BlockChain) (now : Z) (ann : BlockAnnouncement) (app : list NameComponent)
  (porder : list nat) : option blockFetcher :=
  let '(bhash, bnum, _) := BlockInfo ann in
  let a := match ann with AnnHeader a _ | AnnHash a _ => a end in
  match bf_fetching f !! bhash with
  | Some i => announce_known f bc now i ann porder
  | None =>
    match bc_GetBlock bc bhash bnum with
    | Some block =>
      let phash := ParentHash (header block) in
      match bc_GetTd bc phash (u64 (bnum - 1)) with
      | Some ltd => c ← SetPeersHead (bf_ctl f) [a] phash ltd (u64 (bnum - 1)); Some (bf_setCtl f c)
      | None => Some f
      end
    | None =>
      match fl_blocks (bf_fetched f) !! bhash with
      | Some fb =>
        let b := fb_block fb in
        c ← SetPeersHead (bf_ctl f) [a] (ParentHash (header b)) (fb_td fb - Difficulty (header b)) (u64 (NumberU64 b - 1));
        Some (bf_setCtl f c)
      | None => if strange bc bnum then Some f else announce_new f bc ann app porder
      end
    end
  end.

(** [insertnext]; [inserted] is the outcome of [InsertChain].  It returns
    whether the loop stops. *)
Definition insertnext (f : blockFetcher) (bc : BlockChain) (now : Z) (inserted : bool) (order1 order2 : list nat)
  : option (bool * blockFetcher) :=
  '(fb, fl) ← fl_pop (bf_fetched f);
  match fb with
  | None => Some (true, f)
  | Some fb =>
    let f := bf_setFetched f fl in
    let b := fb_block fb in
    let number := NumberU64 b in
    if u64 (bc_height bc + 1) <? number then
      if fb_ftime fb + FetchedLifeTime <? now then Some (false, f)
      else Some (true, bf_setFetched f (fl_push fl fb).2)
    else if (u64 (number + MAX_UNCLE_DIST) <? bc_height bc) || bool_decide (bc_GetBlockByHash bc (Block_Hash b) <> None) then Some (false, f)
    else
      '(propagating, ignored, f) ←
        (if fb_pushed fb then Some (true, false, f)
         else
           i ← fb_work fb;
           w ← bf_works f !! i;
           if negb (bw_headersent w) then Some (true, false, bf_setWork f i (bw_setSent w))
           else Some (false, bool_decide (bc_GetBlockByHash bc (ParentHash (header b)) = None), f));
      if ignored : bool then Some (false, f)
      else
        c ← (if (propagating : bool) && bc_VerifyHeader bc (header b) then
               propagateBlock (bf_ctl f) now order1 (bc_GetTd bc (ParentHash (header b)) (u64 (number - 1))) b false
             else Some (bf_ctl f));
        c ← (if inserted then announceBlock c now order2 b else Some c);
        Some (false, bf_setCtl f c)
  end.

(** [loop]: an insertion, or the end of the insertions. *)
Definition bf_insert (f : blockFetcher) (bc : BlockChain) (now : Z) (inserted : bool) (order1 order2 : list nat) : option blockFetcher :=
  if negb (bf_top f) then None
  else if fl_empty (bf_fetched f) then Some (bf_setTop f (bf_sig f) false)
  else '(stop, f) ← insertnext f bc now inserted order1 order2; Some (bf_setTop f (bf_sig f) (negb stop)).

(** The [select] of [loop]: a signal, an announcement. *)
Definition bf_receive (f : blockFetcher) : option blockFetcher :=
  if bf_top f then None else match bf_sig f with O => None | Datatypes.S n => Some (bf_setTop f n true) end.

Definition bf_announce (f : blockFetcher) (bc : BlockChain) (now : Z) (ann : BlockAnnouncement) (app : list NameComponent)
  (porder : list nat) : option blockFetcher :=
  if bf_top f then None else f ← processAnnouncement f bc now ann app porder; Some (bf_setTop f (bf_sig f) true).

(** [removepeer]: the works of the list forget a peer. *)
Definition bf_removepeer (f : blockFetcher) (id : list Z) : blockFetcher :=
  MkFetcher (map_imap (fun a w => Some (if bool_decide (bf_fetching f !! bw_hash w = Some a) then dropAnnouncer w id else w)) (bf_works f))
    (bf_next f) (bf_fetching f) (bf_jobs f) (bf_fetched f) (bf_sending f) (bf_sig f) (bf_top f) (bf_ctl f).

(** [loop] without its [select]: insertions until the list is empty or a
    future block is reached.  Round [k] sees the chain, the clock and the
    outcome of its insertion in [env k]. *)
Definition Env : Type := BlockChain * Z * bool * list nat * list nat.

Fixpoint insert_loop (fuel : nat) (env : nat -> Env) (k : nat) (f : blockFetcher) : option blockFetcher :=
  if negb (bf_top f) then Some f
  else
    match fuel with
    | O => None
    | Datatypes.S fuel =>
      let '(bc, now, inserted, order1, order2) := env k in
      f ← bf_insert f bc now inserted order1 order2; insert_loop fuel env (Datatypes.S k) f
    end.

(** ** The list of fetched blocks *)

Definition blk_hash (b : FetchedBlk) : list Z := Block_Hash (fb_block b).
Definition blk_number (b : FetchedBlk) : Z := s64 (NumberU64 (fb_block b)).

(** The map and the queue hold the same blocks. *)
Record fl_inv (fl : fetchedList) : Prop := MkFlInv {
  fi_queue : forall x, x ∈ fl_queue fl -> fl_blocks fl !! blk_hash (prq_value x) = Some (prq_value x)
    /\ prq_priority x = - blk_number (prq_value x);
  fi_blocks : forall h b, fl_blocks fl !! h = Some b -> h = blk_hash b /\ b ∈ prq_value <$> fl_queue fl;
  fi_nodup : NoDup (blk_hash ∘ prq_value <$> fl_queue fl);
  fi_heap : is_heap prq_le (fl_queue fl);
  fi_ok : Forall prq_ok (fl_queue fl);
}.

Definition number_ok (b : FetchedBlk) : Prop := - 2 ^ 62 < blk_number b < 2 ^ 62.

Lemma fl_push_inv fl b : fl_inv fl -> number_ok b -> fl_inv (fl_push fl b).2.
Proof.
  intros Hi Hb. unfold fl_push. fold (blk_hash b) (blk_number b). destruct (fl_blocks fl !! blk_hash b) eqn:E; [done|]. cbn.
  destruct Hi as [H1 H2 H3 H4 H5]. unfold number_ok in Hb. rewrite s64_id by lia.
  destruct (prq_Push_spec (fl_queue fl) b (- blk_number b) H5 H4) as [Hp Hh]; [unfold prq_ok; cbn; lia|].
  split; cbn; [| | |done|].
  - intros x. rewrite Hp. intros [->|Hx]%elem_of_cons; cbn; [by rewrite lookup_insert_eq|].
    destruct (H1 x Hx) as [Hl ?]. split; [|done]. rewrite lookup_insert_ne; [done|]. congruence.
  - intros h c. rewrite Hp. cbn. destruct (decide (h = blk_hash b)) as [->|Hne].
    + rewrite lookup_insert_eq. intros [= <-]. split; [done|]. by left.
    + rewrite lookup_insert_ne by done. intros Hc. destruct (H2 h c Hc). split; [done|]. by right.
  - rewrite Hp. cbn. apply NoDup_cons. split; [|done]. intros (x & Hx & Hin)%list_elem_of_fmap. destruct (H1 x Hin) as [Hl _].
    unfold compose in Hx. congruence.
  - rewrite Hp. constructor; [unfold prq_ok; cbn; lia|done].
Qed.

(** [pop] returns a block with the least number and removes it. *)
Lemma fl_pop_inv fl :
  fl_inv fl -> fl_blocks fl <> ∅ ->
  exists b fl', fl_pop fl = Some (Some b, fl') /\ fl_inv fl' /\ fl_blocks fl !! blk_hash b = Some b /\
    fl_blocks fl' = delete (blk_hash b) (fl_blocks fl) /\ forall h c, fl_blocks fl !! h = Some c -> blk_number b <= blk_number c.
Proof.
  intros [H1 H2 H3 H4 H5] Hne. unfold fl_pop. rewrite bool_decide_eq_false_2 by done.
  destruct (prq_PopItem_spec (fl_queue fl) H5 H4) as (x & q & -> & Hp & Hh & Hl).
  { intros E. apply map_choose in Hne as (h & b & Hb). destruct (H2 h b Hb) as [_ Hin]. rewrite E in Hin. by apply not_elem_of_nil in Hin. }
  cbn. eexists _, _. split; [done|]. destruct (H1 x) as [Hx Hpx]; [rewrite Hp; by left|]. fold (blk_hash (prq_value x)).
  rewrite Hp in H3, H5. cbn in H3. apply NoDup_cons in H3 as [Hni H3]. apply Forall_cons in H5 as [_ H5].
  split_and!; [|done|done|].
  - split; cbn; [| |done|done|done].
    + intros y Hy. destruct (H1 y) as [Hy1 Hy2]; [rewrite Hp; by right|]. split; [|done]. rewrite lookup_delete_ne; [done|].
      intros E. apply Hni. apply list_elem_of_fmap. by exists y.
    + intros h c [Hne' Hc]%lookup_delete_Some. destruct (H2 h c Hc) as [-> Hin]. split; [done|]. rewrite Hp in Hin. cbn in Hin.
      apply elem_of_cons in Hin as [->|Hin]; [done|done].
  - intros h c Hc. destruct (H2 h c Hc) as [_ Hin]. rewrite Hp in Hin. cbn in Hin. apply elem_of_cons in Hin as [->|Hin]; [lia|].
    apply list_elem_of_fmap in Hin as (y & -> & Hy). rewrite Forall_forall in Hl. specialize (Hl y Hy). unfold prq_le in Hl.
    destruct (H1 y) as [_ Hpy]; [rewrite Hp; by right|]. lia.
Qed.

(** A block that is not strange has a small number. *)
Definition chain_ok (bc : BlockChain) : Prop := 0 <= bc_height bc < 2 ^ 61.

Lemma strange_number bc b : chain_ok bc -> strange bc (NumberU64 (fb_block b)) = false -> number_ok b.
Proof.
  unfold chain_ok, strange, number_ok, blk_number, MAX_UNCLE_DIST, MAX_QUEUE_DIST. intros Hc H. bool_go.
  assert (- 2 ^ 63 <= s64 (NumberU64 (fb_block b)) < 2 ^ 63) as Hs.
  { unfold s64. pose proof (wrap_fits 64 (NumberU64 (fb_block b) + 2 ^ 63) ltac:(lia)) as Hw. unfold fits in Hw. lia. }
  generalize dependent (s64 (NumberU64 (fb_block b))). intros n Hd1 Hd2 Hs. rewrite (s64_id (bc_height bc)) in * by lia.
  destruct (decide (- 2 ^ 63 <= n - bc_height bc)) as [Hn|Hn]; [rewrite s64_id in * by lia; lia|].
  exfalso. revert Hd1 Hd2. unfold s64, wrap. rewrite <- (Z.mod_unique (n - bc_height bc + 2 ^ 63) (2 ^ 64) (-1) (n - bc_height bc + 2 ^ 63 + 2 ^ 64)); lia.
Qed.

(** ** The controller as the fetcher uses it *)

(** Peers stay in the store, and the cache of objects keeps its invariant. *)
Definition ctl_later (c c' : Controller) : Prop :=
  (forall a, is_Some (get_peer c a) -> is_Some (get_peer c' a)) /\ (manager_inv (c_cacher c) -> manager_inv (c_cacher c')).

#[local] Instance ctl_later_preorder : PreOrder ctl_later.
Proof. split; [done|]. intros c1 c2 c3 [A1 A2] [B1 B2]. split; auto. Qed.

Lemma later_put c a p : ctl_later c (put_peer c a p).
Proof.
  split; [|done]. intros b Hb. unfold get_peer, put_peer in *. cbn. destruct (decide (a = b)) as [->|Hne].
  - by rewrite lookup_insert_eq.
  - by rewrite lookup_insert_ne.
Qed.

Lemma later_send c l : ctl_later c (send_all c l).
Proof.
  unfold send_all. revert c. induction l as [|[a it] l IH]; intros c; [done|]. cbn [foldl]. etrans; [|apply IH].
  unfold send_to. destruct (get_peer c a); [apply later_put|done].
Qed.

Lemma SetPeersHead_later c l hash td num :
  (forall a, a ∈ l -> is_Some (get_peer c a)) -> exists c', SetPeersHead c l hash td num = Some c' /\ ctl_later c c'.
Proof.
  unfold SetPeersHead. generalize false. revert c. induction l as [|a l IH]; intros c b Hl; cbn [SetPeersHead_loop].
  - eexists. cbn. split; [done|]. by destruct b.
  - destruct (Hl a ltac:(by left)) as [p Hp]. rewrite Hp. cbn.
    destruct (IH (put_peer c a (SetHead p hash td num).2) (b || (SetHead p hash td num).1)) as (c' & E & Hc').
    { intros b' Hb'. apply later_put. apply Hl. by right. }
    exists c'. split; [done|]. etrans; [apply later_put|done].
Qed.

Lemma cacheBlockBody_later c now b : manager_inv (c_cacher c) -> exists r, cacheBlockBody c now b = Some r /\ ctl_later c r.2.
Proof.
  intros Hm. unfold cacheBlockBody. destruct (body_txs _) as [|]; [destruct (body_uncles _); [by eexists|]|];
    (destruct (getSegment_ok (c_cacher c) now (BlockQuery_GetId (MkBlockQuery BlockPartBody (Block_Hash b) (NumberU64 b))) 0 Hm ltac:(lia))
      as (r & num & m & -> & Hm' & _); destruct r; [by eexists|];
     destruct (manager_cache_ok m now (BlockQuery_GetId (MkBlockQuery BlockPartBody (Block_Hash b) (NumberU64 b))) (encoded (rlp_value (Block_Body b))) Hm')
      as (seg & num' & m' & -> & Hm'' & _); by eexists).
Qed.

Lemma propagateBlock_later c now order ptd b m :
  manager_inv (c_cacher c) -> exists c', propagateBlock c now order ptd b m = Some c' /\ ctl_later c c'.
Proof.
  intros Hm. unfold propagateBlock. destruct ptd; [|by eexists]. destruct (peersWithoutBlock _ _ _); [by eexists|].
  destruct (cacheBlockBody_later c now b Hm) as (r & -> & Hr). cbn [mbind option_bind]. eexists. split; [done|]. etrans; [done|apply later_send].
Qed.

Lemma announceBlock_later c now order b :
  manager_inv (c_cacher c) -> exists c', announceBlock c now order b = Some c' /\ ctl_later c c'.
Proof.
  intros Hm. unfold announceBlock. destruct (peersWithoutBlock _ _ _); [by eexists|].
  destruct (cacheBlockBody_later c now b Hm) as (r & -> & Hr). cbn [mbind option_bind]. eexists. split; [done|]. etrans; [done|apply later_send].
Qed.

Lemma propagateHeader_later c order h v : ctl_later c (propagateHeader c order h v).
Proof. apply later_send. Qed.

(** ** Invariant of the fetcher *)

Definition busy_with (f : blockFetcher) (i : nat) : Prop := i ∈ (bf_jobs f).*1.*1 \/ Some i ∈ bf_sending f.

(** A work as its owner at address [i] left it. *)
Definition blkwork_ok (c : Controller) (i : nat) (w : blockFetchingWork) : Prop :=
  (forall fb, bw_fblock w = Some fb -> fb_work fb = Some i /\ fb_pushed fb = false) /\
  (forall id a b, bw_announcers w !! id = Some (a, b) -> is_Some (get_peer c a)).

(** A missing part is being fetched. *)
Definition parts_ok (jobs : list (nat * bool * PeerRouteInfo)) (i : nat) (w : blockFetchingWork) : Prop :=
  bw_fblock w = None ->
  (bw_header w = None -> (i, true) ∈ jobs.*1) /\ (bw_body w = None -> (i, false) ∈ jobs.*1) /\ (bw_header w = None \/ bw_body w = None).

Record bf_inv (f : blockFetcher) : Prop := MkBfInv {
  bi_fetching : forall h i, bf_fetching f !! h = Some i -> exists w, bf_works f !! i = Some w /\ bw_hash w = h;
  bi_parts : forall h i w, bf_fetching f !! h = Some i -> bf_works f !! i = Some w -> parts_ok (bf_jobs f) i w;
  bi_busy : forall i, busy_with f i -> is_Some (bf_works f !! i);
  bi_next : forall i w, bf_works f !! i = Some w -> (i < bf_next f)%nat;
  bi_work : forall i w, bf_works f !! i = Some w -> blkwork_ok (bf_ctl f) i w;
  bi_fetched : fl_inv (bf_fetched f);
  bi_blocks : forall h b, fl_blocks (bf_fetched f) !! h = Some b ->
    number_ok b /\ (fb_pushed b = true \/ exists i, fb_work b = Some i /\ is_Some (bf_works f !! i));
  bi_cacher : manager_inv (c_cacher (bf_ctl f));
}.

Lemma blkwork_later c c' i w : ctl_later c c' -> blkwork_ok c i w -> blkwork_ok c' i w.
Proof. intros [Hc _] [H1 H2]. split; [done|]. intros id a b Ha. by eapply Hc, H2. Qed.

Lemma bf_setCtl_inv f c : bf_inv f -> ctl_later (bf_ctl f) c -> bf_inv (bf_setCtl f c).
Proof.
  intros [H1 H2 H3 H4 H5 H6 H7 H8] Hc. split; cbn; try done.
  - intros i w Hw. eapply blkwork_later; [done|by apply H5].
  - by apply Hc.
Qed.

Lemma bf_setFetched_inv f fl :
  bf_inv f -> fl_inv fl ->
  (forall h b, fl_blocks fl !! h = Some b -> fl_blocks (bf_fetched f) !! h = Some b
    \/ number_ok b /\ (fb_pushed b = true \/ exists i, fb_work b = Some i /\ is_Some (bf_works f !! i))) ->
  bf_inv (bf_setFetched f fl).
Proof. intros [H1 H2 H3 H4 H5 H6 H7 H8] Hf Hb. split; cbn; try done. intros h b Hh. destruct (Hb h b Hh); [by eapply H7|done]. Qed.

(** The owner of work [a] replaces it, and its jobs. *)
Lemma bf_owner_inv f a w w' l :
  bf_inv f -> bf_works f !! a = Some w -> bw_hash w' = bw_hash w -> blkwork_ok (bf_ctl f) a w' ->
  (forall x, x ∈ l.*1 -> x.1 = a \/ x ∈ (bf_jobs f).*1) -> (forall x, x ∈ (bf_jobs f).*1 -> x.1 <> a -> x ∈ l.*1) ->
  (bf_fetching f !! bw_hash w = Some a -> parts_ok l a w') -> bf_inv (bf_setWork (bf_setJobs f l) a w').
Proof.
  intros Hi Hw Hh Hok Hl1 Hl2 Hp.
  pose proof Hi as [H1 H2 H3 H4 H5 H6 H7 H8].
  assert (forall j, is_Some (bf_works f !! j) -> is_Some (<[a := w']> (bf_works f) !! j)) as Hs.
  { intros j Hj. destruct (decide (a = j)) as [->|]; [by rewrite lookup_insert_eq|by rewrite lookup_insert_ne]. }
  split; cbn; try done.
  - intros h j Hj. destruct (H1 h j Hj) as (v & Hv & Hvh). destruct (decide (a = j)) as [->|Hne].
    + exists w'. rewrite lookup_insert_eq. split; [done|]. congruence.
    + exists v. by rewrite lookup_insert_ne.
  - intros h j v Hj. destruct (decide (a = j)) as [->|Hne].
    + rewrite lookup_insert_eq. intros [= <-]. apply Hp. destruct (H1 h j Hj) as (v' & Hv' & <-). congruence.
    + rewrite lookup_insert_ne by done. intros Hv Hn. destruct (H2 h j v Hj Hv Hn) as (P1 & P2 & P3). split_and!; [| |done].
      * intros E. apply Hl2; [by apply P1|cbn; congruence].
      * intros E. apply Hl2; [by apply P2|cbn; congruence].
  - intros j [Hj|Hj]; cbn in Hj; apply Hs; [|apply H3; by right].
    apply list_elem_of_fmap in Hj as (x & -> & Hx). destruct (Hl1 x Hx) as [->|Hx']; [by rewrite Hw|].
    apply H3. left. apply list_elem_of_fmap. by exists x.
  - intros j v. destruct (decide (a = j)) as [->|Hne]; [intros _; by eapply H4|]. rewrite lookup_insert_ne by done. apply H4.
  - intros j v. destruct (decide (a = j)) as [->|Hne]; [rewrite lookup_insert_eq; by intros [= <-]|]. rewrite lookup_insert_ne by done. apply H5.
  - intros h b Hb. destruct (H7 h b Hb) as [? [?|(j & ? & ?)]]; split; try done; [by left|right]. exists j. split; [done|by apply Hs].
Qed.

Lemma bf_setWork_inv f i w w' :
  bf_inv f -> bf_works f !! i = Some w -> bw_hash w' = bw_hash w -> blkwork_ok (bf_ctl f) i w' ->
  (bf_fetching f !! bw_hash w = Some i -> parts_ok (bf_jobs f) i w') -> bf_inv (bf_setWork f i w').
Proof. intros Hi Hw Hh Hok Hp. apply (bf_owner_inv f i w w' (bf_jobs f)); auto. Qed.

Lemma bf_removework_inv f h : bf_inv f -> bf_inv (bf_removework f h).
Proof.
  intros [H1 H2 H3 H4 H5 H6 H7 H8]. split; cbn; try done.
  - intros h' i [_ Hi]%lookup_delete_Some. by apply H1.
  - intros h' i w [_ Hi]%lookup_delete_Some. by eapply H2.
Qed.

Lemma bf_setTop_inv f sig top : bf_inv f -> bf_inv (bf_setTop f sig top).
Proof. by intros [H1 H2 H3 H4 H5 H6 H7 H8]. Qed.

Lemma bf_setSending_inv f l sig :
  bf_inv f -> (forall i, Some i ∈ l -> is_Some (bf_works f !! i)) -> bf_inv (bf_setSending f l sig).
Proof. intros [H1 H2 H3 H4 H5 H6 H7 H8] Hl. split; cbn; try done. intros i [Hi|Hi]; [apply H3; by left|by apply Hl]. Qed.

Lemma handleFetchedBlock_spec f bc fb l :
  bf_inv f -> chain_ok bc -> (forall a, a ∈ l -> is_Some (get_peer (bf_ctl f) a)) ->
  (fb_pushed fb = true \/ exists i, fb_work fb = Some i /\ is_Some (bf_works f !! i)) ->
  exists sends c fl, let f' := bf_setFetched (bf_setCtl f c) fl in
    handleFetchedBlock f bc fb l = Some (sends, f') /\ bf_inv f' /\ (size (fl_blocks fl) <= Datatypes.S (size (fl_blocks (bf_fetched f))))%nat.
Proof.
  intros Hi Hbc Hl Hfb. unfold handleFetchedBlock.
  destruct (SetPeersHead_later (bf_ctl f) l (ParentHash (header (fb_block fb))) (fb_td fb - Difficulty (header (fb_block fb)))
    (u64 (NumberU64 (fb_block fb) - 1)) Hl) as (c & -> & Hc). cbn [mbind option_bind].
  pose proof (bf_setCtl_inv f c Hi Hc) as Hi1. destruct (strange bc _) eqn:Es.
  - exists false, c, (bf_fetched f). split_and!; [done|done|lia].
  - exists true, c, (fl_push (bf_fetched f) fb).2. pose proof (strange_number bc fb Hbc Es) as Hn. split_and!; [done| |].
    + apply bf_setFetched_inv; [done|apply fl_push_inv; [apply (bi_fetched _ Hi)|done]|]. intros h b. cbn. unfold fl_push.
      destruct (fl_blocks (bf_fetched f) !! _) eqn:E; [by left|]. cbn. destruct (decide (h = Block_Hash (fb_block fb))) as [->|Hne].
      * rewrite lookup_insert_eq. intros [= <-]. by right.
      * rewrite lookup_insert_ne by done. by left.
    + unfold fl_push. destruct (fl_blocks (bf_fetched f) !! _) eqn:E; cbn; [lia|]. by rewrite map_size_insert_None.
Qed.

Lemma getAnnouncers_alive c i w order a : blkwork_ok c i w -> a ∈ getAnnouncers w order -> is_Some (get_peer c a).
Proof.
  intros [_ H] (id & _ & Ha)%list_elem_of_omap. destruct (bw_announcers w !! id) as [[a' b]|] eqn:E; [|done]. cbn in Ha. simplify_eq. by eapply H.
Qed.

(** What [onWorkDone] leaves as it is. *)
Record same_fetcher (a : nat) (f f' : blockFetcher) : Prop := MkSame {
  sf_works : bf_works f' = bf_works f;
  sf_jobs : bf_jobs f' = bf_jobs f;
  sf_sig : bf_sig f' = bf_sig f;
  sf_top : bf_top f' = bf_top f;
  sf_next : bf_next f' = bf_next f;
  sf_sending : bf_sending f' = bf_sending f \/ bf_sending f' = bf_sending f ++ [Some a];
  sf_size : (size (fl_blocks (bf_fetched f')) <= Datatypes.S (size (fl_blocks (bf_fetched f))))%nat;
  sf_fetching : forall w h, bf_works f !! a = Some w -> h <> bw_hash w -> bf_fetching f' !! h = bf_fetching f !! h;
}.

Lemma onWorkDone_spec f bc a w order :
  bf_inv f -> chain_ok bc -> bf_works f !! a = Some w ->
  exists f', onWorkDone f bc a order = Some f' /\ bf_inv f' /\ same_fetcher a f f'.
Proof.
  intros Hi Hbc Hw. unfold onWorkDone. rewrite Hw. cbn [mbind option_bind].
  assert (bf_inv (bf_removework f (bw_hash w)) /\ same_fetcher a f (bf_removework f (bw_hash w))) as [Hr Hs].
  { split; [by apply bf_removework_inv|]. split; cbn; auto. intros w' h Hw' Hh. simplify_eq. by rewrite lookup_delete_ne. }
  destruct (bw_err w); [by eexists|]. destruct (bw_fblock w) as [fb|] eqn:Efb; [|by eexists].
  destruct (handleFetchedBlock_spec f bc fb (getAnnouncers w order) Hi Hbc) as (sends & c & fl & -> & Hi' & Hsz).
  { intros b. apply (getAnnouncers_alive _ a), (bi_work _ Hi a w Hw). }
  { right. exists a. destruct (proj1 (bi_work _ Hi a w Hw) fb Efb). by rewrite Hw. }
  cbn [mbind option_bind]. destruct sends.
  - eexists. split; [done|]. split; [|split; cbn; auto; intros w' h Hw' Hh; by simplify_eq].
    apply bf_setSending_inv; [done|]. intros j. cbn. intros [Hj|Hj]%elem_of_app.
    + apply (bi_busy _ Hi). by right.
    + apply list_elem_of_singleton in Hj as [= ->]. by rewrite Hw.
  - eexists. split; [done|]. split; [by apply bf_removework_inv|]. split; cbn; auto.
    intros w' h Hw' Hh. simplify_eq. by rewrite lookup_delete_ne.
Qed.


(** ** The end of a job *)

(** The sources that can still be asked. *)
Definition bw_unasked (w : blockFetchingWork) : nat :=
  size (filter (fun kv => kv.2 = false) (bw_holders w)) + size (filter (fun kv => kv.2.2 = false) (bw_announcers w)).

(** The work [w'] differs from [w] in the queried sources at most. *)
Record same_parts (w w' : blockFetchingWork) : Prop := MkSameParts {
  sp_hash : bw_hash w' = bw_hash w;
  sp_header : bw_header w' = bw_header w;
  sp_body : bw_body w' = bw_body w;
  sp_fblock : bw_fblock w' = bw_fblock w;
  sp_announcers : forall id a b, bw_announcers w' !! id = Some (a, b) -> exists b', bw_announcers w !! id = Some (a, b');
}.

Lemma same_parts_ok c i w w' : same_parts w w' -> blkwork_ok c i w -> blkwork_ok c i w'.
Proof.
  intros [E1 E2 E3 E4 E5] [H1 H2]. split; [by rewrite E4|]. intros id a b Ha. destruct (E5 id a b Ha) as [b' Hb]. by eapply H2.
Qed.

Lemma asked_size {A} (p : A -> bool) (m : gmap (list Z) A) k x y :
  m !! k = Some x -> p x = false -> p y = true ->
  (size (filter (fun kv : list Z * A => p kv.2 = false) (<[k := y]> m)) < size (filter (fun kv : list Z * A => p kv.2 = false) m))%nat.
Proof.
  intros Hk Hx Hy. rewrite map_filter_insert_False by (cbn; congruence). rewrite map_filter_delete.
  assert (filter (fun kv : list Z * A => p kv.2 = false) m !! k = Some x) as Hf by (by apply map_lookup_filter_Some).
  rewrite map_size_delete_Some by done.
  assert (filter (fun kv : list Z * A => p kv.2 = false) m <> ∅) as Hne by (intros E; by rewrite E, lookup_empty in Hf).
  apply map_size_non_empty_iff in Hne. lia.
Qed.

Lemma nextPrefix_spec f i w horder aorder :
  blkwork_ok (bf_ctl f) i w ->
  exists name w', nextPrefix w (fun i => p_prefix <$> get_peer (bf_ctl f) i) horder aorder = Some (name, w') /\ same_parts w w'
    /\ (bw_unasked w' <= bw_unasked w)%nat /\ (name <> [] -> (bw_unasked w' < bw_unasked w)%nat).
Proof.
  intros [_ Ha]. unfold nextPrefix. destruct (filter _ horder) as [|n l] eqn:Eh.
  - destruct (omap _ aorder) as [|[id a] l] eqn:Eo.
    + eexists _, _. split; [done|]. split; [split; eauto|]. split; [lia|done].
    + assert ((id, a) ∈ omap (fun id => match bw_announcers w !! id with Some (a, false) => Some (id, a) | _ => None end) aorder) as Hin
        by (rewrite Eo; by left).
      apply list_elem_of_omap in Hin as (id' & _ & E). destruct (bw_announcers w !! id') as [[a' []]|] eqn:Ea; simplify_eq.
      destruct (Ha _ _ _ Ea) as [p ->]. cbn. eexists _, _. split; [done|]. split.
      { split; try done. intros id2 a2 b2. cbn. destruct (decide (id = id2)) as [->|Hne].
        - rewrite lookup_insert_eq. intros [= -> <-]. by exists false.
        - rewrite lookup_insert_ne by done. eauto. }
      pose proof (asked_size (fun x : nat * bool => x.2) (bw_announcers w) id (a, false) (a, true) Ea eq_refl eq_refl).
      unfold bw_unasked. cbn in *. lia.
  - assert (n ∈ filter (fun n => bw_holders w !! n = Some false) horder) as Hin by (rewrite Eh; by left).
    apply list_elem_of_filter in Hin as [Hf _]. eexists _, _. split; [done|]. split; [split; eauto|].
    pose proof (asked_size (fun x : bool => x) (bw_holders w) n false true Hf eq_refl eq_refl). unfold bw_unasked. cbn in *. lia.
Qed.

(** What the end of job [k] does. *)
Record job_effect (f : blockFetcher) (k : nat) (f' : blockFetcher) (a : nat) (w w' : blockFetchingWork) : Prop := MkEffect {
  je_works : bf_works f' = <[a := w']> (bf_works f);
  je_hash : bw_hash w' = bw_hash w;
  je_unasked : (bw_unasked w' <= bw_unasked w)%nat;
  je_jobs : exists hd r, bf_jobs f !! k = Some (a, hd, r) /\
    (bf_jobs f' = delete k (bf_jobs f) /\ (bf_sending f' = bf_sending f \/ bf_sending f' = bf_sending f ++ [Some a]) \/
     exists r', bf_jobs f' = delete k (bf_jobs f) ++ [(a, hd, r')] /\ bf_sending f' = bf_sending f /\ usehint r' = false /\
       (bw_unasked w' < (if usehint r then 1 else 0) + bw_unasked w)%nat);
  je_sig : bf_sig f' = bf_sig f;
  je_top : bf_top f' = bf_top f;
  je_next : bf_next f' = bf_next f;
  je_size : (size (fl_blocks (bf_fetched f')) <= Datatypes.S (size (fl_blocks (bf_fetched f))))%nat;
  je_fetching : forall h, h <> bw_hash w -> bf_fetching f' !! h = bf_fetching f !! h;
}.

Lemma delete_jobs {f : blockFetcher} {k a hd r} :
  bf_jobs f !! k = Some (a, hd, r) ->
  (bf_jobs f).*1 ≡ₚ (a, hd) :: (delete k (bf_jobs f)).*1.
Proof. intros Hk. rewrite (delete_Permutation _ _ _ Hk) at 1. done. Qed.

Lemma refetch_spec f bc k a w hd r horder aorder :
  bf_inv f -> chain_ok bc -> bf_jobs f !! k = Some (a, hd, r) -> bf_works f !! a = Some w ->
  exists f' w', refetch (bf_setJobs f (delete k (bf_jobs f))) bc a w hd r horder aorder = Some f' /\ bf_inv f' /\ job_effect f k f' a w w'.
Proof.
  intros Hi Hbc Hk Hw. pose proof (bi_work _ Hi a w Hw) as Hok. unfold refetch. cbn [bf_setJobs bf_ctl bf_jobs].
  assert (exists name w1, (if usehint r then Some (peername r, w) else nextPrefix w (fun i => p_prefix <$> get_peer (bf_ctl f) i) horder aorder)
    = Some (name, w1) /\ same_parts w w1 /\ (bw_unasked w1 <= bw_unasked w)%nat /\
      (usehint r = false -> name <> [] -> (bw_unasked w1 < bw_unasked w)%nat)) as (name & w1 & -> & Hsp & Hle & Hlt).
  { destruct (usehint r); [exists (peername r), w; split_and!; [done|split; eauto|lia|done]|].
    destruct (nextPrefix_spec f a w horder aorder Hok) as (name & w1 & ? & ? & ? & ?). exists name, w1. auto. }
  cbn [mbind option_bind]. pose proof (delete_jobs Hk) as Hp.
  assert (forall r', bf_inv (bf_setWork (bf_setJobs f (delete k (bf_jobs f) ++ [(a, hd, r')])) a w1)) as Hretry.
  { intros r'. assert (forall x, x ∈ (delete k (bf_jobs f) ++ [(a, hd, r')]).*1 <-> x ∈ (bf_jobs f).*1) as Hx.
    { intros x. rewrite Hp, fmap_app, elem_of_app, elem_of_cons. cbn. rewrite list_elem_of_singleton. tauto. }
    apply (bf_owner_inv f a w); try done.
    - apply (sp_hash _ _ Hsp).
    - by eapply same_parts_ok.
    - intros x Hin. right. by apply Hx.
    - intros x Hin _. by apply Hx.
    - intros Hf Hn. rewrite (sp_fblock _ _ Hsp) in Hn. destruct (bi_parts _ Hi _ _ _ Hf Hw Hn) as (P1 & P2 & P3).
      rewrite (sp_header _ _ Hsp), (sp_body _ _ Hsp), !Hx. auto. }
  destruct name as [|n name]; [destruct (usehint r) eqn:Eu|].
  - eexists _, w1. split; [done|]. split; [apply Hretry|]. split; cbn; try done; [apply (sp_hash _ _ Hsp)| |lia].
    exists hd, r. split; [done|]. right. eexists. split_and!; [done|done|done|]. rewrite Eu. lia.
  - unfold onWorkDone. cbn. rewrite lookup_insert_eq. cbn. eexists _, (bw_seterror w1 BfNoPeer). split; [done|]. split.
    + apply (bf_owner_inv (bf_removework f (bw_hash w1)) a w).
      * by apply bf_removework_inv.
      * done.
      * cbn. apply (sp_hash _ _ Hsp).
      * eapply same_parts_ok; [|done]. by destruct Hsp.
      * intros x Hin. right. cbn. rewrite Hp. by right.
      * intros x. cbn. rewrite Hp. intros [->|?]%elem_of_cons Hne; [done|done].
      * cbn. rewrite (sp_hash _ _ Hsp). by rewrite lookup_delete_eq.
    + split; cbn; try done; [apply (sp_hash _ _ Hsp)| |lia|].
      * exists hd, r. split; [done|]. left. auto.
      * intros h Hh. rewrite (sp_hash _ _ Hsp). by rewrite lookup_delete_ne.
  - eexists _, w1. split; [by destruct (usehint r)|]. split; [apply Hretry|]. split; cbn; try done; [apply (sp_hash _ _ Hsp)| |lia].
    exists hd, r. split; [done|]. right. eexists. split_and!; [done|done|done|]. destruct (usehint r); [lia|]. specialize (Hlt eq_refl ltac:(done)). lia.
Qed.

Lemma buildblock_spec w i now ok w' :
  buildblock w i now = (ok, w') ->
  bw_hash w' = bw_hash w /\ bw_announcers w' = bw_announcers w /\ bw_holders w' = bw_holders w /\ bw_header w' = bw_header w /\ bw_body w' = bw_body w /\
  (if ok then exists fb, bw_fblock w' = Some fb /\ fb_work fb = Some i /\ fb_pushed fb = false
   else w' = w /\ (bw_fblock w = None -> bw_header w = None \/ bw_body w = None)).
Proof.
  unfold buildblock. destruct (bw_fblock w) eqn:E1; [|destruct (bw_header w) eqn:E2; [destruct (bw_body w) eqn:E3|]]; intros [= <- <-]; cbn;
    rewrite ?E1, ?E2, ?E3; split_and!; try done; eauto.
Qed.

(** A part of a work arrived. *)
Record part_set (hd : bool) (w w' : blockFetchingWork) : Prop := MkPart {
  ps_hash : bw_hash w' = bw_hash w;
  ps_announcers : bw_announcers w' = bw_announcers w;
  ps_holders : bw_holders w' = bw_holders w;
  ps_fblock : bw_fblock w' = bw_fblock w;
  ps_part : if hd then bw_header w' <> None /\ bw_body w' = bw_body w else bw_header w' = bw_header w /\ bw_body w' <> None;
}.

Lemma assemble_spec f bc now k a w w1 hd r order :
  bf_inv f -> chain_ok bc -> bf_jobs f !! k = Some (a, hd, r) -> bf_works f !! a = Some w -> part_set hd w w1 ->
  exists f' w', assemble (bf_setJobs f (delete k (bf_jobs f))) bc now a w1 order = Some f' /\ bf_inv f' /\ job_effect f k f' a w w'.
Proof.
  intros Hi Hbc Hk Hw [Ph Pa Pho Pf Pp]. pose proof (bi_work _ Hi a w Hw) as [Hok1 Hok2]. unfold assemble.
  destruct (buildblock w1 a now) as [ok w2] eqn:Eb. destruct (buildblock_spec _ _ _ _ _ Eb) as (B1 & B2 & B3 & B4 & B5 & Bok).
  pose proof (delete_jobs Hk) as Hp.
  assert (bf_inv (bf_setWork (bf_setJobs f (delete k (bf_jobs f))) a w2)) as Hi2.
  { apply (bf_owner_inv f a w); [done|done|congruence| | | |].
    - split; [|intros id b c; rewrite B2, Pa; apply Hok2]. intros fb Hfb. destruct ok; [destruct Bok as (fb' & ? & ? & ?); by simplify_eq|].
      destruct Bok as [-> _]. apply Hok1. congruence.
    - intros x Hx. right. rewrite Hp. by right.
    - intros x. rewrite Hp. intros [->|?]%elem_of_cons; done.
    - intros Hf Hn. destruct ok; [destruct Bok as (? & ? & _); congruence|]. destruct Bok as [-> Bn]. rewrite Pf in Hn.
      destruct (bi_parts _ Hi _ _ _ Hf Hw Hn) as (P1 & P2 & P3). rewrite Hp in P1, P2.
      rewrite <- Pf in Hn. specialize (Bn Hn). destruct hd; destruct Pp as [Q1 Q2]; split_and!; try done.
      + rewrite Q2. intros E. specialize (P2 E). apply elem_of_cons in P2 as [[=]|]; done.
      + rewrite Q1. intros E. specialize (P1 E). apply elem_of_cons in P1 as [[=]|]; done. }
  assert (bw_unasked w2 = bw_unasked w) as Hu by (unfold bw_unasked; by rewrite B2, B3, Pa, Pho).
  destruct ok.
  - destruct (onWorkDone_spec _ bc a w2 order Hi2 Hbc) as (f' & -> & Hi' & [S1 S2 S3 S4 S5 S6 S7 S8]); [cbn; by rewrite lookup_insert_eq|].
    exists f', w2. split; [done|]. split; [done|]. cbn in *. split; try done; [congruence|lia| |].
    + exists hd, r. split; [done|]. left. done.
    + intros h Hh. eapply S8; [by rewrite lookup_insert_eq|congruence].
  - eexists _, w2. split; [done|]. split; [done|]. split; cbn; try done; [congruence|lia| |lia].
    exists hd, r. split; [done|]. left. auto.
Qed.

Lemma bf_jobDone_spec f bc now k outcome horder aorder porder f' :
  bf_inv f -> chain_ok bc -> bf_jobDone f bc now k outcome horder aorder porder = Some f' ->
  bf_inv f' /\ exists a w w', bf_works f !! a = Some w /\ job_effect f k f' a w w'.
Proof.
  intros Hi Hbc. unfold bf_jobDone. destruct (bf_jobs f !! k) as [[[a hd] r]|] eqn:Ek; [|done]. cbn [mbind option_bind].
  destruct (bf_works f !! a) as [w|] eqn:Ew; [|done]. cbn [mbind option_bind].
  assert (refetch (bf_setJobs f (delete k (bf_jobs f))) bc a w hd r horder aorder = Some f' ->
    bf_inv f' /\ exists a w w', bf_works f !! a = Some w /\ job_effect f k f' a w w') as Hre.
  { intros H. destruct (refetch_spec f bc k a w hd r horder aorder Hi Hbc Ek Ew) as (f1 & w' & E & Hi' & He). simplify_eq. eauto 7. }
  destruct outcome as [obj|e]; [|done]. destruct hd.
  - destruct (rlp_decode obj) as [fh|e]; [|done].
    destruct (negb (bw_headersent w) && _).
    + destruct (PrettyName (peername r)) as [holder|]; [|done]. cbn [mbind option_bind].
      set (c := propagateHeader _ _ _ _). intros H.
      assert (bf_inv (bf_setCtl f c)) as Hi2 by (apply bf_setCtl_inv; [done|apply propagateHeader_later]).
      destruct (assemble_spec (bf_setCtl f c) bc now k a w (bw_setheader (bw_setSent w) (fhHeader fh) (fhTd fh)) true r aorder Hi2 Hbc Ek Ew)
        as (f1 & w' & E & Hi' & He); [by split|]. cbn in E. unfold bf_setCtl in H. cbn in H. unfold bf_setJobs in E. cbn in E.
      unfold bf_setCtl in E. cbn in E. rewrite H in E. injection E as <-. split; [done|]. exists a, w, w'. by destruct He.
    + cbn [mbind option_bind]. intros H.
      destruct (assemble_spec f bc now k a w (bw_setheader w (fhHeader fh) (fhTd fh)) true r aorder Hi Hbc Ek Ew) as (f1 & w' & E & Hi' & He); [by split|].
      simplify_eq. eauto 7.
  - destruct (rlp_decode obj) as [body|e]; [|done]. intros H.
    destruct (assemble_spec f bc now k a w (bw_setbody w body) false r aorder Hi Hbc Ek Ew) as (f1 & w' & E & Hi' & He); [by split|].
    simplify_eq. eauto 7.
Qed.

(** ** Announcements and pushed blocks *)

Lemma announce_known_inv f bc now h i ann porder f' :
  bf_inv f -> bf_fetching f !! h = Some i -> announce_known f bc now i ann porder = Some f' -> bf_inv f'.
Proof.
  intros Hi Hh. unfold announce_known. destruct (bi_fetching _ Hi h i Hh) as (w & Hw & Hwh). rewrite Hw. cbn [mbind option_bind].
  pose proof (bi_work _ Hi i w Hw) as Hok. pose proof (bi_parts _ Hi h i w Hh Hw) as Hp.
  destruct ann as [a it|a it].
  - set (fw := if bw_headersent w then (f, w) else _).
    assert (bf_inv fw.1 /\ bf_works fw.1 = bf_works f /\ bf_jobs fw.1 = bf_jobs f /\ bf_fetching fw.1 = bf_fetching f /\
      bw_hash fw.2 = bw_hash w /\ bw_fblock fw.2 = bw_fblock w /\ bw_body fw.2 = bw_body w /\ bw_announcers fw.2 = bw_announcers w /\
      ctl_later (bf_ctl f) (bf_ctl fw.1) /\ (bw_header fw.2 = None -> bw_header w = None)) as (F1 & F2 & F3 & F4 & W1 & W2 & W3 & W4 & Fc & W5).
    { unfold fw. destruct (bw_headersent w); [by split_and!|]. destruct (bc_VerifyHeader bc (biHeader it)); cbn; split_and!; try done.
      - apply bf_setCtl_inv; [done|apply propagateHeader_later].
      - apply propagateHeader_later. }
    clearbody fw. destruct fw as [g v]. cbn [fst snd] in *. intros [= <-].
    destruct (buildblock (addHolder v (biHolder it)) i now) as [ok v'] eqn:Eb.
    destruct (buildblock_spec _ _ _ _ _ Eb) as (B1 & B2 & B3 & B4 & B5 & Bok). cbn [snd].
    assert (bw_hash (addHolder v (biHolder it)) = bw_hash v /\ bw_announcers (addHolder v (biHolder it)) = bw_announcers v /\
      bw_fblock (addHolder v (biHolder it)) = bw_fblock v /\ bw_header (addHolder v (biHolder it)) = bw_header v /\
      bw_body (addHolder v (biHolder it)) = bw_body v) as (A1 & A2 & A3 & A4 & A5) by (unfold addHolder; by destruct (bw_holders v !! biHolder it)).
    apply (bf_setWork_inv g i w); [done|congruence|congruence| |].
    + split; [|intros id b c Hb; apply Fc; eapply (proj2 Hok id b c); congruence]. intros fb Hfb.
      destruct ok; [destruct Bok as (fb' & ? & ? & ?); by simplify_eq|]. destruct Bok as [-> _]. apply (proj1 Hok). congruence.
    + intros _ Hn. destruct ok; [destruct Bok as (? & ? & _); congruence|]. destruct Bok as [-> Bn]. destruct Hp as (P1 & P2 & P3); [congruence|].
      rewrite F3, A4, A5, W3 in *. split_and!; [auto|done|by apply Bn].
  - destruct (get_peer (bf_ctl f) a) as [p|] eqn:Ep; [|done]. cbn [mbind option_bind]. intros [= <-].
    apply (bf_setWork_inv f i w); [done|done|unfold addAnnouncer; by destruct (bw_announcers w !! p_id p)| |intros _; unfold addAnnouncer; by destruct (bw_announcers w !! p_id p)].
    unfold addAnnouncer. destruct (bw_announcers w !! p_id p) eqn:Ea; [done|]. split; [apply Hok|]. intros id b c. cbn.
    destruct (decide (id = p_id p)) as [->|Hne]; [rewrite lookup_insert_eq; intros [= <- <-]; by rewrite Ep|].
    rewrite lookup_insert_ne by done. apply Hok.
Qed.

(** A new work with its jobs. *)
Lemma start_work_inv f h w jobs c :
  bf_inv f -> bf_fetching f !! h = None -> bw_hash w = h -> blkwork_ok c (bf_next f) w -> ctl_later (bf_ctl f) c ->
  (forall x, x ∈ jobs.*1 -> x.1 = bf_next f) -> parts_ok jobs (bf_next f) w ->
  bf_inv (MkFetcher (<[bf_next f := w]> (bf_works f)) (Datatypes.S (bf_next f)) (<[h := bf_next f]> (bf_fetching f)) (bf_jobs f ++ jobs)
    (bf_fetched f) (bf_sending f) (bf_sig f) (bf_top f) c).
Proof.
  intros [H1 H2 H3 H4 H5 H6 H7 H8] Hn Hw Hok Hc Hj Hp.
  assert (bf_works f !! bf_next f = None) as Hnew by (destruct (bf_works f !! bf_next f) eqn:E; [apply H4 in E; lia|done]).
  assert (forall j, is_Some (bf_works f !! j) -> is_Some (<[bf_next f := w]> (bf_works f) !! j)) as Hs.
  { intros j Hj'. destruct (decide (bf_next f = j)) as [->|]; [by rewrite lookup_insert_eq|by rewrite lookup_insert_ne]. }
  split; cbn; try done.
  - intros h' j. destruct (decide (h = h')) as [<-|Hne].
    + rewrite lookup_insert_eq. intros [= <-]. exists w. by rewrite lookup_insert_eq.
    + rewrite lookup_insert_ne by done. intros Hj'. destruct (H1 h' j Hj') as (v & Hv & ?). exists v. by rewrite lookup_insert_ne by congruence.
  - intros h' j v. destruct (decide (h = h')) as [<-|Hne].
    + rewrite lookup_insert_eq. intros [= <-]. rewrite lookup_insert_eq. intros [= <-] Hf. destruct (Hp Hf) as (P1 & P2 & P3).
      rewrite fmap_app. split_and!; [intros; apply elem_of_app; auto..|done].
    + rewrite lookup_insert_ne by done. intros Hj'. destruct (H1 h' j Hj') as (v' & Hv' & _). rewrite lookup_insert_ne by congruence.
      intros Hv Hf. destruct (H2 h' j v Hj' Hv Hf) as (P1 & P2 & P3). rewrite fmap_app. split_and!; [intros; apply elem_of_app; auto..|done].
  - intros j [Hj'|Hj']; cbn in Hj'; [|apply Hs, H3; by right]. rewrite !fmap_app in Hj'. apply elem_of_app in Hj' as [Hj'|Hj'].
    + apply Hs, H3. by left.
    + apply list_elem_of_fmap in Hj' as (x & -> & Hx). rewrite (Hj x Hx). by rewrite lookup_insert_eq.
  - intros j v. destruct (decide (bf_next f = j)) as [<-|Hne]; [lia|]. rewrite lookup_insert_ne by done. intros Hv%H4. lia.
  - intros j v. destruct (decide (bf_next f = j)) as [<-|Hne]; [rewrite lookup_insert_eq; by intros [= <-]|].
    rewrite lookup_insert_ne by done. intros Hv. eapply blkwork_later; [done|by apply H5].
  - intros h' b Hb. destruct (H7 h' b Hb) as [? [?|(j & ? & ?)]]; split; try done; [by left|right]. exists j. split; [done|by apply Hs].
  - by apply Hc.
Qed.

Lemma announce_new_inv f bc ann app porder f' :
  bf_inv f -> bf_fetching f !! (BlockInfo ann).1.1 = None -> announce_new f bc ann app porder = Some f' -> bf_inv f'.
Proof.
  intros Hi Hn. unfold announce_new. destruct ann as [a it|a it]; cbn [BlockInfo fst] in *.
  - intros [= <-]. apply start_work_inv; try done.
    + destruct (bc_VerifyHeader _ _); [apply propagateHeader_later|done].
    + cbn. intros x ->%list_elem_of_singleton. done.
    + intros _. cbn. split_and!; [done|intros _; by left|by right].
  - destruct (get_peer (bf_ctl f) a) as [p|] eqn:Ep; [|done]. cbn [mbind option_bind]. intros [= <-]. apply start_work_inv; try done.
    + split; [done|]. cbn. intros id b c [_ [= <- <-]]%lookup_singleton_Some. by rewrite Ep.
    + cbn. intros x. rewrite !elem_of_cons. intros [->|[->|[]%not_elem_of_nil]]; done.
    + intros _. cbn. split_and!; [intros _; by left|intros _; right; by left|by left].
Qed.

Lemma bf_announce_inv f bc now ann app porder f' :
  bf_inv f -> bf_announce f bc now ann app porder = Some f' -> bf_inv f'.
Proof.
  intros Hi. unfold bf_announce. destruct (bf_top f); [done|].
  destruct (processAnnouncement f bc now ann app porder) as [g|] eqn:E; [|done]. intros [= <-]. apply bf_setTop_inv.
  assert (forall (a : nat) h td n c, SetPeersHead (bf_ctl f) [a] h td n = Some c -> bf_inv (bf_setCtl f c)) as Hheads.
  { intros a h td n c Hc. destruct (SetPeersHead_later (bf_ctl f) [a] h td n) as (c' & E' & Hc').
    - intros b ->%list_elem_of_singleton. unfold SetPeersHead in Hc. cbn in Hc. by destruct (get_peer (bf_ctl f) a).
    - simplify_eq. by apply bf_setCtl_inv. }
  unfold processAnnouncement in E. destruct (BlockInfo ann) as [[bhash bnum] nseg] eqn:Einfo.
  destruct (bf_fetching f !! bhash) as [i|] eqn:Ef; [by eapply announce_known_inv|].
  destruct (bc_GetBlock bc bhash bnum) as [b|].
  { destruct (bc_GetTd _ _ _); [|by simplify_eq]. destruct (SetPeersHead _ _ _ _ _) eqn:Es; [|done]. cbn in E. simplify_eq. by eapply Hheads. }
  destruct (fl_blocks (bf_fetched f) !! bhash) as [fb|].
  { destruct (SetPeersHead _ _ _ _ _) eqn:Es; [|done]. cbn in E. simplify_eq. by eapply Hheads. }
  destruct (strange bc bnum); [by simplify_eq|]. eapply announce_new_inv; [done| |done]. by rewrite Einfo.
Qed.

Lemma bf_update_inv f bc now a it order f' :
  bf_inv f -> chain_ok bc -> is_Some (get_peer (bf_ctl f) a) -> bf_update f bc now a it order = Some f' -> bf_inv f'.
Proof.
  intros Hi Hbc Ha. unfold bf_update.
  set (ann := match bf_fetching f !! _ with Some i => _ | None => _ end).
  assert (exists l, ann = Some l /\ forall b, b ∈ l -> is_Some (get_peer (bf_ctl f) b)) as (l & -> & Hl).
  { unfold ann. destruct (bf_fetching f !! _) as [i|] eqn:E.
    - destruct (bi_fetching _ Hi _ _ E) as (w & Hw & _). rewrite Hw. cbn. eexists. split; [done|]. intros b [Hb|Hb]%elem_of_app.
      + by eapply getAnnouncers_alive; [apply (bi_work _ Hi i w Hw)|].
      + by apply list_elem_of_singleton in Hb as ->.
    - eexists. split; [done|]. by intros b ->%list_elem_of_singleton. }
  cbn [mbind option_bind].
  destruct (handleFetchedBlock_spec f bc (MkFetchedBlk (fbBlock it) (fbTd it) now None true) l Hi Hbc Hl) as (sends & c & fl & -> & Hi' & _);
    [by left|]. cbn [mbind option_bind]. destruct sends; intros [= <-]; [|done].
  apply bf_setSending_inv; [done|]. cbn. intros i [Hin|Hin]%elem_of_app; [|by apply list_elem_of_singleton in Hin].
  apply (bi_busy _ Hi). by right.
Qed.

Lemma bf_removepeer_inv f id : bf_inv f -> bf_inv (bf_removepeer f id).
Proof.
  intros [H1 H2 H3 H4 H5 H6 H7 H8].
  set (g := fun a w => Some (if bool_decide (bf_fetching f !! bw_hash w = Some a) then dropAnnouncer w id else w)).
  assert (forall a w', map_imap g (bf_works f) !! a = Some w' -> exists w, bf_works f !! a = Some w /\ same_parts w w') as Hg.
  { intros a w'. rewrite map_lookup_imap. destruct (bf_works f !! a) as [w|]; [|done]. cbn. intros [= <-]. exists w. split; [done|].
    case_bool_decide; split; try done; eauto. cbn. intros i b c [_ ?]%lookup_delete_Some. eauto. }
  assert (forall a, is_Some (bf_works f !! a) -> is_Some (map_imap g (bf_works f) !! a)) as Hs.
  { intros a [w Hw]. rewrite map_lookup_imap, Hw. by eexists. }
  split; cbn; try done.
  - intros h i Hi. destruct (H1 h i Hi) as (w & Hw & Hwh). destruct (Hs i ltac:(by rewrite Hw)) as [w' Hw']. exists w'. split; [done|].
    destruct (Hg i w' Hw') as (w2 & ? & Hsp). simplify_eq. apply (sp_hash _ _ Hsp).
  - intros h i w' Hi Hw' Hn. destruct (Hg i w' Hw') as (w & Hw & [E1 E2 E3 E4 _]). rewrite E4 in Hn.
    rewrite E2, E3. by apply (H2 h i w Hi Hw Hn).
  - intros i Hi. apply Hs. by apply H3.
  - intros i w' Hw'. destruct (Hg i w' Hw') as (w & Hw & _). by eapply H4.
  - intros i w' Hw'. destruct (Hg i w' Hw') as (w & Hw & Hsp). eapply same_parts_ok; [done|by apply H5].
  - intros h b Hb. destruct (H7 h b Hb) as [? [?|(j & ? & ?)]]; split; try done; [by left|right]. exists j. split; [done|by apply Hs].
Qed.

(** ** Insertions *)

Definition is_future (bc : BlockChain) (b : FetchedBlk) : Prop := u64 (bc_height bc + 1) < NumberU64 (fb_block b).

(** An insertion removes a block, or meets a future block with the least
    number and stops. *)
Record insert_effect (f : blockFetcher) (bc : BlockChain) (stop : bool) (f' : blockFetcher) : Prop := MkInsert {
  ie_works : bf_works f' = bf_works f \/ exists i w, bf_works f !! i = Some w /\ bf_works f' = <[i := bw_setSent w]> (bf_works f);
  ie_jobs : bf_jobs f' = bf_jobs f;
  ie_sending : bf_sending f' = bf_sending f;
  ie_sig : bf_sig f' = bf_sig f;
  ie_fetching : bf_fetching f' = bf_fetching f;
  ie_next : bf_next f' = bf_next f;
  ie_blocks : exists b, fl_blocks (bf_fetched f) !! blk_hash b = Some b /\
    (forall h c, fl_blocks (bf_fetched f) !! h = Some c -> blk_number b <= blk_number c) /\
    if stop then is_future bc b /\ fl_blocks (bf_fetched f') = fl_blocks (bf_fetched f)
    else fl_blocks (bf_fetched f') = delete (blk_hash b) (fl_blocks (bf_fetched f));
}.

Lemma bw_setSent_inv f i w : bf_inv f -> bf_works f !! i = Some w -> bf_inv (bf_setWork f i (bw_setSent w)).
Proof.
  intros Hi Hw. apply (bf_setWork_inv f i w); [done|done|done|exact (bi_work _ Hi i w Hw)|].
  intros Hf. exact (bi_parts _ Hi _ _ _ Hf Hw).
Qed.

Lemma insertnext_spec f bc now inserted order1 order2 :
  bf_inv f -> fl_blocks (bf_fetched f) <> ∅ ->
  exists stop f', insertnext f bc now inserted order1 order2 = Some (stop, f') /\ bf_inv f' /\ insert_effect f bc stop f'.
Proof.
  intros Hi Hne. unfold insertnext.
  destruct (fl_pop_inv _ (bi_fetched _ Hi) Hne) as (b & fl & -> & Hfl & Hb & Hdel & Hmin). cbn [mbind option_bind].
  assert (bf_inv (bf_setFetched f fl)) as Hi1.
  { apply bf_setFetched_inv; [done|done|]. intros h c. rewrite Hdel. intros [_ ?]%lookup_delete_Some. by left. }
  destruct (bi_blocks _ Hi _ _ Hb) as [Hnb Hlive].
  assert (insert_effect f bc false (bf_setFetched f fl)) as He by (split; cbn; auto; eauto).
  destruct (Z.ltb_spec (u64 (bc_height bc + 1)) (NumberU64 (fb_block b))) as [Hfut|_].
  { destruct (fb_ftime b + FetchedLifeTime <? now); [by eexists _, _|]. eexists true, _. split; [done|].
    assert (fl_blocks (fl_push fl b).2 = fl_blocks (bf_fetched f)) as Epush.
    { unfold fl_push. fold (blk_hash b). rewrite Hdel, lookup_delete_eq. cbn. rewrite insert_delete_eq. by apply insert_id. }
    split.
    - apply (bf_setFetched_inv f); [done|by apply fl_push_inv|]. rewrite Epush. auto.
    - split; cbn; auto. exists b. rewrite Epush. auto. }
  destruct (_ || _); [by eexists _, _|].
  assert (exists propagating ignored g,
    (if fb_pushed b then Some (true, false, bf_setFetched f fl)
     else i ← fb_work b; w ← bf_works (bf_setFetched f fl) !! i;
       if negb (bw_headersent w) then Some (true, false, bf_setWork (bf_setFetched f fl) i (bw_setSent w))
       else Some (false, bool_decide (bc_GetBlockByHash bc (ParentHash (header (fb_block b))) = None), bf_setFetched f fl))
    = Some (propagating, ignored, g) /\ bf_inv g /\ insert_effect f bc false g) as (propagating & ignored & g & -> & Hg & Heg).
  { destruct (fb_pushed b) eqn:Epu; [by eexists _, _, _|]. destruct Hlive as [?|(i & -> & [w Hw])]; [done|]. cbn. rewrite Hw. cbn.
    destruct (negb (bw_headersent w)); [|by eexists _, _, _]. eexists _, _, _. split; [done|]. split; [by apply bw_setSent_inv|].
    destruct He. split; cbn; auto. right. by exists i, w. }
  cbn [mbind option_bind]. destruct ignored; [by eexists _, _|].
  assert (exists c, (if (propagating : bool) && bc_VerifyHeader bc (header (fb_block b)) then
      propagateBlock (bf_ctl g) now order1 (bc_GetTd bc (ParentHash (header (fb_block b))) (u64 (NumberU64 (fb_block b) - 1))) (fb_block b) false
      else Some (bf_ctl g)) = Some c /\ ctl_later (bf_ctl g) c) as (c & -> & Hc).
  { destruct (_ && _); [|by eexists]. apply propagateBlock_later. apply (bi_cacher _ Hg). }
  cbn [mbind option_bind].
  assert (exists c', (if inserted then announceBlock c now order2 (fb_block b) else Some c) = Some c' /\ ctl_later c c') as (c' & -> & Hc').
  { destruct inserted; [|by eexists]. apply announceBlock_later. apply Hc, (bi_cacher _ Hg). }
  cbn [mbind option_bind]. eexists _, _. split; [done|]. split; [apply bf_setCtl_inv; [done|]; by etrans|]. by destruct Heg.
Qed.

Lemma insert_loop_from n f env k0 :
  bf_inv f -> bf_top f = true -> (forall h b, fl_blocks (bf_fetched f) !! h = Some b -> NumberU64 (fb_block b) < 2 ^ 63) ->
  n = size (fl_blocks (bf_fetched f)) ->
  exists f' k, insert_loop (Datatypes.S n) env k0 f = Some f' /\ bf_top f' = false /\ (k <= k0 + n)%nat /\
    fl_blocks (bf_fetched f') ⊆ fl_blocks (bf_fetched f) /\
    (forall h b, fl_blocks (bf_fetched f') !! h = Some b -> is_future (env k).1.1.1.1 b).
Proof.
  revert f k0. induction n as [|n IH]; intros f k0 Hi Ht Hsm En; cbn [insert_loop]; rewrite Ht; cbn [negb];
    destruct (env k0) as [[[[bc now] inserted] order1] order2] eqn:Eenv; unfold bf_insert; rewrite Ht; cbn [negb].
  - assert (fl_blocks (bf_fetched f) = ∅) as He by (by apply map_size_empty_iff).
    unfold fl_empty. rewrite bool_decide_eq_true_2 by done. cbn. eexists _, k0. split; [done|]. cbn. split_and!; [done|lia|done|].
    intros h b. by rewrite He, lookup_empty.
  - assert (fl_blocks (bf_fetched f) <> ∅) as Hne by (intros He; by rewrite He, map_size_empty in En).
    unfold fl_empty. rewrite bool_decide_eq_false_2 by done.
    destruct (insertnext_spec f bc now inserted order1 order2 Hi Hne) as (stop & f1 & -> & Hi1 & He). cbn [mbind option_bind].
    destruct (ie_blocks _ _ _ _ He) as (b & Hb & Hmin & Hst). destruct stop; cbn [negb].
    + destruct Hst as [Hfut Hbl]. eexists _, k0. split; [by destruct n|]. cbn. rewrite Hbl, Eenv. split_and!; [done|lia|done|].
      intros h c Hc. pose proof (Hmin h c Hc) as Hle. pose proof (Hsm _ _ Hb). pose proof (Hsm _ _ Hc). cbn. unfold is_future, blk_number in *.
      assert (forall b, 0 <= NumberU64 b) as Hpos by (intros; apply Z.mod_pos_bound; lia).
      pose proof (Hpos (fb_block b)). pose proof (Hpos (fb_block c)). rewrite !s64_id in Hle by lia. lia.
    + destruct (IH (bf_setTop f1 (bf_sig f1) true) (Datatypes.S k0)) as (f2 & k & E & Ht2 & Hk & Hsub & Hfut).
      * by apply bf_setTop_inv.
      * done.
      * cbn. rewrite Hst. intros h c [_ Hc]%lookup_delete_Some. by eapply Hsm.
      * cbn. rewrite Hst, map_size_delete_Some by (by eexists). lia.
      * exists f2, k. split; [exact E|]. split_and!; [done|lia| |done]. cbn in Hsub. rewrite Hst in Hsub. etrans; [done|]. apply delete_subseteq.
Qed.


(** ** Reachable states *)

(** The steps of the workers, of the handlers that wait on the signal channel
    and of [loop]. *)
Inductive bf_inner (f : blockFetcher) : blockFetcher -> Prop :=
| bn_job bc now k outcome horder aorder porder f' : chain_ok bc ->
    bf_jobDone f bc now k outcome horder aorder porder = Some f' -> bf_inner f f'
| bn_signal k f' : bf_signal f k = Some f' -> bf_inner f f'
| bn_insert bc now inserted order1 order2 f' : bf_insert f bc now inserted order1 order2 = Some f' -> bf_inner f f'
| bn_receive f' : bf_receive f = Some f' -> bf_inner f f'.

(** ... and those of the rest of the node. *)
Inductive bf_step (f : blockFetcher) : blockFetcher -> Prop :=
| bs_inner f' : bf_inner f f' -> bf_step f f'
| bs_announce bc now ann app porder f' : bf_announce f bc now ann app porder = Some f' -> bf_step f f'
| bs_update bc now a it order f' : chain_ok bc -> is_Some (get_peer (bf_ctl f) a) -> bf_update f bc now a it order = Some f' -> bf_step f f'
| bs_removepeer id : bf_step f (bf_removepeer f id)
| bs_controller c : ctl_later (bf_ctl f) c -> bf_step f (bf_setCtl f c).

Definition bf_reachable (f : blockFetcher) : Prop := exists c, manager_inv (c_cacher c) /\ rtc bf_step (newblockFetcher c) f.

Lemma bf_signal_spec f k f' :
  bf_inv f -> bf_signal f k = Some f' ->
  bf_inv f' /\ exists s, bf_sending f !! k = Some s /\ bf_sending f' = delete k (bf_sending f) /\ bf_sig f' = Datatypes.S (bf_sig f) /\
    bf_works f' = bf_works f /\ bf_jobs f' = bf_jobs f /\ bf_top f' = bf_top f /\ bf_fetched f' = bf_fetched f /\ bf_next f' = bf_next f /\
    (forall h, match s with Some i => forall w, bf_works f !! i = Some w -> h <> bw_hash w | None => True end -> bf_fetching f' !! h = bf_fetching f !! h).
Proof.
  intros Hi. unfold bf_signal. destruct (bf_sending f !! k) as [s|] eqn:Ek; [|done]. cbn [mbind option_bind].
  destruct (bf_sig f <? SIGNALS)%nat; [|done].
  assert (bf_inv (bf_setSending f (delete k (bf_sending f)) (Datatypes.S (bf_sig f)))) as Hi1.
  { apply bf_setSending_inv; [done|]. intros i Hin. apply (bi_busy _ Hi). right. rewrite (delete_Permutation _ _ _ Ek). by right. }
  destruct s as [i|].
  - cbn. destruct (bf_works f !! i) as [w|] eqn:Ew; [|done]. cbn. intros [= <-]. split; [by apply bf_removework_inv|].
    exists (Some i). split_and!; try done. intros h Hh. cbn. rewrite lookup_delete_ne; [done|]. intros E. by apply (Hh w).
  - intros [= <-]. split; [done|]. exists None. by split_and!.
Qed.

Lemma bf_insert_spec f bc now inserted order1 order2 :
  bf_inv f -> bf_top f = true -> exists f', bf_insert f bc now inserted order1 order2 = Some f' /\ bf_inv f'.
Proof.
  intros Hi Ht. unfold bf_insert. rewrite Ht. cbn [negb]. unfold fl_empty. case_bool_decide as E.
  - eexists. split; [done|]. by apply bf_setTop_inv.
  - destruct (insertnext_spec f bc now inserted order1 order2 Hi E) as (stop & f1 & -> & Hi1 & _). cbn. eexists. split; [done|].
    by apply bf_setTop_inv.
Qed.

Lemma bf_inner_inv f f' : bf_inv f -> bf_inner f f' -> bf_inv f'.
Proof.
  intros Hi [bc now k outcome horder aorder porder f1 Hc H|k f1 H|bc now inserted order1 order2 f1 H|f1 H].
  - by eapply bf_jobDone_spec.
  - by eapply bf_signal_spec.
  - destruct (bf_top f) eqn:Et; [|unfold bf_insert in H; by rewrite Et in H].
    destruct (bf_insert_spec f bc now inserted order1 order2 Hi Et) as (f2 & E & Hi2). by simplify_eq.
  - unfold bf_receive in H. destruct (bf_top f); [done|]. destruct (bf_sig f); [done|]. simplify_eq. by apply bf_setTop_inv.
Qed.

Lemma bf_step_inv f f' : bf_inv f -> bf_step f f' -> bf_inv f'.
Proof.
  intros Hi [f1 H|bc now ann app porder f1 H|bc now a it order f1 Hc Ha H|id|c Hc].
  - by eapply bf_inner_inv.
  - by eapply bf_announce_inv.
  - by eapply bf_update_inv.
  - by apply bf_removepeer_inv.
  - by apply bf_setCtl_inv.
Qed.

Lemma bf_reachable_inv f : bf_reachable f -> bf_inv f.
Proof.
  intros (c & Hc & H). assert (bf_inv (newblockFetcher c)) as Hi.
  { split; cbn; try done.
    - intros i [Hi|Hi]; by apply not_elem_of_nil in Hi.
    - split; cbn; try done; [intros x Hx; by apply not_elem_of_nil in Hx|apply NoDup_nil_2]. }
  revert Hi. induction H as [|f f1 f2 Hs _ IH]; [done|]. intros Hi. apply IH. by eapply bf_step_inv.
Qed.

(** ** Progress *)

Definition bjob_weight (works : gmap nat blockFetchingWork) (j : nat * bool * PeerRouteInfo) : nat :=
  match works !! j.1.1 with
  | Some w => 1 + (if usehint j.2 then 1 else 0) + bw_unasked w
  | None => 0
  end.

(** The jobs and signals to come, and a bound of all steps. *)
Definition bf_pending (f : blockFetcher) : nat :=
  3 * sum_list_with (bjob_weight (bf_works f)) (bf_jobs f) + 2 * length (bf_sending f) + bf_sig f.

Definition bf_weight (f : blockFetcher) : nat :=
  bf_pending f * (size (fl_blocks (bf_fetched f)) + bf_pending f + 2) + size (fl_blocks (bf_fetched f)) + (if bf_top f then 1 else 0).

Lemma bjob_weight_le works a w w' (l : list (nat * bool * PeerRouteInfo)) :
  works !! a = Some w -> (bw_unasked w' <= bw_unasked w)%nat ->
  (sum_list_with (bjob_weight (<[a := w']> works)) l <= sum_list_with (bjob_weight works) l)%nat.
Proof.
  intros Ha Hw. induction l as [|[[b hd] r] l IH]; cbn; [lia|]. unfold bjob_weight at 1 3. cbn.
  destruct (decide (a = b)) as [<-|Hne]; [rewrite lookup_insert_eq, Ha; lia|rewrite lookup_insert_ne by done; lia].
Qed.

Lemma job_effect_pending f k f' a w w' :
  bf_works f !! a = Some w -> job_effect f k f' a w w' -> (bf_pending f' < bf_pending f)%nat.
Proof.
  intros Hw [E1 E2 E3 (hd & r & Hk & E4) E5 E6 E7 E8 E9]. unfold bf_pending. rewrite E1, E5.
  rewrite (sum_list_with_perm _ _ _ (delete_Permutation _ _ _ Hk)). cbn [sum_list_with].
  assert (bjob_weight (bf_works f) (a, hd, r) = 1 + (if usehint r then 1 else 0) + bw_unasked w)%nat as -> by (unfold bjob_weight; cbn; by rewrite Hw).
  pose proof (bjob_weight_le (bf_works f) a w w' (delete k (bf_jobs f)) Hw E3) as Hle.
  destruct E4 as [[-> [->| ->]]|(r' & -> & -> & Hr' & Hlt)]; rewrite ?length_app; cbn [length]; [lia|lia|].
  rewrite sum_list_with_app. cbn [sum_list_with].
  assert (bjob_weight (<[a := w']> (bf_works f)) (a, hd, r') = 1 + bw_unasked w')%nat as ->; [|lia].
  unfold bjob_weight. cbn. by rewrite lookup_insert_eq, Hr'.
Qed.

(** A step that consumes a job or a signal. *)
Lemma pending_weight f f' :
  (bf_pending f' < bf_pending f)%nat -> (size (fl_blocks (bf_fetched f')) <= Datatypes.S (size (fl_blocks (bf_fetched f))))%nat ->
  (bf_weight f' < bf_weight f)%nat.
Proof.
  unfold bf_weight. generalize (bf_pending f) (bf_pending f') (size (fl_blocks (bf_fetched f))) (size (fl_blocks (bf_fetched f'))).
  intros p p' n n' Hp Hn. assert ((if bf_top f' then 1 else 0) <= 1)%nat as Ht by (destruct (bf_top f'); lia).
  assert (p' * (n' + p' + 2) <= (p - 1) * (n + p + 2))%nat as Hm by (apply Nat.mul_le_mono; lia).
  replace (p * (n + p + 2))%nat with ((p - 1) * (n + p + 2) + (n + p + 2))%nat by nia. lia.
Qed.

Lemma bf_inner_weight f f' : bf_inv f -> bf_inner f f' -> (bf_weight f' < bf_weight f)%nat.
Proof.
  intros Hi [bc now k outcome horder aorder porder f1 Hc H|k f1 H|bc now inserted order1 order2 f1 H|f1 H].
  - destruct (bf_jobDone_spec _ _ _ _ _ _ _ _ _ Hi Hc H) as (_ & a & w & w' & Hw & He).
    apply pending_weight; [by eapply job_effect_pending|apply (je_size _ _ _ _ _ _ He)].
  - destruct (bf_signal_spec _ _ _ Hi H) as (_ & s & Hk & E1 & E2 & E3 & E4 & E5 & E6 & _).
    apply pending_weight; [|rewrite E6; lia]. unfold bf_pending. rewrite E1, E2, E3, E4, length_delete by (by eexists).
    apply lookup_lt_Some in Hk. lia.
  - unfold bf_insert in H. destruct (bf_top f) eqn:Et; [|done]. cbn [negb] in H. unfold fl_empty in H. case_bool_decide as E.
    + simplify_eq. unfold bf_weight, bf_pending. cbn. rewrite Et. lia.
    + destruct (insertnext_spec f bc now inserted order1 order2 Hi E) as (stop & f2 & E' & _ & [W1 W2 W3 W4 W5 W6 (b & Hb & _ & Wb)]).
      rewrite E' in H. cbn in H. simplify_eq.
      assert (bf_pending (bf_setTop f2 (bf_sig f2) (negb stop)) <= bf_pending f)%nat as Hp.
      { unfold bf_pending. cbn. rewrite W2, W3, W4. destruct W1 as [->|(i & w & Hw & ->)]; [lia|].
        pose proof (bjob_weight_le (bf_works f) i w (bw_setSent w) (bf_jobs f) Hw ltac:(done)). lia. }
      unfold bf_weight. set (p := bf_pending (bf_setTop f2 _ _)) in *. clearbody p. cbn [bf_setTop bf_top bf_fetched]. rewrite Et.
      destruct stop; cbn [negb].
      * destruct Wb as [_ ->]. nia.
      * rewrite Wb, map_size_delete_Some by (by eexists).
        assert (size (fl_blocks (bf_fetched f)) <> 0)%nat by (by apply map_size_non_empty_iff). nia.
  - unfold bf_receive in H. destruct (bf_top f); [done|]. destruct (bf_sig f) as [|n] eqn:Es; [done|]. simplify_eq.
    apply pending_weight; [|cbn; lia]. unfold bf_pending. cbn. rewrite Es. lia.
Qed.

Lemma bf_quiescent f :
  bf_inv f -> (forall f', ~ bf_inner f f') ->
  bf_top f = false /\ bf_jobs f = [] /\ bf_sending f = [] /\
  (forall h i, bf_fetching f !! h = Some i -> exists w fb, bf_works f !! i = Some w /\ bw_fblock w = Some fb).
Proof.
  intros Hi Hq. set (bc := MkChain 0 (fun _ _ => None) (fun _ => None) (fun _ _ => None) (fun _ => false)).
  assert (bf_top f = false) as Ht.
  { destruct (bf_top f) eqn:E; [|done]. exfalso. destruct (bf_insert_spec f bc 0 false [] [] Hi E) as (f' & E' & _). by eapply Hq, bn_insert. }
  assert (bf_sig f = 0%nat) as Hs.
  { destruct (bf_sig f) as [|n] eqn:E; [done|]. exfalso. eapply Hq, bn_receive. unfold bf_receive. by rewrite Ht, E. }
  assert (bf_sending f = []) as Hd.
  { destruct (bf_sending f) as [|x l] eqn:E; [done|]. exfalso.
    destruct (bf_signal f 0) as [f'|] eqn:E'; [by eapply Hq, (bn_signal f 0)|]. unfold bf_signal in E'. rewrite E, Hs in E'. cbn in E'.
    destruct x as [j|]; [|done]. destruct (bi_busy _ Hi j) as [w Hw]; [right; rewrite E; by left|]. by rewrite Hw in E'. }
  assert (bf_jobs f = []) as Hj.
  { destruct (bf_jobs f) as [|[[a hd] r] l] eqn:E; [done|]. exfalso.
    destruct (bi_busy _ Hi a) as [w Hw]; [left; rewrite E; by left|].
    assert (bf_jobs f !! 0%nat = Some (a, hd, r)) as Hk by (by rewrite E).
    destruct (refetch_spec f bc 0 a w hd r [] [] Hi ltac:(done) Hk Hw) as (f' & w' & E' & _).
    eapply Hq, (bn_job f bc 0 0 (Err ErrNoObject) [] [] [] f'); [done|]. unfold bf_jobDone. rewrite Hk. cbn [mbind option_bind].
    rewrite Hw. exact E'. }
  split_and!; try done. intros h j Hh. destruct (bi_fetching _ Hi h j Hh) as (w & Hw & _). pose proof (bi_parts _ Hi h j w Hh Hw) as Hp.
  destruct (bw_fblock w) as [fb|] eqn:Efb; [by eexists _, _|]. destruct (Hp Efb) as (P1 & P2 & [P3|P3]); rewrite Hj in *;
    [specialize (P1 P3); by apply not_elem_of_nil in P1|specialize (P2 P3); by apply not_elem_of_nil in P2].
Qed.



(** ** A block that is lost *)

(** The hash [h] is marked as being fetched by a work that no worker has. *)
Definition abandoned (f : blockFetcher) (h : list Z) (i : nat) : Prop :=
  bf_fetching f !! h = Some i /\ forall j w, busy_with f j -> bf_works f !! j = Some w -> bw_hash w <> h.

Lemma abandoned_same f f' h i :
  abandoned f h i -> bf_fetching f' !! h = bf_fetching f !! h -> (forall j, busy_with f' j -> busy_with f j) ->
  (forall j w', bf_works f' !! j = Some w' -> exists w, bf_works f !! j = Some w /\ bw_hash w' = bw_hash w) -> abandoned f' h i.
Proof.
  intros [H1 H2] E1 E2 E3. split; [by rewrite E1|]. intros j w' Hj Hw'. destruct (E3 j w' Hw') as (w & Hw & ->). by eapply H2; [apply E2|].
Qed.

Lemma works_insert_hash f i w w' j v :
  bf_works f !! i = Some w -> bw_hash w' = bw_hash w -> <[i := w']> (bf_works f) !! j = Some v ->
  exists v0, bf_works f !! j = Some v0 /\ bw_hash v = bw_hash v0.
Proof.
  intros Hw Hh. destruct (decide (i = j)) as [<-|Hne]; [rewrite lookup_insert_eq; intros [= <-]; by exists w|].
  rewrite lookup_insert_ne by done. intros Hv. by exists v.
Qed.

Lemma abandoned_inner f f' h i : bf_inv f -> bf_inner f f' -> abandoned f h i -> abandoned f' h i.
Proof.
  intros Hi Hs Ha. pose proof Ha as [Hf Hb]. destruct Hs as [bc now k outcome horder aorder porder f1 Hc H|k f1 H|bc now inserted order1 order2 f1 H|f1 H].
  - destruct (bf_jobDone_spec _ _ _ _ _ _ _ _ _ Hi Hc H) as (_ & a & w & w' & Hw & [E1 E2 _ (hd & r & Hk & Ej) _ _ _ _ Ef]).
    assert (busy_with f a) as Hba.
    { left. apply list_elem_of_fmap. exists (a, hd). split; [done|]. apply list_elem_of_fmap. exists (a, hd, r). split; [done|].
      by eapply list_elem_of_lookup_2. }
    assert (forall j, j ∈ (delete k (bf_jobs f)).*1.*1 -> busy_with f j) as Hdel.
    { intros j Hj. left. rewrite (delete_Permutation _ _ _ Hk). by right. }
    apply (abandoned_same f); [done|apply Ef; intros ->; by eapply Hb| |].
    + intros j [Hj|Hj]; destruct Ej as [[E3 [E4|E4]]|(r' & E3 & E4 & _)]; rewrite ?E3, ?E4, ?fmap_app in *; auto.
      * apply elem_of_app in Hj as [Hj|Hj]; [auto|]. cbn in Hj. by apply list_elem_of_singleton in Hj as ->.
      * by right.
      * apply elem_of_app in Hj as [Hj|Hj]; [by right|]. by apply list_elem_of_singleton in Hj as [= ->].
      * by right.
    + intros j v. rewrite E1. by apply works_insert_hash with w.
  - destruct (bf_signal_spec _ _ _ Hi H) as (_ & s & Hk & E1 & E2 & E3 & E4 & E5 & E6 & E7 & E8). apply (abandoned_same f); [done| | |].
    + apply E8. destruct s as [j|]; [|done]. intros w Hw ->. eapply (Hb j w); [|done|done]. right. by eapply list_elem_of_lookup_2.
    + intros j [Hj|Hj]; [left; by rewrite E4 in Hj|right]. rewrite E1 in Hj. rewrite (delete_Permutation _ _ _ Hk). by right.
    + intros j v. rewrite E3. eauto.
  - unfold bf_insert in H. destruct (bf_top f); [|done]. cbn [negb] in H. unfold fl_empty in H. case_bool_decide as E; [by simplify_eq|].
    destruct (insertnext_spec f bc now inserted order1 order2 Hi E) as (stop & f2 & E' & _ & [W1 W2 W3 W4 W5 W6 _]).
    rewrite E' in H. cbn in H. simplify_eq. apply (abandoned_same f); cbn; [done|by rewrite W5| |].
    + unfold busy_with. cbn. by rewrite W2, W3.
    + intros j v. destruct W1 as [->|(a & w & Hw & ->)]; [eauto|]. by apply works_insert_hash with w.
  - unfold bf_receive in H. destruct (bf_top f); [done|]. destruct (bf_sig f); [done|]. by simplify_eq.
Qed.

Lemma abandoned_announce f bc now ann app porder f' h i :
  bf_inv f -> processAnnouncement f bc now ann app porder = Some f' -> abandoned f h i -> abandoned f' h i.
Proof.
  intros Hi. unfold processAnnouncement. destruct (BlockInfo ann) as [[bhash bnum] nseg] eqn:Einfo.
  destruct (bf_fetching f !! bhash) as [a|] eqn:Ef.
  - unfold announce_known. destruct (bf_works f !! a) as [w|] eqn:Ew; [|done]. cbn [mbind option_bind]. intros H Ha.
    apply (abandoned_same f); [done|..]; destruct ann as [p it|p it].
    1,3,5: destruct (bw_headersent w), (bc_VerifyHeader bc (biHeader it)); cbn in H; simplify_eq; cbn; try done.
    5-7: destruct (get_peer (bf_ctl f) p); [|done]; cbn in H; simplify_eq; cbn; try done.
    all: intros j v; apply works_insert_hash with w; try done.
    5: unfold addAnnouncer; by destruct (bw_announcers w !! _).
    all: match goal with |- bw_hash (buildblock ?x ?y ?z).2 = _ => destruct (buildblock x y z) as [ok v'] eqn:Eb;
      destruct (buildblock_spec _ _ _ _ _ Eb) as (E & _); cbn; rewrite E; unfold addHolder; by destruct (_ !! biHolder it) end.
  - assert (forall a k td n c, SetPeersHead (bf_ctl f) a k td n = Some c -> abandoned f h i -> abandoned (bf_setCtl f c) h i) as Hset by done.
    destruct (bc_GetBlock bc bhash bnum) as [b|].
    { destruct (bc_GetTd _ _ _); [|by intros [= <-]]. destruct (SetPeersHead _ _ _ _ _) eqn:Es; [|done]. intros [= <-]. by eapply Hset. }
    destruct (fl_blocks (bf_fetched f) !! bhash) as [fb|].
    { destruct (SetPeersHead _ _ _ _ _) eqn:Es; [|done]. intros [= <-]. by eapply Hset. }
    destruct (strange bc bnum); [by intros [= <-]|]. intros H [Ha Hb]. assert (bhash <> h) as Hne by congruence.
    assert (exists w jobs c, f' = MkFetcher (<[bf_next f := w]> (bf_works f)) (Datatypes.S (bf_next f)) (<[bhash := bf_next f]> (bf_fetching f))
      (bf_jobs f ++ jobs) (bf_fetched f) (bf_sending f) (bf_sig f) (bf_top f) c /\ bw_hash w = bhash /\ forall x, x ∈ jobs.*1.*1 -> x = bf_next f)
      as (w & jobs & c & -> & Hwh & Hjobs).
    { unfold announce_new in H. rewrite Einfo in H. destruct ann as [p it|p it].
      - simplify_eq. eexists _, _, _. split; [done|]. split; [done|]. cbn. by intros x ->%list_elem_of_singleton.
      - destruct (get_peer (bf_ctl f) p); [|done]. cbn [mbind option_bind] in H. injection H as <-. eexists _, _, _. split; [done|]. split; [done|]. cbn.
        intros x. rewrite !elem_of_cons. intros [->|[->|[]%not_elem_of_nil]]; done. }
    split; cbn; [by rewrite lookup_insert_ne|]. intros j v Hj. destruct (decide (bf_next f = j)) as [<-|Hnj].
    + rewrite lookup_insert_eq. intros [= <-]. congruence.
    + rewrite lookup_insert_ne by done. intros Hv. eapply Hb; [|done]. destruct Hj as [Hj|Hj]; [|by right]. left. cbn in Hj.
      rewrite !fmap_app in Hj. apply elem_of_app in Hj as [?|Hj]; [done|]. by apply Hjobs in Hj.
Qed.

Lemma abandoned_step f f' h i : bf_inv f -> bf_step f f' -> abandoned f h i -> abandoned f' h i.
Proof.
  intros Hi Hs Ha. destruct Hs as [f1 H|bc now ann app porder f1 H|bc now a it order f1 Hc Hal H|id|c Hc].
  - by eapply abandoned_inner.
  - unfold bf_announce in H. destruct (bf_top f); [done|]. destruct (processAnnouncement f bc now ann app porder) as [g|] eqn:E; [|done].
    cbn in H. simplify_eq. pose proof (abandoned_announce _ _ _ _ _ _ _ _ _ Hi E Ha) as [H1 H2]. by split.
  - unfold bf_update, handleFetchedBlock in H. destruct (match bf_fetching f !! _ with Some _ => _ | None => _ end); [|done]. cbn [mbind option_bind] in H.
    destruct (SetPeersHead _ _ _ _ _); [|done]. cbn [mbind option_bind] in H. destruct (strange bc _); cbn [mbind option_bind] in H; simplify_eq;
      apply (abandoned_same f); cbn; eauto. intros j [Hj|Hj]; [by left|]. cbn in Hj. apply elem_of_app in Hj as [?|Hj]; [by right|].
    by apply list_elem_of_singleton in Hj.
  - apply (abandoned_same f); cbn; try done. intros j v. rewrite map_lookup_imap. destruct (bf_works f !! j) as [w|]; [|done]. cbn. intros [= <-].
    exists w. split; [done|]. by case_bool_decide.
  - by destruct Ha.
Qed.
End blockfetcher.

(** ** Runs *)

Definition run_ctl : Controller := set_peers (demo_controller [7] [47; 98] [1] 0 5 5) demo_ps2.
Definition run_chain : BlockChain := MkChain 0 (fun _ _ => None) (fun _ => None) (fun _ _ => None) (fun _ => true).
Definition run_header : Header := demo_header 1.
Definition run_hash : list Z := Header_Hash run_header.

(** Block 1 is announced by its hash; its body arrives; its header is
    announced by another peer; the fetched header arrives. *)
Definition lost_run : option blockFetcher :=
  f ← bf_insert (newblockFetcher run_ctl) run_chain 0 true [] [];
  f ← bf_announce f run_chain 0 (AnnHash 0 (MkHashItem run_hash 1 1)) [] [];
  f ← bf_jobDone f run_chain 0 1 (Ok [0xC2; 0xC0; 0xC0]) [] [] [];
  f ← bf_insert f run_chain 0 true [] [];
  f ← bf_announce f run_chain 0 (AnnHeader 0 (MkHeaderItem run_header 1 [47; 98] 1)) [] [];
  f ← bf_jobDone f run_chain 0 0 (Ok (rlp_bytes (rlp_value (MkFetchedHeader run_header 1)))) [] [] [];
  bf_insert f run_chain 0 true [] [].

Definition lost_state : blockFetcher := Eval vm_compute in match lost_run with Some f => f | None => newblockFetcher run_ctl end.

Lemma lost_run_state : lost_run = Some lost_state.
Proof. vm_compute. reflexivity. Qed.

Lemma run_chain_ok : chain_ok run_chain.
Proof. done. Qed.

Lemma lost_reachable : bf_reachable lost_state.
Proof.
  exists run_ctl. split; [by apply map_Forall_empty|]. pose proof lost_run_state as H. unfold lost_run in H.
  destruct (bf_insert (newblockFetcher run_ctl) run_chain 0 true [] []) as [f1|] eqn:E1; [|done]. cbn [mbind option_bind] in H.
  destruct (bf_announce f1 _ _ _ _ _) as [f2|] eqn:E2; [|done]. cbn [mbind option_bind] in H.
  destruct (bf_jobDone f2 _ _ _ _ _ _ _) as [f3|] eqn:E3; [|done]. cbn [mbind option_bind] in H.
  destruct (bf_insert f3 _ _ _ _ _) as [f4|] eqn:E4; [|done]. cbn [mbind option_bind] in H.
  destruct (bf_announce f4 _ _ _ _ _) as [f5|] eqn:E5; [|done]. cbn [mbind option_bind] in H.
  destruct (bf_jobDone f5 _ _ _ _ _ _ _) as [f6|] eqn:E6; [|done]. cbn [mbind option_bind] in H.
  apply rtc_l with f1; [by eapply bs_inner, bn_insert|]. apply rtc_l with f2; [by eapply bs_announce|].
  apply rtc_l with f3; [by eapply bs_inner, bn_job; [apply run_chain_ok|]|]. apply rtc_l with f4; [by eapply bs_inner, bn_insert|].
  apply rtc_l with f5; [by eapply bs_announce|]. apply rtc_l with f6; [by eapply bs_inner, bn_job; [apply run_chain_ok|]|].
  apply rtc_once. by eapply bs_inner, bn_insert.
Qed.

(** A block can be fetched and lost: when its body arrives before its
    header, and the header is announced in between, the block is complete but
    nobody handles it.  Its hash then stays marked as being fetched, with
    no worker on it, in every continuation of the run, so later announcements of
    the block start no fetch. *)
Theorem block_lost :
  exists w fb, bf_reachable lost_state /\ bf_works lost_state !! 0%nat = Some w /\ bw_fblock w = Some fb /\
    Block_Hash (fb_block fb) = run_hash /\ fl_blocks (bf_fetched lost_state) = ∅ /\
    forall f, rtc bf_step lost_state f -> bf_fetching f !! run_hash = Some 0%nat /\ ~ busy_with f 0.
Proof.
  destruct (bf_works lost_state !! 0%nat) as [w|] eqn:Ew; [|by vm_compute in Ew].
  assert (bw_hash w = run_hash) as Hh by (vm_compute in Ew; injection Ew as <-; vm_compute; reflexivity).
  destruct (bw_fblock w) as [fb|] eqn:Ef; [|vm_compute in Ew; injection Ew as <-; by vm_compute in Ef].
  exists w, fb. split; [apply lost_reachable|]. split; [done|]. split; [done|]. split.
  { vm_compute in Ew. injection Ew as <-. vm_compute in Ef. injection Ef as <-. vm_compute. reflexivity. }
  split; [vm_compute; reflexivity|]. intros f Hr.
  assert (bf_inv lost_state) as Hi by apply (bf_reachable_inv _ lost_reachable).
  assert (abandoned lost_state run_hash 0) as Ha.
  { split; [vm_compute; reflexivity|]. intros j v [Hj|Hj]; vm_compute in Hj; by apply not_elem_of_nil in Hj. }
  assert (bf_inv f /\ abandoned f run_hash 0) as [Hi' [H1 H2]].
  { clear Ew Ef. induction Hr as [|f f1 f2 Hs _ IH]; [done|]. apply IH; [by eapply bf_step_inv|by eapply abandoned_step]. }
  split; [done|]. intros Hb. destruct (bi_fetching _ Hi' _ _ H1) as (v & Hv & Hvh). by eapply H2.
Qed.

(** A pushed block waits in the list of a fresh fetcher. *)
Definition pushed_state : blockFetcher :=
  Eval vm_compute in match bf_update (newblockFetcher run_ctl) run_chain 5 0 (MkFetchedBlock (MkBlock run_header [] []) 9) [] with
                     | Some f => f
                     | None => newblockFetcher run_ctl
                     end.

Lemma pushed_update : bf_update (newblockFetcher run_ctl) run_chain 5 0 (MkFetchedBlock (MkBlock run_header [] []) 9) [] = Some pushed_state.
Proof. vm_compute. reflexivity. Qed.

Lemma run_peer : is_Some (get_peer run_ctl 0).
Proof. destruct (get_peer run_ctl 0) eqn:E; [by eexists|by vm_compute in E]. Qed.

Lemma pushed_reachable : bf_reachable pushed_state.
Proof.
  exists run_ctl. split; [by apply map_Forall_empty|]. apply rtc_once. eapply bs_update; [apply run_chain_ok|apply run_peer|apply pushed_update].
Qed.

Lemma pushed_small h b : fl_blocks (bf_fetched pushed_state) !! h = Some b -> NumberU64 (fb_block b) < 2 ^ 63.
Proof.
  assert (fl_blocks (bf_fetched pushed_state) = {[ run_hash := MkFetchedBlk (MkBlock run_header [] []) 9 5 None true ]}) as ->
    by (vm_compute; reflexivity).
  intros [_ <-]%lookup_singleton_Some. reflexivity.
Qed.


