(* ===== verification/EthDownload.v ===== *)
(** * Downloading blocks ([src/ndn/eth/dworker.go])

    A download work: the goroutine [fetchHeaders] asks the best peer for
    batches of headers, [fetchFullBlocks] submits a job per header, the workers
    fetch the bodies and announce the blocks, [processBlocks] inserts them into
    the chain.  The goroutines interleave in any way; a step is one operation on
    a channel or on the list of downloaded blocks. *)

From S2P Require Import Prelude Bytes Rlp RlpStream RlpTypes Names Fetching EthTypes EthPeer EthHandler EthWire EthData EthSync.
Local Open Scope Z_scope.

Inductive derror := DlNoPeer | DlTooManyTries | DlJobAborted | DlFetch (e : ferror) | DlDecode (e : rerr) | DlInsert | DlInvalidHeader | DlMasterDead.

#[export] Instance derror_aborted_dec (e : derror) : Decision (e = DlJobAborted).
Proof. destruct e; (by left) || (right; done). Defined.

(** ** Fetching one block *)

(** [getFullBlock]: the body of a header from the outcome of its fetch;
    [None] when the pool refused the job. *)
Definition getFullBlock (h : Header) (outcome : option (res ferror (list Z))) : res derror Block :=
  match outcome with
  | None => Err DlJobAborted
  | Some (Err e) => Err (DlFetch e)
  | Some (Ok obj) =>
    match rlp_decode obj with
    | Ok body => Ok (WithBody (NewBlockWithHeader h) (body_txs body) (body_uncles body))
    | Err e => Err (DlDecode e)
    end
  end.

(** [downloadBlockJob.Execute]: [peer] is the answer of [workingPeer],
    [aborted k] whether the job was killed before try [k], [outcome k public]
    the outcome of that try.  [validate] accepts every block. *)
Fixpoint Execute_loop (fuel : nat) (peer : nat -> bool) (aborted : nat -> bool)
  (outcome : nat -> bool -> option (res ferror (list Z))) (h : Header) (numtries : nat) (ispublic : bool)
  : option (res derror Block) :=
  match fuel with
  | O => None
  | S fuel =>
    let numtries := S numtries in
    if (2 <? numtries)%nat then Some (Err DlTooManyTries)
    else if ispublic && negb (peer numtries) then Some (Err DlNoPeer)
    else if aborted numtries then Some (Err DlJobAborted)
    else
      match getFullBlock h (outcome numtries ispublic) with
      | Ok b => Some (Ok b)
      | Err e =>
        if decide (e = DlJobAborted) then Some (Err e)
        else Execute_loop fuel peer aborted outcome h numtries false
      end
  end.

Definition Execute (peer : nat -> bool) (aborted : nat -> bool) (outcome : nat -> bool -> option (res ferror (list Z))) (h : Header)
  : option (res derror Block) := Execute_loop 3 peer aborted outcome h 0 true.

(** ** The downloaded blocks *)

Definition put (fb : gmap Z Block) (b : Block) : gmap Z Block := <[NumberU64 b := b]> fb.

Fixpoint pop_loop (fuel : nat) (fb : gmap Z Block) (bnum : Z) : list Block * gmap Z Block :=
  match fuel with
  | O => ([], fb)
  | S fuel =>
    match fb !! bnum with
    | None => ([], fb)
    | Some b => let '(l, fb) := pop_loop fuel (delete bnum fb) (u64 (bnum + 1)) in (b :: l, fb)
    end
  end.

(** Every round removes a block. *)
Definition pop (fb : gmap Z Block) (bnum : Z) : list Block * gmap Z Block := pop_loop (size fb) fb bnum.

(** ** The work *)

Record dwork := MkWork {
  w_current : Z;             (* [fetchHeaders]: the next number to ask for *)
  w_batch : list Header;     (* fetched headers that are not handed over *)
  w_asking : bool;           (* [fetchHeaders] did not give up *)
  w_jobs : list Header;      (* submitted jobs *)
  w_announcing : list Z;     (* workers between [put] and their signal *)
  w_newblockCh : list Z;
  w_fblocks : gmap Z Block;
  w_bnum : Z;                (* [processBlocks]: the number it waits for *)
  w_abort : bool;
  w_dead : option (option derror);   (* [kill] was called, with this error *)
  w_chain : list Block;      (* what was inserted *)
}.

(** [kill]: the first call counts. *)
Definition kill (w : dwork) (e : option derror) : dwork :=
  match w_dead w with
  | Some _ => w
  | None => MkWork (w_current w) (w_batch w) (w_asking w) (w_jobs w) (w_announcing w) (w_newblockCh w) (w_fblocks w)
      (w_bnum w) (w_abort w) (Some e) (w_chain w)
  end.

(** The goroutines at their start, with nothing to do if the ancestor is the
    last block. *)
Definition start_work (ancestor final : Z) : dwork :=
  let bnum := u64 (ancestor + 1) in
  let w := MkWork bnum [] true [] [] [] ∅ bnum false None [] in
  if final <? bnum then kill w None else w.

(** The number of headers that [fetchHeaders] asks for. *)
Definition batch_count (current final : Z) : Z :=
  if u64 (final + 1) <? u64 (current + MAX_HEADERS_COUNT) then u16 (final - current + 1) else MAX_HEADERS_COUNT.

Definition got_headers (w : dwork) (hs : list Header) : dwork :=
  MkWork (u64 (w_current w + Z.of_nat (length hs))) hs (w_asking w) (w_jobs w) (w_announcing w) (w_newblockCh w) (w_fblocks w)
    (w_bnum w) (w_abort w) (w_dead w) (w_chain w).

(** [fetchHeaders] leaves its loop after the last header, or in the middle of a
    batch when the work was killed. *)
Definition stop_headers (w : dwork) : dwork :=
  MkWork (w_current w) [] false (w_jobs w) (w_announcing w) (w_newblockCh w) (w_fblocks w) (w_bnum w) (w_abort w)
    (w_dead w) (w_chain w).

(** The request failed, or the downloader quits. *)
Definition no_headers (w : dwork) (e : derror) : dwork :=
  kill (stop_headers w) (Some e).

(** A header goes to [fetchFullBlocks]; its job is refused after the end. *)
Definition hand_over (w : dwork) (accepted : bool) : dwork :=
  match w_batch w with
  | [] => w
  | h :: hs =>
    MkWork (w_current w) hs (w_asking w) (if accepted then w_jobs w ++ [h] else w_jobs w) (w_announcing w) (w_newblockCh w)
      (w_fblocks w) (w_bnum w) (w_abort w) (w_dead w) (w_chain w)
  end.

(** [onfetched] for the job of header [k]. *)
Definition onfetched (w : dwork) (k : nat) (r : res derror Block) : dwork :=
  let jobs := delete k (w_jobs w) in
  match r with
  | Err e =>
    kill (MkWork (w_current w) (w_batch w) (w_asking w) jobs (w_announcing w) (w_newblockCh w) (w_fblocks w) (w_bnum w)
      (w_abort w) (w_dead w) (w_chain w)) (Some e)
  | Ok b =>
    MkWork (w_current w) (w_batch w) (w_asking w) jobs (w_announcing w ++ [NumberU64 b]) (w_newblockCh w)
      (put (w_fblocks w) b) (w_bnum w) (w_abort w) (w_dead w) (w_chain w)
  end.

(** A worker sends on the channel, which has room for 64 numbers. *)
Definition announce_block (w : dwork) (k : nat) : option dwork :=
  n ← w_announcing w !! k;
  if (length (w_newblockCh w) <? 64)%nat then
    Some (MkWork (w_current w) (w_batch w) (w_asking w) (w_jobs w) (delete k (w_announcing w)) (w_newblockCh w ++ [n])
      (w_fblocks w) (w_bnum w) (w_abort w) (w_dead w) (w_chain w))
  else None.

(** One round of [processBlocks]; [InsertChain] inserts all blocks, or fails
    after [k] of them when [failed] is [Some k]. *)
Definition process_block (final : Z) (w : dwork) (failed : option nat) : option dwork :=
  match w_newblockCh w with
  | [] => None
  | snum :: ch =>
    let next fb bnum abort chain :=
      MkWork (w_current w) (w_batch w) (w_asking w) (w_jobs w) (w_announcing w) ch fb bnum abort (w_dead w) chain in
    if w_abort w || negb (snum =? w_bnum w) then Some (next (w_fblocks w) (w_bnum w) (w_abort w) (w_chain w))
    else
      let '(blocks, fb) := pop (w_fblocks w) (w_bnum w) in
      Some (match last blocks with
            | None => next fb (w_bnum w) false (w_chain w)
            | Some b =>
              match failed with
              | Some k => kill (next fb (w_bnum w) true (w_chain w ++ take k blocks)) (Some DlInsert)
              | None =>
                if NumberU64 b =? final then kill (next fb (w_bnum w) true (w_chain w ++ blocks)) None
                else next fb (u64 (w_bnum w + Z.of_nat (length blocks))) false (w_chain w ++ blocks)
              end
            end)
  end.

(** ** Lemmas of the operations *)

Lemma getFullBlock_header h o b : getFullBlock h o = Ok b -> header b = h.
Proof. unfold getFullBlock. repeat case_match; try done. by intros [= <-]. Qed.

Lemma Execute_loop_header fuel peer aborted outcome h k ispublic b :
  Execute_loop fuel peer aborted outcome h k ispublic = Some (Ok b) -> header b = h.
Proof.
  revert k ispublic. induction fuel as [|fuel IH]; intros k ispublic; [done|]. cbn [Execute_loop].
  destruct (2 <? S k)%nat; [done|]. destruct (ispublic && _); [done|]. destruct (aborted _); [done|].
  destruct (getFullBlock _ _) as [b'|e] eqn:E; [intros [= <-]; by eapply getFullBlock_header|].
  case_decide; [done|apply IH].
Qed.

(** A job always ends, after at most two tries. *)
Lemma Execute_ends peer aborted outcome h : is_Some (Execute peer aborted outcome h).
Proof.
  assert (forall fuel k ispublic, (3 <= fuel + k)%nat -> (1 <= fuel)%nat -> is_Some (Execute_loop fuel peer aborted outcome h k ispublic)) as H.
  { induction fuel as [|fuel IH]; intros k ispublic Hf Hp; [lia|]. cbn [Execute_loop].
    destruct (2 <? S k)%nat eqn:E; bool_go; [eauto|]. destruct (ispublic && _); [eauto|]. destruct (aborted _); [eauto|].
    destruct (getFullBlock _ _); [eauto|]. case_decide; [eauto|]. apply IH; lia. }
  apply H; lia.
Qed.

Lemma down_pop_loop_spec fuel fb bnum :
  (size fb <= fuel)%nat -> 0 <= bnum -> (forall n b, fb !! n = Some b -> 0 <= n < 2 ^ 63) ->
  let '(l, fb') := pop_loop fuel fb bnum in
  (forall i b, l !! i = Some b -> fb !! (bnum + Z.of_nat i) = Some b) /\
  (forall n, n < bnum \/ bnum + Z.of_nat (length l) <= n -> fb' !! n = fb !! n) /\
  (forall n, bnum <= n < bnum + Z.of_nat (length l) -> fb' !! n = None) /\
  fb !! (bnum + Z.of_nat (length l)) = None.
Proof.
  revert fb bnum. induction fuel as [|fuel IH]; intros fb bnum Hs Hb Hr; cbn [pop_loop].
  { assert (fb = ∅) as -> by (apply map_size_empty_iff; lia). split_and!; try done. }
  destruct (fb !! bnum) as [b|] eqn:E.
  2: { split_and!; [done|done|cbn [length]; lia|]. cbn [length]. by rewrite Z.add_0_r. }
  pose proof (Hr bnum b E) as Hbn. rewrite wrap_id by (unfold fits; lia).
  assert (size fb = S (size (delete bnum fb))) as Hsz.
  { rewrite <- (insert_delete_id fb bnum b E) at 1. apply map_size_insert_None, lookup_delete_eq. }
  specialize (IH (delete bnum fb) (bnum + 1) ltac:(lia) ltac:(lia)). destruct (pop_loop _ _ _) as [l fb'].
  destruct IH as (H1 & H2 & H3 & H4). { intros n c [_ ?]%lookup_delete_Some. by eapply Hr. }
  cbn [length]. split_and!.
  - intros [|i] c Hc; cbn in Hc; [injection Hc as <-; by rewrite Z.add_0_r|].
    specialize (H1 i c Hc). rewrite lookup_delete_ne in H1 by lia. by replace (bnum + Z.of_nat (S i)) with (bnum + 1 + Z.of_nat i) by lia.
  - intros n Hn. rewrite H2 by lia. apply lookup_delete_ne. lia.
  - intros n Hn. destruct (decide (n = bnum)) as [->|Hne]; [rewrite H2 by lia; apply lookup_delete_eq|apply H3; lia].
  - rewrite lookup_delete_ne in H4 by lia. by replace (bnum + Z.of_nat (S (length l))) with (bnum + 1 + Z.of_nat (length l)) by lia.
Qed.

(** ** Interleavings *)

Section download.
  Context (hdr : Z -> Header) (ancestor final : Z).
  Hypothesis (Hrange : 0 <= ancestor < final) (Hfinal : final < 2 ^ 63).
  Hypothesis (Hnum : forall n, ancestor < n <= final -> Number (hdr n) = n).

(** The steps of the goroutines; the batches of the best peer are pieces of
    its chain, everything else may fail at any time. *)
Inductive down_step (w : dwork) : dwork -> Prop :=
| d_headers : w_batch w = [] -> w_asking w = true -> w_current w <= final ->
    down_step w (got_headers w (hdr <$> seqZ (w_current w) (batch_count (w_current w) final)))
| d_no_headers e : w_batch w = [] -> w_asking w = true -> w_current w <= final \/ e = DlJobAborted -> down_step w (no_headers w e)
| d_all_headers : w_batch w = [] -> w_asking w = true -> final < w_current w -> down_step w (stop_headers w)
| d_cancelled : w_batch w <> [] -> w_dead w <> None -> down_step w (stop_headers w)
| d_hand_over : w_batch w <> [] -> down_step w (hand_over w true)
| d_refused : w_batch w <> [] -> w_dead w <> None -> down_step w (hand_over w false)
| d_fetched k h peer aborted outcome r : w_jobs w !! k = Some h -> Execute peer aborted outcome h = Some r ->
    down_step w (onfetched w k r)
| d_announce k w' : announce_block w k = Some w' -> down_step w w'
| d_process failed w' : process_block final w failed = Some w' -> down_step w w'.

Record down_inv (w : dwork) : Prop := MkDownInv {
  di_current : ancestor < w_current w <= final + 1;
  di_headers : forall h, h ∈ w_batch w ++ w_jobs w -> exists n, h = hdr n /\ ancestor < n < w_current w;
  di_blocks : forall n b, w_fblocks w !! n = Some b -> header b = hdr n /\ ancestor < n < w_current w;
  di_chain : header <$> w_chain w = hdr <$> seqZ (ancestor + 1) (Z.of_nat (length (w_chain w)));
  di_bnum : w_abort w = false -> w_bnum w = ancestor + 1 + Z.of_nat (length (w_chain w)) /\ w_bnum w <= final /\ w_dead w <> Some None;
  di_signal : w_abort w = false -> w_fblocks w !! w_bnum w <> None -> w_bnum w ∈ w_newblockCh w ++ w_announcing w;
  di_cover : w_dead w = None -> w_abort w = false /\ (w_asking w = true \/ final < w_current w) /\
    forall n, w_bnum w <= n < w_current w -> hdr n ∈ w_batch w ++ w_jobs w \/ w_fblocks w !! n <> None;
  di_end : w_dead w = Some None -> Z.of_nat (length (w_chain w)) = final - ancestor;
}.

Lemma number_hdr n b : header b = hdr n -> ancestor < n <= final -> NumberU64 b = n.
Proof.
  intros Hb Hn. unfold NumberU64. rewrite Hb, Hnum by done. rewrite Z.abs_eq by lia. apply wrap_id. unfold fits. lia.
Qed.

Lemma start_inv : down_inv (start_work ancestor final).
Proof.
  unfold start_work. rewrite wrap_id by (unfold fits; lia). rewrite (proj2 (Z.ltb_ge _ _)) by lia.
  split; cbn.
  - lia.
  - intros h Hh. by apply not_elem_of_nil in Hh.
  - intros n b Hb. by rewrite lookup_empty in Hb.
  - done.
  - intros _. split_and!; [lia|lia|done].
  - intros _ Hb. by rewrite lookup_empty in Hb.
  - intros _. split_and!; [done|by left|lia].
  - done.
Qed.

Lemma batch_count_ok current :
  ancestor < current <= final -> 1 <= batch_count current final /\ current + batch_count current final <= final + 1.
Proof.
  intros Hc. unfold batch_count, MAX_HEADERS_COUNT. rewrite !(wrap_id 64) by (unfold fits; lia).
  destruct (_ <? _) eqn:E; bool_go; [rewrite wrap_id by (unfold fits; lia)|]; lia.
Qed.

Lemma kill_err_inv w e :
  (w_dead w = None -> down_inv (MkWork (w_current w) (w_batch w) (w_asking w) (w_jobs w) (w_announcing w) (w_newblockCh w)
     (w_fblocks w) (w_bnum w) (w_abort w) (Some (Some e)) (w_chain w))) ->
  (w_dead w <> None -> down_inv w) -> down_inv (kill w (Some e)).
Proof. intros H1 H2. unfold kill. destruct (w_dead w) eqn:E; [by apply H2|by apply H1]. Qed.

Lemma got_headers_inv w :
  down_inv w -> w_batch w = [] -> w_current w <= final ->
  down_inv (got_headers w (hdr <$> seqZ (w_current w) (batch_count (w_current w) final))).
Proof.
  intros [H1 H2 H3 H4 H5 H6 H7 H8] Eb Hc. destruct (batch_count_ok (w_current w)) as [Hb1 Hb2]; [lia|].
  set (c := batch_count (w_current w) final) in *. unfold got_headers. rewrite length_fmap, length_seqZ, Z2Nat.id by lia.
  rewrite wrap_id by (unfold fits; lia). rewrite Eb in *. split; cbn; try done.
  - lia.
  - intros h [Hh|Hh]%elem_of_app.
    + apply list_elem_of_fmap in Hh as (n & -> & Hn). apply elem_of_seqZ in Hn. exists n. split; [done|lia].
    + destruct (H2 h Hh) as (n & -> & Hn). exists n. split; [done|lia].
  - intros n b Hb. destruct (H3 n b Hb). split; [done|lia].
  - intros Hd. destruct (H7 Hd) as (Ha & Hk & Hcov). split_and!; [done|destruct Hk; [by left|right; lia]|]. intros n Hn.
    destruct (decide (n < w_current w)) as [Hlt|Hge].
    + destruct (Hcov n ltac:(lia)) as [Hin|?]; [left|by right]. apply elem_of_app. by right.
    + left. apply elem_of_app. left. apply list_elem_of_fmap. exists n. split; [done|]. apply elem_of_seqZ. lia.
Qed.

Lemma no_headers_inv w e : down_inv w -> w_batch w = [] -> down_inv (no_headers w e).
Proof.
  intros [H1 H2 H3 H4 H5 H6 H7 H8] Eb. rewrite Eb in *. unfold no_headers, stop_headers.
  apply kill_err_inv; cbn; intros Hd; split; cbn; try done.
  intros Ha. destruct (H5 Ha) as (? & ? & _). done.
Qed.

Lemma stop_headers_inv w : down_inv w -> w_dead w <> None \/ w_batch w = [] /\ final < w_current w -> down_inv (stop_headers w).
Proof.
  intros [H1 H2 H3 H4 H5 H6 H7 H8] Hs. split; cbn; try done.
  - intros h Hh. apply H2. set_solver.
  - intros Hd. destruct Hs as [?|[Eb Hc]]; [done|]. destruct (H7 Hd) as (Ha & _ & Hcov). rewrite Eb in Hcov. auto.
Qed.

Lemma hand_over_inv w accepted :
  down_inv w -> w_batch w <> [] -> accepted = true \/ w_dead w <> None -> down_inv (hand_over w accepted).
Proof.
  intros [H1 H2 H3 H4 H5 H6 H7 H8] Eb Hacc. unfold hand_over. destruct (w_batch w) as [|h hs] eqn:E; [done|].
  split; cbn; try done.
  - intros h' Hh. apply H2. destruct accepted; set_solver.
  - intros Hd. destruct Hacc as [->|?]; [|done]. destruct (H7 Hd) as (Ha & Hk & Hcov). split_and!; try done.
    intros n Hn. destruct (Hcov n Hn) as [?|?]; [left; set_solver|by right].
Qed.

Lemma hdr_inj m n : ancestor < m <= final -> ancestor < n <= final -> hdr m = hdr n -> m = n.
Proof. intros Hm Hn E. rewrite <- (Hnum m Hm), <- (Hnum n Hn). by rewrite E. Qed.

Lemma onfetched_inv w k h r :
  down_inv w -> w_jobs w !! k = Some h -> (forall b, r = Ok b -> header b = h) -> down_inv (onfetched w k r).
Proof.
  intros [H1 H2 H3 H4 H5 H6 H7 H8] Hk Hr. pose proof (delete_Permutation _ _ _ Hk) as Hp.
  assert (forall x, x ∈ w_batch w ++ delete k (w_jobs w) -> x ∈ w_batch w ++ w_jobs w) as Hsub.
  { intros x. rewrite !elem_of_app. intros [?|?]; [by left|]. right. rewrite Hp. by right. }
  unfold onfetched. destruct r as [b|e].
  - specialize (Hr b eq_refl). destruct (H2 h) as (n & -> & Hn).
    { apply elem_of_app. right. rewrite Hp. by left. }
    rewrite (number_hdr n b Hr) by lia. unfold put. rewrite (number_hdr n b Hr) by lia. split; cbn; try done.
    + intros h Hh. apply H2. by apply Hsub.
    + intros m c. destruct (decide (m = n)) as [->|Hne]; [rewrite lookup_insert_eq; intros [= <-]; done|].
      rewrite lookup_insert_ne by done. apply H3.
    + intros Ha. destruct (decide (w_bnum w = n)) as [->|Hne]; [set_solver|]. rewrite lookup_insert_ne by done.
      intros Hb. specialize (H6 Ha Hb). set_solver.
    + intros Hd. destruct (H7 Hd) as (Ha & Hk' & Hcov). destruct (H5 Ha) as (_ & Hbn & _). split_and!; try done.
      intros m Hm. destruct (decide (m = n)) as [->|Hne]; [right; by rewrite lookup_insert_eq|].
      rewrite lookup_insert_ne by done. destruct (Hcov m Hm) as [[Hin|Hin]%elem_of_app|?]; [| |by right].
      * left. apply elem_of_app. by left.
      * left. apply elem_of_app. right. rewrite Hp in Hin. apply elem_of_cons in Hin as [E|Hin]; [|done].
        exfalso. apply Hne, (hdr_inj m n); [|lia|done]. destruct (H5 Ha). lia.
  - apply kill_err_inv; cbn; intros Hd; split; cbn; try done; try (intros h' Hh; apply H2; by apply Hsub).
    intros Ha. destruct (H5 Ha) as (? & ? & _). done.
Qed.

Lemma announce_block_inv w k w' : down_inv w -> announce_block w k = Some w' -> down_inv w'.
Proof.
  intros [H1 H2 H3 H4 H5 H6 H7 H8]. unfold announce_block. destruct (w_announcing w !! k) as [n|] eqn:E; [|done]. cbn.
  case_match; [|done]. intros [= <-]. pose proof (delete_Permutation _ _ _ E) as Hp. split; cbn; try done.
  intros Ha Hb. specialize (H6 Ha Hb). rewrite !elem_of_app in *. destruct H6 as [?|Hin]; [by left; left|].
  rewrite Hp in Hin. apply elem_of_cons in Hin as [->|?]; [left; right; set_solver|by right].
Qed.

(** What [processBlocks] takes out extends the chain. *)
Lemma pop_chain w l fb :
  down_inv w -> w_abort w = false -> pop (w_fblocks w) (w_bnum w) = (l, fb) ->
  header <$> (w_chain w ++ l) = hdr <$> seqZ (ancestor + 1) (Z.of_nat (length (w_chain w ++ l))) /\
  (l <> [] -> w_bnum w + Z.of_nat (length l) <= w_current w) /\
  (forall n b, fb !! n = Some b -> w_fblocks w !! n = Some b) /\
  (forall n, w_bnum w + Z.of_nat (length l) <= n -> fb !! n = w_fblocks w !! n) /\
  fb !! (w_bnum w + Z.of_nat (length l)) = None.
Proof.
  intros [H1 H2 H3 H4 H5 H6 H7 H8] Ha Hpop. destruct (H5 Ha) as (Hbn & Hle & _).
  pose proof (down_pop_loop_spec (size (w_fblocks w)) (w_fblocks w) (w_bnum w) ltac:(lia) ltac:(lia)) as Hs.
  unfold pop in Hpop. rewrite Hpop in Hs. destruct Hs as (P1 & P2 & P3 & P4); [intros n b Hb; destruct (H3 n b Hb); lia|].
  split_and!.
  - rewrite fmap_app, length_app, Nat2Z.inj_add, seqZ_app, fmap_app, H4 by lia. f_equal.
    apply list_eq. intros i. rewrite !list_lookup_fmap. destruct (l !! i) as [b|] eqn:Ei.
    + pose proof (lookup_lt_Some _ _ _ Ei). rewrite lookup_seqZ_lt by lia. cbn. f_equal.
      destruct (H3 _ _ (P1 i b Ei)) as [-> _]. f_equal. lia.
    + apply lookup_ge_None in Ei. by rewrite lookup_seqZ_ge by lia.
  - intros Hne. destruct (lookup_lt_is_Some_2 l (length l - 1)) as [b Hb]; [destruct l; [done|cbn; lia]|].
    destruct (H3 _ _ (P1 _ _ Hb)). lia.
  - intros n b Hb. destruct (decide (w_bnum w <= n < w_bnum w + Z.of_nat (length l))) as [Hin|Hout]; [by rewrite P3 in Hb|].
    rewrite <- P2 by lia. done.
  - intros n Hn. apply P2. lia.
  - rewrite P2 by lia. done.
Qed.

Lemma pop_last w l fb b :
  down_inv w -> w_abort w = false -> pop (w_fblocks w) (w_bnum w) = (l, fb) -> last l = Some b ->
  NumberU64 b = w_bnum w + Z.of_nat (length l) - 1.
Proof.
  intros [H1 H2 H3 H4 H5 H6 H7 H8] Ha Hpop Hl. destruct (H5 Ha) as (Hbn & Hle & _).
  pose proof (down_pop_loop_spec (size (w_fblocks w)) (w_fblocks w) (w_bnum w) ltac:(lia) ltac:(lia)) as Hs.
  unfold pop in Hpop. rewrite Hpop in Hs. destruct Hs as (P1 & _); [intros n c Hc; destruct (H3 n c Hc); lia|].
  rewrite last_lookup in Hl. pose proof (lookup_lt_Some _ _ _ Hl). destruct (H3 _ _ (P1 _ _ Hl)) as [Hh Hr].
  rewrite (number_hdr _ b Hh) by lia. lia.
Qed.

Lemma chain_take (c l : list Block) k :
  header <$> (c ++ l) = hdr <$> seqZ (ancestor + 1) (Z.of_nat (length (c ++ l))) ->
  header <$> (c ++ take k l) = hdr <$> seqZ (ancestor + 1) (Z.of_nat (length (c ++ take k l))).
Proof.
  intros H. apply list_eq. intros i. rewrite !list_lookup_fmap. destruct (decide (i < length (c ++ take k l))%nat) as [Hi|Hi].
  - apply (f_equal (.!! i)) in H. rewrite !list_lookup_fmap in H. rewrite length_app, length_take in Hi.
    rewrite lookup_seqZ_lt in H by (rewrite length_app; lia). rewrite lookup_seqZ_lt by (rewrite length_app, length_take; lia).
    rewrite <- H. f_equal. destruct (decide (i < length c)%nat); [by rewrite !lookup_app_l by lia|].
    rewrite !lookup_app_r, lookup_take by lia. by rewrite decide_True by lia.
  - rewrite lookup_seqZ_ge by lia. by rewrite lookup_ge_None_2 by lia.
Qed.

Lemma process_block_inv w failed w' : down_inv w -> process_block final w failed = Some w' -> down_inv w'.
Proof.
  intros Hi. pose proof Hi as [H1 H2 H3 H4 H5 H6 H7 H8]. unfold process_block.
  destruct (w_newblockCh w) as [|snum ch] eqn:Ech; [done|].
  destruct (w_abort w || negb (snum =? w_bnum w)) eqn:Eskip.
  { intros [= <-]. split; cbn; try done. intros Ha Hb. specialize (H6 Ha Hb).
    rewrite Ha in Eskip. cbn in Eskip. bool_go. set_solver. }
  bool_go. subst snum. destruct (pop (w_fblocks w) (w_bnum w)) as [l fb] eqn:Epop.
  match goal with H : w_abort w = false |- _ => rename H into Ea end.
  destruct (pop_chain w l fb Hi Ea Epop) as (P1 & P2 & P3 & P4 & P5).
  pose proof (fun b => pop_last w l fb b Hi Ea Epop) as Plast. destruct (H5 Ea) as (Hbn & Hle & Hnd).
  destruct (last l) as [b|] eqn:El; intros [= <-].
  2: { apply last_None in El as ->. cbn [length] in P5. rewrite Z.add_0_r in P5. split; cbn; try done.
    - intros n c Hc. by apply H3, P3.
    - intros Hd. destruct (H7 Hd) as (_ & Hk & Hcov). split_and!; try done. intros n Hn.
      rewrite P4 by (cbn [length]; lia). by apply Hcov. }
  specialize (Plast b eq_refl). assert (l <> []) as Hne by (by destruct l). specialize (P2 Hne).
  assert (Z.of_nat (length (w_chain w ++ l)) = Z.of_nat (length (w_chain w)) + Z.of_nat (length l)) as Elen by (rewrite length_app; lia).
  destruct failed as [k|]; [|destruct (NumberU64 b =? final) eqn:Efin; bool_go].
  - pose proof (chain_take _ l k P1). apply kill_err_inv; cbn; intros Hd; split; cbn; try done; try (intros n c Hc; by apply H3, P3).
  - unfold kill. cbn. destruct (w_dead w) as [e|] eqn:Ed; split; cbn; try done; try (intros n c Hc; by apply H3, P3).
    intros _. lia.
  - rewrite wrap_id by (unfold fits; lia). split; cbn; try done; try (intros n c Hc; by apply H3, P3).
    + intros _. split_and!; [lia|lia|done].
    + intros Hd. destruct (H7 Hd) as (_ & Hk & Hcov). split_and!; try done. intros n Hn.
      rewrite P4 by lia. apply Hcov. lia.
Qed.

(** Reachable states. *)
Definition down_reachable (w : dwork) : Prop := rtc down_step (start_work ancestor final) w.

Lemma down_step_inv w w' : down_inv w -> down_step w w' -> down_inv w'.
Proof.
  intros Hi [Hb Ha Hc|e Hb Ha Hc|Hb Ha Hc|Hb Hd|Hb|Hb Hd|k h peer aborted outcome r Hk Hr|k v1 H|failed v1 H].
  - by apply got_headers_inv.
  - by apply no_headers_inv.
  - apply stop_headers_inv; auto.
  - apply stop_headers_inv; auto.
  - apply hand_over_inv; auto.
  - apply hand_over_inv; auto.
  - apply (onfetched_inv w k h r Hi Hk). intros b ->. by eapply Execute_loop_header.
  - by eapply announce_block_inv.
  - by eapply process_block_inv.
Qed.

Lemma down_reachable_inv w : down_reachable w -> down_inv w.
Proof.
  intros H. unfold down_reachable in H. pose proof start_inv as Hi. revert Hi. induction H as [|w w1 w2 Hst _ IH]; [done|].
  intros Hi. apply IH. by eapply down_step_inv.
Qed.

(** Blocks enter the chain in the order of the headers of the best peer,
    from the one behind the ancestor, without gaps and without repetition,
    however the goroutines interleave and whatever fails. *)
Theorem download_in_order w :
  down_reachable w -> header <$> w_chain w = hdr <$> seqZ (ancestor + 1) (Z.of_nat (length (w_chain w))).
Proof. intros Hr. apply (di_chain _ (down_reachable_inv w Hr)). Qed.

Definition down_weight (w : dwork) : Z :=
  5 * (final + 1 - w_current w) + (if w_asking w then 1 else 0) + 4 * Z.of_nat (length (w_batch w)) +
  3 * Z.of_nat (length (w_jobs w)) + 2 * Z.of_nat (length (w_announcing w)) + Z.of_nat (length (w_newblockCh w)).

Lemma kill_weight w e : down_weight (kill w e) = down_weight w.
Proof. unfold kill. by destruct (w_dead w). Qed.

Lemma down_step_weight w w' : down_inv w -> down_step w w' -> 0 <= down_weight w' < down_weight w.
Proof.
  intros Hi Hs. pose proof (di_current _ Hi) as Hc.
  destruct Hs as [Hb Ha Hcf|e Hb Ha Hcf|Hb Ha Hcf|Hb Hd|Hb|Hb Hd|k h peer aborted outcome r Hk Hr|k w' H|failed w' H].
  - destruct (batch_count_ok (w_current w)) as [H1 H2]; [lia|]. unfold down_weight, got_headers. cbn.
    rewrite length_fmap, length_seqZ, Hb, wrap_id by (unfold fits; lia). cbn. destruct (w_asking w); lia.
  - unfold no_headers. rewrite kill_weight. unfold down_weight. cbn. rewrite Ha. lia.
  - unfold down_weight. cbn. rewrite Ha, Hb. cbn. lia.
  - unfold down_weight. cbn. destruct (w_batch w); [done|]. cbn. destruct (w_asking w); lia.
  - unfold hand_over. destruct (w_batch w) eqn:E; [done|]. unfold down_weight. cbn. rewrite E, length_app. cbn. destruct (w_asking w); lia.
  - unfold hand_over. destruct (w_batch w) eqn:E; [done|]. unfold down_weight. cbn. rewrite E. cbn. destruct (w_asking w); lia.
  - pose proof (delete_Permutation _ _ _ Hk) as Hp%Permutation_length. cbn in Hp.
    unfold onfetched. destruct r; [|rewrite kill_weight]; unfold down_weight; cbn; rewrite ?length_app; cbn; destruct (w_asking w); lia.
  - unfold announce_block in H. destruct (w_announcing w !! k) as [n|] eqn:E; [|done]. cbn in H. case_match; [|done].
    injection H as <-. pose proof (delete_Permutation _ _ _ E) as Hp%Permutation_length. cbn in Hp.
    unfold down_weight. cbn. rewrite length_app. cbn. destruct (w_asking w); lia.
  - unfold process_block in H. destruct (w_newblockCh w) as [|snum ch] eqn:E; [done|]. case_match; [injection H as <-|].
    + unfold down_weight. cbn. rewrite E. cbn. destruct (w_asking w); lia.
    + destruct (pop _ _) as [l fb]. injection H as <-. 
      destruct (last l) as [b|]; [destruct failed as [n|]; [|destruct (NumberU64 b =? final)]|]; rewrite ?kill_weight; unfold down_weight; cbn;
        rewrite E; cbn; destruct (w_asking w); lia.
Qed.

Lemma down_steps_bound k w w' : down_inv w -> nsteps down_step k w w' -> Z.of_nat k <= down_weight w.
Proof.
  intros Hi H. revert Hi. induction H as [w|k w w1 w2 Hs Hn IH]; intros Hi.
  - unfold down_weight. pose proof (di_current _ Hi). destruct (w_asking w); lia.
  - destruct (down_step_weight w w1 Hi Hs) as [_ Hw]. specialize (IH (down_step_inv w w1 Hi Hs)). lia.
Qed.

(** Where no goroutine can go on, the work was closed: no signal of a
    downloaded block is lost. *)
Lemma down_stuck_end w :
  down_inv w -> (forall w', ~ down_step w w') ->
  (exists e, w_dead w = Some (Some e)) \/ w_dead w = Some None /\ header <$> w_chain w = hdr <$> seqZ (ancestor + 1) (final - ancestor).
Proof.
  intros Hi Hstuck. pose proof Hi as [H1 H2 H3 H4 H5 H6 H7 H8].
  destruct (w_dead w) as [[e|]|] eqn:Ed; [left; eauto|right; split; [done|]; rewrite <- H8 by done; exact H4|exfalso].
  destruct (H7 eq_refl) as (Ha & Hk & Hcov). destruct (H5 Ha) as (Hbn & Hle & _).
  destruct (w_batch w) as [|h hs] eqn:Eb; [|apply (Hstuck (hand_over w true)); constructor; by rewrite Eb].
  destruct (decide (w_current w <= final)) as [Hc|Hc]; [destruct Hk as [Hk|]; [by eapply Hstuck, d_headers|lia]|].
  destruct (w_newblockCh w) as [|snum ch] eqn:Ech.
  2: { destruct (process_block final w None) as [w'|] eqn:E; [by eapply Hstuck, d_process|].
    unfold process_block in E. rewrite Ech in E. case_match; [done|]. by destruct (pop _ _). }
  destruct (w_announcing w) as [|n ns] eqn:Ean.
  2: { apply (Hstuck (MkWork (w_current w) (w_batch w) (w_asking w) (w_jobs w) (delete 0%nat (w_announcing w)) (w_newblockCh w ++ [n])
      (w_fblocks w) (w_bnum w) (w_abort w) (w_dead w) (w_chain w))). apply (d_announce w 0). unfold announce_block. rewrite Ean, Ech. done. }
  destruct (w_jobs w) as [|h hs] eqn:Ej.
  2: { destruct (Execute_ends (fun _ => false) (fun _ => false) (fun _ _ => None) h) as [r Hex].
    eapply Hstuck, (d_fetched w 0 h); [by rewrite Ej|exact Hex]. }
  destruct (Hcov (w_bnum w) ltac:(lia)) as [Hin|Hb]; [by apply not_elem_of_nil in Hin|].
  specialize (H6 Ha Hb). by apply not_elem_of_nil in H6.
Qed.

Lemma down_start_bound k w : nsteps down_step k (start_work ancestor final) w -> Z.of_nat k <= 5 * (final - ancestor) + 1.
Proof.
  intros Hk. pose proof (down_steps_bound k _ _ start_inv Hk) as Hb. unfold start_work, down_weight in Hb.
  rewrite wrap_id in Hb by (unfold fits; lia). rewrite (proj2 (Z.ltb_ge _ _)) in Hb by lia. cbn in Hb. lia.
Qed.

End download.

(** ** Witnesses *)

Definition tiny_header (n : Z) : Header := MkHeader [] [] [] [] [] [] [] 0 n 0 0 0 [] [] [].
Definition tiny_block (n : Z) : Block := MkBlock (tiny_header n) [] [].

Lemma tiny_execute n :
  Execute (fun _ => true) (fun _ => false) (fun _ _ => Some (Ok [0xC2; 0xC0; 0xC0])) (tiny_header n) = Some (Ok (tiny_block n)).
Proof. reflexivity. Qed.

(** Blocks 2 and 3 behind block 1; block 3 arrives first. *)
Definition demo_fetched : dwork :=
  Eval vm_compute in
  onfetched (onfetched (hand_over (hand_over (got_headers (start_work 1 3) (tiny_header <$> [2; 3])) true) true) 1
    (Ok (tiny_block 3))) 0 (Ok (tiny_block 2)).

Definition demo_work : dwork :=
  Eval vm_compute in
  match (w ← announce_block demo_fetched 0; w ← announce_block w 0; w ← process_block 3 w None; process_block 3 w None) with
  | Some w => w
  | None => demo_fetched
  end.

Lemma demo_fetched_reachable : down_reachable tiny_header 1 3 demo_fetched.
Proof.
  unfold down_reachable. eapply rtc_l; [apply d_headers; vm_compute; (done || discriminate)|]. vm_compute (got_headers _ _).
  eapply rtc_l; [by apply d_hand_over|]. vm_compute (hand_over _ _).
  eapply rtc_l; [by apply d_hand_over|]. vm_compute (hand_over _ _).
  eapply rtc_l; [apply (d_fetched _ _ _ 1 (tiny_header 3)) with (2 := tiny_execute 3); reflexivity|]. vm_compute (onfetched _ _ _).
  eapply rtc_l; [apply (d_fetched _ _ _ 0 (tiny_header 2)) with (2 := tiny_execute 2); reflexivity|].
  vm_compute. apply rtc_refl.
Qed.

Lemma down_demo_reachable : down_reachable tiny_header 1 3 demo_work.
Proof.
  unfold down_reachable; etrans; [exact demo_fetched_reachable|].
  eapply rtc_l; [apply (d_announce _ _ _ 0); vm_compute; reflexivity|].
  eapply rtc_l; [apply (d_announce _ _ _ 0); vm_compute; reflexivity|].
  eapply rtc_l; [apply (d_process _ _ _ None); vm_compute; reflexivity|].
  eapply rtc_l; [apply (d_process _ _ _ None); vm_compute; reflexivity|].
  apply rtc_refl.
Qed.

Lemma download_in_order_witness :
  header <$> w_chain demo_work = tiny_header <$> seqZ (1 + 1) (Z.of_nat (length (w_chain demo_work))).
Proof. apply (download_in_order tiny_header 1 3); [lia|lia|done|apply down_demo_reachable]. Defined.

