(* ===== verification/EthSyncer.v ===== *)
(** * Synchronising the chain ([src/ndn/eth/syncer.go], [downloader.go])

    [synchronise] composes the parts of a download: the head of the best peer,
    the common ancestor and the download of the blocks behind it.  The syncer
    is a loop that starts it, at most once at a time, when a peer has a chain
    of more difficulty. *)

From S2P Require Import Prelude Bytes Rlp RlpStream RlpTypes KadId Names Cacher Fetching KadRpc.
From S2P Require Import EthTypes EthPush EthPeer EthHandler EthWire EthData EthSync EthDownload.
Local Open Scope Z_scope.

(** ** One synchronisation *)

(** [getHeader]: the outcome of the fetch, [None] when the pool was stopped. *)
Definition getHeader (outcome : option (res ferror (list Z))) : res derror Header :=
  match outcome with
  | None => Err DlJobAborted
  | Some (Err e) => Err (DlFetch e)
  | Some (Ok obj) => match rlp_decode (A := FetchedHeader) obj with Ok fh => Ok (fhHeader fh) | Err e => Err (DlDecode e) end
  end.

Section synchronise.
  Context {L : NdnLib}.

Definition fetchHeight (hash : list Z) (outcome : option (res ferror (list Z))) : res derror Header :=
  match getHeader outcome with
  | Ok h => if bool_decide (Header_Hash h = hash) then Ok h else Err DlInvalidHeader
  | Err e => Err e
  end.

(** A step of the goroutines, or [onPeerQuit] for the master. *)
Inductive sync_step (hdr : Z -> Header) (num : Z) (w : dwork) : dwork -> Prop :=
| sync_goroutine w' : down_step hdr num w w' -> sync_step hdr num w w'
| sync_master_quit : w_dead w = None -> sync_step hdr num w (kill w (Some DlMasterDead)).

Inductive sync_error (E : Type) := SeHeight (e : derror) | SeAncestor (e : E) | SeDownload (e : derror).
Arguments SeHeight {E} e.
Arguments SeAncestor {E} e.
Arguments SeDownload {E} e.

(** [synchronise] to block [num] with hash [hash] of a peer whose chain is
    [hdr]: its result, whether the peer is dropped, and the inserted blocks.
    The goroutines of the download run until none of them can go on. *)
Inductive synchronise {E} (has : list Z -> Z -> bool) (ask : nat -> Z -> Z -> Z -> res E (list Header)) (hdr : Z -> Header)
  (fuel : nat) (localh num : Z) (hash : list Z) (outcome : option (res ferror (list Z)))
  : option (sync_error E) -> bool -> list Block -> Prop :=
| sync_no_height e : fetchHeight hash outcome = Err e ->
    synchronise has ask hdr fuel localh num hash outcome (Some (SeHeight e)) true []
| sync_no_ancestor h e : fetchHeight hash outcome = Ok h -> findAncestor has ask fuel localh = Some (Err e) ->
    synchronise has ask hdr fuel localh num hash outcome (Some (SeAncestor e)) false []
| sync_download h a w err : fetchHeight hash outcome = Ok h -> findAncestor has ask fuel localh = Some (Ok a) ->
    rtc (sync_step hdr num) (start_work a num) w -> (forall w', ~ down_step hdr num w w') -> w_dead w = Some err ->
    synchronise has ask hdr fuel localh num hash outcome (SeDownload <$> err) false (w_chain w).
End synchronise.

(** A killed work stays killed. *)
Lemma down_step_dead hdr final w w' : down_step hdr final w w' -> w_dead w <> None -> w_dead w' <> None.
Proof.
  assert (forall w e, w_dead (kill w e) <> None) as Hk by (intros w0 e; unfold kill; by destruct (w_dead w0) eqn:E; [rewrite E|]).
  intros [| | | | | |k h p ab o r|k w1 H|failed w1 H] Hd; try done.
  - apply Hk.
  - unfold hand_over. by destruct (w_batch w).
  - unfold hand_over. by destruct (w_batch w).
  - unfold onfetched. destruct r; [done|apply Hk].
  - unfold announce_block in H. destruct (w_announcing w !! k); [|done]. cbn in H. case_match; [|done]. by injection H as <-.
  - unfold process_block in H. destruct (w_newblockCh w); [done|]. case_match; [by injection H as <-|]. destruct (pop _ _) as [blocks fb].
    injection H as <-. destruct (last blocks); [|done]. destruct failed; [apply Hk|]. case_match; [apply Hk|done].
Qed.

Section end_to_end.
  Context {L : NdnLib} (has : list Z -> Z -> bool) (v : ChainView) (localh a num : Z).

(** The best peer: its blocks are there up to [num] and carry their numbers,
    and its chain parts from the local one behind block [a]. *)
Record good_peer : Prop := MkGood {
  gp_fork : forked has v localh a;
  gp_longer : localh <= num < 2 ^ 63;
  gp_new : a < num;
  gp_blocks : forall n, 1 <= n <= num -> exists b, GetBlockByNumber v n = Some b /\ Number (header b) = n;
}.
Hypothesis (Hg : good_peer).

Lemma gp_numbers n : a < n <= num -> Number (block_at v n) = n.
Proof.
  intros Hn. destruct (fk_range _ _ _ _ (gp_fork Hg)) as [Ha _]. destruct (gp_blocks Hg n) as (b & Hb & Hnum); [lia|].
  unfold block_at. by rewrite Hb.
Qed.

Lemma gp_range : 0 <= a < num.
Proof. destruct (fk_range _ _ _ _ (gp_fork Hg)). pose proof (gp_new Hg). lia. Qed.

(** The batches that the download takes from the chain of the peer are those
    that the peer serves. *)
Lemma batch_served current :
  a < current <= num ->
  served v current (batch_count current num) 0 = Ok (block_at v <$> seqZ current (batch_count current num)).
Proof.
  intros Hc. pose proof gp_range. pose proof (gp_longer Hg).
  assert (batch_count current num <= 15).
  { unfold batch_count, MAX_HEADERS_COUNT. rewrite !(wrap_id 64) by (unfold fits; lia).
    destruct (_ <? _) eqn:E; bool_go; [rewrite wrap_id by (unfold fits; lia)|]; lia. }
  destruct (batch_count_ok a num ltac:(lia) ltac:(lia) current Hc) as [Hb Hb'].
  rewrite (served_batch v num) by first [lia | (intros n Hn; destruct (gp_blocks Hg n Hn) as (b & -> & _); eauto)].
  f_equal. unfold batch_at, seqZ. rewrite <- list_fmap_compose. apply list_fmap_ext. intros i x _. cbn. f_equal. lia.
Qed.

Lemma sync_step_inv w w' : down_inv (block_at v) a num w -> sync_step (block_at v) num w w' -> down_inv (block_at v) a num w'.
Proof.
  intros Hi [Hs|Hd]; [eapply down_step_inv; [apply gp_range|apply gp_longer, Hg|apply gp_numbers|done|done]|].
  destruct Hi as [H1 H2 H3 H4 H5 H6 H7 H8]. apply kill_err_inv; [|done]. intros _. split; cbn; try done.
  intros Ha. by destruct (H5 Ha) as (? & ? & _).
Qed.

Lemma sync_reachable_inv w : rtc (sync_step (block_at v) num) (start_work a num) w -> down_inv (block_at v) a num w.
Proof.
  intros H. pose proof (start_inv (block_at v) a num gp_range (proj2 (gp_longer Hg))) as Hi. revert Hi.
  induction H as [|w w1 w2 Hst _ IH]; [done|]. intros Hi. apply IH. by eapply sync_step_inv.
Qed.
Definition sync_weight (w : dwork) : Z := down_weight num w + match w_dead w with None => 1 | Some _ => 0 end.

Lemma sync_steps_bound k w w' :
  down_inv (block_at v) a num w -> nsteps (sync_step (block_at v) num) k w w' -> Z.of_nat k <= sync_weight w.
Proof.
  intros Hi H. revert Hi. induction H as [w|k w w1 w2 Hs Hn IH]; intros Hi.
  { pose proof (down_steps_bound (block_at v) a num gp_range (proj2 (gp_longer Hg)) gp_numbers 0 w w Hi (nsteps_O _ _)).
    unfold sync_weight. destruct (w_dead w); lia. }
  specialize (IH (sync_step_inv w w1 Hi Hs)). unfold sync_weight in *. destruct Hs as [w1 Hs|Hd].
  - destruct (down_step_weight (block_at v) a num gp_range (proj2 (gp_longer Hg)) w w1 Hi Hs) as [_ Hw].
    pose proof (down_step_dead _ _ w w1 Hs) as Hd. destruct (w_dead w), (w_dead w1); try lia. by destruct Hd.
  - rewrite kill_weight in IH. unfold kill in IH. rewrite Hd in *. cbn in IH. lia.
Qed.

(** C6. Synchronising with an honest peer whose chain is at least as long as
    the local one, although any request, job or insertion may fail and the peer
    may leave at any time.  The search for the ancestor ends; the download
    makes a bounded number of steps, asks for batches that the peer serves and
    stops only when the work was closed; and what enters the chain are the
    blocks of the peer behind the last common one, in order and without gaps,
    up to its head when no error is returned. *)
Theorem synchronise_end_to_end ask fuel hash outcome :
  (forall k from count skip, ask k from count skip = Err () \/ ask k from count skip = served v from count skip) ->
  (Z.to_nat localh <= fuel)%nat ->
  findAncestor has ask fuel localh <> None /\
  (forall k w, nsteps (sync_step (block_at v) num) k (start_work a num) w -> Z.of_nat k <= 5 * (num - a) + 2) /\
  (forall current, a < current <= num ->
    served v current (batch_count current num) 0 = Ok (block_at v <$> seqZ current (batch_count current num))) /\
  (forall w, rtc (sync_step (block_at v) num) (start_work a num) w -> (forall w', ~ down_step (block_at v) num w w') -> w_dead w <> None) /\
  (forall err dropped chain, synchronise has ask (block_at v) fuel localh num hash outcome err dropped chain ->
    header <$> chain = block_at v <$> seqZ (a + 1) (Z.of_nat (length chain)) /\
    (err = None -> Z.of_nat (length chain) = num - a)).
Proof.
  intros Hask Hfuel. pose proof (findAncestor_ok has v localh a (gp_fork Hg) ask Hask fuel Hfuel) as Hf.
  pose proof gp_range as Hr. pose proof (proj2 (gp_longer Hg)) as Hl. split_and!.
  - by destruct Hf as [-> |[-> _]].
  - intros k w Hk. pose proof (sync_steps_bound k _ _ (start_inv (block_at v) a num Hr Hl) Hk) as Hb.
    unfold sync_weight, start_work, down_weight in Hb. rewrite wrap_id in Hb by (unfold fits; lia).
    rewrite (proj2 (Z.ltb_ge _ _)) in Hb by lia. cbn in Hb. lia.
  - apply batch_served.
  - intros w Hw Hs. by destruct (down_stuck_end _ _ _ w (sync_reachable_inv w Hw) Hs) as [[e ->]|[-> _]].
  - intros err dropped chain [e He|h e He Ha|h a' w err' He Ha Hw Hs Hd]; [done|done|].
    assert (a' = a) as -> by (destruct Hf as [Hf|[Hf _]]; rewrite Hf in Ha; congruence).
    pose proof (sync_reachable_inv w Hw) as Hi. split; [apply (di_chain _ _ _ _ Hi)|].
    destruct err' as [e|]; [done|]. intros _. by apply (di_end _ _ _ _ Hi).
Qed.
End end_to_end.

(** ** A run *)

(** The peer has three blocks, the local chain two, of which one is shared. *)
Definition fork_has (_ : list Z) (n : Z) : bool := n <=? 1.
Definition fork_hdr : Z -> Header := block_at (plain_view 3).
Definition fork_block (n : Z) : Block := MkBlock (demo_header n) [] [].
Definition fork_head : option (res ferror (list Z)) := Ok <$> rlp_encode (MkFetchedHeader (demo_header 3) 12).

Definition fork_fetched : dwork :=
  Eval vm_compute in
  stop_headers (onfetched (onfetched (hand_over (hand_over (got_headers (start_work 1 3) (fork_hdr <$> [2; 3])) true) true) 1
    (Ok (fork_block 3))) 0 (Ok (fork_block 2))).

Definition fork_work : dwork :=
  Eval vm_compute in
  match (w ← announce_block fork_fetched 0; w ← announce_block w 0; w ← process_block 3 w None; process_block 3 w None) with
  | Some w => w
  | None => fork_fetched
  end.

Lemma fork_execute n h : h = demo_header n ->
  Execute (fun _ => true) (fun _ => false) (fun _ _ => Some (Ok [0xC2; 0xC0; 0xC0])) h = Some (Ok (fork_block n)).
Proof. intros ->. reflexivity. Qed.

Lemma fork_fetched_reachable : rtc (sync_step fork_hdr 3) (start_work 1 3) fork_fetched.
Proof.
  eapply rtc_l; [apply sync_goroutine, d_headers; vm_compute; (done || discriminate)|]. vm_compute (got_headers _ _).
  eapply rtc_l; [by apply sync_goroutine, d_hand_over|]. vm_compute (hand_over _ _).
  eapply rtc_l; [by apply sync_goroutine, d_hand_over|]. vm_compute (hand_over _ _).
  eapply rtc_l; [apply sync_goroutine, (d_fetched _ _ _ 1 (demo_header 3)) with (2 := fork_execute 3 _ eq_refl); reflexivity|].
  vm_compute (onfetched _ _ _).
  eapply rtc_l; [apply sync_goroutine, (d_fetched _ _ _ 0 (demo_header 2)) with (2 := fork_execute 2 _ eq_refl); reflexivity|].
  vm_compute (onfetched _ _ _).
  eapply rtc_l; [by apply sync_goroutine, d_all_headers|]. apply rtc_refl.
Qed.

Lemma fork_reachable : rtc (sync_step fork_hdr 3) (start_work 1 3) fork_work.
Proof.
  etrans; [exact fork_fetched_reachable|].
  eapply rtc_l; [apply sync_goroutine, (d_announce _ _ _ 0); vm_compute; reflexivity|].
  eapply rtc_l; [apply sync_goroutine, (d_announce _ _ _ 0); vm_compute; reflexivity|].
  eapply rtc_l; [apply sync_goroutine, (d_process _ _ _ None); vm_compute; reflexivity|].
  eapply rtc_l; [apply sync_goroutine, (d_process _ _ _ None); vm_compute; reflexivity|].
  apply rtc_refl.
Qed.

Lemma fork_stuck w' : ~ down_step fork_hdr 3 fork_work w'.
Proof. intros H. inversion H; try discriminate; done. Qed.

Lemma fork_synchronise :
  synchronise fork_has (fun _ => served (plain_view 3)) fork_hdr 2 2 3 (Header_Hash (demo_header 3)) fork_head None false
    [fork_block 2; fork_block 3].
Proof.
  apply (sync_download fork_has (fun _ => served (plain_view 3)) fork_hdr 2 2 3 _ fork_head (demo_header 3) 1 fork_work None);
    [vm_compute; reflexivity|vm_compute; reflexivity|exact fork_reachable|exact fork_stuck|reflexivity].
Qed.

Lemma fork_good : good_peer fork_has (plain_view 3) 2 1 3.
Proof.
  assert (forall n, 1 <= n <= 3 -> exists b, GetBlockByNumber (plain_view 3) n = Some b /\ Number (header b) = n) as Hb.
  { intros n Hn. exists (NewBlockWithHeader (demo_header n)). split; [|done]. cbn [plain_view GetBlockByNumber].
    by rewrite !(proj2 (Z.leb_le _ _)) by lia. }
  split; [|lia|lia|done]. split; [lia|lia|intros n Hn; apply Hb; lia|done].
Qed.

Lemma synchronise_end_to_end_witness :
  header <$> [fork_block 2; fork_block 3] = fork_hdr <$> seqZ (1 + 1) 2 /\ Z.of_nat (length [fork_block 2; fork_block 3]) = 3 - 1.
Proof.
  destruct (synchronise_end_to_end fork_has (plain_view 3) 2 1 3 fork_good (fun _ => served (plain_view 3)) 2
    (Header_Hash (demo_header 3)) fork_head) as (_ & _ & _ & _ & H); [by right|vm_compute; lia|].
  destruct (H None false _ fork_synchronise) as [H1 H2]. split; [exact H1|apply H2; reflexivity].
Defined.

(** ** The syncer *)

Record syncop := MkOp { op_p : nat; op_num : Z; op_head : list Z; op_td : Z }.

(** The goroutine of [startsync]: not scheduled yet, inside [synchronise],
    behind it (in [oncompleted]), the result in its channel, and received. *)
Inductive sync_phase := SyCreated | SySyncing | SyReturned | SyDone | SyReceived.

(** The loop: before [nextop], at the [select], inside [terminate], left. *)
Inductive sync_loop := LpTop | LpSelect | LpTerminate | LpExit.

(** The channel of a sync is its index in [cs_syncs], where a sync is kept
    with the total difficulty of the local chain when it was started. *)
Record chainsyncer := MkSyncer {
  cs_stopping : bool;         (* [stop] holds the mutex and sends on [quit] *)
  cs_dead : bool;             (* its signal was received *)
  cs_doneCh : option nat;
  cs_event : bool;            (* the slot of [peerEventCh] *)
  cs_forced : bool;
  cs_killed : bool;
  cs_loop : sync_loop;
  cs_syncs : list (syncop * Z * sync_phase);
  cs_peers : gmap (list Z) nat;   (* the peers of the downloader *)
}.

(** [newchainsyncer] and [start], which the controller calls once. *)
Definition cs_start : chainsyncer := MkSyncer false false None false false false LpTop [] ∅.

Definition nextop (doneCh : option nat) (ps : peerSet) (order : list nat) (td : Z) (forced : bool) : option syncop :=
  match doneCh with
  | Some _ => None
  | None =>
    if (Len ps <? (if forced then 1 else 3))%nat then None
    else
      match bestPeer ps order with
      | None => None
      | Some best =>
        match ps_store ps !! best with
        | None => None
        | Some p => if p_td p <=? td then None else Some (MkOp best (p_bnum p) (p_head p) (p_td p))
        end
      end
  end.

Definition startsync (s : chainsyncer) (op : syncop) (td : Z) : chainsyncer :=
  MkSyncer (cs_stopping s) (cs_dead s) (Some (length (cs_syncs s))) (cs_event s) (cs_forced s) (cs_killed s) (cs_loop s)
    (cs_syncs s ++ [(op, td, SyCreated)]) (cs_peers s).

Definition set_loop (s : chainsyncer) (forced killed : bool) (l : sync_loop) : chainsyncer :=
  MkSyncer (cs_stopping s) (cs_dead s) (cs_doneCh s) (cs_event s) forced killed l (cs_syncs s) (cs_peers s).

(** The head of the loop. *)
Definition loop_next (s : chainsyncer) (ps : peerSet) (order : list nat) (td : Z) : option chainsyncer :=
  match cs_loop s with
  | LpTop =>
    let s := match nextop (cs_doneCh s) ps order td (cs_forced s) with Some op => startsync s op td | None => s end in
    Some (set_loop s (cs_forced s) (cs_killed s) LpSelect)
  | _ => None
  end.

Inductive sync_event := EvPeer | EvDone | EvTimer | EvQuit.

(** The [select]; nobody sends on [peerQuitCh].  [None]: the case is not
    ready.  The last case goes on in [terminate]. *)
Definition loop_select (s : chainsyncer) (ev : sync_event) : option chainsyncer :=
  match cs_loop s with
  | LpSelect =>
    match ev with
    | EvPeer =>
      if cs_event s then
        Some (MkSyncer (cs_stopping s) (cs_dead s) (cs_doneCh s) false (cs_forced s) (cs_killed s) LpTop (cs_syncs s) (cs_peers s))
      else None
    | EvDone =>
      k ← cs_doneCh s;
      match cs_syncs s !! k with
      | Some (op, td, SyDone) =>
        let syncs := <[k := (op, td, SyReceived)]> (cs_syncs s) in
        if cs_killed s then
          Some (MkSyncer (cs_stopping s) (cs_dead s) (cs_doneCh s) (cs_event s) (cs_forced s) true LpExit syncs (cs_peers s))
        else
          Some (MkSyncer (cs_stopping s) (cs_dead s) None (cs_event s) false false LpTop syncs (cs_peers s))
      | _ => None
      end
    | EvTimer => Some (set_loop s true (cs_killed s) LpTop)
    | EvQuit =>
      if cs_stopping s && negb (cs_dead s) then
        Some (MkSyncer true true (cs_doneCh s) (cs_event s) (cs_forced s) (cs_killed s) LpTerminate (cs_syncs s) (cs_peers s))
      else None
    end
  | _ => None
  end.

Definition sync_live (x : syncop * Z * sync_phase) : bool := match x.2 with SyReceived => false | _ => true end.
Definition sync_busy (x : syncop * Z * sync_phase) : bool := match x.2 with SySyncing => true | _ => false end.

(** The wait of [terminate] for [synchronise], and what follows. *)
Definition loop_terminated (s : chainsyncer) : option chainsyncer :=
  match cs_loop s with
  | LpTerminate =>
    if existsb sync_busy (cs_syncs s) then None
    else
      match cs_doneCh s with
      | Some _ => Some (set_loop s (cs_forced s) true LpTop)
      | None => Some (set_loop s (cs_forced s) (cs_killed s) LpExit)
      end
  | _ => None
  end.

(** The goroutine of sync [k] goes on. *)
Definition sync_advance (s : chainsyncer) (k : nat) : option chainsyncer :=
  '(op, td, ph) ← cs_syncs s !! k;
  let next ph := Some (MkSyncer (cs_stopping s) (cs_dead s) (cs_doneCh s) (cs_event s) (cs_forced s) (cs_killed s) (cs_loop s)
    (<[k := (op, td, ph)]> (cs_syncs s)) (cs_peers s)) in
  match ph with
  | SyCreated => next SySyncing
  | SySyncing => next SyReturned
  | SyReturned => next SyDone
  | SyDone | SyReceived => None
  end.

(** [addpeer] of a registered peer and [peerevent] take the mutex and fill the
    slot; [None] while they wait. *)
Definition cs_peerevent (s : chainsyncer) (p : option (list Z * nat)) : option chainsyncer :=
  if cs_stopping s then None
  else if cs_dead s then Some s
  else if cs_event s then None
  else
    Some (MkSyncer (cs_stopping s) (cs_dead s) (cs_doneCh s) true (cs_forced s) (cs_killed s) (cs_loop s) (cs_syncs s)
      (match p with Some (id, a) => <[id := a]> (cs_peers s) | None => cs_peers s end)).

(** [peerDropped]: the peer leaves the downloader; that the work of which it
    is the master is killed is a step of [sync_step]. *)
Definition peerDropped (s : chainsyncer) (id : list Z) : chainsyncer :=
  MkSyncer (cs_stopping s) (cs_dead s) (cs_doneCh s) (cs_event s) (cs_forced s) (cs_killed s) (cs_loop s) (cs_syncs s)
    (delete id (cs_peers s)).

Definition set_stopping (s : chainsyncer) (b : bool) : chainsyncer :=
  MkSyncer b (cs_dead s) (cs_doneCh s) (cs_event s) (cs_forced s) (cs_killed s) (cs_loop s) (cs_syncs s) (cs_peers s).

(** [stop] up to the signal, and its return when the loop was left. *)
Definition cs_stop (s : chainsyncer) : option chainsyncer :=
  if cs_stopping s then None else if cs_dead s then Some s else Some (set_stopping s true).

Definition cs_stopped (s : chainsyncer) : option chainsyncer :=
  match cs_loop s with LpExit => Some (set_stopping s false) | _ => None end.

Inductive cs_step (s : chainsyncer) : chainsyncer -> Prop :=
| st_next ps order td s' : loop_next s ps order td = Some s' -> cs_step s s'
| st_select ev s' : loop_select s ev = Some s' -> cs_step s s'
| st_terminated s' : loop_terminated s = Some s' -> cs_step s s'
| st_sync k s' : sync_advance s k = Some s' -> cs_step s s'
| st_peer p s' : cs_peerevent s p = Some s' -> cs_step s s'
| st_dropped id : cs_step s (peerDropped s id)
| st_stop s' : cs_stop s = Some s' -> cs_step s s'
| st_stopped s' : cs_stopped s = Some s' -> cs_step s s'.

Record cs_inv (s : chainsyncer) : Prop := MkCsInv {
  ci_live : forall k x, cs_syncs s !! k = Some x -> sync_live x = true -> cs_doneCh s = Some k;
  ci_done : forall k, cs_doneCh s = Some k -> exists x, cs_syncs s !! k = Some x /\ (cs_loop s <> LpExit -> sync_live x = true);
  ci_td : forall k x, cs_syncs s !! k = Some x -> x.1.2 < op_td x.1.1;
  ci_dead : cs_dead s = true <-> cs_loop s = LpTerminate \/ cs_loop s = LpExit \/ cs_killed s = true;
  ci_killed : cs_killed s = true -> is_Some (cs_doneCh s);
  ci_exit : cs_loop s = LpExit -> forall k x, cs_syncs s !! k = Some x -> sync_live x = false;
}.

Lemma nextop_some doneCh ps order td forced op :
  nextop doneCh ps order td forced = Some op ->
  doneCh = None /\ bestPeer ps order = Some (op_p op) /\ td < op_td op /\ ((if forced then 1 else 3) <= Len ps)%nat.
Proof.
  unfold nextop. destruct doneCh; [done|]. destruct (_ <? _)%nat eqn:E; [done|]. destruct (bestPeer ps order) as [b|]; [|done].
  destruct (ps_store ps !! b) as [p|]; [|done]. destruct (_ <=? _) eqn:Et; [done|]. intros [= <-]. bool_go. cbn. auto.
Qed.

Lemma cs_start_inv : cs_inv cs_start.
Proof. split; cbn; try done. split; [done|]. naive_solver. Qed.

Lemma loop_next_inv s ps order td s' : cs_inv s -> loop_next s ps order td = Some s' -> cs_inv s'.
Proof.
  intros [H1 H2 H3 H4 H5 H6]. unfold loop_next. destruct (cs_loop s) eqn:El; [|done..]. intros [= <-].
  destruct (nextop _ _ _ _ _) as [op|] eqn:En.
  2: { split; cbn; try done; [intros k Hk; destruct (H2 k Hk) as (x & Hx & Hl); exists x; naive_solver|]. rewrite H4. naive_solver. }
  apply nextop_some in En as (Hd & _ & Htd & _).
  assert (forall k x, cs_syncs s !! k = Some x -> sync_live x = false) as Hnone.
  { intros k x Hx. destruct (sync_live x) eqn:E; [|done]. rewrite (H1 k x Hx E) in Hd. done. }
  split; cbn.
  - intros k x [[_ Hx]|[Hk _]]%lookup_snoc_Some Hl; [by rewrite (Hnone k x Hx) in Hl|by rewrite Hk].
  - intros k [= <-]. exists (op, td, SyCreated). split; [|done]. apply lookup_snoc_Some. by right.
  - intros k x [[_ Hx]|[_ <-]]%lookup_snoc_Some; [by eapply H3|done].
  - rewrite H4. naive_solver.
  - eauto.
  - done.
Qed.

(** Replacing the phase of the sync whose channel is open. *)
Lemma phase_lookup (l : list (syncop * Z * sync_phase)) k k' op td ph ph' x :
  l !! k = Some (op, td, ph) -> <[k := (op, td, ph')]> l !! k' = Some x ->
  (k' = k /\ x = (op, td, ph')) \/ (k' <> k /\ l !! k' = Some x).
Proof.
  intros Hk. destruct (decide (k' = k)) as [->|Hne].
  - rewrite list_lookup_insert_eq by (by eapply lookup_lt_Some). intros [= <-]. auto.
  - rewrite list_lookup_insert_ne by done. auto.
Qed.

Lemma loop_select_inv s ev s' : cs_inv s -> loop_select s ev = Some s' -> cs_inv s'.
Proof.
  intros [H1 H2 H3 H4 H5 H6]. unfold loop_select. destruct (cs_loop s) eqn:El; try done.
  assert (cs_dead s = true <-> cs_killed s = true) as Hdk by (rewrite H4; naive_solver).
  destruct ev.
  - destruct (cs_event s); [|done]. intros [= <-]. split; cbn; try done; [|rewrite Hdk; naive_solver].
    intros k Hk. destruct (H2 k Hk) as (x & Hx & Hl). exists x. naive_solver.
  - destruct (cs_doneCh s) as [k|] eqn:Ed; [|done]. cbn [mbind option_bind].
    destruct (cs_syncs s !! k) as [[[op td] ph]|] eqn:Ek; [|done]. destruct ph; [done..| |done].
    pose proof (fun k' x => phase_lookup (cs_syncs s) k k' op td SyDone SyReceived x Ek) as Hp.
    assert (forall k' x, <[k := (op, td, SyReceived)]> (cs_syncs s) !! k' = Some x -> sync_live x = false) as Hnone.
    { intros k' x Hx. destruct (Hp k' x Hx) as [[-> ->]|[Hne Hx']]; [done|].
      destruct (sync_live x) eqn:E; [|done]. specialize (H1 k' x Hx' E). congruence. }
    assert (forall k' x, <[k := (op, td, SyReceived)]> (cs_syncs s) !! k' = Some x -> x.1.2 < op_td x.1.1) as Htd.
    { intros k' x Hx. destruct (Hp k' x Hx) as [[-> ->]|[_ Hx']]; [apply (H3 _ _ Ek)|by eapply H3]. }
    destruct (cs_killed s) eqn:Eki; intros [= <-]; split; cbn; try done.
    + intros k' x Hx Hl. by rewrite (Hnone k' x Hx) in Hl.
    + intros k' [= <-]. exists (op, td, SyReceived). split; [|done]. apply list_lookup_insert_eq. by eapply lookup_lt_Some.
    + rewrite Hdk. naive_solver.
    + intros k' x Hx Hl. by rewrite (Hnone k' x Hx) in Hl.
    + rewrite Hdk. naive_solver.
  - intros [= <-]. split; cbn; try done; [|rewrite Hdk; naive_solver].
    intros k Hk. destruct (H2 k Hk) as (x & Hx & Hl). exists x. naive_solver.
  - destruct (_ && _) eqn:E; [|done]. intros [= <-]. split; cbn; try done; [|naive_solver].
    intros k Hk. destruct (H2 k Hk) as (x & Hx & Hl). exists x. naive_solver.
Qed.

Lemma sync_advance_inv s k s' : cs_inv s -> sync_advance s k = Some s' -> cs_inv s'.
Proof.
  intros [H1 H2 H3 H4 H5 H6]. unfold sync_advance. destruct (cs_syncs s !! k) as [[[op td] ph]|] eqn:Ek; [|done].
  cbn [mbind option_bind].
  assert (sync_live (op, td, ph) = true -> forall ph', sync_live (op, td, ph') = true ->
    cs_inv (MkSyncer (cs_stopping s) (cs_dead s) (cs_doneCh s) (cs_event s) (cs_forced s) (cs_killed s) (cs_loop s)
      (<[k := (op, td, ph')]> (cs_syncs s)) (cs_peers s))) as Hn.
  { intros Hl ph' Hl'. pose proof (fun k' x => phase_lookup (cs_syncs s) k k' op td ph ph' x Ek) as Hp. split; cbn; try done.
    - intros k' x Hx Hlx. destruct (Hp k' x Hx) as [[-> _]|[_ Hx']]; [by apply (H1 _ _ Ek)|by eapply H1].
    - rewrite (H1 k _ Ek Hl). intros k' [= <-]. eexists. split; [apply list_lookup_insert_eq; by eapply lookup_lt_Some|done].
    - intros k' x Hx. destruct (Hp k' x Hx) as [[-> ->]|[_ Hx']]; [apply (H3 _ _ Ek)|by eapply H3].
    - intros He. by rewrite (H6 He k _ Ek) in Hl. }
  destruct ph; try done; intros [= <-]; by apply Hn.
Qed.

Lemma cs_step_inv s s' : cs_inv s -> cs_step s s' -> cs_inv s'.
Proof.
  intros Hi [ps order td s1 H|ev s1 H|s1 H|k s1 H|p s1 H|id|s1 H|s1 H].
  - by eapply loop_next_inv.
  - by eapply loop_select_inv.
  - unfold loop_terminated in H. destruct Hi as [H1 H2 H3 H4 H5 H6]. destruct (cs_loop s) eqn:El; try done.
    destruct (existsb _ _); [done|]. destruct (cs_doneCh s) as [k|] eqn:Ed; injection H as <-; split; cbn; try done.
    + by rewrite Ed.
    + intros k' Hk. rewrite Ed in Hk. destruct (H2 k' Hk) as (x & Hx & Hl). exists x. naive_solver.
    + naive_solver.
    + rewrite Ed. eauto.
    + by rewrite Ed.
    + naive_solver.
    + by rewrite Ed.
    + intros _ k x Hx. destruct (sync_live x) eqn:E; [|done]. by specialize (H1 k x Hx E).
  - by eapply sync_advance_inv.
  - unfold cs_peerevent in H. destruct (cs_stopping s); [done|]. destruct (cs_dead s) eqn:E; [by injection H as <-|].
    destruct (cs_event s); [done|]. injection H as <-. destruct Hi. rewrite E in *. by split.
  - destruct Hi. by split.
  - unfold cs_stop in H. repeat case_match; try done; injection H as <-; [done|]. destruct Hi. by split.
  - unfold cs_stopped in H. case_match; try done. injection H as <-. destruct Hi. by split.
Qed.

Lemma cs_steps_inv s s' : cs_inv s -> rtc cs_step s s' -> cs_inv s'.
Proof. intros Hi H. revert Hi. induction H as [|s s1 s2 Hs _ IH]; [done|]. intros Hi. apply IH. by eapply cs_step_inv. Qed.

(** C36. At most one synchronisation is under way, each was started with a peer
    of more difficulty than the local chain, none is started after [stop]
    reached the loop, and when the loop was left all of them have ended. *)
Theorem syncer_safe s :
  rtc cs_step cs_start s ->
  (forall i j x y, cs_syncs s !! i = Some x -> cs_syncs s !! j = Some y -> sync_live x = true -> sync_live y = true -> i = j) /\
  (forall k op td ph, cs_syncs s !! k = Some (op, td, ph) -> td < op_td op) /\
  (forall s', cs_dead s = true -> cs_step s s' -> length (cs_syncs s') = length (cs_syncs s)) /\
  (cs_loop s = LpExit -> forall k x, cs_syncs s !! k = Some x -> sync_live x = false).
Proof.
  intros Hr. pose proof (cs_steps_inv _ _ cs_start_inv Hr) as [H1 H2 H3 H4 H5 H6]. split_and!; [| | |done].
  - intros i j x y Hx Hy Lx Ly. specialize (H1 i x Hx Lx) as E. rewrite (H1 j y Hy Ly) in E. congruence.
  - intros k op td ph Hk. apply (H3 _ _ Hk).
  - intros s' Hd Hs. apply H4 in Hd. destruct Hs as [ps order td s1 H|ev s1 H|s1 H|k s1 H|p s1 H|id|s1 H|s1 H].
    + unfold loop_next in H. destruct (cs_loop s); [|done..]. destruct Hd as [?|[?|Hk]]; [done..|]. destruct (H5 Hk) as [k Ek].
      injection H as <-. by rewrite Ek.
    + unfold loop_select in H. destruct (cs_loop s); try done. destruct ev.
      * case_match; [|done]. by injection H as <-.
      * destruct (cs_doneCh s) as [k|]; [|done]. cbn [mbind option_bind] in H.
        destruct (cs_syncs s !! k) as [[[op td] []]|]; try done. destruct (cs_killed s); injection H as <-; apply length_insert.
      * by injection H as <-.
      * case_match; [|done]. by injection H as <-.
    + unfold loop_terminated in H. destruct (cs_loop s); try done. repeat case_match; try done; by injection H as <-.
    + unfold sync_advance in H. destruct (cs_syncs s !! k) as [[[op td] []]|]; try done; injection H as <-; apply length_insert.
    + unfold cs_peerevent in H. repeat case_match; try done; by injection H as <-.
    + done.
    + unfold cs_stop in H. repeat case_match; try done; by injection H as <-.
    + unfold cs_stopped in H. case_match; try done. by injection H as <-.
Qed.

Definition set_syncs (s : chainsyncer) (l : list (syncop * Z * sync_phase)) : chainsyncer :=
  MkSyncer (cs_stopping s) (cs_dead s) (cs_doneCh s) (cs_event s) (cs_forced s) (cs_killed s) (cs_loop s) l (cs_peers s).

(** A goroutine runs to its end whatever the loop does. *)
Lemma sync_finishes s k op td ph :
  cs_syncs s !! k = Some (op, td, ph) -> sync_live (op, td, ph) = true ->
  rtc cs_step s (set_syncs s (<[k := (op, td, SyDone)]> (cs_syncs s))).
Proof.
  intros Hk Hl. pose proof (lookup_lt_Some _ _ _ Hk) as Hlt.
  assert (s = set_syncs s (<[k := (op, td, ph)]> (cs_syncs s))) as E by (rewrite list_insert_id by done; by destruct s).
  assert (forall p p', match p with SyCreated => p' = SySyncing | SySyncing => p' = SyReturned | SyReturned => p' = SyDone | _ => False end ->
    cs_step (set_syncs s (<[k := (op, td, p)]> (cs_syncs s))) (set_syncs s (<[k := (op, td, p')]> (cs_syncs s)))) as Hp.
  { intros p p' Hpp. apply (st_sync _ k). unfold sync_advance. cbn [cs_syncs set_syncs]. rewrite list_lookup_insert_eq by done.
    cbn [mbind option_bind]. destruct p; try done; subst p'; by rewrite list_insert_insert_eq. }
  rewrite E at 1. destruct ph; try done; repeat (eapply rtc_l; [by apply Hp|]); apply rtc_refl.
Qed.

(** Leaving the loop, from its later stages to its earlier ones. *)
Definition can_exit (s : chainsyncer) : Prop := exists s', rtc cs_step s s' /\ cs_loop s' = LpExit.

Lemma can_exit_step s s' : cs_step s s' -> can_exit s' -> can_exit s.
Proof. intros Hs (t & Ht & He). exists t. split; [by eapply rtc_l|done]. Qed.

Lemma killed_exits s : cs_inv s -> cs_killed s = true -> cs_loop s = LpTop \/ cs_loop s = LpSelect -> can_exit s.
Proof.
  intros Hi Hk Hl.
  assert (forall s, cs_inv s -> cs_killed s = true -> cs_loop s = LpSelect -> can_exit s) as Hsel.
  { clear s Hi Hk Hl. intros s Hi Hk Hl. destruct (ci_killed _ Hi Hk) as [k Ek]. destruct (ci_done _ Hi k Ek) as ([[op td] ph] & Hx & Hlive).
    specialize (Hlive ltac:(by rewrite Hl)). pose proof (sync_finishes s k op td ph Hx Hlive) as Hr.
    eexists. split; [eapply rtc_r; [exact Hr|apply (st_select _ EvDone)]|].
    - unfold loop_select. cbn. rewrite Hl, Ek. cbn. rewrite list_lookup_insert_eq by (by eapply lookup_lt_Some). by rewrite Hk.
    - done. }
  destruct Hl as [Hl|Hl]; [|by apply Hsel]. destruct (loop_next s newpeerset [] 0) as [s1|] eqn:E; [|unfold loop_next in E; by rewrite Hl in E].
  apply (can_exit_step s s1); [by eapply st_next|]. apply Hsel; [by eapply loop_next_inv| |];
    unfold loop_next in E; rewrite Hl in E; destruct (ci_killed _ Hi Hk) as [k Ek]; rewrite Ek in E; by injection E as <-.
Qed.

Lemma terminate_exits s : cs_inv s -> cs_loop s = LpTerminate -> can_exit s.
Proof.
  intros Hi Hl. destruct (cs_doneCh s) as [k|] eqn:Ek.
  - destruct (ci_done _ Hi k Ek) as ([[op td] ph] & Hx & Hlive). specialize (Hlive ltac:(by rewrite Hl)).
    pose proof (sync_finishes s k op td ph Hx Hlive) as Hr. set (s1 := set_syncs s _) in Hr.
    pose proof (cs_steps_inv _ _ Hi Hr) as Hi1.
    assert (loop_terminated s1 = Some (set_loop s1 (cs_forced s1) true LpTop)) as Ht.
    { unfold loop_terminated. change (cs_loop s1) with (cs_loop s). change (cs_doneCh s1) with (cs_doneCh s). rewrite Hl, Ek.
      destruct (existsb _ _) eqn:E; [|done]. apply existsb_exists in E as (x & Hin & Hb). apply list_elem_of_In, list_elem_of_lookup in Hin as [k' Hk'].
      destruct (phase_lookup _ _ _ _ _ _ _ _ Hx Hk') as [[_ ->]|[Hne Hk2]]; [done|].
      assert (sync_live x = true) as Hlx by (destruct x as [? []]; done). pose proof (ci_live _ Hi _ _ Hk2 Hlx). congruence. }
    pose proof (cs_step_inv _ _ Hi1 (st_terminated _ _ Ht)) as Hi2.
    destruct (killed_exits _ Hi2) as (t & Hs & He); [done|by left|]. exists t. split; [|done].
    etrans; [exact Hr|]. eapply rtc_l; [by apply st_terminated|done].
  - exists (set_loop s (cs_forced s) (cs_killed s) LpExit). split; [|done]. apply rtc_once, st_terminated.
    unfold loop_terminated. rewrite Hl, Ek. destruct (existsb _ _) eqn:E; [|done].
    apply existsb_exists in E as (x & Hin & Hb). apply list_elem_of_In, list_elem_of_lookup in Hin as [k Hk].
    assert (sync_live x = true) as Hlx by (destruct x as [? []]; done). pose proof (ci_live _ Hi _ _ Hk Hlx). congruence.
Qed.

Lemma select_exits s : cs_inv s -> cs_loop s = LpSelect -> cs_stopping s = true -> can_exit s.
Proof.
  intros Hi Hl Hs. destruct (cs_killed s) eqn:Hk; [apply killed_exits; auto|].
  assert (cs_dead s = false) as Hd.
  { destruct (cs_dead s) eqn:E; [|done]. apply (ci_dead _ Hi) in E. rewrite Hl, Hk in E. naive_solver. }
  destruct (loop_select s EvQuit) as [s1|] eqn:E; [|unfold loop_select in E; by rewrite Hl, Hs, Hd in E].
  apply (can_exit_step s s1); [by eapply st_select|]. apply terminate_exits; [by eapply loop_select_inv|].
  unfold loop_select in E. rewrite Hl, Hs, Hd in E. by injection E as <-.
Qed.


(** The timer forces a sync with the only peer, and [stop] is called while it
    is under way. *)
Definition heavy_ps : peerSet :=
  match ps_store demo_ps2 !! 0%nat with
  | Some p => set_store demo_ps2 (<[0%nat := with_head p (replicate 32 7) 9 3]> (ps_store demo_ps2))
  | None => demo_ps2
  end.

Definition demo_op : syncop := MkOp 0 3 (replicate 32 7) 9.

Definition demo_stopping : chainsyncer :=
  MkSyncer true false (Some 0%nat) false true false LpSelect [(demo_op, 5, SySyncing)] ∅.

Lemma demo_stopping_reachable : rtc cs_step cs_start demo_stopping.
Proof.
  eapply rtc_l; [apply (st_next _ newpeerset [] 5); vm_compute; reflexivity|].
  eapply rtc_l; [apply (st_select _ EvTimer); vm_compute; reflexivity|].
  eapply rtc_l; [apply (st_next _ heavy_ps [0%nat] 5); vm_compute; reflexivity|].
  eapply rtc_l; [apply (st_sync _ 0); vm_compute; reflexivity|].
  eapply rtc_l; [apply st_stop; vm_compute; reflexivity|]. apply rtc_refl.
Qed.

Lemma syncer_safe_witness :
  (forall i j x y, cs_syncs demo_stopping !! i = Some x -> cs_syncs demo_stopping !! j = Some y ->
    sync_live x = true -> sync_live y = true -> i = j) /\
  (forall k op td ph, cs_syncs demo_stopping !! k = Some (op, td, ph) -> td < op_td op).
Proof. destruct (syncer_safe demo_stopping demo_stopping_reachable) as (H1 & H2 & _). split; [exact H1|exact H2]. Defined.

