(* ===== verification/Trie.v ===== *)
(** * The Merkle Patricia trie ([src/trie/encoding.go], [node.go], [trie.go])

    The three encodings of keys and the operations on nodes.  Nodes that are
    not loaded are hash nodes, resolved through the database; the database is
    what it returns for a hash.  A result [None] is a panic of the Go runtime
    or the end of the fuel; an error is a value. *)

From S2P Require Import Prelude Bytes.
Local Open Scope Z_scope.

(** ** Encodings of keys *)

Definition hasTerm (s : list Z) : bool := bool_decide (last s = Some 16).

(** [decodeNibbles]: an odd number of nibbles is read past its end. *)
Fixpoint decodeNibbles (nibbles : list Z) : option (list Z) :=
  match nibbles with
  | [] => Some []
  | [_] => None
  | a :: b :: rest => r ← decodeNibbles rest; Some (Z.lor (u8 (Z.shiftl a 4)) b :: r)
  end.

Definition hexToCompact (hex : list Z) : option (list Z) :=
  let terminator := if hasTerm hex then 1 else 0 in
  let hex := if hasTerm hex then take (length hex - 1) hex else hex in
  let flag := u8 (Z.shiftl terminator 5) in
  if Nat.odd (length hex) then
    match hex with
    | [] => None
    | h :: hex => r ← decodeNibbles hex; Some (Z.lor (Z.lor flag 16) h :: r)
    end
  else r ← decodeNibbles hex; Some (flag :: r).

Definition keybytesToHex (str : list Z) : list Z := (str ≫= fun b => [b / 16; b mod 16]) ++ [16].

Definition compactToHex (compact : list Z) : list Z :=
  match compact with
  | [] => compact
  | _ =>
    let base := keybytesToHex compact in
    let first := match base with b :: _ => b | [] => 0 end in
    let base := if first <? 2 then take (length base - 1) base else base in
    let chop := 2 - Z.land first 1 in
    drop (Z.to_nat chop) base
  end.

Definition hexToKeybytes (hex : list Z) : option (list Z) :=
  let hex := if hasTerm hex then take (length hex - 1) hex else hex in
  if Nat.odd (length hex) then None else decodeNibbles hex.

Fixpoint prefixLen (a b : list Z) : nat :=
  match a, b with
  | x :: a, y :: b => if x =? y then S (prefixLen a b) else 0
  | _, _ => 0
  end.

(** ** Nodes *)

Record nodeFlag := MkFlag { fhash : option (list Z); dirty : bool }.

(** The nil interface is [nilNode]. *)
Inductive node :=
| nilNode
| fullNode (Children : list node) (flags : nodeFlag)
| shortNode (Key : list Z) (Val : node) (flags : nodeFlag)
| hashNode (h : list Z)
| valueNode (v : list Z).

Definition is_nil (n : node) : bool := match n with nilNode => true | _ => false end.

Definition newFlag : nodeFlag := MkFlag None true.
Definition empty_children : list node := replicate 17 nilNode.

Inductive trie_error := MissingNodeError (NodeHash Path : list Z).

Definition BytesToHash (b : list Z) : list Z :=
  let b := drop (length b - 32) b in replicate (32 - length b) 0 ++ b.

(** ** Operations *)

Section trie.
  Context (db : list Z -> option node).

Definition resolveHash (n prefix : list Z) : res trie_error node :=
  let hash := BytesToHash n in
  match db hash with
  | Some n => Ok n
  | None => Err (MissingNodeError hash prefix)
  end.

Definition resolve (n : node) (prefix : list Z) : res trie_error node :=
  match n with hashNode h => resolveHash h prefix | _ => Ok n end.

(** [tryGet]: the value, the node with what was loaded, whether something was. *)
Fixpoint tryGet (fuel : nat) (origNode : node) (key : list Z) (pos : nat)
  : option (res trie_error (option (list Z) * node * bool)) :=
  match fuel with
  | O => None
  | S fuel =>
    match origNode with
    | nilNode => Some (Ok (None, nilNode, false))
    | valueNode v => Some (Ok (Some v, valueNode v, false))
    | shortNode K Val f =>
      if (length key - pos <? length K)%nat || negb (bool_decide (K = take (length K) (drop pos key))) then
        Some (Ok (None, shortNode K Val f, false))
      else
        match tryGet fuel Val key (pos + length K) with
        | None => None
        | Some (Err e) => Some (Err e)
        | Some (Ok (value, newnode, didResolve)) =>
          Some (Ok (value, if didResolve : bool then shortNode K newnode f else shortNode K Val f, didResolve))
        end
    | fullNode cs f =>
      b ← key !! pos;
      c ← cs !! Z.to_nat b;
      match tryGet fuel c key (pos + 1) with
      | None => None
      | Some (Err e) => Some (Err e)
      | Some (Ok (value, newnode, didResolve)) =>
        Some (Ok (value, if didResolve : bool then fullNode (<[Z.to_nat b := newnode]> cs) f else fullNode cs f, didResolve))
      end
    | hashNode h =>
      match resolveHash h (take pos key) with
      | Err e => Some (Err e)
      | Ok child =>
        match tryGet fuel child key pos with
        | None => None
        | Some (Err e) => Some (Err e)
        | Some (Ok (value, newnode, _)) => Some (Ok (value, newnode, true))
        end
      end
    end
  end.

Fixpoint insert (fuel : nat) (n : node) (prefix key : list Z) (value : node) : option (res trie_error (bool * node)) :=
  match fuel with
  | O => None
  | S fuel =>
    match key with
    | [] =>
      match n with
      | valueNode v =>
        match value with valueNode w => Some (Ok (negb (bool_decide (v = w)), value)) | _ => None end
      | _ => Some (Ok (true, value))
      end
    | k0 :: key1 =>
      match n with
      | shortNode K Val f =>
        let matchlen := prefixLen key K in
        if (matchlen =? length K)%nat then
          match insert fuel Val (prefix ++ take matchlen key) (drop matchlen key) value with
          | None => None
          | Some (Err e) => Some (Err e)
          | Some (Ok (dirty, nn)) =>
            Some (Ok (if dirty : bool then (true, shortNode K nn newFlag) else (false, n)))
          end
        else
          b1 ← K !! matchlen;
          match insert fuel nilNode (prefix ++ take (matchlen + 1) K) (drop (matchlen + 1) K) Val with
          | None => None
          | Some (Err e) => Some (Err e)
          | Some (Ok (_, n1)) =>
            b2 ← key !! matchlen;
            match insert fuel nilNode (prefix ++ take (matchlen + 1) key) (drop (matchlen + 1) key) value with
            | None => None
            | Some (Err e) => Some (Err e)
            | Some (Ok (_, n2)) =>
              if (b1 <? 17) && (b2 <? 17) then
                let branch := fullNode (<[Z.to_nat b2 := n2]> (<[Z.to_nat b1 := n1]> empty_children)) newFlag in
                Some (Ok (true, if (matchlen =? 0)%nat then branch else shortNode (take matchlen key) branch newFlag))
              else None
            end
          end
      | fullNode cs f =>
        c ← cs !! Z.to_nat k0;
        match insert fuel c (prefix ++ [k0]) key1 value with
        | None => None
        | Some (Err e) => Some (Err e)
        | Some (Ok (dirty, nn)) =>
          Some (Ok (if dirty : bool then (true, fullNode (<[Z.to_nat k0 := nn]> cs) newFlag) else (false, n)))
        end
      | nilNode => Some (Ok (true, shortNode key value newFlag))
      | hashNode h =>
        match resolveHash h prefix with
        | Err e => Some (Err e)
        | Ok rn =>
          match insert fuel rn prefix key value with
          | None => None
          | Some (Err e) => Some (Err e)
          | Some (Ok (dirty, nn)) => Some (Ok (if dirty : bool then (true, nn) else (false, rn)))
          end
        end
      | valueNode _ => None
      end
    end
  end.

(** The scan for the single entry of a full node: its index, [-1] when there
    is none and [-2] when there are several. *)
Fixpoint scan_children (i : Z) (pos : Z) (cs : list node) : Z :=
  match cs with
  | [] => pos
  | c :: cs =>
    if is_nil c then scan_children (i + 1) pos cs
    else if pos =? -1 then scan_children (i + 1) i cs
    else -2
  end.

(** A full node after a deletion below it, reduced to a short node when only
    one entry is left. *)
Definition reduce_full (cs : list node) (prefix : list Z) : option (res trie_error (bool * node)) :=
  let pos := scan_children 0 (-1) cs in
  if 0 <=? pos then
    c ← cs !! Z.to_nat pos;
    if pos =? 16 then Some (Ok (true, shortNode [pos] c newFlag))
    else match resolve c prefix with
    | Err e => Some (Err e)
    | Ok (shortNode K V _) => Some (Ok (true, shortNode (pos :: K) V newFlag))
    | Ok _ => Some (Ok (true, shortNode [pos] c newFlag))
    end
  else Some (Ok (true, fullNode cs newFlag)).

Fixpoint delete (fuel : nat) (n : node) (prefix key : list Z) : option (res trie_error (bool * node)) :=
  match fuel with
  | O => None
  | S fuel =>
    match n with
    | shortNode K Val f =>
      let matchlen := prefixLen key K in
      if (matchlen <? length K)%nat then Some (Ok (false, n))
      else if (matchlen =? length key)%nat then Some (Ok (true, nilNode))
      else
        match delete fuel Val (prefix ++ take (length K) key) (drop (length K) key) with
        | None => None
        | Some (Err e) => Some (Err e)
        | Some (Ok (dirty, child)) =>
          if negb dirty then Some (Ok (false, n))
          else match child with
          | shortNode K' V' _ => Some (Ok (true, shortNode (K ++ K') V' newFlag))
          | _ => Some (Ok (true, shortNode K child newFlag))
          end
        end
    | fullNode cs f =>
      k0 ← head key;
      c ← cs !! Z.to_nat k0;
      match delete fuel c (prefix ++ [k0]) (tail key) with
      | None => None
      | Some (Err e) => Some (Err e)
      | Some (Ok (dirty, nn)) =>
        if negb dirty then Some (Ok (false, n)) else reduce_full (<[Z.to_nat k0 := nn]> cs) prefix
      end
    | valueNode _ => Some (Ok (true, nilNode))
    | nilNode => Some (Ok (false, nilNode))
    | hashNode h =>
      match resolveHash h prefix with
      | Err e => Some (Err e)
      | Ok rn =>
        match delete fuel rn prefix key with
        | None => None
        | Some (Err e) => Some (Err e)
        | Some (Ok (dirty, nn)) => Some (Ok (if dirty : bool then (true, nn) else (false, rn)))
        end
      end
    end
  end.

(** ** The trie *)

Record Trie := MkTrie { root : node; unhashed : Z }.

(** Every step resolves a node or goes down by at least one nibble, so this
    is enough for a database that returns no hash nodes. *)
Definition fuel_for (key : list Z) : nat := (2 * length key + 2)%nat.

Definition TryGet (t : Trie) (key : list Z) : option (res trie_error (option (list Z)) * Trie) :=
  let key := keybytesToHex key in
  match tryGet (fuel_for key) (root t) key 0 with
  | None => None
  | Some (Err e) => Some (Err e, t)
  | Some (Ok (value, newroot, didResolve)) =>
    Some (Ok value, if didResolve : bool then MkTrie newroot (unhashed t) else t)
  end.

(** The new root, or the error with the root as it was. *)
Definition set_root (t : Trie) (r : option (res trie_error (bool * node))) : option (res trie_error unit * Trie) :=
  match r with
  | None => None
  | Some (Err e) => Some (Err e, MkTrie (root t) (unhashed t + 1))
  | Some (Ok (_, n)) => Some (Ok tt, MkTrie n (unhashed t + 1))
  end.

Definition TryUpdate (t : Trie) (key value : list Z) : option (res trie_error unit * Trie) :=
  let k := keybytesToHex key in
  set_root t (match value with
    | [] => delete (fuel_for k) (root t) [] k
    | _ => insert (fuel_for k) (root t) [] k (valueNode value)
    end).

Definition TryDelete (t : Trie) (key : list Z) : option (res trie_error unit * Trie) :=
  let k := keybytesToHex key in set_root t (delete (fuel_for k) (root t) [] k).

(** The variants without error: the error is logged. *)
Definition Get (t : Trie) (key : list Z) : option (option (list Z) * Trie) :=
  r ← TryGet t key; Some (match r.1 with Ok v => v | Err _ => None end, r.2).
Definition Update (t : Trie) (key value : list Z) : option Trie := r ← TryUpdate t key value; Some r.2.
Definition Delete (t : Trie) (key : list Z) : option Trie := r ← TryDelete t key; Some r.2.

Definition emptyRoot : list Z := be_bytes 32 0x56e81f171bcc55a6ff8345e692c0f86e5b48e01b996cadc001622fb5e363b421.

Definition New (rt : list Z) : res trie_error Trie :=
  if bool_decide (rt = replicate 32 0) || bool_decide (rt = emptyRoot) then Ok (MkTrie nilNode 0)
  else match resolveHash rt [] with
  | Ok n => Ok (MkTrie n 0)
  | Err e => Err e
  end.
End trie.
