(* ===== verification/TrieKeys.v ===== *)
(** * Keys of the trie ([src/trie/encoding.go])

    Keys as nibbles with a terminator, which makes them prefix free; the
    encodings of keys are inverse to each other. *)

From S2P Require Import Prelude Bytes Trie.
Local Open Scope Z_scope.

(** ** Keys *)

Definition nib (b : Z) : Prop := 0 <= b < 16.
Abbreviation nibbles := (Forall nib).

Inductive term_key : list Z -> Prop :=
| tk_end : term_key [16]
| tk_cons b k : nib b -> term_key k -> term_key (b :: k).

Lemma tk_nonempty k : term_key k -> k <> [].
Proof. by destruct 1. Qed.

Lemma tk_head b k : term_key (b :: k) -> (b = 16 /\ k = []) \/ (nib b /\ term_key k).
Proof. inversion 1; subst; auto. Qed.

Lemma tk_app p k : nibbles p -> term_key (p ++ k) <-> term_key k.
Proof.
  induction 1 as [|b p Hb Hp IH]; [done|]. cbn [app]. rewrite <- IH. split; [|by constructor].
  inversion 1; subst; [|done]. unfold nib in Hb. lia.
Qed.

Lemma tk_split a b : term_key (a ++ b) -> (nibbles a /\ term_key b) \/ (term_key a /\ b = []).
Proof.
  induction a as [|x a IH]; [by left|]. cbn [app]. intros H. apply tk_head in H as [[-> E]|[Hx Hk]].
  - apply app_eq_nil in E as [-> ->]. right. split; [constructor|done].
  - destruct (IH Hk) as [[H1 H2]|[H1 H2]]; [left|right]; split; try done; by constructor.
Qed.

Lemma tk_not_nibbles k : term_key k -> nibbles k -> False.
Proof. induction 1 as [|b k Hb Hk IH]; inversion 1; subst; [unfold nib in *; lia|auto]. Qed.

Lemma tk_prefix_free a b : term_key a -> term_key (a ++ b) -> b = [].
Proof. intros Ha [[H _]|[_ H]]%tk_split; [by destruct (tk_not_nibbles a)|done]. Qed.

Lemma byte_nibbles b : byte_ok b -> nib (b / 16) /\ nib (b mod 16).
Proof. unfold byte_ok, nib. intros H. split; [|apply Z.mod_pos_bound; lia]. split; [apply Z.div_pos; lia|apply Z.div_lt_upper_bound; lia]. Qed.

Lemma hex_term key : Forall byte_ok key -> term_key (keybytesToHex key).
Proof.
  unfold keybytesToHex. induction 1 as [|b key Hb Hk IH]; [constructor|]. destruct (byte_nibbles b Hb).
  cbn. constructor; [done|]. constructor; [done|]. exact IH.
Qed.

Lemma hex_inj k1 k2 : keybytesToHex k1 = keybytesToHex k2 -> k1 = k2.
Proof.
  unfold keybytesToHex. intros H%(inj (fun l => l ++ [16])). revert k2 H.
  induction k1 as [|a k1 IH]; intros [|b k2]; cbn; try done. intros [= H1 H2 H3]. f_equal; [|auto].
  rewrite (Z.div_mod a 16), (Z.div_mod b 16) by lia. congruence.
Qed.

Lemma nibbles_hex key : Forall byte_ok key -> nibbles (key ≫= fun b => [b / 16; b mod 16]).
Proof. induction 1 as [|b key Hb Hk IH]; cbn; [constructor|]. destruct (byte_nibbles b Hb). constructor; [done|]. by constructor. Qed.

Lemma join_nibbles a b : nib a -> nib b -> Z.lor (u8 (Z.shiftl a 4)) b = 16 * a + b /\ byte_ok (16 * a + b).
Proof.
  unfold nib, byte_ok. intros Ha Hb. split; [|lia]. unfold wrap. rewrite Z.shiftl_mul_pow2 by lia.
  rewrite Z.mod_small by lia. rewrite <- Z.add_nocarry_lor; [lia|].
  apply Z.bits_inj'. intros n Hn. rewrite Z.land_spec, Z.bits_0. destruct (Z.ltb_spec n 4).
  - by rewrite Z.mul_pow2_bits_low.
  - rewrite (Z.bits_above_log2 b n); [by rewrite andb_false_r|lia|].
    destruct (decide (b = 0)) as [->|]; [simpl; lia|]. assert (Z.log2 b < 4) by (apply Z.log2_lt_pow2; lia). lia.
Qed.

Lemma decodeNibbles_hex p : nibbles p -> Nat.even (length p) = true ->
  exists r, decodeNibbles p = Some r /\ Forall byte_ok r /\ (r ≫= fun b => [b / 16; b mod 16]) = p.
Proof.
  revert p. fix IH 1. intros [|a [|b p]] Hp He; [by exists []|done|].
  inversion Hp as [|? ? Ha Hp1]; subst. inversion Hp1 as [|? ? Hb Hp2]; subst.
  destruct (IH p Hp2 He) as (r & Hr & Hok & E). destruct (join_nibbles a b Ha Hb) as [Hj Hjo].
  exists (16 * a + b :: r). cbn [decodeNibbles]. rewrite Hr. cbn [mbind option_bind]. rewrite Hj. split; [done|].
  split; [by constructor|]. rewrite bind_cons, E. cbn [app]. unfold nib in *.
  replace ((16 * a + b) / 16) with a by (apply (Z.div_unique_pos _ _ _ b); lia).
  by replace ((16 * a + b) mod 16) with b by (apply (Z.mod_unique_pos _ _ a b); lia).
Qed.

(** A key in the compact encoding: nibbles, with or without the terminator. *)
Definition hex_key (hex : list Z) : Prop := nibbles hex \/ term_key hex.

Lemma tk_last p : nibbles p -> term_key (p ++ [16]).
Proof. intros H. apply tk_app; [done|constructor]. Qed.

Lemma tk_inv k : term_key k -> exists p, nibbles p /\ k = p ++ [16].
Proof.
  induction 1 as [|b k Hb Hk (p & Hp & ->)]; [by exists []|]. exists (b :: p). split; [by constructor|done].
Qed.

Lemma hasTerm_term p : hasTerm (p ++ [16]) = true.
Proof. unfold hasTerm. rewrite last_snoc. done. Qed.

Lemma hasTerm_nibbles p : nibbles p -> hasTerm p = false.
Proof.
  intros Hp. unfold hasTerm. apply bool_decide_eq_false. intros H. apply last_Some in H as [l ->].
  apply Forall_app in Hp as [_ H]. inversion H; subst. unfold nib in *. lia.
Qed.

(** The flag byte and the nibbles behind it. *)
Lemma compact_flag (t : bool) p : nibbles p ->
  exists b r, (let flag := u8 (Z.shiftl (if t then 1 else 0) 5) in
    if Nat.odd (length p) then match p with [] => None | h :: p => r ← decodeNibbles p; Some (Z.lor (Z.lor flag 16) h :: r) end
    else r ← decodeNibbles p; Some (flag :: r)) = Some (b :: r) /\
    byte_ok b /\ Forall byte_ok r /\ b / 16 = (if t then 2 else 0) + (if Nat.odd (length p) then 1 else 0) /\
    (if Nat.odd (length p) then [b mod 16] else []) ++ (r ≫= fun b => [b / 16; b mod 16]) = p.
Proof.
  intros Hp. rewrite <- Nat.negb_even. destruct (Nat.even (length p)) eqn:Ee; cbn [negb].
  - destruct (decodeNibbles_hex p Hp Ee) as (r & -> & Hr & E). cbn [mbind option_bind].
    eexists _, r. split; [done|]. split; [by destruct t|]. split; [done|]. split; [by destruct t|done].
  - destruct p as [|h p]; [done|]. inversion Hp as [|? ? Hh Hp1]; subst.
    assert (Nat.even (length p) = true) as Ee' by (change (Nat.even (S (length p)) = false) in Ee;
      rewrite Nat.even_succ, <- Nat.negb_even in Ee; by destruct (Nat.even (length p))).
    destruct (decodeNibbles_hex p Hp1 Ee') as (r & -> & Hr & E). cbn [mbind option_bind].
    assert (Z.lor (Z.lor (u8 (Z.shiftl (if t then 1 else 0) 5)) 16) h = 16 * (if t then 3 else 1) + h) as Hj.
    { destruct (join_nibbles (if t then 3 else 1) h) as [<- _]; [unfold nib; destruct t; lia|done|by destruct t]. }
    eexists _, r. split; [done|]. rewrite Hj. unfold nib, byte_ok in *. split; [destruct t; lia|]. split; [done|].
    replace ((16 * (if t then 3 else 1) + h) / 16) with (if t then 3 else 1) by (apply (Z.div_unique_pos _ _ _ h); lia).
    replace ((16 * (if t then 3 else 1) + h) mod 16) with h by (apply (Z.mod_unique_pos _ _ (if t then 3 else 1) h); lia).
    split; [by destruct t|]. by rewrite E.
Qed.

Lemma compactToHex_flag b r (t o : bool) :
  byte_ok b -> b / 16 = (if t then 2 else 0) + (if o then 1 else 0) ->
  compactToHex (b :: r) = (if o then [b mod 16] else []) ++ (r ≫= fun b => [b / 16; b mod 16]) ++ (if t then [16] else []).
Proof.
  intros Hb E. unfold compactToHex, keybytesToHex. rewrite bind_cons. set (rest := r ≫= _).
  cbn [app]. change (b / 16 :: b mod 16 :: rest ++ [16]) with ((b / 16 :: b mod 16 :: rest) ++ [16]).
  rewrite length_app. cbn [length]. rewrite Nat.add_sub. change (S (S (length rest))) with (length (b / 16 :: b mod 16 :: rest)).
  rewrite take_app_length. rewrite E. destruct t, o; cbn; by rewrite ?app_nil_r.
Qed.

Lemma key_compact hex : hex_key hex -> exists c, hexToCompact hex = Some c /\ Forall byte_ok c /\ compactToHex c = hex.
Proof.
  intros H. assert (exists (t : bool) p, nibbles p /\ hex = p ++ (if t then [16] else []) /\ hasTerm hex = t) as (t & p & Hp & -> & Ht).
  { destruct H as [H|(p & Hp & ->)%tk_inv].
    - exists false, hex. split; [done|]. split; [by rewrite app_nil_r|]. by apply hasTerm_nibbles.
    - exists true, p. split; [done|]. split; [done|]. apply hasTerm_term. }
  unfold hexToCompact. rewrite Ht.
  assert ((if t then take (length (p ++ (if t then [16] else [])) - 1) (p ++ (if t then [16] else [])) else p ++ (if t then [16] else [])) = p) as ->.
  { destruct t; [|by rewrite app_nil_r]. rewrite length_app. cbn [length]. rewrite Nat.add_sub. by rewrite take_app_length. }
  destruct (compact_flag t p Hp) as (b & r & Hc & Hb & Hr & E & Ep). exists (b :: r). split; [exact Hc|]. split; [by constructor|].
  rewrite (compactToHex_flag b r t (Nat.odd (length p))) by done. by rewrite app_assoc, Ep.
Qed.

(** Every key of nibbles, with or without the terminator, has a compact
    encoding in bytes, which is decoded to the same key. *)
Theorem compact_roundtrip hex : hex_key hex -> exists c, hexToCompact hex = Some c /\ Forall byte_ok c /\ compactToHex c = hex.
Proof. apply key_compact. Qed.

Lemma keybytes_roundtrip key : Forall byte_ok key -> hexToKeybytes (keybytesToHex key) = Some key.
Proof.
  intros Hk. unfold hexToKeybytes, keybytesToHex. rewrite hasTerm_term, length_app. cbn [length]. rewrite Nat.add_sub, take_app_length.
  pose proof (nibbles_hex key Hk) as Hn. set (p := key ≫= _) in *.
  assert (Nat.even (length p) = true) as He.
  { unfold p. clear. induction key as [|b key IH]; [done|]. rewrite bind_cons. cbn [app length Nat.even]. exact IH. }
  rewrite <- Nat.negb_even, He. cbn [negb]. destruct (decodeNibbles_hex p Hn He) as (r & -> & Hr & E). f_equal.
  apply hex_inj. unfold keybytesToHex. by rewrite E.
Qed.

Lemma compact_roundtrip_witness : exists c, hexToCompact [1; 2; 3; 16] = Some c /\ Forall byte_ok c /\ compactToHex c = [1; 2; 3; 16].
Proof.
  apply (compact_roundtrip [1; 2; 3; 16]). right. repeat (constructor; [unfold nib; lia|]). constructor.
Defined.
