(* ===== verification/TrieMap.v ===== *)
(** * The trie as a finite map ([src/trie/trie.go])

    A trie is well formed when it is a compressed radix tree over keys with a
    terminator whose missing parts are in the database.  Every operation keeps
    this, returns without error or panic, and acts on the content as the
    operation of a finite map. *)

From S2P Require Import Prelude Bytes Trie TrieKeys.
Local Open Scope Z_scope.

#[export] Instance nil_decision (c : node) : Decision (c = nilNode).
Proof. destruct c; [left; done|right; done..]. Defined.

Section trie_map.
  Context (db : list Z -> option node).

(** ** Content and shape *)

(** [holds n k v]: below [n] the key [k] leads to the value [v]. *)
Inductive holds : node -> list Z -> list Z -> Prop :=
| h_value v : holds (valueNode v) [] v
| h_short K n f k v : holds n k v -> holds (shortNode K n f) (K ++ k) v
| h_full cs f i c k v : cs !! i = Some c -> holds c k v -> holds (fullNode cs f) (Z.of_nat i :: k) v
| h_hash h n k v : db (BytesToHash h) = Some n -> holds n k v -> holds (hashNode h) k v.

Definition loaded (n : node) : Prop := match n with fullNode _ _ | shortNode _ _ _ => True | _ => False end.

Definition is_full (n : node) : Prop := match n with fullNode _ _ => True | _ => False end.

(** A branch, perhaps not loaded. *)
Definition fullish (n : node) : Prop :=
  is_full n \/ exists h n', n = hashNode h /\ db (BytesToHash h) = Some n' /\ is_full n'.

Definition is_value (n : node) : Prop := exists v, v <> [] /\ n = valueNode v.

Inductive wf : node -> Prop :=
| wf_leaf K v f : term_key K -> v <> [] -> wf (shortNode K (valueNode v) f)
| wf_ext K c f : K <> [] -> nibbles K -> wf c -> fullish c -> wf (shortNode K c f)
| wf_full cs f : length cs = 17%nat ->
    (forall i c, (i < 16)%nat -> cs !! i = Some c -> c <> nilNode -> wf c) ->
    (forall c, cs !! 16%nat = Some c -> c <> nilNode -> is_value c) ->
    (exists i j c d, i <> j /\ cs !! i = Some c /\ cs !! j = Some d /\ c <> nilNode /\ d <> nilNode) ->
    wf (fullNode cs f)
| wf_hash h n : db (BytesToHash h) = Some n -> wf n -> loaded n -> wf (hashNode h).

(** What may stand where the rest of the key is [key]. *)
Definition ok_at (n : node) (key : list Z) : Prop :=
  n = nilNode \/ match key with [] => is_value n | _ => term_key key /\ wf n end.

Definition key_ok (key : list Z) : Prop := key = [] \/ term_key key.

(** [n'] has the content of [n] with the value of [key] set to [ov]. *)
Definition upd (n : node) (key : list Z) (ov : option (list Z)) (n' : node) : Prop :=
  forall k w, holds n' k w <-> (k = key /\ ov = Some w) \/ (k <> key /\ holds n k w).

Lemma holds_nil k v : holds nilNode k v <-> False.
Proof. split; [inversion 1|done]. Qed.
Lemma holds_value w k v : holds (valueNode w) k v <-> k = [] /\ v = w.
Proof. split; [by inversion 1|]. intros [-> ->]. constructor. Qed.
Lemma holds_short K n f k v : holds (shortNode K n f) k v <-> exists k', k = K ++ k' /\ holds n k' v.
Proof. split; [inversion 1; subst; eauto|]. intros (k' & -> & H). by constructor. Qed.
Lemma holds_full cs f k v : holds (fullNode cs f) k v <-> exists i c k', k = Z.of_nat i :: k' /\ cs !! i = Some c /\ holds c k' v.
Proof. split; [inversion 1; subst; eauto 6|]. intros (i & c & k' & -> & Hc & H). by econstructor. Qed.
Lemma holds_hash h n k v : db (BytesToHash h) = Some n -> holds (hashNode h) k v <-> holds n k v.
Proof. intros Hn. split; [inversion 1; subst; congruence|]. intros H. by econstructor. Qed.

Lemma holds_slot cs f b k v : 0 <= b ->
  holds (fullNode cs f) (b :: k) v <-> exists c, cs !! Z.to_nat b = Some c /\ holds c k v.
Proof.
  intros Hb. rewrite holds_full. split.
  - intros (i & c & k' & [= -> ->] & Hc & H). rewrite Nat2Z.id. eauto.
  - intros (c & Hc & H). exists (Z.to_nat b), c, k. rewrite Z2Nat.id by done. done.
Qed.

(** Updates below a node. *)
Lemma upd_short K n f f' k ov n' : upd n k ov n' -> upd (shortNode K n f) (K ++ k) ov (shortNode K n' f').
Proof.
  intros H k0 w. rewrite !holds_short. split.
  - intros (k' & -> & [[-> ->]|[Hne Hk]]%H); [by left|]. right. split; [by intros ?%(inj (app K))|]. eauto.
  - intros [[-> ->]|[Hne (k' & -> & Hk)]].
    + exists k. split; [done|]. apply H. by left.
    + exists k'. split; [done|]. apply H. right. split; [congruence|done].
Qed.

Lemma upd_full cs f f' b k ov c n' : 0 <= b -> cs !! Z.to_nat b = Some c -> upd c k ov n' ->
  upd (fullNode cs f) (b :: k) ov (fullNode (<[Z.to_nat b := n']> cs) f').
Proof.
  intros Hb Hc H k0 w. pose proof (lookup_lt_Some _ _ _ Hc) as Hl. rewrite !holds_full. split.
  - intros (i & d & k' & -> & Hd & Hh). destruct (decide (i = Z.to_nat b)) as [->|Hne].
    + rewrite list_lookup_insert_eq in Hd by done. simplify_eq. rewrite Z2Nat.id by done.
      apply H in Hh as [[-> ->]|[Hk Hh]]; [by left|]. right. split; [congruence|].
      exists (Z.to_nat b), c, k'. by rewrite Z2Nat.id.
    + rewrite list_lookup_insert_ne in Hd by done. right. split; [intros [= E _]; apply Hne; lia|]. eauto 6.
  - intros [[-> ->]|[Hne (i & d & k' & -> & Hd & Hh)]].
    + exists (Z.to_nat b), n', k. rewrite Z2Nat.id, list_lookup_insert_eq by done. split_and!; try done. apply H. by left.
    + destruct (decide (i = Z.to_nat b)) as [->|Hi].
      * simplify_eq. rewrite Z2Nat.id in * by done. exists (Z.to_nat b), n', k'.
        rewrite Z2Nat.id, list_lookup_insert_eq by done. split_and!; try done. apply H. right. split; [congruence|done].
      * exists i, d, k'. by rewrite list_lookup_insert_ne.
Qed.

Lemma upd_hash h n k ov n' : db (BytesToHash h) = Some n -> upd n k ov n' -> upd (hashNode h) k ov n'.
Proof. intros Hn H k0 w. rewrite (H k0 w), (holds_hash h n) by done. done. Qed.

Lemma upd_hash_r h n k ov : db (BytesToHash h) = Some n -> upd n k ov n -> upd (hashNode h) k ov (hashNode h).
Proof. intros Hn H k0 w. rewrite !(holds_hash h n) by done. apply H. Qed.

Lemma upd_self_short K n f k ov : upd n k ov n -> upd (shortNode K n f) (K ++ k) ov (shortNode K n f).
Proof. apply upd_short. Qed.

Lemma upd_self_full cs f b k ov c : 0 <= b -> cs !! Z.to_nat b = Some c -> upd c k ov c -> upd (fullNode cs f) (b :: k) ov (fullNode cs f).
Proof. intros Hb Hc H. rewrite <- (list_insert_id cs (Z.to_nat b) c Hc) at 2. by eapply upd_full. Qed.

(** Every key below a well-formed node ends with the terminator. *)
Lemma holds_term n k v : holds n k v -> ((is_value n -> k = []) /\ (wf n -> term_key k)) /\ (is_value n \/ wf n -> v <> []).
Proof.
  induction 1 as [v|K n f k v H IH|cs f i c k v Hc H IH|h n k v Hn H IH].
  - split; [split; [done|inversion 1]|]. intros [(w & Hw & [= ->])|Hw]; [done|inversion Hw].
  - destruct IH as [[IH1 IH2] IH3]. split; [split|].
    + intros (w & _ & ?). done.
    + inversion 1 as [K' w f' HK Hw|K' c f' HK Hn Hc Hf| |]; subst.
      * rewrite IH1 by (by exists w). by rewrite app_nil_r.
      * apply tk_app; [done|]. by apply IH2.
    + intros [(w & _ & ?)|Hw]; [done|]. inversion Hw as [K' w f' HK Hv|K' c f' HK Hn Hc Hf| |]; subst; apply IH3.
      * left. by exists w.
      * by right.
  - destruct IH as [[IH1 IH2] IH3]. assert (c <> nilNode) as Hnil by (intros ->; inversion H). split; [split|].
    + intros (w & _ & ?). done.
    + inversion 1 as [| |cs' f' Hl Hs Hv _|]; subst. pose proof (lookup_lt_Some _ _ _ Hc) as Hi.
      destruct (decide (i = 16%nat)) as [->|Hne].
      * rewrite IH1 by eauto. constructor.
      * constructor; [unfold nib; lia|]. apply IH2. eapply Hs; [|done|done]. lia.
    + intros [(w & _ & ?)|Hw]; [done|]. inversion Hw as [| |cs' f' Hl Hs Hv _|]; subst. apply IH3.
      pose proof (lookup_lt_Some _ _ _ Hc) as Hi. destruct (decide (i = 16%nat)) as [->|Hne]; [left; eauto|].
      right. eapply Hs; [|done|done]. lia.
  - destruct IH as [[IH1 IH2] IH3]. split; [split|].
    + intros (w & _ & ?). done.
    + inversion 1; subst. simplify_eq. auto.
    + intros [(w & _ & ?)|Hw]; [done|]. inversion Hw; subst. simplify_eq. auto.
Qed.

(** A key has at most one value. *)
Lemma holds_fun n k v w : wf n \/ is_value n -> holds n k v -> holds n k w -> v = w.
Proof.
  intros Hw H. revert w. induction H as [v|K n f k v H IH|cs f i c k v Hc H IH|h n k v Hn H IH]; intros w.
  - by intros [_ ->]%holds_value.
  - intros (k' & E%(inj (app K)) & H')%holds_short. subst. apply IH; [|done].
    destruct Hw as [Hw|(? & _ & ?)]; [|done]. inversion Hw; subst; [right; by eexists|by left].
  - intros (j & d & k' & [= Ej ->] & Hd & H')%holds_full. apply Nat2Z.inj in Ej. subst. simplify_eq. apply IH; [|done].
    assert (c <> nilNode) as Hnil by (intros ->; inversion H).
    destruct Hw as [Hw|(? & _ & ?)]; [|done]. inversion Hw as [| |cs' f' Hl Hs Hv _|]; subst.
    pose proof (lookup_lt_Some _ _ _ Hc) as Hi. destruct (decide (j = 16%nat)) as [->|Hne]; [right; eauto|].
    left. eapply Hs; [|done|done]. lia.
  - rewrite (holds_hash h n) by done. apply IH. destruct Hw as [Hw|(? & _ & ?)]; [|done]. inversion Hw; subst. simplify_eq. by left.
Qed.

(** ** Insertion *)

Lemma prefixLen_spec a b : exists p a' b', a = p ++ a' /\ b = p ++ b' /\ length p = prefixLen a b /\
  (a' = [] \/ b' = [] \/ exists x y s t, a' = x :: s /\ b' = y :: t /\ x <> y).
Proof.
  revert b. induction a as [|x a IH]; intros b; [exists [], [], b; auto 6|].
  destruct b as [|y b]; [exists [], (x :: a), []; auto 6|]. cbn [prefixLen]. destruct (Z.eqb_spec x y) as [->|Hne].
  - destruct (IH b) as (p & a' & b' & -> & -> & Hp & H). exists (y :: p), a', b'. cbn [app length]. rewrite Hp. auto.
  - exists [], (x :: a), (y :: b). split_and!; try done. right. right. eauto 8.
Qed.

Definition mk_short (K : list Z) (c : node) : node := match K with [] => c | _ => shortNode K c newFlag end.

Lemma holds_mk_short K c k v : holds (mk_short K c) k v <-> exists k', k = K ++ k' /\ holds c k' v.
Proof. destruct K; [|apply holds_short]. split; [intros H; by exists k|]. by intros (k' & -> & H). Qed.

Lemma insert_nil fuel prefix K x : insert db (S fuel) nilNode prefix K x = Some (Ok (true, mk_short K x)).
Proof. by destruct K. Qed.

(** The number of steps for a key below a node. *)
Definition steps (n : node) (key : list Z) : nat := (2 * length key + match n with hashNode _ => 2 | _ => 1 end)%nat.

Lemma slot_ok cs f b k : wf (fullNode cs f) -> term_key (b :: k) ->
  exists c, cs !! Z.to_nat b = Some c /\ ok_at c k /\ 0 <= b.
Proof.
  inversion 1 as [| |cs' f' Hl Hs Hv _|]; subst. intros [[-> ->]|[Hb Hk]]%tk_head.
  - destruct (lookup_lt_is_Some_2 cs 16) as [c Hc]; [lia|]. exists c. split; [done|]. split; [|lia].
    destruct (decide (c = nilNode)) as [->|Hne]; [by left|right; eauto].
  - unfold nib in Hb. destruct (lookup_lt_is_Some_2 cs (Z.to_nat b)) as [c Hc]; [lia|]. exists c. split; [done|]. split; [|lia].
    destruct (decide (c = nilNode)) as [->|Hne]; [by left|right]. destruct k as [|k0 k]; [by apply tk_nonempty in Hk|].
    split; [done|]. eapply Hs; [|done|done]. lia.
Qed.

Lemma full_insert_wf cs f f' b k n' : wf (fullNode cs f) -> term_key (b :: k) -> ok_at n' k -> n' <> nilNode ->
  wf (fullNode (<[Z.to_nat b := n']> cs) f').
Proof.
  inversion 1 as [| |cs' f0 Hl Hs Hv (i & j & c & d & Hij & Hc & Hd & Hcn & Hdn)|]; subst. intros Hk Hok Hn'.
  destruct Hok as [?|Hok]; [done|].
  assert (Z.to_nat b < 17)%nat as Hb by (apply tk_head in Hk as [[-> _]|[Hb _]]; [lia|unfold nib in Hb; lia]).
  assert (forall i c, cs !! i = Some c -> c <> nilNode -> exists c', <[Z.to_nat b := n']> cs !! i = Some c' /\ c' <> nilNode) as Hkeep.
  { intros i0 c0 Hc0 Hn0. destruct (decide (i0 = Z.to_nat b)) as [->|Hne].
    - exists n'. by rewrite list_lookup_insert_eq by lia.
    - exists c0. by rewrite list_lookup_insert_ne. }
  constructor.
  - by rewrite length_insert.
  - intros i0 c0 Hi0. destruct (decide (i0 = Z.to_nat b)) as [->|Hne]; [|rewrite list_lookup_insert_ne by done; eauto].
    rewrite list_lookup_insert_eq by lia. intros [= <-] _. apply tk_head in Hk as [[-> ->]|[_ Hk]]; [lia|].
    destruct k; [by apply tk_nonempty in Hk|]. apply Hok.
  - intros c0. destruct (decide (16%nat = Z.to_nat b)) as [E|Hne]; [|rewrite list_lookup_insert_ne by done; eauto].
    rewrite E, list_lookup_insert_eq by lia. intros [= <-] _. apply tk_head in Hk as [[-> ->]|[Hn _]]; [done|].
    unfold nib in Hn. lia.
  - destruct (Hkeep i c Hc Hcn) as (c' & ? & ?), (Hkeep j d Hd Hdn) as (d' & ? & ?). by exists i, j, c', d'.
Qed.

(** The part of a split short node that hangs below a nibble of its key. *)
Lemma split_ok p b K Val f : wf (shortNode (p ++ b :: K) Val f) -> exists q, nibbles p /\ term_key (b :: q) /\ (nib b \/ b = 16) /\
  ok_at (mk_short K Val) q /\ mk_short K Val <> nilNode /\ (b = 16 -> q = []) .
Proof.
  inversion 1 as [K' v f' HK Hv|K' c f' HK Hn Hc Hf| |]; subst.
  - apply tk_split in HK as [[Hp HK]|[_ ?]]; [|done]. exists K. split_and!; try done.
    + apply tk_head in HK as [[-> _]|[? _]]; auto.
    + apply tk_head in HK as [[_ ->]|[_ HK]]; [right; by exists v|]. right. destruct K; [by apply tk_nonempty in HK|].
      split; [done|]. by constructor.
    + by destruct K.
    + apply tk_head in HK as [[_ ->]|[Hb _]]; [done|]. unfold nib in Hb. lia.
  - apply Forall_app in Hn as [Hp HK2]. inversion HK2 as [|? ? Hb HK3]; subst.
    exists (K ++ [16]). split_and!; try done.
    + constructor; [done|]. by apply tk_last.
    + by left.
    + right. destruct (K ++ [16]) as [|k0 k1] eqn:E; [by destruct K|]. rewrite <- E. split; [by apply tk_last|].
      destruct K; [done|]. by constructor.
    + destruct K; [|done]. cbn [mk_short]. intros E. rewrite E in Hc. inversion Hc.
    + unfold nib in Hb. lia.
Qed.

(** The branch made where two keys differ. *)
Definition branch_of (b1 b2 : Z) (n1 n2 : node) : node :=
  fullNode (<[Z.to_nat b2 := n2]> (<[Z.to_nat b1 := n1]> empty_children)) newFlag.

Lemma branch_lookup b1 b2 n1 n2 i c : 0 <= b1 < 17 -> 0 <= b2 < 17 -> b1 <> b2 ->
  <[Z.to_nat b2 := n2]> (<[Z.to_nat b1 := n1]> empty_children) !! i = Some c ->
  (i = Z.to_nat b2 /\ c = n2) \/ (i = Z.to_nat b1 /\ c = n1) \/ c = nilNode.
Proof.
  intros H1 H2 Hne. destruct (decide (i = Z.to_nat b2)) as [->|Hi2].
  { rewrite list_lookup_insert_eq by (rewrite length_insert; unfold empty_children; rewrite length_replicate; lia). intros [= <-]. auto. }
  rewrite list_lookup_insert_ne by done. destruct (decide (i = Z.to_nat b1)) as [->|Hi1].
  { rewrite list_lookup_insert_eq by (unfold empty_children; rewrite length_replicate; lia). intros [= <-]. auto. }
  rewrite list_lookup_insert_ne by done. intros [-> _]%lookup_replicate. auto.
Qed.

Lemma branch_slots b1 b2 n1 n2 : 0 <= b1 < 17 -> 0 <= b2 < 17 -> b1 <> b2 ->
  let cs := <[Z.to_nat b2 := n2]> (<[Z.to_nat b1 := n1]> empty_children) in
  cs !! Z.to_nat b1 = Some n1 /\ cs !! Z.to_nat b2 = Some n2.
Proof.
  intros H1 H2 Hne cs. unfold cs. split.
  - rewrite list_lookup_insert_ne by lia. apply list_lookup_insert_eq. unfold empty_children. rewrite length_replicate. lia.
  - apply list_lookup_insert_eq. rewrite length_insert. unfold empty_children. rewrite length_replicate. lia.
Qed.

Lemma branch_wf b1 b2 n1 n2 q1 q2 : term_key (b1 :: q1) -> term_key (b2 :: q2) -> b1 <> b2 ->
  ok_at n1 q1 -> n1 <> nilNode -> ok_at n2 q2 -> n2 <> nilNode -> wf (branch_of b1 b2 n1 n2).
Proof.
  intros K1 K2 Hne [?|O1] N1 [?|O2] N2; try done.
  assert (forall b q, term_key (b :: q) -> 0 <= b < 17) as Hr by (intros b q [[-> _]|[Hb _]]%tk_head; unfold nib in *; lia).
  pose proof (Hr _ _ K1). pose proof (Hr _ _ K2). destruct (branch_slots b1 b2 n1 n2) as [S1 S2]; try done.
  assert (forall b q n, term_key (b :: q) -> match q with [] => is_value n | _ => term_key q /\ wf n end ->
    (b = 16 -> is_value n) /\ (b <> 16 -> wf n)) as Hw.
  { intros b q n [[-> ->]|[Hb Hq]]%tk_head; [done|]. destruct q; [by apply tk_nonempty in Hq|]. intros [_ Hn].
    split; [|done]. unfold nib in Hb. lia. }
  destruct (Hw _ _ _ K1 O1) as [V1 W1], (Hw _ _ _ K2 O2) as [V2 W2]. constructor.
  - rewrite !length_insert. apply length_replicate.
  - intros i c Hi Hc Hn. apply branch_lookup in Hc as [[-> ->]|[[-> ->]| ->]]; try done; [apply W2|apply W1]; lia.
  - intros c Hc Hn. apply branch_lookup in Hc as [[E ->]|[[E ->]| ->]]; try done; [apply V2|apply V1]; lia.
  - exists (Z.to_nat b1), (Z.to_nat b2), n1, n2. split_and!; try done. lia.
Qed.

Lemma branch_holds b1 b2 n1 n2 k w : 0 <= b1 < 17 -> 0 <= b2 < 17 -> b1 <> b2 ->
  holds (branch_of b1 b2 n1 n2) k w <-> (exists k', k = b1 :: k' /\ holds n1 k' w) \/ (exists k', k = b2 :: k' /\ holds n2 k' w).
Proof.
  intros H1 H2 Hne. unfold branch_of. destruct (branch_slots b1 b2 n1 n2) as [S1 S2]; try done. split.
  - intros (i & c & k' & -> & Hc & Hh)%holds_full. apply branch_lookup in Hc as [[-> ->]|[[-> ->]| ->]]; try done.
    + right. exists k'. by rewrite Z2Nat.id by lia.
    + left. exists k'. by rewrite Z2Nat.id by lia.
    + by apply holds_nil in Hh.
  - intros [(k' & -> & Hh)|(k' & -> & Hh)]; (apply holds_slot; [lia|eauto]).
Qed.

Lemma split_upd p b1 K1 Val f b2 k2 v : 0 <= b1 < 17 -> 0 <= b2 < 17 -> b1 <> b2 ->
  upd (shortNode (p ++ b1 :: K1) Val f) (p ++ b2 :: k2) (Some v)
    (mk_short p (branch_of b1 b2 (mk_short K1 Val) (mk_short k2 (valueNode v)))).
Proof.
  intros H1 H2 Hne k w. rewrite holds_mk_short, holds_short. setoid_rewrite branch_holds; [|done..].
  setoid_rewrite holds_mk_short. setoid_rewrite holds_value. split.
  - intros (k' & -> & [(k1 & -> & k3 & -> & Hh)|(k1 & -> & k3 & -> & -> & ->)]).
    + right. split; [intros E%(inj (app p)); congruence|]. exists k3. by rewrite <- app_assoc.
    + left. by rewrite app_nil_r.
  - intros [[-> [= ->]]|(_ & k' & -> & Hh)].
    + exists (b2 :: k2). split; [done|]. right. exists k2. split; [done|]. exists []. by rewrite app_nil_r.
    + exists (b1 :: K1 ++ k'). rewrite <- app_assoc. split; [done|]. left. eauto.
Qed.

Lemma mk_short_wf p b1 b2 n1 n2 : nibbles p -> wf (branch_of b1 b2 n1 n2) -> wf (mk_short p (branch_of b1 b2 n1 n2)).
Proof. intros Hp Hb. destruct p; [done|]. constructor; [done|done|done|by left]. Qed.

Definition inserted (n : node) (key v : list Z) (r : option (res trie_error (bool * node))) : Prop :=
  exists d n', r = Some (Ok (d, n')) /\ n' <> nilNode /\ ok_at n' key /\
    (fullish n -> key <> [] -> fullish n') /\ upd n key (Some v) n' /\ (d = false -> upd n key (Some v) n).

Lemma ok_at_term n k : term_key k -> ok_at n k <-> n = nilNode \/ wf n.
Proof. intros H. destruct k; [by apply tk_nonempty in H|]. unfold ok_at. tauto. Qed.

Lemma upd_nil k v : upd nilNode k (Some v) (mk_short k (valueNode v)).
Proof.
  intros k0 w. rewrite holds_mk_short. setoid_rewrite holds_value. rewrite holds_nil. split.
  - intros (k' & -> & -> & ->). left. by rewrite app_nil_r.
  - intros [[-> [= ->]]|[_ []]]. exists []. by rewrite app_nil_r.
Qed.

Lemma leaf_ok k v : key_ok k -> v <> [] -> ok_at (mk_short k (valueNode v)) k /\ mk_short k (valueNode v) <> nilNode.
Proof.
  intros [->|Hk] Hv; [split; [right; by exists v|done]|]. split; [|by destruct k]. apply ok_at_term; [done|]. right.
  destruct k; [by apply tk_nonempty in Hk|]. by constructor.
Qed.

Lemma prefixLen_app K k : prefixLen (K ++ k) K = length K.
Proof. induction K as [|b K IH]; cbn; [by destruct k|]. by rewrite Z.eqb_refl, IH. Qed.

Lemma prefixLen_split p a s b t : a <> b -> prefixLen (p ++ a :: s) (p ++ b :: t) = length p.
Proof.
  intros Hne. induction p as [|x p IH]; cbn; [by rewrite (proj2 (Z.eqb_neq a b))|]. by rewrite Z.eqb_refl, IH.
Qed.

Lemma tk_range b k : term_key (b :: k) -> 0 <= b < 17.
Proof. intros [[-> _]|[Hb _]]%tk_head; unfold nib in *; lia. Qed.

Lemma not_fullish K Val f : ~ fullish (shortNode K Val f).
Proof. by intros [?|(h & n0 & ? & _)]. Qed.

(** The key goes on below a short node. *)
Lemma below_short K Val f k fuel : wf (shortNode K Val f) -> term_key (K ++ k) -> (2 * length (K ++ k) <= fuel)%nat ->
  key_ok k /\ ok_at Val k /\ (steps Val k <= fuel)%nat.
Proof.
  intros Hwf Hkey Hfuel. rewrite length_app in Hfuel. inversion Hwf as [K0 w f0 HK Hw|K0 c f0 HK Hn Hc Hfl| |]; subst.
  - pose proof (tk_prefix_free _ _ HK Hkey) as ->. split; [by left|]. split; [right; by exists w|].
    unfold steps. cbn [length]. destruct K; [by apply tk_nonempty in HK|]. cbn in *. lia.
  - apply (proj1 (tk_app _ _ Hn)) in Hkey. split; [by right|]. split; [apply ok_at_term; auto|].
    unfold steps. destruct K; [done|]. cbn [length] in *. destruct Val; lia.
Qed.

(** A short node keeps its shape when its child is replaced by one of the same kind. *)
Lemma short_replace K Val f f' k n' : wf (shortNode K Val f) -> term_key (K ++ k) -> ok_at n' k -> n' <> nilNode ->
  (fullish Val -> k <> [] -> fullish n') -> wf (shortNode K n' f').
Proof.
  intros Hwf Hkey Hok Hn' Hful. inversion Hwf as [K0 w f0 HK Hw|K0 c f0 HK Hn Hc Hfl| |]; subst.
  - pose proof (tk_prefix_free _ _ HK Hkey) as ->. destruct Hok as [?|(x & Hx & ->)]; [done|]. by constructor.
  - apply (proj1 (tk_app _ _ Hn)) in Hkey. apply ok_at_term in Hok as [?|Hok]; [done| |done].
    constructor; [done|done|done|]. apply Hful; [done|]. by apply tk_nonempty.
Qed.

(** Insertion where the key runs through a short node. *)
Lemma insert_descend_ok fuel K Val f prefix k v :
  (forall n prefix key, key_ok key -> ok_at n key -> (steps n key <= fuel)%nat -> inserted n key v (insert db fuel n prefix key (valueNode v))) ->
  term_key (K ++ k) -> wf (shortNode K Val f) -> (2 * length (K ++ k) <= fuel)%nat ->
  inserted (shortNode K Val f) (K ++ k) v (insert db (S fuel) (shortNode K Val f) prefix (K ++ k) (valueNode v)).
Proof.
  intros IH Hkey Hwf Hfuel. destruct (K ++ k) as [|k0 key0] eqn:Ekey; [by apply tk_nonempty in Hkey|]. cbn [insert]. rewrite <- Ekey in *.
  rewrite prefixLen_app, Nat.eqb_refl, take_app_length, drop_app_length.
  destruct (below_short K Val f k fuel Hwf Hkey Hfuel) as (Hk & HV & Hs).
  destruct (IH Val (prefix ++ K) k Hk HV Hs) as (d & n' & -> & Hn' & Hok & Hful & Hu & Hd).
  destruct d; eexists _, _; (split; [reflexivity|]); (split; [done|]).
  - split; [apply ok_at_term; [done|]; right; by eapply short_replace|].
    split; [by intros ?%not_fullish|]. split; [by apply upd_short|done].
  - split; [apply ok_at_term; auto|]. split; [auto|]. split; [|intros _]; apply upd_short; auto.
Qed.

(** Insertion where the key leaves the key of a short node. *)
Lemma insert_split_ok fuel p b1 K1 Val f prefix b2 k2 v :
  v <> [] -> term_key (p ++ b2 :: k2) -> wf (shortNode (p ++ b1 :: K1) Val f) -> b2 <> b1 ->
  inserted (shortNode (p ++ b1 :: K1) Val f) (p ++ b2 :: k2) v
    (insert db (S (S fuel)) (shortNode (p ++ b1 :: K1) Val f) prefix (p ++ b2 :: k2) (valueNode v)).
Proof.
  intros Hv Hkey Hwf Hne. destruct (split_ok _ _ _ _ _ Hwf) as (q & Hpn & Hq & _ & Hok1 & Hn1 & _).
  pose proof (proj1 (tk_app _ _ Hpn) Hkey) as Hk2. pose proof (tk_range _ _ Hq) as R1. pose proof (tk_range _ _ Hk2) as R2.
  destruct (leaf_ok k2 v) as [Hok2 Hn2]; [apply tk_head in Hk2 as [[_ ->]|[_ ?]]; [by left|by right]|done|].
  assert (insert db (S (S fuel)) (shortNode (p ++ b1 :: K1) Val f) prefix (p ++ b2 :: k2) (valueNode v) =
    Some (Ok (true, mk_short p (branch_of b1 b2 (mk_short K1 Val) (mk_short k2 (valueNode v)))))) as ->.
  { remember (S fuel) as fuel1 eqn:Ef. destruct (p ++ b2 :: k2) as [|k0 key0] eqn:Ekey; [by destruct p|]. cbn [insert].
    rewrite <- Ekey, prefixLen_split by done.
    rewrite (proj2 (Nat.eqb_neq _ _)) by (rewrite length_app; cbn; lia).
    rewrite list_lookup_middle by done. cbn [mbind option_bind]. rewrite Ef, insert_nil.
    rewrite list_lookup_middle by done. cbn [mbind option_bind]. rewrite insert_nil.
    rewrite (proj2 (Z.ltb_lt b1 17)), (proj2 (Z.ltb_lt b2 17)) by lia. cbn [andb].
    rewrite !(cons_middle _ p), !app_assoc. rewrite !(drop_app_length' (p ++ [_])) by (rewrite length_app; cbn; lia).
    rewrite <- !app_assoc. cbn [app]. rewrite take_app_length. by destruct p. }
  eexists _, _. split; [reflexivity|]. split; [by destruct p|].
  split; [apply ok_at_term; [done|]; right; apply mk_short_wf; [done|]; by eapply branch_wf|].
  split; [by intros ?%not_fullish|]. split; [|done]. apply split_upd; [done|done|congruence].
Qed.
Lemma insert_short_ok fuel K Val f prefix key v :
  (forall n prefix key, key_ok key -> ok_at n key -> (steps n key <= fuel)%nat -> inserted n key v (insert db fuel n prefix key (valueNode v))) ->
  v <> [] -> term_key key -> wf (shortNode K Val f) -> (2 * length key <= fuel)%nat ->
  inserted (shortNode K Val f) key v (insert db (S fuel) (shortNode K Val f) prefix key (valueNode v)).
Proof.
  intros IH Hv Hkey Hwf Hfuel. destruct (prefixLen_spec key K) as (p & k' & K' & -> & -> & _ & [->|[->|H]]).
  - rewrite app_nil_r in *. inversion Hwf as [K0 w f0 HK Hw|K0 c f0 HK Hn Hc Hfl| |]; subst.
    + pose proof (tk_prefix_free _ _ Hkey HK) as ->. pose proof (insert_descend_ok fuel p (valueNode w) f prefix [] v IH) as H.
      rewrite !app_nil_r in *. by apply H.
    + apply Forall_app in Hn as [Hn _]. by destruct (tk_not_nibbles p).
  - rewrite app_nil_r in *. by apply insert_descend_ok.
  - destruct H as (b2 & b1 & k2 & K1 & -> & -> & Hne).
    destruct fuel as [|fuel]; [rewrite length_app in Hfuel; cbn in Hfuel; lia|]. by apply insert_split_ok.
Qed.

Lemma insert_ok fuel n prefix key v :
  v <> [] -> key_ok key -> ok_at n key -> (steps n key <= fuel)%nat ->
  inserted n key v (insert db fuel n prefix key (valueNode v)).
Proof.
  intros Hv. revert n prefix key. induction fuel as [|fuel IH]; intros n prefix key Hkey Hok Hs.
  { unfold steps in Hs. destruct n; lia. }
  destruct Hok as [->|Hok].
  { rewrite insert_nil. destruct (leaf_ok key v Hkey Hv). eexists _, _. split; [done|]. split; [done|]. split; [done|].
    split; [intros [[]|(h & n' & ? & _)]; done|]. split; [apply upd_nil|done]. }
  destruct key as [|k0 key].
  { destruct Hok as (w & Hw & ->). cbn [insert]. eexists _, _. split; [done|]. split; [done|]. split; [right; by exists v|].
    split; [done|].
    assert (upd (valueNode w) [] (Some v) (valueNode v)) as Hu.
    { intros k x. rewrite !holds_value. split; [intros [-> ->]; by left|]. intros [[-> [= ->]]|[Hk [-> _]]]; done. }
    split; [done|]. rewrite negb_false_iff. intros ->%bool_decide_eq_true. done. }
  destruct Hok as [Hk Hwf]. inversion Hwf as [K w f HK Hw|K c f HK Hn Hc Hfl|cs f Hl H1 H2 H3|h n' Hn Hn' Hld]; subst.
  - apply insert_short_ok; try done. unfold steps in Hs. lia.
  - apply insert_short_ok; try done. unfold steps in Hs. lia.
  - destruct (slot_ok _ _ _ _ Hwf Hk) as (c & Hc & Hco & Hb). cbn [insert]. rewrite Hc. cbn [mbind option_bind].
    destruct (IH c (prefix ++ [k0]) key) as (d & n' & -> & Hn' & Hok & _ & Hu & Hd); [|done| |].
    { apply tk_head in Hk as [[_ ->]|[_ ?]]; [by left|by right]. }
    { unfold steps in *. cbn [length] in Hs. destruct c; lia. }
    destruct d; eexists _, _; (split; [reflexivity|]); (split; [done|]).
    + split; [right; split; [done|by eapply full_insert_wf]|]. split; [by left|]. split; [by eapply upd_full|done].
    + split; [by right|]. split; [by left|]. split; [|intros _]; by eapply upd_self_full; eauto.
  - cbn [insert]. unfold resolveHash. rewrite Hn.
    destruct (IH n' prefix (k0 :: key)) as (d & n2 & -> & Hn2 & Hok & Hfu & Hu & Hd); [by right|by right| |].
    { unfold steps in *. destruct n'; try done; cbn [length] in *; lia. }
    assert (fullish (hashNode h) -> fullish n') as Hfh by (intros [[]|(h' & n3 & [= <-] & ? & ?)]; simplify_eq; by left).
    destruct d; eexists _, _; (split; [reflexivity|]).
    + split; [done|]. split; [done|]. split; [auto|]. split; [by eapply upd_hash|done].
    + split; [by destruct n'|]. split; [by right|]. split; [auto|]. split; [eapply upd_hash; eauto|]. intros _. eapply upd_hash_r; eauto.
Qed.

(** ** Deletion *)

Lemma scan_found i pos cs : pos <> -1 -> scan_children i pos cs = pos /\ Forall (fun c => c = nilNode) cs \/
  scan_children i pos cs = -2 /\ exists j c, cs !! j = Some c /\ c <> nilNode.
Proof.
  intros Hp. revert i. induction cs as [|c cs IH]; intros i; [by left|]. cbn [scan_children].
  destruct (decide (c = nilNode)) as [->|Hc].
  - cbn [is_nil]. destruct (IH (i + 1)) as [[-> H]|[-> (j & c & Hj & Hn)]]; [left; split; [done|by constructor]|].
    right. split; [done|]. by exists (S j), c.
  - right. assert (is_nil c = false) as -> by (by destruct c). rewrite (proj2 (Z.eqb_neq _ _)) by done. split; [done|]. by exists 0%nat, c.
Qed.

Lemma scan_spec i cs : 0 <= i ->
  (scan_children i (-1) cs = -1 /\ Forall (fun c => c = nilNode) cs) \/
  (exists j c, scan_children i (-1) cs = i + Z.of_nat j /\ cs !! j = Some c /\ c <> nilNode /\
     forall j' c', cs !! j' = Some c' -> c' <> nilNode -> j' = j) \/
  (scan_children i (-1) cs = -2 /\ exists j j' c c', j <> j' /\ cs !! j = Some c /\ cs !! j' = Some c' /\ c <> nilNode /\ c' <> nilNode).
Proof.
  revert i. induction cs as [|c cs IH]; intros i Hi; [by left|]. cbn [scan_children]. destruct (decide (c = nilNode)) as [->|Hc].
  - cbn [is_nil]. destruct (IH (i + 1)) as [[-> H]|[(j & c & -> & Hj & Hn & Hu)|[-> (j & j' & c & c' & ? & ? & ? & ? & ?)]]]; [lia| | |].
    + left. split; [done|by constructor].
    + right. left. exists (S j), c. split; [lia|]. split; [done|]. split; [done|]. intros [|j'] c' Hj' Hn'; [by simplify_eq/=|].
      f_equal. by eapply Hu.
    + right. right. split; [done|]. exists (S j), (S j'), c, c'. split_and!; try done. congruence.
  - assert (is_nil c = false) as -> by (by destruct c). rewrite Z.eqb_refl. right.
    destruct (scan_found (i + 1) i cs) as [[-> H]|[-> (j & c' & Hj & Hn)]]; [lia| |].
    + left. exists 0%nat, c. split; [cbn; lia|]. split; [done|]. split; [done|]. intros [|j'] c' Hj' Hn'; [done|]. cbn in Hj'.
      rewrite Forall_lookup in H. by apply H in Hj'.
    + right. split; [done|]. exists 0%nat, (S j), c, c'. done.
Qed.

Lemma full_single cs f j c : cs !! j = Some c -> (forall j' c', cs !! j' = Some c' -> c' <> nilNode -> j' = j) ->
  forall k w, holds (fullNode cs f) k w <-> exists k', k = [Z.of_nat j] ++ k' /\ holds c k' w.
Proof.
  intros Hc Hu k w. rewrite holds_full. split.
  - intros (i & d & k' & -> & Hd & Hh). assert (i = j) as -> by (eapply Hu; [done|]; intros ->; by apply holds_nil in Hh).
    simplify_eq. eauto.
  - intros (k' & -> & Hh). exists j, c, k'. done.
Qed.

Lemma short_merge b K V f f' k w : (exists k', k = [b] ++ k' /\ holds (shortNode K V f) k' w) <-> holds (shortNode (b :: K) V f') k w.
Proof.
  rewrite holds_short. setoid_rewrite holds_short. split.
  - intros (k' & -> & k2 & -> & H). eauto.
  - intros (k' & -> & H). exists (K ++ k'). eauto.
Qed.

Lemma wf_prefix p K V f f' : nibbles p -> wf (shortNode K V f) -> wf (shortNode (p ++ K) V f').
Proof.
  intros Hp. inversion 1 as [K0 w f0 HK Hw|K0 c f0 HK Hn Hc Hfl| |]; subst.
  - constructor; [by apply tk_app|done].
  - constructor; [by destruct p|by apply Forall_app|done|done].
Qed.

Definition slots_ok (cs : list node) : Prop :=
  length cs = 17%nat /\ (forall i c, (i < 16)%nat -> cs !! i = Some c -> c <> nilNode -> wf c) /\
  (forall c, cs !! 16%nat = Some c -> c <> nilNode -> is_value c).

Lemma reduce_full_ok cs prefix : slots_ok cs -> (exists i c, cs !! i = Some c /\ c <> nilNode) ->
  exists n', reduce_full db cs prefix = Some (Ok (true, n')) /\ wf n' /\ loaded n' /\
    forall k w, holds n' k w <-> holds (fullNode cs newFlag) k w.
Proof.
  intros (Hl & Hs & Hv) (i0 & c0 & Hc0 & Hn0). unfold reduce_full.
  destruct (scan_spec 0 cs) as [[_ H]|[(j & c & E & Hc & Hn & Hu)|[-> Htwo]]]; [lia| | |].
  { rewrite Forall_lookup in H. by apply H in Hc0. }
  2: { eexists. split; [done|]. split; [|done]. by constructor. }
  rewrite E. rewrite Z.add_0_l. rewrite (proj2 (Z.leb_le _ _)) by lia. rewrite Nat2Z.id, Hc. cbn [mbind option_bind].
  pose proof (lookup_lt_Some _ _ _ Hc) as Hj. destruct (Z.eqb_spec (Z.of_nat j) 16) as [Ej|Ej].
  { assert (j = 16%nat) as -> by lia. destruct (Hv c Hc Hn) as (v & Hvne & ->). eexists. split; [done|].
    split; [constructor; [constructor|done]|]. split; [done|]. intros k w. rewrite (full_single _ _ _ _ Hc Hu). apply holds_short. }
  assert (wf c) as Hw by (eapply Hs; [|done|done]; lia). assert (nibbles [Z.of_nat j]) as Hnib by (repeat constructor; lia).
  assert (forall n', (forall k w, holds n' k w <-> exists k', k = [Z.of_nat j] ++ k' /\ holds c k' w) ->
    forall k w, holds n' k w <-> holds (fullNode cs newFlag) k w) as Hh.
  { intros n' H k w. by rewrite (full_single _ _ _ _ Hc Hu). }
  assert (fullish c -> wf (shortNode [Z.of_nat j] c newFlag)) as Hext by (intros Hf; by constructor).
  inversion Hw as [K w f HK Hwv|K d f HK Hnk Hd Hfl|cs' f' H1 H2 H3 H4|h n' Hd Hn' Hld]; subst; cbn [resolve].
  - eexists. split; [done|]. split; [by apply (wf_prefix [_] K _ f)|]. split; [done|]. apply Hh. intros k x. by rewrite <- short_merge.
  - eexists. split; [done|]. split; [by apply (wf_prefix [_] K _ f)|]. split; [done|]. apply Hh. intros k x. by rewrite <- short_merge.
  - eexists. split; [done|]. split; [apply Hext; by left|]. split; [done|]. apply Hh. intros k x. apply holds_short.
  - unfold resolveHash. rewrite Hd. destruct n' as [|cs' f'|K V f| |]; try done.
    + eexists. split; [done|]. split; [apply Hext; right; by exists h, (fullNode cs' f')|]. split; [done|]. apply Hh. intros k x. apply holds_short.
    + eexists. split; [done|]. split; [by apply (wf_prefix [_] K _ f)|]. split; [done|]. apply Hh. intros k x.
      rewrite <- short_merge. by setoid_rewrite (holds_hash h _ _ _ Hd).
Qed.

Lemma upd_absent n key : (forall w, ~ holds n key w) -> upd n key None n.
Proof.
  intros H k w. split; [|by intros [[_ ?]|[_ ?]]]. intros Hk. right. split; [|done]. intros ->. by eapply H.
Qed.

Definition deleted (n : node) (key : list Z) (r : option (res trie_error (bool * node))) : Prop :=
  exists d n', r = Some (Ok (d, n')) /\ ok_at n' key /\ upd n key None n' /\ (d = false -> upd n key None n) /\
    (d = true -> n' = nilNode \/ loaded n') /\ (fullish n -> d = true -> n' <> nilNode).

(** Deleting below an extension keeps it, or merges it with what is left. *)
Lemma delete_ext_ok K Val f k' child : wf (shortNode K Val f) -> K <> [] -> nibbles K -> wf child -> loaded child -> upd Val k' None child ->
  exists n', match child with
    | shortNode K' V' _ => Some (Ok (true, shortNode (K ++ K') V' newFlag))
    | _ => Some (Ok (true, shortNode K child newFlag))
    end = Some (Ok (E := trie_error) (true, n')) /\ wf n' /\ loaded n' /\ upd (shortNode K Val f) (K ++ k') None n'.
Proof.
  intros Hwf HK Hn Hc Hld Hu. pose proof (upd_short K Val f newFlag k' None child Hu) as Hu'.
  destruct child as [|cs g|K' V' g| |]; try done.
  - eexists. split; [done|]. split; [by constructor; try done; left|]. done.
  - eexists. split; [done|]. split; [by eapply wf_prefix|]. split; [done|]. intros k w. rewrite <- (Hu' k w), !holds_short.
    setoid_rewrite holds_short. split.
    + intros (k2 & -> & Hh). exists (K' ++ k2). rewrite app_assoc. eauto.
    + intros (k2 & -> & k3 & -> & Hh). exists k3. by rewrite app_assoc.
Qed.

Lemma delete_short_ok fuel K Val f prefix key :
  (forall n prefix key, key_ok key -> ok_at n key -> (steps n key <= fuel)%nat -> deleted n key (delete db fuel n prefix key)) ->
  term_key key -> wf (shortNode K Val f) -> (2 * length key <= fuel)%nat ->
  deleted (shortNode K Val f) key (delete db (S fuel) (shortNode K Val f) prefix key).
Proof.
  intros IH Hkey Hwf Hfuel. cbn [delete].
  assert (fullish (shortNode K Val f) -> False) as Hnf by (intros [?|(h & n0 & ? & _)]; done).
  destruct (Nat.ltb_spec (prefixLen key K) (length K)) as [Hlt|Hge].
  { eexists _, _. split; [done|]. split; [apply ok_at_term; auto|].
    assert (upd (shortNode K Val f) key None (shortNode K Val f)) as Hu; [|split_and!; done || auto].
    apply upd_absent. intros w (k' & -> & _)%holds_short. rewrite prefixLen_app in Hlt. lia. }
  destruct (prefixLen_spec key K) as (p & k' & K' & E1 & E2 & Hp & _).
  assert (K' = []) as -> by (apply nil_length_inv; rewrite <- Hp, E2, length_app in Hge; lia). rewrite app_nil_r in E2. subst p.
  rewrite E1, prefixLen_app. rewrite E1 in Hkey, Hfuel. destruct (Nat.eqb_spec (length K) (length (K ++ k'))) as [EL|NL].
  { assert (k' = []) as -> by (apply nil_length_inv; rewrite length_app in EL; lia). rewrite app_nil_r in *.
    eexists _, _. split; [done|]. split; [by left|]. split; [|split; [done|split; [auto|intros ?; by destruct Hnf]]].
    intros k w. rewrite holds_nil. split; [done|]. intros [[_ ?]|[Hne (k' & -> & Hh)%holds_short]]; [done|].
    inversion Hwf as [K0 x f0 HK Hx|K0 c f0 HK Hn Hc Hfl| |]; subst.
    - apply holds_value in Hh as [-> _]. by rewrite app_nil_r in Hne.
    - by eapply tk_not_nibbles. }
  inversion Hwf as [K0 x f0 HK Hx|K0 c f0 HK Hn Hc Hfl| |]; subst.
  { pose proof (tk_prefix_free _ _ HK Hkey) as ->. by rewrite app_nil_r in NL. }
  rewrite take_app_length, drop_app_length. pose proof (proj1 (tk_app _ _ Hn) Hkey) as Hk'.
  destruct (IH Val (prefix ++ K) k') as (d & child & -> & Hok & Hu & Hd & Hld & Hnn); [by right|apply ok_at_term; auto| |].
  { unfold steps. rewrite length_app in Hfuel. destruct K; [done|]. cbn [length] in *. destruct Val; lia. }
  destruct d; cbn [negb].
  - specialize (Hld eq_refl) as [?|Hld]; [by destruct (Hnn Hfl eq_refl)|]. apply ok_at_term in Hok as [->|Hok]; [done| |done].
    destruct (delete_ext_ok K Val f k' child) as (n' & -> & Hw' & Hl' & Hu'); try done.
    eexists _, _. split; [done|]. split; [apply ok_at_term; auto|]. split_and!; done || auto.
  - eexists _, _. split; [done|]. split; [apply ok_at_term; auto|].
    assert (upd (shortNode K Val f) (K ++ k') None (shortNode K Val f)) by (apply upd_short; auto). split_and!; done || auto.
Qed.

Lemma delete_full_ok fuel cs f prefix b k :
  (forall n prefix key, key_ok key -> ok_at n key -> (steps n key <= fuel)%nat -> deleted n key (delete db fuel n prefix key)) ->
  term_key (b :: k) -> wf (fullNode cs f) -> (2 * length (b :: k) <= fuel)%nat ->
  deleted (fullNode cs f) (b :: k) (delete db (S fuel) (fullNode cs f) prefix (b :: k)).
Proof.
  intros IH Hk Hwf Hfuel. destruct (slot_ok _ _ _ _ Hwf Hk) as (c & Hc & Hco & Hb). cbn [delete head tail mbind option_bind].
  rewrite Hc. cbn [mbind option_bind].
  destruct (IH c (prefix ++ [b]) k) as (d & nn & -> & Hok & Hu & Hd & _ & _); [|done| |].
  { apply tk_head in Hk as [[_ ->]|[_ ?]]; [by left|by right]. }
  { unfold steps. cbn [length] in Hfuel. destruct c; lia. }
  destruct d; cbn [negb].
  2: { eexists _, _. split; [done|]. split; [by right|]. assert (upd (fullNode cs f) (b :: k) None (fullNode cs f)) by (eapply upd_self_full; eauto).
       split_and!; done || auto. }
  pose proof (lookup_lt_Some _ _ _ Hc) as Hlt. inversion Hwf as [| |cs' f' Hl Hs Hv (i & j & x & y & Hij & Hx & Hy & Hxn & Hyn)|]; subst.
  destruct (reduce_full_ok (<[Z.to_nat b := nn]> cs) prefix) as (n' & -> & Hw' & Hld & Hh).
  - split; [by rewrite length_insert|]. split.
    + intros i0 c0 Hi0. destruct (decide (i0 = Z.to_nat b)) as [->|Hne]; [|rewrite list_lookup_insert_ne by done; eauto].
      rewrite list_lookup_insert_eq by done. intros [= <-] Hn0. apply tk_head in Hk as [[-> _]|[_ Hk]]; [lia|].
      apply ok_at_term in Hok as [?|?]; done.
    + intros c0. destruct (decide (16%nat = Z.to_nat b)) as [E|Hne]; [|rewrite list_lookup_insert_ne by done; eauto].
      rewrite E, list_lookup_insert_eq by done. intros [= <-] Hn0. apply tk_head in Hk as [[-> ->]|[Hn _]]; [by destruct Hok|].
      unfold nib in Hn. lia.
  - destruct (decide (i = Z.to_nat b)) as [->|Hi]; [exists j, y|exists i, x]; by rewrite list_lookup_insert_ne.
  - eexists _, _. split; [done|]. split; [by right|]. split.
    + intros k0 w. rewrite Hh. by eapply upd_full.
    + split; [done|]. split; [auto|]. intros _ _ ->. inversion Hw'.
Qed.

Lemma delete_ok fuel n prefix key :
  key_ok key -> ok_at n key -> (steps n key <= fuel)%nat -> deleted n key (delete db fuel n prefix key).
Proof.
  revert n prefix key. induction fuel as [|fuel IH]; intros n prefix key Hkey Hok Hs.
  { unfold steps in Hs. destruct n; lia. }
  destruct Hok as [->|Hok].
  { eexists _, _. split; [done|]. split; [by left|]. assert (upd nilNode key None nilNode) by (apply upd_absent; intros w; inversion 1).
    split_and!; done || auto. }
  destruct key as [|k0 key].
  { destruct Hok as (w & Hw & ->). eexists _, _. split; [done|]. split; [by left|]. split_and!; [|done|auto|intros [[]|(h & n' & ? & _)]; done].
    intros k x. rewrite holds_nil, holds_value. split; [done|]. intros [[_ ?]|[? [? _]]]; done. }
  destruct Hok as [Hk Hwf]. inversion Hwf as [K w f HK Hw|K c f HK Hn Hc Hfl|cs f Hl H1 H2 H3|h n' Hn Hn' Hld]; subst.
  - apply delete_short_ok; try done. unfold steps in Hs. lia.
  - apply delete_short_ok; try done. unfold steps in Hs. lia.
  - apply delete_full_ok; try done. unfold steps in Hs. lia.
  - cbn [delete]. unfold resolveHash. rewrite Hn.
    destruct (IH n' prefix (k0 :: key)) as (d & n2 & -> & Hok & Hu & Hd & Hl2 & Hnn); [by right|by right| |].
    { unfold steps in *. destruct n'; try done; cbn [length] in *; lia. }
    assert (fullish (hashNode h) -> fullish n') as Hfh by (intros [[]|(h' & n3 & [= <-] & ? & ?)]; simplify_eq; by left).
    destruct d; eexists _, _; (split; [reflexivity|]).
    + split; [done|]. split; [by eapply upd_hash|]. split_and!; done || auto.
    + split; [by right|]. split; [eapply upd_hash; eauto|]. split; [intros _; eapply upd_hash_r; eauto|]. split; done.
Qed.

(** ** Lookup *)

Definition same_content (n n' : node) : Prop := forall k w, holds n' k w <-> holds n k w.

Definition got (n : node) (rest : list Z) (r : option (res trie_error (option (list Z) * node * bool))) : Prop :=
  exists ov n' d, r = Some (Ok (ov, n', d)) /\ (forall w, ov = Some w <-> holds n rest w) /\ ok_at n' rest /\
    same_content n n' /\ (fullish n -> fullish n') /\ (n <> nilNode -> n' <> nilNode) /\ (n = nilNode -> d = false).

Lemma same_short K n n' f : same_content n n' -> same_content (shortNode K n f) (shortNode K n' f).
Proof. intros H k w. rewrite !holds_short. by setoid_rewrite (H _ w). Qed.

Lemma same_full cs f i c n' : cs !! i = Some c -> same_content c n' -> same_content (fullNode cs f) (fullNode (<[i := n']> cs) f).
Proof.
  intros Hc H k w. pose proof (lookup_lt_Some _ _ _ Hc) as Hl. rewrite !holds_full. split.
  - intros (j & d & k' & -> & Hd & Hh). destruct (decide (j = i)) as [->|Hne].
    + rewrite list_lookup_insert_eq in Hd by done. simplify_eq. exists i, c, k'. split_and!; try done. by apply H.
    + rewrite list_lookup_insert_ne in Hd by done. eauto 6.
  - intros (j & d & k' & -> & Hd & Hh). destruct (decide (j = i)) as [->|Hne].
    + simplify_eq. exists i, n', k'. rewrite list_lookup_insert_eq by done. split_and!; try done. by apply H.
    + exists j, d, k'. by rewrite list_lookup_insert_ne.
Qed.

Lemma get_short_ok fuel K Val f key pos :
  (forall n pos, key_ok (drop pos key) -> ok_at n (drop pos key) -> (steps n (drop pos key) <= fuel)%nat -> got n (drop pos key) (tryGet db fuel n key pos)) ->
  term_key (drop pos key) -> wf (shortNode K Val f) -> (2 * length (drop pos key) <= fuel)%nat ->
  got (shortNode K Val f) (drop pos key) (tryGet db (S fuel) (shortNode K Val f) key pos).
Proof.
  intros IH Hkey Hwf Hfuel. cbn [tryGet]. rewrite <- length_drop. set (rest := drop pos key) in *.
  assert (same_content (shortNode K Val f) (shortNode K Val f)) as Hsame by done.
  assert (fullish (shortNode K Val f) -> False) as Hnf by (intros [?|(h & n0 & ? & _)]; done).
  destruct (_ || _) eqn:Ecase.
  { eexists _, _, _. split; [done|]. split; [|split_and!; try done; apply ok_at_term; auto].
    intros w. split; [done|]. intros (k' & E & _)%holds_short. exfalso. rewrite E in Ecase.
    rewrite take_app_length, bool_decide_eq_true_2, orb_false_r in Ecase by done. apply Nat.ltb_lt in Ecase. rewrite length_app in Ecase. lia. }
  apply orb_false_iff in Ecase as [_ HK%negb_false_iff%bool_decide_eq_true].
  assert (rest = K ++ drop (pos + length K) key) as E.
  { rewrite <- (take_drop (length K) rest) at 1. rewrite <- HK. unfold rest. by rewrite drop_drop. }
  set (k' := drop (pos + length K) key) in *.
  rewrite E in Hkey, Hfuel. destruct (below_short K Val f k' fuel Hwf Hkey Hfuel) as (Hk' & HV & Hs).
  destruct (IH Val (pos + length K)%nat Hk' HV Hs) as (ov & n' & d & -> & Hov & Hok & Hsc & Hfu & Hnn & Hdn). fold k' in Hov, Hok.
  eexists _, _, _. split; [reflexivity|]. split.
  { intros w. rewrite Hov, holds_short, E. split; [eauto|]. by intros (k2 & ->%(inj (app K)) & ?). }
  rewrite E. destruct d; [|split_and!; try done; apply ok_at_term; auto]. split; [|split_and!; try done; by apply same_short].
  apply ok_at_term; [done|]. right. eapply short_replace; try done; [|auto]. apply Hnn. intros ->. inversion Hwf as [| ? ? ? ? ? Hc| |]; inversion Hc.
Qed.

Lemma lookup_drop_head (key : list Z) pos b k : drop pos key = b :: k -> key !! pos = Some b /\ drop (pos + 1) key = k.
Proof.
  intros E. split.
  - rewrite <- (Nat.add_0_r pos), <- lookup_drop, E. done.
  - rewrite <- drop_drop, E. done.
Qed.

Lemma tryGet_ok fuel n key pos :
  key_ok (drop pos key) -> ok_at n (drop pos key) -> (steps n (drop pos key) <= fuel)%nat ->
  got n (drop pos key) (tryGet db fuel n key pos).
Proof.
  revert n pos. induction fuel as [|fuel IH]; intros n pos Hkey Hok Hs.
  { unfold steps in Hs. destruct n; lia. }
  destruct Hok as [->|Hok].
  { eexists _, _, _. split; [done|]. split; [intros w; by rewrite holds_nil|]. split; [by left|]. split_and!; done. }
  destruct (drop pos key) as [|b k] eqn:Er.
  { destruct Hok as (v & Hv & ->). eexists _, _, _. split; [done|]. split; [|split; [right; by exists v|split_and!; done]].
    intros w. rewrite holds_value. split; [intros [= ->]; done|]. by intros [_ ->]. }
  destruct Hok as [Hk Hwf]. inversion Hwf as [K w f HK Hw|K c f HK Hn Hc Hfl|cs f Hl H1 H2 H3|h n' Hn Hn' Hld]; subst.
  - rewrite <- Er in *. apply get_short_ok; try done. unfold steps in Hs. lia.
  - rewrite <- Er in *. apply get_short_ok; try done. unfold steps in Hs. lia.
  - destruct (slot_ok _ _ _ _ Hwf Hk) as (c & Hc & Hco & Hb). destruct (lookup_drop_head _ _ _ _ Er) as [Hlk Hdr].
    cbn [tryGet]. rewrite Hlk. cbn [mbind option_bind]. rewrite Hc. cbn [mbind option_bind].
    destruct (IH c (pos + 1)%nat) as (ov & n' & d & -> & Hov & Hok & Hsc & Hfu & Hnn & Hdn); rewrite ?Hdr in *; [|done| |].
    { apply tk_head in Hk as [[_ ->]|[_ ?]]; [by left|by right]. }
    { unfold steps in *. cbn [length] in Hs. destruct c; lia. }
    eexists _, _, _. split; [reflexivity|]. split.
    { intros w. rewrite Hov, holds_slot by done. split; [eauto|]. intros (c' & Hc' & Hh). by simplify_eq. }
    destruct d; [|split; [by right|split_and!; done]]. split; [|split; [by eapply same_full|split; [by left|split; done]]].
    right. split; [done|]. destruct (decide (c = nilNode)) as [->|Hcn].
    + by specialize (Hdn eq_refl).
    + eapply full_insert_wf; eauto.
  - cbn [tryGet]. unfold resolveHash. rewrite Hn.
    destruct (IH n' pos) as (ov & n2 & d & -> & Hov & Hok & Hsc & Hfu & Hnn & Hdn); rewrite ?Er in *; [by right|by right| |].
    { unfold steps in *. destruct n'; try done; cbn [length] in *; lia. }
    eexists _, _, _. split; [reflexivity|]. split; [intros w; rewrite Hov; by rewrite (holds_hash h n')|].
    split; [done|]. split; [intros k0 w; rewrite (Hsc k0 w); by rewrite (holds_hash h n')|].
    split; [|split; [intros _; apply Hnn; by destruct n'|done]]. intros [[]|(h' & n3 & [= <-] & ? & ?)]. simplify_eq. apply Hfu. by left.
Qed.
End trie_map.
