(* ===== verification/TrieRefine.v ===== *)
(** * The trie implements a finite map ([src/trie/trie.go])

    The abstract specification is a finite map from byte strings to
    non-empty byte strings with lookup, update and deletion.  The trie
    simulates it, keeps its shape, and its shape depends only on the content,
    not on the history of the operations. *)

From S2P Require Import Prelude Bytes Trie TrieKeys TrieMap.
Local Open Scope Z_scope.

(** ** The specification *)

Abbreviation kvmap := (gmap (list Z) (list Z)).

Inductive trie_op := OGet (key : list Z) | OUpdate (key value : list Z) | ODelete (key : list Z).
Inductive trie_out := OutValue (v : option (list Z)) | OutDone | OutError (e : trie_error).

Definition op_ok (op : trie_op) : Prop :=
  match op with OGet k | OUpdate k _ | ODelete k => Forall byte_ok k end.

(** Updating with the empty value deletes. *)
Definition spec_step (m : kvmap) (op : trie_op) : kvmap * trie_out :=
  match op with
  | OGet k => (m, OutValue (m !! k))
  | OUpdate k [] => (base.delete k m, OutDone)
  | OUpdate k v => (<[k := v]> m, OutDone)
  | ODelete k => (base.delete k m, OutDone)
  end.

Fixpoint spec_run (m : kvmap) (ops : list trie_op) : kvmap * list trie_out :=
  match ops with
  | [] => (m, [])
  | op :: ops => let r := spec_step m op in let s := spec_run r.1 ops in (s.1, r.2 :: s.2)
  end.

Section refine.
  Context (db : list Z -> option node).

Definition out_of (r : res trie_error unit) : trie_out := match r with Ok _ => OutDone | Err e => OutError e end.

Definition trie_step (t : Trie) (op : trie_op) : option (Trie * trie_out) :=
  match op with
  | OGet k => r ← TryGet db t k; Some (r.2, match r.1 with Ok v => OutValue v | Err e => OutError e end)
  | OUpdate k v => r ← TryUpdate db t k v; Some (r.2, out_of r.1)
  | ODelete k => r ← TryDelete db t k; Some (r.2, out_of r.1)
  end.

Fixpoint trie_run (t : Trie) (ops : list trie_op) : option (Trie * list trie_out) :=
  match ops with
  | [] => Some (t, [])
  | op :: ops => r ← trie_step t op; s ← trie_run r.1 ops; Some (s.1, r.2 :: s.2)
  end.

(** ** The simulation *)

Definition trie_ok (t : Trie) : Prop := root t = nilNode \/ wf db (root t).

(** The trie holds exactly the entries of the map. *)
Record Rep (t : Trie) (m : kvmap) : Prop := MkRep {
  rep_ok : trie_ok t;
  rep_in : forall key v, Forall byte_ok key -> m !! key = Some v <-> holds db (root t) (keybytesToHex key) v;
  rep_key : forall k v, holds db (root t) k v -> exists key, Forall byte_ok key /\ k = keybytesToHex key;
  rep_map : forall key v, m !! key = Some v -> Forall byte_ok key;
}.

Lemma rep_empty u : Rep (MkTrie nilNode u) ∅.
Proof. split; [by left|intros key v _; rewrite holds_nil; by rewrite lookup_empty|intros k v H; inversion H|intros key v; by rewrite lookup_empty]. Qed.

Lemma root_at t key : trie_ok t -> Forall byte_ok key -> ok_at db (root t) (keybytesToHex key).
Proof. intros Ht Hk. apply ok_at_term; [by apply hex_term|done]. Qed.

Lemma root_steps t key : (steps (root t) (keybytesToHex key) <= fuel_for (keybytesToHex key))%nat.
Proof. unfold steps, fuel_for. destruct (root t); lia. Qed.

(** An update of the trie is the update of the map. *)
Lemma rep_upd t m key ov n' u : Rep t m -> Forall byte_ok key -> ok_at db n' (keybytesToHex key) ->
  upd db (root t) (keybytesToHex key) ov n' -> Rep (MkTrie n' u) (partial_alter (fun _ => ov) key m).
Proof.
  intros [H1 H2 H3 H4] Hk Hok Hu. split.
  - apply ok_at_term in Hok; [done|by apply hex_term].
  - intros k v Hkb. cbn [root]. rewrite (Hu _ _). destruct (decide (k = key)) as [->|Hne].
    + rewrite lookup_partial_alter_eq. split; [auto|]. intros [[_ ?]|[? _]]; done.
    + rewrite lookup_partial_alter_ne, H2 by done. split; [intros H; right; split; [by intros ?%hex_inj|done]|].
      intros [[?%hex_inj _]|[_ ?]]; done.
  - intros k v. cbn [root]. intros [[-> _]|[_ H]]%Hu; eauto.
  - intros k v. destruct (decide (k = key)) as [->|Hne]; [done|]. rewrite lookup_partial_alter_ne by done. eauto.
Qed.

Lemma TryDelete_rep t m key : Rep t m -> Forall byte_ok key ->
  exists t', set_root t (delete db (fuel_for (keybytesToHex key)) (root t) [] (keybytesToHex key)) = Some (Ok tt, t') /\ Rep t' (base.delete key m).
Proof.
  intros Hr Hk. destruct (delete_ok db (fuel_for (keybytesToHex key)) (root t) [] (keybytesToHex key)) as (d & n' & -> & Hok & Hu & _).
  - right. by apply hex_term.
  - apply root_at; [apply Hr|done].
  - apply root_steps.
  - eexists. split; [done|]. by eapply rep_upd.
Qed.

Lemma trie_step_rep t m op : Rep t m -> op_ok op ->
  exists t', trie_step t op = Some (t', (spec_step m op).2) /\ Rep t' (spec_step m op).1.
Proof.
  intros Hr Hop. destruct op as [key|key v|key]; cbn [trie_step op_ok] in *.
  - unfold TryGet.
    destruct (tryGet_ok db (fuel_for (keybytesToHex key)) (root t) (keybytesToHex key) 0) as (ov & n' & d & -> & Hov & Hok & Hsc & _ & _ & _).
    { right. by apply hex_term. } { apply root_at; [apply Hr|done]. } { apply root_steps. }
    cbn [mbind option_bind fst snd]. destruct Hr as [H1 H2 H3 H4].
    assert (ov = m !! key) as ->.
    { apply option_eq. intros w. rewrite Hov. cbn. symmetry. by apply H2. }
    eexists. split; [reflexivity|]. destruct d; [|done]. split; cbn [root].
    + apply ok_at_term in Hok; [done|]. by apply hex_term.
    + intros k w Hkb. rewrite (Hsc _ _). by apply H2.
    + intros k w ?%Hsc. eauto.
    + done.
  - unfold TryUpdate. destruct v as [|b v].
    + destruct (TryDelete_rep t m key Hr Hop) as (t' & -> & Hr'). eexists. split; [reflexivity|done].
    + destruct (insert_ok db (fuel_for (keybytesToHex key)) (root t) [] (keybytesToHex key) (b :: v)) as (d & n' & -> & _ & Hok & _ & Hu & _); try done.
      { right. by apply hex_term. } { apply root_at; [apply Hr|done]. } { apply root_steps. }
      eexists. split; [reflexivity|]. by eapply rep_upd.
  - unfold TryDelete. destruct (TryDelete_rep t m key Hr Hop) as (t' & -> & Hr'). eexists. split; [reflexivity|done].
Qed.

Lemma trie_run_rep ops : forall t m, Rep t m -> Forall op_ok ops ->
  exists t', trie_run t ops = Some (t', (spec_run m ops).2) /\ Rep t' (spec_run m ops).1.
Proof.
  induction ops as [|op ops IH]; intros t m Hr Hops; [by exists t|]. inversion Hops; subst.
  destruct (trie_step_rep t m op Hr) as (t1 & E1 & Hr1); [done|]. destruct (IH t1 _ Hr1) as (t2 & E2 & Hr2); [done|].
  exists t2. cbn [trie_run]. rewrite E1. cbn [mbind option_bind fst snd]. rewrite E2. done.
Qed.

(** The trie refines the finite map: from a trie that holds the entries of
    a map, whatever of it is in memory and whatever in the database, every
    sequence of lookups, updates and deletions runs without error or panic,
    answers as the map does, and ends in a trie that holds the entries of the
    resulting map. *)
Theorem trie_refines_map t m ops :
  Rep t m -> Forall op_ok ops ->
  exists t', trie_run t ops = Some (t', (spec_run m ops).2) /\ Rep t' (spec_run m ops).1.
Proof. intros Hr Ho. by apply trie_run_rep. Qed.

Lemma trie_step_ok t op : trie_ok t -> op_ok op ->
  exists t' o, trie_step t op = Some (t', o) /\ trie_ok t' /\ (forall e, o <> OutError e).
Proof.
  intros Ht Hop. assert (forall n key u, Forall byte_ok key -> ok_at db n (keybytesToHex key) -> trie_ok (MkTrie n u)) as Hok.
  { intros n key u Hk H. apply ok_at_term in H; [done|by apply hex_term]. }
  assert (forall key, Forall byte_ok key -> exists t', set_root t (delete db (fuel_for (keybytesToHex key)) (root t) [] (keybytesToHex key)) =
    Some (Ok tt, t') /\ trie_ok t') as Hdel.
  { intros key Hk. destruct (delete_ok db (fuel_for (keybytesToHex key)) (root t) [] (keybytesToHex key)) as (d & n' & -> & H & _).
    - right. by apply hex_term.
    - by apply root_at.
    - apply root_steps.
    - eexists. split; [done|]. by eapply Hok. }
  destruct op as [key|key v|key]; cbn [trie_step op_ok] in *.
  - unfold TryGet. destruct (tryGet_ok db (fuel_for (keybytesToHex key)) (root t) (keybytesToHex key) 0) as (ov & n' & d & -> & _ & H & _).
    { right. by apply hex_term. } { by apply root_at. } { apply root_steps. }
    eexists _, _. split; [reflexivity|]. cbn [fst snd]. split; [|done]. destruct d; [by eapply Hok|done].
  - unfold TryUpdate. destruct v as [|b v].
    + destruct (Hdel key Hop) as (t' & -> & H). eexists _, _. split; [reflexivity|]. done.
    + destruct (insert_ok db (fuel_for (keybytesToHex key)) (root t) [] (keybytesToHex key) (b :: v)) as (d & n' & -> & _ & H & _); try done.
      { right. by apply hex_term. } { by apply root_at. } { apply root_steps. }
      eexists _, _. split; [reflexivity|]. split; [by eapply Hok|done].
  - unfold TryDelete. destruct (Hdel key Hop) as (t' & -> & H). eexists _, _. split; [reflexivity|]. done.
Qed.

(** C30. Well-formed tries are closed under the operations: from a compressed
    radix tree over a complete database (no chain of short nodes, no branch
    with fewer than two entries, values only at the terminator), every
    sequence of operations on byte keys returns, without error, and leaves
    such a tree. *)
Theorem trie_well_formed ops : forall t, trie_ok t -> Forall op_ok ops ->
  exists t' outs, trie_run t ops = Some (t', outs) /\ trie_ok t' /\ Forall (fun o => forall e, o <> OutError e) outs.
Proof.
  induction ops as [|op ops IH]; intros t Ht Hops; [by exists t, []|]. inversion Hops as [|? ? Hop1 Hops1]; subst.
  destruct (trie_step_ok t op) as (t1 & o & E1 & H1 & Ho); [done|done|]. destruct (IH t1) as (t2 & outs & E2 & H2 & Hos); [done|done|].
  exists t2, (o :: outs). cbn [trie_run]. rewrite E1. cbn [mbind option_bind fst snd]. rewrite E2. split; [done|]. split; [done|]. by constructor.
Qed.

(** ** The shape is determined by the content *)

(** Equal up to the cache flags. *)
Inductive alike : node -> node -> Prop :=
| al_nil : alike nilNode nilNode
| al_value v : alike (valueNode v) (valueNode v)
| al_short K c c' f f' : alike c c' -> alike (shortNode K c f) (shortNode K c' f')
| al_full cs cs' f f' : length cs = length cs' -> (forall i c c', cs !! i = Some c -> cs' !! i = Some c' -> alike c c') ->
    alike (fullNode cs f) (fullNode cs' f').

(** Completely in memory. *)
Inductive pure : node -> Prop :=
| pu_nil : pure nilNode
| pu_value v : pure (valueNode v)
| pu_short K c f : pure c -> pure (shortNode K c f)
| pu_full cs f : Forall pure cs -> pure (fullNode cs f).

Lemma wf_inhabited n : wf db n -> exists k v, holds db n k v.
Proof.
  induction 1 as [K v f HK Hv|K c f HK Hn Hc (k & v & H) Hf|cs f Hl Hs IH Hv (i & j & c & d & Hij & Hc & Hd & Hcn & Hdn)|h n Hn Hw (k & v & H) Hl].
  - exists (K ++ []), v. constructor. constructor.
  - exists (K ++ k), v. by constructor.
  - pose proof (lookup_lt_Some _ _ _ Hc) as Hi. destruct (decide (i = 16%nat)) as [->|Hne].
    + destruct (Hv c Hc Hcn) as (v & _ & ->). exists [16], v. apply (h_full db cs f 16 _ [] v Hc). constructor.
    + destruct (IH i c) as (k & v & H); [lia|done|done|]. exists (Z.of_nat i :: k), v. by econstructor.
  - exists k, v. by econstructor.
Qed.

Lemma child_inhabited cs f i c : wf db (fullNode cs f) -> cs !! i = Some c -> c <> nilNode -> exists k v, holds db c k v.
Proof.
  inversion 1 as [| |cs' f' Hl Hs Hv _|]; subst. intros Hc Hn. pose proof (lookup_lt_Some _ _ _ Hc) as Hi.
  destruct (decide (i = 16%nat)) as [->|Hne].
  - destruct (Hv c Hc Hn) as (v & _ & ->). exists [], v. constructor.
  - apply wf_inhabited. eapply Hs; [|done|done]. lia.
Qed.

(** A branch leads to two keys that differ at once. *)
Lemma full_two cs f : wf db (fullNode cs f) ->
  exists a b k k' v v', a <> b /\ holds db (fullNode cs f) (a :: k) v /\ holds db (fullNode cs f) (b :: k') v'.
Proof.
  intros Hw. pose proof Hw as Hw'. inversion Hw' as [| |cs' f' Hl Hs Hv (i & j & c & d & Hij & Hc & Hd & Hcn & Hdn)|]; subst.
  destruct (child_inhabited _ _ _ _ Hw Hc Hcn) as (k & v & H1), (child_inhabited _ _ _ _ Hw Hd Hdn) as (k' & v' & H2).
  exists (Z.of_nat i), (Z.of_nat j), k, k', v, v'. split; [lia|]. split; by econstructor.
Qed.

(** The branch below an extension, in memory or not. *)
Lemma ext_two K c f : wf db (shortNode K c f) -> fullish db c -> wf db c ->
  exists a b k k' v v', a <> b /\ holds db (shortNode K c f) (K ++ a :: k) v /\ holds db (shortNode K c f) (K ++ b :: k') v'.
Proof.
  intros _ [Hf|(h & n' & -> & Hn & Hf)] Hc.
  - destruct c as [|cs g| | |]; try done. destruct (full_two cs g Hc) as (a & b & k & k' & v & v' & Hne & H1 & H2).
    exists a, b, k, k', v, v'. split; [done|]. split; by constructor.
  - inversion Hc as [| | |h' n2 Hn2 Hw2 _]; subst. simplify_eq. destruct n' as [|cs g| | |]; try done.
    destruct (full_two cs g Hw2) as (a & b & k & k' & v & v' & Hne & H1 & H2).
    exists a, b, k, k', v, v'. split; [done|]. split; constructor; by econstructor.
Qed.

Lemma prefix_both (p q : list Z) a b s t x y : a <> b -> p ++ a :: s = q ++ x -> p ++ b :: t = q ++ y -> exists r, p = q ++ r.
Proof.
  revert q. induction p as [|z p IH]; intros [|w q] Hne E1 E2; cbn in *; simplify_eq; eauto.
  destruct (IH q Hne) as [r ->]; eauto.
Qed.

(** A leaf has one key, a branch or an extension has two. *)
Lemma leaf_key K v f k w : holds db (shortNode K (valueNode v) f) k w <-> k = K /\ w = v.
Proof.
  rewrite holds_short. setoid_rewrite holds_value. split.
  - intros (k' & -> & -> & ->). by rewrite app_nil_r.
  - intros [-> ->]. exists []. by rewrite app_nil_r.
Qed.

Lemma ext_prefix K c f K' c' f' : wf db (shortNode K c f) -> fullish db c -> wf db c ->
  same_content db (shortNode K' c' f') (shortNode K c f) -> exists r, K = K' ++ r.
Proof.
  intros Hw Hf Hc Hs. destruct (ext_two K c f Hw Hf Hc) as (a & b & k & k' & v & v' & Hne & H1%Hs & H2%Hs).
  apply holds_short in H1 as (x & E1 & _), H2 as (y & E2 & _). by eapply prefix_both.
Qed.

Lemma same_content_sym n n' : same_content db n n' -> same_content db n' n.
Proof. intros H k w. by rewrite (H k w). Qed.

Lemma ext_same K c f K' c' f' : wf db (shortNode K c f) -> fullish db c -> wf db c ->
  wf db (shortNode K' c' f') -> fullish db c' -> wf db c' ->
  same_content db (shortNode K c f) (shortNode K' c' f') -> K = K' /\ same_content db c c'.
Proof.
  intros W1 F1 C1 W2 F2 C2 Hs. destruct (ext_prefix _ _ _ _ _ _ W2 F2 C2 Hs) as [r Er].
  destruct (ext_prefix _ _ _ _ _ _ W1 F1 C1 (same_content_sym _ _ Hs)) as [q Eq].
  assert (K = K') as <-.
  { assert (length (q ++ r) = 0%nat) as El by (pose proof (f_equal length Er); pose proof (f_equal length Eq); rewrite !length_app in *; lia).
    apply nil_length_inv, app_eq_nil in El as [-> ->]. by rewrite app_nil_r in Eq. }
  split; [done|]. intros k w. specialize (Hs (K ++ k) w). rewrite !holds_short in Hs. split.
  - intros H. destruct (proj1 Hs (ex_intro _ k (conj eq_refl H))) as (k' & ->%(inj (app K)) & ?). done.
  - intros H. destruct (proj2 Hs (ex_intro _ k (conj eq_refl H))) as (k' & ->%(inj (app K)) & ?). done.
Qed.

Lemma full_same cs f cs' f' i c c' : same_content db (fullNode cs f) (fullNode cs' f') -> cs !! i = Some c -> cs' !! i = Some c' ->
  same_content db c c'.
Proof.
  intros Hs Hc Hc' k w. specialize (Hs (Z.of_nat i :: k) w). rewrite !holds_slot, Nat2Z.id in Hs by lia. split.
  - intros H. destruct (proj1 Hs (ex_intro _ c' (conj Hc' H))) as (d & Hd & ?). by simplify_eq.
  - intros H. destruct (proj2 Hs (ex_intro _ c (conj Hc H))) as (d & Hd & ?). by simplify_eq.
Qed.

Lemma two_not_leaf n K v f : (exists a b k v v', a <> b /\ holds db n (k ++ a) v /\ holds db n (k ++ b) v') ->
  (forall k w, holds db n k w <-> holds db (shortNode K (valueNode v) f) k w) -> False.
Proof.
  intros (a & b & k & w & w' & Hne & H1 & H2) Hs. apply Hs, leaf_key in H1 as [E1 _]. apply Hs, leaf_key in H2 as [E2 _].
  apply Hne. rewrite <- E1 in E2. by apply (inj (app k)) in E2.
Qed.

(** What is not a leaf has two keys. *)
Lemma branching n : wf db n -> pure n ->
  (exists K v f, n = shortNode K (valueNode v) f) \/ (exists a b k v v', a <> b /\ holds db n (k ++ a) v /\ holds db n (k ++ b) v').
Proof.
  intros Hw Hp. inversion Hw as [K v f HK Hv|K c f HK Hn Hc Hf|cs f Hl Hs Hv Ht|h n' Hn Hw' Hl]; subst.
  - left. eauto.
  - right. destruct (ext_two K c f Hw Hf Hc) as (a & b & k & k' & v & v' & Hne & H1 & H2).
    exists (a :: k), (b :: k'), K, v, v'. split; [congruence|done].
  - right. destruct (full_two cs f Hw) as (a & b & k & k' & v & v' & Hne & H1 & H2). exists (a :: k), (b :: k'), [], v, v'. split; [congruence|done].
  - inversion Hp.
Qed.

Lemma ext_not_full K c f cs g : K <> [] -> wf db (fullNode cs g) -> same_content db (shortNode K c f) (fullNode cs g) -> False.
Proof.
  intros HK Hw Hs. destruct (full_two cs g Hw) as (a & b & k & k' & v & v' & Hne & H1%Hs & H2%Hs).
  apply holds_short in H1 as (x & E1 & _), H2 as (y & E2 & _). destruct K; [done|]. cbn in *. congruence.
Qed.

Lemma canonical n : wf db n -> forall n', wf db n' -> pure n -> pure n' -> same_content db n n' -> alike n n'.
Proof.
  induction 1 as [K v f HK Hv|K c f HK Hn Hc IH Hf|cs f Hl Hs IH Hv Ht|h n Hn Hw IH Hl]; intros n' Hw' Hp Hp' Hsc.
  - destruct (branching n' Hw' Hp') as [(K' & v' & f' & ->)|H2]; [|by destruct (two_not_leaf n' K v f)].
    assert (holds db (shortNode K (valueNode v) f) K' v') as [-> ->]%leaf_key by (apply Hsc; by apply leaf_key). constructor. constructor.
  - assert (wf db (shortNode K c f)) as Hw by (by constructor).
    inversion Hw' as [K' v' f' HK' Hv'|K' c' f' HK' Hn' Hc' Hf'|cs' f' Hl' Hs' Hv' Ht'|h' n2 Hn2 Hw2 Hl2]; subst.
    + destruct (ext_two K c f Hw Hf Hc) as (a & b & k & k' & x & x' & Hne & H1 & H2). exfalso.
      apply (two_not_leaf (shortNode K c f) K' v' f'); [|by apply same_content_sym].
      exists (a :: k), (b :: k'), K, x, x'. split; [congruence|done].
    + destruct (ext_same K c f K' c' f') as [<- Hcc]; try done. constructor. inversion Hp; inversion Hp'; subst. by apply IH.
    + by destruct (ext_not_full K c f cs' f').
    + inversion Hp'.
  - assert (wf db (fullNode cs f)) as Hw by (by constructor).
    inversion Hw' as [K' v' f' HK' Hv'|K' c' f' HK' Hn' Hc' Hf'|cs' f' Hl' Hs' Hv' Ht'|h' n2 Hn2 Hw2 Hl2]; subst.
    + destruct (full_two cs f Hw) as (a & b & k & k' & x & x' & Hne & H1 & H2). exfalso.
      apply (two_not_leaf (fullNode cs f) K' v' f'); [|by apply same_content_sym].
      exists (a :: k), (b :: k'), [], x, x'. split; [congruence|done].
    + destruct (ext_not_full K' c' f' cs f); try done. by apply same_content_sym.
    + constructor; [congruence|]. intros i c c' Hc Hc'. pose proof (full_same _ _ _ _ _ _ _ Hsc Hc Hc') as Hcc.
      assert (c = nilNode <-> c' = nilNode) as Hnil.
      { split; intros ->; [destruct (decide (c' = nilNode)) as [|Hne]; [done|]|destruct (decide (c = nilNode)) as [|Hne]; [done|]]; exfalso.
        - destruct (child_inhabited _ _ _ _ Hw' Hc' Hne) as (k & v & H%Hcc). inversion H.
        - destruct (child_inhabited _ _ _ _ Hw Hc Hne) as (k & v & H%Hcc). inversion H. }
      destruct (decide (c = nilNode)) as [->|Hne]; [rewrite (proj1 Hnil eq_refl); constructor|].
      assert (c' <> nilNode) as Hne' by tauto. pose proof (lookup_lt_Some _ _ _ Hc) as Hi. inversion Hp as [| | |? ? Hpc]; inversion Hp' as [| | |? ? Hpc']; subst.
      destruct (decide (i = 16%nat)) as [->|H16].
      * destruct (Hv c Hc Hne) as (x & _ & ->), (Hv' c' Hc' Hne') as (y & _ & ->).
        assert (holds db (valueNode y) [] x) as [_ ->]%holds_value by (apply Hcc; constructor). constructor.
      * rewrite Forall_lookup in Hpc, Hpc'. apply (IH i c); try done; [lia|eapply Hs'; [|done|done]; lia|eauto|eauto].
    + inversion Hp'.
  - inversion Hp.
Qed.

(** ** Tries in memory stay in memory *)

Definition pure_result (r : option (res trie_error (bool * node))) : Prop :=
  forall d n', r = Some (Ok (d, n')) -> pure n'.

Lemma pure_insert_slot cs i n : Forall pure cs -> pure n -> Forall pure (<[i := n]> cs).
Proof. intros. by apply Forall_insert. Qed.

Lemma insert_pure fuel n prefix key v : pure n -> pure v -> pure_result (insert db fuel n prefix key v).
Proof.
  revert n prefix key v. induction fuel as [|fuel IH]; intros n prefix key v Hn Hv d n'; [done|]. cbn [insert].
  destruct key as [|k0 key]; [destruct n as [| | | |w]; try (intros [= _ <-]; done); destruct v; by intros [= _ <-]|].
  destruct n as [|cs f|K c f|h|w]; [by intros [= _ <-]; constructor| | |by inversion Hn|done].
  - inversion Hn as [| | |? ? Hcs]; subst. destruct (cs !! Z.to_nat k0) as [c|] eqn:Hc; [|done]. cbn [mbind option_bind].
    destruct (insert db fuel c _ key v) as [[[d' nn]|]|] eqn:E; try done. intros [= E']. destruct d'; simplify_eq; [|done].
    constructor. apply pure_insert_slot; [done|]. eapply IH; [|done|done]. by eapply Forall_lookup_1.
  - inversion Hn as [| |? ? ? Hc|]; subst. destruct (_ =? _)%nat.
    + destruct (insert db fuel c _ _ v) as [[[d' nn]|]|] eqn:E; try done. intros [= E']. destruct d'; simplify_eq; [|done].
      constructor. by eapply IH in E.
    + destruct (K !! _) as [b1|]; [|done]. cbn [mbind option_bind].
      destruct (insert db fuel nilNode _ _ c) as [[[d1 n1]|]|] eqn:E1; try done. destruct ((k0 :: key) !! _) as [b2|]; [|done].
      cbn [mbind option_bind]. destruct (insert db fuel nilNode _ _ v) as [[[d2 n2]|]|] eqn:E2; try done.
      apply IH in E1; [|constructor|done]. apply IH in E2; [|constructor|done].
      destruct (_ && _); [|done]. intros [= _ <-].
      assert (pure (fullNode (<[Z.to_nat b2:=n2]> (<[Z.to_nat b1:=n1]> empty_children)) newFlag)) as Hb.
      { constructor. apply pure_insert_slot; [apply pure_insert_slot|]; try done. apply Forall_replicate. constructor. }
      destruct (_ =? _)%nat; [done|by constructor].
Qed.

Lemma reduce_pure cs prefix : Forall pure cs -> pure_result (reduce_full db cs prefix).
Proof.
  intros Hcs d n'. unfold reduce_full. destruct (0 <=? _); [|intros [= _ <-]; by constructor].
  destruct (cs !! _) as [c|] eqn:Hc; [|done]. cbn [mbind option_bind]. assert (pure c) as Hp by (by eapply Forall_lookup_1).
  destruct (_ =? 16); [intros [= _ <-]; by constructor|]. inversion Hp; subst; cbn [resolve]; intros [= _ <-]; by repeat constructor.
Qed.

Lemma delete_pure fuel n prefix key : pure n -> pure_result (delete db fuel n prefix key).
Proof.
  revert n prefix key. induction fuel as [|fuel IH]; intros n prefix key Hn d n'; [done|]. cbn [delete].
  destruct n as [|cs f|K c f|h|w]; [by intros [= _ <-]| | |by inversion Hn|intros [= _ <-]; constructor].
  - inversion Hn as [| | |? ? Hcs]; subst. destruct (head key) as [k0|]; [|done]. cbn [mbind option_bind].
    destruct (cs !! Z.to_nat k0) as [c|] eqn:Hc; [|done]. cbn [mbind option_bind].
    destruct (delete db fuel c _ _) as [[[d' nn]|]|] eqn:E; try done. destruct d'; cbn [negb]; [|by intros [= _ <-]].
    apply reduce_pure. apply pure_insert_slot; [done|]. eapply IH; [|done]. by eapply Forall_lookup_1.
  - inversion Hn as [| |? ? ? Hc|]; subst. destruct (_ <? _)%nat; [by intros [= _ <-]|]. destruct (_ =? _)%nat; [intros [= _ <-]; constructor|].
    destruct (delete db fuel c _ _) as [[[d' child]|]|] eqn:E; try done. apply IH in E; [|done]. destruct d'; cbn [negb]; [|by intros [= _ <-]].
    destruct child; intros [= _ <-]; inversion E; subst; by repeat constructor.
Qed.

Lemma get_pure fuel n key pos ov n' d : pure n -> tryGet db fuel n key pos = Some (Ok (ov, n', d)) -> d = false.
Proof.
  revert n pos ov n' d. induction fuel as [|fuel IH]; intros n pos ov n' d Hn; [done|]. cbn [tryGet].
  destruct n as [|cs f|K c f|h|w]; [by intros [= _ _ <-]| | |by inversion Hn|by intros [= _ _ <-]].
  - inversion Hn as [| | |? ? Hcs]; subst. destruct (key !! pos) as [b|]; [|done]. cbn [mbind option_bind].
    destruct (cs !! Z.to_nat b) as [c|] eqn:Hc; [|done]. cbn [mbind option_bind].
    destruct (tryGet db fuel c key _) as [[[[v nn] d']|]|] eqn:E; try done. intros [= _ _ <-]. eapply IH; [|done]. by eapply Forall_lookup_1.
  - inversion Hn as [| |? ? ? Hc|]; subst. destruct (_ || _); [by intros [= _ _ <-]|].
    destruct (tryGet db fuel c key _) as [[[[v nn] d']|]|] eqn:E; try done. intros [= _ _ <-]. by eapply IH.
Qed.

Lemma set_root_pure t r x t' : pure (root t) -> pure_result r -> set_root t r = Some (x, t') -> pure (root t').
Proof. intros Ht Hr. unfold set_root. destruct r as [[[d n]|e]|]; [| |done]; intros [= _ <-]; [by eapply Hr|done]. Qed.

Lemma trie_step_pure t op t' o : pure (root t) -> trie_step t op = Some (t', o) -> pure (root t').
Proof.
  intros Ht. destruct op as [key|key v|key]; cbn [trie_step].
  - unfold TryGet. destruct (tryGet _ _ _ _ _) as [[[[v nn] d]|]|] eqn:E; try done; cbn [mbind option_bind fst snd]; intros [= <- _]; [|done].
    by rewrite (get_pure _ _ _ _ _ _ _ Ht E).
  - destruct (TryUpdate db t key v) as [[r t1]|] eqn:E; [|done]. cbn [mbind option_bind fst snd]. intros [= <- _].
    unfold TryUpdate in E. eapply set_root_pure in E; [done|done|]. destruct v; [by apply delete_pure|apply insert_pure; [done|constructor]].
  - destruct (TryDelete db t key) as [[r t1]|] eqn:E; [|done]. cbn [mbind option_bind fst snd]. intros [= <- _].
    unfold TryDelete in E. eapply set_root_pure in E; [done|done|]. by apply delete_pure.
Qed.

Lemma trie_run_pure ops : forall t t' outs, pure (root t) -> trie_run t ops = Some (t', outs) -> pure (root t').
Proof.
  induction ops as [|op ops IH]; intros t t' outs Ht; cbn [trie_run]; [by intros [= <- _]|].
  destruct (trie_step t op) as [[t1 o]|] eqn:E1; [|done]. cbn [mbind option_bind fst snd].
  destruct (trie_run t1 ops) as [[t2 os]|] eqn:E2; [|done]. cbn [mbind option_bind fst snd]. intros [= <- _].
  eapply IH; [|done]. by eapply trie_step_pure.
Qed.

Lemma rep_same t t' m : Rep t m -> Rep t' m -> same_content db (root t) (root t').
Proof.
  intros R R' k w. split; intros H.
  - destruct (rep_key _ _ R' _ _ H) as (key & Hk & ->). apply (rep_in _ _ R _ _ Hk). by apply (rep_in _ _ R' _ _ Hk).
  - destruct (rep_key _ _ R _ _ H) as (key & Hk & ->). apply (rep_in _ _ R' _ _ Hk). by apply (rep_in _ _ R _ _ Hk).
Qed.

(** C18. The trie does not remember its history: two sequences of operations on
    the empty trie that produce the same map produce the same tree, up to the
    cache flags of its nodes. *)
Theorem trie_history_independent ops1 ops2 t1 t2 outs1 outs2 :
  Forall op_ok ops1 -> Forall op_ok ops2 ->
  trie_run (MkTrie nilNode 0) ops1 = Some (t1, outs1) -> trie_run (MkTrie nilNode 0) ops2 = Some (t2, outs2) ->
  (spec_run ∅ ops1).1 = (spec_run ∅ ops2).1 -> alike (root t1) (root t2).
Proof.
  intros O1 O2 E1 E2 Em. destruct (trie_run_rep ops1 _ _ (rep_empty 0) O1) as (t1' & E1' & R1), (trie_run_rep ops2 _ _ (rep_empty 0) O2) as (t2' & E2' & R2).
  rewrite E1 in E1'. rewrite E2 in E2'. injection E1' as <- _. injection E2' as <- _. rewrite Em in R1. pose proof (rep_same _ _ _ R1 R2) as Hs.
  assert (pure (root t1)) by (eapply (trie_run_pure ops1 (MkTrie nilNode 0)); [constructor|done]).
  assert (pure (root t2)) by (eapply (trie_run_pure ops2 (MkTrie nilNode 0)); [constructor|done]).
  destruct (rep_ok _ _ R1) as [N1|W1], (rep_ok _ _ R2) as [N2|W2].
  - rewrite N1, N2. constructor.
  - destruct (wf_inhabited _ W2) as (k & v & Hkv%Hs). rewrite N1 in Hkv. inversion Hkv.
  - destruct (wf_inhabited _ W1) as (k & v & Hkv%Hs). rewrite N2 in Hkv. inversion Hkv.
  - by apply canonical.
Qed.
End refine.

(** ** Witnesses *)

(** A database with one leaf, and the trie that has not loaded it. *)
Definition demo_hash : list Z := replicate 32 7.
Definition demo_leaf : node := shortNode (keybytesToHex [1]) (valueNode [5]) (MkFlag (Some demo_hash) false).
Definition demo_db (h : list Z) : option node := if bool_decide (h = demo_hash) then Some demo_leaf else None.
Definition demo_trie : Trie := MkTrie (hashNode demo_hash) 0.

Lemma demo_leaf_wf : wf demo_db demo_leaf.
Proof. constructor; [|done]. apply hex_term. repeat constructor; unfold byte_ok; lia. Qed.

Lemma demo_rep : Rep demo_db demo_trie {[ [1] := [5] ]}.
Proof.
  assert (demo_db (BytesToHash demo_hash) = Some demo_leaf) as Hdb by (vm_compute; reflexivity).
  assert (Forall byte_ok [1]) as H1 by (repeat constructor; unfold byte_ok; lia).
  split.
  - right. by apply (wf_hash _ _ demo_leaf Hdb demo_leaf_wf).
  - intros key v Hk. cbn [root demo_trie]. rewrite (holds_hash _ _ _ _ _ Hdb). unfold demo_leaf. rewrite leaf_key, lookup_singleton_Some. split.
    + by intros [<- <-].
    + by intros [?%hex_inj ->].
  - intros k v. cbn [root demo_trie]. rewrite (holds_hash _ _ _ _ _ Hdb). unfold demo_leaf. rewrite leaf_key. intros [-> _]. by exists [1].
  - intros key v [<- _]%lookup_singleton_Some. done.
Qed.

Definition demo_ops : list trie_op :=
  [OUpdate [1; 2] [9]; OGet [1]; OUpdate [17] [8; 8]; OUpdate [1] []; OGet [1; 2]; ODelete [17]; OGet [17]].

Lemma demo_ops_ok : Forall op_ok demo_ops.
Proof. repeat constructor; unfold byte_ok; lia. Qed.

Lemma trie_refines_map_witness :
  exists t', trie_run demo_db demo_trie demo_ops = Some (t', (spec_run {[ [1] := [5] ]} demo_ops).2) /\
    Rep demo_db t' (spec_run {[ [1] := [5] ]} demo_ops).1.
Proof. apply (trie_refines_map demo_db demo_trie {[ [1] := [5] ]} demo_ops); [exact demo_rep|exact demo_ops_ok]. Defined.

Lemma trie_well_formed_witness :
  exists t' outs, trie_run demo_db demo_trie demo_ops = Some (t', outs) /\ trie_ok demo_db t' /\
    Forall (fun o => forall e, o <> OutError e) outs.
Proof. apply (trie_well_formed demo_db demo_ops demo_trie); [exact (rep_ok _ _ _ demo_rep)|exact demo_ops_ok]. Defined.

Definition demo_ops2 : list trie_op := [OUpdate [1; 2] [9]].
Definition demo_run (ops : list trie_op) : Trie * list trie_out :=
  match trie_run demo_db (MkTrie nilNode 0) ops with Some r => r | None => (MkTrie nilNode 0, []) end.

Lemma trie_history_independent_witness : alike (root (demo_run demo_ops).1) (root (demo_run demo_ops2).1).
Proof.
  apply (trie_history_independent demo_db demo_ops demo_ops2 (demo_run demo_ops).1 (demo_run demo_ops2).1
    (demo_run demo_ops).2 (demo_run demo_ops2).2).
  - exact demo_ops_ok.
  - repeat constructor; unfold byte_ok; lia.
  - vm_compute. reflexivity.
  - vm_compute. reflexivity.
  - vm_compute. reflexivity.
Defined.
