(* ===== verification/TrieStore.v ===== *)
(** * Stored trie nodes ([src/trie/node.go], [hasher.go], [committer.go], [database.go], [proof.go])

    The RLP form of a node, the hasher that collapses a trie to its root hash,
    the decoder, the committer and the in-memory node database, and Merkle
    proofs.  Keccak is the function that the nodes are hashed with.  A result
    [None] is a panic. *)

From S2P Require Import Prelude Bytes Rlp Trie.
Local Open Scope Z_scope.

(** ** Encoding *)

(** What reflection finds in a node: a short node is a struct of its key and
    its child, a full node encodes its children with the empty string for the
    missing ones; a nil interface is an empty list. *)
Fixpoint node_value (n : node) : value :=
  match n with
  | nilNode => VList []
  | valueNode v => VBytes v
  | hashNode h => VBytes h
  | shortNode K c _ => VList [VBytes K; node_value c]
  | fullNode cs _ => VList ((fun c => if is_nil c then VBytes [] else node_value c) <$> cs)
  end.

Definition EncodeRLP (n : node) : option (list Z) := EncodeToBytes (node_value n).

Definition cache (n : node) : option (list Z) * bool :=
  match n with
  | fullNode _ f | shortNode _ _ f => (fhash f, dirty f)
  | _ => (None, true)
  end.

(** ** Decoding *)

Inductive node_err :=
| EUnexpectedEOF
| EDecode (e : rerr)
| EElements (c : nat)
| ERlp (e : rerr)
| EInvalidValue (e : rerr)
| EOversized (size : nat)
| EStringSize (len : nat)
| EFuel.

Inductive decode_ctx := CShort | CFull | CVal | CIndex (i : nat).

(** A plain error, or a [decodeError] with the path to the invalid node. *)
Inductive node_error :=
| Plain (what : node_err)
| decodeError (what : node_err) (stack : list decode_ctx).

Definition wrapError (err : node_error) (ctx : decode_ctx) : node_error :=
  match err with
  | decodeError w st => decodeError w (st ++ [ctx])
  | Plain w => decodeError w [ctx]
  end.

Definition hashLen : nat := 32.

(** [decodeRef], given the decoder of embedded nodes. *)
Definition decodeRef (decode : option (list Z) -> list Z -> res node_error node) (buf : list Z)
  : res node_error (node * list Z) :=
  match Split buf with
  | Err e => Err (Plain (ERlp e))
  | Ok (kind, val, rest) =>
    match kind with
    | KList =>
      let size := (length buf - length rest)%nat in
      if (hashLen <? size)%nat then Err (Plain (EOversized size))
      else match decode None buf with Ok n => Ok (n, rest) | Err e => Err e end
    | KString =>
      if (length val =? 0)%nat then Ok (nilNode, rest)
      else if (length val =? 32)%nat then Ok (hashNode val, rest)
      else Err (Plain (EStringSize (length val)))
    | KByte => Err (Plain (EStringSize (length val)))
    end
  end.

Definition decodeShort (decode : option (list Z) -> list Z -> res node_error node) (hash : option (list Z)) (elems : list Z)
  : res node_error node :=
  match SplitString elems with
  | Err e => Err (Plain (ERlp e))
  | Ok (kbuf, rest) =>
    let flag := MkFlag hash false in
    let key := compactToHex kbuf in
    if hasTerm key then
      match SplitString rest with
      | Err e => Err (Plain (EInvalidValue e))
      | Ok (val, _) => Ok (shortNode key (valueNode val) flag)
      end
    else match decodeRef decode rest with
    | Err e => Err (wrapError e CVal)
    | Ok (r, _) => Ok (shortNode key r flag)
    end
  end.

(** The loop over the 16 children of [decodeFull]. *)
Fixpoint decode_children (decode : option (list Z) -> list Z -> res node_error node) (i k : nat) (elems : list Z)
  : res node_error (list node * list Z) :=
  match k with
  | O => Ok ([], elems)
  | S k =>
    match decodeRef decode elems with
    | Err e => Err (wrapError e (CIndex i))
    | Ok (cld, rest) =>
      match decode_children decode (S i) k rest with
      | Err e => Err e
      | Ok (cs, rest) => Ok (cld :: cs, rest)
      end
    end
  end.

Definition decodeFull (decode : option (list Z) -> list Z -> res node_error node) (hash : option (list Z)) (elems : list Z)
  : res node_error node :=
  match decode_children decode 0 16 elems with
  | Err e => Err e
  | Ok (cs, elems) =>
    match SplitString elems with
    | Err e => Err (Plain (ERlp e))
    | Ok (val, _) =>
      Ok (fullNode (cs ++ [match val with [] => nilNode | _ => valueNode val end]) (MkFlag hash false))
    end
  end.

(** The fuel bounds the nesting of embedded nodes; each is inside its parent. *)
Fixpoint decode_node (fuel : nat) (hash : option (list Z)) (buf : list Z) : res node_error node :=
  match fuel with
  | O => Err (Plain EFuel)
  | S fuel =>
    match buf with
    | [] => Err (Plain EUnexpectedEOF)
    | _ =>
      match SplitList buf with
      | Err e => Err (Plain (EDecode e))
      | Ok (elems, _) =>
        let c := match CountValues elems with Ok c => c | Err _ => 0%nat end in
        if (c =? 2)%nat then
          match decodeShort (decode_node fuel) hash elems with Ok n => Ok n | Err e => Err (wrapError e CShort) end
        else if (c =? 17)%nat then
          match decodeFull (decode_node fuel) hash elems with Ok n => Ok n | Err e => Err (wrapError e CFull) end
        else Err (Plain (EElements c))
      end
    end
  end.

Definition decodeNode (hash : option (list Z)) (buf : list Z) : res node_error node :=
  decode_node (S (length buf)) hash buf.

Definition mustDecodeNode (hash : option (list Z)) (buf : list Z) : option node :=
  match decodeNode hash buf with Ok n => Some n | Err _ => None end.

(** ** Hashing *)

Section store.
  Context (keccak : list Z -> list Z).

Definition hashData (data : list Z) : list Z := keccak data.

(** [shortnodeToHash] and [fullnodeToHash], on a collapsed node. *)
Definition nodeToHash (n : node) (force : bool) : option node :=
  tmp ← EncodeRLP n;
  Some (if (length tmp <? 32)%nat && negb force then n else hashNode (hashData tmp)).

Definition as_hash (n : node) : option (list Z) := match n with hashNode h => Some h | _ => None end.

(** [hashShortNodeChildren], given [hash] for the children. *)
Definition hashShortNodeChildren (hash : node -> bool -> option (node * node)) (K : list Z) (Val : node) (f : nodeFlag)
  : option (node * node) :=
  key ← hexToCompact K;
  match Val with
  | fullNode _ _ | shortNode _ _ _ =>
    r ← hash Val false;
    Some (shortNode key r.1 f, shortNode K r.2 f)
  | _ => Some (shortNode key Val f, shortNode K Val f)
  end.

(** The loop over the first 16 children: collapsed and cached.  The parallel
    hasher runs the rounds concurrently, each on its own slots. *)
Fixpoint hash_children (hash : node -> bool -> option (node * node)) (cs : list node) (k : nat) : option (list node * list node) :=
  match cs with
  | [] => Some ([], [])
  | c :: cs =>
    match k with
    | O => Some (c :: cs, c :: cs)
    | S k =>
      r ← match c with nilNode => Some (valueNode [], nilNode) | _ => hash c false end;
      s ← hash_children hash cs k;
      Some (r.1 :: s.1, r.2 :: s.2)
    end
  end.

Definition hashFullNodeChildren (hash : node -> bool -> option (node * node)) (cs : list node) (f : nodeFlag)
  : option (node * node) :=
  r ← hash_children hash cs 16;
  Some (fullNode r.1 f, fullNode r.2 f).

(** [cached.flags.hash = hn], or nil. *)
Definition set_hash (hashed cached : node) : node :=
  match cached with
  | shortNode K c f => shortNode K c (MkFlag (as_hash hashed) (dirty f))
  | fullNode cs f => fullNode cs (MkFlag (as_hash hashed) (dirty f))
  | n => n
  end.

Fixpoint hash (n : node) (force : bool) : option (node * node) :=
  match (cache n).1 with
  | Some h => Some (hashNode h, n)
  | None =>
    match n with
    | shortNode K c f =>
      r ← hashShortNodeChildren hash K c f;
      hashed ← nodeToHash r.1 force;
      Some (hashed, set_hash hashed r.2)
    | fullNode cs f =>
      r ← hashFullNodeChildren hash cs f;
      hashed ← nodeToHash r.1 force;
      Some (hashed, set_hash hashed r.2)
    | nilNode => None
    | _ => Some (n, n)
    end
  end.

(** [hashRoot]: the hashed root, the cached root. *)
Definition hashRoot (t : Trie) : option (node * node * Trie) :=
  match root t with
  | nilNode => Some (hashNode emptyRoot, nilNode, t)
  | _ => r ← hash (root t) true; Some (r.1, r.2, MkTrie (root t) 0)
  end.

Definition Hash (t : Trie) : option (list Z * Trie) :=
  r ← hashRoot t;
  h ← as_hash r.1.1;
  Some (BytesToHash h, MkTrie r.1.2 (unhashed r.2)).

(** [proofHash]: the collapsed node, and the hashed one. *)
Definition proofHash (original : node) : option (node * node) :=
  match original with
  | shortNode K c f => r ← hashShortNodeChildren hash K c f; h ← nodeToHash r.1 false; Some (r.1, h)
  | fullNode cs f => r ← hashFullNodeChildren hash cs f; h ← nodeToHash r.1 false; Some (r.1, h)
  | n => Some (n, n)
  end.

(** ** Merkle proofs *)

(** The nodes that [Prove] collects on the path to [key]. *)
Fixpoint prove_path (db : list Z -> option node) (fuel : nat) (tn : node) (key : list Z) : option (res trie_error (list node)) :=
  match fuel with
  | O => None
  | S fuel =>
    match key with
    | [] => Some (Ok [])
    | k0 :: key1 =>
      match tn with
      | nilNode => Some (Ok [])
      | shortNode K Val _ =>
        let r :=
          if (length key <? length K)%nat || negb (bool_decide (K = take (length K) key)) then Some (Ok [])
          else prove_path db fuel Val (drop (length K) key) in
        match r with Some (Ok nodes) => Some (Ok (tn :: nodes)) | _ => r end
      | fullNode cs _ =>
        c ← cs !! Z.to_nat k0;
        match prove_path db fuel c key1 with Some (Ok nodes) => Some (Ok (tn :: nodes)) | r => r end
      | hashNode h =>
        match resolveHash db h [] with
        | Ok n => prove_path db fuel n key
        | Err e => Some (Err e)
        end
      | valueNode _ => None
      end
    end
  end.

(** The proof elements among the collected nodes, written to [proofDb]. *)
Fixpoint prove_put (i : nat) (fromLevel : Z) (nodes : list node) (proofDb : gmap (list Z) (list Z)) : option (gmap (list Z) (list Z)) :=
  match nodes with
  | [] => Some proofDb
  | n :: nodes =>
    if 0 <? fromLevel then prove_put (S i) (fromLevel - 1) nodes proofDb
    else
      r ← proofHash n;
      let enc := match EncodeRLP r.1 with Some e => e | None => [] end in
      match r.2 with
      | hashNode h => prove_put (S i) fromLevel nodes (<[h := enc]> proofDb)
      | _ => prove_put (S i) fromLevel nodes (if (i =? 0)%nat then <[hashData enc := enc]> proofDb else proofDb)
      end
  end.

Definition Prove (db : list Z -> option node) (t : Trie) (key : list Z) (fromLevel : Z) (proofDb : gmap (list Z) (list Z))
  : option (res trie_error unit * gmap (list Z) (list Z)) :=
  let key := keybytesToHex key in
  match prove_path db (fuel_for key) (root t) key with
  | None => None
  | Some (Err e) => Some (Err e, proofDb)
  | Some (Ok nodes) => pdb ← prove_put 0 fromLevel nodes proofDb; Some (Ok tt, pdb)
  end.
End store.

(** [get] of [proof.go]: the rest of the key and the child. *)
Fixpoint get (tn : node) (key : list Z) (skipResolved : bool) : option (list Z * node) :=
  match tn with
  | shortNode K Val _ =>
    if (length key <? length K)%nat || negb (bool_decide (K = take (length K) key)) then Some ([], nilNode)
    else if negb skipResolved then Some (drop (length K) key, Val)
    else get Val (drop (length K) key) skipResolved
  | fullNode cs _ =>
    match key with
    | [] => None
    | k0 :: key =>
      (fix slot (cs : list node) (i : nat) : option (list Z * node) :=
         match cs, i with
         | [], _ => None
         | c :: _, O => if negb skipResolved then Some (key, c) else get c key skipResolved
         | _ :: cs, S i => slot cs i
         end) cs (Z.to_nat k0)
    end
  | hashNode h => Some (key, hashNode h)
  | nilNode => Some (key, nilNode)
  | valueNode v => Some ([], valueNode v)
  end.

Inductive proof_error :=
| ProofMissing (i : nat) (hash : list Z)
| ProofBad (i : nat) (e : node_error)
| ProofFuel.

(** [copy(wantHash[:], cld)]. *)
Definition copy_hash (wantHash cld : list Z) : list Z := take (length wantHash) cld ++ drop (length cld) wantHash.

(** The loop of [VerifyProof]; the fuel bounds its rounds. *)
Fixpoint verify (proofDb : list Z -> option (list Z)) (fuel i : nat) (wantHash key : list Z) : option (res proof_error (option (list Z))) :=
  match fuel with
  | O => Some (Err ProofFuel)
  | S fuel =>
    match proofDb wantHash with
    | None => Some (Err (ProofMissing i wantHash))
    | Some buf =>
      match decodeNode (Some wantHash) buf with
      | Err e => Some (Err (ProofBad i e))
      | Ok n =>
        r ← get n key true;
        match r.2 with
        | nilNode => Some (Ok None)
        | hashNode cld => verify proofDb fuel (S i) (copy_hash wantHash cld) r.1
        | valueNode v => Some (Ok (Some v))
        | _ => verify proofDb fuel (S i) wantHash key
        end
      end
    end
  end.

(** Every round on the nodes of a trie uses a nibble of the key. *)
Definition VerifyProof (rootHash key : list Z) (proofDb : list Z -> option (list Z)) : option (res proof_error (option (list Z))) :=
  let key := keybytesToHex key in verify proofDb (S (length key)) 0 rootHash key.
