(* ===== verification/TrieHash.v ===== *)
(** * The root hash of a trie ([src/trie/hasher.go], [trie.go])

    The hash of a trie is the Keccak hash of the RLP form of its root, in
    which a child is replaced by its hash unless its own RLP form is shorter
    than a hash.  [node_item] defines it without caches; the hasher computes
    it, whatever it has cached and whatever part of the trie is in memory.
    The root hash is a function of the content, and commits to it. *)

From S2P Require Import Prelude Bytes Rlp Trie TrieKeys TrieMap TrieRefine TrieStore.
Local Open Scope Z_scope.

(** ** Nodes as trees *)

Lemma node_tree_ind (P : node -> Prop) :
  P nilNode -> (forall v, P (valueNode v)) -> (forall h, P (hashNode h)) ->
  (forall K c f, P c -> P (shortNode K c f)) -> (forall cs f, Forall P cs -> P (fullNode cs f)) -> forall n, P n.
Proof.
  intros H1 H2 H3 H4 H5. fix IH 1. intros [|cs f|K c f|h|v]; [apply H1| |apply H4, IH|apply H3|apply H2].
  apply H5. induction cs as [|c cs IHc]; constructor; [apply IH|apply IHc].
Qed.

(** A node without its cache flags. *)
Fixpoint strip (n : node) : node :=
  match n with
  | shortNode K c _ => shortNode K (strip c) newFlag
  | fullNode cs _ => fullNode (strip <$> cs) newFlag
  | n => n
  end.

Definition is_loaded (n : node) : bool := match n with fullNode _ _ | shortNode _ _ _ => true | _ => false end.

Lemma strip_loaded n : is_loaded (strip n) = is_loaded n.
Proof. by destruct n. Qed.

(** Forms of a node that equals another up to flags. *)
Lemma strip_short K c f n : strip (shortNode K c f) = strip n -> exists c' f', n = shortNode K c' f' /\ strip c = strip c'.
Proof. destruct n; cbn [strip]; intros [=]; subst; eauto. Qed.
Lemma strip_full cs f n : strip (fullNode cs f) = strip n -> exists cs' f', n = fullNode cs' f' /\ strip <$> cs = strip <$> cs'.
Proof. destruct n; cbn [strip]; intros E; try discriminate. injection E as E. eauto. Qed.
Lemma strip_leaf n n' : is_loaded n = false -> strip n = strip n' -> n' = n.
Proof. destruct n, n'; cbn; intros; congruence. Qed.

Lemma strip_slot (cs cs' : list node) (i : nat) c : strip <$> cs = strip <$> cs' -> cs !! i = Some c -> exists c', cs' !! i = Some c' /\ strip c = strip c'.
Proof.
  intros E Hc. assert ((strip <$> cs) !! i = Some (strip c)) as H by (by rewrite list_lookup_fmap, Hc).
  rewrite E, list_lookup_fmap in H. destruct (cs' !! i) as [c'|]; [|done]. injection H as H. eauto.
Qed.

Section flags.
  Context (db : list Z -> option node).

Lemma holds_strip n k v : holds db n k v -> forall n', strip n = strip n' -> holds db n' k v.
Proof.
  induction 1 as [v|K n f k v H IH|cs f i c k v Hc H IH|h n k v Hn H IH]; intros n' E.
  - apply strip_leaf in E as ->; [|done]. constructor.
  - apply strip_short in E as (c' & f' & -> & E). constructor. by apply IH.
  - apply strip_full in E as (cs' & f' & -> & E). destruct (strip_slot _ _ _ _ E Hc) as (c' & Hc' & E'). econstructor; eauto.
  - apply strip_leaf in E as ->; [|done]. by econstructor.
Qed.

Lemma same_strip n n' : strip n = strip n' -> same_content db n n'.
Proof. intros E k w. split; intros H; by eapply holds_strip. Qed.

Lemma strip_nil c c' : strip c = strip c' -> c = nilNode <-> c' = nilNode.
Proof. destruct c, c'; cbn; intros; split; intros; congruence. Qed.

Lemma fullish_strip n n' : strip n = strip n' -> fullish db n -> fullish db n'.
Proof.
  intros E [H|(h & m & -> & Hm & Hf)].
  - left. destruct n; try done. apply strip_full in E as (? & ? & -> & _). done.
  - right. apply strip_leaf in E as ->; [|done]. eauto.
Qed.

Lemma value_strip n n' : strip n = strip n' -> is_value n -> is_value n'.
Proof. intros E (v & Hv & ->). apply strip_leaf in E as ->; [|done]. by exists v. Qed.

Lemma wf_strip n : wf db n -> forall n', strip n = strip n' -> wf db n'.
Proof.
  induction 1 as [K v f HK Hv|K c f HK Hn Hc IH Hf|cs f Hl Hs IH Hv (i & j & c & d & Hij & Hc & Hd & Hcn & Hdn)|h n Hn Hw IH Hl]; intros n' E.
  - apply strip_short in E as (c' & f' & -> & E). apply strip_leaf in E as ->; [|done]. by constructor.
  - apply strip_short in E as (c' & f' & -> & E). constructor; [done|done|by apply IH|by eapply fullish_strip].
  - apply strip_full in E as (cs' & f' & -> & E). assert (forall i c', cs' !! i = Some c' -> exists c, cs !! i = Some c /\ strip c = strip c') as Hback.
    { intros i0 c' Hc'. destruct (strip_slot cs' cs i0 c') as (c0 & ? & ?); [done..|]. exists c0. split; congruence. }
    constructor.
    + pose proof (f_equal length E) as El. rewrite !length_fmap in El. congruence.
    + intros i0 c' Hi Hc' Hn'. destruct (Hback _ _ Hc') as (c0 & Hc0 & E0). apply (IH i0 c0 Hi Hc0); [|done]. intros ->. by apply Hn', (strip_nil nilNode).
    + intros c' Hc' Hn'. destruct (Hback _ _ Hc') as (c0 & Hc0 & E0). apply (value_strip c0); [done|]. apply Hv; [done|]. intros ->. by apply Hn', (strip_nil nilNode).
    + destruct (strip_slot _ _ _ _ E Hc) as (c' & Hc' & Ec). destruct (strip_slot _ _ _ _ E Hd) as (d' & Hd' & Ed).
      exists i, j, c', d'. split_and!; try done; intros ->; [apply Hcn|apply Hdn]; by apply (strip_nil _ nilNode).
  - apply strip_leaf in E as ->; [|done]. by econstructor.
Qed.

Lemma pure_strip n : pure n -> forall n', strip n = strip n' -> pure n'.
Proof.
  induction n as [|v|h|K c f IH|cs f IH] using node_tree_ind; intros Hp n' E; try (apply strip_leaf in E as ->; done).
  - apply strip_short in E as (c' & f' & -> & E). inversion Hp; subst. constructor. by apply IH.
  - apply strip_full in E as (cs' & f' & -> & E). inversion Hp as [| | |? ? Hcs]; subst. constructor. apply Forall_lookup. intros i c' Hc'.
    destruct (strip_slot cs' cs i c') as (c & Hc & Ec); [done..|]. rewrite Forall_lookup in IH, Hcs. by eapply IH; [|eapply Hcs|].
Qed.
End flags.

(** ** The reference definition *)

(** What the code relies on: Keccak has 32 bytes, and [emptyRoot] is the hash
    of the encoding of the empty string. *)
Class KeccakLaws (keccak : list Z -> list Z) := {
  keccak_length l : length (keccak l) = 32%nat;
  keccak_bytes l : Forall byte_ok (keccak l);
  keccak_empty : keccak [0x80] = emptyRoot;
}.

Definition collision (keccak : list Z -> list Z) : Prop := exists x y, x <> y /\ keccak x = keccak y.

Section hash.
  Context (keccak : list Z -> list Z) `{!KeccakLaws keccak} (db : list Z -> option node).

(** A reference to a node: the node itself, or its hash. *)
Definition ref_item (it : item) : item :=
  if (length (encode_item it) <? 32)%nat then it else IStr (keccak (encode_item it)).

Fixpoint node_item (n : node) : item :=
  match n with
  | nilNode => IStr []
  | valueNode v => IStr v
  | hashNode h => IStr h
  | shortNode K c _ =>
    IList [IStr (default [] (hexToCompact K)); if is_loaded c then ref_item (node_item c) else node_item c]
  | fullNode cs _ => IList ((fun c => if is_loaded c then ref_item (node_item c) else node_item c) <$> cs)
  end.

Definition child_item (c : node) : item := if is_loaded c then ref_item (node_item c) else node_item c.

Definition enc (n : node) : list Z := encode_item (node_item n).

Definition root_hash (n : node) : list Z :=
  match n with hashNode h => h | nilNode => emptyRoot | _ => keccak (enc n) end.

Lemma node_item_short K c f : node_item (shortNode K c f) = IList [IStr (default [] (hexToCompact K)); child_item c].
Proof. done. Qed.
Lemma node_item_full cs f : node_item (fullNode cs f) = IList (child_item <$> cs).
Proof. done. Qed.

Lemma node_item_strip n : node_item (strip n) = node_item n.
Proof.
  induction n as [|v|h|K c f IH|cs f IH] using node_tree_ind; try done; cbn [strip].
  - rewrite !node_item_short. unfold child_item. by rewrite IH, strip_loaded.
  - rewrite !node_item_full. f_equal. rewrite <- list_fmap_compose. apply list_fmap_ext. intros i c Hc.
    rewrite Forall_lookup in IH. unfold compose, child_item. by rewrite (IH i c Hc), strip_loaded.
Qed.

Lemma item_strip n n' : strip n = strip n' -> node_item n = node_item n' /\ child_item n = child_item n' /\ root_hash n = root_hash n'.
Proof.
  intros E. assert (node_item n = node_item n') as Ei by (by rewrite <- (node_item_strip n), <- (node_item_strip n'), E).
  assert (is_loaded n = is_loaded n') as El by (by rewrite <- (strip_loaded n), <- (strip_loaded n'), E).
  split; [done|]. split; [unfold child_item; by rewrite Ei, El|]. destruct n, n'; cbn [strip] in E; try discriminate; unfold root_hash, enc; congruence.
Qed.

(** ** Consistent nodes *)

(** A cached hash is the hash; below the root only nodes of at least 32 bytes
    have one. *)
Definition hash_ok (top : bool) (n : node) (h : list Z) : Prop :=
  keccak (enc n) = h /\ (top = false -> (32 <= length (enc n))%nat).

(** A node whose caches and, for what is not loaded, whose database entries
    are consistent. *)
Inductive good : bool -> node -> Prop :=
| g_nil t : good t nilNode
| g_value t v : good t (valueNode v)
| g_short t K c f : good false c ->
    (forall h, fhash f = Some h -> hash_ok t (shortNode K c f) h) -> good t (shortNode K c f)
| g_full t cs f : (forall i c, cs !! i = Some c -> good false c) ->
    (forall h, fhash f = Some h -> hash_ok t (fullNode cs f) h) -> good t (fullNode cs f)
| g_hash t h n : length h = 32%nat -> db h = Some n -> is_loaded n = true -> good t n -> hash_ok t n h -> good t (hashNode h).

(** Keys and values of a size that fits in memory. *)
Definition max_len : Z := 2 ^ 58.

Definition sized (n : node) : Prop :=
  forall k v, holds db n k v -> Z.of_nat (length k) < max_len /\ Z.of_nat (length v) < max_len.

(** A node below the root: well formed, or a value. *)
Definition proper (n : node) : Prop := wf db n \/ is_value n.

Lemma hash_ok_top n h : hash_ok false n h -> forall t, hash_ok t n h.
Proof. intros [H1 H2] t. split; [done|]. intros _. by apply H2. Qed.

Lemma good_top t n : good t n -> t = false -> forall t', good t' n.
Proof.
  induction 1 as [t|t v|t K c f Hc IH Hf|t cs f Hc IH Hf|t h n Hh Hdb Hl Hn IH Hok]; intros -> t'.
  - constructor.
  - by constructor.
  - constructor; try done. intros h Hh. by apply hash_ok_top, Hf.
  - constructor; try done. intros h Hh. by apply hash_ok_top, Hf.
  - econstructor; eauto. by apply hash_ok_top.
Qed.

Lemma BytesToHash_id h : length h = 32%nat -> BytesToHash h = h.
Proof. intros E. unfold BytesToHash. rewrite E. by rewrite drop_0, E. Qed.

(** What is below a proper node. *)
Lemma proper_not_nil n : proper n -> n <> nilNode.
Proof. intros [H|(v & _ & ->)]; [|done]. by inversion H. Qed.

Lemma proper_short K c f : proper (shortNode K c f) -> proper c /\ hex_key K.
Proof.
  intros [H|(v & _ & ?)]; [|done]. inversion H as [? v ? HK Hv|? ? ? HK Hn Hc Hf| |]; subst.
  - split; [right; by exists v|by right].
  - split; [by left|by left].
Qed.

Lemma proper_full cs f : proper (fullNode cs f) -> length cs = 17%nat /\
  (forall i c, cs !! i = Some c -> c <> nilNode -> proper c) /\ (forall c, cs !! 16%nat = Some c -> is_loaded c = false).
Proof.
  intros [H|(v & _ & ?)]; [|done]. inversion H as [| |? ? Hl Hs Hv _|]; subst. split; [done|]. split.
  - intros i c Hc Hn. pose proof (lookup_lt_Some _ _ _ Hc). destruct (decide (i = 16%nat)) as [->|Hi]; [right; by apply Hv|].
    left. eapply Hs; [|done|done]. lia.
  - intros c Hc. destruct (decide (c = nilNode)) as [->|Hn]; [done|]. by destruct (Hv c Hc Hn) as (v & _ & ->).
Qed.

Lemma proper_inhabited n : proper n -> exists k v, holds db n k v.
Proof. intros [H|(v & _ & ->)]; [by apply wf_inhabited|]. exists [], v. constructor. Qed.

Lemma sized_short K c f : sized (shortNode K c f) -> proper c -> sized c /\ Z.of_nat (length K) < max_len.
Proof.
  intros Hs Hc. split.
  - intros k v H. destruct (Hs (K ++ k) v) as [H1 H2]; [by constructor|]. rewrite length_app in H1. split; [lia|done].
  - destruct (proper_inhabited c Hc) as (k & v & H). destruct (Hs (K ++ k) v) as [H1 _]; [by constructor|]. rewrite length_app in H1. lia.
Qed.

Lemma sized_full cs f i c : sized (fullNode cs f) -> cs !! i = Some c -> sized c.
Proof. intros Hs Hc k v H. destruct (Hs (Z.of_nat i :: k) v) as [H1 H2]; [by econstructor|]. cbn [length] in H1. split; [lia|done]. Qed.

Lemma sized_value v : sized (valueNode v) -> Z.of_nat (length v) < max_len.
Proof. intros Hs. apply (Hs [] v). constructor. Qed.

Lemma sized_nil : sized nilNode.
Proof. intros k v H. by apply holds_nil in H. Qed.

(** ** Sizes *)

Lemma encode_string_length b : Z.of_nat (length b) < 2 ^ 64 -> Z.of_nat (length (encode_item (IStr b))) <= Z.of_nat (length b) + 9.
Proof.
  intros Hb. cbn [encode_item]. assert (length (puthead 0x80 0xB7 (Z.of_nat (length b))) <= 9)%nat as Hp.
  { rewrite length_puthead by lia. destruct (_ <? 56); [lia|]. destruct (intsize_bounds (Z.of_nat (length b))) as [? _]; lia. }
  assert (length (encode_string b) <= length (puthead 0x80 0xB7 (Z.of_nat (length b)) ++ b))%nat as H.
  { unfold encode_string. destruct b as [|x [|y b]]; [done| |done]. destruct (_ <=? _); [|done]. rewrite length_app. cbn [length]. lia. }
  rewrite length_app in H. lia.
Qed.

Lemma encode_list_length l : Z.of_nat (length (l ≫= encode_item)) < 2 ^ 64 ->
  Z.of_nat (length (encode_item (IList l))) <= Z.of_nat (length (l ≫= encode_item)) + 9.
Proof.
  intros Hb. cbn [encode_item]. unfold encode_list. rewrite length_app, length_puthead by lia.
  destruct (_ <? 56); [lia|]. destruct (intsize_bounds (Z.of_nat (length (l ≫= encode_item)))) as [? _]; lia.
Qed.

Lemma ref_length it : Z.of_nat (length (encode_item (ref_item it))) <= 41.
Proof.
  unfold ref_item. destruct (_ <? 32)%nat eqn:E; bool_go; [lia|].
  pose proof (encode_string_length (keccak (encode_item it))) as H. rewrite keccak_length in H. lia.
Qed.

Lemma child_length t n : good t n -> sized n -> Z.of_nat (length (encode_item (child_item n))) <= max_len + 9.
Proof.
  unfold max_len. intros Hg Hs. destruct Hg as [t|t v|t K c f Hc Hf|t cs f Hc Hf|t h n Hh Hdb Hl Hn Hok]; unfold child_item; cbn [is_loaded].
  - vm_compute. discriminate.
  - cbn [node_item]. apply sized_value in Hs. pose proof (encode_string_length v). unfold max_len in *. lia.
  - pose proof (ref_length (node_item (shortNode K c f))). lia.
  - pose proof (ref_length (node_item (fullNode cs f))). lia.
  - cbn [node_item]. pose proof (encode_string_length h). lia.
Qed.

Lemma bind_length_le (l : list item) m : Forall (fun it => Z.of_nat (length (encode_item it)) <= m) l ->
  Z.of_nat (length (l ≫= encode_item)) <= Z.of_nat (length l) * m.
Proof. induction 1 as [|it l H1 H2 IH]; [done|]. rewrite bind_cons, length_app. cbn [length]. lia. Qed.

Lemma compact_length K c : hexToCompact K = Some c -> (length c <= length K + 1)%nat.
Proof.
  assert (forall p r, decodeNibbles p = Some r -> (length r <= length p)%nat) as Hd.
  { fix IH 1. intros [|a [|b p]] r; cbn [decodeNibbles]; [by intros [= <-]|done|].
    destruct (decodeNibbles p) as [r'|] eqn:E; [|done]. cbn [mbind option_bind]. intros [= <-]. apply IH in E. cbn [length]. lia. }
  unfold hexToCompact. set (hex := if hasTerm K then _ else K). assert (length hex <= length K)%nat by (unfold hex; destruct (hasTerm K); [rewrite length_take; lia|done]).
  destruct (Nat.odd (length hex)).
  - destruct hex as [|x hex]; [done|]. destruct (decodeNibbles hex) eqn:E; [|done]. cbn [mbind option_bind]. intros [= <-]. apply Hd in E. cbn [length] in *. lia.
  - destruct (decodeNibbles hex) eqn:E; [|done]. cbn [mbind option_bind]. intros [= <-]. apply Hd in E. cbn [length] in *. lia.
Qed.

Lemma enc_length t n : good t n -> sized n -> proper n -> Z.of_nat (length (enc n)) < 2 ^ 63.
Proof.
  unfold enc. intros Hg Hs Hp. pose proof (child_length t n Hg Hs) as Hch. unfold max_len in *.
  destruct Hg as [t|t v|t K c f Hc Hf|t cs f Hc Hf|t h n Hh Hdb Hl Hn Hok]; try (unfold child_item in Hch; cbn [is_loaded] in Hch; lia).
  - rewrite node_item_short. destruct (proper_short _ _ _ Hp) as [Hpc HK], (sized_short _ _ _ Hs (proj1 (proper_short _ _ _ Hp))) as [Hsc HlK].
    destruct (key_compact K HK) as (k & Ek & _). pose proof (compact_length _ _ Ek). rewrite Ek. cbn [from_option id].
    pose proof (child_length _ _ Hc Hsc). pose proof (encode_string_length k) as Hek. unfold max_len in *. specialize (Hek ltac:(lia)).
    assert (Z.of_nat (length ([IStr k; child_item c] ≫= encode_item)) < 2 ^ 62) as Hb.
    { rewrite !bind_cons, !length_app. cbn [mbind list_bind length]. lia. }
    pose proof (encode_list_length [IStr k; child_item c]) as Hel. specialize (Hel ltac:(lia)). lia.
  - rewrite node_item_full. assert (Forall (fun it => Z.of_nat (length (encode_item it)) <= 2 ^ 58 + 9) (child_item <$> cs)) as Hb%bind_length_le.
    { apply Forall_fmap, Forall_lookup. intros i c Hi. apply (child_length false); [by apply (Hc i)|by eapply sized_full]. }
    rewrite length_fmap, (proj1 (proper_full _ _ Hp)) in Hb. pose proof (encode_list_length (child_item <$> cs)) as Hel. specialize (Hel ltac:(lia)). lia.
Qed.

(** ** The hasher computes the root hash *)

Lemma node_value_ok n : value_ok (node_value n).
Proof.
  induction n as [|v|h|K c f IH|cs f IH] using node_tree_ind; try done. cbn [node_value]. rewrite value_ok_list.
  apply Forall_fmap. eapply Forall_impl; [exact IH|]. intros c Hc. cbn. by destruct (is_nil c).
Qed.

(** What a collapsed node stands for. *)
Definition value_item (n : node) : item := item_of (node_value n).

Lemma value_item_leaf c : c <> nilNode -> is_loaded c = false -> value_item c = child_item c.
Proof. by destruct c. Qed.

Lemma nodeToHash_ok t n col : good t n -> sized n -> proper n -> value_item col = node_item n ->
  nodeToHash keccak col t = Some (if (length (enc n) <? 32)%nat && negb t then col else hashNode (keccak (enc n))).
Proof.
  intros Hg Hs Hp E. unfold nodeToHash, EncodeRLP. pose proof (enc_length t n Hg Hs Hp) as Hl. unfold enc in *. rewrite <- E in *.
  destruct (EncodeToBytes_ok (node_value col) (node_value_ok col)) as [-> _]; [unfold value_item in Hl; lia|]. done.
Qed.

(** The result [r] of hashing [n]. *)
Definition hashed_to (t : bool) (n r : node) : Prop :=
  r <> nilNode /\ value_item r = (if t then IStr (root_hash n) else child_item n) /\
  (t = true -> as_hash r = Some (root_hash n)) /\ (is_loaded n = true -> forall h, as_hash r = Some h -> hash_ok t n h).

Definition hashes (t : bool) (n : node) : Prop :=
  exists r c, hash keccak n t = Some (r, c) /\ hashed_to t n r /\ strip c = strip n /\ good t c.

Lemma hashed_cached t n h : is_loaded n = true -> hash_ok t n h -> hashed_to t n (hashNode h).
Proof.
  intros Hl [E H32]. split; [done|]. split; [|split; [intros _; cbn [as_hash]; destruct n; try done; by subst|intros _ h' [= <-]; by split]].
  unfold value_item, child_item. cbn [node_value item_of]. rewrite Hl. destruct t; [destruct n; try done; by subst|].
  unfold ref_item. fold (enc n). rewrite (proj2 (Nat.ltb_ge _ _)) by (by apply H32). by rewrite E.
Qed.

Lemma hashed_fresh t n col : is_loaded n = true -> col <> nilNode -> as_hash col = None -> value_item col = node_item n ->
  hashed_to t n (if (length (enc n) <? 32)%nat && negb t then col else hashNode (keccak (enc n))).
Proof.
  intros Hl Hn Ha E. destruct (_ && _) eqn:Eb.
  - bool_go. subst. split; [done|]. unfold child_item, ref_item. rewrite Hl. fold (enc n). rewrite (proj2 (Nat.ltb_lt _ _)) by done.
    split_and!; try done. intros _ h. by rewrite Ha.
  - apply hashed_cached; [done|]. split; [done|]. intros ->. rewrite andb_true_r in Eb. bool_go. done.
Qed.

(** The cached copy of a node, with its hash. *)
Lemma set_hash_good t n cac r : is_loaded n = true -> strip cac = strip n ->
  (forall f, match cac with
    | shortNode K c _ => (forall h, fhash f = Some h -> hash_ok t (shortNode K c f) h) -> good t (shortNode K c f)
    | fullNode cs _ => (forall h, fhash f = Some h -> hash_ok t (fullNode cs f) h) -> good t (fullNode cs f)
    | _ => True end) ->
  hashed_to t n r -> strip (set_hash r cac) = strip n /\ good t (set_hash r cac).
Proof.
  intros Hl E Hg (_ & _ & _ & Hr). assert (forall m h, strip m = strip n -> as_hash r = Some h -> hash_ok t m h) as Hok.
  { intros m h Em Hh. destruct (Hr Hl h Hh) as [H1 H2]. destruct (item_strip _ _ Em) as (Ei & _ & _). unfold hash_ok, enc. rewrite Ei. done. }
  destruct cac as [|cs f|K c f|h|v]; cbn [set_hash] in *; try (rewrite <- strip_loaded, <- E in Hl; done).
  - split; [done|]. apply Hg. cbn [fhash]. intros h. by apply Hok.
  - split; [done|]. apply Hg. cbn [fhash]. intros h. by apply Hok.
Qed.

Lemma strip_short_eq K c c' f f' : strip c = strip c' -> strip (shortNode K c f) = strip (shortNode K c' f').
Proof. cbn [strip]. congruence. Qed.
Lemma strip_full_eq cs cs' f f' : strip <$> cs = strip <$> cs' -> strip (fullNode cs f) = strip (fullNode cs' f').
Proof. cbn [strip]. congruence. Qed.

Lemma hash_children_ok cs k :
  (forall i c, (i < k)%nat -> cs !! i = Some c -> good false c /\ (c <> nilNode -> hashes false c)) ->
  (forall i c, (k <= i)%nat -> cs !! i = Some c -> good false c /\ is_loaded c = false) ->
  exists rs cc, hash_children (hash keccak) cs k = Some (rs, cc) /\ strip <$> cc = strip <$> cs /\
    (fun c => if is_nil c then IStr [] else value_item c) <$> rs = child_item <$> cs /\ Forall (good false) cc.
Proof.
  revert k. induction cs as [|c cs IH]; intros k H1 H2; [by exists [], []|]. cbn [hash_children]. destruct k as [|k].
  - assert (Forall (fun c => good false c /\ is_loaded c = false) (c :: cs)) as HF.
    { apply Forall_lookup. intros i d Hd. apply (H2 i d); [lia|done]. }
    exists (c :: cs), (c :: cs). split; [done|]. split; [done|]. split; [|eapply Forall_impl; [exact HF|by intros ? []]].
    apply list_fmap_ext. intros i d Hd. rewrite Forall_lookup in HF. destruct (HF i d Hd) as [_ Hl].
    destruct d; cbn [is_nil]; try done; by apply value_item_leaf.
  - destruct (IH k) as (rs & cc & E & Es & Ei & Hg).
    { intros i d Hi Hd. apply (H1 (S i)); [lia|done]. } { intros i d Hi Hd. apply (H2 (S i)); [lia|done]. }
    destruct (H1 0%nat c) as [Hgc Hh]; [lia|done|].
    assert (exists r cc', match c with nilNode => Some (valueNode [], nilNode) | _ => hash keccak c false end = Some (r, cc') /\
      r <> nilNode /\ value_item r = child_item c /\ strip cc' = strip c /\ good false cc') as (r & cc' & -> & Hn & Er & Es' & Hg').
    { destruct (decide (c = nilNode)) as [->|Hc].
      - exists (valueNode []), nilNode. by split_and!.
      - destruct (Hh Hc) as (r & cc' & Eh & (Hn & Er & _) & Es' & Hg'). exists r, cc'. split_and!; try done. by destruct c. }
    cbn [mbind option_bind]. rewrite E. cbn [mbind option_bind fst snd]. exists (r :: rs), (cc' :: cc). split; [done|].
    rewrite !fmap_cons. split; [congruence|]. split; [|by constructor]. rewrite Ei. f_equal. rewrite <- Er. by destruct r.
Qed.

(** The children of a node, collapsed and cached. *)
Lemma short_children_ok t K c f : good t (shortNode K c f) -> proper (shortNode K c f) -> (is_loaded c = true -> hashes false c) ->
  exists key col cc, hashShortNodeChildren (hash keccak) K c f = Some (shortNode key col f, shortNode K cc f) /\
    value_item (shortNode key col f) = node_item (shortNode K c f) /\ strip cc = strip c /\ good false cc.
Proof.
  intros Hg Hp IH. inversion Hg as [| |? ? ? ? Hc Hf| |]; subst.
  destruct (proper_short _ _ _ Hp) as [Hpc HK]. destruct (key_compact K HK) as (key & Ek & _). exists key.
  assert (exists col cc, hashShortNodeChildren (hash keccak) K c f = Some (shortNode key col f, shortNode K cc f) /\
    value_item col = child_item c /\ strip cc = strip c /\ good false cc) as (col & cc & E & Ei & Es & Hgc).
  { unfold hashShortNodeChildren. rewrite Ek. cbn [mbind option_bind]. destruct (is_loaded c) eqn:El.
    - destruct (IH eq_refl) as (r & cc & Er & (_ & Ei & _) & Es & Hgc). exists r, cc. destruct c; try done; rewrite Er; done.
    - exists c, c. pose proof (value_item_leaf c (proper_not_nil c Hpc) El). by destruct c. }
  exists col, cc. split; [done|]. split; [|done].
  rewrite node_item_short, Ek. unfold value_item in *. cbn [node_value item_of]. rewrite !fmap_cons, Ei. done.
Qed.

Lemma full_children_ok t cs f : good t (fullNode cs f) -> proper (fullNode cs f) ->
  (forall i c, cs !! i = Some c -> c <> nilNode -> hashes false c) ->
  exists rs cc, hashFullNodeChildren (hash keccak) cs f = Some (fullNode rs f, fullNode cc f) /\
    value_item (fullNode rs f) = node_item (fullNode cs f) /\ strip <$> cc = strip <$> cs /\ Forall (good false) cc.
Proof.
  intros Hg Hp IH. inversion Hg as [| | |? ? ? Hc Hf|]; subst. destruct (proper_full _ _ Hp) as (Hl & Hpc & H16).
  destruct (hash_children_ok cs 16) as (rs & cc & E & Es & Ei & Hgc).
  { intros i c Hi Hci. split; [by eapply Hc|]. by eapply IH. }
  { intros i c Hi Hci. pose proof (lookup_lt_Some _ _ _ Hci). assert (i = 16%nat) as -> by lia. split; [by eapply Hc|by apply H16]. }
  exists rs, cc. unfold hashFullNodeChildren. rewrite E. split; [done|]. split; [|done].
  rewrite node_item_full, <- Ei. unfold value_item. cbn [node_value item_of]. f_equal. rewrite <- list_fmap_compose.
  apply list_fmap_ext. intros i c _. unfold compose. by destruct c.
Qed.

Lemma hash_short_ok t K c f : good t (shortNode K c f) -> sized (shortNode K c f) -> proper (shortNode K c f) ->
  (is_loaded c = true -> hashes false c) -> hashes t (shortNode K c f).
Proof.
  intros Hg Hs Hp IH. pose proof Hg as Hg'. inversion Hg' as [| |? ? ? ? Hc Hf| |]; subst. unfold hashes. cbn [hash cache fst].
  destruct (fhash f) as [h|] eqn:Eh.
  { eexists _, _. split; [done|]. split; [apply hashed_cached; auto|]. done. }
  destruct (short_children_ok t K c f Hg Hp IH) as (key & col & cc & -> & Ev & Es & Hgc).
  cbn [mbind option_bind fst snd]. rewrite (nodeToHash_ok t (shortNode K c f)) by done. cbn [mbind option_bind]. eexists _, _. split; [done|].
  pose proof (hashed_fresh t (shortNode K c f) (shortNode key col f) eq_refl ltac:(done) eq_refl Ev) as Hh. split; [done|].
  eapply set_hash_good; [| | |done]; [done|by apply strip_short_eq|]. cbn. intros f' Hf'. by constructor.
Qed.

Lemma hash_full_ok t cs f : good t (fullNode cs f) -> sized (fullNode cs f) -> proper (fullNode cs f) ->
  (forall i c, cs !! i = Some c -> c <> nilNode -> hashes false c) -> hashes t (fullNode cs f).
Proof.
  intros Hg Hs Hp IH. pose proof Hg as Hg'. inversion Hg' as [| | |? ? ? Hc Hf|]; subst. unfold hashes. cbn [hash cache fst].
  destruct (fhash f) as [h|] eqn:Eh.
  { eexists _, _. split; [done|]. split; [apply hashed_cached; auto|]. done. }
  destruct (full_children_ok t cs f Hg Hp IH) as (rs & cc & -> & Ev & Es & Hgc).
  cbn [mbind option_bind fst snd]. rewrite (nodeToHash_ok t (fullNode cs f)) by done. cbn [mbind option_bind]. eexists _, _. split; [done|].
  pose proof (hashed_fresh t (fullNode cs f) (fullNode rs f) eq_refl ltac:(done) eq_refl Ev) as Hh. split; [done|].
  eapply set_hash_good; [| | |done]; [done|by apply strip_full_eq|]. cbn. intros f' Hf'.
  constructor; [|done]. intros i c Hci. by eapply Forall_lookup_1 in Hgc.
Qed.

Lemma hash_spec t n : good t n -> sized n -> proper n -> (t = true -> forall v, n <> valueNode v) -> hashes t n.
Proof.
  induction 1 as [t|t v|t K c f Hc IH Hf|t cs f Hc IH Hf|t h n Hh Hdb Hl Hn IH Hok]; intros Hs Hp Hv.
  - by destruct (proper_not_nil _ Hp).
  - exists (valueNode v), (valueNode v). split; [done|]. split; [|split; [done|by constructor]]. split; [done|].
    destruct t; [by destruct (Hv eq_refl v)|]. done.
  - apply hash_short_ok; [by constructor|done|done|]. intros El. destruct (proper_short _ _ _ Hp) as [Hpc _].
    apply IH; [by apply (sized_short _ _ _ Hs)|done|done].
  - apply hash_full_ok; [by constructor|done|done|]. intros i c Hi Hc'. eapply IH; [done|by eapply sized_full|by eapply (proper_full _ _ Hp)|done].
  - exists (hashNode h), (hashNode h). split; [done|]. split; [|split; [done|by econstructor]]. split; [done|].
    split; [by destruct t|]. split; [done|]. done.
Qed.

(** The collapsed node for a proof, and the node that its parent refers to. *)
Lemma proofHash_ok n : good true n -> sized n -> proper n -> is_loaded n = true ->
  exists col, proofHash keccak n = Some (col, if (length (enc n) <? 32)%nat then col else hashNode (keccak (enc n))) /\
    value_item col = node_item n /\ as_hash col = None.
Proof.
  intros Hg Hs Hp L. assert (forall col, value_item col = node_item n ->
    nodeToHash keccak col false = Some (if (length (enc n) <? 32)%nat then col else hashNode (keccak (enc n)))) as Hn.
  { intros col E. unfold nodeToHash, EncodeRLP. pose proof (enc_length true n Hg Hs Hp) as Hl. unfold enc in *. rewrite <- E in *.
    destruct (EncodeToBytes_ok (node_value col) (node_value_ok col)) as [-> _]; [unfold value_item in Hl; lia|]. cbn [mbind option_bind]. by rewrite andb_true_r. }
  destruct n as [|cs f|K c f| |]; try done; cbn [proofHash].
  - inversion Hg as [| | |? ? ? Hc Hf|]; subst. destruct (full_children_ok true cs f Hg Hp) as (rs & cc & -> & Ev & _).
    { intros i c Hi Hn'. apply hash_spec; [by eapply Hc|by eapply sized_full|by eapply (proper_full _ _ Hp)|done]. }
    cbn [mbind option_bind fst snd]. rewrite (Hn _ Ev). eexists. split; [done|done].
  - inversion Hg as [| |? ? ? ? Hc Hf| |]; subst. destruct (proper_short _ _ _ Hp) as [Hpc _].
    destruct (short_children_ok true K c f Hg Hp) as (key & col & cc & -> & Ev & _).
    { intros Lc. apply hash_spec; [done|by apply (sized_short _ _ _ Hs)|done|done]. }
    cbn [mbind option_bind fst snd]. rewrite (Hn _ Ev). eexists. split; [done|done].
Qed.

(** ** The operations keep the caches consistent *)

Definition good_result (t : bool) (r : option (res trie_error (bool * node))) : Prop :=
  forall d n', r = Some (Ok (d, n')) -> good t n'.

Lemma good_new_short t K c : good false c -> good t (shortNode K c newFlag).
Proof. intros H. constructor; [done|]. by intros h. Qed.

Lemma good_new_full t cs : (forall i c, cs !! i = Some c -> good false c) -> good t (fullNode cs newFlag).
Proof. intros H. constructor; [done|]. by intros h. Qed.

Lemma good_slots (cs : list node) i n : (forall j c, cs !! j = Some c -> good false c) -> good false n ->
  forall j c, <[i := n]> cs !! j = Some c -> good false c.
Proof. intros Hcs Hn j c [(_ & <- & _)|[_ H]]%list_lookup_insert_Some; [done|]. by eapply Hcs. Qed.

Lemma good_empty j c : empty_children !! j = Some c -> good false c.
Proof. intros [-> _]%lookup_replicate. constructor. Qed.

Lemma good_resolve t h prefix n : good t (hashNode h) -> resolveHash db h prefix = Ok n ->
  good t n /\ is_loaded n = true /\ hash_ok t n h.
Proof.
  inversion 1 as [| | | |? ? m Hh Hdb Hl Hm Hok]; subst. unfold resolveHash. rewrite (BytesToHash_id h Hh), Hdb.
  intros [= <-]. done.
Qed.

Lemma insert_good fuel t n prefix key v : good t n -> good false v -> good_result t (insert db fuel n prefix key v).
Proof.
  revert t n prefix key v. induction fuel as [|fuel IH]; intros t n prefix key v Hn Hv d n'; [done|]. cbn [insert].
  destruct key as [|k0 key].
  { destruct n as [| | | |w]; try (intros [= _ <-]; by apply (good_top false)). destruct v; try done. intros [= _ <-]. constructor. }
  destruct n as [|cs f|K c f|h|w]; [intros [= _ <-]; by apply good_new_short| | | |done].
  - inversion Hn as [| | |? ? ? Hcs Hf|]; subst. destruct (cs !! Z.to_nat k0) as [c|] eqn:Hc; [|done]. cbn [mbind option_bind].
    destruct (insert db fuel c _ key v) as [[[d' nn]|]|] eqn:E; try done. intros [= E']. destruct d'; simplify_eq; [|done].
    apply good_new_full, good_slots; [done|]. eapply IH; [|done|done]. by eapply Hcs.
  - inversion Hn as [| |? ? ? ? Hc Hf| |]; subst. destruct (_ =? _)%nat.
    + destruct (insert db fuel c _ _ v) as [[[d' nn]|]|] eqn:E; try done. intros [= E']. destruct d'; simplify_eq; [|done].
      apply good_new_short. by eapply IH in E.
    + destruct (K !! _) as [b1|]; [|done]. cbn [mbind option_bind].
      destruct (insert db fuel nilNode _ _ c) as [[[d1 n1]|]|] eqn:E1; try done. destruct ((k0 :: key) !! _) as [b2|]; [|done].
      cbn [mbind option_bind]. destruct (insert db fuel nilNode _ _ v) as [[[d2 n2]|]|] eqn:E2; try done.
      apply (IH false) in E1; [|constructor|done]. apply (IH false) in E2; [|constructor|done].
      destruct (_ && _); [|done]. intros [= _ <-].
      assert (forall u, good u (fullNode (<[Z.to_nat b2:=n2]> (<[Z.to_nat b1:=n1]> empty_children)) newFlag)) as Hb.
      { intros u. apply good_new_full, good_slots; [apply good_slots; [apply good_empty|]|]; done. }
      destruct (_ =? _)%nat; [done|by apply good_new_short].
  - destruct (resolveHash db h prefix) as [rn|] eqn:Er; [|done]. destruct (good_resolve _ _ _ _ Hn Er) as (Hg & _ & _).
    destruct (insert db fuel rn _ _ v) as [[[d' nn]|]|] eqn:E; try done. intros [= E']. destruct d'; simplify_eq; [|done]. by eapply IH in E.
Qed.

Lemma reduce_good t cs prefix : (forall i c, cs !! i = Some c -> good false c) -> good_result t (reduce_full db cs prefix).
Proof.
  intros Hcs d n'. unfold reduce_full. destruct (0 <=? _); [|intros [= _ <-]; by apply good_new_full].
  destruct (cs !! _) as [c|] eqn:Hc; [|done]. cbn [mbind option_bind]. apply Hcs in Hc.
  destruct (_ =? 16); [intros [= _ <-]; by apply good_new_short|]. destruct (resolve db c prefix) as [rn|] eqn:Er; [|done].
  assert (good false rn) as Hrn.
  { destruct c; cbn [resolve] in Er; try (injection Er as <-; done). by destruct (good_resolve _ _ _ _ Hc Er). }
  destruct rn; intros [= _ <-]; apply good_new_short; try done. by inversion Hrn.
Qed.

Lemma delete_good fuel t n prefix key : good t n -> good_result t (delete db fuel n prefix key).
Proof.
  revert t n prefix key. induction fuel as [|fuel IH]; intros t n prefix key Hn d n'; [done|]. cbn [delete].
  destruct n as [|cs f|K c f|h|w]; [by intros [= _ <-]| | | |intros [= _ <-]; constructor].
  - inversion Hn as [| | |? ? ? Hcs Hf|]; subst. destruct (head key) as [k0|]; [|done]. cbn [mbind option_bind].
    destruct (cs !! Z.to_nat k0) as [c|] eqn:Hc; [|done]. cbn [mbind option_bind].
    destruct (delete db fuel c _ _) as [[[d' nn]|]|] eqn:E; try done. destruct d'; cbn [negb]; [|by intros [= _ <-]].
    apply reduce_good, good_slots; [done|]. eapply IH; [|done]. by eapply Hcs.
  - inversion Hn as [| |? ? ? ? Hc Hf| |]; subst. destruct (_ <? _)%nat; [by intros [= _ <-]|]. destruct (_ =? _)%nat; [intros [= _ <-]; constructor|].
    destruct (delete db fuel c _ _) as [[[d' child]|]|] eqn:E; try done. apply (IH false) in E; [|done]. destruct d'; cbn [negb]; [|by intros [= _ <-]].
    destruct child; intros [= _ <-]; apply good_new_short; try done. by inversion E.
  - destruct (resolveHash db h prefix) as [rn|] eqn:Er; [|done]. destruct (good_resolve _ _ _ _ Hn Er) as (Hg & _ & _).
    destruct (delete db fuel rn _ _) as [[[d' nn]|]|] eqn:E; try done. intros [= E']. destruct d'; simplify_eq; [|done]. by eapply IH in E.
Qed.

(** A node after loading parts of it. *)
Definition same_ref (t : bool) (n n' : node) : Prop :=
  good t n' /\ (t = false -> child_item n' = child_item n) /\ (t = true -> root_hash n' = root_hash n).

Lemma same_ref_item t n n' : is_loaded n = true -> is_loaded n' = true -> node_item n' = node_item n -> good t n' -> same_ref t n n'.
Proof.
  intros L L' E Hg. split; [done|]. unfold child_item. rewrite L, L', E. split; [done|]. intros _. destruct n, n'; try done; unfold root_hash, enc; by rewrite E.
Qed.

Lemma same_ref_hash t h n : is_loaded n = true -> hash_ok t n h -> (t = false -> child_item n = child_item (hashNode h)) /\ (t = true -> root_hash n = h).
Proof.
  intros Hl [E H]. split.
  - intros ->. unfold child_item, ref_item. rewrite Hl. fold (enc n). rewrite (proj2 (Nat.ltb_ge _ _)) by auto. by rewrite E.
  - intros _. by destruct n.
Qed.

Lemma tryGet_good fuel t n key pos ov n' d : good t n -> tryGet db fuel n key pos = Some (Ok (ov, n', d)) -> same_ref t n n'.
Proof.
  revert t n pos ov n' d. induction fuel as [|fuel IH]; intros t n pos ov n' d Hn; [done|]. cbn [tryGet].
  destruct n as [|cs f|K c f|h|w]; [by intros [= _ <- _]| | | |by intros [= _ <- _]].
  - pose proof Hn as Hn'. inversion Hn' as [| | |? ? ? Hcs Hf|]; subst. destruct (key !! pos) as [b|]; [|done]. cbn [mbind option_bind].
    destruct (cs !! Z.to_nat b) as [c|] eqn:Hc; [|done]. cbn [mbind option_bind].
    destruct (tryGet db fuel c key _) as [[[[v nn] d']|]|] eqn:E; try done. intros [= _ <- _]. destruct d'; [|done].
    apply (IH false) in E as (Hg & Hi & _); [|by eapply Hcs]. specialize (Hi eq_refl).
    assert (node_item (fullNode (<[Z.to_nat b:=nn]> cs) f) = node_item (fullNode cs f)) as Ei.
    { rewrite !node_item_full, list_fmap_insert, Hi. f_equal. apply list_insert_id. by rewrite list_lookup_fmap, Hc. }
    apply same_ref_item; try done. constructor; [by apply good_slots|]. intros h Hh. unfold hash_ok, enc. rewrite Ei. by apply Hf.
  - pose proof Hn as Hn'. inversion Hn' as [| |? ? ? ? Hc Hf| |]; subst. destruct (_ || _); [by intros [= _ <- _]|].
    destruct (tryGet db fuel c key _) as [[[[v nn] d']|]|] eqn:E; try done. intros [= _ <- _]. destruct d'; [|done].
    apply (IH false) in E as (Hg & Hi & _); [|done]. specialize (Hi eq_refl).
    assert (node_item (shortNode K nn f) = node_item (shortNode K c f)) as Ei by (by rewrite !node_item_short, Hi).
    apply same_ref_item; try done. constructor; [done|]. intros h Hh. unfold hash_ok, enc. rewrite Ei. by apply Hf.
  - destruct (resolveHash db h _) as [rn|] eqn:Er; [|done]. destruct (good_resolve _ _ _ _ Hn Er) as (Hg & Hl & Hok).
    destruct (tryGet db fuel rn key pos) as [[[[v nn] d']|]|] eqn:E; try done. intros [= _ <- _].
    apply (IH t) in E as (Hg' & Hi & Hr); [|done]. destruct (same_ref_hash t h rn Hl Hok) as [H1 H2].
    split; [done|]. split; [intros Et; by rewrite Hi, H1|]. intros Et. by rewrite Hr, H2.
Qed.

(** ** A trie completely in memory *)

(** [p] is [n] with everything loaded. *)
Definition unfolds (t : bool) (n p : node) : Prop :=
  pure p /\ wf db p /\ same_content db n p /\ is_loaded p = true /\ (fullish db n -> is_full p) /\ same_ref t n p.

Definition unfolds_slot (c p : node) : Prop :=
  pure p /\ (c = nilNode <-> p = nilNode) /\ (wf db c -> wf db p) /\ (is_value c -> p = c) /\ same_content db c p /\
  good false p /\ child_item p = child_item c.

Lemma choose_list {A B} (R : A -> B -> Prop) (l : list A) : (forall i x, l !! i = Some x -> exists y, R x y) -> exists l', Forall2 R l l'.
Proof.
  induction l as [|x l IH]; intros H; [by exists []|]. destruct (H 0%nat x eq_refl) as [y Hy].
  destruct IH as [l' Hl']; [intros i z Hz; by apply (H (S i))|]. exists (y :: l'). by constructor.
Qed.

Lemma same_full_slots cs ps f f' : Forall2 (same_content db) cs ps -> same_content db (fullNode cs f) (fullNode ps f').
Proof.
  intros HF k w. rewrite !holds_full. split.
  - intros (i & p & k' & -> & Hp & H). destruct (Forall2_lookup_r _ _ _ _ _ HF Hp) as (c & Hc & Hs). exists i, c, k'. split_and!; try done. by apply Hs.
  - intros (i & c & k' & -> & Hc & H). destruct (Forall2_lookup_l _ _ _ _ _ HF Hc) as (p & Hp & Hs). exists i, p, k'. split_and!; try done. by apply Hs.
Qed.

Lemma unfolds_item t n p : is_loaded n = true -> node_item p = node_item n -> good t n ->
  pure p -> wf db p -> same_content db n p -> is_loaded p = true -> (fullish db n -> is_full p) -> good t p -> unfolds t n p.
Proof. intros Hl E Hn Hp Hw Hs Hlp Hf Hg. split_and!; try done; apply same_ref_item; done. Qed.

Lemma unfold_full t cs f ps : good t (fullNode cs f) -> wf db (fullNode cs f) -> Forall2 unfolds_slot cs ps -> unfolds t (fullNode cs f) (fullNode ps f).
Proof.
  intros Hg Hw HF. inversion Hg as [| | |? ? ? Hcs Hf|]; subst. inversion Hw as [| |? ? Hl Hs Hv (i & j & c & d & Hij & Hc & Hd & Hcn & Hdn)|]; subst.
  assert (node_item (fullNode ps f) = node_item (fullNode cs f)) as Ei.
  { rewrite !node_item_full. f_equal. clear -HF. induction HF as [|c p cs ps (_ & _ & _ & _ & _ & _ & E) HF IH]; [done|]. rewrite !fmap_cons. congruence. }
  assert (forall i p, ps !! i = Some p -> exists c, cs !! i = Some c /\ unfolds_slot c p) as Hback.
  { intros i0 p Hp. destruct (Forall2_lookup_r _ _ _ _ _ HF Hp) as (c0 & ? & ?). eauto. }
  apply unfolds_item; try done.
  - constructor. apply Forall_lookup. intros i0 p Hp. by destruct (Hback _ _ Hp) as (c0 & _ & Hpure & _).
  - constructor.
    + by rewrite <- (Forall2_length _ _ _ HF).
    + intros i0 p Hi Hp Hn. destruct (Hback _ _ Hp) as (c0 & Hc0 & _ & Hnil & Hwf & _). apply Hwf. eapply Hs; [done|done|]. by intros ->%Hnil.
    + intros p Hp Hn. destruct (Hback _ _ Hp) as (c0 & Hc0 & _ & Hnil & _ & Hval & _). destruct (Hv c0 Hc0) as (v & Hv0 & ->); [by intros ->%Hnil|].
      rewrite (Hval (ex_intro _ v (conj Hv0 eq_refl))). by exists v.
    + destruct (Forall2_lookup_l _ _ _ _ _ HF Hc) as (pc & Hpc & _ & Nc & _). destruct (Forall2_lookup_l _ _ _ _ _ HF Hd) as (pd & Hpd & _ & Nd & _).
      exists i, j, pc, pd. split_and!; try done; [by intros ->%Nc|by intros ->%Nd].
  - apply same_full_slots. eapply Forall2_impl; [exact HF|]. by intros c0 p (_ & _ & _ & _ & ? & _).
  - constructor; [intros i0 p Hp; by destruct (Hback _ _ Hp) as (c0 & _ & _ & _ & _ & _ & _ & ? & _)|].
    intros h Hh. unfold hash_ok, enc. rewrite Ei. by apply Hf.
Qed.

Lemma unfold_wf n : wf db n -> forall t, good t n -> exists p, unfolds t n p.
Proof.
  induction 1 as [K v f HK Hv|K c f HK Hn Hc IH Hf|cs f Hl Hs IH Hv Htwo|h n Hn Hw IH Hl]; intros t Hg.
  - exists (shortNode K (valueNode v) f). apply unfolds_item; try done; [by repeat constructor|by constructor|]. intros H. by apply not_fullish in H.
  - inversion Hg as [| |? ? ? ? Hgc Hfl| |]; subst. destruct (IH false Hgc) as (p & Hp & Hwp & Hsc & Hlp & Hfp & Hgp & Hip & _).
    specialize (Hip eq_refl). specialize (Hfp Hf). exists (shortNode K p f).
    assert (node_item (shortNode K p f) = node_item (shortNode K c f)) as Ei by (by rewrite !node_item_short, Hip).
    apply unfolds_item; try done; [by constructor| |by apply same_short|intros H; by apply not_fullish in H|].
    + constructor; [done|done|done|by left].
    + constructor; [done|]. intros h Hh. unfold hash_ok, enc. rewrite Ei. by apply Hfl.
  - inversion Hg as [| | |? ? ? Hcs Hfl|]; subst. destruct (choose_list unfolds_slot cs) as [ps HF]; [|exists (fullNode ps f); apply unfold_full; [done|by constructor|done]].
    intros i c Hc. destruct (decide (c = nilNode)) as [->|Hcn].
    { exists nilNode. split_and!; try done; try constructor. all: by try intros (v & _ & ?). }
    pose proof (lookup_lt_Some _ _ _ Hc). destruct (decide (i = 16%nat)) as [->|Hi].
    + destruct (Hv c Hc Hcn) as (v & Hv0 & ->). exists (valueNode v). split_and!; try done; by constructor.
    + destruct (IH i c ltac:(lia) Hc Hcn false) as (p & Hp & Hwp & Hsc & Hlp & _ & Hgp & Hip & _); [by eapply Hcs|].
      exists p. split_and!; try done; [by split; [|intros ->]|intros (v & _ & ->)|by apply Hip].
      assert (wf db (valueNode v)) as Hwv by (eapply Hs; [|done|done]; lia). inversion Hwv.
  - inversion Hg as [| | | |? ? m Hh Hdb Hlm Hm Hok]; subst. rewrite BytesToHash_id in Hn by done. simplify_eq.
    destruct (IH t Hm) as (p & Hp & Hwp & Hsc & Hlp & Hfp & Hgp & Hip & Hrp). destruct (same_ref_hash t h n Hlm Hok) as [H1 H2].
    exists p. split_and!; try done.
    + intros k w. rewrite (Hsc k w). by rewrite (holds_hash db h n) by (by rewrite BytesToHash_id).
    + intros [?|(h' & n' & [= <-] & Hn' & Hfull)]; [done|]. apply Hfp. left. rewrite BytesToHash_id in Hn' by done. by simplify_eq.
    + split; [done|]. split; intros Et; [by rewrite Hip, H1|by rewrite Hrp, H2].
Qed.
End hash.
