(* ===== verification/TrieRoot.v ===== *)
(** * The root hash commits to the content ([src/trie/trie.go])

    A trie with its root hash refines a finite map with a hash of maps: after
    any history the hash is that of a trie built afresh from the entries.
    Tries with the same root hash have the same entries, unless two byte
    strings with the same Keccak hash are found. *)

From S2P Require Import Prelude Bytes Rlp Trie TrieKeys TrieMap TrieRefine TrieStore TrieHash.
Local Open Scope Z_scope.

(** ** Tries in memory do not depend on the database *)

Section in_memory.
  Context (db db' : list Z -> option node).

Lemma pure_holds n k v : pure n -> holds db n k v -> holds db' n k v.
Proof.
  intros Hp H. revert Hp. induction H as [v|K n f k v H IH|cs f i c k v Hc H IH|h n k v Hn H IH]; intros Hp.
  - constructor.
  - inversion Hp; subst. constructor. auto.
  - inversion Hp as [| | |? ? Hcs]; subst. econstructor; [done|]. apply IH. by eapply Forall_lookup_1 in Hcs.
  - inversion Hp.
Qed.

Lemma pure_wf n : wf db n -> pure n -> wf db' n.
Proof.
  induction 1 as [K v f HK Hv|K c f HK Hn Hc IH Hf|cs f Hl Hs IH Hv Ht|h n Hn Hw IH Hl]; intros Hp.
  - by constructor.
  - inversion Hp as [| |? ? ? Hpc|]; subst. constructor; [done|done|by apply IH|]. left.
    destruct Hf as [?|(h & n' & -> & _)]; [done|inversion Hpc].
  - inversion Hp as [| | |? ? Hcs]; subst. rewrite Forall_lookup in Hcs. constructor; [done| |done|done]. intros i c Hi Hc Hn. eapply IH; eauto.
  - inversion Hp.
Qed.
End in_memory.

Lemma alike_strip n n' : alike n n' -> strip n = strip n'.
Proof.
  induction 1 as [|v|K c c' f f' H IH|cs cs' f f' Hl H IH]; try done; cbn [strip]; [by rewrite IH|]. f_equal.
  apply list_eq. intros i. rewrite !list_lookup_fmap. destruct (cs !! i) as [c|] eqn:Hc.
  - destruct (lookup_lt_is_Some_2 cs' i) as [c' Hc']; [rewrite <- Hl; by eapply lookup_lt_Some|]. rewrite Hc'. cbn. f_equal. by eapply IH.
  - apply lookup_ge_None in Hc. rewrite (proj2 (lookup_ge_None cs' i)) by lia. done.
Qed.

Section root.
  Context (keccak : list Z -> list Z) `{!KeccakLaws keccak}.

(** ** Equal references are equal nodes *)

Section binding.
  Context (db : list Z -> option node).
Let child_item := child_item keccak.
Let node_item := node_item keccak.

(** Enough is known of [n] to compare its encoding. *)
Definition comparable (n : node) : Prop := pure n /\ good keccak db true n /\ sized db n /\ proper db n.

Lemma node_item_list n : is_loaded n = true -> exists l, node_item n = IList l.
Proof. destruct n; try done; intros _; unfold node_item; cbn; eauto. Qed.

Lemma ref_inj n n' : is_loaded n = true -> is_loaded n' = true -> comparable n -> child_item n = child_item n' ->
  node_item n = node_item n' \/ collision keccak.
Proof.
  intros L L' (_ & Hg & Hs & Hp). unfold child_item, TrieHash.child_item, ref_item. rewrite L, L'. fold node_item.
  destruct (node_item_list n L) as [l E], (node_item_list n' L') as [l' E'].
  destruct (_ <? 32)%nat, (_ <? 32)%nat; rewrite ?E, ?E'; intros H; try discriminate; [by left|]. injection H as H.
  destruct (decide (encode_item (IList l) = encode_item (IList l'))) as [He|He]; [|right; by eexists _, _].
  left. apply encode_item_inj' in He; [done|]. rewrite <- E. pose proof (enc_length keccak db true n Hg Hs Hp). unfold enc, node_item in *. lia.
Qed.

Lemma ref_length_32 n b : is_loaded n = true -> child_item n = IStr b -> length b = 32%nat.
Proof.
  intros L. unfold child_item, TrieHash.child_item, ref_item. rewrite L. destruct (node_item_list n L) as [l E]. unfold node_item in E. rewrite E.
  destruct (_ <? 32)%nat; [done|]. intros [= <-]. apply keccak_length.
Qed.

Lemma comparable_short K c f : comparable (shortNode K c f) -> comparable c /\ hex_key K.
Proof.
  intros (Hp & Hg & Hs & Hpr). destruct (proper_short _ _ _ _ Hpr) as [Hpc HK]. split; [|done]. inversion Hp; subst. inversion Hg as [| |? ? ? ? Hgc| |]; subst.
  split_and!; try done; [by eapply good_top|by apply (sized_short _ _ _ _ Hs)].
Qed.

Lemma comparable_slot cs f i c : comparable (fullNode cs f) -> cs !! i = Some c -> c <> nilNode -> comparable c.
Proof.
  intros (Hp & Hg & Hs & Hpr) Hc Hn. destruct (proper_full _ _ _ Hpr) as (_ & Hpc & _). inversion Hp as [| | |? ? Hpu]; subst. inversion Hg as [| | |? ? ? Hgc|]; subst.
  split_and!; [by eapply Forall_lookup_1 in Hpu|eapply good_top; [by eapply Hgc|done]|by eapply sized_full|by eapply Hpc].
Qed.

Lemma compact_inj K K' : hex_key K -> hex_key K' -> default [] (hexToCompact K) = default [] (hexToCompact K') -> K = K'.
Proof.
  intros H H'. destruct (key_compact K H) as (c & Ec & _ & Hc), (key_compact K' H') as (c' & Ec' & _ & Hc').
  rewrite Ec, Ec'. cbn [from_option id]. congruence.
Qed.

Lemma pure_leaf n : pure n -> is_loaded n = false -> n = nilNode \/ exists v, n = valueNode v.
Proof. destruct 1; try done; eauto. Qed.

(** A short node whose child has the reference of a value, or of a node. *)
Lemma child_inj c c' : comparable c -> comparable c' ->
  (is_loaded c = true -> is_loaded c' = true -> node_item c = node_item c' -> alike c c' \/ collision keccak) ->
  is_loaded c = is_loaded c' -> child_item c = child_item c' -> alike c c' \/ collision keccak.
Proof.
  intros Hc Hc' IH El E. destruct (is_loaded c) eqn:L.
  - destruct (ref_inj c c') as [Ei|]; auto.
  - destruct Hc as (Hp & _ & _ & Hpr), Hc' as (Hp' & _ & _ & Hpr').
    destruct (pure_leaf c Hp L) as [->|[v ->]]; [by destruct (proper_not_nil _ _ Hpr)|].
    destruct (pure_leaf c' Hp' (eq_sym El)) as [->|[v' ->]]; [by destruct (proper_not_nil _ _ Hpr')|].
    unfold child_item in E. cbn in E. injection E as ->. left. constructor.
Qed.

Lemma short_kind K c f : comparable (shortNode K c f) -> (is_loaded c = false /\ term_key K) \/ (is_loaded c = true /\ nibbles K).
Proof.
  intros (Hp & _ & _ & [Hw|(v & _ & ?)]); [|done]. inversion Hw as [? v ? HK Hv|? ? ? HK Hn Hc Hf| |]; subst; [by left|]. right. split; [|done].
  inversion Hp as [| |? ? ? Hpc|]; subst. by inversion Hpc; subst; [inversion Hc|inversion Hc| |].
Qed.

(** The 17 slots of two branches. *)
Lemma slots_inj cs cs' f f' : comparable (fullNode cs f) -> comparable (fullNode cs' f') ->
  (forall i c c', cs !! i = Some c -> cs' !! i = Some c' -> c <> nilNode -> c' <> nilNode -> child_item c = child_item c' -> alike c c' \/ collision keccak) ->
  child_item <$> cs = child_item <$> cs' -> alike (fullNode cs f) (fullNode cs' f') \/ collision keccak.
Proof.
  intros Hc Hc' IH E. assert (forall i c c', cs !! i = Some c -> cs' !! i = Some c' -> alike c c' \/ collision keccak) as Hall.
  { intros i c c' Hi Hi'. assert (child_item c = child_item c') as Ec.
    { apply (f_equal (.!! i)) in E. rewrite !list_lookup_fmap, Hi, Hi' in E. by injection E. }
    assert (forall b, child_item nilNode = child_item b -> b <> nilNode -> comparable b -> False) as Hnil.
    { intros b Eb Hn (Hp & _ & _ & Hpr). destruct (is_loaded b) eqn:L; [by pose proof (ref_length_32 b [] L (eq_sym Eb))|].
      destruct (pure_leaf b Hp L) as [->|[v ->]]; [done|]. injection Eb as <-. destruct Hpr as [Hw|(w & Hw & [= <-])]; [inversion Hw|done]. }
    destruct (decide (c = nilNode)) as [->|Hn], (decide (c' = nilNode)) as [->|Hn'].
    - left. constructor.
    - destruct (Hnil c' Ec Hn' (comparable_slot _ _ _ _ Hc' Hi' Hn')).
    - destruct (Hnil c (eq_sym Ec) Hn (comparable_slot _ _ _ _ Hc Hi Hn)).
    - by eapply IH. }
  assert (length cs = length cs') as El by (apply (f_equal length) in E; by rewrite !length_fmap in E).
  assert ((forall i c c', cs !! i = Some c -> cs' !! i = Some c' -> alike c c') \/ collision keccak) as [H|]; [|left; by constructor|by right].
  clear -Hall El. revert cs' El Hall. induction cs as [|c cs IH]; intros [|c' cs'] El Hall; try done; [by left|].
  destruct (Hall 0%nat c c' eq_refl eq_refl) as [H0|]; [|by right]. destruct (IH cs') as [Hr|]; [by injection El|intros i d d' ? ?; by apply (Hall (S i))| |by right].
  left. intros [|i] d d' Hd Hd'; [by simplify_eq/=|]. by eapply Hr.
Qed.

Lemma node_item_inj n : forall n', is_loaded n = true -> is_loaded n' = true -> comparable n -> comparable n' ->
  node_item n = node_item n' -> alike n n' \/ collision keccak.
Proof.
  induction n as [|v|h|K c f IH|cs f IH] using node_tree_ind; intros n' L L' Hc Hc' E; try done.
  - destruct n' as [|cs' f'|K' c' f'|h'|v']; try done.
    + destruct Hc' as (_ & _ & _ & Hpr). destruct (proper_full _ _ _ Hpr) as (Hl & _). unfold node_item in E. cbn in E. injection E as E.
      apply (f_equal length) in E. rewrite length_fmap, Hl in E. done.
    + destruct (comparable_short _ _ _ Hc) as [Hcc HK], (comparable_short _ _ _ Hc') as [Hcc' HK'].
      unfold node_item in E. rewrite !node_item_short in E. injection E as Ek Ei. apply compact_inj in Ek as <-; [|done|done].
      assert (is_loaded c = is_loaded c') as El.
      { destruct (short_kind _ _ _ Hc) as [[-> H1]|[-> H1]], (short_kind _ _ _ Hc') as [[-> H2]|[-> H2]]; try done; by destruct (tk_not_nibbles K). }
      destruct (child_inj c c') as [H|]; [done|done|auto|done|done|left; by constructor|by right].
  - destruct n' as [|cs' f'|K' c' f'|h'|v']; try done.
    + unfold node_item in E. rewrite !node_item_full in E. injection E as E. apply slots_inj; try done.
      intros i c c' Hi Hi' Hn Hn' Ei. rewrite Forall_lookup in IH.
      pose proof (comparable_slot _ _ _ _ Hc Hi Hn) as Hcc. pose proof (comparable_slot _ _ _ _ Hc' Hi' Hn') as Hcc'.
      destruct (decide (is_loaded c = is_loaded c')) as [El|Hne]; [apply child_inj; eauto|]. exfalso.
      destruct Hc as (_ & _ & _ & [Hw|(x & _ & ?)]), Hc' as (_ & _ & _ & [Hw'|(y & _ & ?)]); try done.
      inversion Hw as [| |? ? Hl Hs Hv _|]; subst. inversion Hw' as [| |? ? Hl' Hs' Hv' _|]; subst.
      pose proof (lookup_lt_Some _ _ _ Hi). destruct (decide (i = 16%nat)) as [->|H16].
      * destruct (Hv c Hi Hn) as (v & _ & ->), (Hv' c' Hi' Hn') as (v' & _ & ->). done.
      * assert (wf db c) as W by (eapply Hs; [|done|done]; lia). assert (wf db c') as W' by (eapply Hs'; [|done|done]; lia).
        destruct Hcc as (P & _), Hcc' as (P' & _). apply Hne. by inversion P; subst; inversion W; subst; inversion P'; subst; inversion W'; subst.
    + destruct Hc as (_ & _ & _ & Hpr). destruct (proper_full _ _ _ Hpr) as (Hl & _). unfold node_item in E. cbn in E. injection E as E.
      apply (f_equal length) in E. rewrite length_fmap, Hl in E. done.
Qed.
End binding.

Lemma pure_good db db' t n : good keccak db t n -> pure n -> good keccak db' t n.
Proof.
  induction 1 as [t|t v|t K c f Hc IH Hf|t cs f Hc IH Hf|t h n Hh Hdb Hl Hn IH Hok]; intros Hp; try constructor; try done; inversion Hp as [| | |? ? Hcs]; subst; [auto|].
  rewrite Forall_lookup in Hcs. eauto.
Qed.

Lemma comparable_db db db' n : comparable db n -> comparable db' n.
Proof.
  intros (Hp & Hg & Hs & Hpr). split_and!; [done|by eapply pure_good| |].
  - intros k v H. apply Hs. by eapply pure_holds.
  - destruct Hpr as [Hw|Hv]; [left; by eapply pure_wf|by right].
Qed.

(** ** Tries that hold a map, with consistent hashes *)

Definition map_sized (m : kvmap) : Prop :=
  forall k v, m !! k = Some v -> Z.of_nat (length k) < 2 ^ 56 /\ Z.of_nat (length v) < max_len.

Record HRep (db : list Z -> option node) (t : Trie) (m : kvmap) : Prop := MkHRep {
  hr_rep : Rep db t m;
  hr_good : good keccak db true (root t);
  hr_sized : map_sized m;
}.

Lemma length_hex key : length (keybytesToHex key) = (2 * length key + 1)%nat.
Proof. unfold keybytesToHex. rewrite length_app. cbn [length]. f_equal. induction key as [|b key IH]; [done|]. rewrite bind_cons, length_app, IH. cbn [length]. lia. Qed.

Lemma hrep_sized db t m : HRep db t m -> sized db (root t).
Proof.
  intros [R _ Hs] k v H. destruct (rep_key _ _ _ R k v H) as (key & Hk & ->). apply (rep_in _ _ _ R key v Hk) in H.
  destruct (Hs _ _ H) as [H1 H2]. unfold max_len in *. rewrite length_hex. lia.
Qed.

Lemma rep_content db db' t t' m : Rep db t m -> trie_ok db' t' ->
  (forall k v, holds db (root t) k v <-> holds db' (root t') k v) -> Rep db' t' m.
Proof.
  intros [H1 H2 H3 H4] Hok E. split; [done| | |done].
  - intros key v Hk. rewrite <- E. by apply H2.
  - intros k v H%E. eauto.
Qed.

Lemma rep_strip db t t' m : Rep db t m -> strip (root t') = strip (root t) -> Rep db t' m.
Proof.
  intros R E. apply (rep_content db db t t' m R).
  - destruct (rep_ok _ _ _ R) as [Hn|Hw]; [left; by apply (strip_nil _ _ E)|right; by apply (wf_strip db (root t))].
  - intros k v. symmetry. by apply same_strip.
Qed.

Lemma root_hash_length db t m : HRep db t m -> length (root_hash keccak (root t)) = 32%nat.
Proof.
  intros [R Hg _]. destruct (root t) as [| | |h|] eqn:E; cbn [root_hash]; try apply keccak_length; [apply length_be_bytes|]. by inversion Hg.
Qed.

Lemma Hash_ok db t m : HRep db t m ->
  exists t', Hash keccak t = Some (root_hash keccak (root t), t') /\ HRep db t' m.
Proof.
  intros H. pose proof (root_hash_length _ _ _ H) as H32. pose proof (hrep_sized _ _ _ H) as Hs. destruct H as [R Hg Hm].
  unfold Hash, hashRoot. destruct (rep_ok _ _ _ R) as [Hn|Hw].
  - rewrite Hn in *. cbn [mbind option_bind fst snd as_hash root_hash] in *. rewrite BytesToHash_id by done. eexists. split; [done|].
    split; [|constructor|done]. apply (rep_strip db t); [done|]. by rewrite Hn.
  - destruct (hash_spec keccak db true (root t) Hg Hs (or_introl Hw)) as (r & c & Eh & (_ & _ & Hr & _) & Es & Hgc).
    { intros _ v E. rewrite E in Hw. inversion Hw. }
    assert (match root t with nilNode => Some (hashNode emptyRoot, nilNode, t)
      | _ => r ← hash keccak (root t) true; Some (r.1, r.2, MkTrie (root t) 0) end = Some (r, c, MkTrie (root t) 0)) as ->.
    { rewrite Eh. destruct (root t); [inversion Hw|done..]. }
    cbn [mbind option_bind fst snd]. rewrite (Hr eq_refl). cbn [mbind option_bind]. rewrite BytesToHash_id by done. eexists. split; [done|].
    split; [by apply (rep_strip db t)|done|done].
Qed.

(** ** Equal content, equal hash *)

Lemma hrep_unfold db t m : HRep db t m -> root t <> nilNode -> exists p, comparable db p /\ is_loaded p = true /\ wf db p /\
  same_content db (root t) p /\ root_hash keccak p = root_hash keccak (root t).
Proof.
  intros H Hn. pose proof (hrep_sized _ _ _ H) as Hs. destruct H as [R Hg Hm]. destruct (rep_ok _ _ _ R) as [?|Hw]; [done|].
  destruct (unfold_wf keccak db (root t) Hw true Hg) as (p & Hp & Hwp & Hsc & Hl & _ & Hgp & _ & Hr). exists p. split_and!; auto.
  split_and!; try done; [|by left]. intros k v ?%Hsc. by apply Hs.
Qed.

Lemma hrep_nil db t m : Rep db t m -> root t = nilNode <-> m = ∅.
Proof.
  intros R. split.
  - intros E. apply map_empty. intros k. destruct (m !! k) as [v|] eqn:Ek; [|done].
    pose proof (rep_map _ _ _ R _ _ Ek) as Hk. apply (rep_in _ _ _ R _ _ Hk) in Ek. rewrite E in Ek. by apply holds_nil in Ek.
  - intros ->. destruct (rep_ok _ _ _ R) as [?|Hw]; [done|]. destruct (wf_inhabited _ _ Hw) as (k & v & H).
    destruct (rep_key _ _ _ R _ _ H) as (key & Hk & ->). by apply (rep_in _ _ _ R _ _ Hk) in H.
Qed.

Lemma hash_content db1 t1 db2 t2 m : HRep db1 t1 m -> HRep db2 t2 m -> root_hash keccak (root t1) = root_hash keccak (root t2).
Proof.
  intros H1 H2. pose proof (hr_rep _ _ _ H1) as R1. pose proof (hr_rep _ _ _ H2) as R2. destruct (decide (m = ∅)) as [Em|Em].
  { by rewrite (proj2 (hrep_nil _ _ _ R1) Em), (proj2 (hrep_nil _ _ _ R2) Em). }
  destruct (hrep_unfold _ _ _ H1) as (p1 & C1 & _ & W1 & S1 & <-); [by rewrite (hrep_nil _ _ _ R1)|].
  destruct (hrep_unfold _ _ _ H2) as (p2 & C2 & _ & W2 & S2 & <-); [by rewrite (hrep_nil _ _ _ R2)|].
  destruct C1 as [P1 _], C2 as [P2 _]. apply item_strip, alike_strip, (canonical db1); [done|by eapply pure_wf|done|done|].
  assert (Rep db1 (MkTrie p1 0) m) as Q1 by (apply (rep_content db1 db1 t1); [done|by right|intros k v; symmetry; apply S1]).
  assert (Rep db1 (MkTrie p2 0) m) as Q2.
  { apply (rep_content db2 db1 t2); [done|right; by eapply pure_wf|]. intros k v. cbn [root]. rewrite <- (S2 k v). split; by apply pure_holds. }
  exact (rep_same _ _ _ _ Q1 Q2).
Qed.

(** ** Equal hash, equal content *)

Lemma rep_map_eq db1 t1 m1 db2 t2 m2 : Rep db1 t1 m1 -> Rep db2 t2 m2 ->
  (forall k v, holds db1 (root t1) k v <-> holds db2 (root t2) k v) -> m1 = m2.
Proof.
  intros R1 R2 E. apply map_eq. intros key. apply option_eq. intros v. split; intros H.
  - pose proof (rep_map _ _ _ R1 _ _ H) as Hk. apply (rep_in _ _ _ R2 _ _ Hk), E. by apply (rep_in _ _ _ R1 _ _ Hk).
  - pose proof (rep_map _ _ _ R2 _ _ H) as Hk. apply (rep_in _ _ _ R1 _ _ Hk), E. by apply (rep_in _ _ _ R2 _ _ Hk).
Qed.

Lemma enc_not_empty n : is_loaded n = true -> enc keccak n <> [0x80].
Proof.
  intros L E. destruct (node_item_list n L) as [l El]. unfold enc in E. rewrite El in E.
  assert (IStr [] = IList l) by (by apply encode_item_inj'; [vm_compute|symmetry]). done.
Qed.

Lemma hash_binding db1 t1 m1 db2 t2 m2 : HRep db1 t1 m1 -> HRep db2 t2 m2 ->
  root_hash keccak (root t1) = root_hash keccak (root t2) -> m1 = m2 \/ collision keccak.
Proof.
  intros H1 H2 E. pose proof (hr_rep _ _ _ H1) as R1. pose proof (hr_rep _ _ _ H2) as R2.
  assert (forall p, is_loaded p = true -> root_hash keccak p = keccak (enc keccak p)) as Hroot by (by intros []).
  assert (forall p, is_loaded p = true -> root_hash keccak p = root_hash keccak nilNode -> collision keccak) as Hnil.
  { intros p Lp Ep. rewrite Hroot in Ep by done. cbn [root_hash] in Ep. rewrite <- keccak_empty in Ep.
    eexists _, _. split; [by apply enc_not_empty|done]. }
  destruct (decide (root t1 = nilNode)) as [N1|N1], (decide (root t2 = nilNode)) as [N2|N2].
  - left. by rewrite (proj1 (hrep_nil _ _ _ R1) N1), (proj1 (hrep_nil _ _ _ R2) N2).
  - destruct (hrep_unfold _ _ _ H2 N2) as (p & _ & Lp & _ & _ & Ep). right. apply (Hnil p Lp). by rewrite Ep, <- E, N1.
  - destruct (hrep_unfold _ _ _ H1 N1) as (p & _ & Lp & _ & _ & Ep). right. apply (Hnil p Lp). by rewrite Ep, E, N2.
  - destruct (hrep_unfold _ _ _ H1 N1) as (p1 & C1 & L1 & W1 & S1 & E1), (hrep_unfold _ _ _ H2 N2) as (p2 & C2 & L2 & W2 & S2 & E2).
    rewrite <- E1, <- E2, !Hroot in E by done. destruct (decide (enc keccak p1 = enc keccak p2)) as [Ee|Hne]; [|right; by eexists _, _].
    apply encode_item_inj' in Ee; [|destruct C1 as (_ & Hg & Hs & Hp); pose proof (enc_length keccak db1 true p1 Hg Hs Hp); unfold enc in *; lia].
    destruct (node_item_inj db1 p1 p2) as [Ha|]; [done|done|done|by eapply comparable_db|done| |by right]. left.
    apply (rep_map_eq _ _ _ _ _ _ R1 R2). intros k v. rewrite <- (S1 k v), <- (S2 k v). destruct C1 as [P1 _], C2 as [P2 _].
    pose proof (same_strip db1 _ _ (alike_strip _ _ Ha) k v) as Hs. rewrite <- Hs. split; by apply pure_holds.
Qed.

(** ** Operations and hashes *)

Lemma set_root_good db t r x t' : good keccak db true (root t) -> good_result keccak db true r -> set_root t r = Some (x, t') -> good keccak db true (root t').
Proof. intros Ht Hr. unfold set_root. destruct r as [[[d n]|e]|]; [| |done]; intros [= _ <-]; [by eapply Hr|done]. Qed.

Lemma trie_step_good db t op t' o : good keccak db true (root t) -> trie_step db t op = Some (t', o) -> good keccak db true (root t').
Proof.
  intros Ht. destruct op as [key|key v|key]; cbn [trie_step].
  - unfold TryGet. destruct (tryGet _ _ _ _ _) as [[[[v nn] d]|]|] eqn:E; try done; cbn [mbind option_bind fst snd]; intros [= <- _]; [|done].
    destruct d; [|done]. by apply (tryGet_good keccak db _ true) in E as [? _].
  - destruct (TryUpdate db t key v) as [[r t1]|] eqn:E; [|done]. cbn [mbind option_bind fst snd]. intros [= <- _].
    unfold TryUpdate in E. eapply set_root_good in E; [done|done|]. destruct v; [by apply delete_good|apply insert_good; [done|constructor]].
  - destruct (TryDelete db t key) as [[r t1]|] eqn:E; [|done]. cbn [mbind option_bind fst snd]. intros [= <- _].
    unfold TryDelete in E. eapply set_root_good in E; [done|done|]. by apply delete_good.
Qed.

Definition op_sized (op : trie_op) : Prop :=
  match op with OUpdate k v => Z.of_nat (length k) < 2 ^ 56 /\ Z.of_nat (length v) < max_len | _ => True end.

Lemma spec_step_sized m op : map_sized m -> op_sized op -> map_sized (spec_step m op).1.
Proof.
  intros Hm Ho. assert (forall k, map_sized (base.delete k m)) as Hd by (intros k k' v' [_ H]%lookup_delete_Some; eauto).
  destruct op as [k|k [|b v]|k]; cbn [spec_step fst]; auto. intros k' v' [[<- <-]|[_ H]]%lookup_insert_Some; [done|eauto].
Qed.

Lemma trie_step_hrep db t m op : HRep db t m -> op_ok op -> op_sized op ->
  exists t', trie_step db t op = Some (t', (spec_step m op).2) /\ HRep db t' (spec_step m op).1.
Proof.
  intros [R Hg Hm] Hop Hs. destruct (trie_step_rep db t m op R Hop) as (t' & E & R'). exists t'. split; [done|].
  split; [done|by eapply trie_step_good|by apply spec_step_sized].
Qed.

Inductive hash_op := HOp (op : trie_op) | HHash.
Inductive hash_out := HOut (o : trie_out) | HRoot (h : list Z).

Definition hop_ok (op : hash_op) : Prop := match op with HOp op => op_ok op /\ op_sized op | HHash => True end.

Definition hash_step (db : list Z -> option node) (t : Trie) (op : hash_op) : option (Trie * hash_out) :=
  match op with
  | HOp op => r ← trie_step db t op; Some (r.1, HOut r.2)
  | HHash => r ← Hash keccak t; Some (r.2, HRoot r.1)
  end.

Fixpoint hash_run (db : list Z -> option node) (t : Trie) (ops : list hash_op) : option (Trie * list hash_out) :=
  match ops with
  | [] => Some (t, [])
  | op :: ops => r ← hash_step db t op; s ← hash_run db r.1 ops; Some (s.1, r.2 :: s.2)
  end.

(** The specification of the hash: build a trie from the entries, in the
    order of their enumeration, with an empty database. *)
Definition updates (l : list (list Z * list Z)) : list trie_op := (fun p => OUpdate p.1 p.2) <$> l.

Definition build (m : kvmap) : option (Trie * list trie_out) :=
  trie_run (fun _ => None) (MkTrie nilNode 0) (updates (map_to_list m)).

Definition map_hash (m : kvmap) : list Z :=
  match build m with
  | Some (t, _) => match Hash keccak t with Some (h, _) => h | None => [] end
  | None => []
  end.

Definition hspec_step (m : kvmap) (op : hash_op) : kvmap * hash_out :=
  match op with
  | HOp op => ((spec_step m op).1, HOut (spec_step m op).2)
  | HHash => (m, HRoot (map_hash m))
  end.

Fixpoint hspec_run (m : kvmap) (ops : list hash_op) : kvmap * list hash_out :=
  match ops with
  | [] => (m, [])
  | op :: ops => let r := hspec_step m op in let s := hspec_run r.1 ops in (s.1, r.2 :: s.2)
  end.

Lemma spec_run_updates l : forall m, NoDup l.*1 -> Forall (fun p => p.2 <> []) l ->
  (spec_run m (updates l)).1 = list_to_map l ∪ m.
Proof.
  induction l as [|[k v] l IH]; intros m Hnd Hv; [cbn; by rewrite (left_id_L ∅ (∪))|]. apply NoDup_cons in Hnd as [Hk Hnd].
  apply Forall_cons in Hv as [Hv1 Hv]. change (updates ((k, v) :: l)) with (OUpdate k v :: updates l). cbn [spec_run].
  destruct v as [|b v]; [done|]. cbn [fst snd spec_step]. rewrite IH by done. cbn [list_to_map fst snd].
  rewrite <- insert_union_r by (by apply not_elem_of_list_to_map). by rewrite insert_union_l.
Qed.

Lemma hrep_empty db u : HRep db (MkTrie nilNode u) ∅.
Proof. split; [apply rep_empty|constructor|]. by intros k v. Qed.

Lemma trie_run_hrep db ops : forall t m, HRep db t m -> Forall op_ok ops -> Forall op_sized ops ->
  exists t', trie_run db t ops = Some (t', (spec_run m ops).2) /\ HRep db t' (spec_run m ops).1.
Proof.
  induction ops as [|op ops IH]; intros t m Hr Ho Hs; [by exists t|]. inversion Ho; inversion Hs; subst.
  destruct (trie_step_hrep db t m op Hr) as (t1 & E1 & Hr1); [done..|]. destruct (IH t1 _ Hr1) as (t2 & E2 & Hr2); [done..|].
  exists t2. cbn [trie_run]. rewrite E1. cbn [mbind option_bind fst snd]. rewrite E2. done.
Qed.

Lemma rep_nonempty db t m k v : Rep db t m -> m !! k = Some v -> v <> [].
Proof.
  intros R H. pose proof (rep_map _ _ _ R _ _ H) as Hk. apply (rep_in _ _ _ R _ _ Hk) in H.
  destruct (rep_ok _ _ _ R) as [En|Hw]; [rewrite En in H; by apply holds_nil in H|]. apply holds_term in H as [_ H]. apply H. by right.
Qed.

Lemma build_ok db t m : HRep db t m -> exists t' outs, build m = Some (t', outs) /\ HRep (fun _ => None) t' m.
Proof.
  intros [R Hg Hm]. destruct (trie_run_hrep (fun _ => None) (updates (map_to_list m)) (MkTrie nilNode 0) ∅) as (t' & E & H').
  - apply hrep_empty.
  - apply Forall_fmap, Forall_forall. intros [k v] Hkv%elem_of_map_to_list. cbn. by apply (rep_map _ _ _ R k v).
  - apply Forall_fmap, Forall_forall. intros [k v] Hkv%elem_of_map_to_list. cbn. by apply Hm.
  - eexists _, _. split; [exact E|]. rewrite spec_run_updates, list_to_map_to_list, (right_id_L ∅ (∪)) in H'; [done| |].
    + apply NoDup_fst_map_to_list.
    + apply Forall_forall. intros [k v] Hkv%elem_of_map_to_list. cbn. by eapply rep_nonempty.
Qed.

Lemma Hash_map_hash db t m : HRep db t m -> exists t', Hash keccak t = Some (map_hash m, t') /\ HRep db t' m.
Proof.
  intros H. destruct (Hash_ok db t m H) as (t' & E & H'). exists t'. split; [|done]. rewrite E. do 2 f_equal.
  unfold map_hash. destruct (build_ok db t m H) as (tb & outs & -> & Hb). destruct (Hash_ok _ _ _ Hb) as (tb' & -> & _).
  by eapply hash_content.
Qed.

(** C16. The trie with its root hash refines a finite map with a hash: from a
    trie that holds a map, with whatever hashes cached and whatever nodes not
    loaded, every sequence of lookups, updates, deletions and hashings runs
    without error or panic and answers as the map does, where the hash of a
    map is that of a trie built afresh from its entries. *)
Theorem trie_hash_refines db t m ops :
  HRep db t m -> Forall hop_ok ops ->
  exists t', hash_run db t ops = Some (t', (hspec_run m ops).2) /\ HRep db t' (hspec_run m ops).1.
Proof.
  revert t m. induction ops as [|op ops IH]; intros t m Hr Ho; [by exists t|]. inversion Ho as [|? ? Hop Hops]; subst.
  assert (exists t1, hash_step db t op = Some (t1, (hspec_step m op).2) /\ HRep db t1 (hspec_step m op).1) as (t1 & E1 & Hr1).
  { destruct op as [op|]; cbn [hash_step hspec_step fst snd].
    - destruct Hop as [H1 H2]. destruct (trie_step_hrep db t m op Hr H1 H2) as (t1 & E & H). exists t1. by rewrite E.
    - destruct (Hash_map_hash db t m Hr) as (t1 & E & H). exists t1. by rewrite E. }
  destruct (IH t1 _ Hr1 Hops) as (t2 & E2 & Hr2). exists t2. cbn [hash_run]. rewrite E1. cbn [mbind option_bind fst snd]. rewrite E2. done.
Qed.

End root.

(** ** Witnesses *)

(** A hash of 32 bytes: a polynomial in the bytes. *)
Definition demo_keccak (l : list Z) : list Z :=
  if bool_decide (l = [0x80]) then emptyRoot else be_bytes 32 (foldl (fun h b => h * 257 + b + 1) 7 l).

#[export] Instance demo_keccak_laws : KeccakLaws demo_keccak.
Proof. split; [intros l; unfold demo_keccak; case_bool_decide; [done|apply length_be_bytes]|intros l; unfold demo_keccak; case_bool_decide; apply be_bytes_ok|done]. Qed.

(** A leaf in the database and the trie that has not loaded it. *)
Definition stored_leaf : node := shortNode (keybytesToHex [1]) (valueNode [5]) (MkFlag (Some (demo_keccak [0xC4; 0x82; 0x20; 1; 5])) false).
Definition stored_hash : list Z := demo_keccak [0xC4; 0x82; 0x20; 1; 5].
Definition stored_db (h : list Z) : option node := if bool_decide (h = stored_hash) then Some stored_leaf else None.
Definition stored_trie : Trie := MkTrie (hashNode stored_hash) 0.

Lemma stored_hrep : HRep demo_keccak stored_db stored_trie {[ [1] := [5] ]}.
Proof.
  assert (stored_db (BytesToHash stored_hash) = Some stored_leaf) as Hdb by (vm_compute; reflexivity).
  assert (Forall byte_ok [1]) as H1 by (repeat constructor; unfold byte_ok; lia).
  assert (hash_ok demo_keccak true stored_leaf stored_hash) as Hok by (split; [vm_compute; reflexivity|done]).
  split.
  - split.
    + right. apply (wf_hash _ _ stored_leaf Hdb); [|done]. constructor; [by apply hex_term|done].
    + intros key v Hk. cbn [root stored_trie]. rewrite (holds_hash _ _ _ _ _ Hdb). unfold stored_leaf. rewrite leaf_key, lookup_singleton_Some. clear Hdb Hok. split.
      * by intros [<- <-].
      * by intros [?%hex_inj ->].
    + intros k v. cbn [root stored_trie]. rewrite (holds_hash _ _ _ _ _ Hdb). unfold stored_leaf. rewrite leaf_key. clear Hdb Hok. intros [-> _]. by exists [1].
    + intros key v [<- _]%lookup_singleton_Some. done.
  - apply (g_hash _ _ _ _ stored_leaf); [done|by vm_compute|done| |done]. constructor; [constructor|]. intros h [= <-]. exact Hok.
  - intros k v [<- <-]%lookup_singleton_Some. split; by vm_compute.
Qed.

Definition demo_hops : list hash_op :=
  [HHash; HOp (OUpdate [1; 2] [9]); HHash; HOp (OGet [1]); HOp (OUpdate [17] (replicate 40 8)); HHash; HOp (OUpdate [1] []);
   HOp (OGet [17]); HOp (ODelete [17]); HHash].

Lemma demo_hops_ok : Forall hop_ok demo_hops.
Proof. repeat constructor; unfold byte_ok; try lia; by vm_compute. Qed.

Lemma trie_hash_refines_witness :
  exists t', hash_run demo_keccak stored_db stored_trie demo_hops = Some (t', (hspec_run demo_keccak {[ [1] := [5] ]} demo_hops).2) /\
    HRep demo_keccak stored_db t' (hspec_run demo_keccak {[ [1] := [5] ]} demo_hops).1.
Proof. apply (trie_hash_refines demo_keccak stored_db stored_trie {[ [1] := [5] ]} demo_hops); [exact stored_hrep|exact demo_hops_ok]. Defined.

