(* ===== verification/TrieProof.v ===== *)
(** * Stored nodes and Merkle proofs ([src/trie/node.go], [proof.go])

    The decoder inverts the encoder of nodes.  A Merkle proof made by [Prove]
    is accepted by [VerifyProof] with the value of the key or its absence, and
    no proof is accepted with another result, unless two byte strings with the
    same Keccak hash are known. *)

From S2P Require Import Prelude Bytes Rlp Trie TrieKeys TrieMap TrieRefine TrieStore TrieHash TrieRoot.
Local Open Scope Z_scope.

Section decode.
  Context (keccak : list Z -> list Z) `{!KeccakLaws keccak} (db : list Z -> option node).
  Abbreviation enc := (TrieHash.enc keccak).
  Abbreviation child_item := (TrieHash.child_item keccak).
  Abbreviation node_item := (TrieHash.node_item keccak).
  Abbreviation good := (TrieHash.good keccak db).

(** ** Decoding *)

(** What is decoded from the encoding of a node. *)
Fixpoint collapse (hash : option (list Z)) (n : node) : node :=
  let child c := if is_loaded c then (if (length (enc c) <? 32)%nat then collapse None c else hashNode (keccak (enc c))) else c in
  match n with
  | shortNode K c _ => shortNode K (child c) (MkFlag hash false)
  | fullNode cs _ => fullNode (child <$> cs) (MkFlag hash false)
  | n => n
  end.

Definition collapse_child (c : node) : node :=
  if is_loaded c then (if (length (enc c) <? 32)%nat then collapse None c else hashNode (keccak (enc c))) else c.

Lemma collapse_short h K c f : collapse h (shortNode K c f) = shortNode K (collapse_child c) (MkFlag h false).
Proof. done. Qed.
Lemma collapse_full h cs f : collapse h (fullNode cs f) = fullNode (collapse_child <$> cs) (MkFlag h false).
Proof. done. Qed.

(** A node with its encoding. *)
Definition storable (n : node) : Prop := good true n /\ sized db n /\ proper db n.

Lemma storable_short K c f : storable (shortNode K c f) -> storable c /\ hex_key K.
Proof.
  intros (Hg & Hs & Hpr). destruct (proper_short _ _ _ _ Hpr) as [Hpc HK]. split; [|done]. inversion Hg as [| |? ? ? ? Hgc| |]; subst.
  split_and!; try done; [by eapply good_top|by apply (sized_short _ _ _ _ Hs)].
Qed.

Lemma storable_slot cs f i c : storable (fullNode cs f) -> cs !! i = Some c -> c <> nilNode -> storable c.
Proof.
  intros (Hg & Hs & Hpr) Hc Hn. destruct (proper_full _ _ _ Hpr) as (_ & Hpc & _). inversion Hg as [| | |? ? ? Hgc|]; subst.
  split_and!; [eapply good_top; [by eapply Hgc|done]|by eapply sized_full|by eapply Hpc].
Qed.

Lemma storable_length n : storable n -> Z.of_nat (length (enc n)) < 2 ^ 63.
Proof. intros (Hg & Hs & Hp). by eapply enc_length. Qed.

Lemma elem_length (l : list item) it : it ∈ l -> (length (encode_item it) <= length (l ≫= encode_item))%nat.
Proof.
  induction 1 as [it l|it it' l H IH]; rewrite bind_cons, length_app; lia.
Qed.

Lemma list_length_lt l : (length (l ≫= encode_item) < length (encode_item (IList l)))%nat.
Proof.
  rewrite encode_item_list. unfold encode_list. rewrite length_app. assert (0 < length (puthead 192 247 (Z.of_nat (length (l ≫= encode_item)))))%nat; [|lia].
  unfold puthead. case_go; cbn [length]; lia.
Qed.

(** [decodes n]: with enough fuel the encoding of [n] is decoded. *)
Definition decodes (n : node) : Prop :=
  forall fuel hash rest, (length (enc n) < fuel)%nat -> Z.of_nat (length (enc n ++ rest)) < 2 ^ 64 ->
  decode_node fuel hash (enc n ++ rest) = Ok (collapse hash n).

Lemma decodeRef_nil decode rest : Z.of_nat (length (encode_item (IStr []) ++ rest)) < 2 ^ 64 ->
  decodeRef decode (encode_item (IStr []) ++ rest) = Ok (nilNode, rest).
Proof. intros Hl. unfold decodeRef. by rewrite Split_item. Qed.

Lemma decodeRef_hash decode h rest : length h = 32%nat -> Z.of_nat (length (encode_item (IStr h) ++ rest)) < 2 ^ 64 ->
  decodeRef decode (encode_item (IStr h) ++ rest) = Ok (hashNode h, rest).
Proof.
  intros Hh Hl. unfold decodeRef. rewrite Split_item by done. destruct h as [|x [|y h]]; try done. cbn [item_kind item_content]. by rewrite Hh.
Qed.

(** A reference to a child that is not a value. *)
Lemma decodeRef_child fuel c rest : storable c -> (is_loaded c = true -> decodes c) -> ~ is_value c ->
  (length (encode_item (child_item c)) < fuel)%nat -> Z.of_nat (length (encode_item (child_item c) ++ rest)) < 2 ^ 64 ->
  decodeRef (decode_node fuel) (encode_item (child_item c) ++ rest) = Ok (collapse_child c, rest).
Proof.
  intros (Hg & Hs & Hp) Hd Hv Hf Hl. unfold TrieHash.child_item, collapse_child in *. destruct (is_loaded c) eqn:L.
  - specialize (Hd eq_refl). unfold ref_item in *. change (encode_item (node_item c)) with (enc c) in *.
    destruct (length (enc c) <? 32)%nat eqn:E; [|apply decodeRef_hash; [apply keccak_length|done]]. bool_go.
    change (encode_item (node_item c)) with (enc c) in *. unfold decodeRef. destruct (node_item_list keccak c L) as [l El].
    assert (Split (enc c ++ rest) = Ok (KList, l ≫= encode_item, rest)) as ->.
    { unfold TrieHash.enc in *. rewrite El in *. by rewrite Split_item. }
    unfold hashLen. rewrite length_app, Nat.add_sub, (proj2 (Nat.ltb_ge 32 (length (enc c)))) by lia.
    rewrite Hd by done. done.
  - destruct c as [| | |h|v]; try done; [by destruct (proper_not_nil _ _ Hp)| |by destruct Hp as [Hw|?]; [inversion Hw|]].
    cbn [TrieHash.node_item] in *. inversion Hg; subst. by apply decodeRef_hash.
Qed.

Lemma decode_short K c f : storable (shortNode K c f) -> (is_loaded c = true -> decodes c) -> decodes (shortNode K c f).
Proof.
  intros Hst IH fuel hash rest Hf Hl. destruct fuel as [|fuel]; [lia|]. destruct (storable_short _ _ _ Hst) as [Hc HK].
  unfold TrieHash.enc in Hf, Hl |- *. rewrite node_item_short in Hf, Hl |- *. set (its := [_; _]) in *.
  pose proof (list_length_lt its) as Hlt. rewrite length_app in Hl. cbn [decode_node].
  destruct (encode_item (IList its) ++ rest) as [|b0 l0] eqn:Eb; [pose proof (encode_item_pos (IList its)); destruct (encode_item (IList its)); cbn in *; [lia|done]|].
  rewrite <- Eb. rewrite SplitList_item by (rewrite length_app; lia).
  assert (CountValues (its ≫= encode_item) = Ok 2%nat) as -> by (rewrite <- (eq_refl : length its = 2%nat); apply CountValues_len; lia).
  rewrite Nat.eqb_refl. destruct (key_compact K HK) as (k & Ek & _ & Ekc). unfold its in *. rewrite Ek in *. cbn [from_option id] in *.
  rewrite !bind_cons in *. change ([] ≫= encode_item) with (@nil Z) in *. rewrite app_nil_r, length_app in *.
  unfold decodeShort. rewrite SplitString_item by (rewrite length_app; lia). rewrite Ekc.
  destruct Hst as (_ & _ & [Hw|(? & _ & ?)]); [|done]. inversion Hw as [? v ? HK' Hv|? ? ? Hne Hn Hwc Hfull| |]; subst.
  - destruct (tk_inv _ HK') as (p & _ & ->). rewrite hasTerm_term. unfold TrieHash.child_item in *. cbn [is_loaded TrieHash.node_item] in *.
    pose proof (SplitString_item v []) as Hsp. rewrite app_nil_r in Hsp. rewrite Hsp by lia. done.
  - rewrite hasTerm_nibbles by done. pose proof (decodeRef_child fuel c [] Hc IH) as Hr. rewrite app_nil_r in Hr. rewrite Hr; [done| | |].
    + intros (v & _ & ->). inversion Hwc.
    + lia.
    + lia.
Qed.

Lemma decode_children_ok fuel cs tail : forall i,
  Forall (fun c => c = nilNode \/ (storable c /\ (is_loaded c = true -> decodes c) /\ ~ is_value c)) cs ->
  (length ((child_item <$> cs) ≫= encode_item) < fuel)%nat ->
  Z.of_nat (length (((child_item <$> cs) ≫= encode_item) ++ tail)) < 2 ^ 64 ->
  decode_children (decode_node fuel) i (length cs) (((child_item <$> cs) ≫= encode_item) ++ tail) = Ok (collapse_child <$> cs, tail).
Proof.
  induction cs as [|c cs IH]; intros i HF Hf Hl; [done|]. apply Forall_cons in HF as [Hc HF]. rewrite fmap_cons, bind_cons in Hf, Hl |- *.
  rewrite <- app_assoc in Hl |- *. rewrite length_app in Hf, Hl. cbn [length decode_children].
  assert (decodeRef (decode_node fuel) (encode_item (child_item c) ++ ((child_item <$> cs) ≫= encode_item) ++ tail) =
    Ok (collapse_child c, ((child_item <$> cs) ≫= encode_item) ++ tail)) as ->.
  { destruct Hc as [->|(H1 & H2 & H3)].
    - apply decodeRef_nil. rewrite length_app. exact Hl.
    - apply decodeRef_child; try done; [lia|]. rewrite length_app. lia. }
  rewrite IH by (done || lia). done.
Qed.

Lemma decode_full cs f : storable (fullNode cs f) -> (forall i c, cs !! i = Some c -> is_loaded c = true -> decodes c) -> decodes (fullNode cs f).
Proof.
  intros Hst IH fuel hash rest Hf Hl. destruct fuel as [|fuel]; [lia|].
  unfold TrieHash.enc in Hf, Hl |- *. rewrite node_item_full in Hf, Hl |- *. set (its := child_item <$> cs) in *.
  pose proof (list_length_lt its) as Hlt. rewrite length_app in Hl. cbn [decode_node].
  destruct (encode_item (IList its) ++ rest) as [|b0 l0] eqn:Eb; [pose proof (encode_item_pos (IList its)); destruct (encode_item (IList its)); cbn in *; [lia|done]|].
  rewrite <- Eb. rewrite SplitList_item by (rewrite length_app; lia).
  pose proof Hst as (_ & _ & [Hw|(? & _ & ?)]); [|done]. inversion Hw as [| |? ? H17 Hs Hv _|]; subst.
  assert (CountValues (its ≫= encode_item) = Ok 17%nat) as -> by (apply CountValues_len; [unfold its; by rewrite length_fmap|lia]).
  change (17 =? 2)%nat with false. rewrite Nat.eqb_refl. cbv iota.
  destruct (lookup_lt_is_Some_2 cs 16) as [c16 H16]; [lia|]. assert (cs = take 16 cs ++ [c16]) as Ecs.
  { rewrite <- (take_drop 16 cs) at 1. f_equal. rewrite (drop_S _ _ _ H16). f_equal. apply drop_ge. lia. }
  assert (length (take 16 cs) = 16%nat) as L16 by (rewrite length_take; lia). rewrite collapse_full.
  assert (length (its ≫= encode_item) < fuel)%nat as Hb by lia. assert (Z.of_nat (length (its ≫= encode_item)) < 2 ^ 64) as Hb2 by lia.
  clear Hl Hlt Hf Eb. unfold its in *. clear its. rewrite Ecs in Hb, Hb2 |- *. rewrite fmap_app, bind_app in Hb, Hb2 |- *.
  set (front := take 16 cs) in *. rewrite length_app in Hb, Hb2.
  unfold decodeFull. pose proof (decode_children_ok fuel front ((child_item <$> [c16]) ≫= encode_item) 0) as Hch. rewrite L16 in Hch.
  rewrite Hch; [| |lia|rewrite length_app; lia].
  - rewrite list_fmap_singleton, bind_cons in Hb2 |- *. change ([] ≫= encode_item) with (@nil Z) in *. rewrite app_nil_r in *.
    assert (exists v, child_item c16 = IStr v /\ collapse_child c16 = match v with [] => nilNode | _ => valueNode v end) as (v & Ev & Ec).
    { destruct (decide (c16 = nilNode)) as [->|Hn]; [by exists []|]. destruct (Hv c16 H16 Hn) as (v & Hvn & ->). exists v. by destruct v. }
    rewrite Ev in *. pose proof (SplitString_item v []) as Hsp. rewrite app_nil_r in Hsp. rewrite Hsp by lia.
    rewrite fmap_app, list_fmap_singleton, Ec. done.
  - apply Forall_lookup. intros i c Hc. unfold front in Hc. apply lookup_take_Some in Hc as [Hc Hi]. destruct (decide (c = nilNode)) as [|Hn]; [by left|right].
    split; [by eapply storable_slot|]. split; [by eapply IH|]. intros (v & _ & ->). assert (wf db (valueNode v)) as Hwv by (by eapply Hs). inversion Hwv.
Qed.

Lemma decode_ok n : storable n -> is_loaded n = true -> decodes n.
Proof.
  induction n as [|v|h|K c f IH|cs f IH] using node_tree_ind; intros Hst L; try done.
  - apply decode_short; [done|]. intros Lc. apply IH; [by apply storable_short in Hst as [? _]|done].
  - apply decode_full; [done|]. intros i c Hc Lc. rewrite Forall_lookup in IH. eapply IH; [done| |done]. eapply storable_slot; [done|done|by intros ->].
Qed.

Lemma decodeNode_enc hash n : storable n -> is_loaded n = true -> decodeNode hash (enc n) = Ok (collapse hash n).
Proof.
  intros Hst L. unfold decodeNode. pose proof (decode_ok n Hst L (S (length (enc n))) hash []) as H. rewrite app_nil_r in H.
  apply H; [lia|]. pose proof (storable_length n Hst). lia.
Qed.

(** ** Paths *)

(** The loaded nodes on the path of a key. *)
Inductive on_path : node -> list Z -> node -> Prop :=
| op_here n key : is_loaded n = true -> on_path n key n
| op_short K c f key x : on_path c key x -> on_path (shortNode K c f) (K ++ key) x
| op_full cs f i c key x : cs !! i = Some c -> on_path c key x -> on_path (fullNode cs f) (Z.of_nat i :: key) x
| op_hash h n key x : db h = Some n -> on_path n key x -> on_path (hashNode h) key x.

(** The result of following a key through the decoded form of [n]: the key is
    absent, or leads to a value, or to a node known by its hash. *)
Definition followed (n : node) (key : list Z) (r : list Z * node) : Prop :=
  (r.2 = nilNode /\ forall v, ~ holds db n key v) \/
  (exists v, r.2 = valueNode v /\ holds db n key v) \/
  (exists c, r.2 = hashNode (keccak (enc c)) /\ storable c /\ is_loaded c = true /\ (32 <= length (enc c))%nat /\ term_key r.1 /\
    (length r.1 <= length key)%nat /\ (forall v, holds db n key v <-> holds db c r.1 v) /\ (forall x, on_path c r.1 x -> on_path n key x)).

(** A node has a prefix of the key behind it when it is loaded. *)
Definition follows (n : node) : Prop := forall h key, term_key key ->
  exists r, get (collapse h n) key true = Some r /\ followed n key r /\ (forall c, r.2 = hashNode c -> (length r.1 < length key)%nat).

Lemma get_slot cs f k key : get (fullNode cs f) (k :: key) true = c ← cs !! Z.to_nat k; get c key true.
Proof.
  cbn [get]. generalize (Z.to_nat k) as i. induction cs as [|c cs IH]; intros [|i]; [done|done|done|]. apply IH.
Qed.

Lemma get_child c key : good false c -> storable c -> (is_loaded c = true -> follows c) -> (key = [] /\ is_value c) \/ (term_key key /\ wf db c) ->
  exists r, get (collapse_child c) key true = Some r /\ followed c key r.
Proof.
  intros Hg Hst IH Hk. unfold collapse_child. destruct (is_loaded c) eqn:L.
  - destruct Hk as [[_ (v & _ & ->)]|[Hk Hw]]; [done|]. destruct (_ <? 32)%nat eqn:E; bool_go.
    + destruct (IH eq_refl None key Hk) as (r & Er & Hf & _). eauto.
    + exists (key, hashNode (keccak (enc c))). split; [done|]. right. right. exists c. by split_and!.
  - destruct Hk as [[-> (v & Hv & ->)]|[Hk Hw]].
    + exists ([], valueNode v). split; [done|]. right. left. exists v. split; [done|constructor].
    + inversion Hw as [| | |h n Hdb Hwn Hln]; subst; try done. inversion Hg as [| | | |? ? m Hh Hdb' Hlm Hm [Hok1 Hok2]]; subst.
      rewrite BytesToHash_id in Hdb by done. assert (m = n) as -> by congruence.
      exists (key, hashNode (keccak (enc n))). split; [done|]. right. right. exists n. destruct Hst as (_ & Hs & _).
      split; [done|]. split; [|split_and!; try done].
      * split_and!; [by eapply good_top| |by left]. intros k v Hkv. apply Hs. econstructor; [|done]. by rewrite BytesToHash_id.
      * by apply Hok2.
      * intros v. apply holds_hash. by rewrite BytesToHash_id.
      * intros x Hx. by econstructor.
Qed.

(** Results below a child are results of its parent. *)
Lemma followed_below n c key key' r : (length key' < length key)%nat -> (forall v, holds db n key v <-> holds db c key' v) ->
  (forall x, on_path c key' x -> on_path n key x) -> followed c key' r ->
  followed n key r /\ (forall d, r.2 = hashNode d -> (length r.1 < length key)%nat).
Proof.
  intros Hl Hh Hp [[En Hn]|[(v & Ev & Hv)|(d & Ed & Hst & L & H32 & Hk & Hle & Hd & Hx)]]; (split; [|intros d' Ed'; try congruence]).
  - left. split; [done|]. intros v. by rewrite Hh.
  - right. left. exists v. split; [done|]. by apply Hh.
  - right. right. exists d. split_and!; try done; [lia| |].
    + intros v. by rewrite Hh, Hd.
    + intros x H. by apply Hp, Hx.
  - lia.
Qed.

Lemma follow_nil n key rest : (forall v, ~ holds db n key v) -> followed n key (rest, nilNode) /\ (forall d, nilNode = hashNode d -> (length rest < length key)%nat).
Proof. intros H. split; [by left|done]. Qed.

Lemma follows_ok n : storable n -> is_loaded n = true -> follows n.
Proof.
  induction n as [|v|h0|K c f IH|cs f IH] using node_tree_ind; intros Hst L h key Hk; try done.
  - destruct (storable_short _ _ _ Hst) as [Hc HK]. rewrite collapse_short. cbn [get negb].
    destruct (_ || _) eqn:E.
    + eexists. split; [done|]. apply follow_nil. intros v (k' & -> & _)%holds_short. rewrite take_app_length, bool_decide_eq_true_2 in E by done.
      rewrite orb_false_r in E. bool_go. rewrite length_app in E. lia.
    + assert (exists rest, key = K ++ rest) as [rest ->].
      { bool_go. exists (drop (length K) key). rewrite <- (take_drop (length K) key) at 1. congruence. }
      clear E. rewrite drop_app_length. destruct Hst as (Hg & _ & [Hw|(? & _ & ?)]); [|done]. inversion Hg as [| |? ? ? ? Hgc Hfl| |]; subst.
      assert ((rest = [] /\ is_value c) \/ (term_key rest /\ wf db c)) as Hrest.
      { inversion Hw as [? v ? HK' Hv|? ? ? Hne Hn Hwc Hfull| |]; subst.
        - left. split; [by eapply tk_prefix_free|by exists v].
        - right. split; [by apply (tk_app K)|done]. }
      destruct (get_child c rest Hgc Hc) as (r & Er & Hf); [intros Lc; by apply IH|done|]. exists r. split; [done|].
      apply (followed_below _ c _ rest); [| | |done].
      * rewrite length_app. assert (K <> []); [|destruct K; [done|cbn [length]; lia]]. inversion Hw; subst; [by apply tk_nonempty|done].
      * intros v. rewrite holds_short. split; [intros (k' & E2%(inj (app K)) & H); by subst|eauto].
      * intros x Hx. by constructor.
  - destruct key as [|b key]; [by apply tk_nonempty in Hk|]. rewrite collapse_full, get_slot, list_lookup_fmap.
    pose proof Hst as (Hg & _ & [Hw|(? & _ & ?)]); [|done]. inversion Hg as [| | |? ? ? Hgc Hfl|]; subst.
    destruct (slot_ok db cs f b key Hw Hk) as (c & Hc & Hco & Hb). rewrite Hc. cbn [fmap option_fmap option_map mbind option_bind].
    assert (forall v, holds db (fullNode cs f) (b :: key) v <-> holds db c key v) as Hh.
    { intros v. rewrite holds_slot by done. split; [intros (d & Hd & H); by simplify_eq|eauto]. }
    destruct (decide (c = nilNode)) as [->|Hn].
    { eexists. split; [done|]. apply follow_nil. intros v H%Hh. by apply holds_nil in H. }
    assert ((key = [] /\ is_value c) \/ (term_key key /\ wf db c)) as Hrest.
    { destruct Hco as [?|Hco]; [done|]. destruct key; [left; split; [done|exact Hco]|right; exact Hco]. }
    rewrite Forall_lookup in IH. destruct (get_child c key) as (r & Er & Hf).
    { by eapply Hgc. } { by eapply storable_slot. } { intros Lc. eapply IH; [done|by eapply storable_slot|done]. } { done. }
    exists r. split; [done|]. apply (followed_below _ c _ key); [cbn [length]; lia|done| |done].
    intros x Hx. rewrite <- (Z2Nat.id b) by done. by econstructor.
Qed.

(** ** Verification *)

(** Every element of the proof is stored under its hash. *)
Definition intact (proofDb : list Z -> option (list Z)) : Prop := forall h b, proofDb h = Some b -> keccak b = h.

Lemma verify_ok proofDb fuel : forall i n key, intact proofDb -> storable n -> is_loaded n = true -> term_key key -> (length key < fuel)%nat ->
  collision keccak \/
  (exists ov, verify proofDb fuel i (keccak (enc n)) key = Some (Ok ov) /\ forall v, ov = Some v <-> holds db n key v) \/
  (exists j x, verify proofDb fuel i (keccak (enc n)) key = Some (Err (ProofMissing j (keccak (enc x)))) /\ on_path n key x /\
    (x = n \/ (32 <= length (enc x))%nat) /\ proofDb (keccak (enc x)) = None).
Proof.
  induction fuel as [|fuel IH]; intros i n key Hin Hst L Hk Hf; [lia|]. cbn [verify].
  destruct (proofDb (keccak (enc n))) as [buf|] eqn:Eb.
  2: { right. right. exists i, n. split_and!; try done; [by constructor|by left]. }
  destruct (decide (buf = enc n)) as [->|Hne]; [|left; exists buf, (enc n); split; [done|by apply Hin]].
  rewrite decodeNode_enc by done. destruct (follows_ok n Hst L (Some (keccak (enc n))) key Hk) as (r & -> & Hfol & Hlt). cbn [mbind option_bind].
  assert (Hproper : proper db n) by (by destruct Hst as (_ & _ & ?)).
  destruct Hfol as [[-> Hn]|[(v & -> & Hv)|(c & Ec & Hstc & Lc & H32 & Hkc & Hle & Hh & Hx)]].
  - right. left. exists None. split; [done|]. intros v. split; [done|]. by intros ?%Hn.
  - right. left. exists (Some v). split; [done|]. intros w. split; [by intros [= ->]|]. intros Hw. f_equal. by eapply holds_fun.
  - specialize (Hlt _ Ec). rewrite Ec. assert (copy_hash (keccak (enc n)) (keccak (enc c)) = keccak (enc c)) as ->.
    { unfold copy_hash. rewrite !keccak_length, take_ge, drop_ge, app_nil_r by (rewrite keccak_length; lia). done. }
    destruct (IH (S i) c r.1 Hin Hstc Lc Hkc) as [?|[(ov & -> & Hov)|(j & x & -> & Hxp & Hxl & Hxn)]]; [lia|by left| |].
    + right. left. exists ov. split; [done|]. intros v. by rewrite Hov, Hh.
    + right. right. exists j, x. split_and!; auto. right. by destruct Hxl as [->|?].
Qed.

(** ** Construction *)

Definition proved (n : node) (key : list Z) (r : option (res trie_error (list node))) : Prop :=
  exists nodes, r = Some (Ok nodes) /\ (forall x, on_path n key x -> x ∈ nodes) /\ Forall (fun x => storable x /\ is_loaded x = true) nodes /\
    (wf db n -> exists x rest, nodes = x :: rest /\ root_hash keccak n = keccak (enc x)).

Lemma value_path n key x : is_value n -> ~ on_path n key x.
Proof. intros (v & _ & ->) H. by inversion H. Qed.

Lemma proved_cons n key c key' nodes : storable n -> is_loaded n = true -> wf db n ->
  (forall x, on_path n key x -> x = n \/ on_path c key' x) -> proved c key' (Some (Ok nodes)) -> proved n key (Some (Ok (n :: nodes))).
Proof.
  intros Hst L Hw Hx (nodes' & [= <-] & Hin & HF & _). exists (n :: nodes). split; [done|]. split_and!.
  - intros x [->|H]%Hx; [by left|right; auto].
  - by constructor.
  - intros _. exists n, nodes. split; [done|]. by destruct n.
Qed.

Lemma proved_nil key : proved nilNode key (Some (Ok [])).
Proof. exists []. split_and!; [done|intros x H; by inversion H|constructor|intros H; inversion H]. Qed.

Lemma prove_path_ok fuel n key : good true n -> sized db n -> ok_at db n key -> key_ok key -> (steps n key <= fuel)%nat ->
  proved n key (prove_path db fuel n key).
Proof.
  revert n key. induction fuel as [|fuel IH]; intros n key Hg Hs Hok Hkey Hst; [unfold steps in Hst; destruct n; lia|]. cbn [prove_path].
  destruct key as [|k0 key].
  { exists []. split; [done|]. destruct Hok as [->|Hv]; (split_and!; [|constructor|]).
    - intros x H. by inversion H.
    - intros H; inversion H.
    - intros x H. by apply value_path in H.
    - destruct Hv as (v & _ & ->). intros H; inversion H. }
  destruct Hok as [->|[Hk Hw]]; [apply proved_nil|].
  assert (storable n) as Hsn by (split_and!; [done|done|by left]).
  destruct n as [|cs f|K c f|h|v]; [inversion Hw| | | |inversion Hw].
  - destruct (slot_ok db cs f k0 key Hw Hk) as (c & Hc & Hco & Hb). rewrite Hc. cbn [mbind option_bind].
    inversion Hg as [| | |? ? ? Hgc Hfl|]; subst. assert (proved c key (prove_path db fuel c key)) as Hp.
    { apply IH; [eapply good_top; [by eapply Hgc|done]|by eapply sized_full|done| |unfold steps in *; cbn [length] in Hst; destruct c; lia].
      apply tk_head in Hk as [[_ ->]|[_ ?]]; [by left|by right]. }
    pose proof Hp as (nodes & Ep & _). rewrite Ep in *. eapply proved_cons; [done|done|done| |exact Hp].
    intros x Hx. inversion Hx as [| |? ? i d ? ? Hd Hdx|]; subst; [by left|]. right. rewrite Nat2Z.id in Hc. by simplify_eq.
  - inversion Hg as [| |? ? ? ? Hgc Hfl| |]; subst. destruct (proper_short _ _ _ _ (or_introl Hw)) as [Hpc _].
    destruct (_ || _) eqn:E.
    + eapply proved_cons; [done|done|done| |apply (proved_nil [])]. intros x Hx. inversion Hx as [|? ? ? k' ? Hx'| |]; subst; [by left|]. exfalso.
      match goal with H : K ++ k' = _ |- _ => rewrite <- H in E end.
      rewrite take_app_length, bool_decide_eq_true_2, orb_false_r in E by done. bool_go. rewrite length_app in E. lia.
    + assert (exists rest, k0 :: key = K ++ rest) as [rest Er].
      { bool_go. exists (drop (length K) (k0 :: key)). rewrite <- (take_drop (length K) (k0 :: key)) at 1. congruence. }
      rewrite Er in *. rewrite drop_app_length. destruct (below_short db K c f rest fuel Hw Hk) as (H1 & H2 & H3); [unfold steps in Hst; lia|].
      assert (proved c rest (prove_path db fuel c rest)) as Hp.
      { apply IH; [by eapply good_top|by apply (sized_short _ _ _ _ Hs)|done|done|done]. }
      pose proof Hp as (nodes & Ep & _). rewrite Ep in *. eapply proved_cons; [done|done|done| |exact Hp].
      intros x Hx. inversion Hx as [|? ? ? k' ? Hx'| |]; subst; [by left|]. right.
      match goal with H : K ++ k' = K ++ rest |- _ => apply (inj (app K)) in H as -> end. done.
  - inversion Hg as [| | | |? ? m Hh Hdb Hlm Hm [Hok1 _]]; subst. inversion Hw as [| | |? n' Hn' Hwn Hln]; subst. rewrite BytesToHash_id in Hn' by done.
    assert (m = n') as -> by congruence. unfold resolveHash. rewrite BytesToHash_id, Hdb by done.
    destruct (IH n' (k0 :: key)) as (nodes & -> & Hin & HF & Hroot); [done| |right; by split|done|unfold steps in *; destruct n'; try done; lia|].
    { intros k v Hkv. apply Hs. econstructor; [|done]. by rewrite BytesToHash_id. }
    exists nodes. split; [done|]. split_and!; [|done|].
    + intros x Hx. inversion Hx as [| | |? ? ? ? Hdb' Hx']; subst; [done|]. rewrite Hdb in Hdb'. simplify_eq. auto.
    + intros _. destruct (Hroot Hwn) as (x & rest & -> & Er). exists x, rest. split; [done|]. cbn [root_hash]. rewrite <- Er. by destruct n'.
Qed.

Lemma EncodeRLP_ok n col : storable n -> value_item col = node_item n -> EncodeRLP col = Some (enc n).
Proof.
  intros Hst E. unfold EncodeRLP. pose proof (storable_length n Hst) as Hl. unfold TrieHash.enc in *. rewrite <- E in *.
  destruct (EncodeToBytes_ok (node_value col) (node_value_ok col)) as [-> _]; [unfold value_item in Hl; lia|]. done.
Qed.

Abbreviation stored_in pdb h := (is_Some (pdb !! h)) (only parsing).

Lemma prove_put_ok nodes : forall i pdb, Forall (fun x => storable x /\ is_loaded x = true) nodes -> intact (fun h => pdb !! h) ->
  exists pdb', prove_put keccak i 0 nodes pdb = Some pdb' /\ intact (fun h => pdb' !! h) /\ (forall h, stored_in pdb h -> stored_in pdb' h) /\
    forall j x, nodes !! j = Some x -> (i + j)%nat = 0%nat \/ (32 <= length (enc x))%nat -> stored_in pdb' (keccak (enc x)).
Proof.
  induction nodes as [|n nodes IH]; intros i pdb HF Hin; [by exists pdb|]. apply Forall_cons in HF as [[Hst L] HF]. cbn [prove_put].
  rewrite Z.ltb_irrefl. destruct Hst as (Hg & Hs & Hp). destruct (proofHash_ok keccak db n Hg Hs Hp L) as (col & -> & Ev & Ec).
  cbn [mbind option_bind fst snd]. rewrite (EncodeRLP_ok n col) by (done || by split_and!).
  set (put := <[keccak (enc n) := enc n]> pdb). assert (intact (fun h => put !! h)) as Hput.
  { intros h b [[<- <-]|[_ H]]%lookup_insert_Some; [done|by apply Hin]. }
  assert (forall h, stored_in pdb h -> stored_in put h) as Hmono.
  { intros h [b Hb]. unfold put. destruct (decide (keccak (enc n) = h)) as [->|Hne]; [by rewrite lookup_insert_eq|]. rewrite lookup_insert_ne by done. eauto. }
  assert (stored_in put (keccak (enc n))) as Hself by (unfold put; rewrite lookup_insert_eq; eauto).
  assert (forall pdb1, intact (fun h => pdb1 !! h) -> (forall h, stored_in pdb h -> stored_in pdb1 h) ->
    (i = 0%nat \/ (32 <= length (enc n))%nat -> stored_in pdb1 (keccak (enc n))) ->
    exists pdb', prove_put keccak (S i) 0 nodes pdb1 = Some pdb' /\ intact (fun h => pdb' !! h) /\ (forall h, stored_in pdb h -> stored_in pdb' h) /\
    forall j x, (n :: nodes) !! j = Some x -> (i + j)%nat = 0%nat \/ (32 <= length (enc x))%nat -> stored_in pdb' (keccak (enc x))) as Hgo.
  { intros pdb1 H1 H2 H3. destruct (IH (S i) pdb1 HF H1) as (pdb' & E & H4 & H5 & H6). exists pdb'. split_and!; [done|done|auto|].
    intros [|j] x Hx Hor; [cbn in Hx; injection Hx as <-; apply H5, H3; destruct Hor; [left; lia|by right]|]. apply (H6 j x Hx). destruct Hor; [lia|by right]. }
  destruct (_ <? 32)%nat eqn:E32; bool_go; [|by apply Hgo].
  assert (exists pdb', prove_put keccak (S i) 0 nodes (if (i =? 0)%nat then <[hashData keccak (enc n) := enc n]> pdb else pdb) = Some pdb' /\
    intact (fun h => pdb' !! h) /\ (forall h, stored_in pdb h -> stored_in pdb' h) /\
    forall j x, (n :: nodes) !! j = Some x -> (i + j)%nat = 0%nat \/ (32 <= length (enc x))%nat -> stored_in pdb' (keccak (enc x))) as Hsmall.
  { apply Hgo; destruct (i =? 0)%nat eqn:Ei; bool_go; try done. intros [?|?]; lia. }
  by destruct col.
Qed.
End decode.

(** ** Proofs of a trie *)

Section proofs.
  Context (keccak : list Z -> list Z) `{!KeccakLaws keccak}.
  Abbreviation enc := (TrieHash.enc keccak).

(** The root, or the node that it is the hash of. *)
Lemma root_node db t m : HRep keccak db t m -> root t <> nilNode -> exists n, storable keccak db n /\ is_loaded n = true /\
  root_hash keccak (root t) = keccak (enc n) /\ (forall k v, holds db (root t) k v <-> holds db n k v) /\
  (forall k x, on_path db n k x -> on_path db (root t) k x).
Proof.
  intros H Hn. pose proof (hrep_sized _ _ _ _ H) as Hs. destruct H as [R Hg Hm]. destruct (rep_ok _ _ _ R) as [?|Hw]; [done|].
  destruct (root t) as [|cs f|K c f|h|v]; [done| | | |inversion Hw].
  - eexists. split; [split_and!; [exact Hg|done|by left]|]. done.
  - eexists. split; [split_and!; [exact Hg|done|by left]|]. done.
  - inversion Hg as [| | | |? ? m' Hh Hdb Hlm Hm' [Hok1 _]]; subst. inversion Hw as [| | |? n' Hn' Hwn Hln]; subst. rewrite BytesToHash_id in Hn' by done.
    assert (m' = n') as -> by congruence. exists n'. assert (forall k v, holds db (hashNode (keccak (enc n'))) k v <-> holds db n' k v) as Hh'.
    { intros k v. apply holds_hash. by rewrite BytesToHash_id. }
    split; [split_and!; [done|intros k v Hkv%Hh'; by apply Hs|by left]|]. split_and!; try done. intros k x Hx. by econstructor.
Qed.

Lemma verify_root db t m key proofDb : HRep keccak db t m -> Forall byte_ok key -> intact keccak proofDb -> root t <> nilNode ->
  collision keccak \/ VerifyProof (root_hash keccak (root t)) key proofDb = Some (Ok (m !! key)) \/
  (exists j x, VerifyProof (root_hash keccak (root t)) key proofDb = Some (Err (ProofMissing j (keccak (enc x)))) /\
    (keccak (enc x) = root_hash keccak (root t) \/ (on_path db (root t) (keybytesToHex key) x /\ (32 <= length (enc x))%nat)) /\
    proofDb (keccak (enc x)) = None).
Proof.
  intros H Hk Hin Hn. destruct (root_node db t m H Hn) as (n & Hst & L & -> & Hh & Hp). unfold VerifyProof.
  destruct (verify_ok keccak db proofDb (S (length (keybytesToHex key))) 0 n (keybytesToHex key)) as [?|[(ov & -> & Hov)|(j & x & -> & Hx & Hor & Hnone)]];
    [done|done|done|by apply hex_term|lia|by left| |].
  - right. left. do 2 f_equal. apply option_eq. intros v. rewrite Hov, <- Hh. symmetry. by apply (rep_in _ _ _ (hr_rep _ _ _ _ H)).
  - right. right. exists j, x. split; [done|]. split; [|done]. destruct Hor as [->|?]; [by left|right; auto].
Qed.


End proofs.

(** ** Untrusted proofs *)

(** What the decoder makes of any bytes. *)
Inductive decoded : node -> Prop :=
| de_nil : decoded nilNode
| de_hash h : length h = 32%nat -> decoded (hashNode h)
| de_leaf K v f : term_key K -> decoded (shortNode K (valueNode v) f)
| de_ext K c f : nibbles K -> decoded c -> decoded (shortNode K c f)
| de_full cs c f : length cs = 16%nat -> Forall decoded cs -> (c = nilNode \/ exists v, c = valueNode v) -> decoded (fullNode (cs ++ [c]) f).

Lemma compactToHex_key kbuf : Forall byte_ok kbuf -> hex_key (compactToHex kbuf).
Proof.
  destruct kbuf as [|b r]; intros Hb; [left; constructor|]. apply Forall_cons in Hb as [Hb Hr]. destruct (byte_nibbles b Hb) as [H1 H2].
  assert (exists (o : bool), Z.land (b / 16) 1 = if o then 1 else 0) as [o Eo].
  { assert (Z.land (b / 16) 1 = (b / 16) mod 2) as -> by (change 1 with (Z.ones 1); by rewrite Z.land_ones).
    pose proof (Z.mod_pos_bound (b / 16) 2). destruct (decide ((b / 16) mod 2 = 0)) as [->|]; [by exists false|exists true; lia]. }
  pose proof (nibbles_hex r Hr) as Hn. unfold compactToHex, keybytesToHex. rewrite bind_cons. set (rest := r ≫= _) in *. cbn [app].
  change (b / 16 :: b mod 16 :: rest ++ [16]) with ((b / 16 :: b mod 16 :: rest) ++ [16]). rewrite length_app. cbn [length]. rewrite Nat.add_sub.
  change (S (S (length rest))) with (length (b / 16 :: b mod 16 :: rest)). rewrite take_app_length, Eo.
  destruct (_ <? 2).
  - left. apply Forall_drop. constructor; [done|]. by constructor.
  - right. destruct o; cbn; [|by apply tk_last]. constructor; [done|by apply tk_last].
Qed.

Lemma Split_ok b k content rest : Forall byte_ok b -> Split b = Ok (k, content, rest) -> Forall byte_ok content /\ Forall byte_ok rest.
Proof.
  intros Hb. unfold Split. destruct (readKind b) as [[[k' ts] cs]|]; [|done]. intros [= _ <- <-]. split; [apply Forall_take|]; by apply Forall_drop.
Qed.

Lemma SplitString_ok b content rest : Forall byte_ok b -> SplitString b = Ok (content, rest) -> Forall byte_ok content /\ Forall byte_ok rest.
Proof.
  intros Hb. unfold SplitString. destruct (Split b) as [[[k c] r]|] eqn:E; [|done]. apply Split_ok in E as [? ?]; [|done]. by destruct k; intros [= <- <-].
Qed.

Lemma SplitList_ok b content rest : Forall byte_ok b -> SplitList b = Ok (content, rest) -> Forall byte_ok content /\ Forall byte_ok rest.
Proof.
  intros Hb. unfold SplitList. destruct (Split b) as [[[k c] r]|] eqn:E; [|done]. apply Split_ok in E as [? ?]; [|done]. by destruct k; intros [= <- <-].
Qed.

Section untrusted.
  Context (decode : option (list Z) -> list Z -> res node_error node).
  Context (decode_decoded : forall h b n, Forall byte_ok b -> decode h b = Ok n -> decoded n).

Lemma decodeRef_decoded buf n rest : Forall byte_ok buf -> decodeRef decode buf = Ok (n, rest) -> decoded n /\ Forall byte_ok rest.
Proof.
  intros Hb. unfold decodeRef. destruct (Split buf) as [[[k c] r]|] eqn:E; [|done]. apply Split_ok in E as [H1 H2]; [|done]. destruct k; [done| |].
  - destruct (_ =? 0)%nat; [intros [= <- <-]; by split; [constructor|]|]. destruct (_ =? 32)%nat eqn:E32; [|done]. bool_go.
    intros [= <- <-]. by split; [constructor|].
  - destruct (_ <? _)%nat; [done|]. destruct (decode None buf) as [m|] eqn:Ed; [|done]. intros [= <- <-]. split; [by eapply decode_decoded; [|exact Ed]|done].
Qed.

Lemma decode_children_decoded k : forall i elems cs rest, Forall byte_ok elems -> decode_children decode i k elems = Ok (cs, rest) ->
  length cs = k /\ Forall decoded cs /\ Forall byte_ok rest.
Proof.
  induction k as [|k IH]; intros i elems cs rest Hb; cbn [decode_children]; [intros [= <- <-]; split_and!; [done|constructor|done]|].
  destruct (decodeRef decode elems) as [[c r]|] eqn:Er; [|done]. apply decodeRef_decoded in Er as [Hc Hr]; [|done].
  destruct (decode_children decode (S i) k r) as [[cs' r']|] eqn:Ec; [|done]. intros [= <- <-]. destruct (IH _ _ _ _ Hr Ec) as (H1 & H2 & H3).
  split; [cbn; by rewrite H1|]. split; [by constructor|done].
Qed.

Lemma decodeShort_decoded h elems n : Forall byte_ok elems -> decodeShort decode h elems = Ok n -> decoded n.
Proof.
  intros Hb. unfold decodeShort. destruct (SplitString elems) as [[kbuf rest]|] eqn:E; [|done]. apply SplitString_ok in E as [Hk Hr]; [|done].
  destruct (hasTerm (compactToHex kbuf)) eqn:Ht.
  - destruct (SplitString rest) as [[val r]|]; [|done]. intros [= <-]. constructor.
    destruct (compactToHex_key kbuf Hk) as [Hn|?]; [|done]. by rewrite hasTerm_nibbles in Ht.
  - destruct (decodeRef decode rest) as [[r r']|] eqn:Er; [|done]. intros [= <-]. apply decodeRef_decoded in Er as [Hd _]; [|done].
    apply de_ext; [|done]. destruct (compactToHex_key kbuf Hk) as [?|(p & _ & E)%tk_inv]; [done|]. by rewrite E, hasTerm_term in Ht.
Qed.

Lemma decodeFull_decoded h elems n : Forall byte_ok elems -> decodeFull decode h elems = Ok n -> decoded n.
Proof.
  intros Hb. unfold decodeFull. destruct (decode_children decode 0 16 elems) as [[cs rest]|] eqn:E; [|done].
  apply decode_children_decoded in E as (H1 & H2 & H3); [|done]. destruct (SplitString rest) as [[val r]|]; [|done]. intros [= <-].
  constructor; [done|done|]. destruct val; eauto.
Qed.
End untrusted.

Lemma decode_node_decoded fuel : forall h b n, Forall byte_ok b -> decode_node fuel h b = Ok n -> decoded n.
Proof.
  induction fuel as [|fuel IH]; intros h b n Hb; [done|]. cbn [decode_node]. destruct b as [|b0 b]; [done|].
  destruct (SplitList (b0 :: b)) as [[elems r]|] eqn:E; [|done]. apply SplitList_ok in E as [He _]; [|done].
  destruct (_ =? 2)%nat.
  { destruct (decodeShort _ _ _) as [m|] eqn:Ed; [|done]. intros [= <-]. by eapply decodeShort_decoded; [exact IH| |exact Ed]. }
  destruct (_ =? 17)%nat; [|done]. destruct (decodeFull _ _ _) as [m|] eqn:Ed; [|done]. intros [= <-]. by eapply decodeFull_decoded; [exact IH| |exact Ed].
Qed.

(** Following a key through a decoded node ends at a hash, a value or nothing. *)
Lemma get_decoded n key : decoded n -> term_key key -> exists rest c, get n key true = Some (rest, c) /\
  (c = nilNode \/ (exists v, c = valueNode v) \/ (exists h, c = hashNode h /\ term_key rest)).
Proof.
  intros Hd. revert key. induction n as [|v|h|K c f IH|cs f IH] using node_tree_ind; intros key Hk; cbn [get].
  - eexists _, _. split; [done|]. by left.
  - eexists _, _. split; [done|]. right. left. eauto.
  - eexists _, _. split; [done|]. right. right. eauto.
  - destruct (_ || _) eqn:E; [eexists _, _; split; [done|]; by left|]. cbn [negb].
    assert (exists rest, key = K ++ rest) as [rest ->].
    { bool_go. exists (drop (length K) key). rewrite <- (take_drop (length K) key) at 1. congruence. }
    rewrite drop_app_length. inversion Hd as [| |? v ? HK|? ? ? HK Hc|]; subst.
    + cbn [get]. eexists _, _. split; [done|]. right. left. eauto.
    + apply IH; [done|]. exact (proj1 (tk_app _ _ HK) Hk).
  - destruct key as [|b key]; [by apply tk_nonempty in Hk|]. change (exists rest c, get (fullNode cs f) (b :: key) true = Some (rest, c) /\
      (c = nilNode \/ (exists v, c = valueNode v) \/ (exists h, c = hashNode h /\ term_key rest))). rewrite get_slot.
    inversion Hd as [| | | |cs' c ? Hl Hcs Hc]; subst. apply tk_head in Hk as [[-> ->]|[Hb Hk]].
    + rewrite lookup_app_r by (rewrite Hl; lia). rewrite Hl. cbn. destruct Hc as [->|[v ->]]; cbn [get]; (eexists _, _; split; [done|]); [by left|right; left; eauto].
    + unfold nib in Hb. rewrite lookup_app_l by lia. destruct (lookup_lt_is_Some_2 cs' (Z.to_nat b)) as [d Hd']; [lia|]. rewrite Hd'. cbn [mbind option_bind].
      apply Forall_app in IH as [IH _]. rewrite Forall_lookup in IH, Hcs. by eapply IH; [|eapply Hcs|].
Qed.


(** ** Witnesses *)

Definition demo_proof (h : list Z) : option (list Z) := if bool_decide (h = stored_hash) then Some [0xC4; 0x82; 0x20; 1; 5] else None.

Lemma demo_proof_intact : intact demo_keccak demo_proof.
Proof. intros h b. unfold demo_proof. case_bool_decide as E; [|done]. intros [= <-]. by rewrite E. Qed.

Lemma demo_key_ok : Forall byte_ok [1].
Proof. repeat constructor; unfold byte_ok; lia. Qed.



