(* ===== verification/TrieDb.v ===== *)
(** * The node database and the committer ([src/trie/database.go], [committer.go], [trie.go])

    The in-memory write layer in front of the disk database, with its
    reference counts and its flush list, and the committer that moves the
    dirty nodes of a trie into it.  The key-value store and the cache of clean
    nodes are finite maps; a batch is the list of its writes.  Sizes, floats
    in the code, are integers.  Metrics, logging and times are left out.
    A result [None] is a panic. *)

From S2P Require Import Prelude Bytes Rlp Trie TrieStore.
Local Open Scope Z_scope.

Abbreviation hash_t := (list Z).
Definition zero_hash : hash_t := replicate 32 0.

(** ** Stored nodes *)

(** The nodes of the database: collapsed, without flags, or raw RLP. *)
Inductive rnode :=
| rNil
| rawNode (blob : list Z)
| rawFullNode (cs : list rnode)
| rawShortNode (Key : list Z) (Val : rnode)
| rHash (h : list Z)
| rValue (v : list Z).

Fixpoint rnode_value (n : rnode) : value :=
  match n with
  | rNil => VList []
  | rawNode b => VBytes b
  | rawShortNode K c => VList [VBytes K; rnode_value c]
  | rawFullNode cs => VList ((fun c => match c with rNil => VBytes [] | _ => rnode_value c end) <$> cs)
  | rHash h => VBytes h
  | rValue v => VBytes v
  end.

Fixpoint simplifyNode (n : node) : option rnode :=
  match n with
  | shortNode K c _ => v ← simplifyNode c; Some (rawShortNode K v)
  | fullNode cs _ =>
    l ← (fix children (cs : list node) : option (list rnode) :=
           match cs with
           | [] => Some []
           | c :: cs =>
             r ← match c with nilNode => Some rNil | _ => simplifyNode c end;
             l ← children cs; Some (r :: l)
           end) cs;
    Some (rawFullNode l)
  | valueNode v => Some (rValue v)
  | hashNode h => Some (rHash h)
  | nilNode => None
  end.

Fixpoint expandNode (hash : option (list Z)) (n : rnode) : option node :=
  match n with
  | rawShortNode K c => v ← expandNode None c; Some (shortNode (compactToHex K) v (MkFlag hash false))
  | rawFullNode cs =>
    l ← (fix children (cs : list rnode) : option (list node) :=
           match cs with
           | [] => Some []
           | c :: cs =>
             r ← match c with rNil => Some nilNode | _ => expandNode None c end;
             l ← children cs; Some (r :: l)
           end) cs;
    Some (fullNode l (MkFlag hash false))
  | rValue v => Some (valueNode v)
  | rHash h => Some (hashNode h)
  | rNil | rawNode _ => None
  end.

Record cachedNode := MkCached {
  cn_node : rnode; cn_size : Z; cn_parents : Z; cn_children : option (gmap hash_t Z); cn_flushPrev : hash_t; cn_flushNext : hash_t }.

Definition cachedNodeChildrenSize : Z := 48.

(** [cachedNode.rlp]. *)
Definition cached_rlp (n : cachedNode) : option (list Z) :=
  match cn_node n with rawNode b => Some b | r => EncodeToBytes (rnode_value r) end.

Definition cached_obj (n : cachedNode) (hash : hash_t) : option node :=
  match cn_node n with rawNode b => mustDecodeNode (Some hash) b | r => expandNode (Some hash) r end.

(** [forGatherChildren]: the hashes of the callbacks, in order. *)
Fixpoint forGatherChildren (n : rnode) : option (list hash_t) :=
  match n with
  | rawShortNode _ c => forGatherChildren c
  | rawFullNode cs =>
    (fix loop (cs : list rnode) (k : nat) : option (list hash_t) :=
       match cs, k with
       | c :: cs, S k => a ← forGatherChildren c; b ← loop cs k; Some (a ++ b)
       | _, _ => Some []
       end) cs 16%nat
  | rHash h => Some [BytesToHash h]
  | rValue _ | rNil => Some []
  | rawNode _ => None
  end.

(** [forChilds]; the external children are a map, in the order of its enumeration. *)
Definition forChilds (n : cachedNode) : option (list hash_t) :=
  let ext := match cn_children n with Some m => (map_to_list m).*1 | None => [] end in
  match cn_node n with
  | rawNode _ => Some ext
  | r => l ← forGatherChildren r; Some (ext ++ l)
  end.

(** ** The database *)

Record Database := MkDb {
  diskdb : gmap (list Z) (list Z);
  cleans : option (gmap hash_t (list Z));
  dirties : gmap hash_t cachedNode;
  oldest : hash_t; newest : hash_t;
  preimages : gmap hash_t (list Z);
  dirtiesSize : Z; childrenSize : Z; preimagesSize : Z;
}.

Definition metaroot : cachedNode := MkCached rNil 0 0 (Some ∅) zero_hash zero_hash.

Definition NewDatabaseWithCache (disk : gmap (list Z) (list Z)) (cache : Z) : Database :=
  MkDb disk (if 0 <? cache then Some ∅ else None) {[ zero_hash := metaroot ]} zero_hash zero_hash ∅ 0 0 0.

Definition NewDatabase (disk : gmap (list Z) (list Z)) : Database := NewDatabaseWithCache disk 0.

Definition set_dirties (d : Database) (m : gmap hash_t cachedNode) : Database :=
  MkDb (diskdb d) (cleans d) m (oldest d) (newest d) (preimages d) (dirtiesSize d) (childrenSize d) (preimagesSize d).
Definition set_ends (d : Database) (o n : hash_t) : Database :=
  MkDb (diskdb d) (cleans d) (dirties d) o n (preimages d) (dirtiesSize d) (childrenSize d) (preimagesSize d).
Definition set_sizes (d : Database) (ds cs : Z) : Database :=
  MkDb (diskdb d) (cleans d) (dirties d) (oldest d) (newest d) (preimages d) ds cs (preimagesSize d).
Definition set_preimages (d : Database) (p : gmap hash_t (list Z)) (s : Z) : Database :=
  MkDb (diskdb d) (cleans d) (dirties d) (oldest d) (newest d) p (dirtiesSize d) (childrenSize d) s.
Definition set_disk (d : Database) (m : gmap (list Z) (list Z)) : Database :=
  MkDb m (cleans d) (dirties d) (oldest d) (newest d) (preimages d) (dirtiesSize d) (childrenSize d) (preimagesSize d).
Definition set_cleans (d : Database) (m : option (gmap hash_t (list Z))) : Database :=
  MkDb (diskdb d) m (dirties d) (oldest d) (newest d) (preimages d) (dirtiesSize d) (childrenSize d) (preimagesSize d).

Definition with_parents (n : cachedNode) (p : Z) : cachedNode :=
  MkCached (cn_node n) (cn_size n) p (cn_children n) (cn_flushPrev n) (cn_flushNext n).
Definition with_children (n : cachedNode) (m : option (gmap hash_t Z)) : cachedNode :=
  MkCached (cn_node n) (cn_size n) (cn_parents n) m (cn_flushPrev n) (cn_flushNext n).
Definition with_prev (n : cachedNode) (h : hash_t) : cachedNode :=
  MkCached (cn_node n) (cn_size n) (cn_parents n) (cn_children n) h (cn_flushNext n).
Definition with_next (n : cachedNode) (h : hash_t) : cachedNode :=
  MkCached (cn_node n) (cn_size n) (cn_parents n) (cn_children n) (cn_flushPrev n) h.

(** A field of [db.dirties[h]] is assigned: a nil pointer when there is none. *)
Definition upd_dirty (d : Database) (h : hash_t) (f : cachedNode -> cachedNode) : option Database :=
  n ← dirties d !! h; Some (set_dirties d (<[h := f n]> (dirties d))).

(** The callback of [insert] on one child. *)
Definition add_parent (m : gmap hash_t cachedNode) (child : hash_t) : gmap hash_t cachedNode :=
  match m !! child with
  | Some c => <[child := with_parents c (u32 (cn_parents c + 1))]> m
  | None => m
  end.

Definition link_newest (d : Database) (hash : hash_t) : option Database :=
  if bool_decide (oldest d = zero_hash) then Some (set_ends d hash hash)
  else d ← upd_dirty d (newest d) (fun n => with_next n hash); Some (set_ends d (oldest d) hash).

Definition db_insert_raw (d : Database) (hash : hash_t) (size : Z) (sn : rnode) : option Database :=
  let entry := MkCached sn (u16 size) 0 None (newest d) zero_hash in
  childs ← forChilds entry;
  d ← link_newest (set_dirties d (<[hash := entry]> (foldl add_parent (dirties d) childs))) hash;
  Some (set_sizes d (dirtiesSize d + u16 (32 + cn_size entry)) (childrenSize d)).

(** [insert]: a node that is already cached is skipped. *)
Definition db_insert (d : Database) (hash : hash_t) (size : Z) (n : node) : option Database :=
  match dirties d !! hash with
  | Some _ => Some d
  | None => sn ← simplifyNode n; db_insert_raw d hash size sn
  end.

Definition InsertBlob (d : Database) (hash : hash_t) (blob : list Z) : option Database :=
  match dirties d !! hash with
  | Some _ => Some d
  | None => db_insert_raw d hash (Z.of_nat (length blob)) (rawNode blob)
  end.

Definition insertPreimage (d : Database) (hash : hash_t) (preimage : list Z) : Database :=
  match preimages d !! hash with
  | Some _ => d
  | None => set_preimages d (<[hash := preimage]> (preimages d)) (preimagesSize d + Z.of_nat (32 + length preimage))
  end.

Definition clean_get (d : Database) (hash : hash_t) : option (list Z) := m ← cleans d; m !! hash.

Definition clean_set (d : Database) (hash : hash_t) (enc : list Z) : Database :=
  match cleans d with Some m => set_cleans d (Some (<[hash := enc]> m)) | None => d end.

(** [node]: nil is [Some None].  The metaroot has no node to expand. *)
Definition db_node (d : Database) (hash : hash_t) : option (option node * Database) :=
  match clean_get d hash with
  | Some enc => n ← mustDecodeNode (Some hash) enc; Some (Some n, d)
  | None =>
    match dirties d !! hash with
    | Some dirty => n ← cached_obj dirty hash; Some (Some n, d)
    | None =>
      match diskdb d !! hash with
      | None => Some (None, d)
      | Some enc => n ← mustDecodeNode (Some hash) enc; Some (Some n, clean_set d hash enc)
      end
    end
  end.

Inductive db_error := ErrNotFound.

(** [Node]: the encoded node. *)
Definition Node (d : Database) (hash : hash_t) : option (res db_error (list Z) * Database) :=
  if bool_decide (hash = zero_hash) then Some (Err ErrNotFound, d)
  else match clean_get d hash with
  | Some enc => Some (Ok enc, d)
  | None =>
    match dirties d !! hash with
    | Some dirty => e ← cached_rlp dirty; Some (Ok e, d)
    | None =>
      match diskdb d !! hash with
      | None => Some (Err ErrNotFound, d)
      | Some enc => Some (Ok enc, clean_set d hash enc)
      end
    end
  end.

Definition secureKeyPrefix : list Z := [115; 101; 99; 117; 114; 101; 45; 107; 101; 121; 45].
Definition secureKey (hash : hash_t) : list Z := secureKeyPrefix ++ hash.

Definition preimage (d : Database) (hash : hash_t) : option (list Z) :=
  match preimages d !! hash with
  | Some p => Some p
  | None => diskdb d !! secureKey hash
  end.

Definition Nodes (d : Database) : list hash_t :=
  filter (fun h => h <> zero_hash) (map_to_list (dirties d)).*1.

(** ** Reference counts *)

Definition children_of (n : cachedNode) : gmap hash_t Z := match cn_children n with Some m => m | None => ∅ end.

(** [reference]. *)
Definition reference (d : Database) (child parent : hash_t) : option Database :=
  match dirties d !! child with
  | None => Some d
  | Some _ =>
    p ← dirties d !! parent;
    let count := fun (d : Database) =>
      d ← upd_dirty d child (fun n => with_parents n (u32 (cn_parents n + 1)));
      p ← dirties d !! parent;
      let c := u16 (default 0 (children_of p !! child) + 1) in
      d ← upd_dirty d parent (fun n => with_children n (Some (<[child := c]> (children_of n))));
      Some (if c =? 1 then set_sizes d (dirtiesSize d) (childrenSize d + 34) else d) in
    match cn_children p with
    | None =>
      d ← upd_dirty d parent (fun n => with_children n (Some ∅));
      count (set_sizes d (dirtiesSize d) (childrenSize d + cachedNodeChildrenSize))
    | Some m =>
      if bool_decide (is_Some (m !! child)) && negb (bool_decide (parent = zero_hash)) then Some d else count d
    end
  end.

(** The node is taken out of the flush list. *)
Definition unlink (d : Database) (h : hash_t) (n : cachedNode) : option Database :=
  if bool_decide (h = oldest d) then
    upd_dirty (set_ends d (cn_flushNext n) (newest d)) (cn_flushNext n) (fun m => with_prev m zero_hash)
  else if bool_decide (h = newest d) then
    upd_dirty (set_ends d (oldest d) (cn_flushPrev n)) (cn_flushPrev n) (fun m => with_next m zero_hash)
  else
    d ← upd_dirty d (cn_flushPrev n) (fun m => with_next m (cn_flushNext n));
    upd_dirty d (cn_flushNext n) (fun m => with_prev m (cn_flushPrev n)).

(** The external reference from [parent] to [child] is dropped. *)
Definition drop_child (d : Database) (child parent : hash_t) : option Database :=
  p ← dirties d !! parent;
  let c := default 0 (children_of p !! child) in
  if 0 <? c then
    if c - 1 =? 0 then
      d ← upd_dirty d parent (fun n => with_children n (base.delete child <$> cn_children n));
      Some (set_sizes d (dirtiesSize d) (childrenSize d - 34))
    else upd_dirty d parent (fun n => with_children n (<[child := c - 1]> <$> cn_children n))
  else Some d.

(** [dereference]: the fuel bounds the depth of the cascade. *)
Fixpoint dereference (fuel : nat) (d : Database) (child parent : hash_t) : option Database :=
  match fuel with
  | O => None
  | S fuel =>
    d ← drop_child d child parent;
    match dirties d !! child with
    | None => Some d
    | Some node =>
      let p := if 0 <? cn_parents node then cn_parents node - 1 else cn_parents node in
      d ← upd_dirty d child (fun n => with_parents n p);
      if p =? 0 then
        d ← unlink d child node;
        childs ← forChilds node;
        d ← foldl (fun od hash => d ← od; dereference fuel d hash child) (Some d) childs;
        let d := set_dirties d (base.delete child (dirties d)) in
        Some (set_sizes d (dirtiesSize d - (32 + cn_size node))
          (match cn_children node with Some _ => childrenSize d - cachedNodeChildrenSize | None => childrenSize d end))
      else Some d
    end
  end.

Definition Dereference (fuel : nat) (d : Database) (root : hash_t) : option Database :=
  if bool_decide (root = zero_hash) then Some d else dereference fuel d root zero_hash.

(** ** Flushing to disk *)

Abbreviation batch_t := (list (list Z * list Z)).

Definition IdealBatchSize : Z := 100 * 1024.
Definition cachedNodeSize : Z := 96.

Definition ValueSize (b : batch_t) : Z := Z.of_nat (sum_list_with (fun kv => length kv.2) b).

Inductive flush_error := ErrWrite.

(** [batch.Write]: the outcomes of the writes of the store are given, success
    when the list is at its end; a batch is written as a whole or not. *)
Definition batch_write (io : list bool) (d : Database) (b : batch_t) : bool * Database * list bool :=
  match io with
  | false :: io => (false, d, io)
  | _ => (true, set_disk d (foldl (fun m kv => <[kv.1 := kv.2]> m) (diskdb d) b), tail io)
  end.

(** The loop over the preimages; [false] when a write failed. *)
Fixpoint flush_preimages (io : list bool) (d : Database) (b : batch_t) (ps : list (hash_t * list Z))
  : bool * batch_t * Database * list bool :=
  match ps with
  | [] => (true, b, d, io)
  | (hash, p) :: ps =>
    let b := b ++ [(secureKey hash, p)] in
    if IdealBatchSize <? ValueSize b then
      let '(ok, d, io) := batch_write io d b in
      if ok : bool then flush_preimages io d [] ps else (false, b, d, io)
    else flush_preimages io d b ps
  end.

(** The loop of [Cap] over the flush list: the oldest node that stays. *)
Fixpoint cap_loop (fuel : nat) (io : list bool) (d : Database) (b : batch_t) (size limit : Z) (old : hash_t)
  : option (bool * batch_t * hash_t * Database * list bool) :=
  if (limit <? size) && negb (bool_decide (old = zero_hash)) then
    match fuel with
    | O => None
    | S fuel =>
      node ← dirties d !! old;
      rlp ← cached_rlp node;
      let b := b ++ [(old, rlp)] in
      let size := size - (32 + cn_size node + cachedNodeSize) in
      let size := match cn_children node with
        | Some m => size - (cachedNodeChildrenSize + Z.of_nat (base.size m) * 34)
        | None => size end in
      if IdealBatchSize <=? ValueSize b then
        let '(ok, d, io) := batch_write io d b in
        if ok : bool then cap_loop fuel io d [] size limit (cn_flushNext node) else Some (false, b, old, d, io)
      else cap_loop fuel io d b size limit (cn_flushNext node)
    end
  else Some (true, b, old, d, io).

(** The flushed nodes are uncached. *)
Fixpoint uncache_loop (fuel : nat) (d : Database) (old : hash_t) : option Database :=
  if bool_decide (oldest d = old) then Some d
  else match fuel with
  | O => None
  | S fuel =>
    node ← dirties d !! oldest d;
    let d1 := set_ends (set_dirties d (base.delete (oldest d) (dirties d))) (cn_flushNext node) (newest d) in
    let cs := match cn_children node with
      | Some m => childrenSize d - (cachedNodeChildrenSize + Z.of_nat (base.size m) * 34)
      | None => childrenSize d end in
    uncache_loop fuel (set_sizes d1 (dirtiesSize d - (32 + cn_size node)) cs) old
  end.

Definition Cap (io : list bool) (d : Database) (limit : Z) : option (res flush_error unit * Database) :=
  meta ← dirties d !! zero_hash;
  let fuel := base.size (dirties d) in
  let total := dirtiesSize d + (Z.of_nat (base.size (dirties d)) - 1) * cachedNodeSize in
  let total := total + (childrenSize d - Z.of_nat (base.size (children_of meta)) * 34) in
  let flushPreimages := 4 * 1024 * 1024 <? preimagesSize d in
  let '(ok, b, d, io) := if flushPreimages then flush_preimages io d [] (map_to_list (preimages d)) else (true, [], d, io) in
  if negb ok then Some (Err ErrWrite, d)
  else
    r ← cap_loop fuel io d b total limit (oldest d);
    let '(ok, b, old, d, io) := r in
    if negb ok then Some (Err ErrWrite, d)
    else
      let '(ok, d, io) := batch_write io d b in
      if negb ok then Some (Err ErrWrite, d)
      else
        let d := if flushPreimages then set_preimages d ∅ 0 else d in
        d ← uncache_loop fuel d old;
        d ← (if bool_decide (oldest d = zero_hash) then Some d else upd_dirty d (oldest d) (fun n => with_prev n zero_hash));
        Some (Ok tt, d).

(** [cleaner.Put]: a node on disk moves to the clean cache. *)
Definition cleaner_Put (d : Database) (key rlp : list Z) : option Database :=
  let hash := BytesToHash key in
  match dirties d !! hash with
  | None => Some d
  | Some node =>
    d ← unlink d hash node;
    let d := set_dirties d (base.delete hash (dirties d)) in
    let ds := dirtiesSize d - (32 + cn_size node) in
    let ds := match cn_children node with
      | Some m => ds - (cachedNodeChildrenSize + Z.of_nat (base.size m) * 34)
      | None => ds end in
    Some (clean_set (set_sizes d ds (childrenSize d)) hash rlp)
  end.

(** [batch.Replay(uncacher)]. *)
Definition batch_replay (d : Database) (b : batch_t) : option Database :=
  foldl (fun od kv => d ← od; cleaner_Put d kv.1 kv.2) (Some d) b.

(** [commit]: the nodes below [hash], children first. *)
Fixpoint db_commit (fuel : nat) (io : list bool) (d : Database) (b : batch_t) (hash : hash_t) : option (bool * batch_t * Database * list bool) :=
  match fuel with
  | O => None
  | S fuel =>
    match dirties d !! hash with
    | None => Some (true, b, d, io)
    | Some node =>
      childs ← forChilds node;
      r ← foldl (fun (st : option (bool * batch_t * Database * list bool)) child =>
            s ← st;
            let '(ok, b, d, io) := s in
            if ok : bool then db_commit fuel io d b child else Some s) (Some (true, b, d, io)) childs;
      let '(ok, b, d, io) := r in
      if negb ok then Some (false, b, d, io)
      else
        rlp ← cached_rlp node;
        let b := b ++ [(hash, rlp)] in
        if IdealBatchSize <=? ValueSize b then
          let '(ok, d, io) := batch_write io d b in
          if ok : bool then d ← batch_replay d b; Some (true, [], d, io) else Some (false, b, d, io)
        else Some (true, b, d, io)
    end
  end.

(** [Commit] of the database. *)
Definition db_Commit (fuel : nat) (io : list bool) (d : Database) (hash : hash_t) : option (res flush_error unit * Database) :=
  let '(ok, b, d, io) := flush_preimages io d [] (map_to_list (preimages d)) in
  if negb ok then Some (Err ErrWrite, d)
  else
    let '(ok, d, io) := batch_write io d b in
    if negb ok then Some (Err ErrWrite, d)
    else
      r ← db_commit fuel io d [] hash;
      let '(ok, b, d, io) := r in
      if negb ok then Some (Err ErrWrite, d)
      else
        let '(ok, d, io) := batch_write io d b in
        if negb ok then Some (Err ErrWrite, d)
        else d ← batch_replay d b; Some (Ok tt, set_preimages d ∅ 0).

(** [Size]. *)
Definition Size (d : Database) : option (Z * Z) :=
  meta ← dirties d !! zero_hash;
  Some (dirtiesSize d + childrenSize d + (Z.of_nat (base.size (dirties d)) - 1) * cachedNodeSize
          - Z.of_nat (base.size (children_of meta)) * 34, preimagesSize d).

(** ** The committer *)

Section committer.
  Context (keccak : list Z -> list Z).

(** [estimateSize]. *)
Fixpoint estimateSize (n : node) : option Z :=
  match n with
  | shortNode K c _ => s ← estimateSize c; Some (3 + Z.of_nat (length K) + s)
  | fullNode cs _ =>
    (fix loop (cs : list node) (k : nat) (s : Z) : option Z :=
       match cs, k with
       | c :: cs, S k => e ← match c with nilNode => Some 1 | _ => estimateSize c end; loop cs k (s + e)
       | _, _ => Some s
       end) cs 16%nat 3
  | valueNode v => Some (1 + Z.of_nat (length v))
  | hashNode h => Some (1 + Z.of_nat (length h))
  | nilNode => None
  end.

Definition commitNeeded (n : node) : bool :=
  match (cache n).1 with None => true | Some _ => (cache n).2 end.

(** The callback on the values of a stored node, which [commitLoop] makes; it
    is given the value and the hash of the node, and may use the database. *)
Abbreviation LeafCallback := (list Z -> hash_t -> Database -> option Database).

Definition is_value_node (n : node) : bool := match n with valueNode _ => true | _ => false end.

Definition call_leaf (onleaf : LeafCallback) (hash : hash_t) (od : option Database) (c : node) : option Database :=
  match c with valueNode v => d ← od; onleaf v hash d | _ => od end.

(** One round of [commitLoop]. *)
Definition commit_leaf (onleaf : LeafCallback) (d : Database) (hash : hash_t) (size : Z) (n : node) (vnodes : bool) : option Database :=
  d ← db_insert d hash size n;
  if vnodes then
    match n with
    | shortNode _ c _ => call_leaf onleaf hash (Some d) c
    | fullNode cs _ => foldl (call_leaf onleaf hash) (Some d) (take 16 cs)
    | _ => Some d
    end
  else Some d.

(** [store]: through the channel of [commitLoop] when there is a callback. *)
Definition store (onleaf : option LeafCallback) (n : node) (d : Database) (force hasVnodes : bool) : option (node * Database) :=
  let put := fun hash size =>
    d ← match onleaf with
        | Some cb => commit_leaf cb d (BytesToHash hash) size n hasVnodes
        | None => db_insert d (BytesToHash hash) size n
        end;
    Some (hashNode hash, d) in
  match (cache n).1 with
  | None =>
    match n with
    | valueNode v =>
      tmp ← EncodeRLP n;
      if (length tmp <? 32)%nat && negb force then Some (n, d) else put (keccak tmp) (Z.of_nat (length tmp))
    | _ => Some (n, d)
    end
  | Some hash => size ← estimateSize n; put hash size
  end.

(** [commitChildren], given [commit]. *)
Fixpoint commitChildren (commit : node -> Database -> option (node * Database)) (cs : list node) (d : Database)
  : option (list node * bool * Database) :=
  match cs with
  | [] => Some ([], false, d)
  | nilNode :: cs =>
    r ← commitChildren commit cs d;
    Some (nilNode :: r.1.1, r.1.2, r.2)
  | c :: cs =>
    h ← commit c d;
    r ← commitChildren commit cs h.2;
    Some (h.1 :: r.1.1, is_value_node h.1 || r.1.2, r.2)
  end.

(** [commit]; none of its calls returns an error. *)
Fixpoint commit (onleaf : option LeafCallback) (n : node) (d : Database) (force : bool) : option (node * Database) :=
  match cache n with
  | (Some hash, false) => Some (hashNode hash, d)
  | _ =>
    match n with
    | shortNode K c f =>
      r ← match c with valueNode _ => Some (c, d) | _ => commit onleaf c d false end;
      key ← hexToCompact K;
      let collapsed := shortNode key r.1 f in
      h ← store onleaf collapsed r.2 force true;
      Some (match h.1 with hashNode hn => hashNode hn | _ => collapsed end, h.2)
    | fullNode cs f =>
      r ← commitChildren (fun c d => commit onleaf c d false) cs d;
      let collapsed := fullNode r.1.1 f in
      h ← store onleaf collapsed r.2 force r.1.2;
      Some (match h.1 with hashNode hn => hashNode hn | _ => collapsed end, h.2)
    | valueNode _ => store onleaf n d force false
    | hashNode _ => Some (n, d)
    | nilNode => None
    end
  end.

(** [Commit] of the trie. *)
Definition Trie_Commit (onleaf : option LeafCallback) (t : Trie) (d : Database) : option (hash_t * Trie * Database) :=
  match root t with
  | nilNode => Some (emptyRoot, t, d)
  | _ =>
    h ← Hash keccak t;
    let t := h.2 in
    if commitNeeded (root t) then
      r ← commit onleaf (root t) d true;
      newRoot ← as_hash r.1;
      Some (h.1, MkTrie (hashNode newRoot) (unhashed t), r.2)
    else Some (h.1, t, d)
  end.
End committer.

(** The nodes that the tries over a database find in it; a hash has 32 bytes. *)
Definition db_fn (d : Database) (h : hash_t) : option node :=
  if (length h =? 32)%nat then match db_node d h with Some (Some n, _) => Some n | _ => None end else None.
