(* ===== verification/TrieFlush.v ===== *)
(** * The flush list of the node database ([src/trie/database.go])

    The dirty nodes are linked, from the oldest to the newest, through their
    own fields; the metaroot, under the zero hash, is not in the list.  Here:
    what a well-formed list is, and that inserting a node and taking one out
    keep it so, without a nil pointer. *)

From S2P Require Import Prelude Bytes Rlp Trie TrieStore TrieDb.
Local Open Scope Z_scope.

(** ** Linked entries *)

Abbreviation dirty_t := (gmap hash_t cachedNode).

Definition next_of (m : dirty_t) (h : hash_t) : option hash_t := cn_flushNext <$> m !! h.
Definition prev_of (m : dirty_t) (h : hash_t) : option hash_t := cn_flushPrev <$> m !! h.

Fixpoint linked (m : dirty_t) (l : list hash_t) : Prop :=
  match l with
  | x :: ((y :: _) as l') => next_of m x = Some y /\ prev_of m y = Some x /\ linked m l'
  | _ => True
  end.

Lemma linked_cons m x y l : linked m (x :: y :: l) <-> next_of m x = Some y /\ prev_of m y = Some x /\ linked m (y :: l).
Proof. done. Qed.

Lemma linked_app m l1 x l2 : linked m (l1 ++ x :: l2) <-> linked m (l1 ++ [x]) /\ linked m (x :: l2).
Proof.
  induction l1 as [|a l1 IH]; [cbn; tauto|]. destruct l1 as [|b l1]; cbn [app] in *; rewrite !linked_cons; [cbn [linked]; tauto|]. rewrite IH. tauto.
Qed.

Lemma next_of_ne m h c x : x <> h -> next_of (<[h := c]> m) x = next_of m x.
Proof. intros. unfold next_of. by rewrite lookup_insert_ne. Qed.
Lemma prev_of_ne m h c x : x <> h -> prev_of (<[h := c]> m) x = prev_of m x.
Proof. intros. unfold prev_of. by rewrite lookup_insert_ne. Qed.

Lemma linked_other m l h c : h ∉ l -> linked m l -> linked (<[h := c]> m) l.
Proof.
  induction l as [|x l IH]; intros Hh H; [done|]. destruct l as [|y l]; [done|]. rewrite linked_cons in *.
  apply not_elem_of_cons in Hh as [Hx Hh]. pose proof Hh as [Hy _]%not_elem_of_cons. rewrite next_of_ne, prev_of_ne by done. naive_solver.
Qed.

(** The successor of the last entry and the predecessor of the first are not
    part of the links. *)
Lemma linked_next m l x c h : x ∉ l -> m !! x = Some c -> linked m (l ++ [x]) -> linked (<[x := with_next c h]> m) (l ++ [x]).
Proof.
  intros Hx Hc. induction l as [|a l IH]; [done|]. apply not_elem_of_cons in Hx as [Ha Hx]. destruct l as [|b l]; cbn [app] in *; rewrite !linked_cons.
  - intros (H1 & H2 & _). rewrite next_of_ne by done. split; [done|]. split; [|done]. revert H2. unfold prev_of. by rewrite lookup_insert_eq, Hc.
  - apply not_elem_of_cons in Hx as [Hb Hx]. rewrite next_of_ne, prev_of_ne by done. intros (H1 & H2 & H3). split; [done|]. split; [done|]. apply IH; [|done]. by apply not_elem_of_cons.
Qed.

Lemma linked_prev m l x c h : x ∉ l -> m !! x = Some c -> linked m (x :: l) -> linked (<[x := with_prev c h]> m) (x :: l).
Proof.
  intros Hx Hc. destruct l as [|y l]; [done|]. rewrite !linked_cons. intros (H1 & H2 & H3). pose proof Hx as [Hy _]%not_elem_of_cons.
  rewrite prev_of_ne by done. split; [|split; [done|by apply linked_other]]. revert H1. unfold next_of. by rewrite lookup_insert_eq, Hc.
Qed.

Lemma linked_same m m' l : (forall x, x ∈ l -> next_of m' x = next_of m x /\ prev_of m' x = prev_of m x) -> linked m l -> linked m' l.
Proof.
  induction l as [|x l IH]; intros Hs H; [done|]. destruct l as [|y l]; [done|]. rewrite linked_cons in *. destruct H as (H1 & H2 & H3).
  destruct (Hs x) as [-> _]; [by left|]. destruct (Hs y) as [_ ->]; [by right; left|]. split; [done|]. split; [done|]. apply IH; [|done]. intros z Hz. apply Hs. by right.
Qed.

(** ** The list of a database *)

Record flush_list (d : Database) (l : list hash_t) : Prop := MkFlush {
  fl_nodup : NoDup (zero_hash :: l);
  fl_dom : forall h, is_Some (dirties d !! h) <-> h ∈ zero_hash :: l;
  fl_linked : linked (dirties d) l;
  fl_end : forall x, last l = Some x -> next_of (dirties d) x = Some zero_hash;
  fl_oldest : oldest d = default zero_hash (head l);
  fl_newest : forall x, last l = Some x -> newest d = x;
}.

(** What an entry is besides its place in the list and its counters. *)
Definition core (c : cachedNode) : rnode * option (gmap hash_t Z) := (cn_node c, cn_children c).

(** The parts of a database that the list does not touch. *)
Definition same_rest (d d' : Database) : Prop :=
  diskdb d' = diskdb d /\ cleans d' = cleans d /\ preimages d' = preimages d /\ preimagesSize d' = preimagesSize d.

Lemma same_rest_refl d : same_rest d d.
Proof. done. Qed.

Lemma update_core (m : dirty_t) h c c' : m !! h = Some c -> core c' = core c -> core <$> <[h := c']> m = core <$> m.
Proof. intros H E. rewrite fmap_insert, E. apply insert_id. by rewrite lookup_fmap, H. Qed.

Lemma core_dom (m m' : dirty_t) h : core <$> m' = core <$> m -> is_Some (m' !! h) <-> is_Some (m !! h).
Proof. intros E. rewrite <- !(fmap_is_Some core), <- !lookup_fmap. by rewrite E. Qed.

Lemma upd_dirty_eq d h c f : dirties d !! h = Some c -> upd_dirty d h f = Some (set_dirties d (<[h := f c]> (dirties d))).
Proof. intros E. unfold upd_dirty. by rewrite E. Qed.

Section unlink.
  Context (d : Database) (l1 : list hash_t) (h : hash_t) (l2 : list hash_t) (n : cachedNode).
  Hypothesis (Hfl : flush_list d (l1 ++ h :: l2)) (Hn : dirties d !! h = Some n).

Definition unlinked (d1 : Database) : Prop :=
  flush_list (set_dirties d1 (base.delete h (dirties d1))) (l1 ++ l2) /\ core <$> dirties d1 = core <$> dirties d /\ same_rest d d1 /\
  dirtiesSize d1 = dirtiesSize d /\ childrenSize d1 = childrenSize d.

Lemma unlink_nodup : NoDup (zero_hash :: l1 ++ l2) /\ h ∉ zero_hash :: l1 ++ l2.
Proof.
  pose proof (fl_nodup _ _ Hfl) as Hnd. replace (zero_hash :: l1 ++ h :: l2) with ((zero_hash :: l1) ++ h :: l2) in Hnd by done.
  apply NoDup_app in Hnd as (H1 & H2 & H3). apply NoDup_cons in H3 as [H3 H4]. split.
  - change (zero_hash :: l1 ++ l2) with ((zero_hash :: l1) ++ l2). apply NoDup_app. split; [done|]. split; [|done]. intros x Hx Hx2. apply (H2 x Hx). by right.
  - change (zero_hash :: l1 ++ l2) with ((zero_hash :: l1) ++ l2). intros [Hx|Hx]%elem_of_app; [|done]. apply (H2 h Hx). by left.
Qed.

Lemma unlink_dom (m : dirty_t) x : core <$> m = core <$> dirties d -> is_Some (base.delete h m !! x) <-> x ∈ zero_hash :: l1 ++ l2.
Proof.
  intros E. destruct unlink_nodup as [_ Hh]. destruct (decide (x = h)) as [->|Hne].
  - rewrite lookup_delete_eq. split; [by intros [? ?]|done].
  - rewrite lookup_delete_ne by done. rewrite (core_dom _ _ x E), (fl_dom _ _ Hfl). rewrite !elem_of_cons, !elem_of_app, elem_of_cons. naive_solver.
Qed.

Lemma linked_delete (m : dirty_t) l : h ∉ l -> linked m l -> linked (base.delete h m) l.
Proof.
  intros Hh. apply linked_same. intros x Hx. assert (x <> h) by (by intros ->). unfold next_of, prev_of. by rewrite lookup_delete_ne.
Qed.

Lemma next_delete (m : dirty_t) x : x <> h -> next_of (base.delete h m) x = next_of m x.
Proof. intros. unfold next_of. by rewrite lookup_delete_ne. Qed.

Lemma last_cons_app (l : list hash_t) x y : last (l ++ x :: y) = last (x :: y).
Proof. rewrite last_app. destruct (last (x :: y)) eqn:E; [done|]. by apply last_None in E. Qed.
End unlink.

Lemma unlink_only d h n : flush_list d [h] -> dirties d !! h = Some n -> exists d1, unlink d h n = Some d1 /\ unlinked d [] h [] d1.
Proof.
  intros Hfl Hn. destruct (unlink_nodup d [] h [] Hfl) as [Hnd Hh]. pose proof Hfl as [_ Hdom Hl He Ho Hnw].
  specialize (He h eq_refl). unfold next_of in He. rewrite Hn in He. injection He as He. destruct (proj2 (Hdom zero_hash)) as [z Hz]; [by left|].
  unfold unlink. rewrite bool_decide_eq_true_2 by done. rewrite He. erewrite upd_dirty_eq by done. eexists. split; [done|].
  assert (core <$> <[zero_hash:=with_prev z zero_hash]> (dirties d) = core <$> dirties d) as Ec by (by eapply update_core).
  split; [|done]. split; try done. intros x. cbn [dirties set_dirties set_ends]. by apply (unlink_dom d [] h []).
Qed.

Lemma unlink_first d h y l n : flush_list d (h :: y :: l) -> dirties d !! h = Some n -> exists d1, unlink d h n = Some d1 /\ unlinked d [] h (y :: l) d1.
Proof.
  intros Hfl Hn. destruct (unlink_nodup d [] h (y :: l) Hfl) as [Hnd Hh]. pose proof Hfl as [_ Hdom Hl He Ho Hnw].
  destruct Hl as (Hx & Hp & Hl). unfold next_of in Hx. rewrite Hn in Hx. injection Hx as Hx.
  destruct (proj2 (Hdom y)) as [c Hc]; [by right; right; left|]. unfold unlink. rewrite bool_decide_eq_true_2 by done. rewrite Hx.
  erewrite upd_dirty_eq by done. eexists. split; [done|]. cbn [app] in *. apply NoDup_cons in Hnd as [Hz Hnd]. apply NoDup_cons in Hnd as [Hy Hnd].
  assert (h ∉ y :: l) as Hh' by (intros ?; apply Hh; by right).
  split; [|split; [by eapply update_core|done]]. split; cbn [dirties set_dirties set_ends oldest newest].
  - by constructor; [|constructor].
  - intros x. apply (unlink_dom d [] h (y :: l)); [done|by eapply update_core].
  - apply linked_delete; [done|]. by apply linked_prev.
  - intros x Hlast. assert (x <> h) by (intros ->; apply Hh'; by eapply last_Some_elem_of). rewrite next_delete by done.
    specialize (He x Hlast). destruct (decide (x = y)) as [->|Hne]; [|by rewrite next_of_ne]. unfold next_of in *. rewrite lookup_insert_eq. by rewrite Hc in He.
  - done.
  - intros x Hlast. by apply Hnw.
Qed.

Lemma unlink_last d l x h n : flush_list d (l ++ [x; h]) -> dirties d !! h = Some n -> exists d1, unlink d h n = Some d1 /\ unlinked d (l ++ [x]) h [] d1.
Proof.
  intros Hfl Hn. change [x; h] with ([x] ++ [h]) in Hfl. rewrite (app_assoc l [x] [h]) in Hfl. destruct (unlink_nodup d (l ++ [x]) h [] Hfl) as [Hnd Hh].
  pose proof Hfl as [Hnd0 Hdom Hl He Ho Hnw]. rewrite <- app_assoc in Hl. apply linked_app in Hl as [Hl1 (Hx & Hp & _)].
  unfold prev_of in Hp. rewrite Hn in Hp. injection Hp as Hp. rewrite app_nil_r in *.
  destruct (proj2 (Hdom x)) as [c Hc]; [right; apply elem_of_app; left; apply elem_of_app; right; by left|].
  assert (h <> oldest d) as Hno. { intros E. apply Hh. right. rewrite E, Ho. destruct l as [|a l]; [by left|by left]. }
  assert (newest d = h) as Hnh by (apply Hnw; by rewrite last_snoc).
  unfold unlink. rewrite bool_decide_eq_false_2 by done. rewrite bool_decide_eq_true_2 by done. rewrite Hp.
  erewrite upd_dirty_eq by done. eexists. split; [done|]. apply NoDup_cons in Hnd as [Hz Hnd]. pose proof Hnd as Hndx. apply NoDup_app in Hndx as (_ & Hxl & _).
  assert (x ∉ l) as Hx' by (intros Hxx; apply (Hxl x Hxx); by left). assert (h ∉ l ++ [x]) as Hh' by (intros ?; apply Hh; by right).
  assert (core <$> <[x:=with_next c zero_hash]> (dirties d) = core <$> dirties d) as Ec by (by eapply update_core).
  split; [|done]. rewrite app_nil_r. split; cbn [dirties set_dirties set_ends oldest newest].
  - by constructor.
  - intros y. rewrite (unlink_dom d (l ++ [x]) h [] Hfl _ _ Ec), app_nil_r. done.
  - apply linked_delete; [done|]. by apply linked_next.
  - intros y. rewrite last_snoc. intros [= <-]. rewrite next_delete by (intros ->; apply Hh'; apply elem_of_app; right; by left). unfold next_of. by rewrite lookup_insert_eq.
  - rewrite Ho. by destruct l.
  - intros y. rewrite last_snoc. congruence.
Qed.

Lemma unlink_middle d l x h y l' n : flush_list d ((l ++ [x]) ++ h :: y :: l') -> dirties d !! h = Some n ->
  exists d1, unlink d h n = Some d1 /\ unlinked d (l ++ [x]) h (y :: l') d1.
Proof.
  intros Hfl Hn. destruct (unlink_nodup d (l ++ [x]) h (y :: l') Hfl) as [Hnd Hh]. pose proof Hfl as [Hnd0 Hdom Hl He Ho Hnw].
  apply linked_app in Hl as [Hl1 (Hnx & Hpy & Hl2)]. rewrite <- app_assoc in Hl1. apply linked_app in Hl1 as [Hl1 (_ & Hph & _)].
  unfold next_of in Hnx. unfold prev_of in Hph. rewrite Hn in Hnx, Hph. injection Hnx as Hnx. injection Hph as Hph.
  destruct (proj2 (Hdom x)) as [c Hc]; [right; apply elem_of_app; left; apply elem_of_app; right; by left|].
  destruct (proj2 (Hdom y)) as [c' Hc']; [right; apply elem_of_app; right; right; by left|].
  apply NoDup_cons in Hnd as [Hz Hnd]. pose proof Hnd as (Hndl & Hdisj & Hndr)%NoDup_app. apply NoDup_app in Hndl as (_ & Hxl & _). apply NoDup_cons in Hndr as [Hyl _].
  assert (x ∉ l) as Hx' by (intros Hxx; apply (Hxl x Hxx); by left). assert (h ∉ (l ++ [x]) ++ y :: l') as Hh' by (intros ?; apply Hh; by right).
  assert (y ∉ l ++ [x]) as Hy' by (intros Hyx; apply (Hdisj y Hyx); by left). assert (x <> y) as Hxy by (intros ->; apply Hy', elem_of_app; right; by left).
  assert (x ∉ y :: l') as Hxr by (apply Hdisj, elem_of_app; right; by left).
  assert (h <> oldest d) as Hno. { intros E. apply Hh'. rewrite E, Ho. destruct l as [|a l]; by left. }
  assert (h <> newest d) as Hnn. { intros E. apply Hh'. rewrite E. destruct (last (y :: l')) as [z|] eqn:Ez; [|by apply last_None in Ez].
    rewrite (Hnw z); [apply elem_of_app; right; by eapply last_Some_elem_of|]. by rewrite last_cons_app, last_cons_cons. }
  unfold unlink. rewrite !bool_decide_eq_false_2 by done. rewrite Hph, Hnx. erewrite upd_dirty_eq by done. cbn [mbind option_bind].
  set (m1 := <[x:=with_next c y]> (dirties d)). assert (m1 !! y = Some c') as Hc1 by (unfold m1; by rewrite lookup_insert_ne).
  rewrite (upd_dirty_eq _ y c') by done. eexists. split; [done|]. cbn [dirties set_dirties].
  assert (core <$> m1 = core <$> dirties d) as Ec1 by (by eapply update_core). assert (core <$> <[y:=with_prev c' x]> m1 = core <$> dirties d) as Ec by (rewrite <- Ec1; by eapply update_core).
  split; [|done]. split; cbn [dirties set_dirties oldest newest].
  - by constructor.
  - intros z. apply (unlink_dom d (l ++ [x]) h (y :: l') Hfl _ _ Ec).
  - apply linked_delete; [done|]. rewrite <- app_assoc. apply linked_app. split; [apply linked_other; [done|]; by apply linked_next|].
    cbn [app]. apply linked_cons. rewrite next_of_ne by done. unfold next_of, m1 at 1. rewrite lookup_insert_eq. split; [done|]. unfold prev_of. rewrite lookup_insert_eq. split; [done|].
    apply linked_prev; [done|done|]. by apply linked_other.
  - intros z Hlast. assert (z <> h) by (intros ->; apply Hh'; by eapply last_Some_elem_of). rewrite next_delete by done.
    rewrite last_cons_app in Hlast. assert (next_of (dirties d) z = Some zero_hash) as Hz' by (apply He; by rewrite last_cons_app, last_cons_cons).
    assert (z <> x) by (intros ->; apply Hxr; by eapply last_Some_elem_of). destruct (decide (z = y)) as [->|Hne].
    + unfold next_of in *. rewrite lookup_insert_eq. by rewrite Hc' in Hz'.
    + unfold m1. by rewrite !next_of_ne.
  - rewrite Ho. by destruct l.
  - intros z Hlast. apply Hnw. rewrite last_cons_app in *. by rewrite last_cons_cons.
Qed.

(** A node of the list is taken out of it, and nothing else changes. *)
Lemma unlink_ok d l1 h l2 n : flush_list d (l1 ++ h :: l2) -> dirties d !! h = Some n -> exists d1, unlink d h n = Some d1 /\ unlinked d l1 h l2 d1.
Proof.
  intros Hfl Hn. destruct l1 as [|x l1 _] using rev_ind.
  - destruct l2 as [|y l2]; [by apply unlink_only|by apply unlink_first].
  - destruct l2 as [|y l2]; [|by apply unlink_middle]. apply unlink_last; [|done]. by rewrite <- app_assoc in Hfl.
Qed.

(** ** A new entry *)

Lemma add_parent_same m x : core <$> add_parent m x = core <$> m /\ (forall h, next_of (add_parent m x) h = next_of m h /\ prev_of (add_parent m x) h = prev_of m h).
Proof.
  unfold add_parent. destruct (m !! x) as [c|] eqn:E; [|done]. split; [by eapply update_core|]. intros h. unfold next_of, prev_of.
  destruct (decide (h = x)) as [->|Hne]; [by rewrite lookup_insert_eq, E|by rewrite lookup_insert_ne].
Qed.

Lemma add_parents_same l : forall m, core <$> foldl add_parent m l = core <$> m /\
  (forall h, next_of (foldl add_parent m l) h = next_of m h /\ prev_of (foldl add_parent m l) h = prev_of m h).
Proof.
  induction l as [|x l IH]; intros m; [done|]. cbn [foldl]. destruct (IH (add_parent m x)) as [H1 H2]. destruct (add_parent_same m x) as [H3 H4].
  split; [by rewrite H1|]. intros h. destruct (H2 h) as [-> ->]. apply H4.
Qed.

(** [db.insert] puts the node at the end. *)
Lemma insert_raw_list d l h size s ch : flush_list d l -> forGatherChildren s = Some ch -> dirties d !! h = None -> h <> zero_hash ->
  exists d', db_insert_raw d h size s = Some d' /\ flush_list d' (l ++ [h]) /\ core <$> dirties d' = <[h := (s, None)]> (core <$> dirties d) /\ same_rest d d'.
Proof.
  intros Hfl Hch Hn Hz. unfold db_insert_raw. set (entry := MkCached _ _ _ _ _ _).
  assert (forChilds entry = Some ch) as ->. { unfold forChilds. unfold entry. cbn [cn_node cn_children]. destruct s; try (by rewrite Hch); done. }
  cbn [mbind option_bind]. destruct (add_parents_same ch (dirties d)) as [Hco Hsame]. set (m := foldl add_parent (dirties d) ch) in *.
  destruct Hfl as [Hnd Hdom Hl He Ho Hnw].
  assert (h ∉ zero_hash :: l) as Hh by (intros Hx%Hdom; rewrite Hn in Hx; by destruct Hx).
  assert (h ∉ l) as Hhl by (intros ?; apply Hh; by right). apply NoDup_cons in Hnd as [Hz0 Hnd].
  assert (NoDup (zero_hash :: l ++ [h])) as Hnd'.
  { constructor; [intros [?|?%list_elem_of_singleton]%elem_of_app; done|]. apply NoDup_app. split; [done|]. split; [|apply NoDup_singleton]. intros x Hx ->%list_elem_of_singleton. done. }
  assert (forall m', core <$> m' = <[h := (s, None)]> (core <$> dirties d) -> forall x, is_Some (m' !! x) <-> x ∈ zero_hash :: l ++ [h]) as Hdom'.
  { intros m' E x. rewrite <- (fmap_is_Some core), <- lookup_fmap, E. change (zero_hash :: l ++ [h]) with ((zero_hash :: l) ++ [h]). rewrite elem_of_app, list_elem_of_singleton. destruct (decide (x = h)) as [->|Hne].
    - rewrite lookup_insert_eq. split; [by right|by eexists].
    - rewrite lookup_insert_ne, lookup_fmap, fmap_is_Some, Hdom by done. naive_solver. }
  assert (core <$> <[h:=entry]> m = <[h := (s, None)]> (core <$> dirties d)) as Ec by (by rewrite fmap_insert, Hco).
  assert (linked (<[h := entry]> m) l) as Hl' by (apply linked_other; [done|]; by apply (linked_same (dirties d))).
  unfold link_newest. cbn [oldest newest set_dirties]. destruct l as [|a l _] using rev_ind.
  - rewrite Ho. cbn [head default from_option]. rewrite bool_decide_eq_true_2 by done. cbn [mbind option_bind]. eexists. split; [done|]. split; [|done].
    split; cbn [dirties set_dirties set_ends set_sizes oldest newest]; try done; [by apply Hdom'|intros x [= <-]; unfold next_of; by rewrite lookup_insert_eq|by intros x [= <-]].
  - assert (newest d = a) as Ha by (apply Hnw; by rewrite last_snoc). rewrite bool_decide_eq_false_2.
    2: { rewrite Ho. intros E. apply Hz0. destruct l as [|b l]; cbn [head app from_option default id] in E; rewrite <- E; by left. }
    rewrite Ha. destruct (proj2 (Hdom a)) as [c0 Hc0]; [right; apply elem_of_app; right; by left|]. assert (a <> h) as Hah by (intros ->; apply Hhl, elem_of_app; right; by left).
    assert (is_Some (m !! a)) as [c Hc] by (apply (core_dom _ _ a Hco); by eexists).
    assert (<[h := entry]> m !! a = Some c) as Hc' by (by rewrite lookup_insert_ne). rewrite (upd_dirty_eq _ a c) by done. cbn [mbind option_bind]. eexists. split; [done|].
    assert (core <$> <[a:=with_next c h]> (<[h:=entry]> m) = <[h := (s, None)]> (core <$> dirties d)) as Ec2 by (rewrite <- Ec; by eapply update_core).
    split; [|done]. apply NoDup_app in Hnd as (_ & Hal & _). assert (a ∉ l) as Ha' by (intros Hx; apply (Hal a Hx); by left).
    split; cbn [dirties set_dirties set_ends set_sizes oldest newest]; try done; [by apply Hdom'| | | |].
    + rewrite <- app_assoc. apply linked_app. split; [by apply linked_next|]. cbn [app]. apply linked_cons. unfold next_of, prev_of. rewrite lookup_insert_eq, lookup_insert_ne, lookup_insert_eq by done.
      cbn. by rewrite Ha.
    + intros x. rewrite last_snoc. intros [= <-]. unfold next_of. by rewrite lookup_insert_ne, lookup_insert_eq.
    + rewrite Ho. by destruct l.
    + intros x. rewrite last_snoc. congruence.
Qed.
