(* ===== verification/TrieCommit.v ===== *)
(** * Committed tries ([src/trie/committer.go], [database.go])

    Committing a trie moves its dirty nodes into the database under their
    hashes; what the database had stays, and the trie, now known by its root
    hash, holds the same map.  A sequence of operations, hashings, commits and
    reopenings refines the map, as long as no key is a prefix of another: the
    value of such a key is stored apart from its branch and lost on disk. *)

From S2P Require Import Prelude Bytes Rlp Trie TrieKeys TrieMap TrieRefine TrieStore TrieHash TrieRoot TrieProof TrieDb TrieFlush.
Local Open Scope Z_scope.

(** ** Larger databases *)

Section larger.
  Context (keccak : list Z -> list Z) (db db' : list Z -> option node).
  Context (Hext : forall h n, db h = Some n -> db' h = Some n).

Lemma fullish_ext n : fullish db n -> fullish db' n.
Proof. intros [?|(h & n' & -> & H & ?)]; [by left|]. right. exists h, n'. auto. Qed.

Lemma wf_ext n : wf db n -> wf db' n.
Proof.
  induction 1 as [K v f HK Hv|K c f HK Hn Hc IH Hf|cs f Hl Hs IH Hv Ht|h n Hn Hw IH Hl].
  - by constructor.
  - constructor; auto using fullish_ext.
  - by constructor.
  - econstructor; eauto.
Qed.

Lemma proper_ext n : proper db n -> proper db' n.
Proof. intros [?|?]; [left; by apply wf_ext|by right]. Qed.

Lemma holds_up n k v : holds db n k v -> holds db' n k v.
Proof. induction 1; econstructor; eauto. Qed.

Lemma holds_down n k v : holds db' n k v -> proper db n -> holds db n k v.
Proof.
  induction 1 as [v|K n f k v H IH|cs f i c k v Hc H IH|h n k v Hn H IH]; intros Hp.
  - constructor.
  - constructor. apply IH. by apply proper_short in Hp as [? _].
  - econstructor; [done|]. apply IH. eapply (proper_full _ _ _ Hp); [done|]. intros ->. by apply holds_nil in H.
  - destruct Hp as [Hw|(w & _ & ?)]; [|done]. inversion Hw as [| | |? n' Hn' Hwn Hl]; subst. assert (n' = n) as -> by (apply Hext in Hn'; congruence).
    econstructor; [done|]. apply IH. by left.
Qed.

Lemma holds_ext n k v : proper db n -> holds db' n k v <-> holds db n k v.
Proof. intros Hp. split; [intros H; by apply holds_down|apply holds_up]. Qed.

Lemma good_ext t n : good keccak db t n -> good keccak db' t n.
Proof. induction 1; econstructor; eauto. Qed.

Lemma sized_ext n : proper db n -> sized db n -> sized db' n.
Proof. intros Hp Hs k v H. apply Hs. by apply holds_down. Qed.
End larger.

Section commit.
  Context (keccak : list Z -> list Z) `{!KeccakLaws keccak}.
  Abbreviation enc := (TrieHash.enc keccak).
  Abbreviation child_item := (TrieHash.child_item keccak).
  Abbreviation node_item := (TrieHash.node_item keccak).
  Abbreviation collapse := (TrieProof.collapse keccak).
  Abbreviation collapse_child := (TrieProof.collapse_child keccak).

(** What the code relies on not to happen. *)
Definition broken : Prop := collision keccak \/ exists x, keccak x = zero_hash.

(** ** Collapsed nodes *)

Lemma collapse_item_child n : (forall h, node_item (collapse h n) = node_item n) -> child_item (collapse_child n) = child_item n.
Proof.
  intros IH. unfold TrieProof.collapse_child. destruct (is_loaded n) eqn:L; [|done]. unfold TrieHash.child_item at 2. rewrite L. unfold ref_item.
  change (encode_item (node_item n)) with (enc n). destruct (_ <? 32)%nat eqn:E; [|done]. unfold TrieHash.child_item.
  assert (is_loaded (collapse None n) = true) as -> by (by destruct n). unfold ref_item. rewrite IH. change (encode_item (node_item n)) with (enc n). by rewrite E.
Qed.

Lemma collapse_item n h : node_item (collapse h n) = node_item n.
Proof.
  revert h. induction n as [|v|h0|K c f IH|cs f IH] using node_tree_ind; intros h; try done.
  - rewrite collapse_short, !node_item_short. by rewrite collapse_item_child.
  - rewrite collapse_full, !node_item_full. f_equal. rewrite <- list_fmap_compose. apply list_fmap_ext. intros i c Hc. rewrite Forall_lookup in IH.
    apply collapse_item_child. eauto.
Qed.

Lemma collapse_enc n h : enc (collapse h n) = enc n.
Proof. unfold TrieHash.enc. by rewrite collapse_item. Qed.

Lemma collapse_child_idem n : (forall h h', collapse h (collapse h' n) = collapse h n) -> collapse_child (collapse_child n) = collapse_child n.
Proof.
  intros IH. unfold TrieProof.collapse_child at 2 3. destruct (is_loaded n) eqn:L; [|unfold TrieProof.collapse_child; by rewrite L].
  destruct (_ <? _)%nat eqn:E; [|done]. unfold TrieProof.collapse_child. assert (is_loaded (collapse None n) = true) as -> by (by destruct n).
  by rewrite collapse_enc, E, IH.
Qed.

Lemma collapse_idem n h h' : collapse h (collapse h' n) = collapse h n.
Proof.
  revert h h'. induction n as [|v|h0|K c f IH|cs f IH] using node_tree_ind; intros h h'; try done.
  - by rewrite !collapse_short, collapse_child_idem.
  - rewrite !collapse_full. f_equal. rewrite <- list_fmap_compose. apply list_fmap_ext. intros i c Hc. rewrite Forall_lookup in IH.
    apply collapse_child_idem. eauto.
Qed.

(** ** Consistent databases *)

Definition present (d : Database) (h : hash_t) : Prop :=
  is_Some (clean_get d h) \/ is_Some (dirties d !! h) \/ is_Some (diskdb d !! h).

Definition decode_opt (h : hash_t) (b : list Z) : option node := mustDecodeNode (Some h) b.

(** The nodes of a database, as the decoder makes them. *)
Definition normal (db : list Z -> option node) : Prop := forall h n, db h = Some n -> collapse (Some h) n = n.

(** The encoding of an entry. *)
Definition node_rlp (r : rnode) : option (list Z) := match r with rawNode b => Some b | r => EncodeToBytes (rnode_value r) end.
Definition node_obj (r : rnode) (h : hash_t) : option node := match r with rawNode b => decode_opt h b | r => expandNode (Some h) r end.

Definition stored_bytes (d : Database) (h b : list Z) : Prop :=
  clean_get d h = Some b \/ diskdb d !! h = Some b \/ exists r ch, core <$> dirties d !! h = Some (r, ch) /\ node_rlp r = Some b.

(** The nodes that a node refers to. *)
Fixpoint refs (n : node) : list hash_t :=
  match n with
  | hashNode h => [BytesToHash h]
  | shortNode _ c _ => refs c
  | fullNode cs _ =>
    (fix loop (cs : list node) (k : nat) : list hash_t := match cs, k with c :: cs, S k => refs c ++ loop cs k | _, _ => [] end) cs 16%nat
  | _ => []
  end.

(** What is stored under a hash is the encoding of a node with that hash; a
    clean node is on disk, and so is what a node on disk refers to. *)
Record db_ok (d : Database) : Prop := MkDbOk {
  do_sound : forall h b, length h = 32%nat -> h <> zero_hash -> stored_bytes d h b -> keccak b = h;
  do_bytes : forall h b n, length h = 32%nat -> stored_bytes d h b -> decode_opt h b = Some n -> collapse (Some h) n = n;
  do_dirty : forall h r ch, h <> zero_hash -> core <$> dirties d !! h = Some (r, ch) ->
    length h = 32%nat /\ ch = None /\ is_Some (forGatherChildren r) /\ exists b n, node_rlp r = Some b /\ node_obj r h = Some n /\ decode_opt h b = Some n;
  do_meta : fst <$> (core <$> dirties d !! zero_hash) = Some rNil;
  do_clean : forall h, is_Some (clean_get d h) -> is_Some (diskdb d !! h);
  do_closed : forall h b n, length h = 32%nat -> h <> zero_hash -> diskdb d !! h = Some b -> decode_opt h b = Some n ->
    forall x, x ∈ refs n -> is_Some (diskdb d !! x);
  do_pre : forall h p, preimages d !! h = Some p -> length h = 32%nat;
}.

(** In the flush list, what an entry refers to is before it or on disk. *)
Definition topo (d : Database) (l : list hash_t) : Prop :=
  forall l1 h l2 r ch cs, l = l1 ++ h :: l2 -> core <$> dirties d !! h = Some (r, ch) -> forGatherChildren r = Some cs ->
    forall x, x ∈ cs -> x ∈ l1 \/ is_Some (diskdb d !! x).

Definition flush_ok (d : Database) : Prop := exists l, flush_list d l /\ topo d l.

Definition ext (d d' : Database) : Prop := forall h n, db_fn d h = Some n -> db_fn d' h = Some n.

Lemma ext_refl d : ext d d.
Proof. by intros h n. Qed.
Lemma ext_trans d1 d2 d3 : ext d1 d2 -> ext d2 d3 -> ext d1 d3.
Proof. intros H1 H2 h n H. auto. Qed.

(** The lookup of a node depends only on the stored nodes. *)
Lemma db_fn_of d h : length h = 32%nat -> db_fn d h =
  match clean_get d h with
  | Some e => decode_opt h e
  | None => match core <$> dirties d !! h with Some (r, _) => node_obj r h | None => e ← diskdb d !! h; decode_opt h e end
  end.
Proof.
  intros Hl. unfold db_fn, db_node, decode_opt. rewrite Hl. cbn [Nat.eqb]. destruct (clean_get d h) as [e|]; [by destruct (mustDecodeNode (Some h) e)|].
  destruct (dirties d !! h) as [c|]; cbn [fmap option_fmap option_map core].
  - assert (node_obj (cn_node c) h = cached_obj c h) as -> by (unfold node_obj, cached_obj; by destruct (cn_node c)). by destruct (cached_obj c h).
  - destruct (diskdb d !! h) as [e|]; [|done]. cbn [mbind option_bind]. by destruct (mustDecodeNode (Some h) e).
Qed.

Lemma db_fn_length d h n : db_fn d h = Some n -> length h = 32%nat.
Proof. unfold db_fn. destruct (length h =? 32)%nat eqn:E; [by apply Nat.eqb_eq in E|done]. Qed.

(** What the tries read is the decoding of what is stored. *)
Lemma db_fn_bytes d h n : db_ok d -> db_fn d h = Some n -> exists b, stored_bytes d h b /\ decode_opt h b = Some n.
Proof.
  intros Hok Hn. pose proof (db_fn_length _ _ _ Hn) as Hl. revert Hn. rewrite db_fn_of by done. destruct (clean_get d h) as [e|] eqn:Ec; [exists e; split; [by left|done]|].
  destruct (core <$> dirties d !! h) as [[r ch]|] eqn:Ed.
  - destruct (decide (h = zero_hash)) as [->|Hz].
    + pose proof (do_meta _ Hok) as Hm. rewrite Ed in Hm. injection Hm as ->. done.
    + destruct (do_dirty _ Hok h r ch Hz Ed) as (_ & _ & _ & b & m & Hb & -> & Hm). intros [= <-]. exists b. split; [right; right; eauto|done].
  - destruct (diskdb d !! h) as [e|] eqn:Ek; [|done]. exists e. split; [right; by left|done].
Qed.

Lemma do_normal d : db_ok d -> normal (db_fn d).
Proof. intros Hok h n Hn. destruct (db_fn_bytes d h n Hok Hn) as (b & Hb & Hd). eapply (do_bytes _ Hok); [by eapply db_fn_length|done|done]. Qed.

(** It is on disk or in the flush list. *)
Lemma found_where d l h n : db_ok d -> flush_list d l -> db_fn d h = Some n -> h ∈ l \/ is_Some (diskdb d !! h).
Proof.
  intros Hok Hfl Hn. rewrite db_fn_of in Hn by (by eapply db_fn_length). revert Hn. destruct (clean_get d h) as [e|] eqn:Ec; [intros _; right; apply (do_clean _ Hok); eauto|].
  destruct (dirties d !! h) as [c|] eqn:Ed; cbn [fmap option_fmap option_map].
  - intros Hn. left. assert (h ∈ zero_hash :: l) as [->|?]%elem_of_cons by (apply (fl_dom _ _ Hfl); eauto); [|done].
    pose proof (do_meta _ Hok) as Hm. rewrite Ed in Hm. destruct c as [r s p ch fp fn]. cbn in Hm. injection Hm as ->. done.
  - destruct (diskdb d !! h); [eauto|done].
Qed.

Lemma db_entry d h : db_ok d -> length h = 32%nat -> h <> zero_hash -> present d h -> exists b, keccak b = h /\ db_fn d h = decode_opt h b.
Proof.
  intros Hok Hl Hz Hp. rewrite db_fn_of by done. destruct (clean_get d h) as [e|] eqn:Ec; [exists e; split; [apply (do_sound _ Hok); try done; by left|done]|].
  destruct (dirties d !! h) as [c|] eqn:Ed; cbn [fmap option_fmap option_map].
  - destruct (do_dirty _ Hok h (cn_node c) (cn_children c) Hz) as (_ & _ & _ & b & m & Hb & Ho & Hm); [by rewrite Ed|]. exists b. split; [|by rewrite Hm].
    apply (do_sound _ Hok); try done. right. right. eexists _, _. split; [by rewrite Ed|done].
  - destruct (diskdb d !! h) as [e|] eqn:Ek.
    + exists e. split; [|done]. apply (do_sound _ Hok); try done. right. by left.
    + destruct Hp as [[? Hp]|[[? Hp]|[? Hp]]]; congruence.
Qed.

Lemma stored_entry d n h : db_ok d -> present d h -> keccak (enc n) = h -> decodeNode (Some h) (enc n) = Ok (collapse (Some h) n) ->
  broken \/ db_fn d h = Some (collapse (Some h) n).
Proof.
  intros Hok Hp <- Hd. destruct (decide (keccak (enc n) = zero_hash)) as [Hz|Hz]; [left; right; eauto|].
  destruct (db_entry d (keccak (enc n)) Hok (keccak_length _) Hz Hp) as (b & Eb & ->). destruct (decide (b = enc n)) as [->|Hne].
  - right. unfold decode_opt, mustDecodeNode. by rewrite Hd.
  - left. left. by exists b, (enc n).
Qed.

(** A node without raw parts. *)
Fixpoint gatherable (r : rnode) : Prop :=
  match r with
  | rawNode _ => False
  | rawShortNode _ c => gatherable c
  | rawFullNode cs => fold_right (fun c P => gatherable c /\ P) True cs
  | _ => True
  end.

Lemma gather_ok r : gatherable r -> is_Some (forGatherChildren r).
Proof.
  revert r. fix IH 1. intros [|b|cs|K c|h|v] Hg; cbn [forGatherChildren]; [by exists []|done| |by apply IH|by exists [BytesToHash h]|by exists []].
  revert Hg. cbn [gatherable]. generalize 16%nat as k. induction cs as [|c cs IHcs]; intros k Hg; [by destruct k; eexists|].
  destruct k as [|k]; [by eexists|]. cbn [fold_right] in Hg. destruct Hg as [H1 H2]. destruct (IH c H1) as [a ->]. destruct (IHcs k H2) as [b ->]. by eexists.
Qed.

(** The children of an entry are the references of its node. *)
Lemma gather_refs r : forall h n cs, expandNode h r = Some n -> forGatherChildren r = Some cs -> refs n = cs.
Proof.
  revert r. fix IH 1. intros [|b|l|K c|x|v] h n cs; cbn [expandNode forGatherChildren]; [done|done| | |by intros [= <-] [= <-]|by intros [= <-] [= <-]].
  - intros (l' & El & [= <-])%bind_Some. cbn [refs]. revert l' cs El. generalize 16%nat as k. induction l as [|r l IHl]; intros k l' cs El.
    { injection El as <-. destruct k; by intros [= <-]. }
    apply bind_Some in El as (a & Ea & (l2 & El2 & [= <-])%bind_Some). destruct k as [|k]; [by intros [= <-]|]. intros (g & Eg & (gs & Egs & [= <-])%bind_Some)%bind_Some.
    pose proof (IH r None a g) as Hr. f_equal; [|by apply (IHl k l2)]. destruct r; [injection Ea as <-; by injection Eg as <-|by apply Hr..].
  - intros (c' & Ec & [= <-])%bind_Some. cbn [refs]. by apply (IH c None).
Qed.

Lemma good_refs db t n : good keccak db t n -> forall x, x ∈ refs n -> is_Some (db x).
Proof.
  induction 1 as [t|t v|t K c f Hc IH Hf|t cs f Hc IH Hf|t h n Hh Hdb Hl Hn IH Hok]; intros x; cbn [refs].
  - by intros ?%elem_of_nil.
  - by intros ?%elem_of_nil.
  - apply IH.
  - clear Hc Hf. revert IH. generalize 16%nat as k. induction cs as [|c cs IHcs]; intros k IH; [destruct k; by intros ?%elem_of_nil|].
    destruct k as [|k]; [by intros ?%elem_of_nil|]. intros [Hx|Hx]%elem_of_app; [by apply (IH 0%nat c)|]. apply (IHcs k); [|done]. intros i c' Hi. by apply (IH (S i)).
  - rewrite BytesToHash_id by done. intros ->%list_elem_of_singleton. eauto.
Qed.

(** The node database after a commit of [n] under its hash. *)
Definition inserted (d : Database) (n : node) (d' : Database) : Prop :=
  db_ok d' /\ flush_ok d' /\ ext d d' /\ db_fn d' (keccak (enc n)) = Some (collapse (Some (keccak (enc n))) n).

(** An entry for [n]: its encoding, its decoding, and its references. *)
Definition entry_for (n : node) (s : rnode) : Prop :=
  gatherable s /\ node_rlp s = Some (enc n) /\ node_obj s (keccak (enc n)) = Some (collapse (Some (keccak (enc n))) n).

Section insert.
  Context (d d' : Database) (l : list hash_t) (n : node) (s : rnode) (cs : list hash_t).
  Abbreviation h := (keccak (enc n)).
  Hypothesis (Hok : db_ok d) (Hfl : flush_list d l) (Htopo : topo d l) (Hz : h <> zero_hash) (Hnew : dirties d !! h = None).
  Hypothesis (Hent : entry_for n s) (Hcs : forGatherChildren s = Some cs) (Hrefs : forall x, x ∈ cs -> is_Some (db_fn d x)).
  Hypothesis (Hdec : decodeNode (Some h) (enc n) = Ok (collapse (Some h) n)).
  Hypothesis (Hcore : core <$> dirties d' = <[h := (s, None)]> (core <$> dirties d)) (Hrest : same_rest d d') (Hfl' : flush_list d' (l ++ [h])).

Lemma insert_core x : core <$> dirties d' !! x = if decide (x = h) then Some (s, None) else core <$> dirties d !! x.
Proof. rewrite <- !lookup_fmap, Hcore. destruct (decide (x = h)) as [->|?]; [by rewrite lookup_insert_eq|by rewrite lookup_insert_ne]. Qed.

Lemma insert_clean x : clean_get d' x = clean_get d x.
Proof. unfold clean_get. destruct Hrest as (_ & -> & _). done. Qed.

Lemma insert_fn x : db_fn d' x = if decide (x = h) then db_fn d' h else db_fn d x.
Proof.
  destruct (decide (x = h)) as [->|Hne]; [done|]. destruct (decide (length x = 32%nat)) as [Hl|Hl].
  - rewrite !db_fn_of, insert_clean, insert_core, decide_False by done. by destruct Hrest as (-> & _).
  - unfold db_fn. by rewrite (proj2 (Nat.eqb_neq _ _)).
Qed.

Lemma insert_decode : decode_opt h (enc n) = Some (collapse (Some h) n).
Proof. unfold decode_opt, mustDecodeNode. by rewrite Hdec. Qed.

Lemma insert_here : broken \/ db_fn d' h = Some (collapse (Some h) n).
Proof.
  rewrite db_fn_of, insert_clean, insert_core, decide_True by (done || apply keccak_length). destruct (clean_get d h) as [e|] eqn:Ec; [|right; apply Hent].
  destruct (stored_entry d n h Hok) as [?|E]; [left; eauto|done|done|by left|]. right. rewrite db_fn_of, Ec in E by apply keccak_length. done.
Qed.

Lemma insert_ext : db_fn d' h = Some (collapse (Some h) n) -> broken \/ ext d d'.
Proof.
  intros Hh. destruct (db_fn d h) as [n0|] eqn:E0; [|right; intros x m Hx; rewrite insert_fn; destruct (decide (x = h)) as [->|]; [congruence|done]].
  destruct (stored_entry d n h Hok) as [?|E]; [|done|done|by left|].
  - rewrite db_fn_of, Hnew in E0 by apply keccak_length. unfold present. destruct (clean_get d h); [left; eauto|]. cbn in E0. destruct (diskdb d !! h); [right; right; eauto|done].
  - right. intros x m Hx. rewrite insert_fn. destruct (decide (x = h)) as [->|]; [congruence|done].
Qed.

Lemma insert_topo : topo d' (l ++ [h]).
Proof.
  intros l1 x l2 r ch cs' El Hx Hg y Hy. destruct Hrest as (-> & _). rewrite insert_core in Hx. destruct l2 as [|z l2 _] using rev_ind.
  - apply app_inj_tail in El as [<- <-]. rewrite decide_True in Hx by done. injection Hx as <- <-. assert (cs' = cs) as -> by congruence. destruct (Hrefs y Hy) as [m Hm].
    by eapply found_where.
  - rewrite app_comm_cons, app_assoc in El. apply app_inj_tail in El as [-> <-]. rewrite decide_False in Hx; [by eapply Htopo|].
    intros ->. assert (is_Some (dirties d !! h)) as [? ?]; [|congruence]. apply (fl_dom _ _ Hfl). right. apply elem_of_app. right. by left.
Qed.

Lemma insert_bytes x b : stored_bytes d' x b -> stored_bytes d x b \/ (x = h /\ b = enc n).
Proof.
  intros Hs. unfold stored_bytes in *. rewrite insert_clean, insert_core in Hs. destruct Hrest as (Ed & _). rewrite Ed in Hs.
  destruct Hs as [Hs|[Hs|(r & ch & Hs & Hr)]]; [by left; left|left; right; by left|]. destruct (decide (x = h)) as [->|Hne]; [|left; right; right; eauto].
  right. injection Hs as <- <-. destruct Hent as (_ & Hb & _). split; [done|congruence].
Qed.

Lemma insert_db_ok : db_ok d'.
Proof.
  destruct Hent as (Hg & Hb & Ho). split.
  - intros x b Hl Hzx [Hs|[-> ->]]%insert_bytes; [by apply (do_sound _ Hok)|done].
  - intros x b m Hl [Hs|[-> ->]]%insert_bytes; [by apply (do_bytes _ Hok)|]. rewrite insert_decode. intros [= <-]. apply collapse_idem.
  - intros x r ch Hzx. rewrite insert_core. destruct (decide (x = h)) as [->|Hne]; [|by apply (do_dirty _ Hok)]. intros [= <- <-].
    split; [apply keccak_length|]. split; [done|]. split; [eauto|]. eexists (enc n), _. split; [done|]. split; [done|]. apply insert_decode.
  - rewrite insert_core, decide_False by (intros E; by apply Hz). apply (do_meta _ Hok).
  - intros x. rewrite insert_clean. destruct Hrest as (-> & _). apply (do_clean _ Hok).
  - destruct Hrest as (-> & _). apply (do_closed _ Hok).
  - destruct Hrest as (_ & _ & -> & _). apply (do_pre _ Hok).
Qed.
End insert.

Lemma db_insert_ok d n size col s : db_ok d -> flush_ok d ->
  decodeNode (Some (keccak (enc n))) (enc n) = Ok (collapse (Some (keccak (enc n))) n) ->
  simplifyNode col = Some s -> entry_for n s -> (forall x, x ∈ refs (collapse (Some (keccak (enc n))) n) -> is_Some (db_fn d x)) ->
  broken \/ exists d', db_insert d (keccak (enc n)) size col = Some d' /\ inserted d n d'.
Proof.
  intros Hok Hf Hd Es He Hr. unfold db_insert. destruct (dirties d !! keccak (enc n)) as [c|] eqn:Ec.
  { destruct (stored_entry d n (keccak (enc n)) Hok) as [?|E]; [right; left; eauto|done|done|by left|]. right. exists d. split; [done|]. split_and!; try done. apply ext_refl. }
  destruct (decide (keccak (enc n) = zero_hash)) as [Hz|Hz]; [left; right; eauto|]. rewrite Es. cbn [mbind option_bind]. destruct Hf as (l & Hfl & Ht).
  pose proof He as (Hg & _ & Ho). destruct (gather_ok s Hg) as [cs Hcs]. destruct (insert_raw_list d l (keccak (enc n)) size s cs Hfl Hcs Ec Hz) as (d' & -> & Hfl' & Hco & Hre).
  assert (refs (collapse (Some (keccak (enc n))) n) = cs) as Ecs.
  { eapply gather_refs; [|done]. by destruct s. }
  rewrite Ecs in Hr. destruct (insert_here d d' n s Hok He Hd Hco Hre) as [?|Hh]; [by left|].
  destruct (insert_ext d d' n s Hok Ec Hd Hco Hre Hh) as [?|Hx]; [by left|]. right. exists d'. split; [done|].
  split; [by eapply insert_db_ok|]. split; [|done]. exists (l ++ [keccak (enc n)]). split; [done|]. by eapply insert_topo.
Qed.

(** ** Nodes after a commit *)

(** What a reference to [n] expands to. *)
Definition ref_node (t : bool) (n : node) : node := if t then hashNode (root_hash keccak n) else collapse_child n.

(** The result [r] of committing [n], as the database stores it. *)
Definition stores (t : bool) (n r : node) : Prop :=
  r <> nilNode /\ is_Some (estimateSize r) /\ exists s, simplifyNode r = Some s /\ gatherable s /\ expandNode None s = Some (ref_node t n) /\
    item_of (rnode_value s) = (if t then IStr (root_hash keccak n) else child_item n).

(** [e] stands in the database [d'] for the node [n] over [d]. *)
Definition stands (t : bool) (d d' : Database) (n e : node) : Prop :=
  proper (db_fn d') e /\ good keccak (db_fn d') t e /\ (forall k v, holds (db_fn d') e k v <-> holds (db_fn d) n k v) /\
  (fullish (db_fn d) n -> fullish (db_fn d') e).

Lemma collapse_loaded h n : is_loaded (collapse h n) = is_loaded n.
Proof. by destruct n. Qed.

Lemma collapse_strip h h' n : strip (collapse h n) = strip (collapse h' n).
Proof. by destruct n. Qed.

(** A collapsed node with a hash. *)
Lemma good_collapse db t n : is_loaded n = true -> good keccak db false (collapse None n) -> (t = false -> (32 <= length (enc n))%nat) ->
  good keccak db t (collapse (Some (keccak (enc n))) n).
Proof.
  intros L Hg H32. assert (hash_ok keccak t (collapse (Some (keccak (enc n))) n) (keccak (enc n))) as Hok by (split; by rewrite collapse_enc).
  destruct n as [|cs f|K c f| |]; try done.
  - rewrite !collapse_full in *. inversion Hg; subst. constructor; [done|]. by intros h [= <-].
  - rewrite !collapse_short in *. inversion Hg; subst. constructor; [done|]. by intros h [= <-].
Qed.

(** A node in the database stands for itself by its hash. *)
Lemma stands_hash t d d' n : is_loaded n = true -> db_fn d' (keccak (enc n)) = Some (collapse (Some (keccak (enc n))) n) ->
  stands false d d' n (collapse None n) -> wf (db_fn d) n -> (t = false -> (32 <= length (enc n))%nat) ->
  stands t d d' n (hashNode (keccak (enc n))).
Proof.
  intros L Hdb (Hp & Hg & Hh & Hf) Hw H32. assert (length (keccak (enc n)) = 32%nat) as Hl by apply keccak_length.
  assert (db_fn d' (BytesToHash (keccak (enc n))) = Some (collapse (Some (keccak (enc n))) n)) as Hdb' by (by rewrite BytesToHash_id).
  assert (wf (db_fn d') (collapse (Some (keccak (enc n))) n)) as Hwc.
  { destruct Hp as [Hwc|(v & _ & E)]; [|by destruct n]. eapply wf_strip; [exact Hwc|apply collapse_strip]. }
  assert (loaded (collapse (Some (keccak (enc n))) n)) as Hlc by (by destruct n).
  split_and!.
  - left. by eapply wf_hash.
  - eapply g_hash; [done|done|by rewrite collapse_loaded|by apply good_collapse|]. split; by rewrite collapse_enc.
  - intros k v. rewrite (holds_hash _ _ _ _ _ Hdb'). rewrite <- Hh. apply same_strip. apply collapse_strip.
  - intros Hfull. right. eexists _, _. split; [done|]. split; [done|]. destruct (Hf Hfull) as [H|(h & n' & E & _)]; [|by destruct n]. by destruct n.
Qed.

Lemma stands_short d d' K c f : wf (db_fn d) (shortNode K c f) -> stands false d d' c (collapse_child c) ->
  stands false d d' (shortNode K c f) (collapse None (shortNode K c f)).
Proof.
  intros Hw (Hp & Hg & Hh & Hf). rewrite collapse_short. split_and!.
  - left. inversion Hw as [? v ? HK Hv|? ? ? HK Hn Hc Hful| |]; subst; [by constructor|]. constructor; try done; [|by apply Hf].
    destruct Hp as [?|(v & Hv & E)]; [done|]. destruct (Hf Hful) as [H|(h & n' & E' & _)]; rewrite E in *; done.
  - by constructor.
  - intros k v. rewrite !holds_short. by setoid_rewrite Hh.
  - intros H. by apply not_fullish in H.
Qed.

Lemma collapse_nil c : collapse_child c = nilNode <-> c = nilNode.
Proof. unfold TrieProof.collapse_child. destruct c; cbn [is_loaded]; try done; by destruct (_ <? _)%nat. Qed.

Lemma stands_full d d' cs f : wf (db_fn d) (fullNode cs f) ->
  (forall i c, cs !! i = Some c -> c <> nilNode -> stands false d d' c (collapse_child c)) ->
  stands false d d' (fullNode cs f) (collapse None (fullNode cs f)).
Proof.
  intros Hw HS. rewrite collapse_full. inversion Hw as [| |? ? Hl Hs Hv (i & j & c & e & Hij & Hc & He & Hcn & Hen)|]; subst.
  assert (forall i x, (collapse_child <$> cs) !! i = Some x -> exists c, cs !! i = Some c /\ x = collapse_child c) as Hback.
  { intros i0 x. rewrite list_lookup_fmap. destruct (cs !! i0) as [c0|]; [|done]. intros [= <-]. eauto. }
  split_and!.
  - left. constructor.
    + by rewrite length_fmap.
    + intros i0 x Hi Hx Hn. destruct (Hback _ _ Hx) as (c0 & Hc0 & ->). rewrite collapse_nil in Hn. destruct (HS i0 c0 Hc0 Hn) as ([?|(v & _ & E)] & _); [done|].
      assert (wf (db_fn d) c0) as Hw0 by (by eapply Hs). exfalso. revert E. unfold TrieProof.collapse_child. destruct c0; cbn [is_loaded]; try done; [destruct (_ <? _)%nat; done|destruct (_ <? _)%nat; done|]. inversion Hw0.
    + intros x Hx Hn. destruct (Hback _ _ Hx) as (c0 & Hc0 & ->). rewrite collapse_nil in Hn. destruct (Hv c0 Hc0 Hn) as (v & ? & ->). by exists v.
    + exists i, j, (collapse_child c), (collapse_child e). rewrite !list_lookup_fmap, Hc, He, !collapse_nil. by split_and!.
  - constructor; [|done]. intros i0 x Hx. destruct (Hback _ _ Hx) as (c0 & Hc0 & ->). destruct (decide (c0 = nilNode)) as [->|Hn]; [constructor|].
    by destruct (HS i0 c0 Hc0 Hn) as (_ & ? & _).
  - intros k v. rewrite !holds_full. split.
    + intros (i0 & x & k' & -> & Hx & H). destruct (Hback _ _ Hx) as (c0 & Hc0 & ->). destruct (decide (c0 = nilNode)) as [->|Hn]; [by apply holds_nil in H|].
      exists i0, c0, k'. split_and!; try done. by apply (HS i0 c0).
    + intros (i0 & c0 & k' & -> & Hc0 & H). assert (c0 <> nilNode) as Hn by (intros ->; by apply holds_nil in H).
      exists i0, (collapse_child c0), k'. rewrite list_lookup_fmap, Hc0. split_and!; try done. by apply (HS i0 c0).
  - intros _. by left.
Qed.

(** ** Nodes ready to be committed *)

(** The database has the node [n] under the hash [h]. *)
Definition stored (db : list Z -> option node) (t : bool) (n : node) (h : list Z) : Prop :=
  good keccak db t (hashNode h) /\ wf db (hashNode h) /\ same_content db n (hashNode h) /\ (fullish db n -> fullish db (hashNode h)).

(** After hashing: every node in memory has its hash or is small, and clean
    nodes are in the database. *)
Inductive ready (db : list Z -> option node) : bool -> node -> Prop :=
| rd_nil t : ready db t nilNode
| rd_value t v : ready db t (valueNode v)
| rd_hash t h : ready db t (hashNode h)
| rd_clean t n h : is_loaded n = true -> cache n = (Some h, false) -> stored db t n h -> ready db t n
| rd_short t K c f : ready db false c -> (forall h, fhash f = Some h -> dirty f = true) -> (fhash f = None -> t = false /\ (length (enc (shortNode K c f)) < 32)%nat) -> ready db t (shortNode K c f)
| rd_full t cs f : (forall i c, cs !! i = Some c -> ready db false c) -> (forall h, fhash f = Some h -> dirty f = true) ->
    (fhash f = None -> t = false /\ (length (enc (fullNode cs f)) < 32)%nat) -> ready db t (fullNode cs f).

Lemma stored_ext db db' t n h : (forall h n, db h = Some n -> db' h = Some n) -> proper db n -> stored db t n h -> stored db' t n h.
Proof.
  intros He Hp (H1 & H2 & H3 & H4). split_and!; [by eapply good_ext|by eapply wf_ext| |].
  - intros k v. rewrite !(holds_ext db db' He) by (done || by left). apply H3.
  - intros [H|(h' & n' & -> & Hn' & Hf)].
    + eapply fullish_ext; [done|]. apply H4. by left.
    + eapply fullish_ext; [done|]. apply H4. destruct Hp as [Hw|(v & _ & ?)]; [|done]. inversion Hw as [| | |? m Hm Hwm Hlm]; subst.
      right. exists h', m. split_and!; try done. apply He in Hm. by simplify_eq.
Qed.

Lemma ready_ext db db' t n : (forall h n, db h = Some n -> db' h = Some n) -> ready db t n -> proper db n \/ n = nilNode -> ready db' t n.
Proof.
  intros He. induction 1 as [t|t v|t h|t n h L Ec Hs|t K c f Hc IH Hd Hf|t cs f Hc IH Hd Hf]; intros Hp; [constructor|constructor|constructor| | |].
  - eapply rd_clean; [done|done|]. eapply stored_ext; [done| |done]. by destruct Hp as [?| ->].
  - constructor; [|done|done]. apply IH. left. destruct Hp as [Hp|?]; [|done]. by apply proper_short in Hp as [? _].
  - constructor; [|done|done]. intros i c Hi. eapply IH; [done|]. destruct (decide (c = nilNode)) as [|Hn]; [by right|left].
    destruct Hp as [Hp|?]; [|done]. by eapply (proper_full _ _ _ Hp).
Qed.

(** No value at a branch. *)
Definition unbranched (db : list Z -> option node) (n : node) : Prop :=
  forall p x k v v', holds db n (p ++ [16]) v -> holds db n (p ++ x :: k) v' -> x = 16.

Lemma unbranched_short db K c f : unbranched db (shortNode K c f) -> unbranched db c.
Proof. intros H p x k v v' H1 H2. apply (H (K ++ p) x k v v'); rewrite <- app_assoc; by constructor. Qed.

Lemma unbranched_slot db cs f i c : unbranched db (fullNode cs f) -> cs !! i = Some c -> unbranched db c.
Proof. intros H Hc p x k v v' H1 H2. apply (H (Z.of_nat i :: p) x k v v'); by econstructor. Qed.

Lemma unbranched_16 db cs f c : unbranched db (fullNode cs f) -> wf db (fullNode cs f) -> cs !! 16%nat = Some c -> c = nilNode.
Proof.
  intros H Hw Hc. destruct (decide (c = nilNode)) as [|Hn]; [done|exfalso]. pose proof Hw as Hw'.
  inversion Hw' as [| |? ? Hl Hs Hv (i & j & a & b & Hij & Ha & Hb & Han & Hbn)|]; subst. destruct (Hv c Hc Hn) as (v & _ & ->).
  assert (forall i a, cs !! i = Some a -> a <> nilNode -> i = 16%nat) as Hall.
  { intros i0 a0 Ha0 Hn0. destruct (child_inhabited db cs f i0 a0 Hw Ha0 Hn0) as (k & w & Hk).
    assert (Z.of_nat i0 = 16); [|lia]. eapply (H [] (Z.of_nat i0) k v w); [|by econstructor]. apply (h_full db cs f 16 _ [] v Hc). constructor. }
  rewrite (Hall i a Ha Han) in Hij. rewrite (Hall j b Hb Hbn) in Hij. done.
Qed.

Lemma unbranched_ext db db' n : (forall h n, db h = Some n -> db' h = Some n) -> proper db n -> unbranched db n -> unbranched db' n.
Proof. intros He Hp H p x k v v' H1 H2. apply (H p x k v v'); by eapply holds_down. Qed.

(** ** The committer *)

Record pre (t : bool) (d : Database) (n : node) : Prop := MkPre {
  pre_good : good keccak (db_fn d) t n;
  pre_sized : sized (db_fn d) n;
  pre_proper : proper (db_fn d) n;
  pre_ready : ready (db_fn d) t n;
  pre_unbranched : unbranched (db_fn d) n;
}.

Definition committed (t : bool) (d : Database) (n : node) (od : option (node * Database)) : Prop :=
  broken \/ exists r d', od = Some (r, d') /\ ext d d' /\ db_ok d' /\ flush_ok d' /\ stores t n r /\ stands t d d' n (ref_node t n).

Lemma pre_ext t d d' n : ext d d' -> pre t d n -> pre t d' n.
Proof.
  intros He [H1 H2 H3 H4 H5]. split; [by eapply good_ext|by eapply sized_ext|by eapply proper_ext|eapply ready_ext; eauto|by eapply unbranched_ext].
Qed.

Lemma pre_storable t d n : pre t d n -> storable keccak (db_fn d) n.
Proof. intros [H1 H2 H3 _ _]. split_and!; try done. destruct t; [done|by eapply good_top]. Qed.

Lemma stands_later t d d1 d2 n e : ext d1 d2 -> stands t d d1 n e -> stands t d d2 n e.
Proof.
  intros He (H1 & H2 & H3 & H4). split_and!; [by eapply proper_ext|by eapply good_ext| |intros H; eapply fullish_ext; eauto].
  intros k v. by rewrite (holds_ext (db_fn d1) (db_fn d2) He) by done.
Qed.

Lemma stands_earlier t d d1 d2 n e : ext d d1 -> proper (db_fn d) n -> stands t d1 d2 n e -> stands t d d2 n e.
Proof.
  intros He Hp (H1 & H2 & H3 & H4). split_and!; try done; [|intros H; apply H4; by eapply fullish_ext].
  intros k v. rewrite H3. by apply holds_ext.
Qed.

Lemma stands_refl t d n : good keccak (db_fn d) t n -> proper (db_fn d) n -> stands t d d n n.
Proof. intros Hg Hp. by split_and!. Qed.

Lemma stores_leaf t n : is_loaded n = false -> n <> nilNode -> ref_node t n = n -> stores t n n.
Proof.
  intros L Hn E. destruct n as [| | |h|v]; try done; (split; [done|]); (split; [by eexists|]); rewrite E; eexists; (split; [done|]); (split; [done|]); (split; [done|]); by destruct t.
Qed.

Lemma ref_node_big t n : is_loaded n = true -> (t = false -> (32 <= length (enc n))%nat) -> ref_node t n = hashNode (keccak (enc n)).
Proof.
  intros L H. unfold ref_node, TrieProof.collapse_child. destruct t; [by destruct n|]. rewrite L, (proj2 (Nat.ltb_ge _ _)) by auto. done.
Qed.

Lemma stores_big t n : is_loaded n = true -> (t = false -> (32 <= length (enc n))%nat) -> stores t n (hashNode (keccak (enc n))).
Proof.
  intros L H. split; [done|]. split; [by eexists|]. rewrite ref_node_big by done. eexists. split; [done|]. split; [done|]. split; [done|].
  cbn [rnode_value item_of]. destruct t; [by destruct n|]. unfold TrieHash.child_item, ref_item. rewrite L. change (encode_item (node_item n)) with (enc n).
  by rewrite (proj2 (Nat.ltb_ge _ _)) by auto.
Qed.

Lemma pre_flag t d n h : is_loaded n = true -> pre t d n -> (cache n).1 = Some h -> h = keccak (enc n) /\ (t = false -> (32 <= length (enc n))%nat).
Proof.
  intros L [Hg _ _ _ _] Ec. destruct n as [|cs f|K c f| |]; try done; inversion Hg as [| |? ? ? ? _ Hf|? ? ? _ Hf|]; subst; cbn in Ec; by destruct (Hf h Ec) as [<- ?].
Qed.

Lemma commit_clean t d n h : is_loaded n = true -> pre t d n -> db_ok d -> flush_ok d -> cache n = (Some h, false) -> stored (db_fn d) t n h ->
  committed t d n (Some (hashNode h, d)).
Proof.
  intros L Hp Hok Hf Ec (S1 & S2 & S3 & S4). destruct (pre_flag t d n h L Hp) as [-> H32]; [by rewrite Ec|]. right. eexists _, _. split; [done|].
  split; [apply ext_refl|]. split; [done|]. split; [done|]. split; [by apply stores_big|]. rewrite ref_node_big by done.
  split_and!; [by left|done| |done]. intros k v. apply S3.
Qed.

Lemma rnode_value_ok r : value_ok (rnode_value r).
Proof.
  revert r. fix IH 1. intros [|b|cs|K c|h|v]; cbn [rnode_value]; [exact I|exact I| | |exact I|exact I]; rewrite value_ok_list.
  - induction cs as [|c cs IHcs]; [constructor|]. constructor; [|exact IHcs]. pose proof (IH c) as Hc. destruct c; [exact I|exact Hc..].
  - constructor; [exact I|]. constructor; [exact (IH c)|constructor].
Qed.

Lemma commit_entry t d n s : pre t d n -> gatherable s -> (forall h, expandNode h s = Some (collapse h n)) -> item_of (rnode_value s) = node_item n -> entry_for n s.
Proof.
  intros Hp Hg Hex Hi. split; [done|]. split; [|by rewrite <- Hex; destruct s].
  assert (EncodeToBytes (rnode_value s) = Some (enc n)) as <-; [|by destruct s].
  destruct (EncodeToBytes_ok (rnode_value s) (rnode_value_ok s)) as [-> _]; [|by rewrite Hi].
  rewrite Hi. pose proof (enc_length keccak (db_fn d) t n (pre_good _ _ _ Hp) (pre_sized _ _ _ Hp) (pre_proper _ _ _ Hp)). unfold TrieHash.enc in *. lia.
Qed.

Lemma refs_collapse h h' n : refs (collapse h n) = refs (collapse h' n).
Proof. by destruct n. Qed.

Lemma commit_store t d d1 n col s vn : is_loaded n = true -> pre t d n -> ext d d1 -> db_ok d1 -> flush_ok d1 ->
  ((cache n).1 = None -> t = false /\ (length (enc n) < 32)%nat) ->
  is_loaded col = true -> (cache col).1 = (cache n).1 -> is_Some (estimateSize col) -> simplifyNode col = Some s -> gatherable s ->
  (forall h, expandNode h s = Some (collapse h n)) -> item_of (rnode_value s) = node_item n -> stands false d d1 n (collapse None n) ->
  committed t d n (h ← store keccak None col d1 t vn; Some (match h.1 with hashNode hn => hashNode hn | _ => col end, h.2)).
Proof.
  intros L Hp He Hok Hf Hsmall Lc Ec [size Esz] Es Hg Hex Hit Hst. unfold store. rewrite Ec. destruct (cache n).1 as [h|] eqn:Ech.
  - destruct (pre_flag t d n h L Hp Ech) as [-> H32]. rewrite Esz. cbn [mbind option_bind]. rewrite BytesToHash_id by apply keccak_length.
    destruct (db_insert_ok d1 n size col s Hok Hf) as [?|(d2 & -> & Hok2 & Hf2 & He2 & Hdb2)]; try done.
    { apply (decodeNode_enc keccak (db_fn d)); [by eapply pre_storable|done]. } { by eapply commit_entry. }
    { intros x. rewrite (refs_collapse _ None). by eapply good_refs, Hst. } { by left. }
    right. eexists _, _. split; [done|]. split; [by eapply ext_trans|]. split; [done|]. split; [done|]. split; [by apply stores_big|].
    rewrite ref_node_big by done. apply stands_hash; try done; [by eapply stands_later|]. destruct (pre_proper _ _ _ Hp) as [?|(v & _ & ->)]; done.
  - destruct (Hsmall eq_refl) as [-> Hlt]. right. exists col, d1. assert (ref_node false n = collapse None n) as Er.
    { unfold ref_node, TrieProof.collapse_child. by rewrite L, (proj2 (Nat.ltb_lt _ _)). }
    split; [by destruct col|]. split; [done|]. split; [done|]. split; [done|]. split; [|by rewrite Er].
    split; [by intros ->|]. split; [by eexists|]. exists s. rewrite Er, Hex. split_and!; try done. unfold TrieHash.child_item, ref_item. rewrite L.
    change (encode_item (node_item n)) with (enc n). by rewrite (proj2 (Nat.ltb_lt _ _)).
Qed.

Definition commits (n : node) : Prop := forall t d, pre t d n -> (forall v, n <> valueNode v) ->
  db_ok d -> flush_ok d -> committed t d n (commit keccak None n d t).

Lemma ready_cases db t n : ready db t n -> is_loaded n = true ->
  (exists h, cache n = (Some h, false) /\ stored db t n h) \/
  ((forall h, cache n <> (Some h, false)) /\ ((cache n).1 = None -> t = false /\ (length (enc n) < 32)%nat) /\
   match n with shortNode _ c _ => ready db false c | fullNode cs _ => forall i c, cs !! i = Some c -> ready db false c | _ => True end).
Proof.
  destruct 1 as [| | | |t K c f Hc Hd Hf|t cs f Hc Hd Hf]; intros L; try done; [by left; eauto| |]; right; (split; [|done]); intros h [= E1 E2]; by rewrite (Hd h E1) in E2.
Qed.

Lemma commit_clean_eq n h d t : is_loaded n = true -> cache n = (Some h, false) -> commit keccak None n d t = Some (hashNode h, d).
Proof. intros L. destruct n as [|cs f|K c f| |]; try done; cbn [commit cache]; intros [= -> ->]; done. Qed.

Lemma commit_dirty n d t : is_loaded n = true -> (forall h, cache n <> (Some h, false)) ->
  commit keccak None n d t =
    match n with
    | shortNode K c f =>
      r ← match c with valueNode _ => Some (c, d) | _ => commit keccak None c d false end;
      key ← hexToCompact K;
      h ← store keccak None (shortNode key r.1 f) r.2 t true;
      Some (match h.1 with hashNode hn => hashNode hn | _ => shortNode key r.1 f end, h.2)
    | fullNode cs f =>
      r ← commitChildren (fun c d => commit keccak None c d false) cs d;
      h ← store keccak None (fullNode r.1.1 f) r.2 t r.1.2;
      Some (match h.1 with hashNode hn => hashNode hn | _ => fullNode r.1.1 f end, h.2)
    | _ => None
    end.
Proof. intros L Hc. destruct n as [|cs f|K c f| |]; try done; cbn [commit cache] in *; destruct (fhash f) as [h|], (dirty f); try done; by destruct (Hc h). Qed.

Lemma commit_hash t d h : pre t d (hashNode h) -> db_ok d -> flush_ok d -> committed t d (hashNode h) (Some (hashNode h, d)).
Proof.
  intros Hp Hok Hf. assert (ref_node t (hashNode h) = hashNode h) as E by (by destruct t). right. eexists _, _. split; [done|].
  split; [apply ext_refl|]. split; [done|]. split; [done|]. split; [by apply stores_leaf|]. rewrite E. apply stands_refl; apply Hp.
Qed.


(** The parts of what is known of a node. *)
Lemma pre_short t d K c f : pre t d (shortNode K c f) -> ready (db_fn d) false c -> pre false d c /\ hex_key K.
Proof.
  intros [Hg Hs Hp _ Hu] Hr. destruct (proper_short _ _ _ _ Hp) as [Hpc HK]. inversion Hg; subst.
  split; [|done]. split; [done|by apply (sized_short _ _ _ _ Hs)|done|done|by eapply unbranched_short].
Qed.

Lemma pre_slot t d cs f i c : pre t d (fullNode cs f) -> cs !! i = Some c -> c <> nilNode -> ready (db_fn d) false c -> pre false d c.
Proof.
  intros [Hg Hs Hp _ Hu] Hc Hn Hr. inversion Hg as [| | |? ? ? Hgc|]; subst.
  split; [by eapply Hgc|by eapply sized_full|by eapply (proper_full _ _ _ Hp)|done|by eapply unbranched_slot].
Qed.

Lemma commit_short K c f : (is_loaded c = true -> commits c) -> commits (shortNode K c f).
Proof.
  intros IH t d Hp _ Hok Hf. destruct (ready_cases _ _ _ (pre_ready _ _ _ Hp) eq_refl) as [(h & Ec & Hs)|(Hdirty & Hsmall & Hrc)].
  { rewrite (commit_clean_eq _ h) by done. by apply commit_clean. }
  rewrite commit_dirty by done. destruct (pre_short _ _ _ _ _ Hp Hrc) as [Hpc HK]. destruct (key_compact K HK) as (key & Ek & _ & Ekc).
  assert (committed false d c (match c with valueNode _ => Some (c, d) | _ => commit keccak None c d false end)) as [?|(r & d1 & -> & He & Hok1 & Hf1 & (Hrn & [sz Esz] & s & Es & Hgs & Hex & Hit) & Hst)]; [|by left|].
  { destruct (is_loaded c) eqn:Lc; [pose proof (IH eq_refl false d Hpc) as Hc; destruct c; try done; by apply Hc|].
    destruct c as [| | |h|v]; try done; [by destruct (proper_not_nil _ _ (pre_proper _ _ _ Hpc))|by apply commit_hash|].
    right. eexists _, _. split; [done|]. split; [apply ext_refl|]. split; [done|]. split; [done|]. split; [by apply stores_leaf|]. apply stands_refl; apply Hpc. }
  cbn [mbind option_bind fst snd]. rewrite Ek. cbn [mbind option_bind].
  apply (commit_store t d d1 (shortNode K c f) (shortNode key r f) (rawShortNode key s)); try done.
  - cbn [estimateSize]. rewrite Esz. by eexists.
  - cbn [simplifyNode]. by rewrite Es.
  - intros h. cbn [expandNode]. rewrite Hex, Ekc. done.
  - rewrite node_item_short, Ek. cbn [rnode_value item_of]. rewrite !fmap_cons, Hit. done.
  - apply stands_short; [|done]. by destruct (pre_proper _ _ _ Hp) as [?|(v & _ & ?)].
Qed.

(** One child of a branch and its result. *)
Definition child_done (d d' : Database) (c r : node) : Prop :=
  (c = nilNode /\ r = nilNode) \/ (c <> nilNode /\ stores false c r /\ stands false d d' c (collapse_child c)).

Lemma child_done_later d d1 d2 c r : ext d1 d2 -> child_done d d1 c r -> child_done d d2 c r.
Proof. intros He [?|(H1 & H2 & H3)]; [by left|right]. split_and!; try done. by eapply stands_later. Qed.

Lemma commitChildren_ok d0 cs : forall d, ext d0 d -> db_ok d -> flush_ok d ->
  Forall (fun c => c = nilNode \/ (pre false d0 c /\ commits c /\ forall v, c <> valueNode v)) cs ->
  broken \/ exists rs vn d', commitChildren (fun c d => commit keccak None c d false) cs d = Some (rs, vn, d') /\ ext d d' /\ db_ok d' /\ flush_ok d' /\
    Forall2 (child_done d0 d') cs rs.
Proof.
  induction cs as [|c cs IH]; intros d He Hok Hf HF; [right; eexists [], false, d; split_and!; try done; apply ext_refl|].
  apply Forall_cons in HF as [Hc HF]. destruct (decide (c = nilNode)) as [->|Hn].
  - cbn [commitChildren]. destruct (IH d He Hok Hf HF) as [?|(rs & vn & d' & -> & He' & Hok' & Hf' & H2)]; [by left|].
    right. eexists _, _, _. split; [done|]. split_and!; try done. constructor; [by left|done].
  - destruct Hc as [?|(Hp & Hcm & Hv)]; [done|]. destruct (Hcm false d (pre_ext _ _ _ _ He Hp) Hv Hok Hf) as [?|(r & d1 & Er & He1 & Hok1 & Hf1 & Hs1 & Hst1)]; [by left|].
    destruct (IH d1 (ext_trans _ _ _ He He1) Hok1 Hf1 HF) as [?|(rs & vn & d' & Ers & He' & Hok' & Hf' & H2)]; [by left|]. right.
    exists (r :: rs), (is_value_node r || vn), d'. split; [destruct c; try done; cbn [commitChildren]; rewrite Er; cbn [mbind option_bind fst snd]; by rewrite Ers|].
    split; [by eapply ext_trans|]. split; [done|]. split; [done|]. constructor; [|done]. right. split; [done|]. split; [done|].
    eapply stands_later; [done|]. eapply stands_earlier; [done|apply Hp|done].
Qed.

Lemma children_stored d d' cs rs f : Forall2 (child_done d d') cs rs ->
  is_Some (estimateSize (fullNode rs f)) /\ exists s, simplifyNode (fullNode rs f) = Some s /\ gatherable s /\
    (forall h, expandNode h s = Some (collapse h (fullNode cs f))) /\ item_of (rnode_value s) = node_item (fullNode cs f).
Proof.
  intros HF. split.
  - cbn [estimateSize]. generalize 16%nat as k, 3 as z. induction HF as [|c r cs rs Hc HF IH]; intros k z; [by destruct k; eexists|].
    destruct k as [|k]; [by eexists|]. destruct Hc as [[-> ->]|(_ & (Hn & [sz Esz] & _) & _)]; [apply IH|].
    destruct r; try done; rewrite Esz; apply IH.
  - cbn [simplifyNode].
    assert (exists ss, (fix children (cs : list node) : option (list rnode) := match cs with [] => Some [] | c :: cs =>
        r ← match c with nilNode => Some rNil | _ => simplifyNode c end; l ← children cs; Some (r :: l) end) rs = Some ss /\
      fold_right (fun c P => gatherable c /\ P) True ss /\
      (fix children (cs : list rnode) : option (list node) := match cs with [] => Some [] | c :: cs =>
        r ← match c with rNil => Some nilNode | _ => expandNode None c end; l ← children cs; Some (r :: l) end) ss = Some (collapse_child <$> cs) /\ item_of <$> ((fun c => match c with rNil => VBytes [] | _ => rnode_value c end) <$> ss) = child_item <$> cs) as (ss & E1 & E2 & E3 & E4).
    { induction HF as [|c r cs rs Hc HF (ss & IH1 & IH2 & IH3 & IH4)]; [by exists []|]. destruct Hc as [[-> ->]|(Hcn & (Hn & _ & s & Es & Hg & Hex & Hit) & _)].
      - exists (rNil :: ss). rewrite IH1. split; [done|]. split; [done|]. rewrite IH3. split; [done|]. rewrite !fmap_cons, IH4. done.
      - exists (s :: ss). split; [by destruct r; try done; rewrite Es; cbn [mbind option_bind]; rewrite IH1|]. split; [done|].
        assert (match s with rNil => Some nilNode | _ => expandNode None s end = Some (collapse_child c)) as -> by (by destruct s).
        cbn [mbind option_bind]. rewrite IH3. split; [done|]. rewrite !fmap_cons, IH4. f_equal. rewrite <- Hit. by destruct s. }
    rewrite E1. eexists. split; [done|]. split; [done|]. split; [intros h; cbn [expandNode]; by rewrite E3|]. rewrite node_item_full. cbn [rnode_value item_of]. by rewrite E4.
Qed.

Lemma commit_full cs f : (forall i c, cs !! i = Some c -> is_loaded c = true -> commits c) -> commits (fullNode cs f).
Proof.
  intros IH t d Hp _ Hok Hf. destruct (ready_cases _ _ _ (pre_ready _ _ _ Hp) eq_refl) as [(h & Ec & Hs)|(Hdirty & Hsmall & Hrc)].
  { rewrite (commit_clean_eq _ h) by done. by apply commit_clean. }
  rewrite commit_dirty by done. assert (wf (db_fn d) (fullNode cs f)) as Hw by (by destruct (pre_proper _ _ _ Hp) as [?|(v & _ & ?)]).
  destruct (commitChildren_ok d cs d (ext_refl d) Hok Hf) as [?|(rs & vn & d1 & -> & He & Hok1 & Hf1 & HF)]; [|by left|].
  { apply Forall_lookup. intros i c Hc. destruct (decide (c = nilNode)) as [|Hn]; [by left|right]. pose proof (pre_slot _ _ _ _ _ _ Hp Hc Hn (Hrc _ _ Hc)) as Hpc.
    assert (forall v, c <> valueNode v) as Hv.
    { intros v ->. inversion Hw as [| |? ? Hl Hs Hv _|]; subst. pose proof (lookup_lt_Some _ _ _ Hc). destruct (decide (i = 16%nat)) as [->|Hi].
      - by apply (unbranched_16 _ _ _ _ (pre_unbranched _ _ _ Hp) Hw) in Hc.
      - assert (wf (db_fn d) (valueNode v)) as Hwv by (eapply Hs; [|done|done]; lia). inversion Hwv. }
    split; [done|]. split; [|done]. destruct (is_loaded c) eqn:Lc; [by eapply IH|]. destruct c as [| | |h|v]; try done; [|by destruct (Hv v)].
    intros t' d' Hp' _ Hok' Hf'. by apply commit_hash. }
  cbn [mbind option_bind fst snd]. destruct (children_stored d d1 cs rs f HF) as (Hsz & s & Es & Hg & Hex & Hit).
  apply (commit_store t d d1 (fullNode cs f) (fullNode rs f) s); try done. apply stands_full; [done|]. intros i c Hc Hn.
  destruct (Forall2_lookup_l _ _ _ _ _ HF Hc) as (r & _ & [[? _]|(_ & _ & ?)]); done.
Qed.

Lemma commit_ok n : commits n.
Proof.
  induction n as [|v|h|K c f IH|cs f IH] using node_tree_ind.
  - intros t d Hp. by destruct (proper_not_nil _ _ (pre_proper _ _ _ Hp)).
  - intros t d _ Hv. by destruct (Hv v).
  - intros t d Hp _ Hok Hf. by apply commit_hash.
  - by apply commit_short.
  - apply commit_full. intros i c Hc _. by eapply Forall_lookup_1 in IH.
Qed.
End commit.
