(* ===== verification/TrieDisk.v ===== *)
(** * The node database on disk ([src/trie/database.go])

    Flushing the dirty nodes, below a root ([Commit]) or from the oldest on
    ([Cap]), with a store whose writes may fail at any point: no node that a
    trie can read is lost, the flush list stays well formed, and what a node
    on disk refers to is on disk. *)

From S2P Require Import Prelude Bytes Rlp Trie TrieKeys TrieMap TrieRefine TrieStore TrieHash TrieRoot TrieProof TrieDb TrieFlush TrieCommit.
Local Open Scope Z_scope.

Section disk.
  Context (keccak : list Z -> list Z) `{!KeccakLaws keccak}.
  Abbreviation enc := (TrieHash.enc keccak).
  Abbreviation collapse := (TrieProof.collapse keccak).
  Abbreviation db_ok := (TrieCommit.db_ok keccak).
  Abbreviation broken := (TrieCommit.broken keccak).

Definition inv (d : Database) : Prop := db_ok d /\ flush_ok d.

(** The tries read the same nodes. *)
Definition same_fn (d d' : Database) : Prop := forall x, db_fn d' x = db_fn d x.

Lemma same_fn_refl d : same_fn d d.
Proof. by intros x. Qed.
Lemma same_fn_trans d1 d2 d3 : same_fn d1 d2 -> same_fn d2 d3 -> same_fn d1 d3.
Proof. intros H1 H2 x. by rewrite H2. Qed.

Lemma same_fn_parts d d' : cleans d' = cleans d -> core <$> dirties d' = core <$> dirties d -> diskdb d' = diskdb d -> same_fn d d'.
Proof.
  intros E1 E2 E3 x. destruct (decide (length x = 32%nat)) as [Hl|Hl]; [|unfold db_fn; by rewrite (proj2 (Nat.eqb_neq _ _))].
  rewrite !db_fn_of by done. unfold clean_get. by rewrite E1, <- !lookup_fmap, E2, E3.
Qed.

Lemma same_bytes d h b1 b2 : db_ok d -> length h = 32%nat -> h <> zero_hash -> stored_bytes d h b1 -> stored_bytes d h b2 -> broken \/ b1 = b2.
Proof.
  intros Hok Hl Hz H1 H2. destruct (decide (b1 = b2)) as [|Hne]; [by right|]. left. left. exists b1, b2. split; [done|].
  by rewrite (do_sound _ _ Hok _ _ Hl Hz H1), (do_sound _ _ Hok _ _ Hl Hz H2).
Qed.

Lemma same_hash b1 b2 : keccak b1 = keccak b2 -> broken \/ b1 = b2.
Proof. intros E. destruct (decide (b1 = b2)) as [|Hne]; [by right|]. left. left. by exists b1, b2. Qed.

(** ** One write *)

Definition disk_put (d : Database) (kv : list Z * list Z) : Database := set_disk d (<[kv.1 := kv.2]> (diskdb d)).

(** A node whose references satisfy [P], or a preimage. *)
Definition entry_ok (d : Database) (P : hash_t -> Prop) (kv : list Z * list Z) : Prop :=
  length kv.1 <> 32%nat \/
  (length kv.1 = 32%nat /\ kv.1 <> zero_hash /\ keccak kv.2 = kv.1 /\ present d kv.1 /\
   forall n, decode_opt kv.1 kv.2 = Some n -> collapse (Some kv.1) n = n /\ forall x, x ∈ refs n -> P x).

Definition on_disk (d : Database) (x : hash_t) : Prop := is_Some (diskdb d !! x).

Lemma put_bytes d kv h b : stored_bytes (disk_put d kv) h b -> stored_bytes d h b \/ (h = kv.1 /\ b = kv.2).
Proof.
  intros [H|[H|H]]; [by left; left| |by left; right; right]. cbn [disk_put diskdb set_disk] in H. apply lookup_insert_Some in H as [[<- <-]|[_ H]]; [by right|]. left. right. by left.
Qed.

Lemma put_on_disk d kv x : on_disk d x \/ x = kv.1 -> on_disk (disk_put d kv) x.
Proof.
  unfold on_disk. cbn [disk_put diskdb set_disk]. destruct (decide (x = kv.1)) as [->|Hne]; [rewrite lookup_insert_eq; by eexists|]. rewrite lookup_insert_ne by done. by intros [?|?].
Qed.

Lemma put_same_fn d kv : db_ok d -> entry_ok d (on_disk d) kv -> broken \/ same_fn d (disk_put d kv).
Proof.
  intros Hok He. assert (forall x, x <> kv.1 -> db_fn (disk_put d kv) x = db_fn d x) as Hother.
  { intros x Hne. destruct (decide (length x = 32%nat)) as [Hl|Hl]; [|unfold db_fn; by rewrite (proj2 (Nat.eqb_neq _ _))].
    rewrite !db_fn_of by done. unfold clean_get. cbn [disk_put set_disk cleans dirties diskdb]. by rewrite lookup_insert_ne by done. }
  assert (broken \/ db_fn (disk_put d kv) kv.1 = db_fn d kv.1) as [?|Hk]; [|by left|right; intros x; destruct (decide (x = kv.1)) as [->|]; auto].
  destruct He as [Hl|(Hl & Hz & Hk & Hp & _)]; [right; unfold db_fn; by rewrite (proj2 (Nat.eqb_neq _ _))|]. rewrite !db_fn_of by done.
  unfold clean_get. cbn [disk_put set_disk cleans dirties diskdb]. rewrite lookup_insert_eq. unfold present, clean_get in Hp.
  destruct (m ← cleans d; m !! kv.1) as [e|] eqn:Ec; [by right|]. destruct (dirties d !! kv.1) as [c|] eqn:Ed; [by right|]. cbn.
  destruct (diskdb d !! kv.1) as [e|] eqn:Ek; [|by destruct Hp as [[? ?]|[[? ?]|[? ?]]]].
  destruct (same_hash e kv.2) as [?|<-]; [|by left|by right]. rewrite Hk. apply (do_sound _ _ Hok); try done. right. by left.
Qed.

Lemma put_inv d kv : inv d -> entry_ok d (on_disk d) kv -> inv (disk_put d kv).
Proof.
  intros [Hok (l & Hfl & Ht)] He. split; [split|].
  - intros h b Hl Hz [Hs|[-> ->]]%put_bytes; [by apply (do_sound _ _ Hok)|]. by destruct He as [?|(_ & _ & ? & _)].
  - intros h b n Hl [Hs|[-> ->]]%put_bytes Hd; [by eapply (do_bytes _ _ Hok)|]. destruct He as [?|(_ & _ & _ & _ & He)]; [done|]. by apply He.
  - apply (do_dirty _ _ Hok).
  - apply (do_meta _ _ Hok).
  - intros h Hc. apply put_on_disk. left. by apply (do_clean _ _ Hok).
  - intros h b n Hl Hz Hb Hd x Hx. apply put_on_disk. left. cbn [disk_put diskdb set_disk] in Hb. apply lookup_insert_Some in Hb as [[<- <-]|[_ Hb]].
    + destruct He as [?|(_ & _ & _ & _ & He)]; [done|]. by apply (He n Hd).
    + by eapply (do_closed _ _ Hok).
  - apply (do_pre _ _ Hok).
  - exists l. split; [by destruct Hfl|]. intros l1 h l2 r ch cs E Hd Hg x Hx. destruct (Ht l1 h l2 r ch cs E Hd Hg x Hx) as [?|Hy]; [by left|right]. apply put_on_disk. by left.
Qed.

(** ** A batch *)

Definition write_all (d : Database) (b : batch_t) : Database := set_disk d (foldl (fun m kv => <[kv.1 := kv.2]> m) (diskdb d) b).

Lemma write_all_cons d kv b : write_all d (kv :: b) = write_all (disk_put d kv) b.
Proof. done. Qed.

Definition done_in (d : Database) (b : batch_t) (x : hash_t) : Prop := on_disk d x \/ x ∈ b.*1.

Definition batch_ok (d : Database) (b : batch_t) : Prop :=
  forall b1 kv b2, b = b1 ++ kv :: b2 -> entry_ok d (done_in d b1) kv.

Lemma entry_ok_weaken d d' (P Q : hash_t -> Prop) kv : entry_ok d P kv -> (forall x, present d x -> present d' x) -> (forall x, P x -> Q x) -> entry_ok d' Q kv.
Proof.
  intros [?|(H1 & H2 & H3 & H4 & H5)] Hp HPQ; [by left|]. right. split_and!; try done; [auto|]. intros n Hn. destruct (H5 n Hn) as [H6 H7]. split; [done|]. intros x Hx. auto.
Qed.

Lemma write_ok b : forall d, inv d -> batch_ok d b -> broken \/
  (inv (write_all d b) /\ same_fn d (write_all d b) /\ (forall x, done_in d b x -> on_disk (write_all d b) x)).
Proof.
  induction b as [|kv b IH]; intros d Hi Hb.
  - right. replace (write_all d []) with d by (by destruct d). split_and!; [done|done|]. intros x [?|Hx]; [done|]. by apply elem_of_nil in Hx.
  - assert (entry_ok d (on_disk d) kv) as He.
    { eapply entry_ok_weaken; [by apply (Hb [] kv b)|done|]. intros x [?|Hx]; [done|]. by apply elem_of_nil in Hx. }
    destruct (put_same_fn d kv (proj1 Hi) He) as [?|Hs]; [by left|]. rewrite write_all_cons.
    destruct (IH (disk_put d kv)) as [?|(H1 & H2 & H3)]; [by apply put_inv| |by left|].
    + intros b1 kv' b2 ->. eapply entry_ok_weaken; [by apply (Hb (kv :: b1) kv' b2)| |].
      * intros x [?|[?|?]]; [by left|by right; left|right; right]. apply put_on_disk. by left.
      * intros x [?|Hx]; [left; apply put_on_disk; by left|]. cbn in Hx. apply elem_of_cons in Hx as [->|?]; [left; apply put_on_disk; by right|by right].
    + right. split; [done|]. split; [by eapply same_fn_trans|]. intros x Hx. apply H3. destruct Hx as [?|Hx]; [left; apply put_on_disk; by left|].
      cbn in Hx. apply elem_of_cons in Hx as [->|?]; [left; apply put_on_disk; by right|by right].
Qed.

(** [batch.Write]: all or nothing. *)
Lemma batch_write_eq io d b : exists ok io', batch_write io d b = (ok, if ok : bool then write_all d b else d, io').
Proof. destruct io as [|[] io]; [by exists true, []|by exists true, io|by exists false, io]. Qed.

(** ** Moving a node from the dirty to the clean nodes *)

Lemma prefix_without {A} (l1 l2 a b : list A) (k h : A) : l1 ++ l2 = a ++ h :: b ->
  exists a' b', l1 ++ k :: l2 = a' ++ h :: b' /\ forall x, x ∈ a' -> x ∈ a \/ x = k.
Proof.
  intros E. apply app_eq_inv in E as [(c & -> & E)|(c & -> & ->)].
  - destruct c as [|h' c]; cbn in E; [subst l2|injection E as <- ->].
    + exists ((a ++ []) ++ [k]), b. split; [by rewrite <- !app_assoc|]. intros x [?|Hx]%elem_of_app; [left; by rewrite app_nil_r in *|right]. by apply list_elem_of_singleton in Hx.
    + exists a, (c ++ k :: l2). split; [by rewrite <- app_assoc|by left].
  - exists (l1 ++ k :: c), b. split; [by rewrite <- app_assoc|]. intros x [?|[->|?]%elem_of_cons]%elem_of_app; [left; apply elem_of_app; by left|by right|left; apply elem_of_app; by right].
Qed.

(** The node [k], which is on disk, is not dirty any more. *)
Section uncached.
  Context (d d' : Database) (k : hash_t) (l1 l2 : list hash_t).
  Hypothesis (Hok : db_ok d) (Hfl : flush_list d (l1 ++ k :: l2)) (Ht : topo d (l1 ++ k :: l2)) (Hl : length k = 32%nat) (Hz : k <> zero_hash) (Hdisk : on_disk d k).
  Hypothesis (Hcore : core <$> dirties d' = base.delete k (core <$> dirties d)) (Hd : diskdb d' = diskdb d) (Hpre : preimages d' = preimages d).
  Hypothesis (Hclean : forall x e, clean_get d' x = Some e -> clean_get d x = Some e \/ (x = k /\ stored_bytes d k e)).
  Hypothesis (Hkeep : forall x, x <> k -> clean_get d' x = clean_get d x).

Lemma uncached_core x : core <$> dirties d' !! x = if decide (x = k) then None else core <$> dirties d !! x.
Proof. rewrite <- !lookup_fmap, Hcore. destruct (decide (x = k)) as [->|?]; [by rewrite lookup_delete_eq|by rewrite lookup_delete_ne]. Qed.

Lemma uncached_bytes x b : stored_bytes d' x b -> stored_bytes d x b.
Proof.
  intros [H|[H|(r & ch & H & Hr)]]; [apply Hclean in H as [?|[-> ?]]; [by left|done]|rewrite Hd in H; right; by left|].
  rewrite uncached_core in H. destruct (decide (x = k)); [done|]. right. right. eauto.
Qed.

Lemma uncached_db_ok : db_ok d'.
Proof.
  split.
  - intros x b H1 H2 H3%uncached_bytes. by apply (do_sound _ _ Hok).
  - intros x b n H1 H3%uncached_bytes. by apply (do_bytes _ _ Hok).
  - intros x r ch H1. rewrite uncached_core. destruct (decide (x = k)); [done|]. by apply (do_dirty _ _ Hok).
  - rewrite uncached_core, decide_False by done. apply (do_meta _ _ Hok).
  - intros x [e He]. rewrite Hd. apply Hclean in He as [He|[-> _]]; [|done]. apply (do_clean _ _ Hok). by eexists.
  - rewrite Hd. apply (do_closed _ _ Hok).
  - rewrite Hpre. apply (do_pre _ _ Hok).
Qed.

Lemma uncached_topo : topo d' (l1 ++ l2).
Proof.
  intros a h b r ch cs E Hh Hg x Hx. rewrite Hd. rewrite uncached_core in Hh. destruct (decide (h = k)); [done|].
  destruct (prefix_without l1 l2 a b k h E) as (a' & b' & E' & Ha). destruct (Ht a' h b' r ch cs E' Hh Hg x Hx) as [Hx'|?]; [|by right].
  destruct (Ha x Hx') as [?| ->]; [by left|by right].
Qed.

Lemma uncached_fn : broken \/ same_fn d d'.
Proof.
  assert (forall x, x <> k -> db_fn d' x = db_fn d x) as Hother.
  { intros x Hne. destruct (decide (length x = 32%nat)) as [Hx|Hx]; [|unfold db_fn; by rewrite (proj2 (Nat.eqb_neq _ _))].
    by rewrite !db_fn_of, Hkeep, uncached_core, Hd, decide_False by done. }
  assert (broken \/ db_fn d' k = db_fn d k) as [?|Hk]; [|by left|right; intros x; destruct (decide (x = k)) as [->|]; auto].
  destruct (db_entry keccak d k Hok Hl Hz) as (b & Hb & ->). { right. by right. }
  destruct (db_entry keccak d' k uncached_db_ok Hl Hz) as (b' & Hb' & ->). { right. right. by rewrite Hd. }
  destruct (same_hash b b') as [?|<-]; [congruence|by left|by right].
Qed.
End uncached.

Lemma flush_list_same d d' l : flush_list d l -> dirties d' = dirties d -> oldest d' = oldest d -> newest d' = newest d -> flush_list d' l.
Proof. intros [H1 H2 H3 H4 H5 H6] E1 E2 E3. split; by rewrite ?E1, ?E2, ?E3. Qed.

Lemma clean_set_rest d h e : dirties (clean_set d h e) = dirties d /\ oldest (clean_set d h e) = oldest d /\ newest (clean_set d h e) = newest d /\
  diskdb (clean_set d h e) = diskdb d /\ preimages (clean_set d h e) = preimages d /\
  (forall x b, clean_get (clean_set d h e) x = Some b -> clean_get d x = Some b \/ (x = h /\ b = e)) /\
  (forall x, x <> h -> clean_get (clean_set d h e) x = clean_get d x).
Proof.
  unfold clean_set. destruct (cleans d) as [m|] eqn:Em; [|split_and!; try done; by left]. split_and!; try done; intros x; unfold clean_get; cbn [cleans set_cleans]; rewrite Em; cbn [mbind option_bind].
  - intros b. destruct (decide (x = h)) as [->|Hne]; [rewrite lookup_insert_eq; intros [= <-]; by right|]. rewrite lookup_insert_ne by done. by left.
  - intros Hne. by rewrite lookup_insert_ne.
Qed.

Lemma cleaner_ok d k v : inv d -> length k = 32%nat -> k <> zero_hash -> keccak v = k -> on_disk d k ->
  broken \/ exists d', cleaner_Put d k v = Some d' /\ inv d' /\ same_fn d d' /\ diskdb d' = diskdb d /\ dom (dirties d') ⊆ dom (dirties d).
Proof.
  intros [Hok (l & Hfl & Ht)] Hl Hz Hk Hd. unfold cleaner_Put. rewrite BytesToHash_id by done. destruct (dirties d !! k) as [c|] eqn:Ec.
  2: { right. exists d. split; [done|]. split; [split; [done|by exists l]|]. done. }
  assert (k ∈ l) as Hkl. { assert (k ∈ zero_hash :: l) as [?|?]%elem_of_cons by (apply (fl_dom _ _ Hfl); by eexists); done. }
  apply list_elem_of_split in Hkl as (l1 & l2 & ->). destruct (unlink_ok d l1 k l2 c Hfl Ec) as (d1 & -> & Hfl1 & Hco & (E1 & E2 & E3 & E4) & _).
  cbn [mbind option_bind]. set (d2 := set_sizes _ _ _). destruct (clean_set_rest d2 k v) as (F1 & F2 & F3 & F4 & F5 & F6 & F7).
  assert (exists b, diskdb d !! k = Some b) as [b Hb] by done.
  destruct (same_hash v b) as [?|<-]; [rewrite Hk; symmetry; apply (do_sound _ _ Hok); try done; right; by left|by left|].
  set (d' := clean_set d2 k v) in *.
  assert (core <$> dirties d' = base.delete k (core <$> dirties d)) as Hcore by (rewrite F1; cbn [d2 dirties set_sizes set_dirties]; by rewrite fmap_delete, Hco).
  assert (diskdb d' = diskdb d) as Hdd by (by rewrite F4). assert (preimages d' = preimages d) as Hpp by (by rewrite F5).
  assert (forall x e, clean_get d' x = Some e -> clean_get d x = Some e \/ (x = k /\ stored_bytes d k e)) as Hc.
  { intros x e [He|[-> ->]]%F6; [left; unfold clean_get in *; by rewrite <- E2|right; split; [done|]]. right. by left. }
  assert (forall x, x <> k -> clean_get d' x = clean_get d x) as Hk'. { intros x Hne. rewrite F7 by done. unfold clean_get. cbn [d2 cleans set_sizes set_dirties]. by rewrite E2. }
  destruct (uncached_fn d d' k Hok Hl Hz Hd Hcore Hdd Hpp Hc Hk') as [?|Hs]; [by left|]. right. exists d'. split; [done|]. split; [split|].
  - by eapply uncached_db_ok.
  - exists (l1 ++ l2). split; [by eapply flush_list_same|by eapply uncached_topo].
  - split; [done|]. split; [done|]. intros x. rewrite !elem_of_dom, <- !(fmap_is_Some core), <- !lookup_fmap, Hcore. by intros [? [_ ?]%lookup_delete_Some].
Qed.

Definition replayable (d : Database) (kv : list Z * list Z) : Prop := length kv.1 = 32%nat /\ kv.1 <> zero_hash /\ keccak kv.2 = kv.1 /\ on_disk d kv.1.

Lemma replay_ok b : forall d, inv d -> Forall (replayable d) b ->
  broken \/ exists d', batch_replay d b = Some d' /\ inv d' /\ same_fn d d' /\ diskdb d' = diskdb d /\ dom (dirties d') ⊆ dom (dirties d).
Proof.
  induction b as [|kv b IH]; intros d Hi Hb; [right; exists d; split; [done|]; split; [done|]; done|]. apply Forall_cons in Hb as [(H1 & H2 & H3 & H4) Hb].
  destruct (cleaner_ok d kv.1 kv.2 Hi H1 H2 H3 H4) as [?|(d1 & E1 & Hi1 & Hs1 & Hd1 & Hx1)]; [by left|]. destruct (IH d1 Hi1) as [?|(d2 & E2 & Hi2 & Hs2 & Hd2 & Hx2)]; [|by left|].
  { eapply Forall_impl; [exact Hb|]. unfold replayable, on_disk. by rewrite Hd1. }
  right. exists d2. split; [unfold batch_replay in *; cbn [foldl mbind option_bind]; by rewrite E1|]. split; [done|]. split; [by eapply same_fn_trans|]. split; [congruence|]. by etrans.
Qed.

(** ** Flushing below a hash *)

Lemma refs_full cs f x : x ∈ refs (fullNode cs f) <-> exists i c, (i < 16)%nat /\ cs !! i = Some c /\ x ∈ refs c.
Proof.
  cbn [refs]. generalize 16%nat as k. induction cs as [|c cs IH]; intros k.
  - split; [destruct k; by intros ?%elem_of_nil|]. by intros (i & c & _ & ? & _).
  - destruct k as [|k]; [split; [by intros ?%elem_of_nil|]; intros (i & ? & ? & _); lia|]. rewrite elem_of_app, IH. split.
    + intros [Hx|(i & c' & Hi & Hc & Hx)]; [exists 0%nat, c; split; [lia|done]|]. exists (S i), c'. split; [lia|done].
    + intros ([|i] & c' & Hi & Hc & Hx); [left; by injection Hc as <-|]. right. exists i, c'. split; [lia|done].
Qed.

Section flush.
  Context (d0 : Database).

(** What a flush has done so far: the batch [b] is still to be written. *)
Record flushing (b : batch_t) (d : Database) : Prop := MkFlushing {
  fg_inv : inv d;
  fg_fn : same_fn d0 d;
  fg_batch : batch_ok d b;
  fg_nodes : Forall (fun kv => length kv.1 = 32%nat) b;
  fg_dom : dom (dirties d) ⊆ dom (dirties d0);
}.

Definition child (h x : hash_t) : Prop := exists n, db_fn d0 h = Some n /\ x ∈ refs n.

(** The outcome of flushing what is below [x]. *)
Definition flushed (b : batch_t) (d : Database) (P : batch_t -> Database -> Prop) (o : option (bool * batch_t * Database * list bool)) : Prop :=
  broken \/ exists ok b' d' io', o = Some (ok, b', d', io') /\ flushing b' d' /\ (forall x, done_in d b x -> done_in d' b' x) /\ (ok = true -> P b' d').

Lemma children_flushed fuel cs : (forall x b d io, x ∈ cs -> flushing b d -> flushed b d (fun b' d' => done_in d' b' x) (db_commit fuel io d b x)) ->
  forall (ok : bool) b d io, flushing b d -> flushed b d (fun b' d' => ok = true /\ forall x, x ∈ cs -> done_in d' b' x)
    (foldl (fun (st : option (bool * batch_t * Database * list bool)) child => s ← st; let '(ok, b, d, io) := s in if ok : bool then db_commit fuel io d b child else Some s)
      (Some (ok, b, d, io)) cs).
Proof.
  induction cs as [|x cs IH]; intros Hc ok b d io Hf.
  - right. exists ok, b, d, io. split; [done|]. split; [done|]. split; [done|]. intros ->. split; [done|]. by intros x ?%elem_of_nil.
  - cbn [foldl mbind option_bind]. destruct ok.
    + destruct (Hc x b d io) as [?|(ok1 & b1 & d1 & io1 & -> & Hf1 & Hm1 & Hx1)]; [by left|done|by left|].
      destruct (IH ltac:(intros y ? ? ? ?; apply Hc; by right) ok1 b1 d1 io1 Hf1) as [?|(ok2 & b2 & d2 & io2 & E2 & Hf2 & Hm2 & Hx2)]; [by left|].
      right. exists ok2, b2, d2, io2. split; [exact E2|]. split; [done|]. split; [auto|]. intros Ho. destruct (Hx2 Ho) as [-> Hy]. split; [done|].
      intros y [->|Hy']%elem_of_cons; auto.
    + destruct (IH ltac:(intros y ? ? ? ?; apply Hc; by right) false b d io Hf) as [?|(ok2 & b2 & d2 & io2 & E2 & Hf2 & Hm2 & Hx2)]; [by left|].
      right. exists ok2, b2, d2, io2. split; [exact E2|]. split; [done|]. split; [done|]. intros Ho. by destruct (Hx2 Ho).
Qed.

(** The batch is written when it is large enough. *)
Lemma emit_flushed b d io x v : flushing (b ++ [(x, v)]) d ->
  flushed b d (fun b' d' => done_in d' b' x)
    (let b := b ++ [(x, v)] in
     if IdealBatchSize <=? ValueSize b then
       let '(ok, d, io) := batch_write io d b in
       if ok : bool then d ← batch_replay d b; Some (true, [], d, io) else Some (false, b, d, io)
     else Some (true, b, d, io)).
Proof.
  intros Hf. cbv zeta. assert (forall y, done_in d b y -> done_in d (b ++ [(x, v)]) y) as Hmono.
  { intros y [?|?]; [by left|right]. rewrite fmap_app. apply elem_of_app. by left. }
  assert (done_in d (b ++ [(x, v)]) x) as Hx. { right. rewrite fmap_app. apply elem_of_app. right. by left. }
  destruct (_ <=? _); [|right; eexists _, _, _, _; split; [done|]; split; [done|]; split; [done|]; done].
  destruct (batch_write_eq io d (b ++ [(x, v)])) as ([] & io' & ->); [|right; eexists _, _, _, _; split; [done|]; split; [done|]; split; [done|]; done].
  set (b2 := b ++ [(x, v)]) in *. destruct Hf as [Hi Hfn Hb Hnodes Hdom].
  destruct (write_ok b2 d Hi Hb) as [?|(Hi1 & Hs1 & Hd1)]; [by left|].
  destruct (replay_ok b2 (write_all d b2) Hi1) as [?|(d3 & -> & Hi3 & Hs3 & Hd3 & Hx3)]; [|by left|].
  { apply Forall_lookup. intros i kv Hkv. assert (kv ∈ b2) as Hin by (by eapply list_elem_of_lookup_2). apply list_elem_of_split in Hin as (b1 & b3 & Eb).
    rewrite Forall_lookup in Hnodes. specialize (Hnodes i kv Hkv). destruct (Hb b1 kv b3 Eb) as [?|(H1 & H2 & H3 & _)]; [done|]. split_and!; try done. apply Hd1. right.
    rewrite Eb, fmap_app. apply elem_of_app. right. by left. }
  right. eexists _, _, _, _. split; [done|]. assert (forall y, done_in d b2 y -> done_in d3 [] y) as Hall by (intros y Hy; left; unfold on_disk; rewrite Hd3; by apply Hd1).
  split; [|split; [auto|auto]]. split; [done|by eapply same_fn_trans; [|eapply same_fn_trans]|by intros [] ? ?|constructor|]. etrans; [exact Hx3|exact Hdom].
Qed.

(** A trie has no cycle. *)
Lemma wf_acc n : wf (db_fn d0) n -> forall x, x ∈ refs n -> Acc (fun y x => child x y) x.
Proof.
  induction 1 as [K v f HK Hv|K c f HK Hn Hc IH Hfu|cs f Hl H1 IH H2 H3|h n Hn Hw IH Hld]; intros x.
  - by intros ?%elem_of_nil.
  - apply IH.
  - intros (i & c & Hi & Hc & Hx)%refs_full. destruct (decide (c = nilNode)) as [->|Hcn]; [by apply elem_of_nil in Hx|]. by eapply IH.
  - cbn [refs]. intros ->%list_elem_of_singleton. constructor. intros y (m & Hm & Hy). apply IH. by assert (m = n) as -> by congruence.
Qed.

Lemma acc_irrefl x : Acc (fun y x => child x y) x -> ~ tc child x x.
Proof.
  induction 1 as [x _ IH]. intros Hx. inversion Hx as [? ? H|? y ? H1 H2]; subst.
  - by apply (IH x).
  - apply (IH y H1). by eapply tc_r.
Qed.

(** The entry of a node that a trie can read. *)
Lemma dirty_entry d x n c : inv d -> x <> zero_hash -> db_fn d x = Some n -> dirties d !! x = Some c ->
  broken \/ (forChilds c = Some (refs n) /\ exists b, cached_rlp c = Some b /\ keccak b = x /\ decode_opt x b = Some n).
Proof.
  intros [Hok _] Hz Hn Hc. destruct c as [r sz ps ch fp fn]. assert (core <$> dirties d !! x = Some (r, ch)) as Hcore by (by rewrite Hc).
  destruct (do_dirty _ _ Hok x r ch Hz Hcore) as (Hl & -> & [cs Hcs] & b & m & Hb & Ho & Hm). destruct (db_fn_bytes _ _ _ _ Hok Hn) as (b' & Hb' & Hd).
  assert (stored_bytes d x b) as Hsb by (right; right; eauto). destruct (same_bytes d x b b' Hok Hl Hz Hsb Hb') as [?|<-]; [by left|]. right. assert (m = n) as -> by congruence.
  split; [|exists b; split; [by destruct r|split; [by apply (do_sound _ _ Hok)|done]]].
  assert (expandNode (Some x) r = Some n) as Hex by (by destruct r). rewrite (gather_refs r (Some x) n cs Hex Hcs). unfold forChilds. cbn [cn_children cn_node]. destruct r; try done; by rewrite Hcs.
Qed.

Lemma present_fn d x n : db_fn d x = Some n -> present d x.
Proof.
  intros Hn. pose proof (db_fn_length _ _ _ Hn) as Hl. rewrite db_fn_of in Hn by done. unfold present. destruct (clean_get d x); [left; by eexists|].
  destruct (dirties d !! x); [right; left; by eexists|]. destruct (diskdb d !! x); [right; right; by eexists|done].
Qed.

(** The step for one node, given its children. *)
Lemma node_flushed fuel b d io x n c : flushing b d -> x <> zero_hash -> db_fn d0 x = Some n -> dirties d !! x = Some c ->
  (forall y b d io, y ∈ refs n -> flushing b d -> flushed b d (fun b' d' => done_in d' b' y) (db_commit fuel io d b y)) ->
  flushed b d (fun b' d' => done_in d' b' x) (db_commit (S fuel) io d b x).
Proof.
  intros Hf Hz Hn Hc IH. cbn [db_commit]. rewrite Hc. assert (db_fn d x = Some n) as Hnd by (by rewrite (fg_fn _ _ Hf)).
  destruct (dirty_entry d x n c (fg_inv _ _ Hf) Hz Hnd Hc) as [?|(-> & v & Hv & Hkv & Hdv)]; [by left|]. cbn [mbind option_bind].
  destruct (children_flushed fuel (refs n) IH true b d io Hf) as [?|(ok1 & b1 & d1 & io1 & -> & Hf1 & Hm1 & Hx1)]; [by left|]. cbn [mbind option_bind].
  destruct ok1; cbn [negb]; [|right; eexists _, _, _, _; split; [done|]; split; [done|]; split; [done|]; done].
  rewrite Hv. cbn [mbind option_bind]. destruct (Hx1 eq_refl) as [_ Hall]. assert (length x = 32%nat) as Hl by (by eapply db_fn_length).
  assert (flushing (b1 ++ [(x, v)]) d1) as Hf2.
  { destruct Hf1 as [H1 H2 H3 H4 H5]. split; try done; [|by apply Forall_app; split; [|by constructor]].
    intros a kv b2 E. destruct b2 as [|z b2 _] using rev_ind.
    - apply app_inj_tail in E as [<- <-]. right. cbn. split_and!; try done; [by eapply present_fn; rewrite H2|].
      intros m Hm. assert (m = n) as -> by congruence. split; [|done]. by apply (do_normal _ _ (proj1 (fg_inv _ _ Hf))).
    - rewrite app_comm_cons, app_assoc in E. apply app_inj_tail in E as [-> <-]. by eapply H3. }
  destruct (emit_flushed b1 d1 io1 x v Hf2) as [?|(ok2 & b2 & d2 & io2 & E2 & Hf3 & Hm2 & Hx2)]; [by left|]. right. exists ok2, b2, d2, io2. split; [exact E2|]. split; [done|]. split; [auto|done].
Qed.

(** Everything below a node of a trie is flushed, within a fuel that depends
    on the number of dirty nodes only. *)
Lemma refs_flushed n : wf (db_fn d0) n -> forall t, good keccak (db_fn d0) t n -> forall x, x ∈ refs n ->
  forall (path : gset hash_t) fuel, (forall p, p ∈ path -> tc child p x) -> path ⊆ dom (dirties d0) -> (2 + size (dom (dirties d0)) <= fuel + size path)%nat ->
  forall b d io, flushing b d -> flushed b d (fun b' d' => done_in d' b' x) (db_commit fuel io d b x).
Proof.
  induction 1 as [K v f HK Hv|K c f HK Hn Hc IH Hfu|cs f Hl H1 IH H2 H3|h n Hn Hw IH Hld]; intros t Hg x.
  - by intros ?%elem_of_nil.
  - inversion Hg; subst. by eapply IH.
  - intros (i & c & Hi & Hc & Hx)%refs_full. inversion Hg as [| | |? ? ? Hgc|]; subst. destruct (decide (c = nilNode)) as [->|Hcn]; [by apply elem_of_nil in Hx|].
    eapply (IH i c Hi Hc Hcn); [by eapply Hgc|done].
  - assert (wf (db_fn d0) (hashNode h)) as Hwh by (by econstructor). intros Hxr. pose proof (wf_acc _ Hwh x Hxr) as Hacc. cbn [refs] in Hxr. apply list_elem_of_singleton in Hxr as ->.
    inversion Hg as [| | | |? ? m Hh Em Hlm Hgm Hok]; subst. rewrite BytesToHash_id in * by done. assert (m = n) as -> by congruence.
    intros path fuel Hpath Hsub Hfuel b d io Hf. destruct fuel as [|fuel]; [apply subseteq_size in Hsub; lia|].
    destruct (decide (h = zero_hash)) as [Hz|Hz]; [left; right; exists (enc n); destruct Hok; congruence|].
    assert (db_fn d h = Some n) as Hnd by (by rewrite (fg_fn _ _ Hf)). destruct (dirties d !! h) as [c|] eqn:Hc.
    + eapply (node_flushed fuel b d io h n c); try done. intros y b' d' io' Hy Hf'. apply (IH t Hgm y Hy (path ∪ {[h]}) fuel); [| | |done].
      * assert (child h y) as Hch by (by exists n). intros p [Hp| ->%elem_of_singleton]%elem_of_union; [eapply tc_r; eauto|by apply tc_once].
      * apply union_least; [done|]. apply singleton_subseteq_l. apply (fg_dom _ _ Hf). apply elem_of_dom. by eexists.
      * rewrite size_union; [|apply disjoint_singleton_r; intros Hp; by apply (acc_irrefl h Hacc), Hpath]. rewrite size_singleton. lia.
    + right. exists true, b, d, io. cbn [db_commit]. rewrite Hc. split; [done|]. split; [done|]. split; [done|]. intros _. left.
      destruct (fg_inv _ _ Hf) as [Hdok (l & Hfl & _)]. destruct (found_where _ d l h n Hdok Hfl Hnd) as [Hx|?]; [|done].
      assert (is_Some (dirties d !! h)) as [? ?] by (apply (fl_dom _ _ Hfl); by right). congruence.
Qed.
End flush.

(** ** [Commit] *)

Definition preimage_batch (b : batch_t) : Prop := Forall (fun kv => length kv.1 <> 32%nat) b.

Lemma preimage_batch_ok d b : preimage_batch b -> batch_ok d b.
Proof. intros Hb b1 kv b2 ->. left. apply Forall_app in Hb as [_ Hb]. by inversion Hb. Qed.

Lemma write_rest d b : dirties (write_all d b) = dirties d /\ preimages (write_all d b) = preimages d.
Proof. done. Qed.

Lemma preimages_ok ps : forall b d io, inv d -> preimage_batch b -> Forall (fun hp => length hp.1 = 32%nat) ps ->
  broken \/ exists ok b' d' io', flush_preimages io d b ps = (ok, b', d', io') /\ inv d' /\ same_fn d d' /\ preimage_batch b' /\ dirties d' = dirties d.
Proof.
  induction ps as [|[h p] ps IH]; intros b d io Hi Hb Hps; [right; eexists _, _, _, _; split; [done|]; done|].
  apply Forall_cons in Hps as [Hh Hps]. cbn in Hh. cbn [flush_preimages]. set (b1 := b ++ [(secureKey h, p)]).
  assert (preimage_batch b1) as Hb1. { apply Forall_app. split; [done|]. constructor; [|constructor]. cbn [fst]. unfold secureKey. rewrite length_app, Hh. done. }
  destruct (_ <? _); [|by apply IH]. destruct (batch_write_eq io d b1) as ([] & io' & ->); [|right; eexists _, _, _, _; split; [done|]; done].
  destruct (write_ok b1 d Hi (preimage_batch_ok d b1 Hb1)) as [?|(Hi1 & Hs1 & _)]; [by left|].
  destruct (IH [] (write_all d b1) io' Hi1) as [?|(ok & b' & d' & io2 & -> & Hi2 & Hs2 & Hb2 & Hd2)]; [constructor|done|by left|].
  right. eexists _, _, _, _. split; [done|]. split; [done|]. split; [by eapply same_fn_trans|done].
Qed.

Lemma preimages_forall d : db_ok d -> Forall (fun hp => length hp.1 = 32%nat) (map_to_list (preimages d)).
Proof. intros Hok. apply Forall_forall. intros [h p] Hp%elem_of_map_to_list. by eapply (do_pre _ _ Hok). Qed.

Lemma set_preimages_inv d : inv d -> inv (set_preimages d ∅ 0) /\ same_fn d (set_preimages d ∅ 0).
Proof.
  intros [Hok (l & Hfl & Ht)]. split; [|by apply same_fn_parts]. split; [|exists l; split; [by destruct Hfl|done]].
  destruct Hok as [H1 H2 H3 H4 H5 H6 H7]. by split.
Qed.

Lemma db_Commit_gen d h io fuel (P : batch_t -> Database -> Prop) : inv d ->
  (forall io d2, flushing d [] d2 -> flushed d [] d2 P (db_commit fuel io d2 [] h)) ->
  broken \/ exists r d', db_Commit fuel io d h = Some (r, d') /\ inv d' /\ same_fn d d' /\
    (r = Ok tt -> exists b3 d3, P b3 d3 /\ forall x, done_in d3 b3 x -> on_disk d' x).
Proof.
  intros Hi Hc. unfold db_Commit.
  destruct (preimages_ok (map_to_list (preimages d)) [] d io Hi) as [?|(ok & b & d1 & io1 & -> & Hi1 & Hs1 & Hb1 & Hd1)]; [constructor|by apply preimages_forall, Hi|by left|].
  destruct ok; cbn [negb]; [|right; eexists _, _; split; [done|]; done].
  destruct (batch_write_eq io1 d1 b) as ([] & io2 & ->); cbn [negb]; [|right; eexists _, _; split; [done|]; done].
  destruct (write_ok b d1 Hi1 (preimage_batch_ok d1 b Hb1)) as [?|(Hi2 & Hs2 & _)]; [by left|]. set (d2 := write_all d1 b) in *.
  assert (same_fn d d2) as Hsd by (by eapply same_fn_trans).
  assert (flushing d [] d2) as Hf. { split; [done|done|by intros [] ? ?|constructor|]. change (dirties d2) with (dirties d1). by rewrite Hd1. }
  destruct (Hc io2 d2 Hf) as [?|(ok & b3 & d3 & io3 & -> & Hf3 & _ & Hx)]; [by left|].
  cbn [mbind option_bind]. destruct Hf3 as [Hi3 Hs3 Hb3 Hn3 _]. destruct ok; cbn [negb]; [|right; eexists _, _; split; [done|]; done].
  destruct (batch_write_eq io3 d3 b3) as ([] & io4 & ->); cbn [negb]; [|right; eexists _, _; split; [done|]; done].
  destruct (write_ok b3 d3 Hi3 Hb3) as [?|(Hi4 & Hs4 & Hd4)]; [by left|].
  destruct (replay_ok b3 (write_all d3 b3) Hi4) as [?|(d5 & -> & Hi5 & Hs5 & Hd5 & _)]; [|by left|].
  { apply Forall_forall. intros kv Hin. pose proof Hin as (b1 & b2 & Eb)%list_elem_of_split. rewrite Forall_forall in Hn3. specialize (Hn3 kv Hin).
    destruct (Hb3 b1 kv b2 Eb) as [?|(H1 & H2 & H3 & _)]; [done|]. split_and!; try done. apply Hd4. right. rewrite Eb, fmap_app. apply elem_of_app. right. by left. }
  cbn [mbind option_bind]. right. eexists _, _. split; [done|]. destruct (set_preimages_inv d5 Hi5) as [Hi6 Hs6]. split; [done|].
  split; [by eapply same_fn_trans; [|eapply same_fn_trans; [|eapply same_fn_trans]]|]. intros _. exists b3, d3. split; [by apply Hx|]. intros x Hxd. unfold on_disk. cbn [diskdb set_preimages]. rewrite Hd5. by apply Hd4.
Qed.

Lemma db_Commit_ok d h io fuel : inv d -> wf (db_fn d) (hashNode h) -> good keccak (db_fn d) true (hashNode h) -> (2 + size (dirties d) <= fuel)%nat ->
  broken \/ exists r d', db_Commit fuel io d h = Some (r, d') /\ inv d' /\ same_fn d d' /\ (r = Ok tt -> on_disk d' h).
Proof.
  intros Hi Hw Hg Hfuel. assert (length h = 32%nat) as Hl by (by inversion Hg).
  destruct (db_Commit_gen d h io fuel (fun b' d' => done_in d' b' h) Hi) as [?|(r & d' & E & Hi' & Hs' & Hr)]; [|by left|].
  { intros io2 d2 Hf. apply (refs_flushed d (hashNode h) Hw true Hg h) with (path := ∅); [cbn [refs]; rewrite BytesToHash_id by done; by left|by intros p ?%not_elem_of_empty|done|rewrite size_empty, size_dom; lia|done]. }
  right. exists r, d'. split; [done|]. split; [done|]. split; [done|]. intros Ho. destruct (Hr Ho) as (b3 & d3 & H1 & H2). auto.
Qed.

(** There is nothing to flush below a hash that is not dirty. *)
Lemma db_Commit_missing d h io fuel : inv d -> dirties d !! h = None -> (1 <= fuel)%nat ->
  broken \/ exists r d', db_Commit fuel io d h = Some (r, d') /\ inv d' /\ same_fn d d'.
Proof.
  intros Hi Hn Hfuel. destruct (db_Commit_gen d h io fuel (fun _ _ => True) Hi) as [?|(r & d' & E & Hi' & Hs' & _)]; [|by left|right; eauto].
  intros io2 d2 Hf. destruct fuel as [|fuel]; [lia|]. right. exists true, [], d2, io2. split; [|split; [done|split; [done|done]]]. cbn [db_commit].
  destruct (dirties d2 !! h) as [c|] eqn:Ec; [|done]. assert (h ∈ dom (dirties d)) as [? ?]%elem_of_dom; [|congruence]. apply (fg_dom _ _ _ Hf), elem_of_dom. by eexists.
Qed.

(** The empty root is not a node. *)
Lemma empty_not_dirty d : inv d -> broken \/ dirties d !! emptyRoot = None.
Proof.
  intros [Hok _]. destruct (dirties d !! emptyRoot) as [c|] eqn:Ec; [|by right]. left. assert (emptyRoot <> zero_hash) as Hz by done.
  destruct (do_dirty _ _ Hok emptyRoot (cn_node c) (cn_children c) Hz ltac:(by rewrite Ec)) as (Hl & _ & _ & b & n & Hb & _ & Hn).
  left. exists b, [0x80]. split; [by intros ->|]. rewrite keccak_empty. apply (do_sound _ _ Hok); try done. right. right. eexists _, _. split; [by rewrite Ec|done].
Qed.

(** ** The nodes on disk *)

Lemma fresh_core disk x : core <$> dirties (NewDatabase disk) !! x = if decide (x = zero_hash) then Some (rNil, Some ∅) else None.
Proof. cbn [dirties NewDatabase NewDatabaseWithCache]. destruct (decide (x = zero_hash)) as [->|Hne]; [by rewrite lookup_singleton_eq|by rewrite lookup_singleton_ne]. Qed.

Lemma fresh_flush_ok disk : flush_ok (NewDatabase disk).
Proof.
  exists []. split; [|by intros [|? ?] h l2 r ch cs [=]]. split; try done.
  - apply NoDup_singleton.
  - intros h. rewrite <- (fmap_is_Some core), fresh_core, list_elem_of_singleton. destruct (decide (h = zero_hash)); split; (done || by eexists || by intros [? ?]).
Qed.

Lemma disk_bytes d h b : stored_bytes (NewDatabase (diskdb d)) h b -> stored_bytes d h b \/ (h = zero_hash /\ b = [0xC0]).
Proof.
  intros [?|[H|(r & ch & Hd & Hr)]]; [done|left; right; by left|]. rewrite fresh_core in Hd. destruct (decide (h = zero_hash)); [|done]. injection Hd as <- <-. right.
  vm_compute in Hr. by injection Hr as <-.
Qed.

Lemma disk_inv d : inv d -> inv (NewDatabase (diskdb d)).
Proof.
  intros [Hok _]. split; [split; try done|apply fresh_flush_ok].
  - intros h b Hl Hz [Hs|[? _]]%disk_bytes; [by apply (do_sound _ _ Hok)|done].
  - intros h b n Hl [Hs|[-> ->]]%disk_bytes; [by apply (do_bytes _ _ Hok)|done].
  - intros h r ch Hz. by rewrite fresh_core, decide_False.
  - by intros h [? ?].
  - apply (do_closed _ _ Hok).
Qed.

Lemma forall_or {A} (B : Prop) (P : A -> Prop) (l : list A) : (forall x, x ∈ l -> B \/ P x) -> B \/ (forall x, x ∈ l -> P x).
Proof.
  induction l as [|a l IH]; intros H; [right; by intros x ?%elem_of_nil|]. destruct (H a) as [?|Ha]; [by left|by left|].
  destruct IH as [?|Hl]; [intros x Hx; apply H; by right|by left|]. right. intros x [->|?]%elem_of_cons; auto.
Qed.

(** A trie of the database whose root is on disk is a trie of the disk. *)
Section on_disk.
  Context (d : Database) (Hok : db_ok d).
  Abbreviation disk := (NewDatabase (diskdb d)).

Lemma disk_fn h n : length h = 32%nat -> h <> zero_hash -> on_disk d h -> db_fn d h = Some n -> broken \/ db_fn disk h = Some n.
Proof.
  intros Hl Hz [e He] Hn. destruct (db_fn_bytes _ _ _ _ Hok Hn) as (b & Hb & Hd). assert (stored_bytes d h e) as Hs by (right; by left).
  destruct (same_bytes d h e b Hok Hl Hz Hs Hb) as [?|<-]; [by left|]. right. rewrite db_fn_of, fresh_core, decide_False by done. cbn. by rewrite He.
Qed.

(** The references of a node on disk. *)
Lemma disk_refs h n x : length h = 32%nat -> h <> zero_hash -> on_disk d h -> db_fn d h = Some n -> x ∈ refs n -> broken \/ on_disk d x.
Proof.
  intros Hl Hz [e He] Hn Hx. destruct (db_fn_bytes _ _ _ _ Hok Hn) as (b & Hb & Hd). assert (stored_bytes d h e) as Hs by (right; by left).
  destruct (same_bytes d h e b Hok Hl Hz Hs Hb) as [?|<-]; [by left|]. right. by eapply (do_closed _ _ Hok).
Qed.

Definition kept (t : bool) (n : node) : Prop :=
  wf (db_fn disk) n /\ good keccak (db_fn disk) t n /\ (forall k v, holds (db_fn disk) n k v <-> holds (db_fn d) n k v) /\
  (fullish (db_fn d) n -> fullish (db_fn disk) n).

Lemma kept_short t K c f : wf (db_fn d) (shortNode K c f) -> good keccak (db_fn d) t (shortNode K c f) -> is_value c \/ kept false c -> kept t (shortNode K c f).
Proof.
  intros Hw Hg Hc. assert (good keccak (db_fn disk) false c /\ (forall k v, holds (db_fn disk) c k v <-> holds (db_fn d) c k v)) as [Hgc Hh].
  { destruct Hc as [(v & _ & ->)|(_ & ? & ? & _)]; [|done]. split; [constructor|]. intros k w. by rewrite !holds_value. }
  split; [|split; [|split]].
  - inversion Hw as [? ? ? HK Hv|? ? ? HK Hnk Hwc Hfu| |]; subst; [by constructor|]. destruct Hc as [(v & _ & ->)|(? & _ & _ & Hf)]; [inversion Hwc|]. apply TrieMap.wf_ext; auto.
  - inversion Hg; subst. by constructor.
  - intros k v. rewrite !holds_short. by setoid_rewrite Hh.
  - intros [?|(h & m & ? & _)]; done.
Qed.

Definition kept_slot (c : node) : Prop := c = nilNode \/ is_value c \/ kept false c.

Lemma kept_full t cs f : wf (db_fn d) (fullNode cs f) -> good keccak (db_fn d) t (fullNode cs f) -> (forall c, c ∈ cs -> kept_slot c) -> kept t (fullNode cs f).
Proof.
  intros Hw Hg Hc. inversion Hw as [| |? ? Hl H1 H2 H3|]; subst. inversion Hg as [| | |? ? ? Hgc Hh|]; subst.
  assert (forall i c, cs !! i = Some c -> kept_slot c) as Hs by (intros i c Hi; apply Hc; by eapply list_elem_of_lookup_2).
  split; [|split; [|split]].
  - constructor; try done. intros i c Hi Hci Hn. destruct (Hs i c Hci) as [?|[(v & _ & ->)|(? & _)]]; try done. specialize (H1 _ _ Hi Hci Hn). inversion H1.
  - constructor; [|done]. intros i c Hci. destruct (Hs i c Hci) as [->|[(v & _ & ->)|(_ & ? & _)]]; [constructor|constructor|done].
  - intros k v. rewrite !holds_full. split; intros (i & c & k' & -> & Hci & Hk); exists i, c, k'; (split; [done|]); (split; [done|]);
      (destruct (Hs i c Hci) as [->|[(w & _ & ->)|(_ & _ & Hx & _)]]; [by apply holds_nil in Hk|by apply holds_value in Hk as [-> ->]; constructor|by apply Hx]).
  - intros _. by left.
Qed.

Lemma kept_hash t h n : db_fn d h = Some n -> db_fn disk h = Some n -> loaded n -> is_loaded n = true -> length h = 32%nat -> hash_ok keccak t n h -> kept t n -> kept t (hashNode h).
Proof.
  intros E1 E2 L1 L2 Hl Hh (H1 & H2 & H3 & H4). assert (db_fn d (BytesToHash h) = Some n /\ db_fn disk (BytesToHash h) = Some n) as [E1' E2'] by (by rewrite BytesToHash_id).
  split; [by econstructor|]. split; [by econstructor|]. split.
  - intros k v. rewrite (holds_hash (db_fn disk) h n) by done. rewrite (holds_hash (db_fn d) h n) by done. apply H3.
  - intros [?|(h' & m & [= <-] & Hm & Hf)]; [done|]. right. exists h, n. split; [done|]. split; [done|]. by assert (m = n) as <- by congruence.
Qed.

Lemma kept_ok n : wf (db_fn d) n -> forall t, good keccak (db_fn d) t n -> (forall x, x ∈ refs n -> on_disk d x) -> broken \/ kept t n.
Proof.
  induction 1 as [K v f HK Hv|K c f HK Hn Hc IH Hfu|cs f Hl H1 IH H2 H3|h n Hn Hw IH Hld]; intros t Hg Hr.
  - right. apply kept_short; [by constructor|done|left; by exists v].
  - inversion Hg; subst. destruct (IH false) as [?|Hk]; [done|done|by left|]. right. apply kept_short; [by constructor|done|by right].
  - inversion Hg as [| | |? ? ? Hgc Hh|]; subst. destruct (forall_or broken kept_slot cs) as [?|Hall]; [|by left|right; apply kept_full; [by constructor|done|done]].
    intros c [i Hi]%list_elem_of_lookup. destruct (decide (c = nilNode)) as [->|Hcn]; [right; by left|]. pose proof (lookup_lt_Some _ _ _ Hi). destruct (decide (i = 16%nat)) as [->|Hne].
    + right. right. left. by apply H2.
    + destruct (IH i c ltac:(lia) Hi Hcn false) as [?|?]; [by eapply Hgc| |by left|right; right; by right]. intros x Hx. apply Hr. apply refs_full. exists i, c. split; [lia|done].
  - inversion Hg as [| | | |? ? m Hh Em Hlm Hgm Hko]; subst. cbn [refs] in Hr. rewrite BytesToHash_id in * by done. assert (m = n) as -> by congruence.
    assert (on_disk d h) as Hd by (apply Hr; by left). destruct (decide (h = zero_hash)) as [Hz|Hz]; [left; right; exists (enc n); destruct Hko; congruence|].
    destruct (disk_fn h n Hh Hz Hd Em) as [?|E2]; [by left|]. destruct (forall_or broken (on_disk d) (refs n)) as [?|Hall]; [intros x Hx; by eapply disk_refs|by left|].
    destruct (IH t Hgm Hall) as [?|Hk]; [by left|]. right. by eapply kept_hash.
Qed.
End on_disk.

(** ** [Cap] *)

(** A dirty node may be written once what it refers to is. *)
Lemma dirty_entry_ok d x c (P : hash_t -> Prop) : inv d -> x <> zero_hash -> dirties d !! x = Some c ->
  (forall cs y, forGatherChildren (cn_node c) = Some cs -> y ∈ cs -> P y) -> exists v, cached_rlp c = Some v /\ entry_ok d P (x, v).
Proof.
  intros [Hok _] Hz Hc HP. destruct c as [r sz ps ch fp fn]. assert (core <$> dirties d !! x = Some (r, ch)) as Hcore by (by rewrite Hc).
  destruct (do_dirty _ _ Hok x r ch Hz Hcore) as (Hl & -> & [cs Hcs] & b & m & Hb & Ho & Hm). assert (stored_bytes d x b) as Hsb by (right; right; eauto).
  exists b. split; [by destruct r|]. right. cbn [fst snd]. split; [done|]. split; [done|]. split; [by apply (do_sound _ _ Hok)|]. split; [right; left; by eexists|].
  intros n Hn. split; [by eapply (do_bytes _ _ Hok)|]. assert (m = n) as -> by congruence. assert (expandNode (Some x) r = Some n) as Hex by (by destruct r).
  rewrite (gather_refs r (Some x) n cs Hex Hcs). intros y Hy. by eapply HP.
Qed.

Lemma batch_ok_snoc d b kv : batch_ok d b -> entry_ok d (done_in d b) kv -> batch_ok d (b ++ [kv]).
Proof.
  intros Hb He b1 kv' b2 E. destruct b2 as [|z b2 _] using rev_ind; [by apply app_inj_tail in E as [<- <-]|].
  rewrite app_comm_cons, app_assoc in E. apply app_inj_tail in E as [-> <-]. by eapply Hb.
Qed.

Definition same_dirty (d d' : Database) : Prop := dirties d' = dirties d /\ oldest d' = oldest d /\ newest d' = newest d.

(** The loop over the list: [l1] has been written or is in the batch. *)
Lemma cap_loop_ok limit fuel : forall io d b size l1 l2, inv d -> flush_list d (l1 ++ l2) -> topo d (l1 ++ l2) -> batch_ok d b ->
  (forall x, x ∈ l1 -> done_in d b x) -> (length l2 <= fuel)%nat ->
  broken \/ exists ok b' old d' io', cap_loop fuel io d b size limit (default zero_hash (head l2)) = Some (ok, b', old, d', io') /\ inv d' /\ same_fn d d' /\ same_dirty d d' /\ (forall x, on_disk d x -> on_disk d' x) /\
    (ok = true -> batch_ok d' b' /\ exists l1' l2', l1 ++ l2 = l1' ++ l2' /\ old = default zero_hash (head l2') /\ forall x, x ∈ l1' -> done_in d' b' x).
Proof.
  induction fuel as [|fuel IH]; intros io d b size l1 l2 Hi Hfl Ht Hb Hl1 Hlen.
  { destruct l2 as [|? ?]; [|cbn in Hlen; lia]. right. exists true, b, zero_hash, d, io. cbn [cap_loop head default from_option]. rewrite bool_decide_eq_true_2, andb_false_r by done.
    split; [done|]. split; [done|]. split; [done|]. split; [done|]. split; [done|]. intros _. split; [done|]. by exists l1, []. }
  destruct l2 as [|x l2].
  { right. exists true, b, zero_hash, d, io. cbn [cap_loop head default from_option]. rewrite bool_decide_eq_true_2, andb_false_r by done.
    split; [done|]. split; [done|]. split; [done|]. split; [done|]. split; [done|]. intros _. split; [done|]. by exists l1, []. }
  cbn [head default from_option id cap_loop]. destruct ((limit <? size) && _) eqn:Ecase.
  2: { right. exists true, b, x, d, io. split; [done|]. split; [done|]. split; [done|]. split; [done|]. split; [done|]. intros _. split; [done|]. by exists l1, (x :: l2). }
  apply andb_true_iff in Ecase as [_ Hz%negb_true_iff%bool_decide_eq_false].
  assert (is_Some (dirties d !! x)) as [c Hc] by (apply (fl_dom _ _ Hfl); right; apply elem_of_app; right; by left). rewrite Hc. cbn [mbind option_bind].
  destruct (dirty_entry_ok d x c (done_in d b) Hi Hz Hc) as (v & -> & He).
  { intros cs y Hg Hy. destruct (Ht l1 x l2 (cn_node c) (cn_children c) cs eq_refl ltac:(by rewrite Hc) Hg y Hy) as [?|?]; [by apply Hl1|by left]. }
  cbn [mbind option_bind]. set (b1 := b ++ [(x, v)]). assert (batch_ok d b1) as Hb1 by (by apply batch_ok_snoc). set (sz := match cn_children c with Some _ => _ | None => _ end).
  assert (forall y, y ∈ l1 ++ [x] -> done_in d b1 y) as Hl1'.
  { intros y [Hy|Hy]%elem_of_app; unfold b1; [destruct (Hl1 y Hy) as [?|?]; [by left|right; rewrite fmap_app; apply elem_of_app; by left]|]. apply list_elem_of_singleton in Hy as ->.
    right. rewrite fmap_app. apply elem_of_app. right. by left. }
  assert (cn_flushNext c = default zero_hash (head l2)) as ->.
  { destruct l2 as [|y l2]; cbn [head default from_option id].
    - pose proof (fl_end _ _ Hfl x ltac:(by rewrite last_snoc)) as Hx. unfold next_of in Hx. rewrite Hc in Hx. by injection Hx.
    - pose proof (fl_linked _ _ Hfl) as Hx. apply linked_app in Hx as [_ (Hx & _)]. unfold next_of in Hx. rewrite Hc in Hx. by injection Hx. }
  replace (l1 ++ x :: l2) with ((l1 ++ [x]) ++ l2) in * by (by rewrite <- app_assoc). cbn [length] in Hlen. destruct (_ <=? _); [|by apply IH; [..|lia]].
  destruct (batch_write_eq io d b1) as ([] & io1 & ->); [|right; eexists _, _, _, _, _; split; [done|]; split; [done|]; split; [done|]; done].
  destruct (write_ok b1 d Hi Hb1) as [?|(Hi1 & Hs1 & Hd1)]; [by left|]. destruct (IH io1 (write_all d b1) [] sz (l1 ++ [x]) l2) as [?|(ok & b' & old & d' & io' & -> & Hi' & Hs' & Hd' & Hm' & Hok)].
  - done.
  - by destruct Hfl.
  - intros a h b0 r ch cs E Hh Hg y Hy. destruct (Ht a h b0 r ch cs E Hh Hg y Hy) as [?|?]; [by left|right]. apply Hd1. by left.
  - by intros [] ? ?.
  - intros y Hy. left. apply Hd1. by apply Hl1'.
  - lia.
  - by left.
  - right. eexists _, _, _, _, _. split; [done|]. split; [done|]. split; [by eapply same_fn_trans|]. split; [done|]. split; [|done]. intros y Hy. apply Hm', Hd1. by left.
Qed.

(** The oldest node leaves the list. *)
Lemma pop_list d x l c : flush_list d (x :: l) -> dirties d !! x = Some c -> (forall d', dirties d' = base.delete x (dirties d) -> oldest d' = cn_flushNext c -> newest d' = newest d -> flush_list d' l).
Proof.
  intros Hfl Hc d' E1 E2 E3. destruct (unlink_nodup d [] x l Hfl) as [Hnd Hx]. pose proof Hfl as [_ Hdom Hl He _ Hn]. cbn [app] in *.
  assert (x ∉ l) as Hxl by (intros ?; apply Hx; by right). split.
  - done.
  - intros h. rewrite E1. by apply (unlink_dom d [] x l Hfl).
  - rewrite E1. apply linked_delete; [done|]. destruct l; [done|]. by apply linked_cons in Hl as (_ & _ & ?).
  - intros y Hy. rewrite E1, next_delete by (intros ->; apply Hxl; by eapply last_Some_elem_of). apply He. destruct l; [done|]. by rewrite last_cons_cons.
  - rewrite E2. destruct l as [|y l]; cbn [head default from_option id].
    + specialize (He x eq_refl). unfold next_of in He. rewrite Hc in He. by injection He.
    + destruct Hl as (Hl & _). unfold next_of in Hl. rewrite Hc in Hl. by injection Hl.
  - intros y Hy. rewrite E3. apply Hn. destruct l; [done|]. by rewrite last_cons_cons.
Qed.

Lemma uncache_ok l1 : forall fuel d l2, db_ok d -> flush_list d (l1 ++ l2) -> topo d (l1 ++ l2) -> (forall x, x ∈ l1 -> on_disk d x) -> (length l1 <= fuel)%nat ->
  broken \/ exists d', uncache_loop fuel d (default zero_hash (head l2)) = Some d' /\ db_ok d' /\ flush_list d' l2 /\ topo d' l2 /\ same_fn d d'.
Proof.
  induction l1 as [|x l1 IH]; intros fuel d l2 Hok Hfl Ht Hd Hlen.
  { right. exists d. split; [|done]. pose proof (fl_oldest _ _ Hfl) as Ho. cbn [app] in Ho. destruct fuel; cbn [uncache_loop]; by rewrite bool_decide_eq_true_2. }
  destruct fuel as [|fuel]; [cbn in Hlen; lia|]. cbn [uncache_loop]. assert (oldest d = x) as Ho by apply (fl_oldest _ _ Hfl).
  destruct (unlink_nodup d [] x (l1 ++ l2) Hfl) as [Hnd Hx]. cbn [app] in Hx. rewrite Ho. rewrite bool_decide_eq_false_2.
  2: { intros E. apply Hx. rewrite E. destruct l2 as [|y l2]; [by left|]. right. apply elem_of_app. right. by left. }
  assert (is_Some (dirties d !! x)) as [c Hc] by (apply (fl_dom _ _ Hfl); right; by left). rewrite Hc. cbn [mbind option_bind].
  assert (x <> zero_hash) as Hz by (intros ->; apply Hx; by left). set (d1 := set_sizes _ _ _).
  assert (length x = 32%nat) as Hl by (by destruct (do_dirty _ _ Hok x (cn_node c) (cn_children c) Hz ltac:(by rewrite Hc))).
  assert (core <$> dirties d1 = base.delete x (core <$> dirties d)) as Hcore by (unfold d1; cbn [dirties set_sizes set_ends set_dirties]; by rewrite fmap_delete).
  assert (forall y e, clean_get d1 y = Some e -> clean_get d y = Some e \/ (y = x /\ stored_bytes d x e)) as Hcl by (intros y e; by left).
  assert (on_disk d x) as Hdx by (apply Hd; by left).
  destruct (uncached_fn d d1 x Hok Hl Hz Hdx Hcore eq_refl eq_refl Hcl (fun _ _ => eq_refl)) as [?|Hs]; [by left|].
  pose proof (uncached_db_ok d d1 x Hok Hz Hdx Hcore eq_refl eq_refl Hcl) as Hok1.
  pose proof (uncached_topo d d1 x [] (l1 ++ l2) Ht Hdx Hcore eq_refl) as Ht1.
  destruct (IH fuel d1 l2 Hok1) as [?|(d2 & -> & H1 & H2 & H3 & H4)].
  - by eapply (pop_list d x (l1 ++ l2) c).
  - done.
  - intros y Hy. apply Hd. by right.
  - cbn in Hlen. lia.
  - by left.
  - right. exists d2. split; [done|]. split; [done|]. split; [done|]. split; [done|]. by eapply same_fn_trans.
Qed.

(** The first entry forgets its predecessor. *)
Lemma head_ok d l : db_ok d -> flush_list d l -> topo d l ->
  exists d', (if bool_decide (oldest d = zero_hash) then Some d else upd_dirty d (oldest d) (fun n => with_prev n zero_hash)) = Some d' /\ inv d' /\ same_fn d d'.
Proof.
  intros Hok Hfl Ht. case_bool_decide as Ho; [exists d; split; [done|]; split; [split; [done|by exists l]|done]|].
  destruct l as [|x l]; [by destruct Ho; apply (fl_oldest _ _ Hfl)|]. pose proof Hfl as [Hnd Hdom Hl He Hold Hn]. cbn [head default from_option id] in Hold. rewrite Hold.
  destruct (proj2 (Hdom x)) as [c Hc]; [by right; left|]. erewrite upd_dirty_eq by done. eexists. split; [done|]. set (d' := set_dirties _ _).
  assert (core <$> dirties d' = core <$> dirties d) as Hcore by (by eapply update_core).
  assert (forall y, core <$> dirties d' !! y = core <$> dirties d !! y) as Hcy by (intros y; by rewrite <- !lookup_fmap, Hcore).
  split; [split|by apply same_fn_parts].
  - destruct Hok as [H1 H2 H3 H4 H5 H6 H7]. split; try done.
    + intros h b G1 G2 [G|[G|(r & ch & G & G')]]; apply H1; try done; [by left|by right; left|right; right]. rewrite Hcy in G. eauto.
    + intros h b n G1 [G|[G|(r & ch & G & G')]]; apply H2; try done; [by left|by right; left|right; right]. rewrite Hcy in G. eauto.
    + intros h r ch G1. rewrite Hcy. by apply H3.
    + by rewrite Hcy.
  - exists (x :: l). apply NoDup_cons in Hnd as [Hz Hnd]. pose proof Hnd as [Hxl _]%NoDup_cons. split; [split|].
    + by constructor.
    + intros h. rewrite (core_dom (dirties d) (dirties d') h Hcore). apply Hdom.
    + by apply linked_prev.
    + intros y Hy. specialize (He y Hy). unfold d'. cbn [dirties set_dirties]. destruct (decide (y = x)) as [->|Hne]; [|by rewrite next_of_ne].
      unfold next_of in *. rewrite lookup_insert_eq. by rewrite Hc in He.
    + done.
    + done.
    + intros l1 h l2 r ch cs E. rewrite Hcy. by apply (Ht l1 h l2).
Qed.

Lemma flush_list_size d l : flush_list d l -> (length l <= size (dirties d))%nat.
Proof.
  intros [Hnd Hdom _ _ _ _]. apply NoDup_cons in Hnd as [_ Hnd]. rewrite <- size_dom, <- (size_list_to_set (C:=gset hash_t) l Hnd). apply subseteq_size.
  intros x Hx%elem_of_list_to_set. apply elem_of_dom, Hdom. by right.
Qed.

Lemma set_pre_list d l : flush_list d l -> topo d l -> flush_list (set_preimages d ∅ 0) l /\ topo (set_preimages d ∅ 0) l.
Proof. intros Hfl Ht. split; [by destruct Hfl|done]. Qed.

Lemma Cap_ok d io limit : inv d -> broken \/ exists r d', Cap io d limit = Some (r, d') /\ inv d' /\ same_fn d d'.
Proof.
  intros Hi. pose proof Hi as [Hok (l & Hfl & Ht)]. unfold Cap. destruct (proj2 (fl_dom _ _ Hfl zero_hash)) as [meta Hm]; [by left|]. rewrite Hm. cbn [mbind option_bind].
  set (fuel := size (dirties d)). set (total := _ + _ + _). set (fp := 4 * 1024 * 1024 <? _).
  assert (broken \/ exists ok b d1 io1, (if fp then flush_preimages io d [] (map_to_list (preimages d)) else (true, [], d, io)) = (ok, b, d1, io1) /\
    inv d1 /\ same_fn d d1 /\ preimage_batch b /\ dirties d1 = dirties d) as [?|(ok & b & d1 & io1 & -> & Hi1 & Hs1 & Hb1 & Hd1)]; [|by left|].
  { destruct fp; [apply preimages_ok; [done|constructor|by apply preimages_forall]|]. right. eexists _, _, _, _. split; [done|]. split; [done|]. split; [done|]. split; [constructor|done]. }
  destruct ok; cbn [negb]; [|right; eexists _, _; split; [done|]; done]. destruct Hi1 as [Hok1 (l' & Hfl1 & Ht1)]. pose proof (flush_list_size d1 l' Hfl1) as Hsz. rewrite Hd1 in Hsz.
  rewrite (fl_oldest _ _ Hfl1). destruct (cap_loop_ok limit fuel io1 d1 b total [] l') as [?|(ok & b2 & old & d2 & io2 & -> & Hi2 & Hs2 & Hd2 & Hm2 & Hres)]; try done.
  { split; [done|by exists l']. } { by apply preimage_batch_ok. } { by intros x ?%elem_of_nil. } { by left. }
  cbn [mbind option_bind]. destruct ok; cbn [negb]; [|right; eexists _, _; split; [done|]; split; [done|by eapply same_fn_trans]].
  destruct (Hres eq_refl) as (Hb2 & l1 & l2 & El & -> & Hl1). cbn [app] in El. subst l'.
  destruct (batch_write_eq io2 d2 b2) as ([] & io3 & ->); cbn [negb]; [|right; eexists _, _; split; [done|]; split; [done|by eapply same_fn_trans]].
  destruct (write_ok b2 d2 Hi2 Hb2) as [?|(Hi3 & Hs3 & Hd3)]; [by left|]. set (d3 := write_all d2 b2) in *.
  destruct Hd2 as (E1 & E2 & E3). assert (flush_list d3 (l1 ++ l2)) as Hfl3 by (by apply (flush_list_same d1)).
  assert (topo d3 (l1 ++ l2)) as Ht3.
  { intros a h c r ch cs E Hh Hg y Hy. destruct (Ht1 a h c r ch cs E ltac:(by rewrite <- E1) Hg y Hy) as [?|?]; [by left|right]. apply Hd3. left. by apply Hm2. }
  set (d4 := if fp then set_preimages d3 ∅ 0 else d3).
  assert (inv d4 /\ same_fn d3 d4 /\ flush_list d4 (l1 ++ l2) /\ topo d4 (l1 ++ l2) /\ diskdb d4 = diskdb d3) as (Hi4 & Hs4 & Hfl4 & Ht4 & Ed4).
  { unfold d4. destruct fp; [|done]. destruct (set_preimages_inv d3 Hi3), (set_pre_list d3 _ Hfl3 Ht3). done. }
  destruct (uncache_ok l1 fuel d4 l2 (proj1 Hi4) Hfl4 Ht4) as [?|(d5 & -> & Hok5 & Hfl5 & Ht5 & Hs5)]; [|rewrite length_app in Hsz; lia|by left|].
  { intros x Hx. unfold on_disk. rewrite Ed4. by apply Hd3, Hl1. }
  cbn [mbind option_bind]. destruct (head_ok d5 l2 Hok5 Hfl5 Ht5) as (d6 & -> & Hi6 & Hs6). cbn [mbind option_bind]. right. eexists _, _. split; [done|]. split; [done|].
  intros x. by rewrite Hs6, Hs5, Hs4, Hs3, Hs2, Hs1.
Qed.
End disk.
