(* ===== verification/TrieDurable.v ===== *)
(** * Tries kept in a database ([src/trie/trie.go], [committer.go], [database.go])

    A trie that is updated, hashed, committed and opened again from its root
    hash behaves as one map, as long as no key is a prefix of another key.
    Without that condition the committer stores the value of a branch apart
    from it, and the value is lost once the database is on disk. *)

From S2P Require Import Prelude Bytes Rlp Trie TrieKeys TrieMap TrieRefine TrieStore TrieHash TrieRoot TrieProof TrieDb TrieFlush TrieCommit TrieDisk.
Local Open Scope Z_scope.

Section durable.
  Context (keccak : list Z -> list Z) `{!KeccakLaws keccak}.
  Abbreviation enc := (TrieHash.enc keccak).
  Abbreviation collapse := (TrieProof.collapse keccak).
  Abbreviation collapse_child := (TrieProof.collapse_child keccak).
  Abbreviation ready := (TrieCommit.ready keccak).
  Abbreviation stored := (TrieCommit.stored keccak).

(** ** Cached hashes that a commit may rely on *)

Section primed.
  Context (db : list Z -> option node) (Hdb : normal keccak db).
  Abbreviation good := (TrieHash.good keccak db).

(** A node with a hash is ready to be committed, and a node without one that
    is not dirty was part of its parent's encoding. *)
Definition settled (t : bool) (n : node) : Prop :=
  (forall h, (cache n).1 = Some h -> ready db t n) /\ (cache n = (None, false) -> t = false /\ (length (enc n) < 32)%nat).

Inductive primed : bool -> node -> Prop :=
| pm_nil t : primed t nilNode
| pm_value t v : primed t (valueNode v)
| pm_hash t h : good t (hashNode h) -> wf db (hashNode h) -> primed t (hashNode h)
| pm_short t K c f : primed false c -> settled t (shortNode K c f) -> primed t (shortNode K c f)
| pm_full t cs f : (forall i c, cs !! i = Some c -> primed false c) -> settled t (fullNode cs f) -> primed t (fullNode cs f).

Lemma settled_new n t : cache n = (None, true) -> settled t n.
Proof. intros E. split; [intros h|]; by rewrite E. Qed.

Lemma primed_new_short t K c : primed false c -> primed t (shortNode K c newFlag).
Proof. intros H. constructor; [done|by apply settled_new]. Qed.

Lemma primed_new_full t cs : (forall i c, cs !! i = Some c -> primed false c) -> primed t (fullNode cs newFlag).
Proof. intros H. constructor; [done|by apply settled_new]. Qed.

Lemma primed_slots (cs : list node) i n : (forall j c, cs !! j = Some c -> primed false c) -> primed false n ->
  forall j c, <[i := n]> cs !! j = Some c -> primed false c.
Proof. intros Hcs Hn j c [(_ & <- & _)|[_ H]]%list_lookup_insert_Some; [done|]. by eapply Hcs. Qed.

Lemma primed_empty j c : empty_children !! j = Some c -> primed false c.
Proof. intros [-> _]%lookup_replicate. constructor. Qed.

(** A node embedded in a node of the database. *)
Lemma embedded_primed n : good false n -> proper db n \/ n = nilNode -> collapse_child n = n -> primed false n.
Proof.
  induction n as [|v|h|K c f IH|cs f IH] using node_tree_ind; intros Hg Hp E; [constructor|constructor| | |].
  - constructor; [done|]. destruct Hp as [[?|(v & _ & ?)]|?]; done.
  - destruct Hp as [Hp|?]; [|done]. unfold TrieProof.collapse_child in E. cbn [is_loaded] in E. destruct (_ <? _)%nat eqn:El; [|done]. rewrite collapse_short in E. injection E as Ec Ef.
    inversion Hg; subst. constructor; [|split; [done|intros _; split; [done|by apply Nat.ltb_lt]]].
    apply IH; [done|left; by apply proper_short in Hp as [? _]|done].
  - destruct Hp as [Hp|?]; [|done]. unfold TrieProof.collapse_child in E. cbn [is_loaded] in E. destruct (_ <? _)%nat eqn:El; [|done]. rewrite collapse_full in E. injection E as Ec Ef.
    inversion Hg as [| | |? ? ? Hgc|]; subst. constructor; [|split; [done|intros _; split; [done|by apply Nat.ltb_lt]]].
    intros i c Hc. rewrite Forall_lookup in IH. eapply (IH i c Hc); [by eapply Hgc| |].
    + destruct (decide (c = nilNode)); [by right|left]. by eapply (proper_full _ _ _ Hp).
    + assert ((collapse_child <$> cs) !! i = Some c) as Hc' by (by rewrite Ec). rewrite list_lookup_fmap, Hc in Hc'. by injection Hc'.
Qed.

Lemma primed_resolve t h prefix n : primed t (hashNode h) -> resolveHash db h prefix = Ok n ->
  primed t n /\ ready db t n.
Proof.
  inversion 1 as [| |? ? Hg Hw| |]; subst. inversion Hg as [| | | |? ? m Hh Em Hl Hm Hok]; subst. unfold resolveHash. rewrite (BytesToHash_id h Hh), Em.
  intros [= <-]. pose proof (Hdb h m Em) as En. inversion Hw as [| | |? m' Em' Hwm _]; subst. assert (m' = m) as -> by (rewrite BytesToHash_id in Em' by done; congruence).
  assert (cache m = (Some h, false)) as Ec by (rewrite <- En; by destruct m).
  assert (stored db t m h) as Hst.
  { split_and!; try done; [intros k w; by apply holds_hash|]. intros [?|(h' & m' & -> & _)]; [|done]. right. eauto. }
  assert (ready db t m) as Hr by (by eapply rd_clean). split; [|done].
  assert (settled t m) as Hs by (split; [done|by rewrite Ec]).
  assert (proper db m) as Hp by (by left). destruct m as [|cs f|K c f| |]; try done.
  - rewrite collapse_full in En. injection En as Ecs Ef. inversion Hm as [| | |? ? ? Hgc|]; subst. constructor; [|done]. intros i c Hc. apply embedded_primed; [by eapply Hgc| |].
    + destruct (decide (c = nilNode)); [by right|left]. by eapply (proper_full _ _ _ Hp).
    + assert ((collapse_child <$> cs) !! i = Some c) as Hc' by (by rewrite Ecs). rewrite list_lookup_fmap, Hc in Hc'. by injection Hc'.
  - rewrite collapse_short in En. injection En as Ecc Ef. inversion Hm; subst. constructor; [|done]. apply embedded_primed; [done|left; by apply proper_short in Hp as [? _]|done].
Qed.

(** ** The operations *)

Definition primed_result (t : bool) (r : option (res trie_error (bool * node))) : Prop :=
  forall d n', r = Some (Ok (d, n')) -> primed t n'.

Lemma insert_primed fuel t n prefix key v : (t = true -> key <> []) -> primed t n -> primed false v ->
  primed_result t (insert db fuel n prefix key v).
Proof.
  revert t n prefix key v. induction fuel as [|fuel IH]; intros t n prefix key v Ht Hn Hv d n'; [done|]. cbn [insert].
  destruct key as [|k0 key].
  { destruct t; [by destruct (Ht eq_refl)|]. destruct n as [| | | |w]; try (intros [= _ <-]; done). destruct v; try done. intros [= _ <-]. constructor. }
  destruct n as [|cs f|K c f|h|w]; [intros [= _ <-]; by apply primed_new_short| | | |done].
  - inversion Hn as [| | | |? ? ? Hcs Hf]; subst. destruct (cs !! Z.to_nat k0) as [c|] eqn:Hc; [|done]. cbn [mbind option_bind].
    destruct (insert db fuel c _ key v) as [[[d' nn]|]|] eqn:E; try done. intros [= E']. destruct d'; simplify_eq; [|done].
    apply primed_new_full, primed_slots; [done|]. eapply (IH false); [done| |done|done]. by eapply Hcs.
  - inversion Hn as [| | |? ? ? ? Hc Hf|]; subst. destruct (_ =? _)%nat.
    + destruct (insert db fuel c _ _ v) as [[[d' nn]|]|] eqn:E; try done. intros [= E']. destruct d'; simplify_eq; [|done].
      apply primed_new_short. by eapply (IH false) in E.
    + destruct (K !! _) as [b1|]; [|done]. cbn [mbind option_bind].
      destruct (insert db fuel nilNode _ _ c) as [[[d1 n1]|]|] eqn:E1; try done. destruct ((k0 :: key) !! _) as [b2|]; [|done].
      cbn [mbind option_bind]. destruct (insert db fuel nilNode _ _ v) as [[[d2 n2]|]|] eqn:E2; try done.
      apply (IH false) in E1; [|done|constructor|done]. apply (IH false) in E2; [|done|constructor|done].
      destruct (_ && _); [|done]. intros [= _ <-].
      assert (forall u, primed u (fullNode (<[Z.to_nat b2:=n2]> (<[Z.to_nat b1:=n1]> empty_children)) newFlag)) as Hb.
      { intros u. apply primed_new_full, primed_slots; [apply primed_slots; [apply primed_empty|]|]; done. }
      destruct (_ =? _)%nat; [done|by apply primed_new_short].
  - destruct (resolveHash db h prefix) as [rn|] eqn:Er; [|done]. destruct (primed_resolve _ _ _ _ Hn Er) as (Hg & _).
    destruct (insert db fuel rn _ _ v) as [[[d' nn]|]|] eqn:E; try done. intros [= E']. destruct d'; simplify_eq; [|done]. by eapply IH in E.
Qed.

Lemma reduce_primed t cs prefix : (forall i c, cs !! i = Some c -> primed false c) -> primed_result t (reduce_full db cs prefix).
Proof.
  intros Hcs d n'. unfold reduce_full. destruct (0 <=? _); [|intros [= _ <-]; by apply primed_new_full].
  destruct (cs !! _) as [c|] eqn:Hc; [|done]. cbn [mbind option_bind]. apply Hcs in Hc.
  destruct (_ =? 16); [intros [= _ <-]; by apply primed_new_short|]. destruct (resolve db c prefix) as [rn|] eqn:Er; [|done].
  assert (primed false rn) as Hrn.
  { destruct c; cbn [resolve] in Er; try (injection Er as <-; done). by destruct (primed_resolve _ _ _ _ Hc Er). }
  destruct rn; intros [= _ <-]; apply primed_new_short; try done. by inversion Hrn.
Qed.

Lemma delete_primed fuel t n prefix key : primed t n -> primed_result t (delete db fuel n prefix key).
Proof.
  revert t n prefix key. induction fuel as [|fuel IH]; intros t n prefix key Hn d n'; [done|]. cbn [delete].
  destruct n as [|cs f|K c f|h|w]; [by intros [= _ <-]| | | |intros [= _ <-]; constructor].
  - inversion Hn as [| | | |? ? ? Hcs Hf]; subst. destruct (head key) as [k0|]; [|done]. cbn [mbind option_bind].
    destruct (cs !! Z.to_nat k0) as [c|] eqn:Hc; [|done]. cbn [mbind option_bind].
    destruct (delete db fuel c _ _) as [[[d' nn]|]|] eqn:E; try done. destruct d'; cbn [negb]; [|by intros [= _ <-]].
    apply reduce_primed, primed_slots; [done|]. eapply IH; [|done]. by eapply Hcs.
  - inversion Hn as [| | |? ? ? ? Hc Hf|]; subst. destruct (_ <? _)%nat; [by intros [= _ <-]|]. destruct (_ =? _)%nat; [intros [= _ <-]; constructor|].
    destruct (delete db fuel c _ _) as [[[d' child]|]|] eqn:E; try done. apply (IH false) in E; [|done]. destruct d'; cbn [negb]; [|by intros [= _ <-]].
    destruct child; intros [= _ <-]; apply primed_new_short; try done. by inversion E.
  - destruct (resolveHash db h prefix) as [rn|] eqn:Er; [|done]. destruct (primed_resolve _ _ _ _ Hn Er) as (Hg & _).
    destruct (delete db fuel rn _ _) as [[[d' nn]|]|] eqn:E; try done. intros [= E']. destruct d'; simplify_eq; [|done]. by eapply IH in E.
Qed.

Lemma same_refl n : same_content db n n.
Proof. by intros k w. Qed.

(** Loading parts of a node leaves what it holds. *)
Lemma tryGet_same fuel t n key pos ov n' d : good t n -> tryGet db fuel n key pos = Some (Ok (ov, n', d)) ->
  same_content db n n' /\ (fullish db n -> fullish db n').
Proof.
  revert t n pos ov n' d. induction fuel as [|fuel IH]; intros t n pos ov n' d Hn; [done|]. cbn [tryGet].
  destruct n as [|cs f|K c f|h|w]; [by intros [= _ <- _]| | | |by intros [= _ <- _]].
  - inversion Hn as [| | |? ? ? Hcs Hf|]; subst. destruct (key !! pos) as [b|]; [|done]. cbn [mbind option_bind].
    destruct (cs !! Z.to_nat b) as [c|] eqn:Hc; [|done]. cbn [mbind option_bind].
    destruct (tryGet db fuel c key _) as [[[[v nn] d']|]|] eqn:E; try done. intros [= _ <- _]. destruct d'; [|done].
    apply (IH false) in E as [Hs _]; [|by eapply Hcs]. split; [by eapply same_full|by left].
  - inversion Hn as [| |? ? ? ? Hc Hf| |]; subst. destruct (_ || _); [by intros [= _ <- _]|].
    destruct (tryGet db fuel c key _) as [[[[v nn] d']|]|] eqn:E; try done. intros [= _ <- _]. destruct d'; [|done].
    apply (IH false) in E as [Hs _]; [|done]. split; [by apply same_short|]. intros [?|(h & n0 & ? & _)]; done.
  - inversion Hn as [| | | |? ? m Hh Em Hl Hm Hok]; subst. unfold resolveHash. rewrite (BytesToHash_id h Hh), Em.
    destruct (tryGet db fuel m key pos) as [[[[v nn] d']|]|] eqn:E; try done. intros [= _ <- _].
    apply (IH t) in E as [Hs Hfu]; [|done]. assert (db (BytesToHash h) = Some m) as Em' by (by rewrite BytesToHash_id).
    split; [intros k w; rewrite (Hs k w); symmetry; by apply holds_hash|]. intros [?|(h' & m' & [= <-] & Em2 & Hfm)]; [done|].
    apply Hfu. left. by assert (m = m') as -> by congruence.
Qed.

(** A clean node stays so when parts of it are loaded. *)
Lemma stored_same t n n' h : stored db t n h -> same_content db n n' -> (fullish db n' -> fullish db n) -> stored db t n' h.
Proof.
  intros (H1 & H2 & H3 & H4) Hs Hf. split_and!; try done; [|auto]. intros k w. by rewrite (H3 k w), (Hs k w).
Qed.

Lemma ready_short t K c c' f : ready db t (shortNode K c f) -> same_content db c c' -> (ready db false c -> ready db false c') ->
  enc (shortNode K c' f) = enc (shortNode K c f) -> ready db t (shortNode K c' f).
Proof.
  intros Hr Hs Hc E. inversion Hr as [| | |? ? h L Ec Hst|? ? ? ? Hrc Hd Hf|]; subst.
  - eapply rd_clean; [done|done|]. eapply stored_same; [done|by apply same_short|]. intros [?|(h' & n0 & ? & _)]; done.
  - constructor; [auto|done|]. by rewrite E.
Qed.

Lemma ready_full t cs i c c' f : ready db t (fullNode cs f) -> cs !! i = Some c -> same_content db c c' -> (ready db false c -> ready db false c') ->
  enc (fullNode (<[i := c']> cs) f) = enc (fullNode cs f) -> ready db t (fullNode (<[i := c']> cs) f).
Proof.
  intros Hr Hi Hs Hc E. inversion Hr as [| | |? ? h L Ec Hst| |? ? ? Hrc Hd Hf]; subst.
  - eapply rd_clean; [done|done|]. eapply stored_same; [done|by eapply same_full|]. by left.
  - constructor; [|done|by rewrite E]. intros j x [(_ & <- & _)|[_ H]]%list_lookup_insert_Some; [|by eapply Hrc]. apply Hc. by eapply Hrc.
Qed.

Lemma settled_from t n n' : settled t n -> cache n' = cache n -> enc n' = enc n -> (ready db t n -> ready db t n') -> settled t n'.
Proof. intros [H1 H2] Ec E Hr. split; rewrite Ec; [intros h Hh; eauto|]. by rewrite E. Qed.

Lemma tryGet_primed fuel t n key pos ov n' d : good t n -> primed t n -> tryGet db fuel n key pos = Some (Ok (ov, n', d)) ->
  primed t n' /\ (ready db t n -> ready db t n').
Proof.
  revert t n pos ov n' d. induction fuel as [|fuel IH]; intros t n pos ov n' d Hg Hn Eget; [done|].
  pose proof (tryGet_good keccak db (S fuel) t n key pos ov n' d Hg Eget) as (Hg' & _ & _). revert Eget. cbn [tryGet].
  destruct n as [|cs f|K c f|h|w]; [by intros [= _ <- _]| | | |by intros [= _ <- _]].
  - inversion Hg as [| | |? ? ? Hgc Hf|]; subst. inversion Hn as [| | | |? ? ? Hcs Hst]; subst. destruct (key !! pos) as [b|]; [|done]. cbn [mbind option_bind].
    destruct (cs !! Z.to_nat b) as [c|] eqn:Hc; [|done]. cbn [mbind option_bind].
    destruct (tryGet db fuel c key _) as [[[[v nn] d']|]|] eqn:E; try done. intros [= _ <- _]. destruct d'; [|done].
    assert (good false c) as Hgc' by (by eapply Hgc). pose proof (tryGet_same _ _ _ _ _ _ _ _ Hgc' E) as [Hs _].
    pose proof (tryGet_good _ _ _ _ _ _ _ _ _ _ Hgc' E) as (_ & Hi & _). specialize (Hi eq_refl).
    assert (enc (fullNode (<[Z.to_nat b:=nn]> cs) f) = enc (fullNode cs f)) as Ei.
    { unfold TrieHash.enc. rewrite !node_item_full, list_fmap_insert, Hi. do 2 f_equal. apply list_insert_id. by rewrite list_lookup_fmap, Hc. }
    apply (IH false) in E as [Hp Hr]; [|done|by eapply Hcs].
    assert (ready db t (fullNode cs f) -> ready db t (fullNode (<[Z.to_nat b:=nn]> cs) f)) as Hrd by (intros H; by eapply ready_full).
    split; [|done]. constructor; [by apply primed_slots|by eapply settled_from].
  - inversion Hg as [| |? ? ? ? Hgc Hf| |]; subst. inversion Hn as [| | |? ? ? ? Hcs Hst|]; subst. destruct (_ || _); [by intros [= _ <- _]|].
    destruct (tryGet db fuel c key _) as [[[[v nn] d']|]|] eqn:E; try done. intros [= _ <- _]. destruct d'; [|done].
    pose proof (tryGet_same _ _ _ _ _ _ _ _ Hgc E) as [Hs _].
    pose proof (tryGet_good _ _ _ _ _ _ _ _ _ _ Hgc E) as (_ & Hi & _). specialize (Hi eq_refl).
    assert (enc (shortNode K nn f) = enc (shortNode K c f)) as Ei by (unfold TrieHash.enc; by rewrite !node_item_short, Hi).
    apply (IH false) in E as [Hp Hr]; [|done|done].
    assert (ready db t (shortNode K c f) -> ready db t (shortNode K nn f)) as Hrd by (intros H; by eapply ready_short).
    split; [|done]. constructor; [done|by eapply settled_from].
  - destruct (resolveHash db h _) as [rn|] eqn:Er; [|done]. destruct (good_resolve _ _ _ _ _ _ Hg Er) as (Hgr & Hl & Hok).
    destruct (primed_resolve _ _ _ _ Hn Er) as [Hpr Hrr].
    destruct (tryGet db fuel rn key pos) as [[[[v nn] d']|]|] eqn:E; try done. intros [= _ <- _].
    apply (IH t) in E as (Hp & Hr); [|done|done]. auto.
Qed.

(** ** Hashing *)

Lemma hashed_flag t n col h df : settled t n -> cache n = (None, df) -> as_hash col = None ->
  as_hash (if (length (enc n) <? 32)%nat && negb t then col else hashNode (keccak (enc n))) = h ->
  (forall x, h = Some x -> df = true) /\ (h = None -> t = false /\ (length (enc n) < 32)%nat).
Proof.
  intros [_ Hs] Ec Hcol. rewrite Ec in Hs. destruct (_ && _) eqn:E.
  - apply andb_true_iff in E as [E1%Nat.ltb_lt E2]. destruct t; [done|]. intros <-. rewrite Hcol. done.
  - intros <-. split; [|done]. intros _ _. destruct df; [done|]. destruct (Hs eq_refl) as [-> Hl%Nat.ltb_lt]. by rewrite Hl in E.
Qed.

Lemma short_cached K c f x cc : hashShortNodeChildren (hash keccak) K c f = Some (x, shortNode K cc f) ->
  (is_loaded c = false /\ cc = c) \/ exists rc, hash keccak c false = Some (rc, cc).
Proof.
  unfold hashShortNodeChildren. destruct (hexToCompact K) as [key|]; [|done]. cbn [mbind option_bind].
  destruct c; try (intros [= _ <-]; by left).
  all: destruct (hash keccak _ false) as [[rc c']|]; [|done]; intros [= _ <-]; right; by exists rc.
Qed.

Lemma children_cached cs : forall k rs cc, hash_children (hash keccak) cs k = Some (rs, cc) -> forall i x, cc !! i = Some x ->
  exists c, cs !! i = Some c /\ ((x = c /\ (c = nilNode \/ (k <= i)%nat)) \/ (c <> nilNode /\ exists rc, hash keccak c false = Some (rc, x))).
Proof.
  induction cs as [|c cs IH]; intros k rs cc; cbn [hash_children]; [by intros [= _ <-]|]. destruct k as [|k].
  { intros [= _ <-] i x Hx. exists x. split; [done|]. left. split; [done|]. right. lia. }
  destruct (match c with nilNode => _ | _ => _ end) as [[r c']|] eqn:Er; [|done]. cbn [mbind option_bind].
  destruct (hash_children _ cs k) as [[rs' cc']|] eqn:Ec; [|done]. intros [= _ <-] [|i] x Hx; cbn in Hx.
  - injection Hx as <-. exists c. split; [done|]. destruct (decide (c = nilNode)) as [->|Hn]; [injection Er as _ <-; left; auto|].
    right. split; [done|]. exists r. by destruct c.
  - destruct (IH _ _ _ Ec i x Hx) as (c0 & H0 & Hcase). exists c0. split; [done|]. destruct Hcase as [[E1 [E2|Hi]]|Hr]; [left; auto|left; split; [done|right; lia]|by right].
Qed.

Lemma leaf_ready t n : is_loaded n = false -> ready db t n.
Proof. destruct n; try done; constructor. Qed.

Definition readied (t : bool) (n : node) : Prop := forall r c, hash keccak n t = Some (r, c) -> primed t c /\ ready db t c.

Lemma hash_readied_short t K c f : good t (shortNode K c f) -> sized db (shortNode K c f) -> proper db (shortNode K c f) ->
  primed t (shortNode K c f) -> (is_loaded c = true -> readied false c) -> readied t (shortNode K c f).
Proof.
  intros Hg Hs Hp Hpm IH r cn. inversion Hg as [| |? ? ? ? Hgc _| |]; subst. inversion Hpm as [| | |? ? ? ? Hpc Hst|]; subst.
  destruct (proper_short _ _ _ _ Hp) as [Hprc _]. cbn [hash cache fst]. destruct (fhash f) as [h|] eqn:Eh.
  { intros [= _ <-]. split; [done|]. apply (proj1 Hst h). by cbn. }
  destruct (short_children_ok keccak db t K c f Hg Hp) as (key & col & cc & E & Ev & Es & _).
  { intros L. apply (hash_spec keccak db); [done|by apply (sized_short _ _ _ _ Hs)|done|done]. }
  rewrite E. cbn [mbind option_bind fst snd]. rewrite (nodeToHash_ok keccak db t (shortNode K c f)) by done. cbn [mbind option_bind]. intros [= _ <-].
  assert (primed false cc /\ ready db false cc) as [Hpcc Hrcc].
  { destruct (is_loaded c) eqn:L; destruct (short_cached _ _ _ _ _ E) as [[L' ->]|(rc & Erc)]; try congruence; [by eapply IH|by split; [|apply leaf_ready]|].
    destruct c; try done; injection Erc as _ <-; (split; [done|by apply leaf_ready]). }
  destruct (hashed_flag t _ (shortNode key col f) _ (dirty f) Hst ltac:(cbn; by rewrite Eh) eq_refl eq_refl) as [Hd Hn]. set (h := as_hash _) in *.
  assert (enc (shortNode K cc (MkFlag h (dirty f))) = enc (shortNode K c f)) as Ee.
  { unfold TrieHash.enc. by rewrite (proj1 (item_strip keccak _ _ (strip_short_eq K _ _ (MkFlag h (dirty f)) f Es))). }
  cbn [set_hash]. assert (ready db t (shortNode K cc (MkFlag h (dirty f)))) as Hr by (constructor; [done|done|by rewrite Ee]).
  split; [|done]. constructor; [done|]. split; [done|]. cbn [cache fhash dirty]. intros [= E1 _]. rewrite Ee. auto.
Qed.

Lemma hash_readied_full t cs f : good t (fullNode cs f) -> sized db (fullNode cs f) -> proper db (fullNode cs f) ->
  primed t (fullNode cs f) -> (forall i c, cs !! i = Some c -> c <> nilNode -> readied false c) -> readied t (fullNode cs f).
Proof.
  intros Hg Hs Hp Hpm IH r cn. inversion Hg as [| | |? ? ? Hgc _|]; subst. inversion Hpm as [| | | |? ? ? Hpc Hst]; subst.
  cbn [hash cache fst]. destruct (fhash f) as [h|] eqn:Eh.
  { intros [= _ <-]. split; [done|]. apply (proj1 Hst h). by cbn. }
  destruct (full_children_ok keccak db t cs f Hg Hp) as (rs & cc & E & Ev & Es & _).
  { intros i c Hc Hn. apply (hash_spec keccak db); [by eapply Hgc|by eapply sized_full|by eapply (proper_full _ _ _ Hp)|done]. }
  rewrite E. cbn [mbind option_bind fst snd]. rewrite (nodeToHash_ok keccak db t (fullNode cs f)) by done. cbn [mbind option_bind]. intros [= _ <-].
  assert (forall i x, cc !! i = Some x -> primed false x /\ ready db false x) as Hcc.
  { intros i x Hx. unfold hashFullNodeChildren in E. destruct (hash_children _ cs 16) as [[rs' cc']|] eqn:Ec; [|done]. injection E as _ <-.
    destruct (children_cached _ _ _ _ Ec i x Hx) as (c & Hc & [[-> H]|[Hn (rc & Erc)]]); [|by eapply IH].
    split; [by eapply Hpc|]. apply leaf_ready. destruct H as [->|Hi]; [done|]. destruct (proper_full _ _ _ Hp) as (Hl & _ & H16).
    pose proof (lookup_lt_Some _ _ _ Hc). assert (i = 16%nat) as -> by lia. by apply H16. }
  destruct (hashed_flag t _ (fullNode rs f) _ (dirty f) Hst ltac:(cbn; by rewrite Eh) eq_refl eq_refl) as [Hd Hn]. set (h := as_hash _) in *.
  assert (enc (fullNode cc (MkFlag h (dirty f))) = enc (fullNode cs f)) as Ee.
  { unfold TrieHash.enc. by rewrite (proj1 (item_strip keccak _ _ (strip_full_eq _ _ (MkFlag h (dirty f)) f Es))). }
  cbn [set_hash]. assert (ready db t (fullNode cc (MkFlag h (dirty f)))) as Hr.
  { constructor; [|done|by rewrite Ee]. intros i x Hx. by apply (Hcc i x). }
  split; [|done]. constructor; [intros i x Hx; by apply (Hcc i x)|]. split; [done|]. cbn [cache fhash dirty]. intros [= E1 _]. rewrite Ee. auto.
Qed.

Lemma hash_readied t n : good t n -> sized db n -> proper db n -> primed t n -> readied t n.
Proof.
  revert t. induction n as [|v|h|K c f IH|cs f IH] using node_tree_ind; intros t Hg Hs Hp Hpm.
  - by destruct (proper_not_nil _ _ Hp).
  - intros r c [= _ <-]. split; constructor.
  - intros r c [= _ <-]. split; [done|constructor].
  - inversion Hg as [| |? ? ? ? Hgc _| |]; subst. inversion Hpm as [| | |? ? ? ? Hpc Hst|]; subst. destruct (proper_short _ _ _ _ Hp) as [Hprc _].
    apply hash_readied_short; try done. intros _. apply IH; [done|by apply (sized_short _ _ _ _ Hs)|done|done].
  - inversion Hg as [| | |? ? ? Hgc _|]; subst. inversion Hpm as [| | | |? ? ? Hpc Hst]; subst. rewrite Forall_lookup in IH.
    apply hash_readied_full; try done. intros i c Hc Hn. apply (IH i c Hc); [by eapply Hgc|by eapply sized_full|by eapply (proper_full _ _ _ Hp)|by eapply Hpc].
Qed.
End primed.

(** ** A trie and its database *)

Record CRep (d : Database) (t : Trie) (m : kvmap) : Prop := MkCRep {
  cr_hrep : HRep keccak (db_fn d) t m;
  cr_primed : primed (db_fn d) true (root t);
  cr_db : db_ok keccak d;
  cr_flush : flush_ok d;
}.

Lemma set_root_primed db t r x t' : primed db true (root t) -> primed_result db true r -> set_root t r = Some (x, t') -> primed db true (root t').
Proof. intros Ht Hr. unfold set_root. destruct r as [[[n b]|e]|]; [| |done]; intros [= _ <-]; [by eapply Hr|done]. Qed.

Lemma trie_step_primed db t op t' o : normal keccak db -> TrieHash.good keccak db true (root t) -> primed db true (root t) ->
  trie_step db t op = Some (t', o) -> primed db true (root t').
Proof.
  intros Hdb Hg Ht. assert (forall key, keybytesToHex key <> []) as Hne by (intros key E; unfold keybytesToHex in E; by apply app_eq_nil in E as [_ E]).
  destruct op as [key|key v|key]; cbn [trie_step].
  - unfold TryGet. destruct (tryGet _ _ _ _ _) as [[[[v nn] b]|]|] eqn:E; try done; cbn [mbind option_bind fst snd]; intros [= <- _]; [|done].
    destruct b; [|done]. by apply (tryGet_primed db Hdb _ true) in E as [? _].
  - destruct (TryUpdate db t key v) as [[r t1]|] eqn:E; [|done]. cbn [mbind option_bind fst snd]. intros [= <- _].
    unfold TryUpdate in E. eapply set_root_primed in E; [done|done|]. destruct v; [by apply delete_primed|apply insert_primed; [done|done|done|constructor]].
  - destruct (TryDelete db t key) as [[r t1]|] eqn:E; [|done]. cbn [mbind option_bind fst snd]. intros [= <- _].
    unfold TryDelete in E. eapply set_root_primed in E; [done|done|]. by apply delete_primed.
Qed.

Lemma trie_step_crep d t m op : CRep d t m -> op_ok op -> op_sized op ->
  exists t', trie_step (db_fn d) t op = Some (t', (spec_step m op).2) /\ CRep d t' (spec_step m op).1.
Proof.
  intros [H1 H2 H3 H4] Ho Hs. destruct (trie_step_hrep keccak (db_fn d) t m op H1 Ho Hs) as (t' & E & H'). exists t'. split; [done|].
  split; try done. eapply trie_step_primed; [apply (do_normal _ _ H3)|apply H1|done|done].
Qed.

(** After hashing, the root is ready to be committed. *)
Lemma Hash_crep d t m : CRep d t m ->
  exists t', Hash keccak t = Some (map_hash keccak m, t') /\ CRep d t' m /\ ready (db_fn d) true (root t') /\ (root t' = nilNode <-> m = ∅).
Proof.
  intros [H1 H2 H3 H4]. destruct (Hash_map_hash keccak (db_fn d) t m H1) as (t' & E & H'). exists t'. split; [done|].
  assert (primed (db_fn d) true (root t') /\ ready (db_fn d) true (root t')) as [Hp Hr].
  { revert E. unfold Hash, hashRoot. destruct (rep_ok _ _ _ (hr_rep _ _ _ _ H1)) as [Hn|Hw].
    - rewrite Hn. cbn [mbind option_bind fst snd as_hash]. intros [= _ <-]. split; constructor.
    - assert (readied (db_fn d) true (root t)) as Hrd by (apply hash_readied; [apply H1|by eapply hrep_sized|by left|done]).
      intros E. destruct (hash keccak (root t) true) as [[r c]|] eqn:Eh; [|destruct (root t); [inversion Hw|done..]].
      assert (root t' = c) as ->; [|by apply (Hrd r c)]. destruct (root t); [inversion Hw|..]; cbn [mbind option_bind fst snd] in E; destruct (as_hash r); try done; by injection E as _ <-. }
  split; [by split|]. split; [done|]. apply (hrep_nil _ _ _ (hr_rep _ _ _ _ H')).
Qed.

(** ** Prefix-free keys *)

Definition prefix_free (m : kvmap) : Prop := forall k k' v v', m !! k = Some v -> m !! k' = Some v' -> k `prefix_of` k' -> k = k'.

Lemma hex_prefix k k' x r : Forall byte_ok k -> Forall byte_ok k' -> x <> 16 ->
  keybytesToHex k' = (k ≫= fun b => [b / 16; b mod 16]) ++ x :: r -> k `prefix_of` k'.
Proof.
  intros Hk. revert k'. induction Hk as [|b k Hb Hk IH]; intros k' Hk' Hx E; [by apply prefix_nil|]. destruct k' as [|b' k'].
  { unfold keybytesToHex in E. rewrite bind_cons in E. cbn in E. injection E as E1 E2. unfold byte_ok in Hb. assert (b / 16 < 16) by (apply Z.div_lt_upper_bound; lia). lia. }
  inversion Hk'; subst. unfold keybytesToHex in E. rewrite !bind_cons, <- !app_assoc in E. cbn [app] in E. injection E as E1 E2 E3.
  assert (b = b') as -> by (rewrite (Z.div_mod b 16), (Z.div_mod b' 16) by done; congruence). apply prefix_cons. by apply IH.
Qed.

Lemma prefix_free_unbranched db t m : Rep db t m -> prefix_free m -> unbranched db (root t).
Proof.
  intros R Hm p x k v v' H1 H2. destruct (decide (x = 16)) as [|Hx]; [done|exfalso].
  destruct (rep_key _ _ _ R _ _ H1) as (k1 & Hk1 & E1). destruct (rep_key _ _ _ R _ _ H2) as (k2 & Hk2 & E2).
  unfold keybytesToHex in E1. apply (inj (fun l => l ++ [16])) in E1 as ->.
  assert (k1 = k2) as <-; [|unfold keybytesToHex in E2; apply (inj (app _)) in E2; by injection E2].
  apply (Hm k1 k2 v v'); [by apply (rep_in _ _ _ R)|apply (rep_in _ _ _ R); [done|by rewrite <- E2]|by eapply hex_prefix].
Qed.

(** ** Commits *)

(** The database has the trie of [m] under its hash. *)
Definition opened (d : Database) (m : kvmap) : Prop :=
  primed (db_fn d) true (hashNode (map_hash keccak m)) /\ Rep (db_fn d) (MkTrie (hashNode (map_hash keccak m)) 0) m.

Lemma map_hash_root d t m : CRep d t m -> map_hash keccak m = root_hash keccak (root t).
Proof.
  intros [H _ _ _]. destruct (Hash_ok keccak _ _ _ H) as (t1 & E1 & _). destruct (Hash_map_hash keccak _ _ _ H) as (t2 & E2 & _).
  rewrite E1 in E2. by injection E2.
Qed.

Lemma opened_stands d d' t m : CRep d t m -> root t <> nilNode -> stands keccak true d d' (root t) (hashNode (root_hash keccak (root t))) -> opened d' m.
Proof.
  intros HC Hn (Hp & Hg & Hh & _). unfold opened. rewrite (map_hash_root _ _ _ HC). assert (wf (db_fn d') (hashNode (root_hash keccak (root t)))) as Hw by (destruct Hp as [?|(v & _ & ?)]; done).
  split; [by constructor|]. apply (rep_content (db_fn d) (db_fn d') t); [apply HC|by right|]. intros k v. symmetry. apply Hh.
Qed.

Lemma opened_crep d m u : opened d m -> map_sized m -> db_ok keccak d -> flush_ok d -> CRep d (MkTrie (hashNode (map_hash keccak m)) u) m.
Proof.
  intros [Hp HR] Hm Hd Hf. split; try done. inversion Hp; subst. split; [|done|done]. by apply (rep_content (db_fn d) (db_fn d) (MkTrie (hashNode (map_hash keccak m)) 0)); [|apply HR|].
Qed.

(** The commit of a trie that was just hashed. *)
Lemma commit_root d t m : CRep d t m -> ready (db_fn d) true (root t) -> prefix_free m -> root t <> nilNode ->
  broken keccak \/ exists d', commit keccak None (root t) d true = Some (hashNode (map_hash keccak m), d') /\
    db_ok keccak d' /\ flush_ok d' /\ ext d d' /\ opened d' m.
Proof.
  intros HC Hr Hm Hn. pose proof HC as [[HR Hg Hsz] Hp Hd Hf]. destruct (rep_ok _ _ _ HR) as [?|Hw]; [done|].
  assert (pre keccak true d (root t)) as Hpre by (split; [done|by eapply hrep_sized|by left|done|by eapply prefix_free_unbranched]).
  destruct (commit_ok keccak (root t) true d Hpre) as [?|(r & d' & E & He & Hd' & Hf' & (_ & _ & s & Es & _ & Ex & _) & Hst)]; [|done|done|by left|].
  { intros v Ev. rewrite Ev in Hw. inversion Hw. }
  right. exists d'. assert (r = hashNode (map_hash keccak m)) as ->.
  { unfold ref_node in Ex. rewrite (map_hash_root _ _ _ HC). 
    destruct s; cbn [expandNode] in Ex; try done; try (by apply bind_Some in Ex as (? & _ & ?)). injection Ex as ->.
    destruct r; cbn [simplifyNode] in Es; try done; try (by apply bind_Some in Es as (? & _ & ?)). by injection Es as ->. }
  split; [done|]. split; [done|]. split; [done|]. split; [done|]. by eapply opened_stands.
Qed.

Lemma good_flag db t n h : TrieHash.good keccak db t n -> (cache n).1 = Some h -> keccak (enc n) = h.
Proof. destruct 1 as [| |? ? ? ? ? Hok|? ? ? ? Hok|]; try done; intros E; by apply Hok. Qed.

Lemma ready_opened d t m h : CRep d t m -> ready (db_fn d) true (root t) -> is_loaded (root t) = true -> cache (root t) = (Some h, false) -> opened d m.
Proof.
  intros HC Hr L Ec. destruct (ready_cases keccak _ _ _ Hr L) as [(h' & Ec' & Hg & Hw & Hs & Hf)|[Hc _]]; [|by destruct (Hc h)].
  assert (h' = map_hash keccak m) as ->.
  { rewrite (map_hash_root _ _ _ HC). assert (keccak (enc (root t)) = h') as <-; [|by destruct (root t)].
    apply (good_flag (db_fn d) true); [apply HC|by rewrite Ec']. }
  split; [by constructor|]. apply (rep_content (db_fn d) (db_fn d) t); [apply HC|by right|]. intros k v. symmetry. apply Hs.
Qed.

Lemma Trie_Commit_crep d t m : CRep d t m -> prefix_free m ->
  broken keccak \/ exists t' d', Trie_Commit keccak None t d = Some (map_hash keccak m, t', d') /\ CRep d' t' m /\ ext d d' /\ (m = ∅ \/ opened d' m).
Proof.
  intros HC Hm. destruct (Hash_crep d t m HC) as (t1 & Eh & HC1 & Hr & Hn1). pose proof (hrep_nil _ _ _ (hr_rep _ _ _ _ (cr_hrep _ _ _ HC))) as Hn.
  destruct (decide (root t = nilNode)) as [E0|E0].
  { right. exists t, d. unfold Trie_Commit. rewrite (map_hash_root _ _ _ HC), E0. split; [done|]. split; [done|]. split; [apply ext_refl|]. left. by apply Hn. }
  assert (root t1 <> nilNode) as E1 by (rewrite Hn1, <- Hn; done).
  assert (Trie_Commit keccak None t d = h ← Hash keccak t; if commitNeeded (root h.2) then r ← commit keccak None (root h.2) d true; newRoot ← as_hash r.1;
      Some (h.1, MkTrie (hashNode newRoot) (unhashed h.2), r.2) else Some (h.1, h.2, d)) as -> by (unfold Trie_Commit; by destruct (root t)).
  rewrite Eh. cbn [mbind option_bind fst snd]. destruct (commitNeeded (root t1)) eqn:Ec.
  - destruct (commit_root d t1 m HC1 Hr Hm E1) as [?|(d' & -> & Hd' & Hf' & He & Ho)]; [by left|]. right. eexists _, _. split; [done|].
    split; [apply opened_crep; try done; apply HC|]. split; [done|by right].
  - right. exists t1, d. split; [done|]. split; [done|]. split; [apply ext_refl|]. right. unfold commitNeeded in Ec.
    destruct (cache (root t1)) as [[h|] b] eqn:Ech; [|done]. cbn [fst snd] in Ec. subst b. eapply (ready_opened d t1 m h); try done. by destruct (root t1).
Qed.

(** Opening a committed trie by its root hash. *)
Lemma New_crep d t m : CRep d t m -> m = ∅ \/ opened d m -> broken keccak \/ exists t', New (db_fn d) (map_hash keccak m) = Ok t' /\ CRep d t' m.
Proof.
  intros HC Ho. pose proof HC as [[HR Hg Hsz] Hp Hd Hf]. unfold New. destruct (decide (m = ∅)) as [->|Hm].
  { right. rewrite (map_hash_root _ _ _ HC), (proj2 (hrep_nil _ _ _ HR) eq_refl). cbn [root_hash]. rewrite (bool_decide_eq_true_2 (emptyRoot = emptyRoot)), orb_true_r by done.
    eexists. split; [done|]. split; try done; [apply hrep_empty|constructor]. }
  destruct Ho as [?|Ho]; [done|]. pose proof (opened_crep d m 0 Ho Hsz Hd Hf) as HC'. destruct Ho as [Hop HoR]. inversion Hop as [| |? ? Hgh Hwh| |]; subst.
  inversion Hgh as [| | | |? ? n Hh En Hl Hgn Hok]; subst. destruct Hok as [Hk _].
  case_bool_decide as Hz; [left; right; exists (enc n); by rewrite Hk|]. case_bool_decide as He.
  { left. left. exists (enc n), [0x80]. split; [by apply enc_not_empty|]. rewrite Hk, He. symmetry. apply keccak_empty. }
  cbn [orb]. right. assert (resolveHash (db_fn d) (map_hash keccak m) [] = Ok n) as Er by (unfold resolveHash; by rewrite BytesToHash_id, En).
  rewrite Er. eexists. split; [done|]. destruct (primed_resolve (db_fn d) (do_normal _ _ Hd) true _ [] n Hop Er) as [Hpn _]. split; try done.
  inversion Hwh as [| | |? n' En' Hwn _]; subst. rewrite BytesToHash_id in En' by done. assert (n' = n) as -> by congruence. split; [|done|done].
  apply (rep_content (db_fn d) (db_fn d) (MkTrie (hashNode (map_hash keccak m)) 0)); [done|by right|]. intros k v. cbn [root]. apply holds_hash. by rewrite BytesToHash_id.
Qed.

(** ** More nodes in the database *)

Lemma settled_ext db db' t n : (forall h n, db h = Some n -> db' h = Some n) -> proper db n -> settled db t n -> settled db' t n.
Proof. intros He Hp [H1 H2]. split; [|done]. intros h Hh. eapply (ready_ext keccak db); eauto. Qed.

Lemma primed_ext db db' t n : (forall h n, db h = Some n -> db' h = Some n) -> proper db n \/ n = nilNode -> primed db t n -> primed db' t n.
Proof.
  intros He Hp H. revert Hp. induction H as [t|t v|t h Hg Hw|t K c f Hc IH Hs|t cs f Hc IH Hs]; intros Hp; [constructor|constructor| | |].
  - constructor; [by eapply good_ext|by eapply TrieCommit.wf_ext].
  - destruct Hp as [Hp|?]; [|done]. constructor; [|by eapply settled_ext]. apply IH. left. by apply proper_short in Hp as [? _].
  - destruct Hp as [Hp|?]; [|done]. constructor; [|by eapply settled_ext]. intros i c Hi. eapply IH; [done|]. destruct (decide (c = nilNode)); [by right|left].
    by eapply (proper_full _ _ _ Hp).
Qed.

Lemma rep_ext d d' t m : ext d d' -> Rep (db_fn d) t m -> Rep (db_fn d') t m.
Proof.
  intros He R. destruct (rep_ok _ _ _ R) as [Hn|Hw].
  - apply (rep_content (db_fn d) _ t); [done|by left|]. intros k v. rewrite Hn. by rewrite !holds_nil.
  - apply (rep_content (db_fn d) _ t); [done|right; by eapply TrieCommit.wf_ext|]. intros k v. symmetry. apply holds_ext; [done|by left].
Qed.

Lemma crep_ext d d' t m : CRep d t m -> ext d d' -> db_ok keccak d' -> flush_ok d' -> CRep d' t m.
Proof.
  intros [[HR Hg Hs] Hp Hd Hf] He Hd' Hf'. split; try done.
  - split; [by eapply rep_ext|by eapply good_ext|done].
  - eapply primed_ext; [done| |done]. destruct (rep_ok _ _ _ HR); [by right|left; by left].
Qed.

Lemma opened_ext d d' m : ext d d' -> opened d m -> opened d' m.
Proof.
  intros He [Hp HR]. split; [|by eapply rep_ext]. eapply primed_ext; [done| |done]. left. left. destruct (rep_ok _ _ _ HR) as [?|?]; done.
Qed.

(** A read fills the cache of clean nodes. *)
Definition read_cache (d : Database) (h : hash_t) : Database := match db_node d h with Some r => r.2 | None => d end.

Lemma read_cache_same d h : (forall x, db_fn (read_cache d h) x = db_fn d x) /\ diskdb (read_cache d h) = diskdb d /\
  (forall x e, clean_get (read_cache d h) x = Some e -> clean_get d x = Some e \/ diskdb d !! x = Some e) /\
  dirties (read_cache d h) = dirties d /\ oldest (read_cache d h) = oldest d /\ newest (read_cache d h) = newest d /\ preimages (read_cache d h) = preimages d.
Proof.
  unfold read_cache, db_node. destruct (clean_get d h) as [e|] eqn:Ec; [destruct (mustDecodeNode (Some h) e); cbn; split_and!; try done; by left|].
  destruct (dirties d !! h) as [c|] eqn:Ed; [destruct (cached_obj c h); cbn; split_and!; try done; by left|].
  destruct (diskdb d !! h) as [e|] eqn:Ek; [|cbn; split_and!; try done; by left].
  destruct (mustDecodeNode (Some h) e) as [n|] eqn:Em; [|cbn; split_and!; try done; by left]. cbn [mbind option_bind snd]. unfold clean_set. unfold clean_get in Ec.
  destruct (cleans d) as [m|] eqn:Em'; [|split_and!; try done; by left]. cbn in Ec. split; [|split; [done|split; [|done]]].
  - intros x. destruct (decide (length x = 32%nat)) as [Hl|Hl]; [|unfold db_fn; by rewrite (proj2 (Nat.eqb_neq _ _))].
    rewrite !db_fn_of by done. unfold clean_get. cbn [cleans dirties diskdb set_cleans]. rewrite Em'. cbn [mbind option_bind]. destruct (decide (x = h)) as [->|Hne].
    + by rewrite lookup_insert_eq, Ec, Ed, Ek.
    + by rewrite lookup_insert_ne.
  - intros x e'. unfold clean_get. cbn [cleans set_cleans]. rewrite Em'. cbn [mbind option_bind]. destruct (decide (x = h)) as [->|Hne].
    + rewrite lookup_insert_eq. intros [= <-]. by right.
    + rewrite lookup_insert_ne by done. by left.
Qed.

Lemma read_cache_ok d h : db_ok keccak d -> flush_ok d -> ext d (read_cache d h) /\ db_ok keccak (read_cache d h) /\ flush_ok (read_cache d h).
Proof.
  intros Hok (l & [F1 F2 F3 F4 F5 F6] & Ht). destruct (read_cache_same d h) as (E1 & E2 & E3 & E4 & E5 & E6 & E7).
  assert (forall x b, stored_bytes (read_cache d h) x b -> stored_bytes d x b) as Hs.
  { intros x b [Hb|[Hb|Hb]]; [|rewrite E2 in Hb; by right; left|rewrite E4 in Hb; by right; right]. destruct (E3 x b Hb); [by left|by right; left]. }
  split; [intros x n; by rewrite E1|]. split; [split|].
  - intros x b Hl Hz Hb%Hs. by apply (do_sound _ _ Hok).
  - intros x b n Hl Hb%Hs. by apply (do_bytes _ _ Hok).
  - rewrite E4. apply (do_dirty _ _ Hok).
  - rewrite E4. apply (do_meta _ _ Hok).
  - intros x [e [He|He]%E3]; rewrite E2; [apply (do_clean _ _ Hok)|]; by eexists.
  - rewrite E2. apply (do_closed _ _ Hok).
  - rewrite E7. apply (do_pre _ _ Hok).
  - exists l. split; [split; by rewrite ?E4, ?E5, ?E6|]. unfold topo. by rewrite E2, E4.
Qed.

(** ** Flushes *)

Lemma same_fn_ext d d' : same_fn d d' -> ext d d'.
Proof. intros H h n. by rewrite H. Qed.

Lemma map_hash_empty : map_hash keccak ∅ = emptyRoot.
Proof. by vm_compute. Qed.

(** The trie of a committed map goes to disk. *)
Lemma flush_root d m io fuel : db_ok keccak d -> flush_ok d -> m = ∅ \/ opened d m -> (2 + size (dirties d) <= fuel)%nat ->
  broken keccak \/ exists r d', db_Commit fuel io d (map_hash keccak m) = Some (r, d') /\ inv keccak d' /\ same_fn d d' /\
    (r = Ok tt -> m = ∅ \/ on_disk d' (map_hash keccak m)).
Proof.
  intros Hd Hf Ho Hfuel. assert (inv keccak d) as Hi by done. destruct Ho as [->|[Hp HR]].
  - rewrite map_hash_empty. destruct (empty_not_dirty keccak d Hi) as [?|Hn]; [by left|].
    destruct (db_Commit_missing keccak d emptyRoot io fuel Hi Hn) as [?|(r & d' & H1 & H2 & H3)]; [lia|by left|right]. exists r, d'. split_and!; try done. by left.
  - inversion Hp as [| |? ? Hg Hw| |]; subst. destruct (db_Commit_ok keccak d (map_hash keccak m) io fuel Hi Hw Hg Hfuel) as [?|(r & d' & H1 & H2 & H3 & H4)]; [by left|right].
    exists r, d'. split_and!; try done. auto.
Qed.

(** A trie whose root is on disk can be opened from the disk alone. *)
Lemma opened_disk d m : db_ok keccak d -> flush_ok d -> opened d m -> on_disk d (map_hash keccak m) -> broken keccak \/ opened (NewDatabase (diskdb d)) m.
Proof.
  intros Hd Hf [Hp HR] Hk. inversion Hp as [| |? ? Hg Hw| |]; subst. assert (length (map_hash keccak m) = 32%nat) as Hl by (by inversion Hg).
  destruct (kept_ok keccak d Hd _ Hw true Hg) as [?|(H1 & H2 & H3 & _)]; [cbn [refs]; rewrite BytesToHash_id by done; by intros x ->%list_elem_of_singleton|by left|].
  right. split; [by constructor|]. apply (rep_content (db_fn d) _ (MkTrie (hashNode (map_hash keccak m)) 0)); [done|by right|]. intros k v. symmetry. apply H3.
Qed.

(** ** Tries over one database *)

(** The open tries, the root hashes of the commits, the database.  A flush of
    a root or of the oldest nodes may fail: the outcomes of the writes are
    given. *)
Record trie_store := MkStore { tries : list Trie; roots : list hash_t; sdb : Database }.

Inductive store_op :=
| SOp (i : nat) (op : trie_op)
| SHash (i : nat)
| SCommit (i : nat)
| SOpen (j : nat)
| SRead (h : hash_t)
| SFlush (j : nat) (io : list bool)
| SCap (limit : Z) (io : list bool).

Inductive store_out := SOut (o : trie_out) | SRoot (h : hash_t) | SDone | SError (e : trie_error).

Definition store_step (s : trie_store) (op : store_op) : option (trie_store * store_out) :=
  match op with
  | SOp i op =>
    t ← tries s !! i; r ← trie_step (db_fn (sdb s)) t op;
    Some (MkStore (<[i := r.1]> (tries s)) (roots s) (sdb s), SOut r.2)
  | SHash i =>
    t ← tries s !! i; r ← Hash keccak t;
    Some (MkStore (<[i := r.2]> (tries s)) (roots s) (sdb s), SRoot r.1)
  | SCommit i =>
    t ← tries s !! i; r ← Trie_Commit keccak None t (sdb s);
    Some (MkStore (<[i := r.1.2]> (tries s)) (roots s ++ [r.1.1]) r.2, SRoot r.1.1)
  | SOpen j =>
    h ← roots s !! j;
    match New (db_fn (sdb s)) h with
    | Ok t => Some (MkStore (tries s ++ [t]) (roots s) (sdb s), SDone)
    | Err e => Some (s, SError e)
    end
  | SRead h => Some (MkStore (tries s) (roots s) (read_cache (sdb s) h), SDone)
  | SFlush j io =>
    h ← roots s !! j; r ← db_Commit (2 + size (dirties (sdb s))) io (sdb s) h;
    Some (MkStore (tries s) (roots s) r.2, SDone)
  | SCap limit io =>
    r ← Cap io (sdb s) limit;
    Some (MkStore (tries s) (roots s) r.2, SDone)
  end.

Fixpoint store_run (s : trie_store) (ops : list store_op) : option (trie_store * list store_out) :=
  match ops with
  | [] => Some (s, [])
  | op :: ops => r ← store_step s op; q ← store_run r.1 ops; Some (q.1, r.2 :: q.2)
  end.

(** The specification: the current maps, and the maps that were committed. *)
Record maps := MkMaps { live : list kvmap; past : list kvmap }.

Definition maps_step (s : maps) (op : store_op) : option (maps * store_out) :=
  match op with
  | SOp i op => m ← live s !! i; Some (MkMaps (<[i := (spec_step m op).1]> (live s)) (past s), SOut (spec_step m op).2)
  | SHash i => m ← live s !! i; Some (s, SRoot (map_hash keccak m))
  | SCommit i => m ← live s !! i; Some (MkMaps (live s) (past s ++ [m]), SRoot (map_hash keccak m))
  | SOpen j => m ← past s !! j; Some (MkMaps (live s ++ [m]) (past s), SDone)
  | SFlush j _ => m ← past s !! j; Some (s, SDone)
  | SRead _ | SCap _ _ => Some (s, SDone)
  end.

Fixpoint maps_run (s : maps) (ops : list store_op) : option (maps * list store_out) :=
  match ops with
  | [] => Some (s, [])
  | op :: ops => r ← maps_step s op; q ← maps_run r.1 ops; Some (q.1, r.2 :: q.2)
  end.

Section keys.
  (** The keys in use: none is a prefix of another. *)
  Context (P : list Z -> Prop) (HP : forall k k', P k -> P k' -> k `prefix_of` k' -> k = k').

Definition keys_in (m : kvmap) : Prop := forall k v, m !! k = Some v -> P k.

Definition sop_ok (op : store_op) : Prop :=
  match op with
  | SOp _ op => op_ok op /\ op_sized op /\ match op with OUpdate k _ => P k | _ => True end
  | _ => True
  end.

Record SRep (s : trie_store) (q : maps) : Prop := MkSRep {
  sr_tries : Forall2 (fun t m => CRep (sdb s) t m /\ keys_in m) (tries s) (live q);
  sr_roots : Forall2 (fun h m => h = map_hash keccak m /\ (m = ∅ \/ opened (sdb s) m) /\ map_sized m /\ keys_in m) (roots s) (past q);
  sr_db : db_ok keccak (sdb s);
  sr_flush : flush_ok (sdb s);
}.

Lemma keys_prefix_free m : keys_in m -> prefix_free m.
Proof. intros Hm k k' v v' H1 H2 Hp. apply HP; eauto. Qed.

Lemma spec_keys m op : keys_in m -> match op with OUpdate k _ => P k | _ => True end -> keys_in (spec_step m op).1.
Proof.
  intros Hm Ho. assert (forall k, keys_in (base.delete k m)) as Hd by (intros k k' v' [_ H]%lookup_delete_Some; eauto).
  destruct op as [k|k [|b v]|k]; cbn [spec_step fst]; auto. intros k' v' [[<- <-]|[_ H]]%lookup_insert_Some; [done|eauto].
Qed.

Lemma srep_ext s q d' : SRep s q -> ext (sdb s) d' -> db_ok keccak d' -> flush_ok d' ->
  SRep (MkStore (tries s) (roots s) d') q.
Proof.
  intros [H1 H2 H3 H4] He Hd Hf. split; try done; cbn [tries roots sdb].
  - eapply Forall2_impl; [exact H1|]. intros t m [? ?]. split; [by eapply crep_ext|done].
  - eapply Forall2_impl; [exact H2|]. intros h m (? & Ho & ? & ?). split_and!; try done. destruct Ho; [by left|right; by eapply opened_ext].
Qed.

Lemma srep_set s q i t m : SRep s q -> CRep (sdb s) t m -> keys_in m -> SRep (MkStore (<[i := t]> (tries s)) (roots s) (sdb s)) (MkMaps (<[i := m]> (live q)) (past q)).
Proof. intros [H1 H2 H3 H4] HC Hk. split; try done. by apply Forall2_insert. Qed.

Lemma store_step_ok s q op q' o : SRep s q -> sop_ok op -> maps_step q op = Some (q', o) ->
  broken keccak \/ exists s', store_step s op = Some (s', o) /\ SRep s' q'.
Proof.
  intros HS Hop E. pose proof HS as [H1 H2 H3 H4]. destruct op as [i op|i|i|j|h|j io|limit io]; cbn [maps_step] in E.
  - apply bind_Some in E as (m & Em & [= <- <-]). destruct (Forall2_lookup_r _ _ _ _ _ H1 Em) as (t & Et & HC & Hk). destruct Hop as (Ho & Hs & HPk).
    destruct (trie_step_crep _ _ _ _ HC Ho Hs) as (t' & E' & HC'). right. cbn [store_step]. rewrite Et. cbn [mbind option_bind]. rewrite E'.
    eexists. split; [done|]. apply srep_set; [done|done|by apply spec_keys].
  - apply bind_Some in E as (m & Em & [= <- <-]). destruct (Forall2_lookup_r _ _ _ _ _ H1 Em) as (t & Et & HC & Hk).
    destruct (Hash_crep _ _ _ HC) as (t' & E' & HC' & _). right. cbn [store_step]. rewrite Et. cbn [mbind option_bind]. rewrite E'.
    eexists. split; [done|]. pose proof (srep_set s q i t' m HS HC' Hk) as Hr. rewrite (list_insert_id (live q)) in Hr by done. by destruct q.
  - apply bind_Some in E as (m & Em & [= <- <-]). destruct (Forall2_lookup_r _ _ _ _ _ H1 Em) as (t & Et & HC & Hk).
    destruct (Trie_Commit_crep _ _ _ HC (keys_prefix_free m Hk)) as [?|(t' & d' & E' & HC' & He & Ho)]; [by left|]. right.
    cbn [store_step]. rewrite Et. cbn [mbind option_bind]. rewrite E'. eexists. split; [done|]. cbn [mbind option_bind fst snd].
    pose proof (srep_ext s q d' HS He (cr_db _ _ _ HC') (cr_flush _ _ _ HC')) as HS'.
    pose proof (srep_set _ q i t' m HS' HC' Hk) as [H1' H2' H3' H4']. rewrite (list_insert_id (live q)) in H1' by done. cbn [tries roots sdb live past] in *.
    split; try done. cbn [roots past sdb]. apply Forall2_app; [done|]. constructor; [|constructor]. split_and!; try done. apply HC.
  - apply bind_Some in E as (m & Em & [= <- <-]). destruct (Forall2_lookup_r _ _ _ _ _ H2 Em) as (h & Eh & -> & Ho & Hs & Hk).
    assert (exists t0, CRep (sdb s) t0 m) as [t0 HC0].
    { destruct Ho as [->|Ho]; [exists (MkTrie nilNode 0); split; try done; [apply hrep_empty|constructor]|]. eexists. by apply (opened_crep _ _ 0). }
    destruct (New_crep _ _ _ HC0 Ho) as [?|(t & En & HC)]; [by left|]. right. cbn [store_step]. rewrite Eh. cbn [mbind option_bind]. rewrite En.
    eexists. split; [done|]. split; try done. cbn [tries live sdb]. apply Forall2_app; [done|]. by constructor.
  - injection E as <- <-. right. eexists. split; [done|]. destruct (read_cache_ok (sdb s) h H3 H4) as (He & Hd & Hf). by apply srep_ext.
  - apply bind_Some in E as (m & Em & [= <- <-]). destruct (Forall2_lookup_r _ _ _ _ _ H2 Em) as (h & Eh & -> & Ho & _).
    destruct (flush_root (sdb s) m io (2 + size (dirties (sdb s)))) as [?|(r & d' & Ec & [Hd Hf] & Hs & _)]; try done; [by left|].
    right. cbn [store_step]. rewrite Eh. cbn [mbind option_bind]. rewrite Ec. eexists. split; [done|]. apply srep_ext; try done. by apply same_fn_ext.
  - injection E as <- <-. destruct (Cap_ok keccak (sdb s) io limit) as [?|(r & d' & Ec & [Hd Hf] & Hs)]; [done|by left|].
    right. cbn [store_step]. rewrite Ec. eexists. split; [done|]. apply srep_ext; try done. by apply same_fn_ext.
Qed.


End keys.
End durable.

(** ** Values at a branch *)

(** A trie of the given entries is committed and flushed to disk; the value of
    a key, read through the database in memory and from the disk alone. *)
Definition reload (keccak : list Z -> list Z) (kvs : list (list Z * list Z)) (key : list Z)
  : option (res trie_error (option (list Z)) * res trie_error (option (list Z))) :=
  r ← trie_run (fun _ => None) (MkTrie nilNode 0) (updates kvs);
  c ← Trie_Commit keccak None r.1 (NewDatabase ∅);
  f ← db_Commit 100 [] c.2 c.1.1;
  let disk := NewDatabase (diskdb f.2) in
  match New (db_fn c.2) c.1.1, New (db_fn disk) c.1.1 with
  | Ok t, Ok t' => g ← TryGet (db_fn c.2) t key; g' ← TryGet (db_fn disk) t' key; Some (g.1, g'.1)
  | _, _ => None
  end.

(** The value of a key that is a prefix of another is the value of a branch. *)
Definition branch_entries : list (list Z * list Z) := [([1], replicate 40 8); ([1; 2], [9])].


(** ** Witness *)

Definition empty_store : trie_store := MkStore [MkTrie nilNode 0] [] (NewDatabase ∅).
Definition empty_maps : maps := MkMaps [∅] [].

Lemma empty_db_ok keccak : db_ok keccak (NewDatabase ∅).
Proof.
  assert (forall h b, stored_bytes (NewDatabase ∅) h b -> h = zero_hash /\ b = [0xC0]) as Hs.
  { intros h b [?|[?|(r & ch & Hd & Hr)]]; [done|done|]. rewrite fresh_core in Hd. destruct (decide (h = zero_hash)); [|done]. injection Hd as <- <-. vm_compute in Hr. by injection Hr as <-. }
  split; try done.
  - intros h b _ Hz [? _]%Hs. done.
  - intros h b n _ [-> ->]%Hs. done.
  - intros h r ch Hz. by rewrite fresh_core, decide_False.
Qed.

Lemma empty_srep keccak `{!KeccakLaws keccak} P : SRep keccak P empty_store empty_maps.
Proof.
  split; cbn [sdb tries live roots past empty_store empty_maps]; [|constructor|apply empty_db_ok|apply fresh_flush_ok].
  constructor; [|constructor]. split; [|by intros k v]. split; [apply hrep_empty|constructor|apply empty_db_ok|apply fresh_flush_ok].
Qed.

Definition demo_sops : list store_op :=
  [SOp 0 (OUpdate [1] (replicate 40 7)); SOp 0 (OUpdate [2] [5]); SCommit 0; SFlush 0 [false]; SFlush 0 []; SOp 0 (ODelete [1]); SCommit 0; SCap 0 []; SOpen 0; SOp 1 (OGet [1]); SOp 0 (OGet [1]); SHash 1].

Lemma demo_sops_ok : Forall (sop_ok (fun k => length k = 1%nat)) demo_sops.
Proof. repeat constructor; try done; cbn; unfold byte_ok, max_len; lia. Qed.

Lemma one_byte_keys (k k' : list Z) : length k = 1%nat -> length k' = 1%nat -> k `prefix_of` k' -> k = k'.
Proof. intros H1 H2 [l ->]. rewrite length_app in H2. destruct l; [by rewrite app_nil_r|cbn in H2; lia]. Qed.

Lemma demo_outs : drop 9 <$> (snd <$> maps_run demo_keccak empty_maps demo_sops) =
  Some [SOut (OutValue (Some (replicate 40 7))); SOut (OutValue None); SRoot (map_hash demo_keccak {[ [1] := replicate 40 7; [2] := [5] ]})].
Proof. vm_compute. reflexivity. Qed.


(** A database with one node on disk. *)
Definition leaf_bytes : list Z := [0xC4; 0x82; 0x20; 1; 5].
Definition leaf_db : Database := NewDatabase {[ stored_hash := leaf_bytes ]}.
Definition leaf_map : kvmap := {[ [1] := [5] ]}.
Definition leaf_store : trie_store := MkStore [] [stored_hash] leaf_db.

Lemma leaf_decode : decode_opt stored_hash leaf_bytes = Some stored_leaf.
Proof. vm_compute. reflexivity. Qed.

Lemma leaf_bytes_at h b : stored_bytes leaf_db h b -> (h = stored_hash /\ b = leaf_bytes) \/ h = zero_hash.
Proof.
  intros [?|[H|(r & ch & Hd & _)]]; [done| |].
  - cbn [diskdb leaf_db NewDatabase NewDatabaseWithCache] in H. apply lookup_singleton_Some in H as [<- <-]. by left.
  - unfold leaf_db in Hd. rewrite fresh_core in Hd. destruct (decide (h = zero_hash)); [by right|done].
Qed.

Lemma leaf_fn : db_fn leaf_db stored_hash = Some stored_leaf.
Proof. vm_compute. reflexivity. Qed.

Lemma leaf_db_ok : db_ok demo_keccak leaf_db.
Proof.
  assert (forall h b n, stored_bytes leaf_db h b -> decode_opt h b = Some n -> n = stored_leaf /\ h = stored_hash) as Hn.
  { intros h b n Hb. destruct (leaf_bytes_at h b Hb) as [[-> ->]| ->]; [rewrite leaf_decode; by intros [= <-]|].
    destruct Hb as [?|[?|(r & ch & Hd & Hr)]]; [done|done|]. vm_compute in Hd. injection Hd as <- <-. vm_compute in Hr. injection Hr as <-. done. }
  split; try done.
  - intros h b _ Hz [[-> ->]|?]%leaf_bytes_at; [by vm_compute|done].
  - intros h b n _ Hb Hd. destruct (Hn h b n Hb Hd) as [-> ->]. vm_compute. reflexivity.
  - intros h r ch Hz. unfold leaf_db. by rewrite fresh_core, decide_False.
  - by intros h [? ?].
  - intros h b n _ Hz Hb Hd x. destruct (Hn h b n) as [-> _]; [right; by left|done|]. by intros ?%elem_of_nil.
Qed.

Lemma leaf_srep : SRep demo_keccak (fun k => length k = 1%nat) leaf_store (MkMaps [] [leaf_map]).
Proof.
  split; cbn [sdb tries live roots past leaf_store]; [constructor| |apply leaf_db_ok|apply fresh_flush_ok]. constructor; [|constructor].
  assert (forall h n, stored_db h = Some n -> db_fn leaf_db h = Some n) as He.
  { intros h n. unfold stored_db. case_bool_decide as E; [|done]. rewrite E, leaf_fn. done. }
  assert (map_hash demo_keccak leaf_map = stored_hash) as Eh by (vm_compute; reflexivity).
  pose proof stored_hrep as [R Hg Hs]. assert (wf stored_db (hashNode stored_hash)) as Hw by (by destruct (rep_ok _ _ _ R)).
  assert (wf (db_fn leaf_db) (hashNode stored_hash)) as Hw' by (by eapply TrieCommit.wf_ext).
  split; [by rewrite Eh|]. split; [right; split; rewrite Eh; [constructor; [by eapply good_ext|done]|]|].
  - apply (rep_content stored_db (db_fn leaf_db) stored_trie); [done|by right|]. intros k v. symmetry. apply holds_ext; [done|by left].
  - split; [done|]. intros k v Hk. unfold leaf_map in Hk. by apply lookup_singleton_Some in Hk as [<- _].
Qed.

