(* ===== verification/SecureTrie.v ===== *)
(** * Tries with hashed keys ([src/trie/secure_trie.go])

    A secure trie stores every value under the Keccak hash of its key, and
    remembers the keys: the preimages go to the database with a commit.  The
    hashed keys all have 32 bytes, so none is a prefix of another, and what
    holds of tries with such keys holds of every secure trie. *)

From S2P Require Import Prelude Bytes Rlp Trie TrieKeys TrieMap TrieRefine TrieStore TrieHash TrieRoot TrieProof TrieDb TrieFlush TrieCommit TrieDisk TrieDurable.
Local Open Scope Z_scope.

(** ** The code *)

(** [owned]: [secKeyCacheOwner] is the trie itself. *)
Record SecureTrie := MkSecure { strie : Trie; secKeyCache : gmap (list Z) (list Z); owned : bool }.

Definition getSecKeyCache (t : SecureTrie) : SecureTrie := if owned t then t else MkSecure (strie t) ∅ true.

Section secure.
  Context (keccak : list Z -> list Z).

Definition hashKey (key : list Z) : list Z := keccak key.

Definition NewSecure (d : Database) (root : hash_t) : res trie_error SecureTrie :=
  match New (db_fn d) root with Ok t => Ok (MkSecure t ∅ false) | Err e => Err e end.

Definition secure_TryGet (d : Database) (t : SecureTrie) (key : list Z) : option (res trie_error (option (list Z)) * SecureTrie) :=
  r ← TryGet (db_fn d) (strie t) (hashKey key);
  Some (r.1, MkSecure r.2 (secKeyCache t) (owned t)).

Definition secure_TryUpdate (d : Database) (t : SecureTrie) (key value : list Z) : option (res trie_error unit * SecureTrie) :=
  let hk := hashKey key in
  r ← TryUpdate (db_fn d) (strie t) hk value;
  let t := MkSecure r.2 (secKeyCache t) (owned t) in
  match r.1 with
  | Err e => Some (Err e, t)
  | Ok _ => let t := getSecKeyCache t in Some (Ok tt, MkSecure (strie t) (<[hk := key]> (secKeyCache t)) (owned t))
  end.

Definition secure_TryDelete (d : Database) (t : SecureTrie) (key : list Z) : option (res trie_error unit * SecureTrie) :=
  let hk := hashKey key in
  let t := getSecKeyCache t in
  r ← TryDelete (db_fn d) (strie t) hk;
  Some (r.1, MkSecure r.2 (base.delete hk (secKeyCache t)) (owned t)).

Definition GetKey (d : Database) (t : SecureTrie) (shaKey : list Z) : option (list Z) * SecureTrie :=
  let t := getSecKeyCache t in
  match secKeyCache t !! shaKey with
  | Some key => (Some key, t)
  | None => (preimage d (BytesToHash shaKey), t)
  end.

(** The preimages are inserted in the order of the enumeration of the map. *)
Definition insert_preimages (d : Database) (ps : list (list Z * list Z)) : Database :=
  foldl (fun d p => insertPreimage d (BytesToHash p.1) p.2) d ps.

Definition secure_Commit (onleaf : option (list Z -> hash_t -> Database -> option Database)) (d : Database) (t : SecureTrie) : option (hash_t * SecureTrie * Database) :=
  let t := getSecKeyCache t in
  let '(t, d) :=
    if (0 <? size (secKeyCache t))%nat then (MkSecure (strie t) ∅ (owned t), insert_preimages d (map_to_list (secKeyCache t))) else (t, d) in
  r ← Trie_Commit keccak onleaf (strie t) d;
  Some (r.1.1, MkSecure r.1.2 (secKeyCache t) (owned t), r.2).

Definition secure_Hash (t : SecureTrie) : option (hash_t * SecureTrie) :=
  r ← Hash keccak (strie t); Some (r.1, MkSecure r.2 (secKeyCache t) (owned t)).

(** The copy shares the cache, but does not own it. *)
Definition Copy (t : SecureTrie) : SecureTrie := MkSecure (strie t) (secKeyCache t) false.
End secure.

(** ** What a commit leaves alone *)

Section rest.
  Context (keccak : list Z -> list Z).

Lemma same_rest_trans d1 d2 d3 : same_rest d1 d2 -> same_rest d2 d3 -> same_rest d1 d3.
Proof. intros (H1 & H2 & H3 & H4) (G1 & G2 & G3 & G4). split_and!; congruence. Qed.

Lemma insert_rest d h size n d' : db_insert d h size n = Some d' -> same_rest d d'.
Proof.
  unfold db_insert. destruct (dirties d !! h); [by intros [= <-]|]. intros (sn & _ & E)%bind_Some. unfold db_insert_raw in E.
  apply bind_Some in E as (cs & _ & E). apply bind_Some in E as (d1 & E1 & [= <-]). unfold link_newest in E1. case_bool_decide; [by injection E1 as <-|].
  apply bind_Some in E1 as (d2 & E2 & [= <-]). unfold upd_dirty in E2. apply bind_Some in E2 as (n2 & _ & [= <-]). done.
Qed.

Lemma store_rest n d t v r d' : store keccak None n d t v = Some (r, d') -> same_rest d d'.
Proof.
  unfold store. destruct (cache n).1 as [h|].
  - intros (sz & _ & (d1 & E & [= _ <-])%bind_Some)%bind_Some. by eapply insert_rest.
  - destruct n; try (by intros [= _ <-]). intros (tmp & _ & E)%bind_Some. destruct (_ && _); [by injection E as _ <-|].
    apply bind_Some in E as (d1 & E & [= _ <-]). by eapply insert_rest.
Qed.

Definition leaves_rest (n : node) : Prop := forall d t r d', commit keccak None n d t = Some (r, d') -> same_rest d d'.

Lemma children_rest cs : Forall leaves_rest cs -> forall d r d', commitChildren (fun c d => commit keccak None c d false) cs d = Some (r, d') -> same_rest d d'.
Proof.
  induction 1 as [|c cs Hc _ IH]; intros d r d'; [by intros [= _ <-]|]. cbn [commitChildren].
  assert (forall o, (x ← (if o : bool then Some (nilNode, d) else commit keccak None c d false); y ← commitChildren (fun c d => commit keccak None c d false) cs x.2;
    Some (x.1 :: y.1.1, (is_value_node x.1 || y.1.2), y.2)) = Some (r, d') -> same_rest d d') as Hgen.
  { intros [] ([x d1] & E1 & ([y d2] & E2 & [= _ <-])%bind_Some)%bind_Some; [injection E1 as _ <-; by eapply IH|]. eapply same_rest_trans; [by eapply Hc|by eapply IH]. }
  intros E. destruct c; [apply (Hgen true); exact E|apply (Hgen false); exact E..].
Qed.

Lemma commit_rest n : leaves_rest n.
Proof.
  assert (forall n, (forall h, cache n <> (Some h, false)) \/ exists h, cache n = (Some h, false)) as Hc.
  { intros m. destruct (cache m) as [[h|] []]; (left; done) || (right; by eexists) || (left; by intros ? [=]). }
  induction n as [|v|h|K c f IH|cs f IH] using node_tree_ind; intros d t r d'; [done|apply store_rest|by intros [= _ <-]| |].
  - destruct (Hc (shortNode K c f)) as [Hd|[h Hd]]; [rewrite commit_dirty by done|rewrite (commit_clean_eq keccak _ h) by done; by intros [= _ <-]].
    intros ([c1 d1] & E1 & (key & _ & ([x d2] & E2 & [= _ <-])%bind_Some)%bind_Some)%bind_Some. apply store_rest in E2.
    eapply same_rest_trans; [|exact E2]. destruct c; try (by eapply IH). by injection E1 as _ <-.
  - destruct (Hc (fullNode cs f)) as [Hd|[h Hd]]; [rewrite commit_dirty by done|rewrite (commit_clean_eq keccak _ h) by done; by intros [= _ <-]].
    intros ([c1 d1] & E1 & ([x d2] & E2 & [= _ <-])%bind_Some)%bind_Some. apply store_rest in E2. eapply same_rest_trans; [|exact E2]. by eapply children_rest.
Qed.

Lemma Trie_Commit_rest t d h t' d' : Trie_Commit keccak None t d = Some (h, t', d') -> same_rest d d'.
Proof.
  unfold Trie_Commit. destruct (root t) eqn:E; [by intros [= _ _ <-]|..]; intros ([h1 t1] & _ & H)%bind_Some; cbn [fst snd] in H;
    (destruct (commitNeeded (root t1)); [|by injection H as _ _ <-]); apply bind_Some in H as ([r d1] & H & (x & _ & [= _ _ <-])%bind_Some); by eapply commit_rest.
Qed.
End rest.

(** ** Preimages *)

Section preimages.
  Context (keccak : list Z -> list Z) `{!KeccakLaws keccak}.
  Abbreviation CRep := (TrieDurable.CRep keccak).
  Abbreviation broken := (TrieCommit.broken keccak).

(** The database's preimages are preimages. *)
Record pre_ok (d : Database) : Prop := MkPreOk {
  po_mem : forall h p, preimages d !! h = Some p -> keccak p = h;
  po_disk : forall h p, length h = 32%nat -> diskdb d !! secureKey h = Some p -> keccak p = h;
}.

Lemma preimage_ok d h p : pre_ok d -> length h = 32%nat -> preimage d h = Some p -> keccak p = h.
Proof. intros [H1 H2] Hl. unfold preimage. destruct (preimages d !! h) as [q|] eqn:E; [intros [= <-]; by apply H1|by apply H2]. Qed.

Lemma insertPreimage_same d h p : same_fn d (insertPreimage d h p) /\ dirties (insertPreimage d h p) = dirties d /\ cleans (insertPreimage d h p) = cleans d /\
  diskdb (insertPreimage d h p) = diskdb d /\ oldest (insertPreimage d h p) = oldest d /\ newest (insertPreimage d h p) = newest d.
Proof. unfold insertPreimage. destruct (preimages d !! h); [done|]. split; [by apply same_fn_parts|done]. Qed.

Lemma insertPreimage_get d h p x : preimages (insertPreimage d h p) !! x = if decide (x = h) then Some (default p (preimages d !! h)) else preimages d !! x.
Proof.
  unfold insertPreimage. destruct (preimages d !! h) as [q|] eqn:E; cbn [preimages set_preimages]; destruct (decide (x = h)) as [->|Hne]; try done.
  - by rewrite lookup_insert_eq.
  - by rewrite lookup_insert_ne.
Qed.

Lemma insertPreimage_crep d t m h p : CRep d t m -> length h = 32%nat -> CRep (insertPreimage d h p) t m.
Proof.
  intros HC Hl. destruct (insertPreimage_same d h p) as (E1 & E2 & E3 & E4 & E5 & E6). eapply crep_ext; [done|by apply same_fn_ext| |].
  - destruct (cr_db _ _ _ _ HC) as [H1 H2 H3 H4 H5 H6 H7]. assert (forall x b, stored_bytes (insertPreimage d h p) x b -> stored_bytes d x b) as Hs.
    { intros x b. unfold stored_bytes, clean_get. by rewrite E2, E3, E4. }
    split; unfold clean_get; rewrite ?E2, ?E3, ?E4; try done; [intros x b ? ? ?%Hs; by apply H1|intros x b n ? ?%Hs; by apply H2|].
    intros x q. rewrite insertPreimage_get. destruct (decide (x = h)) as [->|]; [done|apply H7].
  - destruct (cr_flush _ _ _ _ HC) as (l & Hfl & Ht). exists l. split; [by apply (flush_list_same d)|]. unfold topo. by rewrite E2, E4.
Qed.

(** The pairs of a key and its hash. *)
Definition hashed_pairs (ps : list (list Z * list Z)) : Prop := Forall (fun p => keccak p.2 = p.1) ps.

Lemma insert_preimages_ok ps : forall d t m, CRep d t m -> pre_ok d -> hashed_pairs ps ->
  CRep (insert_preimages d ps) t m /\ pre_ok (insert_preimages d ps) /\
  (forall x, is_Some (preimages d !! x) \/ x ∈ ps.*1 -> is_Some (preimages (insert_preimages d ps) !! x)) /\ diskdb (insert_preimages d ps) = diskdb d.
Proof.
  induction ps as [|[hk k] ps IH]; intros d t m HC Hp Hps; [split; [done|]; split; [done|]; split; [|done]; intros x [?|Hx]; [done|by apply elem_of_nil in Hx]|].
  apply Forall_cons in Hps as [Hk Hps]. cbn in Hk. assert (length hk = 32%nat) as Hl by (rewrite <- Hk; apply keccak_length).
  unfold insert_preimages. cbn [foldl fst snd]. rewrite BytesToHash_id by done. fold (insert_preimages (insertPreimage d hk k) ps). set (d1 := insertPreimage d hk k).
  destruct (insertPreimage_same d hk k) as (_ & _ & _ & E4 & _). destruct (IH d1 t m) as (H1 & H2 & H3 & H4); [by apply insertPreimage_crep| |done|].
  - split; [|unfold d1; rewrite E4; apply Hp]. intros x q. unfold d1. rewrite insertPreimage_get. destruct (decide (x = hk)) as [->|]; [|apply Hp].
    intros [= <-]. destruct (preimages d !! hk) as [q|] eqn:Eq; [by apply Hp|done].
  - split; [done|]. split; [done|]. split; [|by rewrite H4]. intros x Hx. apply H3. unfold d1. rewrite insertPreimage_get. destruct (decide (x = hk)) as [->|Hne]; [left; by eexists|].
    destruct Hx as [?|[->|?]%elem_of_cons]; [by left|done|by right].
Qed.

(** ** Hashed maps *)

Definition inj_on (M : kvmap) : Prop := forall k1 k2 v1 v2, M !! k1 = Some v1 -> M !! k2 = Some v2 -> keccak k1 = keccak k2 -> k1 = k2.

(** The map with its keys hashed. *)
Definition hmap (M : kvmap) : kvmap := list_to_map ((fun p => (keccak p.1, p.2)) <$> map_to_list M).

Lemma hmap_lookup M h v : inj_on M -> hmap M !! h = Some v <-> exists k, M !! k = Some v /\ keccak k = h.
Proof.
  intros Hi. unfold hmap. rewrite <- elem_of_list_to_map.
  - rewrite list_elem_of_fmap. split.
    + intros ([k w] & [= -> ->] & Hk%elem_of_map_to_list). eauto.
    + intros (k & Hk & <-). exists (k, v). split; [done|]. by apply elem_of_map_to_list.
  - rewrite <- list_fmap_compose. apply NoDup_fmap_2_strong; [|apply NoDup_map_to_list].
    intros [k1 v1] [k2 v2] H1%elem_of_map_to_list H2%elem_of_map_to_list E. cbn in E. assert (k1 = k2) as <- by eauto. congruence.
Qed.

Lemma hmap_get M k : inj_on M -> broken \/ hmap M !! keccak k = M !! k.
Proof.
  intros Hi. destruct (hmap M !! keccak k) as [v|] eqn:E.
  - apply hmap_lookup in E as (k' & Hk' & E); [|done]. destruct (same_hash keccak k' k E) as [?|<-]; [by left|right]. by rewrite Hk'.
  - right. destruct (M !! k) as [v|] eqn:Ek; [|done]. assert (hmap M !! keccak k = Some v) as E' by (apply hmap_lookup; eauto). congruence.
Qed.

Lemma key_unique M k : inj_on M -> broken \/ forall k' w, M !! k' = Some w -> keccak k' = keccak k -> k' = k.
Proof.
  intros Hi. destruct (hmap M !! keccak k) as [w|] eqn:E.
  - apply hmap_lookup in E as (k' & Hk' & E); [|done]. destruct (same_hash keccak k' k E) as [?|<-]; [by left|right]. intros k2 w2 H2 E2. eapply Hi; eauto.
  - right. intros k' w Hk' E'. assert (hmap M !! keccak k = Some w) as E2 by (apply hmap_lookup; eauto). congruence.
Qed.

Lemma hmap_insert M k v : inj_on M -> broken \/ (inj_on (<[k := v]> M) /\ hmap (<[k := v]> M) = <[keccak k := v]> (hmap M)).
Proof.
  intros Hi. destruct (key_unique M k Hi) as [?|Hu]; [by left|].
  assert (inj_on (<[k := v]> M)) as Hi'.
  { intros k1 k2 v1 v2 [[<- <-]|[N1 H1]]%lookup_insert_Some [[<- <-]|[N2 H2]]%lookup_insert_Some E; [done|symmetry; eauto|eauto|eauto]. }
  right. split; [done|]. apply map_eq. intros h. apply option_eq. intros w. rewrite hmap_lookup by done. rewrite lookup_insert_Some, hmap_lookup by done. split.
  - intros (k' & [[<- <-]|[Hne Hk']]%lookup_insert_Some & <-); [by left|]. right. split; [intros E; apply Hne; symmetry; eapply Hu; [exact Hk'|by rewrite E]|eauto].
  - intros [[<- <-]|[Hne (k' & Hk' & <-)]]; [exists k; by rewrite lookup_insert_eq|]. exists k'. rewrite lookup_insert_ne by (by intros ->). done.
Qed.

Lemma hmap_delete M k : inj_on M -> broken \/ (inj_on (base.delete k M) /\ hmap (base.delete k M) = base.delete (keccak k) (hmap M)).
Proof.
  intros Hi. destruct (key_unique M k Hi) as [?|Hu]; [by left|]. right.
  assert (inj_on (base.delete k M)) as Hid by (intros k1 k2 v1 v2 [_ H1]%lookup_delete_Some [_ H2]%lookup_delete_Some; eauto). split; [done|].
  apply map_eq. intros h. apply option_eq. intros w. rewrite hmap_lookup by done. rewrite lookup_delete_Some, hmap_lookup by done. split.
  - intros (k' & [Hne Hk']%lookup_delete_Some & <-). split; [|eauto]. intros E. apply Hne. symmetry. by eapply Hu.
  - intros [Hne (k' & Hk' & <-)]. exists k'. split; [|done]. apply lookup_delete_Some. split; [by intros ->|done].
Qed.

Lemma hmap_prefix_free M : inj_on M -> prefix_free (hmap M).
Proof.
  intros Hi h h' v v' (k & _ & <-)%hmap_lookup (k' & _ & <-)%hmap_lookup [l E]; try done. assert (l = []) as ->; [|by rewrite app_nil_r in E].
  apply length_zero_iff_nil. apply (f_equal length) in E. rewrite length_app, !keccak_length in E. lia.
Qed.

(** ** The refinement *)

Inductive secure_op := KGet (k : list Z) | KUpdate (k v : list Z) | KDelete (k : list Z) | KName (k : list Z) | KHash | KCommit.
Inductive secure_out := KValue (v : option (list Z)) | KDone | KError (e : trie_error) | KKey (k : option (list Z)) | KRoot (h : hash_t).

Definition secure_step (s : SecureTrie * Database) (op : secure_op) : option (SecureTrie * Database * secure_out) :=
  let '(t, d) := s in
  let done := fun r : res trie_error unit => match r with Ok _ => KDone | Err e => KError e end in
  match op with
  | KGet k => r ← secure_TryGet keccak d t k; Some (r.2, d, match r.1 with Ok v => KValue v | Err e => KError e end)
  | KUpdate k v => r ← secure_TryUpdate keccak d t k v; Some (r.2, d, done r.1)
  | KDelete k => r ← secure_TryDelete keccak d t k; Some (r.2, d, done r.1)
  | KName k => let r := GetKey d t (hashKey keccak k) in Some (r.2, d, KKey r.1)
  | KHash => r ← secure_Hash keccak t; Some (r.2, d, KRoot r.1)
  | KCommit => r ← secure_Commit keccak None d t; Some (r.1.2, r.2, KRoot r.1.1)
  end.

Fixpoint secure_run (s : SecureTrie * Database) (ops : list secure_op) : option (SecureTrie * Database * list secure_out) :=
  match ops with
  | [] => Some (s, [])
  | op :: ops => r ← secure_step s op; q ← secure_run r.1 ops; Some (q.1, r.2 :: q.2)
  end.

(** The map of the keys themselves; the key of the hash of an entry's key is
    that key. *)
Definition names_step (M : kvmap) (op : secure_op) : option (kvmap * secure_out) :=
  match op with
  | KGet k => Some (M, KValue (M !! k))
  | KUpdate k [] | KDelete k => Some (base.delete k M, KDone)
  | KUpdate k v => Some (<[k := v]> M, KDone)
  | KName k => _ ← M !! k; Some (M, KKey (Some k))
  | KHash | KCommit => Some (M, KRoot (map_hash keccak (hmap M)))
  end.

Fixpoint names_run (M : kvmap) (ops : list secure_op) : option (kvmap * list secure_out) :=
  match ops with
  | [] => Some (M, [])
  | op :: ops => r ← names_step M op; q ← names_run r.1 ops; Some (q.1, r.2 :: q.2)
  end.

Definition kop_ok (op : secure_op) : Prop := match op with KUpdate _ v => Z.of_nat (length v) < max_len | _ => True end.

(** The cache, if the trie owns it. *)
Definition own_cache (t : SecureTrie) : gmap (list Z) (list Z) := secKeyCache (getSecKeyCache t).

Definition named (d : Database) (c : gmap (list Z) (list Z)) (k : list Z) : Prop := c !! keccak k = Some k \/ preimage d (keccak k) = Some k.

Record KRep (s : SecureTrie * Database) (M : kvmap) : Prop := MkKRep {
  kr_crep : CRep s.2 (strie s.1) (hmap M);
  kr_pre : pre_ok s.2;
  kr_inj : inj_on M;
  kr_cache : forall h p, own_cache s.1 !! h = Some p -> keccak p = h;
  kr_named : forall k v, M !! k = Some v -> named s.2 (own_cache s.1) k;
}.

Lemma get_crep d t m k : CRep d t m -> Forall byte_ok k -> exists t', TryGet (db_fn d) t k = Some (Ok (m !! k), t') /\ CRep d t' m.
Proof.
  intros HC Hk. destruct (trie_step_crep keccak d t m (OGet k) HC Hk) as (t' & E & HC'); [done|]. exists t'. split; [|done]. cbn [trie_step spec_step snd] in E.
  apply bind_Some in E as ([[v|e] t1] & E & H); [by injection H as -> ->|done].
Qed.

Lemma update_crep d t m k v : CRep d t m -> Forall byte_ok k -> Z.of_nat (length k) < 2 ^ 56 -> Z.of_nat (length v) < max_len ->
  exists t', TryUpdate (db_fn d) t k v = Some (Ok tt, t') /\ CRep d t' (match v with [] => base.delete k m | _ => <[k := v]> m end).
Proof.
  intros HC Hk H1 H2. destruct (trie_step_crep keccak d t m (OUpdate k v) HC Hk) as (t' & E & HC'); [done|]. exists t'. cbn [trie_step] in E.
  apply bind_Some in E as ([[[]|e] t1] & E & H); [|by destruct v]. injection H as -> _. split; [done|]. by destruct v.
Qed.

Lemma delete_crep d t m k : CRep d t m -> Forall byte_ok k -> exists t', TryDelete (db_fn d) t k = Some (Ok tt, t') /\ CRep d t' (base.delete k m).
Proof.
  intros HC Hk. destruct (trie_step_crep keccak d t m (ODelete k) HC Hk) as (t' & E & HC'); [done|]. exists t'. cbn [trie_step] in E.
  apply bind_Some in E as ([[[]|e] t1] & E & H); [by injection H as ->|done].
Qed.

(** An entry in the cache of a key does not hide the others. *)
Lemma named_cache d c c' k k' : named d c k' -> keccak k' <> keccak k -> (forall h, h <> keccak k -> c' !! h = c !! h) -> named d c' k'.
Proof. intros [H|H] Hne Hc; [left; by rewrite Hc|by right]. Qed.

Lemma KUpdate_ok t d M k v : KRep (t, d) M -> Z.of_nat (length v) < max_len ->
  broken \/ exists t', secure_TryUpdate keccak d t k v = Some (Ok tt, t') /\ KRep (t', d) (match v with [] => base.delete k M | _ => <[k := v]> M end).
Proof.
  intros [HC Hp Hi Hc Hn] Hv. cbn [fst snd] in *. destruct (key_unique M k Hi) as [?|Hu]; [by left|].
  destruct (hmap_insert M k v Hi) as [?|[Hi1 Ei]]; [by left|]. destruct (hmap_delete M k Hi) as [?|[Hi2 Ed]]; [by left|]. right.
  destruct (update_crep d (strie t) (hmap M) (hashKey keccak k) v HC) as (t1 & E & HC1); [apply keccak_bytes|unfold hashKey; rewrite keccak_length; lia|done|].
  unfold secure_TryUpdate. rewrite E. cbn [mbind option_bind fst snd]. eexists. split; [done|]. set (t2 := MkSecure _ _ _).
  assert (own_cache t2 = <[keccak k := k]> (own_cache t)) as Ec by (unfold t2, own_cache, getSecKeyCache; by destruct t as [? ? []]).
  assert (strie t2 = t1) as Et by (unfold t2, getSecKeyCache; by destruct (owned t)).
  assert (forall k' w, M !! k' = Some w -> k' <> k -> named d (own_cache t2) k') as Hkeep.
  { intros k' w Hk' Hne. rewrite Ec. apply (named_cache d (own_cache t) _ k); [by eapply Hn|intros E'; apply Hne; by eapply Hu|]. intros h Hh. by rewrite lookup_insert_ne. }
  split; cbn [fst snd]; rewrite ?Et, ?Ec.
  - destruct v as [|b v]; [by rewrite Ed|by rewrite Ei].
  - done.
  - by destruct v.
  - intros h p [[<- <-]|[_ H]]%lookup_insert_Some; [done|by apply Hc].
  - rewrite <- Ec. intros k' w Hk'. destruct (decide (k' = k)) as [->|Hne]; [left; rewrite Ec; by rewrite lookup_insert_eq|].
    apply (Hkeep k' w); [|done]. destruct v; [by apply lookup_delete_Some in Hk' as [_ ?]|]. by rewrite lookup_insert_ne in Hk'.
Qed.

Lemma KDelete_ok t d M k : KRep (t, d) M -> broken \/ exists t', secure_TryDelete keccak d t k = Some (Ok tt, t') /\ KRep (t', d) (base.delete k M).
Proof.
  intros [HC Hp Hi Hc Hn]. cbn [fst snd] in *. destruct (key_unique M k Hi) as [?|Hu]; [by left|]. destruct (hmap_delete M k Hi) as [?|[Hi2 Ed]]; [by left|]. right.
  unfold secure_TryDelete. assert (strie (getSecKeyCache t) = strie t) as -> by (unfold getSecKeyCache; by destruct (owned t)).
  destruct (delete_crep d (strie t) (hmap M) (hashKey keccak k) HC) as (t1 & -> & HC1); [apply keccak_bytes|]. cbn [mbind option_bind fst snd]. eexists. split; [done|].
  set (t2 := MkSecure _ _ _). assert (own_cache t2 = base.delete (keccak k) (own_cache t)) as Ec by (unfold t2, own_cache, getSecKeyCache; by destruct t as [? ? []]).
  split; cbn [fst snd]; rewrite ?Ec; try done.
  - by rewrite Ed.
  - intros h p [_ H]%lookup_delete_Some. by apply Hc.
  - intros k' w [Hne Hk']%lookup_delete_Some. apply (named_cache d (own_cache t) _ k); [by eapply Hn|intros E'; apply Hne; symmetry; by eapply Hu|].
    intros h Hh. by rewrite lookup_delete_ne.
Qed.

Lemma GetKey_ok t d M k v : KRep (t, d) M -> M !! k = Some v -> broken \/ (GetKey d t (hashKey keccak k)).1 = Some k.
Proof.
  intros [HC Hp Hi Hc Hn] Hk. cbn [fst snd] in *. unfold GetKey, hashKey. fold (own_cache t). destruct (own_cache t !! keccak k) as [p|] eqn:E.
  - cbn [fst]. destruct (same_hash keccak p k) as [?| ->]; [by apply Hc|by left|by right].
  - right. cbn [fst]. rewrite BytesToHash_id by apply keccak_length. destruct (Hn k v Hk) as [H|H]; [congruence|done].
Qed.

(** A commit puts all names into the database. *)
Lemma names_inserted (d : Database) (c : gmap (list Z) (list Z)) (t : Trie) (m M : kvmap) : CRep d t m -> pre_ok d -> (forall h p, c !! h = Some p -> keccak p = h) -> (forall k v, M !! k = Some v -> named d c k) ->
  broken \/ (let d1 := insert_preimages d (map_to_list c) in CRep d1 t m /\ pre_ok d1 /\ forall k v, M !! k = Some v -> preimage d1 (keccak k) = Some k).
Proof.
  intros HC Hp Hc Hn. assert (hashed_pairs (map_to_list c)) as Hps by (apply Forall_forall; intros [h p] Hh%elem_of_map_to_list; by apply Hc).
  destruct (insert_preimages_ok (map_to_list c) d t m HC Hp Hps) as (H1 & H2 & H3 & H4). cbv zeta. set (d1 := insert_preimages d (map_to_list c)) in *.
  destruct (forall_or broken (fun kv => preimage d1 (keccak kv.1) = Some kv.1) (map_to_list M)) as [?|Hall]; [|by left|].
  - intros [k v] Hk%elem_of_map_to_list. cbn [fst]. assert (is_Some (preimage d1 (keccak k))) as [p Ep].
    { unfold preimage. destruct (preimages d1 !! keccak k) as [q|] eqn:Eq; [by eexists|]. destruct (Hn k v Hk) as [H|H].
      - assert (is_Some (preimages d1 !! keccak k)) as [? ?]; [|congruence]. apply H3. right. apply list_elem_of_fmap. exists (keccak k, k). split; [done|]. by apply elem_of_map_to_list.
      - unfold preimage in H. destruct (preimages d !! keccak k) as [q|] eqn:Eq'; [|rewrite H4, H; by eexists].
        assert (is_Some (preimages d1 !! keccak k)) as [? ?]; [|congruence]. apply H3. left. by eexists. }
    destruct (same_hash keccak p k) as [?| ->]; [|by left|by right]. eapply preimage_ok; [done|apply keccak_length|done].
  - right. split; [done|]. split; [done|]. intros k v Hk. apply (Hall (k, v)). by apply elem_of_map_to_list.
Qed.

Lemma KCommit_ok t d M : KRep (t, d) M ->
  broken \/ exists t' d', secure_Commit keccak None d t = Some (map_hash keccak (hmap M), t', d') /\ KRep (t', d') M.
Proof.
  intros [HC Hp Hi Hc Hn]. cbn [fst snd] in *. destruct (names_inserted d (own_cache t) (strie t) (hmap M) M HC Hp Hc Hn) as [?|(HC1 & Hp1 & Hn1)]; [by left|].
  set (d1 := insert_preimages d (map_to_list (own_cache t))) in *. destruct (Trie_Commit_crep keccak d1 (strie t) (hmap M) HC1 (hmap_prefix_free M Hi)) as [?|(t2 & d2 & E & HC2 & _)]; [by left|].
  assert (secure_Commit keccak None d t = r ← Trie_Commit keccak None (strie t) d1; Some (r.1.1, MkSecure r.1.2 ∅ true, r.2)) as ->.
  { unfold secure_Commit, d1, own_cache, getSecKeyCache. destruct t as [tt c []]; cbn [owned secKeyCache strie]; [|done]. destruct (0 <? size c)%nat eqn:Es; [done|].
    apply Nat.ltb_ge in Es. assert (c = ∅) as -> by (apply map_size_empty_inv; lia). done. }
  rewrite E. cbn [mbind option_bind fst snd]. right. eexists _, _. split; [done|]. apply Trie_Commit_rest in E as (E1 & E2 & E3 & E4). split; cbn [fst snd strie]; try done.
  - destruct Hp1 as [P1 P2]. split; rewrite ?E1, ?E3; done.
  - intros k v Hk. right. unfold preimage. rewrite E1, E3. by eapply Hn1.
Qed.

Lemma KHash_ok t d M : KRep (t, d) M -> exists t', secure_Hash keccak t = Some (map_hash keccak (hmap M), t') /\ KRep (t', d) M.
Proof.
  intros [HC Hp Hi Hc Hn]. cbn [fst snd] in *. destruct (Hash_crep keccak d (strie t) (hmap M) HC) as (t1 & E & HC1 & _). unfold secure_Hash. rewrite E. eexists. split; [done|].
  assert (forall t2, own_cache (MkSecure t2 (secKeyCache t) (owned t)) = own_cache t) as Ec by (intros t2; unfold own_cache, getSecKeyCache; by destruct t as [? ? []]).
  split; cbn [fst snd strie]; rewrite ?Ec; done.
Qed.

Lemma KGet_ok t d M k : KRep (t, d) M -> broken \/ exists t', secure_TryGet keccak d t k = Some (Ok (M !! k), t') /\ KRep (t', d) M.
Proof.
  intros [HC Hp Hi Hc Hn]. cbn [fst snd] in *. destruct (get_crep d (strie t) (hmap M) (hashKey keccak k) HC) as (t1 & E & HC1); [apply keccak_bytes|].
  destruct (hmap_get M k Hi) as [?|Ek]; [by left|]. right. unfold secure_TryGet. rewrite E. cbn [mbind option_bind fst snd]. unfold hashKey. rewrite Ek. eexists. split; [done|].
  assert (forall t2, own_cache (MkSecure t2 (secKeyCache t) (owned t)) = own_cache t) as Ec by (intros t2; unfold own_cache, getSecKeyCache; by destruct t as [? ? []]).
  split; cbn [fst snd strie]; rewrite ?Ec; done.
Qed.

Lemma secure_step_ok s M op M' o : KRep s M -> kop_ok op -> names_step M op = Some (M', o) ->
  broken \/ exists s', secure_step s op = Some (s', o) /\ KRep s' M'.
Proof.
  destruct s as [t d]. intros HK Ho E. destruct op as [k|k v|k|k| |]; cbn [names_step secure_step] in *.
  - injection E as <- <-. destruct (KGet_ok t d M k HK) as [?|(t' & -> & HK')]; [by left|right; by eexists].
  - destruct (KUpdate_ok t d M k v HK Ho) as [?|(t' & -> & HK')]; [by left|right]. exists (t', d). destruct v; injection E as <- <-; done.
  - injection E as <- <-. destruct (KDelete_ok t d M k HK) as [?|(t' & -> & HK')]; [by left|right; by eexists].
  - apply bind_Some in E as (v & Hv & [= <- <-]). destruct (GetKey_ok t d M k v HK Hv) as [?|Ek]; [by left|right]. eexists. rewrite Ek. split; [done|].
    assert ((GetKey d t (hashKey keccak k)).2 = getSecKeyCache t) as -> by (unfold GetKey; by destruct (secKeyCache (getSecKeyCache t) !! hashKey keccak k)). destruct HK as [H1 H2 H3 H4 H5].
    assert (own_cache (getSecKeyCache t) = own_cache t /\ strie (getSecKeyCache t) = strie t) as [Ec Et] by (unfold own_cache, getSecKeyCache; by destruct t as [? ? []]).
    split; cbn [fst snd]; rewrite ?Ec, ?Et; done.
  - injection E as <- <-. destruct (KHash_ok t d M HK) as (t' & -> & HK'). right. by eexists.
  - injection E as <- <-. destruct (KCommit_ok t d M HK) as [?|(t' & d' & -> & HK')]; [by left|right; by eexists].
Qed.

End preimages.

(** ** Witness *)

Definition demo_kops : list secure_op :=
  [KUpdate [1] (replicate 40 8); KUpdate [1; 2] [9]; KName [1]; KCommit; KGet [1]; KDelete [1; 2]; KGet [1; 2]; KName [1]; KUpdate [7] [7]; KCommit; KName [7]; KHash].

Definition new_secure : SecureTrie * Database := (MkSecure (MkTrie nilNode 0) ∅ false, NewDatabase ∅).

Lemma new_secure_rep : KRep demo_keccak new_secure ∅.
Proof.
  split; cbn [fst snd new_secure]; try done. split; [apply hrep_empty|constructor|apply empty_db_ok|apply fresh_flush_ok].
Qed.

Lemma demo_kops_ok : Forall kop_ok demo_kops.
Proof. repeat constructor; by vm_compute. Qed.

Lemma demo_names : is_Some (names_run demo_keccak ∅ demo_kops).
Proof. vm_compute. by eexists. Qed.

